(* ===== verification/_CoqProject ===== *)
-Q . S2P
Prelude.v
Bytes.v
OrdMap.v
Types.v
Node.v
Kids.v
Tree.v
Policy.v
Trace.v
Engine.v
Jsonl.v
Naive.v
Vfs.v
Counting.v
Device.v
Survive.v
Format.v
Bincode.v
Check.v
CheckSpec.v
BeTree.v
Disk.v
DiskCommit.v
DiskTree.v
Stored.v
ReadOnly.v
DiskInv.v
DiskCache.v
DiskLoad.v
DiskReads.v
Recovery.v
Durable.v
CommitWalk.v
CommitWrite.v
CommitSpread.v
Adopt.v
CommitSpec.v
Commit.v
Reopen.v
Split.v
BeTreeOps.v
Deliver.v
Flush.v
Restore.v
Reads.v
BeTreeEngine.v
Sim.v
Lockstep.v
Mirror.v
MirrorSteps.v
MirrorOps.v
MirrorFlush.v
MirrorTree.v
MirrorRoot.v
MirrorEngine.v
MirrorCommit.v
MirrorCost.v
MirrorCheck.v
DiskMap.v
MirrorOpen.v
Store.v
Create.v
Session.v
Calibrate.v
Counter.v
Machine.v
Demo.v
DiskDemo.v
EngineProps.v
DataProps.v
Workload.v
Oracle.v
Scripted.v
DiskProps.v
StoreProps.v
OracleProps.v
