(* ===== verification/Prelude.v ===== *)
(** * beetree: a verification library for the Bε-tree storage engine

    The library models the crate [beetree] ([src/src/*.rs]), a key-value
    engine whose buffered internal nodes delay mutations, and proves the
    theorems that make it correct.  Proved properties are collected in
    [EngineProps], [DataProps], [DiskProps], [StoreProps] and
    [OracleProps], each with a claim id; the other files hold the model and
    the lemmas.

    ** The program and the files that model it

    - [types.rs]: messages, upserts and their coalescing, parameters,
      violations: [Types] (with [Bytes] for bytes, keys and machine integers
      and [OrdMap] for [BTreeMap] as sorted maps).
    - [node.rs]: routing, deliveries to leaves and buffers, range clipping,
      the partition of overfull nodes: [Node].
    - [policy.rs]: the trait [FlushPolicy] as a class with its contract
      ([LawfulPolicy]) and [GreedyFullest]: [Policy].
    - [trace.rs], [engine.rs]: the recorder, the class [KvEngine] and its
      laws, histories of calls, replay: [Trace], [Engine]; traces as JSON
      lines over any serializer: [Jsonl].
    - [naive.rs]: [Naive], the reference engine.
    - [check.rs]: [Check], the executable checker of I1-I7; [CheckSpec]
      proves it equivalent to [good], the invariant of [Tree].
    - [betree.rs]: [BeTree] (arena, flush cascade, splits, reclamation,
      root settling, reads) and [Sim] ([simulate_commit], [fork_for_sim]).
    - [vfs.rs]: [Vfs] (the trait as a class, [FaultyVfs] with its op log,
      sync windows and crash images, [CountingVfs]).
    - [format.rs]: [Format] (superblock slots, node payloads) over the class
      [Codec]; [Bincode] is an instance.
    - [disk.rs]: [Disk] (slots, records, lazy loading, the bounded LRU),
      [DiskCommit] (the commit protocol, [create], [open]), [DiskTree] (the
      tree operations over slots, the infallible interface).
    - [workload.rs], [bin/oracle.rs]: [Workload] (SplitMix64, op streams) and
      [Oracle] (the scripted policy, rollouts, the improvement pass).

    ** How the model reads

    A method with [&mut self] is a state passer of type [M S A], from [S] to
    [outcome (A * S)]; a fallible one returns [Result A Err] and [x ←? m; k]
    is the operator [?].  [outcome] has the panics of a debug build: failed
    assertions and out-of-range indices are [Panic], the overflow of an
    integer is [Overflow].  A theorem [wp m Q s] (or an equation with [Ok])
    says in particular that no assertion fails and no counter overflows;
    [wpo true m Q s] leaves out the overflow of a counter only.  A [u64] is
    a [Z] with its bounds checked or wrapped as the code does; [usize],
    [NodeId] and lengths are [nat].  A [Vec] used as a stack is a list with the top at its head.
    A loop is [loopM fuel body]: it may run [2 ^ fuel] times, where [fuel] is
    computed from the state when the loop starts as 8 + 4 times the size in
    bits of a weight W of the state, so that [2 ^ fuel] exceeds 256 (W+1)^4.
    The bounds proved for the loops are below that ([Flush.fuel_ge],
    [DiskReads.d_fuel_ge], [Mirror.mirrors_fuel]), and no theorem accepts
    [OutOfFuel]; the weight of an in-memory engine counts its nodes, pivots,
    children and messages, that of a disk engine the same of its slots and
    the square of the bytes below the watermark.

    ** The layers of the proofs

    - In memory: [Tree] defines abstract trees, their invariant [good] and
      their meaning [view]; [BeTreeOps] relates the arena to a tree
      ([repr]); [Split], [Deliver], [Flush] and [Restore] specify the
      cascade on trees; [Reads] the reads; [BeTreeEngine] instantiates the
      laws of [Engine] for every lawful policy; [Machine] is the step
      relation of all public calls, with its invariant and progress.
    - On disk: [Device] states what the engine relies on of a [Vfs] (a class
      [DeviceLaws], which [FaultyVfs] meets: reads, torn writes, syncs,
      crash images); [Survive] says what every crash after a sync leaves.
      [Stored] says that a file stores a tree below an
      offset; [DiskInv] is the invariant of slots and cache and the
      representation of a tree by partly resident slots, kept by the cache
      ([DiskCache]) and by loading ([DiskLoad]); [DiskReads] and [Reopen]
      specify reads; [Recovery] and [Durable] say what [open] finds;
      [CommitWalk], [CommitWrite], [Adopt], [CommitSpec] and [Commit]
      specify the commit protocol; [ReadOnly] shows that nothing else
      writes.
    - The two engines: [Mirror] is the relation between a disk engine and the
      in-memory engine it would be if nothing were ever on disk (every node
      of the arena is a dirty slot, a record or a freed slot); [Lockstep]
      says that a method of one runs in step with a method of the other up to
      storage failures and counter overflows.  [MirrorSteps] to
      [MirrorEngine] prove it of every method from [ensure_loaded] to
      [try_scan], [MirrorCommit] of a commit against [simulate_commit],
      [MirrorOpen] of [open] ([Stored.laid] and [CommitSpread]: no two nodes
      share a record).  So what is proved of the in-memory engine holds on
      disk: [DiskMap].
    - As a store: [Store] is the contract of the disk engine (it holds one
      version of a map and has saved another), [Create] establishes it,
      [Session] is the step relation of calls, commits, crashes and
      reopenings with its specification on two versions of a map.
    - The checker and the probes on disk: [MirrorCheck] walks the mirrored
      tree through [ensure_loaded].
    - The cost model: [MirrorCost] shows that the dirty regions of the two
      engines are one up to names and that a record's size does not depend
      on the offsets it stores; [Calibrate] runs one history of calls and
      commits on both engines, with the bytes that reach the device
      ([Device.dev_bytes], the sum of all writes) next to those that
      [simulate_commit] charges.
    - [Counter] is the example program [examples/counter.rs], a client of
      the engine proved against [Store] alone.
    - Bench code: [Scripted] relates a run under any policy to the run under
      the script of its decisions.
    - [Demo] and [DiskDemo] build concrete engines by running the model; the
      properties with hypotheses are instantiated there.

    ** What the properties show

    Refinement and equivalence: every history on a [BeTree] replies what a
    finite map replies, as do the naive engine and the disk engine; a session
    of the disk engine with commits and crashes is one of a map with a saved
    version; a fork and a replay reproduce the original; the cost model
    charges for a history what a disk engine writes; the counter example
    cannot diverge.  Invariants and progress: every reachable engine
    satisfies I1-I7, the checker decides them and accepts on disk, where the
    probes agree with memory; no call is stuck.  Crash safety: whatever a crash leaves during a commit opens as the old or the
    new tree; an acknowledged commit is durable; on any file contents open and
    reads end in an answer, a typed error or the overflow of a [u64] counter
    (of the last generation in [open], of the cache on a file of 2 GiB or
    more in a read); what a sync made durable survives every later crash.  Components: splits, deliveries, extraction, removal,
    coalescing, routing, partition, the slot format, the cache, the devices.
    Bench code ([OracleProps]): op streams are well typed, the generator has
    full period, a run is reproduced by its script.

    ** Named hypotheses

    [SerdeJsonLaws]: the text of an event is compact JSON and parses back.
    [CodecLaws]: bincode and crc32 are third-party code, so encoders and
    decoders are parameters; what is relied on (decoding inverts encoding,
    decoders consume what they are given, a superblock has a bounded size,
    a decoded value is typed, offsets have a fixed width) is stated there
    and met by [Bincode].
    [BlankSlot]: zeroes are not a superblock (also met by [Bincode]).
    [DeviceLaws]: the contract of a block device, met by [FaultyVfs].
    [BlindPolicy]: a policy does not look at the id of the node, which the
    two engines number differently; met by [GreedyFullest].
    [LawfulPolicy]: a policy picks a child with pending messages, which the
    code asserts.  Crash safety is stated up to [collision]: the bytes of a
    torn superblock slot that carry their own checksum by accident.
    [connected] and [unshared] (premises of the commit theorems) say that
    dirty nodes form a subtree at the root, as a comment in [commit_inner]
    claims, and that no two nodes share a record; both follow from the
    mirror ([MirrorCommit.mirror_ready]), so sessions do not assume them.

    ** Not modelled

    [FileVfs] and [/proc] readers (the operating system), serde_json
    (a parameter of [Jsonl]), the [Debug] printers, tests and benches, the
    command line of the binaries.  Of the Zipfian generator the
    [f64] rank of a draw ([powf] has no specified precision) is the parameter
    [ZipfRank].  The disk engine's
    [drain] is modelled in [DiskTree] but specified by [ReadOnly] only: it
    can leave a dirty node below a clean parent, which the mirror excludes
    and no call of the trait does.  Of [live_walk] the count of nodes is
    specified, the sum of bytes is not.
    [bin/bench.rs] times runs and prints tables; [lib.rs] only
    re-exports; of the counter example the clock and the printing are left out. *)

From stdpp Require Export base list gmap sorting.
From stdpp Require Import options.
From Stdlib Require Export Lia ssreflect.
Global Open Scope general_if_scope.
Ltac done := stdpp.tactics.done.

(** ** Results of running Rust code

    The model is of the debug build: a failed [assert!] or [debug_assert!],
    an [unreachable!], a failed [expect], an out-of-range index and an
    underflow all end in [Panic].  The panic of a [u64] sum that exceeds
    [u64::MAX] is kept apart as [Overflow]: a counter that has run for long
    enough gets there in any state.  [OutOfFuel] is the result of a loop
    that was not given enough iterations; no theorem of the development
    accepts it as a result. *)
Inductive outcome (A : Type) : Type :=
  | Ok (a : A)
  | Panic
  | Overflow
  | OutOfFuel.
Arguments Ok {A} _.
Arguments Panic {A}.
Arguments Overflow {A}.
Arguments OutOfFuel {A}.

#[export] Instance outcome_ret : MRet outcome := @Ok.
#[export] Instance outcome_bind : MBind outcome := λ A B k m,
  match m with
  | Ok a => k a
  | Panic => Panic
  | Overflow => Overflow
  | OutOfFuel => OutOfFuel
  end.

Lemma obind_Ok {A B} (k : A → outcome B) (a : A) : (Ok a ≫= k) = k a.
Proof. done. Qed.

Lemma obind_Ok_inv {A B} (m : outcome A) (k : A → outcome B) (b : B) :
  (m ≫= k) = Ok b → ∃ a, m = Ok a ∧ k a = Ok b.
Proof. destruct m; naive_solver. Qed.

(** [opt.expect(..)], indexing, and the like. *)
Definition expect {A} (o : option A) : outcome A :=
  match o with Some a => Ok a | None => Panic end.

Definition oassert (b : bool) : outcome unit := if b then Ok tt else Panic.

Lemma expect_Ok {A} (o : option A) a : expect o = Ok a ↔ o = Some a.
Proof. destruct o; naive_solver. Qed.

(** ** [Vec] operations that panic out of range *)
Section vec.
Context {A : Type}.

(** [v.insert(n, x)] *)
Definition vec_insert (n : nat) (x : A) (l : list A) : outcome (list A) :=
  if n <=? length l then Ok (take n l ++ x :: drop n l) else Panic.
(** [v.remove(n)], of which the callers only keep the vector. *)
Definition vec_remove (n : nat) (l : list A) : outcome (list A) :=
  if n <? length l then Ok (delete n l) else Panic.
(** [v[n] = f(v[n])] *)
Definition vec_update (n : nat) (f : A → A) (l : list A) : outcome (list A) :=
  if n <? length l then Ok (alter f n l) else Panic.
(** [v[a..b]] *)
Definition vec_slice (a b : nat) (l : list A) : outcome (list A) :=
  if (a <=? b) && (b <=? length l) then Ok (take (b - a) (drop a l)) else Panic.

Lemma vec_insert_Ok n x l : n ≤ length l → vec_insert n x l = Ok (take n l ++ x :: drop n l).
Proof. intros ?. unfold vec_insert. by rewrite (proj2 (Nat.leb_le _ _)). Qed.
Lemma vec_remove_Ok n l : n < length l → vec_remove n l = Ok (delete n l).
Proof. intros ?. unfold vec_remove. by rewrite (proj2 (Nat.ltb_lt _ _)). Qed.
Lemma vec_update_Ok n f l : n < length l → vec_update n f l = Ok (alter f n l).
Proof. intros ?. unfold vec_update. by rewrite (proj2 (Nat.ltb_lt _ _)). Qed.
Lemma vec_slice_Ok a b l : a ≤ b → b ≤ length l → vec_slice a b l = Ok (take (b - a) (drop a l)).
Proof. intros ??. unfold vec_slice. by rewrite !(proj2 (Nat.leb_le _ _)). Qed.
End vec.

(** [usize] subtraction. *)
Definition usize_sub (a b : nat) : outcome nat := if b <=? a then Ok (a - b) else Panic.
Lemma usize_sub_Ok a b : b ≤ a → usize_sub a b = Ok (a - b).
Proof. intros ?. unfold usize_sub. by rewrite (proj2 (Nat.leb_le _ _)). Qed.

(** [for x in l { acc = f(acc, x) }] with a body that may panic. *)
Fixpoint ofold {A B} (f : B → A → outcome B) (b : B) (l : list A) : outcome B :=
  match l with
  | [] => Ok b
  | a :: l => b' ← f b a; ofold f b' l
  end.

Lemma ofold_app {A B} (f : B → A → outcome B) b l1 l2 :
  ofold f b (l1 ++ l2) = (b' ← ofold f b l1; ofold f b' l2).
Proof.
  revert b. induction l1 as [|a l1 IH]; intros b; [done|]; simpl.
  destruct (f b a); simpl; [apply IH|done..].
Qed.

(** A loop of steps that all succeed, with an invariant over the list of
    elements processed so far. *)
Lemma ofold_inv {A B} (I : list A → B → Prop) (f : B → A → outcome B) b l :
  I [] b →
  (∀ l1 a l2 b, l = l1 ++ a :: l2 → I l1 b → ∃ b', f b a = Ok b' ∧ I (l1 ++ [a]) b') →
  ∃ b', ofold f b l = Ok b' ∧ I l b'.
Proof.
  intros H0 Hstep.
  assert (∀ l2 l1 b, l = l1 ++ l2 → I l1 b → ∃ b', ofold f b l2 = Ok b' ∧ I l b') as H.
  { induction l2 as [|a l2 IH]; intros l1 b' -> Hb.
    - exists b'. by rewrite app_nil_r.
    - destruct (Hstep l1 a l2 b' eq_refl Hb) as (b1 & Hf & HI).
      destruct (IH (l1 ++ [a]) b1) as (b2 & Hr & HI2); [by rewrite -app_assoc|done|].
      exists b2. simpl. rewrite Hf. done. }
  by apply (H l []).
Qed.

Lemma StronglySorted_lookup {A} (R : relation A) l i j x y :
  StronglySorted R l → i < j → l !! i = Some x → l !! j = Some y → R x y.
Proof.
  intros Hs Hij Hx Hy. rewrite -(take_drop (S i) l) in Hs.
  apply (StronglySorted_app_1_elem_of _ _ _ _ _ Hs).
  - apply (list_elem_of_lookup_2 _ i). rewrite lookup_take_lt; [lia|done].
  - apply (list_elem_of_lookup_2 _ (j - S i)). rewrite lookup_drop. by replace (S i + (j - S i)) with j by lia.
Qed.

Lemma StronglySorted_filter {A} (R : relation A) (Q : A → Prop) `{∀ x, Decision (Q x)} l :
  StronglySorted R l → StronglySorted R (filter Q l).
Proof.
  induction 1 as [|x l Hl IH Hx]; [constructor|]. rewrite filter_cons. case_decide; [|done].
  constructor; [done|]. rewrite !Forall_forall in Hx |- *. intros y [_ Hy]%list_elem_of_filter. auto.
Qed.

(** ** The state monad of [&mut self] methods *)
Definition M (S A : Type) : Type := S → outcome (A * S).

#[export] Instance M_ret S : MRet (M S) := λ A a s, Ok (a, s).
#[export] Instance M_bind S : MBind (M S) := λ A B k m s,
  match m s with
  | Ok (a, s') => k a s'
  | Panic => Panic
  | Overflow => Overflow
  | OutOfFuel => OutOfFuel
  end.

Definition get_ {S} : M S S := λ s, Ok (s, s).
Definition gets {S A} (f : S → A) : M S A := λ s, Ok (f s, s).
Definition modify {S} (f : S → S) : M S unit := λ s, Ok (tt, f s).
Definition lift {S A} (o : outcome A) : M S A := λ s,
  match o with
  | Ok a => Ok (a, s)
  | Panic => Panic
  | Overflow => Overflow
  | OutOfFuel => OutOfFuel
  end.
Definition assert_ {S} (b : bool) : M S unit := lift (oassert b).

(** Total correctness: [m] runs to completion from [s] (no panic, no lack
    of fuel) in a result and a state that satisfy [Q]. *)
Definition wp {S A} (m : M S A) (Q : A → S → Prop) (s : S) : Prop :=
  ∃ a s', m s = Ok (a, s') ∧ Q a s'.

Section wp.
Context {S : Type}.
Implicit Types s : S.

Lemma wp_ret {A} (a : A) (Q : A → S → Prop) s : Q a s → wp (mret a) Q s.
Proof. intros HQ. by exists a, s. Qed.

Lemma wp_bind {A B} (m : M S A) (k : A → M S B) (Q : B → S → Prop) s :
  wp m (λ a s', wp (k a) Q s') s → wp (m ≫= k) Q s.
Proof.
  intros (a & s' & Hm & b & s'' & Hk & HQ). exists b, s''. split; [|done].
  unfold mbind, M_bind. by rewrite Hm.
Qed.

Lemma wp_mono {A} (m : M S A) (Q Q' : A → S → Prop) s :
  wp m Q s → (∀ a s', Q a s' → Q' a s') → wp m Q' s.
Proof. intros (a & s' & ? & ?) HQ. exists a, s'. eauto. Qed.

Lemma wp_run {A} (m : M S A) (Q : A → S → Prop) s a s' :
  m s = Ok (a, s') → Q a s' → wp m Q s.
Proof. intros. by exists a, s'. Qed.

Lemma wp_get (Q : S → S → Prop) s : Q s s → wp get_ Q s.
Proof. intros. by exists s, s. Qed.

Lemma wp_gets {A} (f : S → A) (Q : A → S → Prop) s : Q (f s) s → wp (gets f) Q s.
Proof. intros. by exists (f s), s. Qed.

Lemma wp_modify f (Q : unit → S → Prop) s : Q tt (f s) → wp (modify f) Q s.
Proof. intros. by exists tt, (f s). Qed.

Lemma wp_lift {A} (o : outcome A) a (Q : A → S → Prop) s :
  o = Ok a → Q a s → wp (lift o) Q s.
Proof. intros -> ?. by exists a, s. Qed.

(** What a run that returned says. *)
Lemma wp_Ok {A} (m : M S A) (Q : A → S → Prop) s a s' : wp m Q s → m s = Ok (a, s') → Q a s'.
Proof. intros (a' & s1 & E & HQ) E'. rewrite E in E'. by injection E' as -> ->. Qed.

Lemma bind_Ok {A B} (m : M S A) (k : A → M S B) s r :
  (m ≫= k) s = Ok r → ∃ a s', m s = Ok (a, s') ∧ k a s' = Ok r.
Proof. unfold mbind, M_bind. destruct (m s) as [[a s']| | |]; naive_solver. Qed.

Lemma lift_Ok {A} (o : outcome A) s r : lift o s = Ok r → ∃ a, o = Ok a ∧ r = (a, s).
Proof. unfold lift. destruct o; naive_solver. Qed.

Lemma wp_assert b (Q : unit → S → Prop) s : b = true → Q tt s → wp (assert_ b) Q s.
Proof. intros -> ?. by eapply wp_lift. Qed.
End wp.

(** [wpo ov m Q s]: total correctness of a run that may also end in an
    overflow, if [ov]. *)
Definition wpo {S A} (ov : bool) (m : M S A) (Q : A → S → Prop) (s : S) : Prop :=
  match m s with
  | Ok (a, s') => Q a s'
  | Overflow => ov = true
  | Panic | OutOfFuel => False
  end.

Section wpo.
Context {S : Type} (ov : bool).
Implicit Types s : S.

Lemma wpo_wp {A} (m : M S A) (Q : A → S → Prop) s : wpo false m Q s ↔ wp m Q s.
Proof. unfold wpo, wp. destruct (m s) as [[]| | |]; naive_solver. Qed.

Lemma wp_wpo {A} (m : M S A) (Q : A → S → Prop) s : wp m Q s → wpo ov m Q s.
Proof. unfold wpo. by intros (a & s' & -> & HQ). Qed.

Lemma wpo_ret {A} (a : A) (Q : A → S → Prop) s : Q a s → wpo ov (mret a) Q s.
Proof. done. Qed.

Lemma wpo_bind {A B} (m : M S A) (k : A → M S B) (Q : B → S → Prop) s :
  wpo ov m (λ a s', wpo ov (k a) Q s') s → wpo ov (m ≫= k) Q s.
Proof. unfold wpo, mbind, M_bind. by destruct (m s) as [[]| | |]. Qed.

Lemma wpo_mono {A} (m : M S A) (Q Q' : A → S → Prop) s :
  wpo ov m Q s → (∀ a s', Q a s' → Q' a s') → wpo ov m Q' s.
Proof. unfold wpo. destruct (m s) as [[]| | |]; auto. Qed.

Lemma wpo_get (Q : S → S → Prop) s : Q s s → wpo ov get_ Q s.
Proof. done. Qed.
Lemma wpo_gets {A} (f : S → A) (Q : A → S → Prop) s : Q (f s) s → wpo ov (gets f) Q s.
Proof. done. Qed.
Lemma wpo_modify f (Q : unit → S → Prop) s : Q tt (f s) → wpo ov (modify f) Q s.
Proof. done. Qed.
Lemma wpo_lift {A} (o : outcome A) a (Q : A → S → Prop) s : o = Ok a → Q a s → wpo ov (lift o) Q s.
Proof. by intros ->. Qed.
Lemma wpo_assert b (Q : unit → S → Prop) s : b = true → Q tt s → wpo ov (assert_ b) Q s.
Proof. by intros ->. Qed.

(** What a run that returned says, and that it did return. *)
Lemma wpo_Ok {A} (m : M S A) (Q : A → S → Prop) s a s' : wpo ov m Q s → m s = Ok (a, s') → Q a s'.
Proof. unfold wpo. intros HQ E. by rewrite E in HQ. Qed.
End wpo.

(** Bounds that are only needed when no overflow is tolerated. *)
Ltac ov_lia :=
  intros;
  repeat match goal with H : ?x = false → _, E : ?x = false |- _ => specialize (H E) end;
  lia.

(** ** Loops

    [loop { body }] and [while] loops.  [loopM fuel body l] runs [body] from
    the loop variables [l] until it breaks, for at most [2 ^ fuel s]
    iterations: a fuel logarithmic in the bound keeps the definitions cheap
    to evaluate. *)
Inductive ctl (L A : Type) : Type :=
  | Continue (l : L)
  | Break (a : A).
Arguments Continue {L A} _.
Arguments Break {L A} _.

Fixpoint loop2 {S L A} (n : nat) (body : L → M S (ctl L A)) (l : L) : M S (ctl L A) :=
  match n with
  | 0 => body l
  | Datatypes.S n =>
      c ← loop2 n body l;
      match c with
      | Continue l' => loop2 n body l'
      | Break a => mret (Break a)
      end
  end.

Definition loopM {S L A} (fuel : S → nat) (body : L → M S (ctl L A)) (l : L) : M S A := λ s,
  match loop2 (fuel s) body l s with
  | Ok (Break a, s') => Ok (a, s')
  | Ok (Continue _, _) => OutOfFuel
  | Panic => Panic
  | Overflow => Overflow
  | OutOfFuel => OutOfFuel
  end.

(** [n] iterations that all continue. *)
Inductive reaches {S L A} (body : L → M S (ctl L A)) : nat → L * S → L * S → Prop :=
  | reaches_refl x : reaches body 0 x x
  | reaches_step n l s l1 s1 x :
      body l s = Ok (Continue l1, s1) →
      reaches body n (l1, s1) x →
      reaches body (Datatypes.S n) (l, s) x.

Section loop.
Context {S L A : Type} (body : L → M S (ctl L A)).

Lemma reaches_one l s l1 s1 :
  body l s = Ok (Continue l1, s1) → reaches body 1 (l, s) (l1, s1).
Proof. intros H. eapply reaches_step; [exact H|constructor]. Qed.

Lemma reaches_trans n1 n2 x y z :
  reaches body n1 x y → reaches body n2 y z → reaches body (n1 + n2) x z.
Proof. induction 1; simpl; eauto using reaches. Qed.

Lemma loop2_continue f n l s l' s' a s'' :
  reaches body n (l, s) (l', s') → body l' s' = Ok (Break a, s'') →
  (n < 2 ^ f → loop2 f body l s = Ok (Break a, s'')) ∧
  (2 ^ f ≤ n → ∃ l1 s1, loop2 f body l s = Ok (Continue l1, s1) ∧
     reaches body (n - 2 ^ f) (l1, s1) (l', s')).
Proof.
  revert n l s. induction f as [|f IH]; intros n l s Hr Hb.
  - simpl. inversion Hr as [|n' ? ? l1 s1 ? Hstep Hrest]; subst.
    + split; [done|lia].
    + split; [lia|]. intros _. exists l1, s1. split; [done|].
      by rewrite Nat.sub_succ Nat.sub_0_r.
  - destruct (IH n l s Hr Hb) as [IH1 IH2].
    assert (2 ^ Datatypes.S f = 2 ^ f + 2 ^ f) as Hpow by (simpl; lia).
    rewrite Hpow. destruct (decide (n < 2 ^ f)) as [Hlt|Hge].
    + split; [|lia]. intros _. simpl.
      unfold mbind, M_bind. by rewrite IH1.
    + destruct IH2 as (l1 & s1 & Hl & Hr1); [lia|].
      destruct (IH _ _ _ Hr1 Hb) as [IH3 IH4].
      simpl. unfold mbind, M_bind. rewrite Hl. split.
      * intros ?. apply IH3. lia.
      * intros ?. destruct IH4 as (l2 & s2 & Hl2 & Hr2); [lia|].
        exists l2, s2. split; [done|]. by replace (n - (2 ^ f + 2 ^ f)) with (n - 2 ^ f - 2 ^ f) by lia.
Qed.

(** Enough fuel gives the result of the loop. *)
Lemma loopM_reaches fuel n l s l' s' a s'' :
  reaches body n (l, s) (l', s') → body l' s' = Ok (Break a, s'') →
  n < 2 ^ fuel s → loopM fuel body l s = Ok (a, s'').
Proof.
  intros Hr Hb Hn. unfold loopM.
  destruct (loop2_continue (fuel s) n l s l' s' a s'' Hr Hb) as [-> _]; done.
Qed.

(** The invariant rule: [I n l s] says that at most [n] more iterations
    are needed. *)
Lemma wpo_loopM ov fuel (I : nat → L → S → Prop) (Q : A → S → Prop) n l s :
  (∀ n l s, I n l s → wpo ov (body l) (λ c s', match c with
     | Continue l' => ∃ n', n' < n ∧ I n' l' s'
     | Break a => Q a s'
     end) s) →
  I n l s → n < 2 ^ fuel s → wpo ov (loopM fuel body l) Q s.
Proof.
  intros Hbody HI Hf.
  assert (∀ f n l s, I n l s → wpo ov (loop2 f body l) (λ c s', match c with
    | Continue l' => ∃ n', n' + 2 ^ f ≤ n ∧ I n' l' s'
    | Break a => Q a s'
    end) s) as H.
  { induction f as [|f IH]; intros n0 l0 s0 H0; cbn [loop2].
    - eapply wpo_mono; [by apply Hbody|]. intros [l1|a] s1; [|done].
      intros (n1 & ? & ?). exists n1. split; [simpl; lia|done].
    - apply wpo_bind. eapply wpo_mono; [by apply IH|]. intros [l1|a] s1; [|done].
      intros (n1 & ? & H1). eapply wpo_mono; [by apply IH|]. intros [l2|a] s2; [|done].
      intros (n2 & ? & ?). exists n2. split; [simpl; lia|done]. }
  unfold wpo, loopM. specialize (H (fuel s) n l s HI). unfold wpo in H.
  destruct (loop2 (fuel s) body l s) as [[[l'|a] s']| | |]; try done.
  destruct H as (n' & ? & _). lia.
Qed.

Lemma wp_loopM fuel (I : nat → L → S → Prop) (Q : A → S → Prop) n l s :
  (∀ n l s, I n l s → wp (body l) (λ c s', match c with
     | Continue l' => ∃ n', n' < n ∧ I n' l' s'
     | Break a => Q a s'
     end) s) →
  I n l s → n < 2 ^ fuel s → wp (loopM fuel body l) Q s.
Proof.
  intros Hbody HI Hf. apply wpo_wp. eapply wpo_loopM; [|done..].
  intros n0 l0 s0 H0. by apply wpo_wp, Hbody.
Qed.

(** The iterations of a loop that returned. *)
Lemma loopM_inv fuel l s a s'' :
  loopM fuel body l s = Ok (a, s'') →
  ∃ n l' s', reaches body n (l, s) (l', s') ∧ body l' s' = Ok (Break a, s'') ∧ n < 2 ^ fuel s.
Proof.
  unfold loopM. set (f := fuel s). clearbody f.
  assert (∀ f l s c s'', loop2 f body l s = Ok (c, s'') → ∃ n l' s', reaches body n (l, s) (l', s') ∧
    match c with
    | Break a => body l' s' = Ok (Break a, s'') ∧ n < 2 ^ f
    | Continue l1 => n = 2 ^ f ∧ l' = l1 ∧ s' = s''
    end) as H.
  { clear. induction f as [|f IH]; intros l s c s'' E; cbn [loop2] in E.
    - destruct c as [l1|a].
      + exists 1, l1, s''. split; [by apply reaches_one|done].
      + exists 0, l, s. split; [constructor|]. split; [done|simpl; lia].
    - apply bind_Ok in E as (c1 & s1 & E1 & E2).
      destruct (IH _ _ _ _ E1) as (n1 & l1 & s1' & R1 & H1). destruct c1 as [l2|a].
      + destruct H1 as (-> & -> & ->). destruct (IH _ _ _ _ E2) as (n2 & l3 & s3 & R2 & H2).
        exists (2 ^ f + n2), l3, s3. split; [by eapply reaches_trans|].
        assert (2 ^ Datatypes.S f = 2 ^ f + 2 ^ f) as -> by (simpl; lia).
        destruct c; naive_solver lia.
      + injection E2 as <- <-. destruct H1 as [Hb Hn]. exists n1, l1, s1'. split; [done|].
        split; [done|]. assert (2 ^ Datatypes.S f = 2 ^ f + 2 ^ f) as -> by (simpl; lia). lia. }
  intros E. destruct (loop2 f body l s) as [[[l1|a1] s1]| | |] eqn:E2; simplify_eq.
  destruct (H _ _ _ _ _ E2) as (n & l' & s' & R & Hb & Hn). eauto 10.
Qed.
End loop.

Lemma size_nat_size W : N.of_nat (N.size_nat W) = N.size W.
Proof.
  destruct W as [|p]; [done|]. simpl. induction p as [p IH|p IH|]; cbn [Pos.size_nat Pos.size]; lia.
Qed.

Lemma size_nat_mono W W' : (W ≤ W')%N → N.size_nat W ≤ N.size_nat W'.
Proof.
  intros HW. enough (N.size W ≤ N.size W')%N by (rewrite -!size_nat_size in H; lia).
  destruct (N.le_gt_cases (N.size W) (N.size W')) as [|Hgt]; [done|].
  pose proof (N.size_le W) as H1. pose proof (N.size_gt W') as H2.
  assert (2 ^ N.succ (N.size W') ≤ 2 ^ N.size W)%N by (apply N.pow_le_mono_r; lia).
  rewrite N.pow_succ_r' in H. lia.
Qed.

(** A fuel that is logarithmic in [W] pays for [256 * (W + 1) ^ 4]
    iterations. *)
Lemma pow_size_ge (W : N) n :
  n ≤ 256 * (N.to_nat W + 1) ^ 4 → n ≤ 2 ^ (8 + 4 * N.size_nat W).
Proof.
  intros Hn. etrans; [exact Hn|].
  rewrite Nat.pow_add_r. apply Nat.mul_le_mono; [by vm_compute|].
  rewrite (Nat.mul_comm 4) Nat.pow_mul_r. apply Nat.pow_le_mono_l.
  pose proof (N.size_gt W) as Hsz.
  assert (N.of_nat (2 ^ N.size_nat W) = (2 ^ N.size W)%N) as E.
  { rewrite Nat2N.inj_pow. f_equal. destruct W as [|p]; [done|]. simpl.
    rewrite -positive_nat_N. f_equal. clear. induction p as [p IH|p IH|]; cbn [Pos.size_nat Pos.size]; lia. }
  lia.
Qed.
