(* ===== verification/Bytes.v ===== *)
(** * Bytes, keys and machine integers

    The byte strings of the engine ([Vec<u8>]) with their lexicographic
    order, little-endian encodings of fixed-width integers, the wrapping
    arithmetic of [i64] and the checked arithmetic of [u64]. *)

From S2P Require Export Prelude.
From stdpp Require Import options countable.
From Stdlib Require Export Strings.Byte.
From Stdlib Require Import ZArith Orders OrdersTac.

Local Open Scope Z_scope.

(** ** Bytes *)
Definition byte_to_Z (b : byte) : Z := Z.of_N (Byte.to_N b).
Definition Z_to_byte (z : Z) : byte :=
  match Byte.of_N (Z.to_N (z mod 256)) with Some b => b | None => x00 end.

Lemma byte_to_Z_range b : 0 ≤ byte_to_Z b < 256.
Proof.
  unfold byte_to_Z. split; [lia|].
  assert (Byte.to_N b <= 255)%N; [|lia].
  pose proof (Byte.to_of_N_option_map (Byte.to_N b)) as H'. rewrite Byte.of_to_N in H'.
  simpl in H'. destruct (Byte.to_N b <=? 255)%N eqn:E; [by apply N.leb_le|done].
Qed.

Lemma Z_to_byte_to_Z z : byte_to_Z (Z_to_byte z) = z mod 256.
Proof.
  unfold Z_to_byte. pose proof (Z.mod_pos_bound z 256).
  pose proof (Byte.to_of_N_option_map (Z.to_N (z mod 256))) as H1. revert H1.
  destruct (Byte.of_N _) as [b|] eqn:E; simpl.
  - intros _. apply Byte.to_of_N in E. unfold byte_to_Z. lia.
  - destruct (_ <=? 255)%N eqn:E'; [done|]. apply N.leb_gt in E'. lia.
Qed.

Lemma byte_to_Z_to_byte b : Z_to_byte (byte_to_Z b) = b.
Proof.
  unfold Z_to_byte, byte_to_Z. pose proof (byte_to_Z_range b) as Hr. unfold byte_to_Z in Hr.
  by rewrite (Z.mod_small _ _ Hr) N2Z.id Byte.of_to_N.
Qed.

Lemma byte_to_Z_inj b1 b2 : byte_to_Z b1 = byte_to_Z b2 → b1 = b2.
Proof. intros H. by rewrite -(byte_to_Z_to_byte b1) -(byte_to_Z_to_byte b2) H. Qed.

#[export] Instance byte_eq_dec : EqDecision byte := Byte.byte_eq_dec.
#[export] Instance byte_countable : Countable byte :=
  inj_countable Byte.to_N Byte.of_N Byte.of_to_N.

(** ** Keys and values: [Vec<u8>], ordered lexicographically *)
Notation Key := (list byte).
Notation Value := (list byte).

(** The [Ord] of [Vec<u8>]: [a < b]. *)
Fixpoint key_ltb (a b : Key) : bool :=
  match a, b with
  | _, [] => false
  | [], _ :: _ => true
  | x :: a', y :: b' =>
      (byte_to_Z x <? byte_to_Z y) || ((byte_to_Z x =? byte_to_Z y) && key_ltb a' b')
  end.

Definition key_lt (a b : Key) : Prop := key_ltb a b = true.
Definition key_le (a b : Key) : Prop := key_ltb b a = false.
Definition key_leb (a b : Key) : bool := negb (key_ltb b a).

#[export] Instance key_lt_dec a b : Decision (key_lt a b).
Proof. unfold key_lt. apply _. Defined.
#[export] Instance key_le_dec a b : Decision (key_le a b).
Proof. unfold key_le. apply _. Defined.

Lemma key_leb_le a b : key_leb a b = true ↔ key_le a b.
Proof. unfold key_leb, key_le. by destruct (key_ltb b a). Qed.

Lemma key_ltb_irrefl a : key_ltb a a = false.
Proof. induction a as [|x a IH]; [done|]; simpl. rewrite IH. lia. Qed.

Lemma key_ltb_trans a b c : key_ltb a b = true → key_ltb b c = true → key_ltb a c = true.
Proof.
  revert b c. induction a as [|x a IH]; intros [|y b] [|z c]; simpl; try done.
  rewrite !orb_true_iff !andb_true_iff !Z.ltb_lt !Z.eqb_eq.
  intros [H1|[H1 H1']] [H2|[H2 H2']]; [lia..|right; split; [lia|eauto]].
Qed.

Lemma key_ltb_total a b : key_ltb a b = false → key_ltb b a = false → a = b.
Proof.
  revert b. induction a as [|x a IH]; intros [|y b]; simpl; try done.
  rewrite !orb_false_iff !andb_false_iff !Z.ltb_ge !Z.eqb_neq.
  intros [H1 [H1'|H1']] [H2 [H2'|H2']]; try lia.
  f_equal; [apply byte_to_Z_inj; lia|auto].
Qed.

(** The [order] tactic of the Standard Library on keys. *)
Module KeyTO <: TotalOrder.
Definition t := Key.
Definition eq := @eq Key.
Definition lt := key_lt.
Definition le := key_le.
#[local] Instance eq_equiv : Equivalence eq. Proof. apply _. Qed.
#[local] Instance lt_strorder : StrictOrder lt.
Proof.
  split.
  - intros a. unfold complement, lt, key_lt. by rewrite key_ltb_irrefl.
  - intros a b c. apply key_ltb_trans.
Qed.
#[local] Instance lt_compat : Proper (eq ==> eq ==> iff) lt.
Proof. by intros ? ? -> ? ? ->. Qed.
Lemma le_lteq : ∀ x y, le x y ↔ lt x y ∨ eq x y.
Proof.
  unfold le, lt, key_le, key_lt, eq. intros x y. split.
  - intros H. destruct (key_ltb x y) eqn:E; [by left|]. right. by apply key_ltb_total.
  - intros [H| ->]; [|apply key_ltb_irrefl]. destruct (key_ltb y x) eqn:E; [|done].
    pose proof (key_ltb_trans _ _ _ H E) as H'. by rewrite key_ltb_irrefl in H'.
Qed.
Lemma lt_total : ∀ x y, lt x y ∨ eq x y ∨ lt y x.
Proof.
  unfold lt, key_lt, eq. intros x y. destruct (key_ltb x y) eqn:E1; [by left|].
  destruct (key_ltb y x) eqn:E2; [by right; right|]. right; left. by apply key_ltb_total.
Qed.
End KeyTO.
Module KeyOrderTac := MakeOrderTac KeyTO KeyTO.

(** Decide goals about the order of keys. *)
Ltac key_order :=
  change key_lt with KeyTO.lt in *; change key_le with KeyTO.le in *;
  change (@eq (list byte)) with KeyTO.eq in *; KeyOrderTac.order.

Lemma key_not_lt a b : ¬ key_lt a b ↔ key_le b a.
Proof. split; intros; key_order. Qed.
Lemma key_not_le a b : ¬ key_le a b ↔ key_lt b a.
Proof. split; intros; key_order. Qed.
Lemma key_lt_le a b : key_lt a b → key_le a b.
Proof. intros; key_order. Qed.
Lemma key_le_refl a : key_le a a.
Proof. key_order. Qed.
Lemma key_lt_irrefl a : ¬ key_lt a a.
Proof. intros ?; key_order. Qed.
Lemma key_lt_trans a b c : key_lt a b → key_lt b c → key_lt a c.
Proof. intros; key_order. Qed.
Lemma key_lt_ne a b : key_lt a b → a ≠ b.
Proof. intros ? ->. by eapply key_lt_irrefl. Qed.

(** ** Fixed-width little-endian integers *)

(** [n] little-endian bytes of [z], which is taken modulo [2 ^ (8 n)]. *)
Fixpoint le_encode (n : nat) (z : Z) : list byte :=
  match n with
  | O => []
  | S n => Z_to_byte z :: le_encode n (z / 256)
  end.

Fixpoint le_decode (bs : list byte) : Z :=
  match bs with
  | [] => 0
  | b :: bs => byte_to_Z b + 256 * le_decode bs
  end.

Lemma length_le_encode n z : length (le_encode n z) = n.
Proof. revert z. induction n as [|n IH]; intros z; [done|]; simpl. by rewrite IH. Qed.

Lemma pow256_S n : 2 ^ (8 * Z.of_nat (S n)) = 256 * 2 ^ (8 * Z.of_nat n).
Proof.
  replace (8 * Z.of_nat (S n)) with (8 + 8 * Z.of_nat n) by lia.
  rewrite Z.pow_add_r; lia.
Qed.

Lemma le_decode_encode n z : le_decode (le_encode n z) = z mod 2 ^ (8 * Z.of_nat n).
Proof.
  revert z. induction n as [|n IH]; intros z.
  - simpl. by rewrite Z.mod_1_r.
  - rewrite pow256_S. cbn [le_encode le_decode]. rewrite IH Z_to_byte_to_Z.
    rewrite Z.rem_mul_r; lia.
Qed.

Lemma le_encode_decode bs : le_encode (length bs) (le_decode bs) = bs.
Proof.
  induction bs as [|b bs IH]; [done|]. cbn [length le_encode le_decode].
  pose proof (byte_to_Z_range b) as Hb. f_equal.
  - apply byte_to_Z_inj. rewrite Z_to_byte_to_Z Z.mul_comm Z.mod_add; [done|].
    by apply Z.mod_small.
  - rewrite Z.mul_comm Z.div_add; [done|]. rewrite Z.div_small; [done|]. exact IH.
Qed.

Lemma le_decode_range bs : 0 ≤ le_decode bs < 2 ^ (8 * Z.of_nat (length bs)).
Proof.
  pose proof (le_decode_encode (length bs) (le_decode bs)) as H.
  rewrite le_encode_decode in H. rewrite H. apply Z.mod_pos_bound. lia.
Qed.

(** ** [i64] with wrapping addition *)
Definition i64_wrap (z : Z) : Z := (z + 2 ^ 63) mod 2 ^ 64 - 2 ^ 63.
Definition i64_wrapping_add (a b : Z) : Z := i64_wrap (a + b).
Definition i64_to_le_bytes (z : Z) : list byte := le_encode 8 z.
Definition i64_from_le_bytes (bs : list byte) : Z := i64_wrap (le_decode bs).

Definition i64_ok (z : Z) : Prop := - 2 ^ 63 ≤ z < 2 ^ 63.

Lemma i64_wrap_range z : i64_ok (i64_wrap z).
Proof.
  unfold i64_ok, i64_wrap. pose proof (Z.mod_pos_bound (z + 2 ^ 63) (2 ^ 64)). lia.
Qed.

Lemma i64_wrap_id z : i64_ok z → i64_wrap z = z.
Proof. unfold i64_ok, i64_wrap. intros ?. rewrite Z.mod_small; lia. Qed.

Lemma i64_wrap_mod z : i64_wrap z mod 2 ^ 64 = z mod 2 ^ 64.
Proof.
  unfold i64_wrap. rewrite Zminus_mod_idemp_l. f_equal. lia.
Qed.

Lemma i64_wrap_eq a b : a mod 2 ^ 64 = b mod 2 ^ 64 → i64_wrap a = i64_wrap b.
Proof.
  intros H. unfold i64_wrap. by rewrite -(Zplus_mod_idemp_l a) H Zplus_mod_idemp_l.
Qed.

Lemma i64_add_assoc a b c :
  i64_wrapping_add (i64_wrapping_add a b) c = i64_wrapping_add a (i64_wrapping_add b c).
Proof.
  unfold i64_wrapping_add. apply i64_wrap_eq.
  rewrite -(Zplus_mod_idemp_l (i64_wrap _)) -(Zplus_mod_idemp_r (i64_wrap _)) !i64_wrap_mod.
  rewrite Zplus_mod_idemp_l Zplus_mod_idemp_r. f_equal. lia.
Qed.

Lemma i64_add_comm a b : i64_wrapping_add a b = i64_wrapping_add b a.
Proof. unfold i64_wrapping_add. f_equal. lia. Qed.

Lemma i64_add_wrap_r a b : i64_wrapping_add a (i64_wrapping_add 0 b) = i64_wrapping_add a b.
Proof.
  unfold i64_wrapping_add. apply i64_wrap_eq.
  by rewrite -Zplus_mod_idemp_r i64_wrap_mod Zplus_mod_idemp_r.
Qed.

Lemma i64_from_to_le_bytes z : i64_from_le_bytes (i64_to_le_bytes z) = i64_wrap z.
Proof.
  unfold i64_from_le_bytes, i64_to_le_bytes. rewrite le_decode_encode.
  apply i64_wrap_eq. by rewrite Z.mod_mod.
Qed.

Lemma i64_to_le_bytes_wrap z : i64_to_le_bytes (i64_wrap z) = i64_to_le_bytes z.
Proof.
  unfold i64_to_le_bytes.
  rewrite -(le_encode_decode (le_encode 8 z)) -(le_encode_decode (le_encode 8 (i64_wrap z))).
  rewrite !length_le_encode !le_decode_encode. f_equal. apply i64_wrap_mod.
Qed.

(** ** [u64]: the checked addition of the debug build *)
Definition u64_max : Z := 2 ^ 64 - 1.
Definition u64_ok (z : Z) : Prop := 0 ≤ z ≤ u64_max.
Definition u64_add (a b : Z) : outcome Z :=
  if a + b <=? u64_max then Ok (a + b) else Overflow.
Definition u64_sub (a b : Z) : outcome Z :=
  if b <=? a then Ok (a - b) else Panic.

Lemma u64_add_Ok a b : a + b ≤ u64_max → u64_add a b = Ok (a + b).
Proof. unfold u64_add. intros ?. by rewrite (proj2 (Z.leb_le _ _)). Qed.
(** A sum in a run where [ov] tells whether it may overflow. *)
Lemma wpo_u64_add {S} (ov : bool) a b (Q : Z → S → Prop) s :
  (ov = false → a + b ≤ u64_max) → (a + b ≤ u64_max → Q (a + b) s) → wpo ov (lift (u64_add a b)) Q s.
Proof.
  intros Hov HQ. unfold wpo, lift, u64_add. destruct (Z.leb_spec (a + b) u64_max) as [Hle|Hgt]; [auto|].
  destruct ov; [done|]. specialize (Hov eq_refl). lia.
Qed.

Lemma u64_sub_Ok a b : b ≤ a → u64_sub a b = Ok (a - b).
Proof. unfold u64_sub. intros ?. by rewrite (proj2 (Z.leb_le _ _)). Qed.

Lemma key_ltb_lt a b : key_ltb a b = true ↔ key_lt a b.
Proof. done. Qed.
Lemma key_ltb_ge a b : key_ltb a b = false ↔ key_le b a.
Proof. done. Qed.

(** Case analysis on the comparisons of a goal, closed by the order. *)
Ltac key_cases :=
  unfold key_leb, key_lt, key_le in *;
  repeat (match goal with
    | |- context [key_ltb ?a ?b] => destruct (key_ltb a b) eqn:?
    | H : context [key_ltb ?a ?b] |- _ =>
        lazymatch type of H with key_ltb _ _ = _ => fail | _ => destruct (key_ltb a b) eqn:? end
    end; simpl in *);
  try done;
  repeat match goal with
    | H : key_ltb ?a ?b = true |- _ => change (key_lt a b) in H
    | H : key_ltb ?a ?b = false |- _ => change (key_le b a) in H
    end;
  try (exfalso; key_order).
