(* ===== verification/OrdMap.v ===== *)
(** * The ordered maps of the code: [std::collections::BTreeMap<Key, V>]

    A [BTreeMap] is a finite map (stdpp's [gmap], so two maps with the same
    lookups are equal) whose iteration order is the order of the keys.  This
    file models the operations of the standard library that the engines
    use, with the panics its documentation states. *)

From S2P Require Export Bytes.
From stdpp Require Import options.

Notation BTreeMap := (@gmap Key list_eq_dec list_countable).

(** [std::ops::Bound<Vec<u8>>] *)
Inductive Bound : Type :=
  | Included (k : Key)
  | Excluded (k : Key)
  | Unbounded.

#[export] Instance Bound_eq_dec : EqDecision Bound.
Proof. solve_decision. Defined.

Definition above_lower (lo : Bound) (k : Key) : bool :=
  match lo with
  | Included a => negb (key_ltb k a)
  | Excluded a => key_ltb a k
  | Unbounded => true
  end.

Definition below_upper (hi : Bound) (k : Key) : bool :=
  match hi with
  | Included b => negb (key_ltb b k)
  | Excluded b => key_ltb k b
  | Unbounded => true
  end.

Definition in_bounds (lo hi : Bound) (k : Key) : bool :=
  above_lower lo k && below_upper hi k.

(** The inputs on which [BTreeMap::range] panics: a start above the end, or
    an equal start and end that are both excluded. *)
Definition range_panics (lo hi : Bound) : bool :=
  match lo, hi with
  | Excluded a, Excluded b => negb (key_ltb a b)
  | Included a, Included b => key_ltb b a
  | Included a, Excluded b => key_ltb b a
  | Excluded a, Included b => key_ltb b a
  | _, _ => false
  end.

Definition kv_lt {V} (a b : Key * V) : Prop := key_lt a.1 b.1.
Definition kv_le {V} (a b : Key * V) : Prop := key_le a.1 b.1.
#[export] Instance kv_le_dec {V} (a b : Key * V) : Decision (kv_le a b).
Proof. unfold kv_le. apply _. Defined.

Section ops.
Context {V : Type}.
Implicit Types m : BTreeMap V.

(** [m.iter()], [for (k, v) in m]: ascending order of the keys. *)
Definition bt_iter m : list (Key * V) := merge_sort kv_le (map_to_list m).

(** [m.len()], [m.is_empty()] *)
Definition bt_len m : nat := size m.
Definition bt_is_empty m : bool := bt_len m =? 0.

(** [iter.collect::<BTreeMap<_, _>>()]: a later entry replaces an earlier
    one with the same key. *)
Definition bt_collect (l : list (Key * V)) : BTreeMap V :=
  foldl (λ m kv, <[kv.1 := kv.2]> m) ∅ l.

(** [m.split_off(k)]: the entries from [k] on are removed and returned. *)
Definition bt_split_off m (k : Key) : BTreeMap V * BTreeMap V :=
  (filter (λ kv, key_lt kv.1 k) m, filter (λ kv, key_le k kv.1) m).

(** [m.append(&mut other)]: the entries of [other] replace those of [m]. *)
Definition bt_append m (other : BTreeMap V) : BTreeMap V := other ∪ m.

(** [m.range((lo, hi))] *)
Definition bt_range m (lo hi : Bound) : outcome (list (Key * V)) :=
  if range_panics lo hi then Panic
  else Ok (filter (λ kv, in_bounds lo hi kv.1 = true) (bt_iter m)).

(** [m.first_key_value()] *)
Definition bt_first_key_value m : option (Key * V) := head (bt_iter m).
End ops.

(** ** Iteration *)
#[export] Instance kv_le_trans {V} : Transitive (@kv_le V).
Proof. intros a b c; unfold kv_le; intros; key_order. Qed.
#[export] Instance kv_le_total {V} : Total (@kv_le V).
Proof.
  intros a b; unfold kv_le.
  destruct (decide (key_le a.1 b.1)); [by left|right; key_order].
Qed.

Section lemmas.
Context {V : Type}.
Implicit Types m : BTreeMap V.
Implicit Types l : list (Key * V).

Lemma bt_iter_perm m : bt_iter m ≡ₚ map_to_list m.
Proof. apply merge_sort_Permutation. Qed.

Lemma elem_of_bt_iter m k v : (k, v) ∈ bt_iter m ↔ m !! k = Some v.
Proof. by rewrite bt_iter_perm elem_of_map_to_list. Qed.

Lemma length_bt_iter m : length (bt_iter m) = size m.
Proof. by rewrite bt_iter_perm length_map_to_list. Qed.

Lemma NoDup_fst_bt_iter m : NoDup (bt_iter m).*1.
Proof. rewrite bt_iter_perm. apply NoDup_fst_map_to_list. Qed.

Lemma StronglySorted_lt_alt l :
  StronglySorted kv_lt l ↔ StronglySorted kv_le l ∧ NoDup l.*1.
Proof.
  induction l as [|x l IH]; [simpl; split; [intros _; split; constructor|intros _; constructor]|].
  split.
  - inversion 1 as [|?? Hl Hx]; subst. apply IH in Hl as [??]. simpl. split.
    + constructor; [done|]. eapply Forall_impl; [exact Hx|]. intros; by apply key_lt_le.
    + constructor; [|done]. intros (y & Hy & Hyl)%list_elem_of_fmap.
      rewrite Forall_forall in Hx. specialize (Hx y Hyl). unfold kv_lt in Hx.
      rewrite Hy in Hx. exact (key_lt_irrefl _ Hx).
  - intros [Hs Hnd]. inversion Hs as [|?? Hl Hx]; subst. inversion Hnd as [|?? Hn Hnd']; subst.
    constructor; [by apply IH|]. rewrite !Forall_forall in Hx |- *. intros y Hy.
    specialize (Hx y Hy). unfold kv_lt. unfold kv_le in Hx.
    assert (x.1 ≠ y.1); [|key_order]. intros E. apply Hn. rewrite E.
    by apply list_elem_of_fmap_2.
Qed.

Lemma bt_iter_sorted m : StronglySorted kv_lt (bt_iter m).
Proof.
  apply StronglySorted_lt_alt. split; [|apply NoDup_fst_bt_iter].
  apply StronglySorted_merge_sort; apply _.
Qed.

Lemma sorted_NoDup l : StronglySorted kv_lt l → NoDup l.
Proof. intros [_ H]%StronglySorted_lt_alt. exact (NoDup_fmap_1 fst _ H). Qed.

(** A strictly sorted list is determined by its elements. *)
Lemma sorted_ext l1 l2 :
  StronglySorted kv_lt l1 → StronglySorted kv_lt l2 → (∀ x, x ∈ l1 ↔ x ∈ l2) → l1 = l2.
Proof.
  intros H1 H2 Hel. apply (StronglySorted_unique_strong kv_lt); [|done|done|].
  - intros x y _ _. unfold kv_lt. intros. key_order.
  - apply NoDup_Permutation; [by apply sorted_NoDup..|done].
Qed.

Lemma bt_iter_unique m l :
  StronglySorted kv_lt l → (∀ k v, (k, v) ∈ l ↔ m !! k = Some v) → bt_iter m = l.
Proof.
  intros Hs Hl. apply sorted_ext; [apply bt_iter_sorted|done|].
  intros [k v]. by rewrite elem_of_bt_iter Hl.
Qed.

Lemma bt_iter_empty : bt_iter (∅ : BTreeMap V) = [].
Proof. apply bt_iter_unique; [constructor|]. intros k v. rewrite lookup_empty. set_solver. Qed.

(** ** [collect] *)
Lemma lookup_bt_collect_foldl l m k :
  foldl (λ m kv, <[kv.1 := kv.2]> m) m l !! k =
  match foldl (λ m kv, <[kv.1 := kv.2]> m) ∅ l !! k with Some v => Some v | None => m !! k end.
Proof.
  revert m. induction l as [|[j v] l IH] using rev_ind; intros m; [done|].
  rewrite !foldl_app /=. destruct (decide (j = k)) as [->|].
  - by rewrite !lookup_insert_eq.
  - rewrite !lookup_insert_ne //.
Qed.

Lemma lookup_bt_collect l k v :
  NoDup l.*1 → bt_collect l !! k = Some v ↔ (k, v) ∈ l.
Proof.
  unfold bt_collect. induction l as [|[j w] l IH] using rev_ind; intros Hnd.
  - rewrite lookup_empty. set_solver.
  - rewrite fmap_app in Hnd. apply NoDup_app in Hnd as (Hnd & Hj & _).
    rewrite foldl_app elem_of_app list_elem_of_singleton /=.
    destruct (decide (j = k)) as [->|].
    + rewrite lookup_insert_eq. split; [naive_solver|]. intros [Hin|Heq]; [|naive_solver].
      exfalso. apply (Hj k); [|set_solver]. by apply (list_elem_of_fmap_2' fst _ (k, v)).
    + rewrite lookup_insert_ne // IH //. naive_solver.
Qed.

Lemma bt_iter_collect l : StronglySorted kv_lt l → bt_iter (bt_collect l) = l.
Proof.
  intros Hs. apply bt_iter_unique; [done|]. intros k v.
  rewrite lookup_bt_collect; [by apply StronglySorted_lt_alt in Hs as [_ ?]|done].
Qed.

Lemma bt_collect_iter m : bt_collect (bt_iter m) = m.
Proof.
  apply map_eq. intros k. apply option_eq. intros v.
  rewrite lookup_bt_collect; [apply NoDup_fst_bt_iter|]. apply elem_of_bt_iter.
Qed.

Lemma size_bt_collect l : StronglySorted kv_lt l → size (bt_collect l) = length l.
Proof. intros Hs. by rewrite -length_bt_iter bt_iter_collect. Qed.
End lemmas.

(** ** [split_off], [append], [range], [first_key_value] *)
Section more_lemmas.
Context {V : Type}.
Implicit Types m : BTreeMap V.

Lemma lookup_split_off_kept m k j :
  (bt_split_off m k).1 !! j = if decide (key_lt j k) then m !! j else None.
Proof.
  simpl. rewrite map_lookup_filter. case_decide; destruct (m !! j); simpl; try done.
  - by rewrite option_guard_True.
  - by rewrite option_guard_False.
Qed.

Lemma lookup_split_off_tail m k j :
  (bt_split_off m k).2 !! j = if decide (key_lt j k) then None else m !! j.
Proof.
  simpl. rewrite map_lookup_filter. case_decide; destruct (m !! j); simpl; try done.
  - rewrite option_guard_False; [|done]. by apply key_not_le.
  - rewrite option_guard_True; [|done]. by apply key_not_lt.
Qed.

Lemma lookup_append m m' j :
  bt_append m m' !! j = match m' !! j with Some v => Some v | None => m !! j end.
Proof.
  unfold bt_append. destruct (m' !! j) eqn:E.
  - by apply lookup_union_Some_l.
  - by rewrite lookup_union_r.
Qed.

Lemma bt_split_off_disjoint m k : (bt_split_off m k).1 ##ₘ (bt_split_off m k).2.
Proof.
  apply map_disjoint_spec. intros j x y.
  rewrite lookup_split_off_kept lookup_split_off_tail. by case_decide.
Qed.

Lemma bt_append_split_off m k : bt_append (bt_split_off m k).1 (bt_split_off m k).2 = m.
Proof.
  apply map_eq. intros j.
  rewrite lookup_append lookup_split_off_kept lookup_split_off_tail.
  case_decide; [done|]. by destruct (m !! j).
Qed.

Lemma size_split_off m k :
  size (bt_split_off m k).1 + size (bt_split_off m k).2 = size m.
Proof.
  rewrite -{3}(bt_append_split_off m k). unfold bt_append.
  rewrite map_size_disj_union; [symmetry; apply bt_split_off_disjoint|]. lia.
Qed.

Lemma bt_range_Ok m lo hi :
  range_panics lo hi = false →
  bt_range m lo hi = Ok (filter (λ kv, in_bounds lo hi kv.1 = true) (bt_iter m)).
Proof. unfold bt_range. by intros ->. Qed.

Lemma bt_is_empty_true m : bt_is_empty m = true ↔ m = ∅.
Proof. unfold bt_is_empty, bt_len. by rewrite Nat.eqb_eq map_size_empty_iff. Qed.

Lemma bt_first_key_value_Some m k v :
  bt_first_key_value m = Some (k, v) →
  m !! k = Some v ∧ ∀ j w, m !! j = Some w → key_le k j.
Proof.
  unfold bt_first_key_value. intros Hh. pose proof (bt_iter_sorted m) as Hs.
  destruct (bt_iter m) as [|x l] eqn:E; [done|]. simpl in Hh. injection Hh as ->.
  inversion Hs as [|?? _ Hall]; subst. rewrite Forall_forall in Hall. split.
  - apply elem_of_bt_iter. rewrite E. by left.
  - intros j w Hj%elem_of_bt_iter. rewrite E in Hj.
    apply elem_of_cons in Hj as [[= -> ->]|Hj]; [apply key_le_refl|].
    apply key_lt_le, (Hall _ Hj).
Qed.

Lemma bt_first_key_value_None m : bt_first_key_value m = None ↔ m = ∅.
Proof.
  unfold bt_first_key_value. rewrite -map_size_empty_iff -length_bt_iter.
  by destruct (bt_iter m).
Qed.
End more_lemmas.

(** A loop over the entries of a map whose body changes the accumulated map
    only at the key of the entry: the result, key by key. *)
Lemma ofold_bt_iter {V W} (f : BTreeMap W → Key * V → outcome (BTreeMap W))
    (g : V → option W → option W) (m : BTreeMap W) (b : BTreeMap V) :
  (∀ k v m0, b !! k = Some v → m0 !! k = m !! k →
     ∃ m1, f m0 (k, v) = Ok m1 ∧ m1 !! k = g v (m !! k) ∧ ∀ j, j ≠ k → m1 !! j = m0 !! j) →
  ∃ m', ofold f m (bt_iter b) = Ok m' ∧
    ∀ k, m' !! k = match b !! k with Some v => g v (m !! k) | None => m !! k end.
Proof.
  intros Hf.
  destruct (ofold_inv (λ l m', ∀ k, m' !! k =
      match bt_collect l !! k with Some v => g v (m !! k) | None => m !! k end)
      f m (bt_iter b)) as (m' & Hm' & Hk).
  - intros k. by rewrite /bt_collect lookup_empty.
  - intros l1 [k v] l2 m0 El Hm0.
    assert (NoDup (l1 ++ (k, v) :: l2).*1) as Hnd by (rewrite -El; apply NoDup_fst_bt_iter).
    assert (b !! k = Some v) as Hb by (apply elem_of_bt_iter; rewrite El; set_solver).
    rewrite fmap_app in Hnd. apply NoDup_app in Hnd as (Hnd1 & Hk & _).
    assert (bt_collect l1 !! k = None) as Hnone.
    { destruct (bt_collect l1 !! k) as [w|] eqn:E; [|done].
      apply lookup_bt_collect in E; [|done]. exfalso. apply (Hk k); [|set_solver].
      by apply (list_elem_of_fmap_2' fst _ (k, w)). }
    destruct (Hf k v m0 Hb) as (m1 & Hm1 & Hg & Hoth).
    { by rewrite Hm0 Hnone. }
    exists m1. split; [done|]. intros j. rewrite /bt_collect foldl_app /=.
    destruct (decide (j = k)) as [->|].
    + by rewrite lookup_insert_eq.
    + rewrite Hoth; [done|]. rewrite Hm0 lookup_insert_ne; [congruence|done].
  - exists m'. split; [done|]. intros k. by rewrite Hk bt_collect_iter.
Qed.
