(* ===== verification/Types.v ===== *)
(** * Core data types ([src/types.rs])

    Upserts, messages and their coalescing, structure parameters, and the
    invariant-violation error of the checker. *)

From S2P Require Export OrdMap.
From stdpp Require Import options.
From Stdlib Require Import ZArith.

Local Open Scope Z_scope.

(** [UpsertOp] *)
Inductive UpsertOp : Type :=
  | Add (delta : Z).

(** [UpsertOp::apply] *)
Definition UpsertOp_apply (op : UpsertOp) (existing : option Value) : Value :=
  let 'Add delta := op in
  let base :=
    match existing with
    | Some bytes => if (length bytes =? 8)%nat then i64_from_le_bytes bytes else 0
    | None => 0
    end in
  i64_to_le_bytes (i64_wrapping_add base delta).

(** [Message] *)
Inductive Message : Type :=
  | Put (seq : Z) (value : Value)
  | Delete (seq : Z)
  | Upsert (seq : Z) (op : UpsertOp).

#[export] Instance UpsertOp_eq_dec : EqDecision UpsertOp.
Proof. solve_decision. Defined.
#[export] Instance Message_eq_dec : EqDecision Message.
Proof. solve_decision. Defined.

(** [Message::seq] *)
Definition Message_seq (m : Message) : Z :=
  match m with
  | Put seq _ | Delete seq | Upsert seq _ => seq
  end.

(** The table of [Message::coalesce] (newer ∘ older = result). *)
Definition coalesce_result (self older : Message) : Message :=
  match self with
  | Put _ _ | Delete _ => self
  | Upsert seq op =>
      match older with
      | Put _ value => Put seq (UpsertOp_apply op (Some value))
      | Delete _ => Put seq (UpsertOp_apply op None)
      | Upsert _ (Add d_old) =>
          let 'Add d := op in
          Upsert seq (Add (i64_wrapping_add d_old d))
      end
  end.

(** [Message::coalesce]: [self] is the newer message. *)
Definition coalesce (self older : Message) : outcome Message :=
  _ ← oassert (Message_seq older <? Message_seq self);
  mret (coalesce_result self older).

(** [Params] and its default. *)
Record Params : Type := mkParams {
  fanout : nat;
  buffer_capacity : nat;
  leaf_capacity : nat;
}.

Definition Params_default : Params :=
  {| fanout := 4; buffer_capacity := 8; leaf_capacity := 8 |}.

#[export] Instance Params_eq_dec : EqDecision Params.
Proof. solve_decision. Defined.

(** The legal ranges stated on [Params] ([F >= 2], [B >= 1], [L >= 1]). *)
Definition legal_params (p : Params) : bool :=
  (2 <=? fanout p)%nat && (1 <=? buffer_capacity p)%nat && (1 <=? leaf_capacity p)%nat.

(** [CapacityKind] *)
Inductive CapacityKind : Type := KBuffer | KLeaf | KFanout.

(** [InvariantViolation]; a [shallowest] of [None] stands for [usize::MAX]. *)
Inductive InvariantViolation : Type :=
  | KeyOutsideOwnedRange (node : nat) (key : Key)
  | PivotsOutOfOrder (node : nat) (index : nat)
  | PivotChildMismatch (node : nat) (pivots children : nat)
  | StaleAncestor (key : Key) (ancestor_seq descendant_seq : Z)
  | UncoalescedBuffer (node : nat) (key : Key)
  | OverCapacity (node : nat) (kind : CapacityKind) (occupancy limit : nat)
  | UnevenLeafDepth (shallowest : option nat) (deepest : nat)
  | EmptyNonRootLeaf (node : nat).

(** ** The meaning of a message

    [msg_apply m old] is the value of a key after message [m] reaches the
    value [old] below it ([docs/SPEC.md], "Semantics"). *)
Definition msg_apply (m : Message) (old : option Value) : option Value :=
  match m with
  | Put _ value => Some value
  | Delete _ => None
  | Upsert _ op => Some (UpsertOp_apply op old)
  end.

(** Add is total: every result is the 8-byte encoding of an [i64]. *)
Lemma length_UpsertOp_apply op existing : length (UpsertOp_apply op existing) = 8%nat.
Proof. destruct op. apply length_le_encode. Qed.

(** Only the [i64] that a delta wraps to matters. *)
Lemma UpsertOp_apply_wrap d existing :
  UpsertOp_apply (Add (i64_wrap d)) existing = UpsertOp_apply (Add d) existing.
Proof.
  unfold UpsertOp_apply, i64_wrapping_add. f_equal. apply i64_wrap_eq.
  by rewrite -Zplus_mod_idemp_r i64_wrap_mod Zplus_mod_idemp_r.
Qed.

Lemma UpsertOp_apply_apply d1 d2 existing :
  UpsertOp_apply (Add d2) (Some (UpsertOp_apply (Add d1) existing)) =
  UpsertOp_apply (Add (i64_wrapping_add d1 d2)) existing.
Proof.
  unfold UpsertOp_apply. rewrite length_le_encode /=. f_equal.
  rewrite i64_from_to_le_bytes.
  rewrite (i64_wrap_id (i64_wrapping_add _ d1)); [apply i64_wrap_range|].
  apply i64_add_assoc.
Qed.

Lemma coalesce_Ok self older :
  Message_seq older < Message_seq self → coalesce self older = Ok (coalesce_result self older).
Proof. intros Hlt. unfold coalesce. by rewrite (proj2 (Z.ltb_lt _ _) Hlt). Qed.

(** The result carries the newer seqno and means "older, then newer". *)
Lemma coalesce_result_seq self older : Message_seq (coalesce_result self older) = Message_seq self.
Proof. destruct self as [| |s [d]], older as [| |s' [d']]; done. Qed.

Lemma coalesce_result_apply self older old :
  msg_apply (coalesce_result self older) old = msg_apply self (msg_apply older old).
Proof.
  destruct self as [| |s [d]]; [done..|]. destruct older as [| |s' [d']]; [done..|].
  cbn [msg_apply coalesce_result]. by rewrite UpsertOp_apply_apply.
Qed.
