(* ===== verification/Node.v ===== *)
(** * Tree nodes ([src/node.rs])

    The node representation, routing, the application of messages to leaves
    and buffers, range clipping and the partition of overfull nodes. *)

From S2P Require Export Types.
From stdpp Require Import options.
From Stdlib Require Import ZArith.

(** [NodeId]: an index into the arena. *)
Notation NodeId := nat.

(** [LeafEntry] *)
Record LeafEntry : Type := mkLeafEntry { le_seq : Z; le_value : Value }.

#[export] Instance LeafEntry_eq_dec : EqDecision LeafEntry.
Proof. solve_decision. Defined.

(** [Node] *)
Inductive Node : Type :=
  | Internal (pivots : list Key) (children : list NodeId) (buffer : BTreeMap Message)
  | Leaf (entries : BTreeMap LeafEntry).

(** [slice::partition_point]: the index of the first element that does not
    satisfy [p], on a slice that [p] partitions. *)
Fixpoint partition_point {A} (p : A → bool) (l : list A) : nat :=
  match l with
  | [] => 0
  | x :: l => if p x then S (partition_point p l) else 0
  end.

(** [route] *)
Definition route (pivots : list Key) (key : Key) : nat :=
  partition_point (λ p, key_leb p key) pivots.

(** [Delivery] *)
Inductive Delivery : Type :=
  | DLeaf (emptied : bool)
  | DInternal (overflowed : bool).

(** [Outcome] *)
Inductive Outcome : Type :=
  | Splits (promoted : list (Key * NodeId))
  | Removed.

(** [apply_to_leaf] *)
Definition apply_to_leaf (entries : BTreeMap LeafEntry) (key : Key) (message : Message)
    : outcome (BTreeMap LeafEntry) :=
  let older seq (e : option LeafEntry) :=
    match e with Some e => (le_seq e <? seq)%Z | None => true end in
  match message with
  | Put seq value =>
      let old := entries !! key in
      let entries := <[key := mkLeafEntry seq value]> entries in
      _ ← oassert (older seq old);
      mret entries
  | Delete seq =>
      let old := entries !! key in
      let entries := delete key entries in
      _ ← oassert (older seq old);
      mret entries
  | Upsert seq op =>
      let existing := entries !! key in
      _ ← oassert (older seq existing);
      let value := UpsertOp_apply op (le_value <$> existing) in
      mret (<[key := mkLeafEntry seq value]> entries)
  end.

(** [coalesce_into] *)
Definition coalesce_into (buffer : BTreeMap Message) (key : Key) (message : Message)
    : outcome (BTreeMap Message) :=
  match buffer !! key with
  | Some occupied =>
      _ ← oassert (Message_seq occupied <? Message_seq message)%Z;
      merged ← coalesce message occupied;
      mret (<[key := merged]> buffer)
  | None => mret (<[key := message]> buffer)
  end.

(** [apply_chain] *)
Definition apply_chain (chain : option Z) (existing : option Value) : option Value :=
  match chain with
  | None => existing
  | Some sum => Some (UpsertOp_apply (Add sum) existing)
  end.

(** [range_is_empty] *)
Definition range_is_empty (lo hi : Bound) : bool :=
  let is_excluded b := match b with Excluded _ => true | _ => false end in
  let key_of b := match b with Included k | Excluded k => Some k | Unbounded => None end in
  match key_of lo, key_of hi with
  | Some a, Some b =>
      key_ltb b a || (bool_decide (a = b) && (is_excluded lo || is_excluded hi))
  | _, _ => false
  end.

(** [clip_lower] *)
Definition clip_lower (lo : Bound) (pivot : Key) : Bound :=
  match lo with
  | Included a | Excluded a => if key_leb pivot a then lo else Included pivot
  | Unbounded => Included pivot
  end.

(** [clip_upper] *)
Definition clip_upper (hi : Bound) (pivot : Key) : Bound :=
  match hi with
  | Included b | Excluded b => if key_ltb b pivot then hi else Excluded pivot
  | Unbounded => Excluded pivot
  end.

(** [partition_sizes]: the recursion halves [n], so [n] levels of recursion
    are enough when [cap >= 1] ([partition_sizes_Ok]). *)
Fixpoint partition_sizes_fuel (fuel n cap : nat) : outcome (list nat) :=
  if n <=? cap then mret [n]
  else match fuel with
  | 0 => OutOfFuel
  | S fuel =>
      let left := n / 2 in
      sizes ← partition_sizes_fuel fuel left cap;
      right ← partition_sizes_fuel fuel (n - left) cap;
      mret (sizes ++ right)
  end.

Definition partition_sizes (n cap : nat) : outcome (list nat) :=
  partition_sizes_fuel n n cap.

(** ** Routing *)
Section partition_point.
Context {A : Type} (p : A → bool).

Lemma partition_point_le l : partition_point p l ≤ length l.
Proof. induction l as [|x l IH]; simpl; [lia|]. destruct (p x); lia. Qed.

Lemma partition_point_lt l i x :
  i < partition_point p l → l !! i = Some x → p x = true.
Proof.
  revert i. induction l as [|y l IH]; intros i; simpl; [lia|].
  destruct (p y) eqn:E; [|lia]. destruct i as [|i]; simpl; [naive_solver|].
  intros ?. apply IH. lia.
Qed.

Lemma partition_point_at l x : l !! partition_point p l = Some x → p x = false.
Proof.
  induction l as [|y l IH]; simpl; [done|].
  destruct (p y) eqn:E; simpl; [done|naive_solver].
Qed.

Lemma partition_point_ext (q : A → bool) l :
  (∀ x, x ∈ l → p x = q x) → partition_point p l = partition_point q l.
Proof.
  induction l as [|y l IH]; intros H; simpl; [done|].
  rewrite H; [by left|]. destruct (q y); [|done]. f_equal. apply IH. intros; apply H. by right.
Qed.

Lemma partition_point_app_l l1 l2 :
  partition_point p l1 < length l1 → partition_point p (l1 ++ l2) = partition_point p l1.
Proof.
  induction l1 as [|y l1 IH]; simpl; [lia|]. destruct (p y); [|done].
  intros ?. rewrite IH; lia.
Qed.

Lemma partition_point_app_r l1 l2 :
  Forall (λ x, p x = true) l1 →
  partition_point p (l1 ++ l2) = length l1 + partition_point p l2.
Proof. induction 1 as [|y l1 Hy _ IH]; simpl; [done|]. by rewrite Hy IH. Qed.
End partition_point.

Lemma route_cons p pivots key :
  route (p :: pivots) key = if decide (key_le p key) then S (route pivots key) else 0.
Proof.
  unfold route. simpl. destruct (key_leb p key) eqn:E; case_decide as H; try done.
  - by apply key_leb_le in E.
  - apply key_leb_le in H. congruence.
Qed.

Lemma route_le pivots key : route pivots key ≤ length pivots.
Proof. apply partition_point_le. Qed.

(** ** Application of one message *)

(** The leaf entry, and the buffered message, that result from a message. *)
Definition leaf_result (m : Message) (e : option LeafEntry) : option LeafEntry :=
  match m with
  | Put seq value => Some (mkLeafEntry seq value)
  | Delete _ => None
  | Upsert seq op => Some (mkLeafEntry seq (UpsertOp_apply op (le_value <$> e)))
  end.

Definition buffer_result (m : Message) (o : option Message) : option Message :=
  Some (match o with Some old => coalesce_result m old | None => m end).

Lemma apply_to_leaf_Ok entries key m :
  (∀ e, entries !! key = Some e → (le_seq e < Message_seq m)%Z) →
  ∃ entries', apply_to_leaf entries key m = Ok entries' ∧
    entries' !! key = leaf_result m (entries !! key) ∧
    ∀ j, j ≠ key → entries' !! j = entries !! j.
Proof.
  intros Hlt. unfold apply_to_leaf.
  assert (oassert match entries !! key with
    | Some e => (le_seq e <? Message_seq m)%Z | None => true end = Ok tt) as Has.
  { destruct (entries !! key) as [e|] eqn:E; [|done].
    by rewrite (proj2 (Z.ltb_lt _ _) (Hlt e eq_refl)). }
  destruct m as [s v|s|s op]; simpl in *; rewrite Has /=;
    eexists; (split; [done|split]).
  - by rewrite lookup_insert_eq.
  - intros. by rewrite lookup_insert_ne.
  - by rewrite lookup_delete_eq.
  - intros. by rewrite lookup_delete_ne.
  - by rewrite lookup_insert_eq.
  - intros. by rewrite lookup_insert_ne.
Qed.

Lemma coalesce_into_Ok buffer key m :
  (∀ o, buffer !! key = Some o → (Message_seq o < Message_seq m)%Z) →
  ∃ buffer', coalesce_into buffer key m = Ok buffer' ∧
    buffer' !! key = buffer_result m (buffer !! key) ∧
    ∀ j, j ≠ key → buffer' !! j = buffer !! j.
Proof.
  intros Hlt. unfold coalesce_into. destruct (buffer !! key) as [o|] eqn:E.
  - specialize (Hlt o eq_refl). rewrite (coalesce_Ok _ _ Hlt) (proj2 (Z.ltb_lt _ _) Hlt) /=.
    eexists; split; [done|]. split; [by rewrite lookup_insert_eq|].
    intros. by rewrite lookup_insert_ne.
  - eexists; split; [done|]. split; [by rewrite lookup_insert_eq|].
    intros. by rewrite lookup_insert_ne.
Qed.

Lemma leaf_result_value m e :
  le_value <$> leaf_result m e = msg_apply m (le_value <$> e).
Proof. by destruct m. Qed.

Lemma leaf_result_seq m e e' : leaf_result m e = Some e' → le_seq e' = Message_seq m.
Proof. destruct m; naive_solver. Qed.

(** ** Reads: the pending chain of upserts *)
Lemma apply_chain_add chain d existing :
  apply_chain (Some (i64_wrapping_add (default 0%Z chain) d)) existing =
  apply_chain chain (msg_apply (Upsert 0 (Add d)) existing).
Proof.
  unfold apply_chain. destruct chain as [c|]; cbn [default msg_apply].
  - by rewrite UpsertOp_apply_apply i64_add_comm.
  - cbn -[i64_wrapping_add i64_to_le_bytes i64_from_le_bytes]. by rewrite i64_add_wrap_r.
Qed.

(** ** Ranges *)
Lemma above_clip_lower lo p k :
  above_lower (clip_lower lo p) k = above_lower lo k && key_leb p k.
Proof. destruct lo as [a|a|]; unfold clip_lower, key_leb; simpl; key_cases. Qed.

Lemma below_clip_upper hi p k :
  below_upper (clip_upper hi p) k = below_upper hi k && key_ltb k p.
Proof. destruct hi as [b|b|]; unfold clip_upper, key_leb; simpl; key_cases. Qed.

(** [range_is_empty] guards [BTreeMap::range], and is exact on the ranges it
    rejects. *)
Lemma range_is_empty_false lo hi : range_is_empty lo hi = false → range_panics lo hi = false.
Proof.
  unfold range_is_empty, range_panics.
  destruct lo as [a|a|], hi as [b|b|]; simpl; try done;
    case_bool_decide; simpl; key_cases.
Qed.

Lemma range_is_empty_true lo hi k : range_is_empty lo hi = true → in_bounds lo hi k = false.
Proof.
  unfold range_is_empty, in_bounds.
  destruct lo as [a|a|], hi as [b|b|]; simpl; try done;
    case_bool_decide; subst; simpl; key_cases.
Qed.

(** ** Partition of an overfull node *)
Lemma length_le_sum_list l : Forall (λ s, 1 ≤ s) l → length l ≤ sum_list l.
Proof. induction 1; simpl; lia. Qed.

Definition partition_spec (n cap : nat) (sizes : list nat) : Prop :=
  sum_list sizes = n ∧ Forall (λ s, s ≤ cap) sizes ∧
  (1 ≤ n → Forall (λ s, 1 ≤ s) sizes) ∧ (n ≤ cap → sizes = [n]) ∧
  (cap < n → 2 ≤ length sizes) ∧ (2 ≤ cap → cap < n → length sizes < n).

Lemma partition_spec_app n1 n2 cap s1 s2 :
  1 ≤ n1 → n1 ≤ n2 → cap < n1 + n2 →
  partition_spec n1 cap s1 → partition_spec n2 cap s2 → partition_spec (n1 + n2) cap (s1 ++ s2).
Proof.
  intros H1 H12 Hcap (Hs1 & Hc1 & Hp1 & He1 & Hl1 & Hn1) (Hs2 & Hc2 & Hp2 & He2 & Hl2 & Hn2).
  assert (1 ≤ length s1 ∧ length s1 ≤ n1) as [??].
  { split; [|rewrite -Hs1; apply length_le_sum_list, Hp1; lia].
    destruct s1; simpl in *; lia. }
  assert (1 ≤ length s2) by (destruct s2; simpl in *; lia).
  split_and!.
  - rewrite sum_list_with_app. lia.
  - by apply Forall_app.
  - intros _. apply Forall_app; split; [apply Hp1|apply Hp2]; lia.
  - lia.
  - rewrite length_app. lia.
  - intros Hcap2 _. rewrite length_app. destruct (decide (cap < n2)) as [|Hle]; [lia|].
    rewrite (He2 ltac:(lia)) /=. lia.
Qed.

Lemma partition_sizes_fuel_Ok fuel n cap :
  1 ≤ cap → n ≤ fuel →
  ∃ sizes, partition_sizes_fuel fuel n cap = Ok sizes ∧ partition_spec n cap sizes.
Proof.
  intros Hcap. revert n.
  assert (∀ n, n ≤ cap → partition_spec n cap [n]) as Hbase.
  { intros n Hn. split_and!; simpl; unfold id; intros; rewrite ?Forall_singleton; done || lia. }
  induction fuel as [|fuel IH]; intros n Hn; cbn [partition_sizes_fuel].
  - assert (n = 0) as -> by lia. exists [0]. split; [done|]. apply Hbase. lia.
  - destruct (n <=? cap) eqn:E; [apply Nat.leb_le in E|apply Nat.leb_gt in E].
    + exists [n]. split; [done|]. by apply Hbase.
    + assert (1 ≤ n / 2) by (apply Nat.div_le_lower_bound; lia).
      assert (2 * (n / 2) ≤ n) by (apply Nat.Div0.mul_div_le).
      destruct (IH (n / 2)) as (s1 & -> & H1); [lia|].
      destruct (IH (n - n / 2)) as (s2 & -> & H2); [lia|].
      exists (s1 ++ s2). split; [done|].
      replace n with (n / 2 + (n - n / 2)) by lia. apply partition_spec_app; [lia..|done|].
      by replace (n / 2 + (n - n / 2)) with n by lia.
Qed.

Lemma partition_sizes_Ok n cap :
  1 ≤ cap → ∃ sizes, partition_sizes n cap = Ok sizes ∧ partition_spec n cap sizes.
Proof. intros. by apply partition_sizes_fuel_Ok. Qed.
