(* ===== verification/Kids.v ===== *)
(** * Pivots and children

    An internal node keeps [k] pivots and [k + 1] children; child [i] owns
    the keys from pivot [i - 1] (or the node's own lower end) up to pivot
    [i] (or the node's own upper end).  This file defines that layout for
    an arbitrary ownership predicate and proves what the engine's edits of
    it preserve: the integration of split pieces, the removal of a child
    with its adjacent pivot, and the partition of an overfull node. *)

From S2P Require Export Node.
From stdpp Require Import options.

(** [in_range] ([src/check.rs]): [None] bounds are infinite. *)
Definition in_range (key : Key) (lower upper : option Key) : bool :=
  (match lower with Some lo => key_leb lo key | None => true end) &&
  (match upper with Some hi => key_ltb key hi | None => true end).

(** The ends of a range, as predicates on pivots. *)
Definition above (lo : option Key) (p : Key) : Prop :=
  match lo with Some l => key_lt l p | None => True end.
Definition below (p : Key) (hi : option Key) : Prop :=
  match hi with Some h => key_lt p h | None => True end.
(** [lo' <= lo] and [hi <= hi'], for range inclusion. *)
Definition lo_le (lo' lo : option Key) : Prop :=
  match lo', lo with
  | Some l', Some l => key_le l' l
  | None, _ => True
  | Some _, None => False
  end.
Definition hi_le (hi hi' : option Key) : Prop :=
  match hi, hi' with
  | Some h, Some h' => key_le h h'
  | _, None => True
  | None, Some _ => False
  end.

Lemma in_range_true k lo hi :
  in_range k lo hi = true ↔
  (∀ l, lo = Some l → key_le l k) ∧ (∀ h, hi = Some h → key_lt k h).
Proof.
  unfold in_range. rewrite andb_true_iff.
  destruct lo as [l|], hi as [h|]; rewrite ?key_leb_le ?key_ltb_lt; naive_solver.
Qed.

Lemma in_range_mono k lo hi lo' hi' :
  lo_le lo' lo → hi_le hi hi' → in_range k lo hi = true → in_range k lo' hi' = true.
Proof.
  rewrite !in_range_true. intros Hlo Hhi [H1 H2]. split.
  - intros l' ->. destruct lo as [l|]; [|done]. specialize (H1 l eq_refl). simpl in *. key_order.
  - intros h' ->. destruct hi as [h|]; [|done]. specialize (H2 h eq_refl). simpl in *. key_order.
Qed.

Lemma lo_le_refl lo : lo_le lo lo.
Proof. destruct lo; simpl; [apply key_le_refl|done]. Qed.
Lemma hi_le_refl hi : hi_le hi hi.
Proof. destruct hi; simpl; [apply key_le_refl|done]. Qed.
Lemma lo_le_trans a b c : lo_le a b → lo_le b c → lo_le a c.
Proof. destruct a, b, c; simpl; try done. intros. key_order. Qed.
Lemma hi_le_trans a b c : hi_le a b → hi_le b c → hi_le a c.
Proof. destruct a, b, c; simpl; try done. intros. key_order. Qed.
Lemma above_lo_le lo p : above lo p → lo_le lo (Some p).
Proof. destruct lo; simpl; [apply key_lt_le|done]. Qed.
Lemma below_hi_le p hi : below p hi → hi_le (Some p) hi.
Proof. destruct hi; simpl; [apply key_lt_le|done]. Qed.
Lemma above_mono lo' lo p : lo_le lo' lo → above lo p → above lo' p.
Proof. destruct lo', lo; simpl; try done. intros. key_order. Qed.
Lemma below_mono p hi hi' : hi_le hi hi' → below p hi → below p hi'.
Proof. destruct hi, hi'; simpl; try done. intros. key_order. Qed.
Lemma above_trans lo p q : above lo p → key_lt p q → above lo q.
Proof. destruct lo; simpl; [|done]. intros. key_order. Qed.
Lemma below_trans p q hi : key_lt p q → below q hi → below p hi.
Proof. destruct hi; simpl; [|done]. intros. key_order. Qed.

Create HintDb bounds.
#[export] Hint Resolve lo_le_refl hi_le_refl above_lo_le below_hi_le : bounds.
#[export] Hint Resolve above_mono below_mono lo_le_trans hi_le_trans : bounds.

(** A pivot inside a range cuts it in two. *)
Lemma in_range_cut k lo p hi :
  above lo p → below p hi →
  in_range k lo hi = in_range k lo (Some p) || in_range k (Some p) hi.
Proof.
  intros Ha Hb. unfold in_range, key_leb. destruct lo as [l|], hi as [h|]; simpl in *; key_cases.
Qed.

Lemma in_range_left k lo p : above lo p →
  in_range k lo (Some p) = true → ¬ key_le p k.
Proof. intros _ [_ H]%in_range_true. specialize (H p eq_refl). key_order. Qed.
Lemma in_range_right k p hi : in_range k (Some p) hi = true → key_le p k.
Proof. intros [H _]%in_range_true. by apply H. Qed.

(** The bounds [check_tree] and [scan] give to child [i]. *)
Definition child_lower (lo : option Key) (ps : list Key) (i : nat) : option Key :=
  match i with 0 => lo | S j => ps !! j end.
Definition child_upper (hi : option Key) (ps : list Key) (i : nat) : option Key :=
  match ps !! i with Some p => Some p | None => hi end.

(** [remove_child]'s choice of the adjacent pivot. *)
Definition remove_pivot (i : nat) (ps : list Key) : list Key :=
  match i with 0 => tail ps | S j => delete j ps end.

Inductive kids_ok {A} (R : option Key → option Key → A → Prop) :
    option Key → option Key → list Key → list A → Prop :=
  | kids_one lo hi c : R lo hi c → kids_ok R lo hi [] [c]
  | kids_cons lo hi p ps c cs :
      above lo p → below p hi → R lo (Some p) c →
      kids_ok R (Some p) hi ps cs → kids_ok R lo hi (p :: ps) (c :: cs).

Section kids.
Context {A : Type} (R : option Key → option Key → A → Prop).
Implicit Types (lo hi : option Key) (ps qs : list Key) (ks cs : list A).

Lemma kids_ok_length lo hi ps ks : kids_ok R lo hi ps ks → length ks = S (length ps).
Proof. induction 1; simpl; lia. Qed.

Lemma kids_ok_route_lt lo hi ps ks k : kids_ok R lo hi ps ks → route ps k < length ks.
Proof. intros H%kids_ok_length. pose proof (route_le ps k). lia. Qed.

Lemma kids_ok_at lo hi ps ks i c :
  kids_ok R lo hi ps ks → ks !! i = Some c → R (child_lower lo ps i) (child_upper hi ps i) c.
Proof.
  intros H. revert i. induction H as [lo hi d Hd|lo hi p ps d cs Ha Hb Hd Hcs IH]; intros i Hi.
  - destruct i; simpl in *; [naive_solver|done].
  - destruct i as [|i]; simpl in Hi; [naive_solver|].
    specialize (IH i Hi). destruct i; apply IH.
Qed.

Lemma kids_ok_app lo hi ps p qs ks cs :
  kids_ok R lo (Some p) ps ks → kids_ok R (Some p) hi qs cs → below p hi →
  above lo p → kids_ok R lo hi (ps ++ p :: qs) (ks ++ cs).
Proof.
  intros H Hcs Hp. remember (Some p) as up eqn:E.
  induction H as [lo up d Hd|lo up q ps d ks Ha Hb Hd Hks IH]; subst; intros Hlo; simpl.
  - by constructor.
  - simpl in Hb. constructor; [done|by eapply below_trans|done|]. by apply IH.
Qed.

(** The pivots of a layout lie strictly inside its range. *)
Lemma kids_ok_pivot lo hi ps ks p :
  kids_ok R lo hi ps ks → p ∈ ps → above lo p ∧ below p hi.
Proof.
  induction 1 as [|lo hi q ps c cs Ha Hb Hc Hcs IH]; intros Hp; [set_solver|].
  apply elem_of_cons in Hp as [->|Hp]; [done|].
  destruct (IH Hp) as [Ha' Hb']. split; [|done]. simpl in Ha'. by eapply above_trans.
Qed.

Lemma kids_ok_subst lo hi ps ks i c qs cs :
  kids_ok R lo hi ps ks → ks !! i = Some c →
  kids_ok R (child_lower lo ps i) (child_upper hi ps i) qs cs →
  kids_ok R lo hi (take i ps ++ qs ++ drop i ps) (take i ks ++ cs ++ drop (S i) ks).
Proof.
  intros H. revert i. induction H as [lo hi d Hd|lo hi p ps d ks Ha Hb Hd Hks IH]; intros i Hi Hcs.
  - destruct i; simpl in *; [|done]. by rewrite !app_nil_r.
  - destruct i as [|i]; simpl in *.
    + rewrite drop_0. by apply kids_ok_app.
    + constructor; [done..|]. apply IH; [done|]. destruct i; apply Hcs.
Qed.
End kids.

#[export] Hint Resolve kids_one kids_cons : bounds.

Lemma kids_ok_impl {A} (R R' : option Key → option Key → A → Prop) lo hi ps ks :
  (∀ l u c, c ∈ ks → R l u c → R' l u c) → kids_ok R lo hi ps ks → kids_ok R' lo hi ps ks.
Proof.
  intros HR H. induction H as [|? ? ? ? ? ? ? ? ? ? IH]; constructor; [apply HR|..]; try done.
  - by left.
  - apply HR; [by left|done].
  - apply IH. intros; apply HR; [by right|done].
Qed.

(** The layout, child by child. *)
Lemma kids_ok_intro {A} (R : option Key → option Key → A → Prop) hi ps : ∀ lo ks,
  length ks = S (length ps) → StronglySorted key_lt ps →
  (∀ p, p ∈ ps → above lo p ∧ below p hi) →
  (∀ i c, ks !! i = Some c → R (child_lower lo ps i) (child_upper hi ps i) c) →
  kids_ok R lo hi ps ks.
Proof.
  induction ps as [|p ps IH]; intros lo ks Hl Hs Hp HR.
  - destruct ks as [|c []]; try done. constructor. by apply (HR 0).
  - destruct ks as [|c ks]; [done|]. inversion Hs as [|? ? Hs' Hall]; subst.
    rewrite Forall_forall in Hall. destruct (Hp p ltac:(by left)) as [Ha Hb].
    constructor; [done..|by apply (HR 0)|]. apply IH; [simpl in Hl; lia|done| |].
    + intros q Hq. split; [by apply Hall|]. apply Hp. by right.
    + intros i c' Hi. specialize (HR (S i) c' Hi). destruct i; apply HR.
Qed.

(** Ownership that widens: a child also owns any larger range. *)
Definition widens {A} (R : option Key → option Key → A → Prop) : Prop :=
  ∀ lo hi lo' hi' c, lo_le lo' lo → hi_le hi hi' → R lo hi c → R lo' hi' c.

Section widen.
Context {A : Type} (R : option Key → option Key → A → Prop) (HR : widens R).

Lemma kids_ok_widen : widens (λ lo hi '(ps, ks), kids_ok R lo hi ps ks).
Proof using HR.
  intros lo hi lo' hi' [ps ks] Hlo Hhi H. revert lo' Hlo.
  induction H; intros; constructor; eauto with bounds.
Qed.

Lemma kids_ok_widen_lo lo lo' hi ps ks :
  lo_le lo' lo → kids_ok R lo hi ps ks → kids_ok R lo' hi ps ks.
Proof using HR. intros. by eapply (kids_ok_widen lo hi lo' hi (ps, ks)); [|apply hi_le_refl|]. Qed.

(** Removal of child [i] with its adjacent pivot: the neighbour absorbs
    the range. *)
Lemma kids_ok_remove lo hi ps ks i :
  kids_ok R lo hi ps ks → i < length ks → 2 ≤ length ks →
  kids_ok R lo hi (remove_pivot i ps) (delete i ks).
Proof using HR.
  intros H. revert i. induction H as [lo hi d Hd|lo hi p ps d ks Ha Hb Hd Hks IH]; intros i Hi Hl.
  - simpl in *; lia.
  - destruct i as [|i]; simpl in *.
    { eapply kids_ok_widen_lo; [|done]. by apply above_lo_le. }
    inversion Hks as [? ? e He|? ? q ps' e ks' Ha' Hb' He Hks' E1 E2]; subst; simpl in *.
    { assert (i = 0) as -> by lia. simpl. constructor. eapply HR; [..|exact Hd]; eauto with bounds. }
    destruct i as [|i]; simpl.
    { constructor; [by eapply above_trans|done| |done].
      eapply HR; [..|exact Hd]; [apply lo_le_refl|simpl; by apply key_lt_le]. }
    constructor; [done..|]. apply (IH (S i)); lia.
Qed.
End widen.

(** ** Routing through a layout *)
Section route.
Context {A : Type} (R : option Key → option Key → A → Prop).
Implicit Types (lo hi : option Key) (ps qs : list Key) (ks cs : list A) (k : Key).

Lemma route_child lo hi ps ks k i :
  kids_ok R lo hi ps ks → in_range k lo hi = true → i < length ks →
  route ps k = i ↔ in_range k (child_lower lo ps i) (child_upper hi ps i) = true.
Proof.
  intros H. revert i. induction H as [lo hi d Hd|lo hi p ps d ks Ha Hb Hd Hks IH]; intros i Hr Hi.
  - assert (i = 0) as -> by (simpl in *; lia). done.
  - rewrite route_cons. rewrite (in_range_cut k lo p hi) // in Hr. case_decide as Hp.
    + assert (in_range k (Some p) hi = true) as Hr'.
      { apply orb_true_iff in Hr as [Hr|Hr]; [|done].
        by apply (in_range_left k lo p) in Hr. }
      destruct i as [|i]; simpl.
      * split; [done|]. by intros ?%(in_range_left k lo p).
      * simpl in Hi. specialize (IH i Hr' ltac:(lia)). rewrite Nat.succ_inj_wd.
        destruct i; apply IH.
    + destruct i as [|i]; simpl.
      * split; [|done]. intros _. apply orb_true_iff in Hr as [Hr|Hr%in_range_right]; done.
      * split; [done|]. intros Hk. exfalso. apply Hp.
        destruct i as [|i]; simpl in Hk; [by apply in_range_right in Hk|].
        destruct (ps !! i) as [q|] eqn:Hq.
        -- apply in_range_right in Hk.
           destruct (kids_ok_pivot R (Some p) hi ps ks q) as [Hpq _]; [done| |].
           { by eapply list_elem_of_lookup_2. }
           simpl in Hpq. key_order.
        -- apply kids_ok_length in Hks. apply lookup_ge_None in Hq. simpl in Hi. lia.
Qed.

(** The routed child, which owns the key iff the node does. *)
Lemma kids_pick lo hi ps ks k :
  kids_ok R lo hi ps ks → ∃ c,
    ks !! route ps k = Some c ∧
    R (child_lower lo ps (route ps k)) (child_upper hi ps (route ps k)) c ∧
    in_range k (child_lower lo ps (route ps k)) (child_upper hi ps (route ps k)) = in_range k lo hi.
Proof.
  induction 1 as [lo hi d Hd|lo hi p ps d ks Ha Hb Hd Hks IH].
  - by exists d.
  - rewrite route_cons. case_decide as Hp.
    + destruct IH as (c & Hc & HRc & Hin). exists c. simpl. split; [done|].
      replace (match route ps k with 0 => Some p | S j => ps !! j end)
        with (child_lower (Some p) ps (route ps k)) by by destruct (route ps k).
      split; [done|]. replace (child_upper hi (p :: ps) (S (route ps k)))
        with (child_upper hi ps (route ps k)) by done. rewrite Hin.
      rewrite (in_range_cut k lo p hi) //.
      destruct (in_range k lo (Some p)) eqn:E; [|done]. by apply in_range_left in E.
    + exists d. simpl. split_and!; [done..|].
      rewrite (in_range_cut k lo p hi) //. unfold child_upper; simpl.
      destruct (in_range k (Some p) hi) eqn:E; [|by rewrite orb_false_r].
      by apply in_range_right in E.
Qed.

Lemma route_app_lt ps p qs k : key_lt k p → (∀ q, q ∈ qs → key_lt p q) →
  route (ps ++ p :: qs) k = route ps k.
Proof.
  intros Hk Hqs. induction ps as [|q ps IH]; simpl.
  - rewrite route_cons decide_False; [by apply key_not_le|done].
  - rewrite !route_cons. case_decide; [by f_equal|done].
Qed.

Lemma route_app_ge ps p qs k : (∀ q, q ∈ ps → key_lt q p) → key_le p k →
  route (ps ++ p :: qs) k = S (length ps) + route qs k.
Proof.
  intros Hps Hk. induction ps as [|q ps IH]; simpl.
  - by rewrite route_cons decide_True.
  - rewrite route_cons decide_True.
    { specialize (Hps q ltac:(by left)). key_order. }
    f_equal. apply IH. intros; apply Hps; by right.
Qed.

(** Routing after child [i] became the pieces [cs] with pivots [qs]. *)
Lemma route_subst lo hi ps ks i c qs cs k :
  kids_ok R lo hi ps ks → ks !! i = Some c →
  kids_ok R (child_lower lo ps i) (child_upper hi ps i) qs cs →
  in_range k lo hi = true →
  (take i ks ++ cs ++ drop (S i) ks) !! route (take i ps ++ qs ++ drop i ps) k =
  if decide (route ps k = i) then cs !! route qs k else ks !! route ps k.
Proof.
  intros H. revert i. induction H as [lo hi d Hd|lo hi p ps d ks Ha Hb Hd Hks IH]; intros i Hi Hcs Hr.
  - destruct i; simpl in *; [|done]. by rewrite !app_nil_r.
  - assert (∀ q, q ∈ ps → key_lt p q) as Hps.
    { intros q Hq. eapply (kids_ok_pivot R) in Hq as [Hq _]; [|exact Hks]. done. }
    rewrite route_cons. destruct i as [|i]; simpl in *.
    + rewrite drop_0. assert (∀ q, q ∈ qs → key_lt q p) as Hqs.
      { intros q Hq. eapply (kids_ok_pivot R) in Hq as [_ Hq]; [|exact Hcs]. done. }
      pose proof (kids_ok_length _ _ _ _ _ Hcs) as Hl. destruct (decide (key_le p k)) as [Hp|Hp].
      * rewrite (route_app_ge qs) //. case_decide; [done|].
        rewrite lookup_app_r; [lia|]. rewrite -(Nat.add_1_r (length qs)) in Hl.
        replace (S (length qs) + route ps k - length cs) with (route ps k) by lia. done.
      * rewrite route_app_lt //; [by apply key_not_le|].
        rewrite lookup_app_l //. pose proof (route_le qs k). lia.
    + rewrite route_cons. destruct (decide (key_le p k)) as [Hp|Hp]; simpl.
      * rewrite IH //.
        -- rewrite (in_range_cut k lo p hi) // in Hr. apply orb_true_iff in Hr as [Hr|Hr]; [|done].
           by apply (in_range_left k lo p) in Hr.
        -- destruct (decide (route ps k = i)), (decide (S (route ps k) = S i)); solve [done|lia].
      * done.
Qed.

(** Routing after child [i] was removed: its range goes to a neighbour
    that did not own it. *)
Lemma route_remove lo hi ps ks i k :
  kids_ok R lo hi ps ks → i < length ks → 2 ≤ length ks → in_range k lo hi = true →
  if decide (route ps k = i) then ∃ l u c, delete i ks !! route (remove_pivot i ps) k = Some c ∧
    R l u c ∧ in_range k l u = false
  else delete i ks !! route (remove_pivot i ps) k = ks !! route ps k.
Proof.
  intros H. revert i. induction H as [lo hi d Hd|lo hi p ps d ks Ha Hb Hd Hks IH]; intros i Hi Hl Hr.
  - simpl in *; lia.
  - rewrite route_cons. destruct i as [|i]; simpl in *.
    + destruct (decide (key_le p k)) as [Hp|Hp]; simpl; [done|].
      destruct (kids_pick (Some p) hi ps ks k Hks) as (c & Hc & HRc & Hin).
      eexists _, _, c. split_and!; [done|exact HRc|].
      rewrite Hin. destruct (in_range k (Some p) hi) eqn:E; [|done]. by apply in_range_right in E.
    + assert (key_le p k → in_range k (Some p) hi = true) as Hr'.
      { intros Hp. rewrite (in_range_cut k lo p hi) // in Hr.
        apply orb_true_iff in Hr as [Hr|Hr]; [|done]. by apply (in_range_left k lo p) in Hr. }
      destruct i as [|i]; simpl.
      * destruct ks as [|c ks]; [simpl in *; lia|].
        inversion Hks as [|? ? q ps' e ks' Ha' Hb' He Hks']; subst; simpl in *.
        -- destruct (decide (key_le p k)) as [Hp|Hp]; simpl; [|done].
           exists lo, (Some p), d. split_and!; [done..|].
           destruct (in_range k lo (Some p)) eqn:E; [|done]. by apply in_range_left in E.
        -- rewrite !route_cons. destruct (decide (key_le p k)) as [Hp|Hp].
           ++ destruct (decide (key_le q k)) as [Hq|Hq]; [done|].
              exists lo, (Some p), d. split_and!; [done..|].
              destruct (in_range k lo (Some p)) eqn:E; [|done]. by apply in_range_left in E.
           ++ destruct (decide (key_le q k)); [simpl in *; key_order|done].
      * rewrite route_cons. destruct (decide (key_le p k)) as [Hp|Hp]; simpl; [|done].
        specialize (IH (S i) ltac:(lia) ltac:(lia) (Hr' Hp)). simpl in IH.
        destruct (decide (route ps k = S i)), (decide (S (route ps k) = S (S i))); solve [done|lia].
Qed.
End route.

(** ** Integration of split pieces

    The loop of [integrate_splits] ([src/betree.rs], [src/disk.rs]). *)
Definition insert_promoted (promoted : list (Key * NodeId)) (node : list Key * list NodeId)
    : outcome (list Key * list NodeId) :=
  ofold (λ '(pivots, children) '(pivot, new_child),
    let pos := partition_point (λ p, key_ltb p pivot) pivots in
    pivots ← vec_insert pos pivot pivots;
    children ← vec_insert (pos + 1) new_child children;
    mret (pivots, children)) node promoted.

Lemma kids_ok_sorted {A} (R : option Key → option Key → A → Prop) lo hi ps ks :
  kids_ok R lo hi ps ks → StronglySorted key_lt ps.
Proof.
  induction 1 as [|lo hi p ps c cs Ha Hb Hc Hcs IH]; constructor; [done|].
  apply Forall_forall. intros q Hq. by eapply (kids_ok_pivot R) in Hq as [Hq _]; [|exact Hcs].
Qed.

Lemma StronglySorted_app_mid ps1 q ps2 :
  StronglySorted key_lt (ps1 ++ q :: ps2) →
  Forall (λ p, key_lt p q) ps1 ∧ Forall (key_lt q) ps2.
Proof.
  induction ps1 as [|p ps1 IH]; simpl; inversion 1 as [|? ? Hs Hp]; subst; [done|].
  destruct (IH Hs). split; [|done]. constructor; [|done].
  rewrite Forall_forall in Hp. apply Hp. set_solver.
Qed.

Lemma insert_promoted_Ok promoted ps1 ps2 c1 c2 :
  StronglySorted key_lt (ps1 ++ promoted.*1 ++ ps2) → length c1 = S (length ps1) →
  insert_promoted promoted (ps1 ++ ps2, c1 ++ c2) =
  Ok (ps1 ++ promoted.*1 ++ ps2, c1 ++ promoted.*2 ++ c2).
Proof.
  unfold insert_promoted. revert ps1 c1.
  induction promoted as [|[q new] promoted IH]; intros ps1 c1 Hs Hl; [done|].
  cbn [fmap list_fmap fst snd ofold].
  destruct (StronglySorted_app_mid _ _ _ Hs) as [Hlt Hgt].
  assert (partition_point (λ p, key_ltb p q) (ps1 ++ ps2) = length ps1) as ->.
  { rewrite partition_point_app_r.
    { eapply Forall_impl; [exact Hlt|]. intros p Hp. by apply key_ltb_lt. }
    rewrite -{2}(Nat.add_0_r (length ps1)). f_equal. destruct ps2 as [|p ps2]; [done|]. simpl.
    apply Forall_app in Hgt as [_ Hgt]. inversion Hgt as [|? ? Hqp]; subst. simpl in Hqp.
    destruct (key_ltb p q) eqn:E; [|done]. apply key_ltb_lt in E. by destruct (key_lt_irrefl p (key_lt_trans _ _ _ E Hqp)). }
  rewrite vec_insert_Ok; [rewrite length_app; lia|]. cbn [mbind outcome_bind].
  rewrite vec_insert_Ok; [rewrite length_app; lia|]. cbn [mbind outcome_bind].
  rewrite take_app_length drop_app_length.
  replace (length ps1 + 1) with (length c1) by lia. rewrite take_app_length drop_app_length.
  cbn [mbind outcome_bind mret outcome_ret].
  specialize (IH (ps1 ++ [q]) (c1 ++ [new])). rewrite -!app_assoc /= in IH. rewrite IH //.
  rewrite !length_app /=. lia.
Qed.

(** ** Partition of an overfull node *)
Section split.
Context {A : Type} (R : option Key → option Key → A → Prop).
Implicit Types (lo hi : option Key) (ps qs : list Key) (ks cs : list A) (k : Key).

Lemma kids_ok_split lo hi ps ks s :
  kids_ok R lo hi ps ks → 1 ≤ s → s < length ks → ∃ p,
    ps = take (s - 1) ps ++ p :: drop s ps ∧ ps !! (s - 1) = Some p ∧ above lo p ∧ below p hi ∧
    kids_ok R lo (Some p) (take (s - 1) ps) (take s ks) ∧
    kids_ok R (Some p) hi (drop s ps) (drop s ks).
Proof.
  intros H. revert s. induction H as [lo hi d Hd|lo hi p ps d ks Ha Hb Hd Hks IH]; intros s H1 Hs.
  - simpl in *; lia.
  - destruct s as [|s]; [lia|]. simpl. rewrite Nat.sub_0_r. destruct s as [|s].
    + exists p. rewrite drop_0. split_and!; [done..|by constructor|done].
    + destruct (IH (S s)) as (q & E & Hq & Ha' & Hb' & Hl & Hr); [lia|simpl in *; lia|].
      simpl in *. rewrite Nat.sub_0_r in E Hq Hl. exists q. split_and!; try done.
      * by f_equal.
      * by eapply above_trans.
      * by constructor.
Qed.

Lemma route_split lo hi ps ks s p k :
  kids_ok R lo hi ps ks → 1 ≤ s → s < length ks → ps !! (s - 1) = Some p →
  ks !! route ps k = if decide (key_le p k) then drop s ks !! route (drop s ps) k
    else take s ks !! route (take (s - 1) ps) k.
Proof.
  intros Hks H1 Hs Hp. destruct (kids_ok_split _ _ _ _ _ Hks H1 Hs) as (q & E & Hq & _).
  assert (q = p) as -> by congruence.
  pose proof (kids_ok_length R _ _ _ _ Hks) as Hl.
  pose proof (kids_ok_sorted R _ _ _ _ Hks) as Hsort. rewrite E in Hsort.
  apply StronglySorted_app_mid in Hsort as [Hlt Hgt]. rewrite !Forall_forall in Hlt, Hgt.
  rewrite {1}E. case_decide as Hk.
  - rewrite route_app_ge // lookup_drop. f_equal. rewrite length_take. lia.
  - rewrite route_app_lt; [by apply key_not_le|done|].
    rewrite lookup_take_lt //. pose proof (route_le (take (s - 1) ps) k) as Hr.
    rewrite length_take in Hr. lia.
Qed.
End split.

Lemma sum_list_with_subst {A} (f : A → nat) ks i c cs : ks !! i = Some c →
  sum_list_with f (take i ks ++ cs ++ drop (S i) ks) + f c = sum_list_with f ks + sum_list_with f cs.
Proof.
  intros Hi. rewrite -{3}(take_drop_middle _ _ _ Hi) !sum_list_with_app /=. lia.
Qed.
