(* ===== verification/Tree.v ===== *)
(** * Abstract trees

    The tree that an arena (or a table of slots) represents, the view it
    gives of one key, and the invariants of a tree at rest.  The engines
    mutate nodes addressed by id; their proofs follow the represented tree. *)

From S2P Require Export Kids.
From stdpp Require Import options.
From Stdlib Require Import ZArith.

(** ** The view of a key

    The messages buffered for a key on its root-to-leaf path, top-down, and
    the leaf entry at its end. *)
Definition View : Type := list Message * option LeafEntry.

Definition vempty : View := ([], None).
Definition vpush (o : option Message) (v : View) : View := (option_list o ++ v.1, v.2).

(** The value a reader must see, and the seqnos on the path. *)
Definition vval (v : View) : option Value := foldr msg_apply (le_value <$> v.2) v.1.
Definition vseqs (v : View) : list Z := map Message_seq v.1 ++ option_list (le_seq <$> v.2).
(** I3: every occurrence of the key is newer than all those below it. *)
Definition vfresh (v : View) : Prop := StronglySorted (λ a b, b < a)%Z (vseqs v).
Definition vbelow (n : Z) (v : View) : Prop := Forall (λ s, s < n)%Z (vseqs v).

(** [v'] is [v] after messages moved down: same value, I3 kept, and nothing
    newer than before. *)
Definition vrefines (v' v : View) : Prop :=
  vval v' = vval v ∧ (vfresh v → vfresh v') ∧ ∀ n, vbelow n v → vbelow n v'.

#[export] Instance vrefines_preorder : PreOrder vrefines.
Proof.
  split; [done|]. intros v1 v2 v3 (H1 & H2 & H3) (H4 & H5 & H6). split_and!; [congruence|auto..].
Qed.

Lemma vpush_None v : vpush None v = v.
Proof. by destruct v. Qed.
Lemma vval_vpush m v : vval (vpush (Some m) v) = msg_apply m (vval v).
Proof. done. Qed.
Lemma vseqs_vpush m v : vseqs (vpush (Some m) v) = Message_seq m :: vseqs v.
Proof. done. Qed.

Lemma vfresh_vpush m v : vfresh (vpush (Some m) v) ↔ vbelow (Message_seq m) v ∧ vfresh v.
Proof.
  unfold vfresh, vbelow. rewrite vseqs_vpush. split; [by inversion 1|intros []; by constructor].
Qed.

Lemma vbelow_vpush n m v : vbelow n (vpush (Some m) v) ↔ (Message_seq m < n)%Z ∧ vbelow n v.
Proof. unfold vbelow. by rewrite vseqs_vpush Forall_cons. Qed.

Lemma vpush_refines o v' v : vrefines v' v → vrefines (vpush o v') (vpush o v).
Proof.
  intros (Hval & Hf & Hb). destruct o as [m|]; [|by rewrite !vpush_None].
  split_and!.
  - by rewrite !vval_vpush Hval.
  - rewrite !vfresh_vpush. naive_solver.
  - intros n. rewrite !vbelow_vpush. naive_solver.
Qed.

Lemma vbelow_mono n n' v : (n ≤ n')%Z → vbelow n v → vbelow n' v.
Proof. intros Hn H. eapply Forall_impl; [exact H|]. simpl. lia. Qed.

(** Delivery to a leaf, and to a buffer. *)
Lemma leaf_result_refines m e :
  vrefines ([], leaf_result m e) (vpush (Some m) ([], e)).
Proof.
  split_and!.
  - by rewrite vval_vpush {1}/vval /= leaf_result_value.
  - intros _. unfold vfresh, vseqs. simpl. destruct (leaf_result m e); simpl; repeat constructor.
  - intros n. rewrite vbelow_vpush. intros [Hm _]. unfold vbelow, vseqs. simpl.
    destruct (leaf_result m e) eqn:E; simpl; constructor; [|done].
    by rewrite (leaf_result_seq _ _ _ E).
Qed.

Lemma buffer_result_refines m o v :
  vrefines (vpush (buffer_result m o) v) (vpush (Some m) (vpush o v)).
Proof.
  destruct o as [o|]; [|by rewrite vpush_None].
  unfold buffer_result. split_and!.
  - by rewrite !vval_vpush coalesce_result_apply.
  - rewrite !vfresh_vpush !vbelow_vpush coalesce_result_seq. naive_solver.
  - intros n. rewrite !vbelow_vpush coalesce_result_seq. naive_solver.
Qed.

(** ** Trees *)
Local Unset Elimination Schemes.
Inductive tree : Type :=
  | TLeaf (id : NodeId) (entries : BTreeMap LeafEntry)
  | TInt (id : NodeId) (pivots : list Key) (kids : list tree) (buffer : BTreeMap Message).

Local Set Elimination Schemes.

Section tree_ind.
Variable P : tree → Prop.
Hypothesis HLeaf : ∀ id e, P (TLeaf id e).
Hypothesis HInt : ∀ id ps ks b, Forall P ks → P (TInt id ps ks b).

Fixpoint tree_nested_ind (t : tree) : P t :=
  match t with
  | TLeaf id e => HLeaf id e
  | TInt id ps ks b => HInt id ps ks b
      ((fix go ks : Forall P ks := match ks with
        | [] => Forall_nil_2 P
        | c :: ks => Forall_cons_2 P c ks (tree_nested_ind c) (go ks)
        end) ks)
  end.
End tree_ind.

Definition label (t : tree) : NodeId :=
  match t with TLeaf id _ | TInt id _ _ _ => id end.

(** The node a subtree's root must be in the arena. *)
Definition node_of (t : tree) : Node :=
  match t with
  | TLeaf _ e => Leaf e
  | TInt _ ps ks b => Internal ps (map label ks) b
  end.

Fixpoint nodes_of (t : tree) : list (NodeId * Node) :=
  (label t, node_of t) ::
  match t with TLeaf _ _ => [] | TInt _ _ ks _ => flat_map nodes_of ks end.

Definition forest_nodes (ks : list tree) : list (NodeId * Node) := flat_map nodes_of ks.
Definition ids (t : tree) : list NodeId := (nodes_of t).*1.
Definition forest_ids (ks : list tree) : list NodeId := (forest_nodes ks).*1.

(** The view of a key in a tree, and in a layout of children. *)
Fixpoint view (t : tree) (k : Key) : View :=
  match t with
  | TLeaf _ e => ([], e !! k)
  | TInt _ ps ks b => vpush (b !! k) (default vempty (map (λ c, view c k) ks !! route ps k))
  end.

Definition kview (ps : list Key) (ks : list tree) (k : Key) : View :=
  match ks !! route ps k with Some c => view c k | None => vempty end.

Lemma view_TInt id ps ks b k : view (TInt id ps ks b) k = vpush (b !! k) (kview ps ks k).
Proof. unfold kview. simpl. rewrite list_lookup_fmap. by destruct (ks !! route ps k). Qed.

Lemma kview_singleton c k : kview [] [c] k = view c k.
Proof. done. Qed.

(** ** Sizes *)

(** Buffered messages, and messages and leaf entries together. *)
Fixpoint msgs (t : tree) : nat :=
  match t with TLeaf _ _ => 0 | TInt _ _ ks b => size b + sum_list_with msgs ks end.
Fixpoint weight (t : tree) : nat :=
  match t with TLeaf _ e => size e | TInt _ _ ks b => size b + sum_list_with weight ks end.
(** The flush potential: the levels that messages still have to travel, in
    a tree of height [h]. *)
Fixpoint phi (h : nat) (t : tree) : nat :=
  match t with
  | TLeaf _ _ => 0
  | TInt _ _ ks b => h * size b + sum_list_with (phi (pred h)) ks
  end.

(** ** Trees at rest *)
Definition keys_in {V} (lo hi : option Key) (m : BTreeMap V) : Prop :=
  ∀ k v, m !! k = Some v → in_range k lo hi = true.

Lemma keys_in_None {V} (lo hi : option Key) (m : BTreeMap V) (k : Key) :
  keys_in lo hi m → in_range k lo hi = false → m !! k = None.
Proof.
  intros Hm Hk. destruct (m !! k) as [v|] eqn:E; [|done]. apply Hm in E. congruence.
Qed.

Lemma keys_in_widen {V} (lo hi lo' hi' : option Key) (m : BTreeMap V) :
  lo_le lo' lo → hi_le hi hi' → keys_in lo hi m → keys_in lo' hi' m.
Proof. intros Hlo Hhi Hm k v Hk. eapply in_range_mono; [done..|]. by eapply Hm. Qed.

Section good.
Context (prm : Params).

(** I1, I2, I5, I6, I7 for a subtree of height [h] that is not the root:
    keys and pivots in range, capacities respected, uniform height, no
    empty leaf. *)
Fixpoint good (h : nat) (lo hi : option Key) (t : tree) : Prop :=
  match h, t with
  | 0, TLeaf _ e => keys_in lo hi e ∧ 1 ≤ size e ≤ leaf_capacity prm
  | S h, TInt _ ps ks b =>
      keys_in lo hi b ∧ size b ≤ buffer_capacity prm ∧
      length ks ≤ fanout prm ∧ kids_ok (good h) lo hi ps ks
  | _, _ => False
  end.

(** The whole tree between public operations: the root may be a leaf of
    any size up to the capacity, or an internal node like any other. *)
Definition at_rest (h : nat) t : Prop :=
  match h, t with
  | 0, TLeaf _ e => size e ≤ leaf_capacity prm
  | S _, TInt _ _ _ _ => good h None None t
  | _, _ => False
  end.

(** What a flushed child leaves to its parent: nothing, or pieces. *)
Definition pieces_ok (h : nat) (lo hi : option Key) (ps : list Key) (ks : list tree) : Prop :=
  (ps = [] ∧ ks = []) ∨ kids_ok (good h) lo hi ps ks.

(** An internal node in the middle of its flush: buffer and fanout may
    overflow, and deliveries may have emptied every child. *)
Definition loose (h : nat) (lo hi : option Key) (t : tree) : Prop :=
  match t with
  | TLeaf _ _ => False
  | TInt _ ps ks b => keys_in lo hi b ∧ pieces_ok h lo hi ps ks ∧ (ks = [] → b = ∅)
  end.

Lemma good_widen h : widens (good h).
Proof.
  induction h as [|h IH]; intros lo hi lo' hi' [id e|id ps ks b] Hlo Hhi H; try done; simpl in *.
  - destruct H as [Hk Hs]. split; [by eapply keys_in_widen|done].
  - destruct H as (Hk & Hb & Hf & Hks). split_and!; [by eapply keys_in_widen|done..|].
    eapply (kids_ok_widen _ IH lo hi lo' hi' (ps, ks)); done.
Qed.

Lemma good_view_out h lo hi t k :
  good h lo hi t → in_range k lo hi = false → view t k = vempty.
Proof.
  revert lo hi t. induction h as [|h IH]; intros lo hi [id e|id ps ks b] H Hk; try done.
  - destruct H as [He _]. simpl. by rewrite (keys_in_None lo hi).
  - destruct H as (Hb & _ & _ & Hks). rewrite view_TInt (keys_in_None lo hi b) // vpush_None.
    destruct (kids_pick _ _ _ _ _ k Hks) as (c & Hc & HRc & Hin).
    unfold kview. rewrite Hc. eapply IH; [exact HRc|]. by rewrite Hin.
Qed.

Lemma sum_list_with_ge_1 {A} (f : A → nat) l : Forall (λ x, 1 ≤ f x) l → length l ≤ sum_list_with f l.
Proof. induction 1; simpl; lia. Qed.

Lemma kids_ok_Forall {A} (R : option Key → option Key → A → Prop) lo hi ps ks :
  kids_ok R lo hi ps ks → Forall (λ c, ∃ l u, R l u c) ks.
Proof. induction 1; eauto. Qed.

Lemma good_weight h lo hi t : good h lo hi t → 1 ≤ weight t.
Proof.
  revert lo hi t. induction h as [|h IH]; intros lo hi [id e|id ps ks b] H; try done; simpl in *.
  - lia.
  - destruct H as (_ & _ & _ & Hks). pose proof (kids_ok_length _ _ _ _ _ Hks).
    enough (length ks ≤ sum_list_with weight ks) by lia. apply sum_list_with_ge_1.
    eapply Forall_impl; [by eapply kids_ok_Forall|]. intros c (l & u & Hc). by eapply IH.
Qed.

Lemma kids_weight h lo hi ps ks : kids_ok (good h) lo hi ps ks → length ks ≤ sum_list_with weight ks.
Proof.
  intros Hks. apply sum_list_with_ge_1.
  eapply Forall_impl; [by eapply kids_ok_Forall|]. intros c (l & u & Hc). by eapply good_weight.
Qed.
End good.

(** ** Counting *)
Lemma sum_list_with_le {A} (f g : A → nat) l :
  Forall (λ x, f x ≤ g x) l → sum_list_with f l ≤ sum_list_with g l.
Proof. induction 1; simpl; lia. Qed.

Lemma sum_list_with_mul {A} (f : A → nat) n l :
  sum_list_with (λ x, n * f x) l = n * sum_list_with f l.
Proof. induction l; simpl; lia. Qed.

Lemma phi_le_msgs h t : phi h t ≤ h * msgs t.
Proof.
  revert h. induction t as [|id ps ks b IH] using tree_nested_ind; intros h; simpl; [lia|].
  assert (sum_list_with (phi (pred h)) ks ≤ sum_list_with (λ c, h * msgs c) ks) as H.
  { apply sum_list_with_le. eapply Forall_impl; [exact IH|]. intros c Hc. simpl.
    etrans; [apply Hc|]. apply Nat.mul_le_mono_r. lia. }
  rewrite sum_list_with_mul in H. lia.
Qed.

Lemma msgs_le_weight t : msgs t ≤ weight t.
Proof.
  induction t as [|id ps ks b IH] using tree_nested_ind; simpl; [lia|].
  apply Nat.add_le_mono_l, sum_list_with_le, IH.
Qed.

Lemma good_msgs_phi prm h lo hi t : good prm h lo hi t → msgs t ≤ phi h t.
Proof.
  revert lo hi t. induction h as [|h IH]; intros lo hi [id e|id ps ks b] H; try done; simpl in *.
  destruct H as (_ & _ & _ & Hks). apply Nat.add_le_mono; [lia|]. apply sum_list_with_le.
  eapply Forall_impl; [by eapply kids_ok_Forall|]. intros c (l & u & Hc). by eapply IH.
Qed.

(** ** Ids *)
Lemma forest_ids_app ks1 ks2 : forest_ids (ks1 ++ ks2) = forest_ids ks1 ++ forest_ids ks2.
Proof. unfold forest_ids, forest_nodes. by rewrite flat_map_app fmap_app. Qed.
Lemma forest_ids_cons c ks : forest_ids (c :: ks) = ids c ++ forest_ids ks.
Proof. unfold forest_ids, forest_nodes, ids. simpl. by rewrite fmap_app. Qed.
Lemma ids_TInt id ps ks b : ids (TInt id ps ks b) = id :: forest_ids ks.
Proof. done. Qed.
Lemma ids_TLeaf id e : ids (TLeaf id e) = [id].
Proof. done. Qed.
Lemma label_in_ids t : label t ∈ ids t.
Proof. destruct t; left. Qed.

Lemma elem_of_forest_ids i ks : i ∈ forest_ids ks ↔ ∃ c, c ∈ ks ∧ i ∈ ids c.
Proof.
  induction ks as [|c ks IH]; [set_solver|]. rewrite forest_ids_cons. set_solver.
Qed.

Lemma label_in_forest_ids x ks : x ∈ map label ks → x ∈ forest_ids ks.
Proof.
  intros Hx. apply list_elem_of_fmap in Hx as (c & -> & Hc).
  apply elem_of_forest_ids. exists c. split; [done|apply label_in_ids].
Qed.

Lemma labels_NoDup ks : NoDup (forest_ids ks) → NoDup (map label ks).
Proof.
  induction ks as [|c ks IH]; simpl; [constructor|]. rewrite forest_ids_cons.
  intros (_ & Hc & Hks)%NoDup_app. constructor; [|by apply IH].
  intros Hin%label_in_forest_ids. by apply (Hc (label c)); [apply label_in_ids|].
Qed.

(** ** Represented trees *)
Definition repr (f : NodeId → option Node) (t : tree) : Prop :=
  Forall (λ '(i, n), f i = Some n) (nodes_of t).
Definition forest_repr (f : NodeId → option Node) (ks : list tree) : Prop :=
  Forall (λ '(i, n), f i = Some n) (forest_nodes ks).

Lemma repr_TInt f id ps ks b :
  repr f (TInt id ps ks b) ↔ f id = Some (Internal ps (map label ks) b) ∧ forest_repr f ks.
Proof. unfold repr. simpl. by rewrite Forall_cons. Qed.
Lemma repr_TLeaf f id e : repr f (TLeaf id e) ↔ f id = Some (Leaf e).
Proof. unfold repr. simpl. rewrite Forall_singleton. done. Qed.
Lemma forest_repr_app f ks1 ks2 :
  forest_repr f (ks1 ++ ks2) ↔ forest_repr f ks1 ∧ forest_repr f ks2.
Proof. unfold forest_repr, forest_nodes. by rewrite flat_map_app Forall_app. Qed.
Lemma forest_repr_cons f c ks : forest_repr f (c :: ks) ↔ repr f c ∧ forest_repr f ks.
Proof. unfold forest_repr, repr. simpl. by rewrite Forall_app. Qed.
Lemma forest_repr_nil f : forest_repr f [].
Proof. constructor. Qed.

Lemma repr_label f t : repr f t → f (label t) = Some (node_of t).
Proof. destruct t; [by rewrite repr_TLeaf|by rewrite repr_TInt; intros []]. Qed.

Lemma repr_Forall_frame f f' (l : list (NodeId * Node)) :
  (∀ i, i ∈ l.*1 → f' i = f i) →
  Forall (λ '(i, n), f i = Some n) l → Forall (λ '(i, n), f' i = Some n) l.
Proof.
  intros Hf. rewrite !Forall_forall. intros H [i n] Hi. rewrite Hf.
  - apply (list_elem_of_fmap_2 fst) in Hi. done.
  - by apply (H (i, n)).
Qed.

Lemma repr_frame f f' t : (∀ i, i ∈ ids t → f' i = f i) → repr f t → repr f' t.
Proof. apply repr_Forall_frame. Qed.
Lemma forest_repr_frame f f' ks :
  (∀ i, i ∈ forest_ids ks → f' i = f i) → forest_repr f ks → forest_repr f' ks.
Proof. apply repr_Forall_frame. Qed.

Lemma repr_is_Some f t i : repr f t → i ∈ ids t → is_Some (f i).
Proof.
  unfold repr, ids. rewrite Forall_forall. intros H Hi.
  apply list_elem_of_fmap in Hi as ([j n] & -> & Hi). by rewrite (H _ Hi).
Qed.
Lemma forest_repr_is_Some f ks i : forest_repr f ks → i ∈ forest_ids ks → is_Some (f i).
Proof.
  unfold forest_repr, forest_ids. rewrite Forall_forall. intros H Hi.
  apply list_elem_of_fmap in Hi as ([j n] & -> & Hi). by rewrite (H _ Hi).
Qed.

(** Replacement of a child by pieces over its own ids and fresh ones. *)
Lemma NoDup_replace (l1 l2 l3 l : list NodeId) n :
  NoDup (l1 ++ l2 ++ l3) → (∀ i, i ∈ l1 ++ l2 ++ l3 → i < n) → NoDup l →
  (∀ i, i ∈ l → i ∈ l2 ∨ n ≤ i) → NoDup (l1 ++ l ++ l3).
Proof.
  rewrite !NoDup_app. intros (H1 & H12 & H2 & H23 & H3) Hn Hl Hsub.
  assert (∀ i, i ∈ l1 → i ∉ l) as Hl1.
  { intros i Hi Hil. destruct (Hsub i Hil) as [Hi2|Hge]; [set_solver|].
    specialize (Hn i ltac:(set_solver)). lia. }
  assert (∀ i, i ∈ l3 → i ∉ l) as Hl3.
  { intros i Hi Hil. destruct (Hsub i Hil) as [Hi2|Hge]; [set_solver|].
    specialize (Hn i ltac:(set_solver)). lia. }
  set_solver.
Qed.

(** ** Replacement of a child by what became of it *)
Definition replace_pivots {A} (i : nat) (qs : list Key) (cs : list A) (ps : list Key) : list Key :=
  match cs with [] => remove_pivot i ps | _ => take i ps ++ qs ++ drop i ps end.
Definition replace_kids {A} (i : nat) (cs ks : list A) : list A :=
  take i ks ++ cs ++ drop (S i) ks.

Lemma replace_kids_nil {A} i (ks : list A) : replace_kids i [] ks = delete i ks.
Proof. unfold replace_kids. by rewrite delete_take_drop. Qed.

Lemma replace_kids_length {A} i c (cs ks : list A) : ks !! i = Some c →
  length (replace_kids i cs ks) + 1 = length ks + length cs.
Proof.
  intros Hi%lookup_lt_Some. unfold replace_kids.
  rewrite !length_app length_take length_drop. lia.
Qed.

Lemma replace_kids_sum {A} (f : A → nat) i c cs ks : ks !! i = Some c →
  sum_list_with f (replace_kids i cs ks) + f c = sum_list_with f ks + sum_list_with f cs.
Proof. apply sum_list_with_subst. Qed.

Lemma forest_ids_replace i cs ks :
  forest_ids (replace_kids i cs ks) = forest_ids (take i ks) ++ forest_ids cs ++ forest_ids (drop (S i) ks).
Proof. unfold replace_kids. by rewrite !forest_ids_app. Qed.

Lemma forest_ids_split i c ks : ks !! i = Some c →
  forest_ids ks = forest_ids (take i ks) ++ ids c ++ forest_ids (drop (S i) ks).
Proof.
  intros Hi. rewrite -{1}(take_drop_middle _ _ _ Hi) forest_ids_app forest_ids_cons. done.
Qed.

Section replace.
Context (prm : Params).
Implicit Types (h : nat) (lo hi : option Key) (ps qs : list Key) (ks cs : list tree).

Lemma replace_ok h lo hi ps ks i c qs cs :
  kids_ok (good prm h) lo hi ps ks → ks !! i = Some c →
  pieces_ok prm h (child_lower lo ps i) (child_upper hi ps i) qs cs →
  pieces_ok prm h lo hi (replace_pivots i qs cs ps) (replace_kids i cs ks).
Proof.
  intros Hks Hi [[-> ->]|Hcs].
  - rewrite replace_kids_nil. pose proof (kids_ok_length _ _ _ _ _ Hks) as Hl.
    pose proof (lookup_lt_Some _ _ _ Hi) as Hlt.
    destruct (decide (2 ≤ length ks)) as [H2|H2].
    + right. apply kids_ok_remove; [apply good_widen|done..].
    + left. assert (i = 0) as -> by lia. destruct ks as [|? []]; simpl in *; try lia.
      destruct ps; [done|simpl in *; lia].
  - right. unfold replace_pivots. destruct cs as [|c' cs]; [inversion Hcs|].
    by eapply kids_ok_subst.
Qed.

Lemma replace_view h lo hi ps ks i c qs cs k :
  kids_ok (good prm h) lo hi ps ks → ks !! i = Some c →
  pieces_ok prm h (child_lower lo ps i) (child_upper hi ps i) qs cs →
  in_range k lo hi = true →
  kview (replace_pivots i qs cs ps) (replace_kids i cs ks) k =
  if decide (route ps k = i) then kview qs cs k else kview ps ks k.
Proof.
  intros Hks Hi [[-> ->]|Hcs] Hk; unfold kview.
  - rewrite replace_kids_nil. pose proof (kids_ok_length _ _ _ _ _ Hks) as Hl.
    pose proof (lookup_lt_Some _ _ _ Hi) as Hlt. simpl.
    destruct (decide (2 ≤ length ks)) as [H2|H2].
    + pose proof (route_remove _ _ _ _ _ _ _ Hks Hlt H2 Hk) as Hr. case_decide as Hrt.
      * destruct Hr as (l & u & c' & -> & Hc' & Hin). by eapply good_view_out.
      * by rewrite Hr.
    + assert (i = 0) as -> by lia. destruct ks as [|? []]; simpl in *; try lia.
      destruct ps; [|simpl in *; lia]. by destruct (decide (route [] k = 0)).
  - unfold replace_pivots. destruct cs as [|c' cs]; [inversion Hcs|].
    unfold replace_kids. rewrite (route_subst (good prm h) lo hi ps ks i c) //. by case_decide.
Qed.
End replace.
