(* ===== verification/Policy.v ===== *)
(** * Flush policies ([src/policy.rs])

    The flush-child choice behind the [FlushPolicy] trait, its contract as a
    class of laws, and the normative baseline [GreedyFullest]. *)

From S2P Require Export Node.
From stdpp Require Import options.
From Stdlib Require Import ZArith.

(** [FlushCtx] *)
Record FlushCtx : Type := mkFlushCtx {
  ctx_node : NodeId;
  ctx_depth : nat;
  child_pending : list nat;
  child_pending_bytes : list Z;
  child_dirty : list bool;
  buffer_total : nat;
  ctx_ops_since_commit : Z;
}.

(** The trait [FlushPolicy]: a policy may keep state, and may panic. *)
Class FlushPolicy (P : Type) : Type :=
  choose : P → FlushCtx → outcome (nat * P).

(** The contract stated on the trait: the chosen index names a child with
    pending messages, whenever there is one. *)
Class LawfulPolicy (P : Type) `{FlushPolicy P} : Prop :=
  choose_lawful (p : P) ctx :
    Exists (λ n, 0 < n) (child_pending ctx) →
    ∃ i p' n, choose p ctx = Ok (i, p') ∧ child_pending ctx !! i = Some n ∧ 0 < n.

(** A policy that does not look at the name of the node: two engines that
    number their nodes differently choose alike. *)
Definition rename_ctx (id : NodeId) (ctx : FlushCtx) : FlushCtx :=
  mkFlushCtx id (ctx_depth ctx) (child_pending ctx) (child_pending_bytes ctx) (child_dirty ctx)
    (buffer_total ctx) (ctx_ops_since_commit ctx).
Class BlindPolicy (P : Type) `{FlushPolicy P} : Prop :=
  choose_blind (p : P) ctx id : choose p (rename_ctx id ctx) = choose p ctx.

(** [GreedyFullest] and its rule [GreedyFullest::pick]. *)
Inductive GreedyFullest : Type := mkGreedyFullest.

Definition pick (child_pending : list nat) : outcome nat :=
  ofold (λ chosen '(i, count),
    current ← expect (child_pending !! chosen);
    mret (if current <? count then i else chosen)) 0 (imap pair child_pending).

#[export] Instance GreedyFullest_policy : FlushPolicy GreedyFullest := λ self ctx,
  chosen ← pick (child_pending ctx);
  mret (chosen, self).

#[export] Instance GreedyFullest_blind : BlindPolicy GreedyFullest.
Proof. done. Qed.

(** [entry_bytes] *)
Definition entry_bytes (key : Key) (message : Message) : Z :=
  let key_bytes := (8 + Z.of_nat (length key))%Z in
  let message_bytes :=
    match message with
    | Put _ value => 4 + 8 + 8 + Z.of_nat (length value)
    | Delete _ => 4 + 8
    | Upsert _ _ => 4 + 8 + 4 + 8
    end%Z in
  (key_bytes + message_bytes)%Z.

(** ** The greedy rule: argmax, lowest index on ties *)
Definition fullest (l : list nat) (c : nat) : Prop :=
  ∃ n, l !! c = Some n ∧ ∀ i m, l !! i = Some m → m ≤ n ∧ (i < c → m < n).

Lemma pick_fullest l : l ≠ [] → ∃ c, pick l = Ok c ∧ fullest l c.
Proof.
  intros Hne. assert (∃ n0, l !! 0 = Some n0) as [n0 H0] by (destruct l; naive_solver).
  destruct (ofold_inv (λ l1 c, ∃ n, l !! c = Some n ∧ c ≤ length l1 ∧
      ∀ i m, i < length l1 → l !! i = Some m → m ≤ n ∧ (i < c → m < n))
    (λ chosen '(i, count), current ← expect (l !! chosen);
       mret (if current <? count then i else chosen)) 0 (imap pair l))
    as (c & Hc & n & Hn & _ & Hmax).
  - exists n0. simpl. split_and!; [done|lia|lia].
  - intros l1 [i count] l2 c E (n & Hn & Hcl & Hmax).
    assert (imap pair l !! length l1 = Some (i, count)) as Hi by (by rewrite E list_lookup_middle).
    apply list_lookup_imap_Some in Hi as (x & Hx & [= -> ->]).
    rewrite Hn /= length_app /=. eexists; split; [done|].
    destruct (n <? x) eqn:E'; [apply Nat.ltb_lt in E'|apply Nat.ltb_ge in E'].
    + exists x. split_and!; [done|lia|]. intros j m Hj Hm.
      destruct (decide (j = length l1)) as [->|]; [naive_solver lia|].
      destruct (Hmax j m) as [? _]; [lia|done|]. lia.
    + exists n. split_and!; [done|lia|]. intros j m Hj Hm.
      destruct (decide (j = length l1)) as [->|]; [|apply Hmax; [lia|done]].
      assert (m = x) as -> by congruence. lia.
  - exists c. split; [done|]. exists n. split; [done|]. intros i m Hi. apply Hmax; [|done].
    rewrite length_imap. by eapply lookup_lt_Some.
Qed.

#[export] Instance GreedyFullest_lawful : LawfulPolicy GreedyFullest.
Proof.
  intros p ctx Hex. apply Exists_exists in Hex as (m & Hm & Hpos).
  destruct (pick_fullest (child_pending ctx)) as (c & Hc & n & Hn & Hmax).
  { intros E. rewrite E in Hm. set_solver. }
  exists c, p, n. unfold choose, GreedyFullest_policy. rewrite Hc. split_and!; [done|done|].
  apply list_elem_of_lookup in Hm as [i Hi]. destruct (Hmax i m Hi). lia.
Qed.
