(* ===== verification/Trace.v ===== *)
(** * Trace recording ([src/trace.rs])

    The two trace vocabularies and the recorder that feeds both. *)

From S2P Require Export Node.
From stdpp Require Import options.
From Stdlib Require Import ZArith.

(** [OpKind]: the closed M0 vocabulary. *)
Inductive OpKind : Type :=
  | Insert (key : Key) (value : Value).

(** [TraceEvent] *)
Inductive TraceEvent : Type :=
  | Op (seq : Z) (op : OpKind)
  | Get (key : Key)
  | FlushDecision (node : NodeId) (child_occupancies : list nat) (chosen : nat).

(** [OpKind2]: the complete vocabulary. *)
Inductive OpKind2 : Type :=
  | Insert2 (key : Key) (value : Value)
  | Delete2 (key : Key)
  | Upsert2 (key : Key) (op : UpsertOp).

(** [TraceEvent2] *)
Inductive TraceEvent2 : Type :=
  | Op2 (seq : Z) (op : OpKind2)
  | Get2 (key : Key)
  | Scan2 (lo hi : Bound)
  | FlushDecision2 (node : NodeId) (child_occupancies : list nat) (chosen : nat).

(** [Recorder] *)
Record Recorder : Type := mkRecorder {
  rec_v1 : list TraceEvent;
  rec_v2 : list TraceEvent2;
}.

Definition Recorder_default : Recorder := mkRecorder [] [].

(** [Recorder::op] *)
Definition Recorder_op (r : Recorder) (seq : Z) (op : OpKind2) : Recorder :=
  let v1 := match op with
    | Insert2 key value => rec_v1 r ++ [Op seq (Insert key value)]
    | _ => rec_v1 r
    end in
  mkRecorder v1 (rec_v2 r ++ [Op2 seq op]).

(** [Recorder::get] *)
Definition Recorder_get (r : Recorder) (key : Key) : Recorder :=
  mkRecorder (rec_v1 r ++ [Get key]) (rec_v2 r ++ [Get2 key]).

(** [Recorder::scan]: only the v2 trace has scans. *)
Definition Recorder_scan (r : Recorder) (lo hi : Bound) : Recorder :=
  mkRecorder (rec_v1 r) (rec_v2 r ++ [Scan2 lo hi]).

(** [Recorder::flush_decision] *)
Definition Recorder_flush_decision (r : Recorder) (node : NodeId)
    (child_occupancies : list nat) (chosen : nat) : Recorder :=
  mkRecorder (rec_v1 r ++ [FlushDecision node child_occupancies chosen])
             (rec_v2 r ++ [FlushDecision2 node child_occupancies chosen]).

(** ** The v1 view is the projection of the v2 trace *)
Definition project_v1 (e : TraceEvent2) : option TraceEvent :=
  match e with
  | Op2 seq (Insert2 key value) => Some (Op seq (Insert key value))
  | Op2 _ _ => None
  | Get2 key => Some (Get key)
  | Scan2 _ _ => None
  | FlushDecision2 node occ chosen => Some (FlushDecision node occ chosen)
  end.

Definition Recorder_ok (r : Recorder) : Prop := rec_v1 r = omap project_v1 (rec_v2 r).

Lemma Recorder_default_ok : Recorder_ok Recorder_default.
Proof. done. Qed.
Lemma Recorder_op_ok r seq op : Recorder_ok r → Recorder_ok (Recorder_op r seq op).
Proof.
  unfold Recorder_ok. intros H. simpl. rewrite omap_app H.
  destruct op; simpl; by rewrite ?app_nil_r.
Qed.
Lemma Recorder_get_ok r k : Recorder_ok r → Recorder_ok (Recorder_get r k).
Proof. unfold Recorder_ok. intros H. simpl. by rewrite omap_app H. Qed.
Lemma Recorder_scan_ok r lo hi : Recorder_ok r → Recorder_ok (Recorder_scan r lo hi).
Proof. unfold Recorder_ok. intros H. simpl. by rewrite omap_app H app_nil_r. Qed.
Lemma Recorder_flush_decision_ok r n o c :
  Recorder_ok r → Recorder_ok (Recorder_flush_decision r n o c).
Proof. unfold Recorder_ok. intros H. simpl. by rewrite omap_app H. Qed.

#[global] Arguments Recorder_op : simpl never.
#[global] Arguments Recorder_get : simpl never.
#[global] Arguments Recorder_scan : simpl never.
#[global] Arguments Recorder_flush_decision : simpl never.

Create HintDb recorder.
#[export] Hint Resolve Recorder_default_ok Recorder_op_ok Recorder_get_ok Recorder_scan_ok
  Recorder_flush_decision_ok : recorder.

(** ** The mutating ops of a trace *)
Definition op_of (e : TraceEvent2) : option (Z * OpKind2) :=
  match e with Op2 seq op => Some (seq, op) | _ => None end.

Definition ops_of (t : list TraceEvent2) : list (Z * OpKind2) := omap op_of t.

Lemma ops_of_app t1 t2 : ops_of (t1 ++ t2) = ops_of t1 ++ ops_of t2.
Proof. apply omap_app. Qed.

Lemma ops_of_Recorder_op r seq op :
  ops_of (rec_v2 (Recorder_op r seq op)) = ops_of (rec_v2 r) ++ [(seq, op)].
Proof. apply ops_of_app. Qed.

Lemma ops_of_Recorder_flush_decision r n o c :
  ops_of (rec_v2 (Recorder_flush_decision r n o c)) = ops_of (rec_v2 r).
Proof. unfold Recorder_flush_decision; simpl. by rewrite ops_of_app app_nil_r. Qed.
