(* ===== verification/Engine.v ===== *)
(** * The engine interface ([src/engine.rs]) and trace replay

    [KvEngine] is the trait every engine implements, [KvEngineLaws] the
    contract its documentation states: a refinement of a finite map.
    [replay2] is written, and proved, against the interface. *)

From S2P Require Export Trace.
From stdpp Require Import options.
From Stdlib Require Import ZArith.

(** ** Errors *)

(** [io::Error], of which the engine only looks at the existence. *)
Inductive IoError : Type := UnexpectedEof | OtherError.

(** [DiskError] ([src/disk.rs]); the reason of a corruption is a message. *)
Inductive DiskError : Type :=
  | Io (e : IoError)
  | CorruptNode (offset : Z)
  | NoValidSuperblock
  | UnsupportedVersion (found : Z)
  | NotEmpty (len : Z)
  | NodeTooLarge (bytes : nat)
  | Poisoned.

(** [EngineError] *)
Inductive EngineError : Type := Storage (e : DiskError).

(** [Result<A, E>] *)
Inductive Result (A E : Type) : Type :=
  | ROk (a : A)
  | RErr (e : E).
Arguments ROk {A E} _.
Arguments RErr {A E} _.

(** ** The trait [KvEngine] *)
Class KvEngine (E : Type) : Type := {
  kv_new : Params → outcome E;
  kv_insert : Key → Value → M E unit;
  kv_delete : Key → M E unit;
  kv_upsert : Key → UpsertOp → M E unit;
  kv_scan : Bound → Bound → M E (Result (list (Key * Value)) EngineError);
  kv_get : Key → M E (option Value);
  kv_check_invariants : E → outcome (Result unit InvariantViolation);
  kv_trace : E → list TraceEvent;
  kv_trace2 : E → list TraceEvent2;
}.

(** ** The abstract engine: a finite map *)
Definition spec_op (op : OpKind2) (m : BTreeMap Value) : BTreeMap Value :=
  match op with
  | Insert2 key value => <[key := value]> m
  | Delete2 key => delete key m
  | Upsert2 key op => <[key := UpsertOp_apply op (m !! key)]> m
  end.

Definition spec_scan (lo hi : Bound) (m : BTreeMap Value) : list (Key * Value) :=
  filter (λ kv, in_bounds lo hi kv.1 = true) (bt_iter m).

Lemma spec_scan_empty lo hi m : range_is_empty lo hi = true → spec_scan lo hi m = [].
Proof.
  intros Hr. unfold spec_scan. induction (bt_iter m) as [|x l IH]; [done|].
  rewrite filter_cons_False; [|done]. by rewrite (range_is_empty_true _ _ _ Hr).
Qed.

(** One mutating op, and a sequence of them, through the interface. *)
Definition run_op {E} `{KvEngine E} (op : OpKind2) : M E unit :=
  match op with
  | Insert2 key value => kv_insert key value
  | Delete2 key => kv_delete key
  | Upsert2 key op => kv_upsert key op
  end.

Fixpoint run_ops {E} `{KvEngine E} (ops : list OpKind2) : M E unit :=
  match ops with
  | [] => mret tt
  | op :: ops => _ ← run_op op; run_ops ops
  end.

(** [replay2] *)
Fixpoint replay2_events {E} `{KvEngine E} (events : list TraceEvent2) : M E unit :=
  match events with
  | [] => mret tt
  | event :: events =>
      _ ← match event with
          | Op2 _ (Insert2 key value) => kv_insert key value
          | Op2 _ (Delete2 key) => kv_delete key
          | Op2 _ (Upsert2 key op) => kv_upsert key op
          | Get2 _ | Scan2 _ _ | FlushDecision2 _ _ _ => mret tt
          end;
      replay2_events events
  end.

Definition replay2 {E} `{KvEngine E} (params : Params) (events : list TraceEvent2) : outcome E :=
  engine ← kv_new params;
  '(_, engine) ← replay2_events events engine;
  mret engine.

(** [replay]: the same for the v1 vocabulary. *)
Fixpoint replay_events {E} `{KvEngine E} (events : list TraceEvent) : M E unit :=
  match events with
  | [] => mret tt
  | event :: events =>
      _ ← match event with
          | Op _ (Insert key value) => kv_insert key value
          | Get _ | FlushDecision _ _ _ => mret tt
          end;
      replay_events events
  end.

Definition replay {E} `{KvEngine E} (params : Params) (events : list TraceEvent) : outcome E :=
  engine ← kv_new params;
  '(_, engine) ← replay_events events engine;
  mret engine.

(** ** The contract

    [kv_rep e m n]: engine [e] holds the contents [m] after [n] mutating
    ops.  Each op takes the next seqno, records it, and acts on the
    contents as [spec_op]; reads change nothing but the trace. *)
Class KvEngineLaws (E : Type) `{KvEngine E} : Type := {
  kv_rep : E → BTreeMap Value → Z → Prop;
  kv_new_spec p :
    legal_params p = true →
    ∃ e, kv_new p = Ok e ∧ kv_rep e ∅ 0 ∧ kv_trace2 e = [];
  kv_op_spec op e m n :
    kv_rep e m n → (n < u64_max)%Z →
    wp (run_op op) (λ _ e', kv_rep e' (spec_op op m) (n + 1) ∧
      ops_of (kv_trace2 e') = ops_of (kv_trace2 e) ++ [((n + 1)%Z, op)]) e;
  kv_get_spec key e m n :
    kv_rep e m n →
    wp (kv_get key) (λ v e', v = m !! key ∧ kv_rep e' m n ∧
      kv_trace2 e' = kv_trace2 e ++ [Get2 key]) e;
  kv_scan_spec lo hi e m n :
    kv_rep e m n →
    wp (kv_scan lo hi) (λ r e', r = ROk (spec_scan lo hi m) ∧ kv_rep e' m n ∧
      kv_trace2 e' = kv_trace2 e ++ [Scan2 lo hi]) e;
  kv_check_spec e m n :
    kv_rep e m n → kv_check_invariants e = Ok (ROk tt);
}.

(** ** Histories of calls through the interface *)
Inductive Call : Type :=
  | COp (op : OpKind2)
  | CGet (key : Key)
  | CScan (lo hi : Bound).

Inductive Reply : Type :=
  | RUnit
  | RValue (v : option Value)
  | REntries (r : Result (list (Key * Value)) EngineError).

Definition run_call {E} `{KvEngine E} (c : Call) : M E Reply :=
  match c with
  | COp op => _ ← run_op op; mret RUnit
  | CGet key => v ← kv_get key; mret (RValue v)
  | CScan lo hi => r ← kv_scan lo hi; mret (REntries r)
  end.

Fixpoint run_calls {E} `{KvEngine E} (cs : list Call) : M E (list Reply) :=
  match cs with
  | [] => mret []
  | c :: cs => r ← run_call c; rs ← run_calls cs; mret (r :: rs)
  end.

(** A history on a new engine. *)
Definition run_history {E} `{KvEngine E} (params : Params) (cs : list Call) : outcome (list Reply * E) :=
  engine ← kv_new params;
  run_calls cs engine.

(** The same history on the abstract map. *)
Definition spec_call (c : Call) (m : BTreeMap Value) : Reply * BTreeMap Value :=
  match c with
  | COp op => (RUnit, spec_op op m)
  | CGet key => (RValue (m !! key), m)
  | CScan lo hi => (REntries (ROk (spec_scan lo hi m)), m)
  end.

Fixpoint spec_calls (cs : list Call) (m : BTreeMap Value) : list Reply * BTreeMap Value :=
  match cs with
  | [] => ([], m)
  | c :: cs =>
      let '(r, m) := spec_call c m in
      let '(rs, m) := spec_calls cs m in
      (r :: rs, m)
  end.

(** The mutating ops of a history, and the seqnos they are assigned. *)
Definition call_op (c : Call) : option OpKind2 := match c with COp op => Some op | _ => None end.
Definition calls_ops (cs : list Call) : list OpKind2 := omap call_op cs.
Fixpoint number_ops (n : Z) (ops : list OpKind2) : list (Z * OpKind2) :=
  match ops with
  | [] => []
  | op :: ops => ((n + 1)%Z, op) :: number_ops (n + 1) ops
  end.

Lemma number_ops_snd n ops : (number_ops n ops).*2 = ops.
Proof. revert n. induction ops as [|op ops IH]; intros n; [done|]. cbn. f_equal. apply IH. Qed.

Section laws.
Context {E : Type} `{KvEngineLaws E}.

Lemma run_call_spec c e m n :
  kv_rep e m n → (n + Z.of_nat (length (calls_ops [c])) ≤ u64_max)%Z →
  wp (run_call c) (λ r e', r = (spec_call c m).1 ∧
    kv_rep e' (spec_call c m).2 (n + Z.of_nat (length (calls_ops [c]))) ∧
    ops_of (kv_trace2 e') = ops_of (kv_trace2 e) ++ number_ops n (calls_ops [c])) e.
Proof.
  intros Hrep Hn. destruct c as [op|key|lo hi]; simpl in *; apply wp_bind.
  - eapply wp_mono; [apply kv_op_spec; [eassumption|lia]|]. intros _ e' [Hrep' Ht].
    apply wp_ret. done.
  - eapply wp_mono; [by apply kv_get_spec|]. intros v e' (-> & Hrep' & Ht).
    apply wp_ret. rewrite Z.add_0_r Ht ops_of_app. done.
  - eapply wp_mono; [by apply kv_scan_spec|]. intros v e' (-> & Hrep' & Ht).
    apply wp_ret. rewrite Z.add_0_r Ht ops_of_app. done.
Qed.

Lemma number_ops_app n ops1 ops2 :
  number_ops n (ops1 ++ ops2) = number_ops n ops1 ++ number_ops (n + Z.of_nat (length ops1)) ops2.
Proof.
  revert n. induction ops1 as [|op ops1 IH]; intros n; simpl; [by rewrite Z.add_0_r|].
  rewrite IH. do 3 f_equal. lia.
Qed.

(** Every history of calls runs to completion with the replies of the
    abstract map, as long as the seqnos do not run out. *)
Lemma run_calls_spec cs e m n :
  kv_rep e m n → (n + Z.of_nat (length (calls_ops cs)) ≤ u64_max)%Z →
  wp (run_calls cs) (λ rs e', rs = (spec_calls cs m).1 ∧
    kv_rep e' (spec_calls cs m).2 (n + Z.of_nat (length (calls_ops cs))) ∧
    ops_of (kv_trace2 e') = ops_of (kv_trace2 e) ++ number_ops n (calls_ops cs)) e.
Proof.
  revert e m n. induction cs as [|c cs IH]; intros e m n Hrep Hn; cbn [run_calls spec_calls].
  { apply wp_ret. cbn. by rewrite Z.add_0_r app_nil_r. }
  assert (calls_ops (c :: cs) = calls_ops [c] ++ calls_ops cs) as Ecs.
  { unfold calls_ops. by rewrite -omap_app. }
  rewrite Ecs length_app in Hn |- *.
  apply wp_bind. eapply wp_mono; [eapply run_call_spec; [done|lia]|].
  intros r e1 (Hr & Hrep1 & Ht1). apply wp_bind.
  eapply wp_mono; [apply IH; [done|lia]|]. intros rs e2 (Hrs & Hrep2 & Ht2). apply wp_ret.
  destruct (spec_call c m) as [r' m1]. cbn [fst snd] in *.
  destruct (spec_calls cs m1) as [rs' m2]. cbn [fst snd] in *. subst r rs.
  split; [done|]. rewrite Nat2Z.inj_add Z.add_assoc.
  split; [done|]. by rewrite Ht2 Ht1 -app_assoc number_ops_app.
Qed.

(** Replaying events is running the ops they record. *)
Lemma replay2_events_ops t :
  ∀ e : E, replay2_events t e = run_ops (ops_of t).*2 e.
Proof.
  induction t as [|ev t IH]; intros e; [done|].
  destruct ev as [seq [k v|k|k op]| | |]; cbn; unfold mbind, M_bind; cbn; try apply IH.
  - destruct (kv_insert k v e) as [[[] e']| | |]; [apply IH|done..].
  - destruct (kv_delete k e) as [[[] e']| | |]; [apply IH|done..].
  - destruct (kv_upsert k op e) as [[[] e']| | |]; [apply IH|done..].
Qed.

Lemma run_ops_spec ops e m n :
  kv_rep e m n → (n + Z.of_nat (length ops) ≤ u64_max)%Z →
  wp (run_ops ops) (λ _ e',
    kv_rep e' (foldl (λ m op, spec_op op m) m ops) (n + Z.of_nat (length ops)) ∧
    ops_of (kv_trace2 e') = ops_of (kv_trace2 e) ++ number_ops n ops) e.
Proof.
  revert e m n. induction ops as [|op ops IH]; intros e m n Hrep Hn; cbn in *.
  { apply wp_ret. by rewrite Z.add_0_r app_nil_r. }
  apply wp_bind. eapply wp_mono; [apply kv_op_spec; [done|lia]|]. intros _ e1 [Hrep1 Ht1].
  eapply wp_mono; [apply IH; [done|lia]|]. intros _ e2 [Hrep2 Ht2].
  replace (n + Z.of_nat (S (length ops)))%Z with (n + 1 + Z.of_nat (length ops))%Z by lia.
  split; [done|]. by rewrite Ht2 Ht1 -app_assoc.
Qed.

Lemma run_history_spec params cs :
  legal_params params = true → (Z.of_nat (length (calls_ops cs)) ≤ u64_max)%Z →
  ∃ e : E, run_history params cs = Ok ((spec_calls cs ∅).1, e) ∧
    kv_rep e (spec_calls cs ∅).2 (Z.of_nat (length (calls_ops cs))) ∧
    ops_of (kv_trace2 e) = number_ops 0 (calls_ops cs).
Proof.
  intros Hlegal Hn. destruct (kv_new_spec (E := E) params Hlegal) as (e0 & He0 & Hrep & Ht).
  destruct (run_calls_spec cs e0 ∅ 0 Hrep) as (rs & e & Hrun & -> & Hrep' & Ht'); [lia|].
  exists e. unfold run_history. rewrite He0 /= Hrun. split_and!; [done|done|].
  by rewrite Ht' Ht.
Qed.

(** Replaying the trace of such a history, on any engine. *)
Lemma replay2_spec params events :
  legal_params params = true → (Z.of_nat (length (ops_of events)) ≤ u64_max)%Z →
  ∃ e : E, replay2 params events = Ok e ∧
    kv_rep e (foldl (λ m op, spec_op op m) ∅ (ops_of events).*2) (Z.of_nat (length (ops_of events))) ∧
    ops_of (kv_trace2 e) = number_ops 0 (ops_of events).*2.
Proof.
  intros Hlegal Hn. destruct (kv_new_spec (E := E) params Hlegal) as (e0 & He0 & Hrep & Ht).
  destruct (run_ops_spec (ops_of events).*2 e0 ∅ 0 Hrep) as ([] & e & Hrun & Hrep' & Ht').
  { rewrite length_fmap. lia. }
  exists e. unfold replay2. rewrite He0 /= replay2_events_ops Hrun. split_and!; [done| |].
  - by rewrite length_fmap in Hrep'.
  - by rewrite Ht' Ht.
Qed.

Lemma spec_calls_ops cs m :
  (spec_calls cs m).2 = foldl (λ m op, spec_op op m) m (calls_ops cs).
Proof.
  revert m. induction cs as [|c cs IH]; intros m; simpl; [done|].
  destruct c; simpl; rewrite -IH; by destruct (spec_calls cs _).
Qed.
End laws.
