(* ===== verification/Jsonl.v ===== *)
(** * Traces as JSON lines ([src/trace.rs])

    [to_jsonl] and [from_jsonl] over any serializer of events, and the parts
    of [str] that they use.  A [str] is the list of its [char]s. *)

From S2P Require Export Engine.
From stdpp Require Import options countable.
From Stdlib Require Import ZArith.

Local Open Scope Z_scope.

Notation str := (list Z).

(** ** [str] *)
Definition newline : Z := 10.
Definition carriage_return : Z := 13.

(** [char::is_whitespace]: the Unicode property White_Space. *)
Definition is_whitespace (c : Z) : bool :=
  (9 <=? c) && (c <=? 13) || (c =? 32) || (c =? 133) || (c =? 160) || (c =? 5760) ||
  (8192 <=? c) && (c <=? 8202) || (c =? 8232) || (c =? 8233) || (c =? 8239) || (c =? 8287) || (c =? 12288).

Fixpoint trim_start (s : str) : str :=
  match s with
  | c :: s' => if is_whitespace c then trim_start s' else s
  | [] => []
  end.
Definition trim (s : str) : str := rev (trim_start (rev (trim_start s))).

(** [str::lines]: a line ends in a line feed, which is not part of it, nor a
    carriage return just before it; the last line may have no end.  [line]
    holds the chars of the current line, the last one first. *)
Fixpoint lines_from (line s : str) : list str :=
  match s with
  | [] => match line with [] => [] | _ => [rev line] end
  | c :: s =>
      if c =? newline then
        rev match line with r :: line' => if r =? carriage_return then line' else line | [] => [] end
          :: lines_from [] s
      else lines_from (c :: line) s
  end.
Definition lines (s : str) : list str := lines_from [] s.

(** [serde_json::to_string] and [serde_json::from_str]. *)
Class SerdeJson (A : Type) : Type := {
  json_error : Type;
  to_string : A → Result str json_error;
  from_str : str → Result A json_error;
}.

(** Compact JSON text escapes every control character and is not blank;
    parsing it gives the value back. *)
Class SerdeJsonLaws (A : Type) `{SerdeJson A} : Prop := {
  json_printable a s : to_string a = ROk s → Forall (λ c, 32 ≤ c) s ∧ Exists (λ c, is_whitespace c = false) s;
  json_roundtrip a s : to_string a = ROk s → from_str s = ROk a;
}.

Section jsonl.
Context `{SerdeJson TraceEvent}.

(** The loop of [to_jsonl], from the text [out]. *)
Fixpoint to_jsonl_from (out : str) (events : list TraceEvent) : Result str json_error :=
  match events with
  | [] => ROk out
  | event :: events =>
      match to_string event with
      | ROk s => to_jsonl_from (out ++ s ++ [newline]) events
      | RErr e => RErr e
      end
  end.

(** [to_jsonl] *)
Definition to_jsonl (events : list TraceEvent) : Result str json_error := to_jsonl_from [] events.

(** [Iterator::collect] into a [Result]: the first error, or all values. *)
Fixpoint collect {A B E} (f : A → Result B E) (l : list A) : Result (list B) E :=
  match l with
  | [] => ROk []
  | a :: l =>
      match f a with
      | ROk b => match collect f l with ROk bs => ROk (b :: bs) | RErr e => RErr e end
      | RErr e => RErr e
      end
  end.

(** [from_jsonl] *)
Definition from_jsonl (input : str) : Result (list TraceEvent) json_error :=
  collect from_str (List.filter (λ line, negb (match trim line with [] => true | _ => false end)) (lines input)).

(** ** What the text of a trace may look like *)
Definition blank (line : str) : Prop := Forall (λ c, is_whitespace c = true) line ∧ newline ∉ line.

(** A text of [events]: their lines in order, with blank lines anywhere, and
    either convention for the end of a line. *)
Inductive jsonl_text : list TraceEvent → str → Prop :=
  | text_nil line : blank line → jsonl_text [] line
  | text_blank events line text :
      blank line → jsonl_text events text → jsonl_text events (line ++ newline :: text)
  | text_event event events s eol text :
      to_string event = ROk s → eol = [newline] ∨ eol = [carriage_return; newline] →
      jsonl_text events text → jsonl_text (event :: events) (s ++ eol ++ text).

(** *** Lemmas on [str] *)
Notation is_blank := (Forall (λ c, is_whitespace c = true)).

Lemma trim_start_blank s : trim_start s = [] ↔ is_blank s.
Proof using Type.
  induction s as [|c s IH]; cbn [trim_start]; [done|]. destruct (is_whitespace c) eqn:E; split.
  - intros ?%IH. by constructor.
  - intros [_ Hs]%list.Forall_cons. by apply IH.
  - done.
  - intros [? _]%list.Forall_cons. congruence.
Qed.

Lemma trim_start_suffix s : ∃ l, is_blank l ∧ s = l ++ trim_start s.
Proof using Type.
  induction s as [|c s (l & Hl & IH)]; cbn [trim_start]; [by exists []|]. destruct (is_whitespace c) eqn:E.
  - exists (c :: l). split; [by constructor|]. simpl. by f_equal.
  - by exists [].
Qed.

Lemma trim_blank s : trim s = [] ↔ is_blank s.
Proof using Type.
  unfold trim. split.
  - intros Hr%(f_equal (@rev Z)). rewrite rev_involutive in Hr. apply trim_start_blank in Hr.
    destruct (trim_start_suffix s) as (l & Hl & ->). apply Forall_app. split; [done|].
    rewrite -(rev_involutive (trim_start s)). by apply Forall_rev.
  - by intros ->%trim_start_blank.
Qed.

Lemma lines_from_app line s text :
  newline ∉ s → lines_from line (s ++ text) = lines_from (rev s ++ line) text.
Proof using Type.
  revert line. induction s as [|c s IH]; intros line Hs; [done|]. apply not_elem_of_cons in Hs as [Hc Hs].
  cbn [app lines_from]. destruct (Z.eqb_spec c newline); [congruence|]. rewrite IH //. simpl. by rewrite -app_assoc.
Qed.

(** A line without its carriage return. *)
Definition stripped (line : str) : str :=
  match rev line with r :: l => if r =? carriage_return then rev l else line | [] => [] end.

Lemma lines_cons line text : newline ∉ line → lines (line ++ newline :: text) = stripped line :: lines text.
Proof using Type.
  intros Hs. unfold lines, stripped. rewrite lines_from_app // app_nil_r. cbn [lines_from].
  rewrite Z.eqb_refl. f_equal. destruct (rev line) as [|r l] eqn:E; [done|].
  destruct (r =? carriage_return); [done|]. by rewrite -E rev_involutive.
Qed.

Lemma lines_last line : newline ∉ line → lines line = match line with [] => [] | _ => [line] end.
Proof using Type.
  intros Hs. unfold lines. rewrite -{1}(app_nil_r line) lines_from_app // app_nil_r. cbn [lines_from].
  destruct line as [|c l]; [done|]. destruct (rev (c :: l)) eqn:E; [by apply (f_equal length) in E; rewrite length_rev in E|].
  by rewrite -E rev_involutive.
Qed.

Lemma stripped_snoc line r : stripped (line ++ [r]) = if r =? carriage_return then line else line ++ [r].
Proof using Type. unfold stripped. rewrite rev_app_distr /= rev_involutive. done. Qed.

Lemma stripped_blank line : is_blank line → is_blank (stripped line).
Proof using Type.
  destruct line as [|r l _] using rev_ind; [done|]. rewrite stripped_snoc. case_match; [|done]. by intros [? _]%Forall_app.
Qed.

(** *** Lines *)
Definition kept (lines : list str) : list str :=
  List.filter (λ line, negb (match trim line with [] => true | _ => false end)) lines.

Lemma kept_blank line ls : is_blank line → kept (line :: ls) = kept ls.
Proof using Type. intros Hb%trim_blank. unfold kept. cbn [List.filter]. by rewrite Hb. Qed.

Lemma kept_cons line ls : ¬ is_blank line → kept (line :: ls) = line :: kept ls.
Proof using Type. rewrite -trim_blank. intros Hb. unfold kept. cbn [List.filter]. by destruct (trim line). Qed.

Context `{!SerdeJsonLaws TraceEvent}.

Lemma event_line event s : to_string event = ROk s →
  newline ∉ s ∧ ¬ is_blank s ∧ stripped s = s ∧ stripped (s ++ [carriage_return]) = s.
Proof using All.
  intros Hs. destruct (json_printable _ _ Hs) as [Hp Hne]. rewrite list.Forall_forall in Hp. split_and!.
  - intros Hn%Hp. done.
  - intros Hb. apply list.Exists_exists in Hne as (c & Hc & Hw). rewrite list.Forall_forall in Hb. by rewrite Hb in Hw.
  - destruct s as [|r l _] using rev_ind; [done|]. rewrite stripped_snoc.
    destruct (Z.eqb_spec r carriage_return) as [->|]; [|done].
    assert (32 ≤ carriage_return); [|done]. apply Hp, elem_of_app. right. by left.
  - by rewrite stripped_snoc.
Qed.

Lemma text_kept events text : jsonl_text events text →
  Forall2 (λ event s, to_string event = ROk s) events (kept (lines text)).
Proof using All.
  induction 1 as [line [Hb Hn]|events line text [Hb Hn] _ IH|event events s eol text Hs He _ IH].
  - rewrite lines_last //. destruct line; [constructor|]. rewrite kept_blank //.
  - rewrite lines_cons // kept_blank //. by apply stripped_blank.
  - destruct (event_line _ _ Hs) as (Hn & Hb & Hst & Hcr).
    assert (lines (s ++ eol ++ text) = s :: lines text) as ->.
    { destruct He as [-> | ->]; [by rewrite lines_cons // Hst|]. cbn [app].
      change (carriage_return :: newline :: text) with ([carriage_return] ++ newline :: text). rewrite app_assoc.
      rewrite lines_cons ?Hcr //. intros [?|?%list_elem_of_singleton]%elem_of_app; done. }
    rewrite kept_cons //. by constructor.
Qed.

(** [from_jsonl] reads any text of the events. *)
Lemma from_jsonl_text events text : jsonl_text events text → from_jsonl text = ROk events.
Proof using All.
  intros Ht%text_kept. unfold from_jsonl. change (List.filter _ (lines text)) with (kept (lines text)).
  induction Ht as [|event s events ls Hs _ IH]; [done|]. cbn [collect]. by rewrite (json_roundtrip _ _ Hs) IH.
Qed.

(** [to_jsonl] writes one, a line for each event. *)
Lemma to_jsonl_from_spec out events :
  match to_jsonl_from out events with
  | ROk text => ∃ ss, Forall2 (λ event s, to_string event = ROk s) events ss ∧
      text = out ++ concat (map (λ s, s ++ [newline]) ss)
  | RErr e => ∃ event, event ∈ events ∧ to_string event = RErr e
  end.
Proof using Type.
  revert out. induction events as [|event events IH]; intros out; cbn [to_jsonl_from].
  { exists []. split; [constructor|]. by rewrite app_nil_r. }
  destruct (to_string event) as [s|e] eqn:Es; [|exists event; split; [by left|done]].
  specialize (IH (out ++ s ++ [newline])). destruct (to_jsonl_from _ events) as [text|e].
  - destruct IH as (ss & Hss & ->). exists (s :: ss). split; [by constructor|]. simpl. by rewrite -!app_assoc.
  - destruct IH as (event' & Hin & He). exists event'. split; [by right|done].
Qed.

Lemma to_jsonl_text events text :
  to_jsonl events = ROk text → jsonl_text events text ∧ length (lines text) = length events.
Proof using All.
  intros Ht. pose proof (to_jsonl_from_spec [] events) as Hs. unfold to_jsonl in Ht. rewrite Ht in Hs.
  destruct Hs as (ss & Hss & ->). clear Ht. induction Hss as [|event s events ss Hs _ [IH1 IH2]].
  { split; [|done]. apply text_nil. split; [constructor|apply not_elem_of_nil]. }
  cbn [map concat app] in *. rewrite -app_assoc. split; [by eapply text_event; [|left|]|].
  destruct (event_line _ _ Hs) as (Hn & _). cbn [app]. rewrite lines_cons //. simpl. by f_equal.
Qed.
End jsonl.
