(* ===== verification/Naive.v ===== *)
(** * The reference engine ([src/naive.rs])

    [NaiveEngine] is a thin shell around a [BTreeMap]; its laws say that it
    is the abstract engine. *)

From S2P Require Export Engine.
From stdpp Require Import options.
From Stdlib Require Import ZArith.

(** [NaiveEngine] *)
Record NaiveEngine : Type := mkNaive {
  nv_map : BTreeMap Value;
  nv_next_seq : Z;
  nv_trace : Recorder;
}.

Module Naive.

(** [NaiveEngine::new]: the params have nothing to bound. *)
Definition new (_params : Params) : outcome NaiveEngine :=
  mret {| nv_map := ∅; nv_next_seq := 0; nv_trace := Recorder_default |}.

(** [NaiveEngine::insert] *)
Definition insert (key : Key) (value : Value) : M NaiveEngine unit := λ self,
  next_seq ← u64_add (nv_next_seq self) 1;
  let trace := Recorder_op (nv_trace self) next_seq (Insert2 key value) in
  mret (tt, mkNaive (<[key := value]> (nv_map self)) next_seq trace).

(** [NaiveEngine::delete] *)
Definition delete (key : Key) : M NaiveEngine unit := λ self,
  next_seq ← u64_add (nv_next_seq self) 1;
  let trace := Recorder_op (nv_trace self) next_seq (Delete2 key) in
  mret (tt, mkNaive (base.delete key (nv_map self)) next_seq trace).

(** [NaiveEngine::upsert] *)
Definition upsert (key : Key) (op : UpsertOp) : M NaiveEngine unit := λ self,
  next_seq ← u64_add (nv_next_seq self) 1;
  let trace := Recorder_op (nv_trace self) next_seq (Upsert2 key op) in
  let value := UpsertOp_apply op (nv_map self !! key) in
  mret (tt, mkNaive (<[key := value]> (nv_map self)) next_seq trace).

(** [NaiveEngine::scan]: guarded, because [BTreeMap::range] panics on
    inverted bounds. *)
Definition scan (lo hi : Bound) : M NaiveEngine (Result (list (Key * Value)) EngineError) := λ self,
  let self := mkNaive (nv_map self) (nv_next_seq self) (Recorder_scan (nv_trace self) lo hi) in
  if range_is_empty lo hi then mret (ROk [], self)
  else
    entries ← bt_range (nv_map self) lo hi;
    mret (ROk entries, self).

(** [NaiveEngine::get] *)
Definition get (key : Key) : M NaiveEngine (option Value) := λ self,
  let self := mkNaive (nv_map self) (nv_next_seq self) (Recorder_get (nv_trace self) key) in
  mret (nv_map self !! key, self).

(** [NaiveEngine::check_invariants]: there is no structure to check. *)
Definition check_invariants (_self : NaiveEngine) : outcome (Result unit InvariantViolation) :=
  mret (ROk tt).

#[export] Instance engine : KvEngine NaiveEngine := {|
  kv_new := new;
  kv_insert := insert;
  kv_delete := delete;
  kv_upsert := upsert;
  kv_scan := scan;
  kv_get := get;
  kv_check_invariants := check_invariants;
  kv_trace self := rec_v1 (nv_trace self);
  kv_trace2 self := rec_v2 (nv_trace self);
|}.

#[export] Program Instance laws : KvEngineLaws NaiveEngine := {|
  kv_rep e m n := nv_map e = m ∧ nv_next_seq e = n ∧ Recorder_ok (nv_trace e);
|}.
Next Obligation. intros p _. eexists; split; [reflexivity|]. by repeat split. Qed.
Next Obligation.
  intros op [m s r] _ _ (<- & <- & Hok) Hn; simpl in *.
  assert (s + 1 ≤ u64_max)%Z as Hs by lia.
  destruct op as [k v|k|k op]; simpl; unfold insert, delete, upsert; simpl;
    eexists tt, _; rewrite (u64_add_Ok _ _ Hs);
    (split; [reflexivity|]); simpl; rewrite ops_of_Recorder_op; auto with recorder.
Qed.
Next Obligation.
  intros key [m s r] _ _ (<- & <- & Hok). eexists _, _; split; [reflexivity|].
  simpl. split_and!; auto with recorder.
Qed.
Next Obligation.
  intros lo hi [m s r] _ _ (<- & <- & Hok). simpl. unfold scan. simpl.
  destruct (range_is_empty lo hi) eqn:E.
  - eexists _, _. split; [reflexivity|]. simpl. rewrite (spec_scan_empty _ _ _ E).
    split_and!; auto with recorder.
  - eexists _, _. split.
    + cbn. by rewrite bt_range_Ok; [apply range_is_empty_false|].
    + cbn. split_and!; auto with recorder.
Qed.
Next Obligation. done. Qed.

End Naive.
