(* ===== verification/Vfs.v ===== *)
(** * Virtual files ([src/vfs.rs])

    The [Vfs] trait the disk engine runs on, the fault-injecting in-memory
    device [FaultyVfs] with its crash images, and the counting wrapper
    [CountingVfs].  [FileVfs], a real file, is the operating system's.

    A [FaultyVfs] is a handle ([Rc<RefCell<..>>]) to one shared device: the
    model passes the device's state itself, which every handle sees. *)

From S2P Require Export Engine.
From stdpp Require Import options.
From Stdlib Require Import ZArith.

Local Open Scope Z_scope.

(** The trait [Vfs].  [read_exact_at] takes [&self], but a wrapper may keep
    counters in cells: it is a state passer like the others. *)
Class Vfs (V : Type) : Type := {
  read_exact_at : Z → nat → M V (Result (list byte) IoError);
  write_all_at : Z → list byte → M V (Result unit IoError);
  sync : M V (Result unit IoError);
  vfs_len : V → Result Z IoError;
  set_len : Z → M V (Result unit IoError);
}.

(** [Fate] *)
Inductive Fate : Type :=
  | FDrop
  | FApply
  | FZero
  | FTear (seed : Z).

#[export] Instance Fate_eq_dec : EqDecision Fate.
Proof. solve_decision. Defined.

(** [VfsOp] *)
Inductive VfsOp : Type :=
  | OpWrite (off len : Z)
  | OpSetLen (len : Z)
  | OpSync (failed : bool).

(** [LogEntry] *)
Inductive LogEntry : Type :=
  | LWrite (off : Z) (data : list byte)
  | LSetLen (len : Z)
  | LSyncOk
  | LSyncFailed (fates : list Fate).

(** [FaultyState], the device behind the handles. *)
Record FaultyVfs : Type := mkFaulty {
  fv_view : list byte;
  fv_durable : list byte;
  fv_initial : list byte;
  fv_log : list LogEntry;
  fv_window_start : nat;
  fv_fail_sync : option (Z * list Fate);
}.

Section fields.
Implicit Types s : FaultyVfs.
Definition set_view v s := mkFaulty v (fv_durable s) (fv_initial s) (fv_log s)
  (fv_window_start s) (fv_fail_sync s).
Definition set_fail_sync f s := mkFaulty (fv_view s) (fv_durable s) (fv_initial s) (fv_log s)
  (fv_window_start s) f.
Definition push_log e s := mkFaulty (fv_view s) (fv_durable s) (fv_initial s) (fv_log s ++ [e])
  (fv_window_start s) (fv_fail_sync s).
(** A sync entry also ends the window: [window_start = log.len()]. *)
Definition end_window durable e s := mkFaulty (fv_view s) durable (fv_initial s) (fv_log s ++ [e])
  (length (fv_log s) + 1)%nat (fv_fail_sync s).
End fields.

(** [write_at]: positional write, zero-filling a gap. *)
Definition write_at (buf : list byte) (off : Z) (data : list byte) : outcome (list byte) :=
  end_ ← u64_add off (Z.of_nat (length data));
  let buf := if Z.of_nat (length buf) <? end_ then resize (Z.to_nat end_) x00 buf else buf in
  mret (take (Z.to_nat off) buf ++ data ++ drop (Z.to_nat end_) buf).

(** One op of a window under its fate. *)
Definition apply_entry (buf : list byte) (entry : LogEntry) (fate : Fate) : outcome (list byte) :=
  match entry with
  | LWrite off data =>
      match fate with
      | FDrop => mret buf
      | FApply => write_at buf off data
      | FZero => write_at buf off (replicate (length data) x00)
      | FTear seed =>
          let keep := seed mod (Z.of_nat (length data) + 1) in
          write_at buf off (take (Z.to_nat keep) data)
      end
  | LSetLen len =>
      match fate with
      | FDrop => mret buf
      | _ => mret (resize (Z.to_nat len) x00 buf)
      end
  | LSyncOk | LSyncFailed _ => Panic
  end.

(** [apply_window]: [fates.get(op_index).unwrap_or(Apply)], with [op_index]
    the position in the window (a window holds no sync entries). *)
Definition apply_window (buf : list byte) (window : list LogEntry) (fates : list Fate) (all : bool)
    : outcome (list byte) :=
  '(buf, _) ← ofold (λ '(buf, op_index) entry,
    let fate := if all then FApply else default FApply (fates !! op_index) in
    buf ← apply_entry buf entry fate;
    mret (buf, S op_index)) (buf, 0%nat) window;
  mret buf.

Definition is_sync (e : LogEntry) : bool :=
  match e with LSyncOk | LSyncFailed _ => true | _ => false end.

Module FaultyVfs.

(** [FaultyVfs::new] *)
Definition new : FaultyVfs := mkFaulty [] [] [] [] 0 None.

(** [FaultyVfs::from_image] *)
Definition from_image (image : list byte) : FaultyVfs := mkFaulty image image image [] 0 None.

(** [FaultyVfs::log_len] *)
Definition log_len (s : FaultyVfs) : nat := length (fv_log s).

(** [FaultyVfs::op_log] *)
Definition op_log (s : FaultyVfs) : list VfsOp :=
  map (λ e, match e with
    | LWrite off data => OpWrite off (Z.of_nat (length data))
    | LSetLen len => OpSetLen len
    | LSyncOk => OpSync false
    | LSyncFailed _ => OpSync true
    end) (fv_log s).

(** [FaultyVfs::window_len_at]: [rev().take_while(..).count()]. *)
Definition window_len_at (pos : nat) (s : FaultyVfs) : outcome nat :=
  _ ← oassert (pos <=? length (fv_log s))%nat;
  mret (partition_point (λ e, negb (is_sync e)) (rev (take pos (fv_log s)))).

(** One entry of the replay of [crash_image_at]: the image and the start of
    the window. *)
Definition replay_entry (log : list LogEntry) (acc : list byte * nat) (entry : nat * LogEntry)
    : outcome (list byte * nat) :=
  let '(img, wstart) := acc in
  let '(i, e) := entry in
  match e with
  | LSyncOk =>
      window ← vec_slice wstart i log;
      img ← apply_window img window [] true;
      mret (img, S i)
  | LSyncFailed fates =>
      window ← vec_slice wstart i log;
      img ← apply_window img window fates false;
      mret (img, S i)
  | _ => mret (img, wstart)
  end.

(** [FaultyVfs::crash_image_at] *)
Definition crash_image_at (pos : nat) (fates : list Fate) (s : FaultyVfs) : outcome (list byte) :=
  _ ← oassert (pos <=? length (fv_log s))%nat;
  '(img, wstart) ← ofold (replay_entry (fv_log s)) (fv_initial s, 0%nat)
    (imap pair (take pos (fv_log s)));
  window ← vec_slice wstart pos (fv_log s);
  apply_window img window fates false.

(** [FaultyVfs::fail_nth_sync] and [FaultyVfs::fail_next_sync] *)
Definition fail_nth_sync (skip : Z) (fates : list Fate) : M FaultyVfs unit :=
  modify (set_fail_sync (Some (skip, fates))).
Definition fail_next_sync (fates : list Fate) : M FaultyVfs unit := fail_nth_sync 0 fates.

(** [<FaultyVfs as Vfs>::read_exact_at] *)
Definition read_exact_at (off : Z) (len : nat) : M FaultyVfs (Result (list byte) IoError) :=
  s ← get_;
  end_ ← lift (u64_add off (Z.of_nat len));
  if Z.of_nat (length (fv_view s)) <? end_ then mret (RErr UnexpectedEof)
  else
    bs ← lift (vec_slice (Z.to_nat off) (Z.to_nat end_) (fv_view s));
    mret (ROk bs).

(** The model's check that un-synced writes never overlap. *)
Definition check_overlap (off : Z) (len : nat) (window : list LogEntry) : outcome unit :=
  a2 ← u64_add off (Z.of_nat len);
  ofold (λ _ entry,
    match entry with
    | LWrite o d =>
        b2 ← u64_add o (Z.of_nat (length d));
        oassert ((a2 <=? o) || (b2 <=? off))
    | _ => mret tt
    end) tt window.

(** [<FaultyVfs as Vfs>::write_all_at] *)
Definition write_all_at (off : Z) (data : list byte) : M FaultyVfs (Result unit IoError) :=
  s ← get_;
  window ← lift (vec_slice (fv_window_start s) (length (fv_log s)) (fv_log s));
  _ ← lift (check_overlap off (length data) window);
  view ← lift (write_at (fv_view s) off data);
  _ ← modify (set_view view);
  _ ← modify (push_log (LWrite off data));
  mret (ROk tt).

(** The window applied to the durable bytes, ended by a sync entry. *)
Definition settle_window (fates : list Fate) (all : bool) (e : LogEntry) : M FaultyVfs unit :=
  s ← get_;
  window ← lift (vec_slice (fv_window_start s) (length (fv_log s)) (fv_log s));
  durable ← lift (apply_window (fv_durable s) window fates all);
  modify (end_window durable e).

(** [<FaultyVfs as Vfs>::sync] *)
Definition sync : M FaultyVfs (Result unit IoError) :=
  s ← get_;
  let ok := _ ← settle_window [] true LSyncOk; mret (ROk tt) in
  match fv_fail_sync s with
  | Some (skip, fates) =>
      _ ← modify (set_fail_sync None);
      if skip =? 0 then
        _ ← settle_window fates false (LSyncFailed fates);
        mret (RErr OtherError)
      else
        _ ← modify (set_fail_sync (Some (skip - 1, fates)));
        ok
  | None => ok
  end.

(** [<FaultyVfs as Vfs>::len] *)
Definition len (s : FaultyVfs) : Result Z IoError := ROk (Z.of_nat (length (fv_view s))).

(** [<FaultyVfs as Vfs>::set_len] *)
Definition set_len (len : Z) : M FaultyVfs (Result unit IoError) :=
  _ ← modify (λ s, set_view (resize (Z.to_nat len) x00 (fv_view s)) s);
  _ ← modify (push_log (LSetLen len));
  mret (ROk tt).

End FaultyVfs.

#[export] Instance FaultyVfs_vfs : Vfs FaultyVfs := {|
  read_exact_at := FaultyVfs.read_exact_at;
  write_all_at := FaultyVfs.write_all_at;
  sync := FaultyVfs.sync;
  vfs_len := FaultyVfs.len;
  set_len := FaultyVfs.set_len;
|}.

(** ** [CountingVfs] *)

(** [IoStats] *)
Record IoStats : Type := mkIoStats {
  read_ops : Z; read_bytes : Z;
  write_ops : Z; write_bytes : Z;
  syncs : Z; set_lens : Z;
}.

(** [CountingVfs] *)
Record CountingVfs (V : Type) : Type := mkCounting { cv_inner : V; cv_stats : IoStats }.
Arguments mkCounting {V} _ _.
Arguments cv_inner {V} _.
Arguments cv_stats {V} _.

Module CountingVfs.
Section counting.
Context {V : Type} `{Vfs V}.

(** [CountingVfs::new] *)
Definition new (inner : V) : CountingVfs V := mkCounting inner (mkIoStats 0 0 0 0 0 0).

(** [CountingVfs::stats] *)
Definition stats (self : CountingVfs V) : IoStats := cv_stats self.

(** A call of the wrapped [Vfs], counted first. *)
Definition counted {A} (count : IoStats → outcome IoStats) (m : M V A) : M (CountingVfs V) A := λ self,
  s ← count (cv_stats self);
  '(a, inner) ← m (cv_inner self);
  mret (a, mkCounting inner s).

(** [<CountingVfs as Vfs>::read_exact_at] *)
Definition read_exact_at (off : Z) (len : nat) : M (CountingVfs V) (Result (list byte) IoError) :=
  counted (λ s,
    ops ← u64_add (read_ops s) 1;
    bytes ← u64_add (read_bytes s) (Z.of_nat len);
    mret (mkIoStats ops bytes (write_ops s) (write_bytes s) (syncs s) (set_lens s)))
    (read_exact_at off len).

(** [<CountingVfs as Vfs>::write_all_at] *)
Definition write_all_at (off : Z) (data : list byte) : M (CountingVfs V) (Result unit IoError) :=
  counted (λ s,
    ops ← u64_add (write_ops s) 1;
    bytes ← u64_add (write_bytes s) (Z.of_nat (length data));
    mret (mkIoStats (read_ops s) (read_bytes s) ops bytes (syncs s) (set_lens s)))
    (write_all_at off data).

(** [<CountingVfs as Vfs>::sync] *)
Definition sync : M (CountingVfs V) (Result unit IoError) :=
  counted (λ s,
    n ← u64_add (syncs s) 1;
    mret (mkIoStats (read_ops s) (read_bytes s) (write_ops s) (write_bytes s) n (set_lens s)))
    sync.

(** [<CountingVfs as Vfs>::len] *)
Definition len (self : CountingVfs V) : Result Z IoError := vfs_len (cv_inner self).

(** [<CountingVfs as Vfs>::set_len] *)
Definition set_len (len : Z) : M (CountingVfs V) (Result unit IoError) :=
  counted (λ s,
    n ← u64_add (set_lens s) 1;
    mret (mkIoStats (read_ops s) (read_bytes s) (write_ops s) (write_bytes s) (syncs s) n))
    (set_len len).
End counting.
End CountingVfs.

#[export] Instance CountingVfs_vfs {V} `{Vfs V} : Vfs (CountingVfs V) := {|
  read_exact_at := CountingVfs.read_exact_at;
  write_all_at := CountingVfs.write_all_at;
  sync := CountingVfs.sync;
  vfs_len := CountingVfs.len;
  set_len := CountingVfs.set_len;
|}.
