(* ===== verification/Counting.v ===== *)
(** * Programs over a [Vfs], counted

    The calls of a [Vfs] as data, their replies, and what [CountingVfs]
    tallies of them. *)

From S2P Require Export Vfs.
From stdpp Require Import options.
From Stdlib Require Import ZArith.

Local Open Scope Z_scope.

Inductive VfsCall : Type :=
  | VRead (off : Z) (len : nat)
  | VWrite (off : Z) (data : list byte)
  | VSync
  | VLen
  | VSetLen (len : Z).

Inductive VfsReply : Type :=
  | RBytes (r : Result (list byte) IoError)
  | RUnit (r : Result unit IoError)
  | RLen (r : Result Z IoError).

Definition run_vfs `{Vfs V} (c : VfsCall) : M V VfsReply :=
  match c with
  | VRead off len => r ← read_exact_at off len; mret (RBytes r)
  | VWrite off data => r ← write_all_at off data; mret (RUnit r)
  | VSync => r ← sync; mret (RUnit r)
  | VLen => v ← get_; mret (RLen (vfs_len v))
  | VSetLen len => r ← set_len len; mret (RUnit r)
  end.

(** The counters after a call, unbounded. *)
Definition tally (s : IoStats) (c : VfsCall) : IoStats :=
  match c with
  | VRead _ len => mkIoStats (read_ops s + 1) (read_bytes s + Z.of_nat len) (write_ops s) (write_bytes s)
      (syncs s) (set_lens s)
  | VWrite _ data => mkIoStats (read_ops s) (read_bytes s) (write_ops s + 1)
      (write_bytes s + Z.of_nat (length data)) (syncs s) (set_lens s)
  | VSync => mkIoStats (read_ops s) (read_bytes s) (write_ops s) (write_bytes s) (syncs s + 1) (set_lens s)
  | VLen => s
  | VSetLen _ => mkIoStats (read_ops s) (read_bytes s) (write_ops s) (write_bytes s) (syncs s) (set_lens s + 1)
  end.

Definition in_range (s : IoStats) : Prop :=
  (read_ops s ≤ u64_max ∧ read_bytes s ≤ u64_max ∧ write_ops s ≤ u64_max) ∧
  write_bytes s ≤ u64_max ∧ syncs s ≤ u64_max ∧ set_lens s ≤ u64_max.

Lemma in_range_tally s c : in_range (tally s c) → in_range s.
Proof. unfold in_range. destruct c; simpl; lia. Qed.

Lemma in_range_foldl cs s : in_range (foldl tally s cs) → in_range s.
Proof. revert s. induction cs as [|c cs IH]; intros s Hs; [done|]. by eapply in_range_tally, IH. Qed.

Lemma run_counting `{Vfs V} c (v : V) s :
  in_range (tally s c) →
  run_vfs c (mkCounting v s) = ('(r, v') ← run_vfs c v; Ok (r, mkCounting v' (tally s c))).
Proof.
  unfold in_range. intros Hs. destruct c as [off len|off data| | |len]; cbn [run_vfs]; unfold mbind, M_bind.
  - cbn [read_exact_at CountingVfs_vfs]. unfold CountingVfs.read_exact_at, CountingVfs.counted. simpl in Hs.
    cbn [cv_inner cv_stats]. rewrite !u64_add_Ok; [lia..|]. simpl.
    by destruct (Vfs.read_exact_at off len v) as [[r v']| | |].
  - cbn [write_all_at CountingVfs_vfs]. unfold CountingVfs.write_all_at, CountingVfs.counted. simpl in Hs.
    cbn [cv_inner cv_stats]. rewrite !u64_add_Ok; [lia..|]. simpl.
    by destruct (Vfs.write_all_at off data v) as [[r v']| | |].
  - cbn [sync CountingVfs_vfs]. unfold CountingVfs.sync, CountingVfs.counted. simpl in Hs.
    cbn [cv_inner cv_stats]. rewrite !u64_add_Ok; [lia..|]. simpl. by destruct (Vfs.sync v) as [[r v']| | |].
  - done.
  - cbn [set_len CountingVfs_vfs]. unfold CountingVfs.set_len, CountingVfs.counted. simpl in Hs.
    cbn [cv_inner cv_stats]. rewrite !u64_add_Ok; [lia..|]. simpl. by destruct (Vfs.set_len len v) as [[r v']| | |].
Qed.
