(* ===== verification/Device.v ===== *)
(** * The device contract

    What the disk engine relies on of a [Vfs]: the bytes a reader sees, the
    images that a crash can leave, and how each call changes both.
    [FaultyVfs] meets the contract. *)

From S2P Require Export Vfs.
From stdpp Require Import options.
From Stdlib Require Import ZArith.

Local Open Scope Z_scope.

(** ** Positional writes *)

(** [data] over [buf] from position [n], a gap filled with zeros. *)
Definition splice (buf : list byte) (n : nat) (data : list byte) : list byte :=
  let buf := if (length buf <? n + length data)%nat then resize (n + length data) x00 buf else buf in
  take n buf ++ data ++ drop (n + length data) buf.

Lemma splice_grown (buf : list byte) (n l : nat) :
  length (if (length buf <? n + l)%nat then resize (n + l) x00 buf else buf) =
  (length buf `max` (n + l))%nat.
Proof.
  destruct (Nat.ltb_spec (length buf) (n + l)); [rewrite length_resize|]; lia.
Qed.

Lemma length_splice buf n data : length (splice buf n data) = (length buf `max` (n + length data))%nat.
Proof.
  unfold splice. cbv zeta. rewrite !length_app length_take length_drop splice_grown. lia.
Qed.

Lemma lookup_splice_in buf n data i :
  (n ≤ i < n + length data)%nat → splice buf n data !! i = data !! (i - n)%nat.
Proof.
  intros Hi. unfold splice. cbv zeta. set (b := if (length buf <? n + length data)%nat then _ else buf).
  assert (length b = length buf `max` (n + length data))%nat as Hb by apply splice_grown.
  rewrite lookup_app_r length_take; [lia|]. rewrite lookup_app_l; [lia|]. f_equal. lia.
Qed.

Lemma lookup_splice_old buf n data i :
  (i < length buf)%nat → ¬ (n ≤ i < n + length data)%nat → splice buf n data !! i = buf !! i.
Proof.
  intros Hlt Hi. unfold splice. cbv zeta. set (b := if (length buf <? n + length data)%nat then _ else buf).
  assert (length b = length buf `max` (n + length data))%nat as Hb by apply splice_grown.
  assert (b !! i = buf !! i) as Hbi.
  { subst b. destruct (_ <? _)%nat eqn:E; [|done]. apply Nat.ltb_lt in E. rewrite lookup_resize; [lia..|done]. }
  destruct (decide (i < n)%nat).
  - rewrite lookup_app_l ?length_take; [lia|]. by rewrite lookup_take_lt.
  - rewrite lookup_app_r ?length_take; [lia|]. rewrite lookup_app_r; [lia|].
    rewrite lookup_drop -Hbi. f_equal. lia.
Qed.

Lemma write_at_Ok buf off data :
  0 ≤ off → off + Z.of_nat (length data) ≤ u64_max →
  write_at buf off data = Ok (splice buf (Z.to_nat off) data).
Proof.
  intros H0 Hmax. unfold write_at. rewrite u64_add_Ok; [done|]. simpl.
  unfold splice. cbv zeta.
  assert (Z.to_nat (off + Z.of_nat (length data)) = Z.to_nat off + length data)%nat as -> by lia.
  destruct (Z.ltb_spec (Z.of_nat (length buf)) (off + Z.of_nat (length data)));
    destruct (Nat.ltb_spec (length buf) (Z.to_nat off + length data)); done || lia.
Qed.

(** [buf] holds [bs] at [off]. *)
Definition bytes_at (buf : list byte) (off : Z) (bs : list byte) : Prop :=
  ∃ pre post, buf = pre ++ bs ++ post ∧ Z.of_nat (length pre) = off.

Lemma bytes_at_bounds buf off bs :
  bytes_at buf off bs → 0 ≤ off ∧ off + Z.of_nat (length bs) ≤ Z.of_nat (length buf).
Proof. intros (pre & post & -> & <-). rewrite !length_app. lia. Qed.

Lemma bytes_at_lookup buf off bs :
  bytes_at buf off bs ↔ 0 ≤ off ∧ off + Z.of_nat (length bs) ≤ Z.of_nat (length buf) ∧
    ∀ i, (i < length bs)%nat → buf !! (Z.to_nat off + i)%nat = bs !! i.
Proof.
  split.
  - intros Hb. destruct (bytes_at_bounds _ _ _ Hb). split_and!; [done|done|].
    destruct Hb as (pre & post & -> & <-). intros i Hi. rewrite Nat2Z.id.
    rewrite lookup_app_r; [lia|]. rewrite lookup_app_l; [lia|]. f_equal. lia.
  - intros (H0 & Hl & Hi). exists (take (Z.to_nat off) buf), (drop (Z.to_nat off + length bs) buf).
    split; [|rewrite length_take; lia].
    rewrite -{1}(take_drop (Z.to_nat off) buf). f_equal.
    rewrite -{1}(take_drop (length bs) (drop (Z.to_nat off) buf)) drop_drop. f_equal.
    apply list_eq. intros i. destruct (decide (i < length bs)%nat).
    + rewrite lookup_take_lt // lookup_drop. by apply Hi.
    + rewrite !lookup_ge_None_2 ?length_take; [lia..|done].
Qed.

(** Bytes survive whatever leaves their positions alone. *)
Lemma bytes_at_agree buf buf' off bs :
  bytes_at buf off bs → (length buf ≤ length buf')%nat ∨ off + Z.of_nat (length bs) ≤ Z.of_nat (length buf') →
  (∀ i, (Z.to_nat off ≤ i < Z.to_nat off + length bs)%nat → buf' !! i = buf !! i) →
  bytes_at buf' off bs.
Proof.
  rewrite !bytes_at_lookup. intros (H0 & Hl & Hi) Hl' Ha. split_and!; [done|lia|].
  intros i Hlt. rewrite Ha; [lia|]. by apply Hi.
Qed.

Lemma bytes_at_slice buf off bs :
  bytes_at buf off bs → vec_slice (Z.to_nat off) (Z.to_nat off + length bs) buf = Ok bs.
Proof.
  intros (pre & post & -> & <-). rewrite Nat2Z.id vec_slice_Ok ?length_app; [lia..|].
  rewrite drop_app_length. f_equal. replace (length pre + length bs - length pre)%nat with (length bs) by lia.
  apply take_app_length.
Qed.

Lemma bytes_at_take_drop buf off n :
  0 ≤ off → off + Z.of_nat n ≤ Z.of_nat (length buf) →
  bytes_at buf off (take n (drop (Z.to_nat off) buf)).
Proof.
  intros H0 Hl. exists (take (Z.to_nat off) buf), (drop n (drop (Z.to_nat off) buf)).
  rewrite !take_drop length_take. split; [done|lia].
Qed.

Lemma bytes_at_unique buf off bs bs' :
  bytes_at buf off bs → bytes_at buf off bs' → length bs = length bs' → bs = bs'.
Proof.
  intros H1%bytes_at_slice H2%bytes_at_slice Hl. rewrite Hl H2 in H1. by injection H1.
Qed.

Lemma bytes_at_app buf off b1 b2 :
  bytes_at buf off (b1 ++ b2) ↔ bytes_at buf off b1 ∧ bytes_at buf (off + Z.of_nat (length b1)) b2.
Proof.
  split.
  - intros (pre & post & -> & <-). split.
    + exists pre, (b2 ++ post). by rewrite -!app_assoc.
    + exists (pre ++ b1), post. rewrite -!app_assoc length_app. split; [done|lia].
  - rewrite !bytes_at_lookup. intros [(H0 & Hl1 & Hi1) (_ & Hl2 & Hi2)]. rewrite length_app.
    split_and!; [lia|lia|]. intros i Hi. destruct (decide (i < length b1)%nat).
    + rewrite lookup_app_l; [done|]. by apply Hi1.
    + rewrite lookup_app_r; [lia|]. rewrite -Hi2; [lia|]. f_equal. lia.
Qed.

Lemma bytes_at_splice buf off data :
  0 ≤ off → bytes_at (splice buf (Z.to_nat off) data) off data.
Proof.
  intros H0. rewrite bytes_at_lookup length_splice. split_and!; [done|lia|].
  intros i Hi. rewrite lookup_splice_in; [lia|]. f_equal. lia.
Qed.

(** Extents [[a, b)] that do not overlap. *)
Definition apart (x y : Z * Z) : Prop := x.2 ≤ y.1 ∨ y.2 ≤ x.1.

Lemma bytes_at_splice_apart buf off bs n data :
  bytes_at buf off bs → 0 ≤ n → apart (n, n + Z.of_nat (length data)) (off, off + Z.of_nat (length bs)) →
  bytes_at (splice buf (Z.to_nat n) data) off bs.
Proof.
  intros Hb Hn Ha. destruct (bytes_at_bounds _ _ _ Hb). unfold apart in Ha. simpl in Ha.
  eapply bytes_at_agree; [done|rewrite length_splice; lia|].
  intros i Hi. apply lookup_splice_old; lia.
Qed.

Lemma bytes_at_resize buf off bs n :
  bytes_at buf off bs → off + Z.of_nat (length bs) ≤ n → bytes_at (resize (Z.to_nat n) x00 buf) off bs.
Proof.
  intros Hb Hn. destruct (bytes_at_bounds _ _ _ Hb).
  eapply bytes_at_agree; [done|rewrite length_resize; lia|].
  intros i Hi. rewrite lookup_resize; [lia..|done].
Qed.

(** ** The contract *)

(** What an interrupted write of [data] at [off] can have made of [img]. *)
Definition torn (img : list byte) (off : Z) (data img' : list byte) : Prop :=
  img' = img ∨ img' = splice img (Z.to_nat off) (replicate (length data) x00) ∨
  ∃ k, img' = splice img (Z.to_nat off) (take k data).

(** The observations of a device: its well-formed states, the bytes a
    reader sees, the images a crash now can leave, the number of the present
    moment and the images that a crash at a moment so far could have left,
    the extents written since the last sync, the number of bytes ever handed
    to writes, whether no sync has failed, and whether calls cannot fail. *)
Class Device (V : Type) : Type := {
  dev_wf : V → Prop;
  dev_view : V → list byte;
  dev_images : V → list byte → Prop;
  dev_time : V → nat;
  dev_history : V → nat → list byte → Prop;
  dev_pending : V → list (Z * Z);
  dev_bytes : V → Z;
  dev_healthy : V → Prop;
  dev_reliable : V → Prop;
}.

Section device.
Context {V : Type} `{Device V}.
Implicit Types v : V.

(** Nothing observable changed. *)
Record dev_same v v' : Prop := {
  same_wf : dev_wf v';
  same_view : dev_view v' = dev_view v;
  same_images img : dev_images v' img → dev_images v img;
  same_time : dev_time v' = dev_time v;
  same_history n img : dev_history v' n img → dev_history v n img;
  same_pending : dev_pending v' = dev_pending v;
  same_bytes : dev_bytes v' = dev_bytes v;
  same_healthy : dev_healthy v → dev_healthy v';
  same_reliable : dev_reliable v → dev_reliable v';
}.

(** One more moment at which the machine can crash. *)
Definition one_more v v' : Prop :=
  (dev_time v ≤ dev_time v')%nat ∧ ∀ n img, dev_history v' n img → dev_history v n img ∨ dev_images v' img.

Definition writable v (off : Z) (len : nat) : Prop :=
  0 ≤ off ∧ off + Z.of_nat len ≤ u64_max ∧ Forall (apart (off, off + Z.of_nat len)) (dev_pending v).
End device.

Class DeviceLaws (V : Type) `{Vfs V, Device V} : Prop := {
  dev_length v : dev_wf v → Z.of_nat (length (dev_view v)) ≤ u64_max;
  dev_past v n img : dev_history v n img → (n ≤ dev_time v)%nat;
  dev_now v img : dev_wf v → dev_history v (dev_time v) img → dev_images v img;
  dev_read v off len : dev_wf v → 0 ≤ off → off + Z.of_nat len ≤ u64_max →
    wp (read_exact_at off len) (λ r v', dev_same v v' ∧
      match r with
      | ROk bs => length bs = len ∧ bytes_at (dev_view v) off bs
      | RErr _ => dev_reliable v → Z.of_nat (length (dev_view v)) < off + Z.of_nat len
      end) v;
  dev_write v off data : dev_wf v → writable v off (length data) →
    wp (write_all_at off data) (λ r v', dev_wf v' ∧ one_more v v' ∧
      (∀ img', dev_images v' img' → ∃ img, dev_images v img ∧ torn img off data img') ∧
      (dev_reliable v → dev_reliable v') ∧
      match r with
      | ROk _ =>
          dev_view v' = splice (dev_view v) (Z.to_nat off) data ∧
          dev_pending v' = dev_pending v ++ [(off, off + Z.of_nat (length data))] ∧
          (dev_healthy v → dev_healthy v') ∧ dev_bytes v' = dev_bytes v + Z.of_nat (length data)
      | RErr _ => ¬ dev_reliable v
      end) v;
  dev_sync v : dev_wf v →
    wp sync (λ r v', dev_wf v' ∧ one_more v v' ∧ dev_view v' = dev_view v ∧ dev_bytes v' = dev_bytes v ∧
      dev_pending v' = [] ∧
      (∀ img, dev_images v' img → dev_images v img) ∧
      (dev_reliable v → dev_reliable v') ∧
      match r with
      | ROk _ => dev_healthy v → dev_healthy v' ∧ ∀ img, dev_images v' img → img = dev_view v
      | RErr _ => ¬ dev_reliable v
      end) v;
  dev_len v : dev_wf v →
    match vfs_len v with
    | ROk n => n = Z.of_nat (length (dev_view v))
    | RErr _ => ¬ dev_reliable v
    end;
  dev_set_len v len : dev_wf v → 0 ≤ len ≤ u64_max →
    wp (set_len len) (λ r v', dev_wf v' ∧ one_more v v' ∧
      (∀ img', dev_images v' img' → ∃ img, dev_images v img ∧
         (img' = img ∨ img' = resize (Z.to_nat len) x00 img)) ∧
      (dev_reliable v → dev_reliable v') ∧
      match r with
      | ROk _ =>
          dev_view v' = resize (Z.to_nat len) x00 (dev_view v) ∧
          dev_pending v' = dev_pending v ∧ (dev_healthy v → dev_healthy v') ∧ dev_bytes v' = dev_bytes v
      | RErr _ => ¬ dev_reliable v
      end) v;
}.

(** ** [FaultyVfs] as a device *)

Definition entry_ok (e : LogEntry) : Prop :=
  match e with
  | LWrite off data => 0 ≤ off ∧ off + Z.of_nat (length data) ≤ u64_max
  | LSetLen len => 0 ≤ len
  | LSyncOk | LSyncFailed _ => False
  end.

Definition entry_result (buf : list byte) (e : LogEntry) (fate : Fate) : list byte :=
  match e with
  | LWrite off data =>
      match fate with
      | FDrop => buf
      | FApply => splice buf (Z.to_nat off) data
      | FZero => splice buf (Z.to_nat off) (replicate (length data) x00)
      | FTear seed =>
          splice buf (Z.to_nat off) (take (Z.to_nat (seed mod (Z.of_nat (length data) + 1))) data)
      end
  | LSetLen len => match fate with FDrop => buf | _ => resize (Z.to_nat len) x00 buf end
  | LSyncOk | LSyncFailed _ => buf
  end.

Lemma apply_entry_Ok buf e fate : entry_ok e → apply_entry buf e fate = Ok (entry_result buf e fate).
Proof.
  destruct e as [off data|len| |]; simpl; [|by destruct fate|done..].
  intros [H0 Hmax]. destruct fate as [| | |seed]; simpl; [done|..].
  - by rewrite write_at_Ok.
  - by rewrite write_at_Ok ?length_replicate.
  - rewrite write_at_Ok ?length_take; [lia..|done].
Qed.

Definition fate_at (fates : list Fate) (all : bool) (i : nat) : Fate :=
  if all then FApply else default FApply (fates !! i).

Fixpoint window_result (buf : list byte) (window : list LogEntry) (fates : list Fate) (all : bool)
    (i : nat) : list byte :=
  match window with
  | [] => buf
  | e :: window => window_result (entry_result buf e (fate_at fates all i)) window fates all (S i)
  end.

Lemma apply_window_Ok buf window fates all :
  Forall entry_ok window → apply_window buf window fates all = Ok (window_result buf window fates all 0).
Proof.
  intros Hw. unfold apply_window. generalize 0%nat as i. revert buf.
  induction Hw as [|e window He Hw IH]; intros buf i; [done|]. cbn [ofold mbind outcome_bind].
  change (if all then FApply else default FApply (fates !! i)) with (fate_at fates all i).
  rewrite apply_entry_Ok //. apply IH.
Qed.

Lemma window_result_snoc buf window e fates all i :
  window_result buf (window ++ [e]) fates all i =
  entry_result (window_result buf window fates all i) e (fate_at fates all (i + length window)).
Proof.
  revert buf i. induction window as [|e' window IH]; intros buf i; simpl.
  - by rewrite Nat.add_0_r.
  - rewrite IH. do 2 f_equal. lia.
Qed.

Lemma window_result_all buf window i fates :
  window_result buf window [] true i = window_result buf window fates true i.
Proof. revert buf i. induction window as [|e w IH]; intros buf i; simpl; [done|]. apply IH. Qed.

Lemma window_result_nil buf window i : window_result buf window [] true i = window_result buf window [] false i.
Proof. revert buf i. induction window as [|e w IH]; intros buf i; simpl; [done|]. apply IH. Qed.

(** The ops since the last sync. *)
Definition window (s : FaultyVfs) : list LogEntry := drop (fv_window_start s) (fv_log s).

Definition extents (w : list LogEntry) : list (Z * Z) :=
  omap (λ e, match e with LWrite off data => Some (off, off + Z.of_nat (length data)) | _ => None end) w.

(** The replay of the log up to the window ends with the durable bytes. *)
Definition replayed (s : FaultyVfs) : Prop :=
  ofold (FaultyVfs.replay_entry (fv_log s)) (fv_initial s, 0%nat) (imap pair (fv_log s)) =
  Ok (fv_durable s, fv_window_start s).

Record faulty_wf (s : FaultyVfs) : Prop := {
  fw_start : (fv_window_start s ≤ length (fv_log s))%nat;
  fw_window : Forall entry_ok (window s);
  fw_replayed : replayed s;
  fw_length : Z.of_nat (length (fv_view s)) ≤ u64_max;
}.

(** The bytes that the writes in a log hand over. *)
Definition entry_bytes (e : LogEntry) : Z :=
  match e with LWrite _ data => Z.of_nat (length data) | _ => 0 end.
Definition logged_bytes (log : list LogEntry) : Z := foldr (λ e, Z.add (entry_bytes e)) 0 log.

Lemma logged_bytes_snoc log e : logged_bytes (log ++ [e]) = logged_bytes log + entry_bytes e.
Proof. induction log as [|e' log IH]; cbn [app logged_bytes foldr]; [lia|]. fold (logged_bytes (log ++ [e])) (logged_bytes log). lia. Qed.

#[export] Instance FaultyVfs_device : Device FaultyVfs := {|
  dev_wf := faulty_wf;
  dev_view := fv_view;
  dev_images s img := ∃ fates, window_result (fv_durable s) (window s) fates false 0 = img;
  dev_time := FaultyVfs.log_len;
  dev_history s pos img := (pos ≤ FaultyVfs.log_len s)%nat ∧ ∃ fates, FaultyVfs.crash_image_at pos fates s = Ok img;
  dev_pending s := extents (window s);
  dev_bytes s := logged_bytes (fv_log s);
  dev_healthy s := window_result (fv_durable s) (window s) [] true 0 = fv_view s;
  dev_reliable s := fv_fail_sync s = None;
|}.

Section faulty.
Implicit Types s : FaultyVfs.

Lemma window_slice s :
  faulty_wf s → vec_slice (fv_window_start s) (length (fv_log s)) (fv_log s) = Ok (window s).
Proof.
  intros Hwf. rewrite vec_slice_Ok; [apply Hwf|done|]. f_equal. apply take_ge. by rewrite length_drop.
Qed.

Lemma window_push e s : (fv_window_start s ≤ length (fv_log s))%nat → window (push_log e s) = window s ++ [e].
Proof. intros Hs. unfold window, push_log. simpl. by rewrite drop_app_le. Qed.

Lemma window_ended durable e s : window (end_window durable e s) = [].
Proof. unfold window, end_window. simpl. apply drop_ge. rewrite length_app. simpl. lia. Qed.

Lemma vec_slice_app {A} (log l : list A) a b :
  (b ≤ length log)%nat → vec_slice a b (log ++ l) = vec_slice a b log.
Proof.
  intros Hb. unfold vec_slice. rewrite length_app.
  destruct (Nat.leb_spec a b); [|done].
  rewrite !(proj2 (Nat.leb_le _ _)); [lia..|]. simpl. f_equal.
  rewrite drop_app_le; [lia|]. rewrite take_app_le; [|done]. rewrite length_drop. lia.
Qed.

(** The replay only looks at the log up to its position. *)
Lemma replay_entry_app log l acc i e :
  (i ≤ length log)%nat →
  FaultyVfs.replay_entry (log ++ l) acc (i, e) = FaultyVfs.replay_entry log acc (i, e).
Proof.
  intros Hi. destruct acc as [img ws].
  simpl. by rewrite vec_slice_app.
Qed.

Lemma ofold_ext {A B} (f g : B → A → outcome B) l b :
  (∀ b a, a ∈ l → f b a = g b a) → ofold f b l = ofold g b l.
Proof.
  revert b. induction l as [|a l IH]; intros b Hfg; [done|]. simpl.
  rewrite Hfg; [set_solver|]. destruct (g b a); simpl; [|done..]. apply IH. set_solver.
Qed.

Lemma elem_of_imap_pair {A} (l : list A) i x : (i, x) ∈ imap pair l → (i < length l)%nat.
Proof.
  intros (n & Hn)%list_elem_of_lookup. rewrite list_lookup_imap in Hn.
  destruct (l !! n) eqn:E; [|done]. simpl in Hn. injection Hn as -> _. by eapply lookup_lt_Some.
Qed.

Lemma replay_app log l acc :
  ofold (FaultyVfs.replay_entry (log ++ l)) acc (imap pair log) =
  ofold (FaultyVfs.replay_entry log) acc (imap pair log).
Proof.
  apply ofold_ext. intros b [i e] Hin%elem_of_imap_pair. apply replay_entry_app. lia.
Qed.

Lemma imap_pair_snoc {A} (l : list A) x : imap pair (l ++ [x]) = imap pair l ++ [(length l, x)].
Proof. rewrite imap_app. simpl. by rewrite Nat.add_0_r. Qed.

Lemma replayed_snoc s e acc :
  replayed s →
  FaultyVfs.replay_entry (fv_log s) (fv_durable s, fv_window_start s) (length (fv_log s), e) = Ok acc →
  ofold (FaultyVfs.replay_entry (fv_log s ++ [e])) (fv_initial s, 0%nat) (imap pair (fv_log s ++ [e])) = Ok acc.
Proof.
  intros Hr He. rewrite imap_pair_snoc ofold_app replay_app Hr. cbn [mbind outcome_bind ofold].
  rewrite replay_entry_app // He. done.
Qed.

Lemma push_wf e s : faulty_wf s → entry_ok e → faulty_wf (push_log e s).
Proof.
  intros Hwf He. split.
  - simpl. rewrite length_app. destruct Hwf. lia.
  - rewrite window_push; [apply Hwf|]. apply Forall_app. split; [apply Hwf|]. by constructor.
  - unfold replayed. cbn [push_log fv_log fv_initial fv_durable fv_window_start].
    apply replayed_snoc; [apply Hwf|]. by destruct e.
  - apply Hwf.
Qed.

Lemma set_view_wf w s :
  faulty_wf s → Z.of_nat (length w) ≤ u64_max → faulty_wf (set_view w s).
Proof. by intros []. Qed.

Lemma set_splice_wf off data s :
  faulty_wf s → 0 ≤ off → off + Z.of_nat (length data) ≤ u64_max →
  faulty_wf (set_view (splice (fv_view s) (Z.to_nat off) data) s).
Proof.
  intros Hwf H0 Hmax. apply set_view_wf; [done|]. rewrite length_splice. pose proof (fw_length _ Hwf). lia.
Qed.

Lemma set_resize_wf len s :
  faulty_wf s → 0 ≤ len ≤ u64_max → faulty_wf (set_view (resize (Z.to_nat len) x00 (fv_view s)) s).
Proof. intros Hwf Hlen. apply set_view_wf; [done|]. rewrite length_resize. lia. Qed.

Lemma set_fail_sync_wf f s : faulty_wf s → faulty_wf (set_fail_sync f s).
Proof. by intros []. Qed.

(** Ending the window, by a sync entry [e] that replays in the same way. *)
Lemma settle_window_spec fates (all : bool) e s :
  faulty_wf s → e = (if all then LSyncOk else LSyncFailed fates) →
  wp (FaultyVfs.settle_window fates all e) (λ _ s',
    s' = end_window (window_result (fv_durable s) (window s) fates all 0) e s ∧ faulty_wf s') s.
Proof.
  intros Hwf ->. unfold FaultyVfs.settle_window. apply wp_bind, wp_get, wp_bind.
  eapply wp_lift; [by apply window_slice|]. apply wp_bind.
  eapply wp_lift; [apply apply_window_Ok, Hwf|]. apply wp_modify. split; [done|]. split.
  - simpl. rewrite length_app. simpl. lia.
  - by rewrite window_ended.
  - unfold replayed. cbn [end_window fv_log fv_initial fv_durable fv_window_start].
    apply replayed_snoc; [apply Hwf|].
    destruct all; cbn [FaultyVfs.replay_entry];
      rewrite window_slice //; cbn [mbind outcome_bind]; rewrite apply_window_Ok; try apply Hwf;
      cbn [mbind outcome_bind mret outcome_ret]; rewrite Nat.add_1_r; [|done].
    by rewrite (window_result_all _ _ _ fates).
  - apply Hwf.
Qed.

(** *** Crash images *)

(** The image of a crash now. *)
Lemma crash_image_now s fates :
  faulty_wf s →
  FaultyVfs.crash_image_at (FaultyVfs.log_len s) fates s =
  Ok (window_result (fv_durable s) (window s) fates false 0).
Proof.
  intros Hwf. unfold FaultyVfs.crash_image_at, FaultyVfs.log_len.
  rewrite Nat.leb_refl. cbn [oassert mbind outcome_bind]. rewrite firstn_all.
  rewrite (fw_replayed _ Hwf). cbn [mbind outcome_bind]. rewrite window_slice //.
  cbn [mbind outcome_bind]. apply apply_window_Ok, Hwf.
Qed.

(** [s'] is a later state of the device. *)
Definition later s s' : Prop := fv_initial s' = fv_initial s ∧ fv_log s `prefix_of` fv_log s'.

Lemma crash_image_later s s' pos fates :
  later s s' → (pos ≤ length (fv_log s))%nat →
  FaultyVfs.crash_image_at pos fates s' = FaultyVfs.crash_image_at pos fates s.
Proof.
  intros [Hi [l Hl]] Hpos. unfold FaultyVfs.crash_image_at. rewrite Hi Hl length_app.
  rewrite !(proj2 (Nat.leb_le _ _)); [lia..|]. cbn [oassert mbind outcome_bind].
  rewrite take_app_le //.
  assert (∀ l' : list LogEntry, ofold (FaultyVfs.replay_entry (fv_log s ++ l')) (fv_initial s, 0%nat)
    (imap pair (take pos (fv_log s))) = ofold (FaultyVfs.replay_entry (fv_log s)) (fv_initial s, 0%nat)
    (imap pair (take pos (fv_log s)))) as ->.
  { intros l'. apply ofold_ext. intros b [i e] Hin%elem_of_imap_pair. apply replay_entry_app.
    rewrite length_take in Hin. lia. }
  destruct (ofold _ _ _) as [[img ws]| | |]; [|done..]. cbn [mbind outcome_bind].
  by rewrite vec_slice_app.
Qed.
(** One more entry in the log is one more moment to crash at. *)
Lemma faulty_one_more s s' :
  faulty_wf s' → later s s' → length (fv_log s') = S (length (fv_log s)) → one_more s s'.
Proof.
  intros Hwf Hl Hlen. split; [simpl; unfold FaultyVfs.log_len; lia|]. intros pos img (Hpos & fates & Himg). simpl.
  unfold FaultyVfs.log_len in Hpos. destruct (decide (pos ≤ length (fv_log s))%nat) as [Hle|Hgt].
  - left. split; [done|]. exists fates. by rewrite -(crash_image_later s s').
  - right. exists fates. assert (pos = FaultyVfs.log_len s') as -> by (unfold FaultyVfs.log_len; lia).
    rewrite crash_image_now // in Himg. by injection Himg.
Qed.

Lemma later_push e w s : later s (push_log e (set_view w s)).
Proof. split; [done|]. by exists [e]. Qed.

Lemma dev_same_refl {V} `{Device V} (v : V) : dev_wf v → dev_same v v.
Proof. by split. Qed.

Lemma faulty_read s off len :
  faulty_wf s → 0 ≤ off → off + Z.of_nat len ≤ u64_max →
  wp (FaultyVfs.read_exact_at off len) (λ r s', s' = s ∧
    match r with
    | ROk bs => length bs = len ∧ bytes_at (fv_view s) off bs
    | RErr _ => Z.of_nat (length (fv_view s)) < off + Z.of_nat len
    end) s.
Proof.
  intros Hwf H0 Hmax. unfold FaultyVfs.read_exact_at. apply wp_bind, wp_get, wp_bind.
  eapply wp_lift; [by apply u64_add_Ok|]. destruct (Z.ltb_spec (Z.of_nat (length (fv_view s))) (off + Z.of_nat len)).
  - apply wp_ret. by split.
  - apply wp_bind. eapply wp_lift; [apply vec_slice_Ok; lia|]. apply wp_ret. split; [done|].
    assert (Z.to_nat (off + Z.of_nat len) - Z.to_nat off = len)%nat as -> by lia.
    split; [rewrite length_take length_drop; lia|]. apply bytes_at_take_drop; lia.
Qed.

Lemma check_overlap_Ok off len w :
  0 ≤ off → off + Z.of_nat len ≤ u64_max → Forall entry_ok w →
  Forall (apart (off, off + Z.of_nat len)) (extents w) →
  FaultyVfs.check_overlap off len w = Ok tt.
Proof.
  intros H0 Hmax Hw Ha. unfold FaultyVfs.check_overlap. rewrite u64_add_Ok //. cbn [mbind outcome_bind].
  induction Hw as [|e w He Hw IH]; [done|]. cbn [ofold]. destruct e as [o d|l| |]; try done.
  - simpl in Ha. apply Forall_cons in Ha as [Ha Has]. destruct He as [Ho Hod].
    rewrite u64_add_Ok //. cbn [mbind outcome_bind]. unfold apart in Ha. simpl in Ha.
    assert ((off + Z.of_nat len <=? o) || (o + Z.of_nat (length d) <=? off) = true) as ->.
    { apply orb_true_iff. rewrite !Z.leb_le. done. }
    by apply IH.
  - by apply IH.
Qed.

Lemma entry_result_torn buf off data fate :
  torn buf off data (entry_result buf (LWrite off data) fate).
Proof.
  unfold torn. destruct fate as [| | |seed]; simpl; [auto| |auto|eauto].
  right. right. exists (length data). by rewrite firstn_all.
Qed.

Lemma window_result_push s e fates :
  faulty_wf s →
  window_result (fv_durable s) (window (push_log e s)) fates false 0 =
  entry_result (window_result (fv_durable s) (window s) fates false 0) e
    (fate_at fates false (length (window s))).
Proof. intros Hwf. rewrite window_push; [apply Hwf|]. apply window_result_snoc. Qed.

Lemma healthy_push s e view :
  faulty_wf s → window_result (fv_durable s) (window s) [] true 0 = fv_view s →
  entry_result (fv_view s) e FApply = view →
  window_result (fv_durable s) (window (push_log e (set_view view s))) [] true 0 = view.
Proof.
  intros Hwf Hh <-. change (window (push_log e (set_view _ s))) with (window (push_log e s)).
  rewrite window_push; [apply Hwf|]. by rewrite window_result_snoc Hh.
Qed.

Lemma extents_snoc w e : extents (w ++ [e]) =
  extents w ++ match e with LWrite off data => [(off, off + Z.of_nat (length data))] | _ => [] end.
Proof. unfold extents. rewrite omap_app. by destruct e. Qed.

Lemma faulty_write s off data :
  faulty_wf s → writable s off (length data) →
  wp (FaultyVfs.write_all_at off data) (λ r s',
    r = ROk tt ∧ s' = push_log (LWrite off data) (set_view (splice (fv_view s) (Z.to_nat off) data) s)) s.
Proof.
  intros Hwf (H0 & Hmax & Ha). unfold FaultyVfs.write_all_at. apply wp_bind, wp_get, wp_bind.
  eapply wp_lift; [by apply window_slice|]. apply wp_bind.
  eapply wp_lift; [apply check_overlap_Ok; [done|done|apply Hwf|exact Ha]|]. apply wp_bind.
  eapply wp_lift; [by apply write_at_Ok|]. apply wp_bind, wp_modify, wp_bind, wp_modify, wp_ret. done.
Qed.

(** [FaultyVfs::sync]: fails exactly when the armed countdown is over. *)
Lemma faulty_sync s :
  faulty_wf s →
  wp FaultyVfs.sync (λ r s', faulty_wf s' ∧ later s s' ∧ length (fv_log s') = S (length (fv_log s)) ∧
    fv_view s' = fv_view s ∧ logged_bytes (fv_log s') = logged_bytes (fv_log s) ∧ window s' = [] ∧
    match r with
    | ROk _ => fv_durable s' = window_result (fv_durable s) (window s) [] true 0 ∧
        fv_fail_sync s' = match fv_fail_sync s with
          | Some (skip, fates) => Some (skip - 1, fates) | None => None end
    | RErr _ => ∃ fates, fv_fail_sync s = Some (0, fates) ∧ fv_fail_sync s' = None ∧
        fv_durable s' = window_result (fv_durable s) (window s) fates false 0
    end) s.
Proof.
  intros Hwf. unfold FaultyVfs.sync. apply wp_bind, wp_get.
  assert (∀ f, wp (_ ← FaultyVfs.settle_window [] true LSyncOk; mret (ROk tt))
    (λ (r : Result unit IoError) s', r = ROk tt ∧ faulty_wf s' ∧ later s s' ∧
      length (fv_log s') = S (length (fv_log s)) ∧ fv_view s' = fv_view s ∧
      logged_bytes (fv_log s') = logged_bytes (fv_log s) ∧ window s' = [] ∧
      fv_durable s' = window_result (fv_durable s) (window s) [] true 0 ∧ fv_fail_sync s' = f)
    (set_fail_sync f s)) as Hok.
  { intros f. apply wp_bind. eapply wp_mono; [eapply settle_window_spec; [by apply set_fail_sync_wf|done]|].
    intros _ s' [-> Hwf']. apply wp_ret. split_and!; [done|done|split; [done|by eexists]| |done| |
      apply window_ended|done|done].
    - simpl. rewrite length_app /=. lia.
    - simpl. rewrite logged_bytes_snoc /=. lia. }
  destruct (fv_fail_sync s) as [[skip fates]|] eqn:Ef.
  - apply wp_bind, wp_modify. destruct (Z.eqb_spec skip 0) as [->|Hne].
    + apply wp_bind. eapply wp_mono; [eapply (settle_window_spec fates false); [by apply set_fail_sync_wf|done]|].
      intros _ s' [-> Hwf']. apply wp_ret. split_and!; [done|split; [done|by eexists]| |done| |apply window_ended|].
      * simpl. rewrite length_app /=. lia.
      * simpl. rewrite logged_bytes_snoc /=. lia.
      * by exists fates.
    + apply wp_bind, wp_modify. eapply wp_mono; [apply (Hok (Some (skip - 1, fates)))|].
      intros r s' (-> & Hr). naive_solver.
  - assert (s = set_fail_sync None s) as E by (destruct s; simpl in *; by subst).
    pose proof (Hok None) as Hn. rewrite -E in Hn.
    eapply wp_mono; [exact Hn|]. intros r s' (-> & Hr). naive_solver.
Qed.

#[export] Instance FaultyVfs_device_laws : DeviceLaws FaultyVfs.
Proof.
  split.
  - intros s Hwf. apply Hwf.
  - by intros s n img [Hn _].
  - intros s img Hwf [_ [fates Himg]]. exists fates. rewrite /= crash_image_now // in Himg. by injection Himg.
  - intros s off len Hwf H0 Hmax. eapply wp_mono; [by apply faulty_read|].
    intros r s' [-> Hr]. split; [by apply dev_same_refl|]. by destruct r.
  - intros s off data Hwf Hw. pose proof Hw as (H0 & Hmax & _).
    eapply wp_mono; [by apply faulty_write|]. intros r s' [-> ->].
    assert (faulty_wf (push_log (LWrite off data)
      (set_view (splice (fv_view s) (Z.to_nat off) data) s))) as Hwf'
      by by apply push_wf; [apply set_splice_wf|].
    split_and!.
    + done.
    + apply faulty_one_more; [done|apply later_push|simpl; rewrite length_app /=; lia].
    + intros img' [fates <-]. eexists. split; [by exists fates|]. simpl.
      rewrite (window_result_push (set_view _ s)); [by apply set_splice_wf|]. apply entry_result_torn.
    + done.
    + done.
    + simpl. rewrite window_push; [apply Hwf|]. by rewrite extents_snoc.
    + simpl. intros Hh. by apply healthy_push.
    + simpl. by rewrite logged_bytes_snoc.
  - intros s Hwf. eapply wp_mono; [by apply faulty_sync|].
    intros r s' (Hwf' & Hla & Hlen & Hv & Hb & Hw & Hr).
    split_and!; [done|by apply faulty_one_more|done|done|by simpl; rewrite Hw| | |].
    + intros img [fates <-]. simpl. rewrite Hw. simpl. destruct r as [_|].
      * destruct Hr as [-> _]. exists []. by rewrite window_result_nil.
      * destruct Hr as (fates' & _ & _ & ->). by exists fates'.
    + simpl. intros Hf. destruct r; [|naive_solver]. destruct Hr as [_ ->]. by rewrite Hf.
    + destruct r; simpl; [|naive_solver congruence].
      destruct Hr as [Hd _]. intros Hh. rewrite Hw Hd Hv. split; [done|].
      by intros img [fates <-].
  - done.
  - intros s len Hwf Hlen. unfold Vfs.set_len. simpl. unfold FaultyVfs.set_len.
    apply wp_bind, wp_modify, wp_bind, wp_modify, wp_ret.
    set (s1 := set_view _ s).
    assert (faulty_wf s1) as Hwf1 by by apply set_resize_wf.
    assert (faulty_wf (push_log (LSetLen len) s1)) as Hwf'
      by (apply push_wf; [done|simpl; lia]).
    split_and!.
    + done.
    + apply faulty_one_more; [done|apply later_push|simpl; rewrite length_app /=; lia].
    + intros img' [fates <-]. eexists. split; [by exists fates|]. simpl.
      rewrite (window_result_push s1 _ fates); [done|].
      cbn [entry_result]. destruct (fate_at fates _ _); auto.
    + done.
    + done.
    + simpl. change (window (push_log _ s1)) with (window (push_log (LSetLen len) s)).
      rewrite window_push; [apply Hwf|]. by rewrite extents_snoc app_nil_r.
    + simpl. intros Hh. by apply healthy_push.
    + simpl. rewrite logged_bytes_snoc /=. lia.
Qed.

End faulty.
