(* ===== verification/Survive.v ===== *)
(** * What a sync makes durable

    The calls of a [FaultyVfs] as a step relation, and the bytes that every
    crash after a successful [sync] leaves alone: those that no later call
    has written to or truncated. *)

From S2P Require Export Device.
From stdpp Require Import options.
From Stdlib Require Import ZArith.

Local Open Scope Z_scope.

(** A call on the device that returned, with arguments that are [u64]s, or
    the arming of a sync failure. *)
Inductive device_call (s s' : FaultyVfs) : Prop :=
  | call_read off len r : FaultyVfs.read_exact_at off len s = Ok (r, s') → device_call s s'
  | call_write off data r : 0 ≤ off → FaultyVfs.write_all_at off data s = Ok (r, s') → device_call s s'
  | call_sync r : FaultyVfs.sync s = Ok (r, s') → device_call s s'
  | call_set_len len r : 0 ≤ len ≤ u64_max → FaultyVfs.set_len len s = Ok (r, s') → device_call s s'
  | call_fail_sync skip fates : FaultyVfs.fail_nth_sync skip fates s = Ok (tt, s') → device_call s s'.

(** The op leaves the byte at [i] alone. *)
Definition spares (i : nat) (e : LogEntry) : Prop :=
  match e with
  | LWrite off data => Z.of_nat i < off ∨ off + Z.of_nat (length data) ≤ Z.of_nat i
  | LSetLen len => Z.of_nat i < len
  | LSyncOk | LSyncFailed _ => True
  end.

Section survive.
Implicit Types s : FaultyVfs.

Lemma entry_result_spares buf e fate i b :
  entry_ok e → spares i e → buf !! i = Some b → entry_result buf e fate !! i = Some b.
Proof.
  intros He Hi Hb. pose proof (lookup_lt_Some _ _ _ Hb). destruct e as [off data|len| |]; simpl in *; [|destruct fate..|done|done].
  - assert (∀ data', (length data' ≤ length data)%nat → splice buf (Z.to_nat off) data' !! i = Some b) as Hs
      by (intros data' Hl; rewrite lookup_splice_old; [done|lia|done]).
    destruct fate as [| | |seed]; [done|apply Hs; done|apply Hs; by rewrite length_replicate|].
    apply Hs. rewrite length_take. lia.
  - done.
  - rewrite lookup_resize; [lia..|done].
  - rewrite lookup_resize; [lia..|done].
  - rewrite lookup_resize; [lia..|done].
Qed.

Lemma window_result_spares buf w fates all k i b :
  Forall entry_ok w → Forall (spares i) w → buf !! i = Some b → window_result buf w fates all k !! i = Some b.
Proof.
  intros Hw. revert buf k. induction Hw as [|e w He _ IH]; intros buf k Hs Hb; [done|].
  apply list.Forall_cons in Hs as [Hse Hs]. apply IH; [done|]. by apply entry_result_spares.
Qed.

(** A write that returned is one that the model's check lets through. *)
Lemma u64_add_inv a b c : u64_add a b = Ok c → c = a + b ∧ a + b ≤ u64_max.
Proof. unfold u64_add. destruct (Z.leb_spec (a + b) u64_max); [by intros [= <-]|done]. Qed.

Lemma check_overlap_inv off len w :
  FaultyVfs.check_overlap off len w = Ok tt →
  off + Z.of_nat len ≤ u64_max ∧ Forall (apart (off, off + Z.of_nat len)) (extents w).
Proof.
  unfold FaultyVfs.check_overlap. destruct (u64_add off (Z.of_nat len)) as [a2| | |] eqn:Ea; [|done..].
  apply u64_add_inv in Ea as [-> Hmax]. cbn [mbind outcome_bind]. intros Hf. split; [done|].
  induction w as [|e w IH]; [constructor|]. cbn [ofold] in Hf.
  destruct e as [o d|l| |]; cbn [mbind outcome_bind mret outcome_ret] in Hf; try by apply IH.
  destruct (u64_add o _) as [b2| | |] eqn:Eb; [|done..]. apply u64_add_inv in Eb as [-> _]. cbn [mbind outcome_bind] in Hf.
  destruct (oassert _) as [[]| | |] eqn:Eo; [|done..]. constructor; [|by apply IH].
  unfold oassert in Eo. destruct (_ || _) eqn:E; [|done]. apply orb_true_iff in E. by rewrite !Z.leb_le in E.
Qed.

Lemma write_all_at_inv s off data r s' :
  faulty_wf s → 0 ≤ off → FaultyVfs.write_all_at off data s = Ok (r, s') →
  s' = push_log (LWrite off data) (set_view (splice (fv_view s) (Z.to_nat off) data) s) ∧
  off + Z.of_nat (length data) ≤ u64_max.
Proof.
  intros Hwf H0 Hr. assert (writable s off (length data)) as Hw.
  { unfold FaultyVfs.write_all_at in Hr. apply bind_Ok in Hr as (? & ? & [= <- <-] & Hr).
    apply bind_Ok in Hr as (w & s1 & Hl & Hr). rewrite window_slice in Hl; [done|]. injection Hl as <- <-.
    apply bind_Ok in Hr as ([] & s2 & Hl & _). apply lift_Ok in Hl as ([] & Hc & _).
    by destruct (check_overlap_inv _ _ _ Hc). }
  destruct (faulty_write s off data Hwf Hw) as (r1 & s1 & Hrun & _ & ->). rewrite Hrun in Hr.
  injection Hr as _ <-. split; [done|apply Hw].
Qed.

(** The state [s] after a sync left [s0]. *)
Record survives s0 s : Prop := {
  sv_wf : faulty_wf s;
  sv_later : later s0 s;
  sv_start : (FaultyVfs.log_len s0 ≤ fv_window_start s)%nat;
  sv_durable i b : fv_view s0 !! i = Some b →
    Forall (spares i) (drop (FaultyVfs.log_len s0) (fv_log s)) → fv_durable s !! i = Some b;
}.

Lemma later_trans s s' s'' : later s s' → later s' s'' → later s s''.
Proof. intros [Hi Hl] [Hi' Hl']. split; [congruence|by etrans]. Qed.

Lemma later_spares s0 s s' i :
  later s s' → Forall (spares i) (drop (FaultyVfs.log_len s0) (fv_log s')) →
  Forall (spares i) (drop (FaultyVfs.log_len s0) (fv_log s)).
Proof. intros [_ [l ->]]. rewrite drop_app. by intros [? _]%Forall_app. Qed.

(** The bytes of the window that is applied are spared as well. *)
Lemma survives_window s0 s fates all i b :
  survives s0 s → fv_view s0 !! i = Some b → Forall (spares i) (drop (FaultyVfs.log_len s0) (fv_log s)) →
  window_result (fv_durable s) (window s) fates all 0 !! i = Some b.
Proof.
  intros [Hwf _ Hstart Hdur] Hb Hs. apply window_result_spares; [apply Hwf| |by apply Hdur].
  unfold window. replace (fv_window_start s) with (FaultyVfs.log_len s0 + (fv_window_start s - FaultyVfs.log_len s0))%nat by lia.
  rewrite -drop_drop. by apply Forall_drop.
Qed.

Lemma survives_push s0 s e v :
  survives s0 s → faulty_wf (push_log e (set_view v s)) → survives s0 (push_log e (set_view v s)).
Proof.
  intros [Hwf Hl Hstart Hdur] Hwf'. pose proof (later_push e v s) as Hp. split; [done|by eapply later_trans|done|].
  intros i b Hb Hs. apply Hdur; [done|]. by eapply later_spares.
Qed.

Lemma survives_call s0 s s' : survives s0 s → device_call s s' → survives s0 s' ∧ later s s' ∧
  (length (fv_log s') ≤ S (length (fv_log s)))%nat.
Proof.
  intros Hsv Hc. pose proof (sv_wf _ _ Hsv) as Hwf. destruct Hc as [off len r Hr|off data r H0 Hr|r Hr|len r Hlen Hr|skip fates Hr].
  - assert (s' = s) as ->.
    { unfold FaultyVfs.read_exact_at in Hr. apply bind_Ok in Hr as (? & ? & [= <- <-] & Hr).
      apply bind_Ok in Hr as (e & s1 & (? & _ & [= -> ->])%lift_Ok & Hr). destruct (_ <? _); [by injection Hr|].
      by apply bind_Ok in Hr as (bs & s2 & (? & _ & [= -> ->])%lift_Ok & [= _ <-]). }
    split_and!; [done| |lia]. split; [done|by exists []; rewrite app_nil_r].
  - destruct (write_all_at_inv _ _ _ _ _ Hwf H0 Hr) as [-> Hmax]. split_and!; [|apply later_push|simpl; rewrite length_app /=; lia].
    apply survives_push; [done|]. by apply push_wf; [apply set_splice_wf|].
  - destruct (faulty_sync s Hwf) as (r1 & s1 & Hrun & Hwf' & Hl & Hlen & _ & _ & Hw & Hres). rewrite Hrun in Hr.
    injection Hr as <- <-. split_and!; [|done|lia]. split; [done|eapply later_trans; [apply Hsv|done]| |].
    + destruct (later_trans _ _ _ (sv_later _ _ Hsv) Hl) as [_ [l Hpre]]. unfold FaultyVfs.log_len.
      assert (length (window s1) = 0%nat) as H0 by by rewrite Hw. unfold window in H0. rewrite length_drop in H0.
      rewrite Hpre length_app in H0. lia.
    + intros i b Hb Hs. apply (later_spares _ s) in Hs; [|done].
      destruct r1 as [[]|e]; [destruct Hres as [-> _]|destruct Hres as (f & _ & _ & ->)]; by eapply survives_window.
  - injection Hr as <- <-. split_and!; [|apply later_push|simpl; rewrite length_app /=; lia].
    apply (survives_push s0 s (LSetLen len) (resize (Z.to_nat len) x00 (fv_view s))); [done|].
    by apply push_wf; [apply set_resize_wf|simpl; lia].
  - injection Hr as <-. split_and!; [|split; [done|by exists []; rewrite app_nil_r]|simpl; lia]. destruct Hsv. split; try done.
    by apply set_fail_sync_wf.
Qed.

(** What every crash since [s0] leaves. *)
Definition crash_keeps s0 s : Prop := ∀ pos fates,
  (FaultyVfs.log_len s0 ≤ pos ≤ FaultyVfs.log_len s)%nat →
  ∃ img, FaultyVfs.crash_image_at pos fates s = Ok img ∧ ∀ i b, fv_view s0 !! i = Some b →
    Forall (spares i) (drop (FaultyVfs.log_len s0) (take pos (fv_log s))) → img !! i = Some b.

Lemma crash_keeps_now s0 s fates : survives s0 s →
  ∃ img, FaultyVfs.crash_image_at (FaultyVfs.log_len s) fates s = Ok img ∧ ∀ i b, fv_view s0 !! i = Some b →
    Forall (spares i) (drop (FaultyVfs.log_len s0) (fv_log s)) → img !! i = Some b.
Proof.
  intros Hsv. eexists. split; [by apply crash_image_now, Hsv|]. intros i b Hb Hs. by eapply survives_window.
Qed.

(** Once the bytes of [s0] are durable, they survive every crash. *)
Lemma crash_keeps_calls s0 s : survives s0 s0 → rtc device_call s0 s → survives s0 s ∧ crash_keeps s0 s.
Proof.
  intros H0. revert s. apply (rtc_ind_r (λ s, survives s0 s ∧ crash_keeps s0 s)); [|intros s s' _ Hc [Hsv Hk]].
  - split; [done|]. intros pos fates Hpos. assert (pos = FaultyVfs.log_len s0) as -> by lia.
    unfold FaultyVfs.log_len at 3. rewrite firstn_all. by apply crash_keeps_now.
  - destruct (survives_call _ _ _ Hsv Hc) as (Hsv' & Hl & Hlen). split; [done|]. intros pos fates Hpos.
    destruct (decide (pos ≤ FaultyVfs.log_len s)%nat) as [Hle|Hgt].
    + rewrite (crash_image_later s); [done|done|]. destruct (Hk pos fates) as (img & Himg & Hi); [lia|].
      exists img. split; [done|]. destruct Hl as [_ [l ->]]. rewrite take_app_le; [done|]. done.
    + assert (pos = FaultyVfs.log_len s') as -> by (unfold FaultyVfs.log_len in *; lia).
      unfold FaultyVfs.log_len at 3. rewrite firstn_all. by apply crash_keeps_now.
Qed.

(** A sync makes the bytes of a healthy device durable. *)
Lemma sync_survives s : faulty_wf s → dev_healthy s → dev_reliable s → ∃ s',
  FaultyVfs.sync s = Ok (ROk tt, s') ∧ fv_view s' = fv_view s ∧ survives s' s' ∧
  ∀ fates, FaultyVfs.crash_image_at (FaultyVfs.log_len s') fates s' = Ok (fv_view s').
Proof.
  intros Hwf Hh Hrel. destruct (faulty_sync s Hwf) as (r & s' & Hrun & Hwf' & _ & _ & Hv & _ & Hw & Hr).
  destruct r as [[]|e]; [|by destruct Hr as (f & Hf & _); simpl in Hrel; congruence]. destruct Hr as [Hd _].
  assert (fv_durable s' = fv_view s') as Hdv by (rewrite Hd Hv; exact Hh). exists s'. split_and!; [done|done| |].
  - split; [done|split; [done|by exists []; rewrite app_nil_r]| |by rewrite Hdv].
    assert (length (window s') = 0%nat) as H0 by by rewrite Hw. unfold window in H0. rewrite length_drop in H0.
    unfold FaultyVfs.log_len. lia.
  - intros fates. rewrite crash_image_now // Hw Hdv. done.
Qed.
End survive.
