(* ===== verification/Format.v ===== *)
(** * The on-disk format ([src/format.rs])

    The superblock slot image and its validation, and node record payloads.
    The serializer ([bincode], in its little-endian fixed-width
    configuration) and the checksum ([crc32fast]) are third-party code:
    parameters of the definitions, with what their documentation states as
    the hypotheses of the theorems that need it. *)

From S2P Require Export Engine.
From stdpp Require Import options.
From Stdlib Require Import ZArith.

Local Open Scope Z_scope.

(** The layout constants. *)
Definition SUPERBLOCK_SLOT_SIZE : Z := 4096.
Definition SUPERBLOCK_SLOTS : list Z := [0; SUPERBLOCK_SLOT_SIZE].
Definition DATA_START : Z := 2 * SUPERBLOCK_SLOT_SIZE.
Definition RECORD_HEADER_SIZE : Z := 8.
Definition MAGIC : list byte := [x42; x45; x45; x54].
Definition FORMAT_VERSION : Z := 2.

(** [Superblock] *)
Record Superblock : Type := mkSuperblock {
  magic : list byte;
  format_version : Z;
  sb_params : Params;
  last_seq : Z;
  generation : Z;
  root_offset : Z;
  watermark : Z;
}.

#[export] Instance Superblock_eq_dec : EqDecision Superblock.
Proof. solve_decision. Defined.

(** [SlotStatus] *)
Inductive SlotStatus : Type :=
  | Valid (sb : Superblock)
  | WrongVersion (found : Z)
  | Invalid.

#[export] Instance SlotStatus_eq_dec : EqDecision SlotStatus.
Proof. solve_decision. Defined.

(** [DiskNode]: a node whose children are file offsets. *)
Inductive DiskNode : Type :=
  | DiskInternal (pivots : list Key) (children : list Z) (buffer : BTreeMap Message)
  | DiskLeaf (entries : BTreeMap LeafEntry).

(** What the format needs of [bincode] and [crc32fast]: the encodings (or
    an error), the decoders with the number of bytes they consumed, and the
    checksum. *)
Class Codec : Type := {
  bincode_superblock : Superblock → option (list byte);
  bincode_read_superblock : list byte → option (Superblock * nat);
  bincode_node : DiskNode → option (list byte);
  bincode_read_node : list byte → option (DiskNode * nat);
  crc32_hash : list byte → Z;
}.

(** What the types of a superblock's fields say. *)
Definition superblock_wf (sb : Superblock) : Prop :=
  length (magic sb) = 4%nat ∧ 0 ≤ format_version sb < 2 ^ 32 ∧
  u64_ok (Z.of_nat (fanout (sb_params sb))) ∧ u64_ok (Z.of_nat (buffer_capacity (sb_params sb))) ∧
  u64_ok (Z.of_nat (leaf_capacity (sb_params sb))) ∧
  u64_ok (last_seq sb) ∧ u64_ok (generation sb) ∧ u64_ok (root_offset sb) ∧ u64_ok (watermark sb).

(** The number of the variable parts of a node, and one. *)
Definition disk_cost (n : DiskNode) : nat :=
  match n with
  | DiskInternal _ children buffer => 1 + length children + size buffer
  | DiskLeaf entries => 1 + size entries
  end%nat.

(** Their documented behaviour: what was encoded is decoded back from any
    buffer that starts with its encoding, consuming exactly that encoding;
    a superblock, whose fields have fixed widths, encodes in 64 bytes, and
    what is decoded has fields of those widths; a decoded node consumed at
    least a byte for each of its parts; other child offsets, which are [u64]
    of fixed width, do not change the size of a node; a checksum is a [u32]. *)
Class CodecLaws `{Codec} : Prop := {
  superblock_roundtrip sb bs rest :
    bincode_superblock sb = Some bs → bincode_read_superblock (bs ++ rest) = Some (sb, length bs);
  superblock_encodes sb :
    superblock_wf sb → ∃ bs, bincode_superblock sb = Some bs ∧ length bs = 64%nat;
  superblock_typed bs sb n : bincode_read_superblock bs = Some (sb, n) → superblock_wf sb;
  node_roundtrip n bs rest :
    bincode_node n = Some bs → bincode_read_node (bs ++ rest) = Some (n, length bs);
  node_size bs n k : bincode_read_node bs = Some (n, k) → (disk_cost n ≤ k)%nat;
  node_width ps os os' b bs :
    bincode_node (DiskInternal ps os b) = Some bs → length os' = length os → Forall u64_ok os' →
    ∃ bs', bincode_node (DiskInternal ps os' b) = Some bs' ∧ length bs' = length bs;
  crc32_range bs : 0 ≤ crc32_hash bs < 2 ^ 32;
}.

Section format.
Context `{Codec}.

(** [bincode::encode_into_slice]: the encoding overwrites a prefix of the
    slice; it is an error if it does not fit. *)
Definition encode_into_slice (bs : option (list byte)) (slice : list byte)
    : Result (nat * list byte) IoError :=
  match bs with
  | Some bs =>
      if (length bs <=? length slice)%nat then ROk (length bs, bs ++ drop (length bs) slice)
      else RErr OtherError
  | None => RErr OtherError
  end.

(** [Superblock::encode_slot] *)
Definition encode_slot (self : Superblock) : outcome (Result (list byte) IoError) :=
  let slot := replicate (Z.to_nat SUPERBLOCK_SLOT_SIZE) x00 in
  crc_at ← usize_sub (length slot) 4;
  body ← vec_slice 0 crc_at slot;
  match encode_into_slice (bincode_superblock self) body with
  | RErr e => mret (RErr e)
  | ROk (written, body) =>
      _ ← oassert (written <? crc_at)%nat;
      let crc := crc32_hash body in
      mret (ROk (body ++ le_encode 4 crc))
  end.

(** [Superblock::decode_slot] *)
Definition decode_slot (slot : list byte) : outcome SlotStatus :=
  if negb (Z.of_nat (length slot) =? SUPERBLOCK_SLOT_SIZE) then mret Invalid
  else
    crc_at ← usize_sub (length slot) 4;
    tail ← vec_slice crc_at (length slot) slot;
    let stored := le_decode tail in
    body ← vec_slice 0 crc_at slot;
    if negb (crc32_hash body =? stored) then mret Invalid
    else
      match bincode_read_superblock body with
      | None => mret Invalid
      | Some (sb, _) =>
          if negb (bool_decide (magic sb = MAGIC)) then mret Invalid
          else if negb (format_version sb =? FORMAT_VERSION) then
            mret (WrongVersion (format_version sb))
          else
            geometry_ok ←
              if (DATA_START <=? watermark sb) && (DATA_START <=? root_offset sb) then
                last ← u64_sub (watermark sb) RECORD_HEADER_SIZE;
                mret (root_offset sb <=? last)
              else mret false;
            let params_ok := legal_params (sb_params sb) in
            mret (if geometry_ok && params_ok then Valid sb else Invalid)
      end.

(** [encode_node] *)
Definition encode_node (node : DiskNode) : Result (list byte) IoError :=
  match bincode_node node with Some bs => ROk bs | None => RErr OtherError end.

(** [decode_node]; the reason of a failure is a message. *)
Definition decode_node (payload : list byte) : Result DiskNode unit :=
  match bincode_read_node payload with
  | None => RErr tt
  | Some (node, read) =>
      if negb (read =? length payload)%nat then RErr tt else ROk node
  end.

Lemma decode_node_cost `{!CodecLaws} payload n :
  decode_node payload = ROk n → (disk_cost n ≤ length payload)%nat.
Proof.
  unfold decode_node. destruct (bincode_read_node payload) as [[n' k]|] eqn:E; [|done].
  destruct (Nat.eqb_spec k (length payload)) as [->|]; [|done]. intros [= ->]. by eapply node_size.
Qed.
End format.

(** ** Slot images *)

(** What [decode_slot] requires of an authenticated superblock. *)
Definition geometry_legal (sb : Superblock) : Prop :=
  DATA_START ≤ root_offset sb ∧ root_offset sb + RECORD_HEADER_SIZE ≤ watermark sb ∧
  legal_params (sb_params sb) = true.

#[export] Instance geometry_legal_dec sb : Decision (geometry_legal sb).
Proof. unfold geometry_legal. apply _. Defined.

Definition slot_status (sb : Superblock) : SlotStatus :=
  if decide (magic sb = MAGIC) then
    if decide (format_version sb = FORMAT_VERSION) then
      if decide (geometry_legal sb) then Valid sb else Invalid
    else WrongVersion (format_version sb)
  else Invalid.

Section laws.
Context `{Codec}.

(** The last checks: no overflow, whatever the geometry. *)
Lemma geometry_checked sb :
  (geometry_ok ←
     if (DATA_START <=? watermark sb) && (DATA_START <=? root_offset sb) then
       last ← u64_sub (watermark sb) RECORD_HEADER_SIZE;
       mret (root_offset sb <=? last)
     else mret false;
   let params_ok := legal_params (sb_params sb) in
   mret (if geometry_ok && params_ok then Valid sb else Invalid)) =
  Ok (if decide (geometry_legal sb) then Valid sb else Invalid).
Proof.
  assert (∀ b : bool, (b = true ↔ geometry_legal sb) →
    (if b then Valid sb else Invalid) = if decide (geometry_legal sb) then Valid sb else Invalid) as Hb.
  { intros b Hb. case_decide as Hd; destruct b; try done; [by apply Hb in Hd|by destruct Hd; apply Hb]. }
  assert (0 < RECORD_HEADER_SIZE < DATA_START) by done.
  destruct (DATA_START <=? watermark sb) eqn:Ew; [apply Z.leb_le in Ew|apply Z.leb_gt in Ew];
    (destruct (DATA_START <=? root_offset sb) eqn:Er; [apply Z.leb_le in Er|apply Z.leb_gt in Er]);
    cbn [andb mbind outcome_bind mret outcome_ret];
    rewrite ?u64_sub_Ok; try lia; cbn [mbind outcome_bind mret outcome_ret andb]; f_equal;
    (apply Hb || apply (Hb false));
    unfold geometry_legal; rewrite ?andb_true_iff ?Z.leb_le; intuition (lia || done).
Qed.

(** The two parts of a full-size slot: the checked body and the checksum. *)
Lemma decode_slot_parts (body tail : list byte) :
  length body = 4092%nat → length tail = 4%nat →
  decode_slot (body ++ tail) = Ok (
    if decide (crc32_hash body = le_decode tail) then
      match bincode_read_superblock body with
      | None => Invalid
      | Some (sb, _) => slot_status sb
      end
    else Invalid).
Proof.
  intros Hb Ht. unfold decode_slot. rewrite length_app Hb Ht.
  rewrite (proj2 (Z.eqb_eq (Z.of_nat (4092 + 4)) SUPERBLOCK_SLOT_SIZE)); [unfold SUPERBLOCK_SLOT_SIZE; lia|].
  cbn [negb]. revert Hb. generalize 4092%nat as n. intros n Hb.
  rewrite usize_sub_Ok; [lia|]. rewrite Nat.add_sub. cbn [mbind outcome_bind].
  rewrite vec_slice_Ok ?length_app; [lia..|]. cbn [mbind outcome_bind].
  rewrite vec_slice_Ok ?length_app; [lia..|]. cbn [mbind outcome_bind mret outcome_ret].
  assert (take (n - 0) (drop 0 (body ++ tail)) = body) as ->.
  { rewrite drop_0. apply take_app_length'. lia. }
  assert (take (n + 4 - n) (drop n (body ++ tail)) = tail) as ->.
  { rewrite drop_app_length' //. apply take_ge. lia. }
  case_decide as Hc.
  2: { by rewrite (proj2 (Z.eqb_neq _ _) Hc). }
  rewrite (proj2 (Z.eqb_eq _ _) Hc). cbn [negb].
  destruct (bincode_read_superblock body) as [[sb k]|]; [|done]. unfold slot_status.
  case_decide as Hm; [rewrite bool_decide_true //|rewrite bool_decide_false //]. cbn [negb].
  case_decide as Hv; [rewrite (proj2 (Z.eqb_eq _ _) Hv)|by rewrite (proj2 (Z.eqb_neq _ _) Hv)].
  cbn [negb]. apply geometry_checked.
Qed.

(** A slot of another size is refused. *)
Lemma decode_slot_short slot :
  Z.of_nat (length slot) ≠ SUPERBLOCK_SLOT_SIZE → decode_slot slot = Ok Invalid.
Proof. intros Hl. unfold decode_slot. by rewrite (proj2 (Z.eqb_neq _ _) Hl). Qed.

Lemma encode_slot_parts sb bs :
  bincode_superblock sb = Some bs → length bs = 64%nat →
  let body := bs ++ replicate 4028 x00 in
  encode_slot sb = Ok (ROk (body ++ le_encode 4 (crc32_hash body))).
Proof.
  intros E Hl body. unfold encode_slot. rewrite length_replicate.
  change (usize_sub (Z.to_nat SUPERBLOCK_SLOT_SIZE) 4) with (Ok 4092%nat). cbn [mbind outcome_bind].
  rewrite vec_slice_Ok; [lia|rewrite length_replicate; unfold SUPERBLOCK_SLOT_SIZE; lia|].
  cbn [mbind outcome_bind]. rewrite E. unfold encode_into_slice.
  rewrite length_take length_drop length_replicate Hl.
  change (4092 - 0)%nat with 4092%nat. change (Z.to_nat SUPERBLOCK_SLOT_SIZE) with 4096%nat.
  cbn [Nat.leb Nat.sub Nat.min Nat.ltb oassert mbind outcome_bind mret outcome_ret].
  done.
Qed.

(** Every slot image that is accepted, or refused for its version, carries
    the checksum of its body. *)
Lemma decode_slot_inv slot st :
  decode_slot slot = Ok st → st ≠ Invalid → ∃ body tail sb n,
    slot = body ++ tail ∧ length body = 4092%nat ∧ length tail = 4%nat ∧
    crc32_hash body = le_decode tail ∧ bincode_read_superblock body = Some (sb, n) ∧
    st = slot_status sb.
Proof.
  intros Hd Hst. destruct (decide (Z.of_nat (length slot) = SUPERBLOCK_SLOT_SIZE)) as [Hl|Hl].
  2: { rewrite decode_slot_short // in Hd. congruence. }
  unfold SUPERBLOCK_SLOT_SIZE in Hl.
  rewrite -(take_drop 4092 slot) decode_slot_parts in Hd.
  { rewrite length_take. lia. } { rewrite length_drop. lia. }
  injection Hd as <-. destruct (decide _) as [Hc|]; [|done].
  destruct (bincode_read_superblock _) as [[sb n]|] eqn:E; [|done].
  exists (take 4092 slot), (drop 4092 slot), sb, n. rewrite take_drop length_take length_drop.
  split_and!; try done; lia.
Qed.

Lemma decode_slot_total slot : ∃ st, decode_slot slot = Ok st.
Proof.
  destruct (decide (Z.of_nat (length slot) = SUPERBLOCK_SLOT_SIZE)) as [Hl|Hl].
  - unfold SUPERBLOCK_SLOT_SIZE in Hl. rewrite -(take_drop 4092 slot).
    eexists. apply decode_slot_parts; [rewrite length_take|rewrite length_drop]; lia.
  - eexists. by apply decode_slot_short.
Qed.

End laws.

(** A slot that was written is read back. *)
Lemma encode_decode_slot `{CodecLaws} sb bs :
  bincode_superblock sb = Some bs → length bs = 64%nat →
  ∃ slot, encode_slot sb = Ok (ROk slot) ∧ Z.of_nat (length slot) = SUPERBLOCK_SLOT_SIZE ∧
    decode_slot slot = Ok (slot_status sb).
Proof.
  intros Ebs Hl. eexists. split; [by apply encode_slot_parts|].
  assert (length (bs ++ replicate 4028 x00) = 4092%nat) as Hlen by (rewrite length_app length_replicate; lia).
  split; [rewrite length_app Hlen length_le_encode; unfold SUPERBLOCK_SLOT_SIZE; lia|].
  rewrite decode_slot_parts //.
  pose proof (crc32_range (bs ++ replicate 4028 x00)) as Hcrc.
  rewrite le_decode_encode Z.mod_small; [done|]. rewrite decide_True //.
  by rewrite (superblock_roundtrip _ _ _ Ebs).
Qed.
