(* ===== verification/Bincode.v ===== *)
(** * A codec that keeps the laws of [Format]

    The encoding that [bincode]'s documentation describes for the
    little-endian, fixed-width configuration: integers at their width,
    sequences behind a [u64] length, enum variants behind a [u32] index.
    It instantiates the parameters of [Format], so that the theorems that
    assume the laws can be applied. *)

From S2P Require Export Format.
From stdpp Require Import options.
From Stdlib Require Import ZArith.

(** A serializer, and the parser of a prefix. *)
Record Serial (A : Type) : Type := mkSerial {
  put : A → option (list byte);
  parse : list byte → option (A * list byte);
}.
Arguments put {A} _ _.
Arguments parse {A} _ _.

(** What is written is read back, whatever follows. *)
Class Faithful {A} (c : Serial A) : Prop :=
  parse_put a bs rest : put c a = Some bs → parse c (bs ++ rest) = Some (a, rest).

Section combinators.
Context {A B : Type}.

Definition uint (n : nat) : Serial Z := {|
  put z := if decide (0 ≤ z < 2 ^ (8 * Z.of_nat n))%Z then Some (le_encode n z) else None;
  parse bs := if decide (n ≤ length bs) then Some (le_decode (take n bs), drop n bs) else None;
|}.

Definition int64 : Serial Z := {|
  put z := if decide (- 2 ^ 63 ≤ z < 2 ^ 63)%Z then Some (i64_to_le_bytes z) else None;
  parse bs := if decide (8 ≤ length bs) then Some (i64_from_le_bytes (take 8 bs), drop 8 bs) else None;
|}.

Definition pair_ (a : Serial A) (b : Serial B) : Serial (A * B) := {|
  put x := xs ← put a x.1; ys ← put b x.2; Some (xs ++ ys);
  parse bs := '(x, bs) ← parse a bs; '(y, bs) ← parse b bs; Some ((x, y), bs);
|}.

(** Through a bijection. *)
Definition via (f : A → B) (g : B → A) (a : Serial A) : Serial B := {|
  put y := put a (g y);
  parse bs := '(x, bs) ← parse a bs; Some (f x, bs);
|}.

(** Exactly [n] raw bytes. *)
Definition raw (n : nat) : Serial (list byte) := {|
  put l := if decide (length l = n) then Some l else None;
  parse bs := if decide (n ≤ length bs) then Some (take n bs, drop n bs) else None;
|}.

Fixpoint put_all (a : Serial A) (l : list A) : option (list byte) :=
  match l with
  | [] => Some []
  | x :: l => xs ← put a x; ys ← put_all a l; Some (xs ++ ys)
  end.

Fixpoint parse_all (a : Serial A) (n : nat) (bs : list byte) : option (list A * list byte) :=
  match n with
  | 0 => Some ([], bs)
  | S n => '(x, bs) ← parse a bs; '(l, bs) ← parse_all a n bs; Some (x :: l, bs)
  end.

Definition seq_ (a : Serial A) : Serial (list A) := {|
  put l := xs ← put (uint 8) (Z.of_nat (length l)); ys ← put_all a l; Some (xs ++ ys);
  parse bs := '(n, bs) ← parse (uint 8) bs; parse_all a (Z.to_nat n) bs;
|}.

#[export] Instance uint_faithful n : Faithful (uint n).
Proof.
  intros z bs rest. cbn [put parse uint]. case_decide as Hz; [|done]. intros [= <-].
  rewrite length_app length_le_encode decide_True; [lia|].
  rewrite take_app_length' ?length_le_encode // drop_app_length' ?length_le_encode //.
  by rewrite le_decode_encode Z.mod_small.
Qed.

#[export] Instance int64_faithful : Faithful int64.
Proof.
  intros z bs rest. cbn [put parse int64]. case_decide as Hz; [|done]. intros [= <-].
  assert (length (i64_to_le_bytes z) = 8) as Hl by apply length_le_encode.
  case_decide as Hd; [|rewrite length_app Hl in Hd; lia].
  rewrite take_app_length' // drop_app_length' // i64_from_to_le_bytes i64_wrap_id //.
Qed.

#[export] Instance raw_faithful n : Faithful (raw n).
Proof.
  intros l bs rest. cbn [put parse raw]. case_decide as Hl; [|done]. intros [= <-].
  rewrite length_app decide_True; [lia|]. by rewrite take_app_length' // drop_app_length'.
Qed.

#[export] Instance pair_faithful (a : Serial A) (b : Serial B) :
  Faithful a → Faithful b → Faithful (pair_ a b).
Proof.
  intros Ha Hb [x y] bs rest. simpl.
  destruct (put a x) as [xs|] eqn:Ex; [|done]. destruct (put b y) as [ys|] eqn:Ey; [|done].
  intros [= <-]. rewrite -(assoc_L (++)) (Ha _ _ _ Ex) /= (Hb _ _ _ Ey). done.
Qed.

Lemma via_faithful (f : A → B) (g : B → A) (a : Serial A) :
  (∀ y, f (g y) = y) → Faithful a → Faithful (via f g a).
Proof. intros Hfg Ha y bs rest Hy. simpl in *. by rewrite (Ha _ _ _ Hy) /= Hfg. Qed.

#[export] Instance seq_faithful (a : Serial A) : Faithful a → Faithful (seq_ a).
Proof.
  intros Ha l bs rest. cbn [put parse seq_].
  destruct (put (uint 8) _) as [xs|] eqn:Ex; [|done]. cbn [mbind option_bind].
  destruct (put_all a l) as [ys|] eqn:Ey; [|done]. intros [= <-].
  rewrite -(assoc_L (++)) (uint_faithful 8 _ _ _ Ex) /= Nat2Z.id. clear Ex.
  revert ys Ey. induction l as [|x l IH]; intros ys; simpl; [by intros [= <-]|].
  destruct (put a x) as [zs|] eqn:Ez; [|done]. destruct (put_all a l) as [ws|]; [|done].
  intros [= <-]. rewrite -(assoc_L (++)) (Ha _ _ _ Ez) /= IH //.
Qed.
End combinators.

(** An enum: a [u32] variant index, then the variant's fields. *)
Definition enum {A} (index : A → Z) (variant : Z → option (Serial A)) : Serial A := {|
  put a := xs ← put (uint 4) (index a); c ← variant (index a); ys ← put c a; Some (xs ++ ys);
  parse bs := '(i, bs) ← parse (uint 4) bs; c ← variant i; parse c bs;
|}.

Lemma enum_faithful {A} (index : A → Z) variant :
  (∀ i c, variant i = Some c → Faithful c) → Faithful (enum index variant : Serial A).
Proof.
  intros Hv a bs rest. cbn [put parse enum].
  destruct (put (uint 4) _) as [xs|] eqn:Ex; [|done]. cbn [mbind option_bind].
  destruct (variant _) as [c|] eqn:Ec; [|done]. cbn [mbind option_bind].
  destruct (put c a) as [ys|] eqn:Ey; [|done]. intros [= <-].
  rewrite -(assoc_L (++)) (uint_faithful 4 _ _ _ Ex) /= Ec /=. by apply (Hv _ _ Ec).
Qed.

(** One variant, of a value that may be another one. *)
Definition variant_ {A B} (f : A → B) (g : B → option A) (a : Serial A) : Serial B := {|
  put y := x ← g y; put a x;
  parse bs := '(x, bs) ← parse a bs; Some (f x, bs);
|}.

Lemma variant_faithful {A B} (f : A → B) (g : B → option A) (a : Serial A) :
  (∀ x y, g y = Some x → f x = y) → Faithful a → Faithful (variant_ f g a).
Proof.
  intros Hfg Ha y bs rest. simpl. destruct (g y) as [x|] eqn:E; [|done]. intros Hx. simpl in Hx.
  by rewrite (Ha _ _ _ Hx) /= (Hfg _ _ E).
Qed.

(** ** The types of the format *)
Definition vec_u8 : Serial (list byte) := {|
  put l := xs ← put (uint 8) (Z.of_nat (length l)); Some (xs ++ l);
  parse bs := '(n, bs) ← parse (uint 8) bs; parse (raw (Z.to_nat n)) bs;
|}.

#[export] Instance vec_u8_faithful : Faithful vec_u8.
Proof.
  intros l bs rest. cbn [put parse vec_u8].
  destruct (put (uint 8) _) as [xs|] eqn:Ex; [|done]. intros [= <-].
  rewrite -(assoc_L (++)) (uint_faithful 8 _ _ _ Ex) /= Nat2Z.id.
  apply (raw_faithful (length l)). simpl. by rewrite decide_True.
Qed.

Definition btree_map {V} (v : Serial V) : Serial (BTreeMap V) :=
  via bt_collect bt_iter (seq_ (pair_ vec_u8 v)).

#[export] Instance btree_map_faithful {V} (v : Serial V) : Faithful v → Faithful (btree_map v).
Proof. intros Hv. apply via_faithful; [apply bt_collect_iter|apply _]. Qed.

Definition upsert_op : Serial UpsertOp := enum (λ _, 0%Z) (λ i,
  if decide (i = 0%Z) then Some (variant_ Add (λ '(Add d), Some d) int64) else None).

#[export] Instance upsert_op_faithful : Faithful upsert_op.
Proof.
  apply enum_faithful. intros i c. case_decide; [|done]. intros [= <-].
  apply variant_faithful; [by intros x [d] [= ->]|apply _].
Qed.

Definition message : Serial Message :=
  enum (λ m, match m with Put _ _ => 0 | Delete _ => 1 | Upsert _ _ => 2 end)%Z (λ i,
    if decide (i = 0%Z) then Some (variant_ (λ '(s, v), Put s v)
      (λ m, match m with Put s v => Some (s, v) | _ => None end) (pair_ (uint 8) vec_u8))
    else if decide (i = 1%Z) then Some (variant_ Delete
      (λ m, match m with Delete s => Some s | _ => None end) (uint 8))
    else if decide (i = 2%Z) then Some (variant_ (λ '(s, op), Upsert s op)
      (λ m, match m with Upsert s op => Some (s, op) | _ => None end) (pair_ (uint 8) upsert_op))
    else None).

#[export] Instance message_faithful : Faithful message.
Proof.
  apply enum_faithful. intros i c. repeat case_decide; intros E; simplify_eq; try done;
    (apply variant_faithful; [|apply _]); intros; repeat case_match; naive_solver.
Qed.

Definition leaf_entry : Serial LeafEntry :=
  via (λ '(s, v), mkLeafEntry s v) (λ e, (le_seq e, le_value e)) (pair_ (uint 8) vec_u8).

#[export] Instance leaf_entry_faithful : Faithful leaf_entry.
Proof. apply via_faithful; [by intros []|apply _]. Qed.

Definition disk_node : Serial DiskNode :=
  enum (λ n, match n with DiskInternal _ _ _ => 0 | DiskLeaf _ => 1 end)%Z (λ i,
    if decide (i = 0%Z) then Some (variant_ (λ '(ps, (cs, b)), DiskInternal ps cs b)
      (λ n, match n with DiskInternal ps cs b => Some (ps, (cs, b)) | _ => None end)
      (pair_ (seq_ vec_u8) (pair_ (seq_ (uint 8)) (btree_map message))))
    else if decide (i = 1%Z) then Some (variant_ DiskLeaf
      (λ n, match n with DiskLeaf e => Some e | _ => None end) (btree_map leaf_entry))
    else None).

#[export] Instance disk_node_faithful : Faithful disk_node.
Proof.
  apply enum_faithful. intros i c. repeat case_decide; intros E; simplify_eq; try done;
    (apply variant_faithful; [|apply _]); intros; repeat case_match; naive_solver.
Qed.

Definition usize64 : Serial nat := {|
  put n := put (uint 8) (Z.of_nat n);
  parse bs := '(z, bs) ← parse (uint 8) bs; Some (Z.to_nat z, bs);
|}.

#[export] Instance usize64_faithful : Faithful usize64.
Proof. intros n bs rest Hn. cbn [parse usize64]. by rewrite (uint_faithful 8 _ _ _ Hn) /= Nat2Z.id. Qed.

Definition superblock : Serial Superblock :=
  via (λ '(m, (v, ((f, (b, l)), (s, (g, (r, w)))))), mkSuperblock m v (mkParams f b l) s g r w)
    (λ sb, (magic sb, (format_version sb,
      ((fanout (sb_params sb), (buffer_capacity (sb_params sb), leaf_capacity (sb_params sb))),
       (last_seq sb, (generation sb, (root_offset sb, watermark sb)))))))
    (pair_ (raw 4) (pair_ (uint 4) (pair_ (pair_ usize64 (pair_ usize64 usize64))
      (pair_ (uint 8) (pair_ (uint 8) (pair_ (uint 8) (uint 8))))))).

#[export] Instance superblock_faithful : Faithful superblock.
Proof. apply via_faithful; [by intros [? ? [] ? ? ? ?]|apply _]. Qed.

(** ** The instance *)

(** The checksum: any function into [u32] will do; this one is the sum of
    the bytes. *)
Definition byte_sum (bs : list byte) : Z := (foldr (λ b, Z.add (byte_to_Z b)) 0 bs mod 2 ^ 32)%Z.

(** A parser that says how many bytes it consumed. *)
Definition consumed {A} (c : Serial A) (bs : list byte) : option (A * nat) :=
  '(a, rest) ← parse c bs; Some (a, length bs - length rest).

Definition bincode : Codec := {|
  bincode_superblock := put superblock;
  bincode_read_superblock := consumed superblock;
  bincode_node := put disk_node;
  bincode_read_node := consumed disk_node;
  crc32_hash := byte_sum;
|}.

Lemma consumed_put {A} (c : Serial A) `{Faithful A c} a bs rest :
  put c a = Some bs → consumed c (bs ++ rest) = Some (a, length bs).
Proof.
  intros Ha. unfold consumed. rewrite (parse_put _ _ rest Ha) /=. do 2 f_equal.
  rewrite length_app. lia.
Qed.

Lemma put_uint n z :
  (0 ≤ z < 2 ^ (8 * Z.of_nat n))%Z → put (uint n) z = Some (le_encode n z).
Proof. intros Hz. cbn [put uint]. by rewrite decide_True. Qed.

Lemma put_raw n l : length l = n → put (raw n) l = Some l.
Proof. intros <-. cbn [put raw]. by rewrite decide_True. Qed.

Lemma put_pair {A B} (a : Serial A) (b : Serial B) x y xs ys :
  put a x = Some xs → put b y = Some ys → put (pair_ a b) (x, y) = Some (xs ++ ys).
Proof. intros Hx Hy. simpl. by rewrite Hx Hy. Qed.

Lemma put_via {A B} (f : A → B) (g : B → A) (a : Serial A) y bs :
  put a (g y) = Some bs → put (via f g a) y = Some bs.
Proof. done. Qed.

Lemma put_superblock sb : superblock_wf sb → ∃ bs, put superblock sb = Some bs ∧ length bs = 64.
Proof.
  destruct sb as [m v [f b l] s g r w]. unfold superblock_wf, u64_ok, u64_max.
  cbn [magic format_version sb_params fanout buffer_capacity leaf_capacity last_seq generation root_offset watermark].
  intros (Hm & Hv & Hf & Hb & Hl & Hs & Hg & Hr & Hw).
  assert (∀ z, (0 ≤ z ≤ 2 ^ 64 - 1)%Z → put (uint 8) z = Some (le_encode 8 z)) as H8
    by (intros z Hz; apply put_uint; change (8 * Z.of_nat 8)%Z with 64%Z; lia).
  eexists. split.
  { apply put_via. apply put_pair; [by apply put_raw|].
    apply put_pair; [by apply (put_uint 4)|].
    apply put_pair; [apply put_pair; [|apply put_pair]|apply put_pair; [|apply put_pair; [|apply put_pair]]];
      apply H8; assumption. }
  rewrite !length_app !length_le_encode Hm. reflexivity.
Qed.

(** What a parser yields has the range of its type. *)
Lemma parse_uint n bs z rest : parse (uint n) bs = Some (z, rest) → (0 ≤ z < 2 ^ (8 * Z.of_nat n))%Z.
Proof.
  cbn [parse uint]. case_decide as Hn; [|done]. intros [= <- <-].
  pose proof (le_decode_range (take n bs)) as Hr. rewrite length_take in Hr.
  by replace (n `min` length bs) with n in Hr by lia.
Qed.

Lemma parse_pair {A B} (a : Serial A) (b : Serial B) bs x y rest :
  parse (pair_ a b) bs = Some ((x, y), rest) →
  ∃ bs', parse a bs = Some (x, bs') ∧ parse b bs' = Some (y, rest).
Proof.
  simpl. destruct (parse a bs) as [[x' bs']|]; [|done]. simpl.
  destruct (parse b bs') as [[y' r']|] eqn:E; [|done]. simpl. intros [= -> -> ->]. by exists bs'.
Qed.

Lemma parse_usize64 bs n rest : parse usize64 bs = Some (n, rest) → u64_ok (Z.of_nat n).
Proof.
  cbn [parse usize64]. destruct (parse (uint 8) bs) as [[z r]|] eqn:E; [|done].
  intros [= <- <-]. apply parse_uint in E. unfold u64_ok, u64_max. change (8 * Z.of_nat 8)%Z with 64%Z in E. lia.
Qed.

Lemma parse_u64 bs z rest : parse (uint 8) bs = Some (z, rest) → u64_ok z.
Proof. intros E%parse_uint. unfold u64_ok, u64_max. change (8 * Z.of_nat 8)%Z with 64%Z in E. lia. Qed.

Lemma parse_superblock bs sb rest : parse superblock bs = Some (sb, rest) → superblock_wf sb.
Proof.
  unfold superblock. cbn [parse via].
  match goal with |- context [parse ?p bs] => destruct (parse p bs) as [[x r]|] eqn:E; [|done] end.
  destruct x as [m [v [[f [b l]] [s [g [rt w]]]]]]. intros [= <- <-].
  apply parse_pair in E as (r1 & Em & E). apply parse_pair in E as (r2 & Ev & E).
  apply parse_pair in E as (r3 & Ep & E). apply parse_pair in Ep as (r4 & Ef & Ep).
  apply parse_pair in Ep as (r5 & Eb & El). apply parse_pair in E as (r6 & Es & E).
  apply parse_pair in E as (r7 & Eg & E). apply parse_pair in E as (r8 & Er & Ew).
  unfold superblock_wf. simpl. split_and!; eauto using parse_usize64, parse_u64.
  - cbn [parse raw] in Em. case_decide; [|done]. injection Em as <- _. rewrite length_take. lia.
  - apply parse_uint in Ev. lia.
  - apply parse_uint in Ev. change (8 * Z.of_nat 4)%Z with 32%Z in Ev. lia.
Qed.

(** A decoder that consumes at least [cost a] bytes for [a]. *)
Class Consumes {A} (c : Serial A) (cost : A → nat) : Prop :=
  parse_consumes bs a rest : parse c bs = Some (a, rest) → length rest + cost a ≤ length bs.

Section consumes.
Context {A B : Type}.

#[export] Instance uint_consumes n : Consumes (uint n) (λ _, n).
Proof. intros bs z rest. cbn [parse uint]. case_decide; [|done]. intros [= _ <-]. rewrite length_drop. lia. Qed.

#[export] Instance raw_consumes n : Consumes (raw n) (λ _, n).
Proof. intros bs z rest. cbn [parse raw]. case_decide; [|done]. intros [= _ <-]. rewrite length_drop. lia. Qed.

#[export] Instance int64_consumes : Consumes int64 (λ _, 8).
Proof. intros bs z rest. cbn [parse int64]. case_decide; [|done]. intros [= _ <-]. rewrite length_drop. lia. Qed.

#[export] Instance pair_consumes (a : Serial A) (b : Serial B) f g :
  Consumes a f → Consumes b g → Consumes (pair_ a b) (λ x, f x.1 + g x.2).
Proof.
  intros Ha Hb bs [x y] rest (bs' & Hx & Hy)%parse_pair. apply Ha in Hx. apply Hb in Hy. simpl. lia.
Qed.

Lemma via_consumes (f : A → B) g (a : Serial A) cost cost' :
  Consumes a cost → (∀ x, cost' (f x) ≤ cost x) → Consumes (via f g a) cost'.
Proof.
  intros Ha Hc bs y rest. cbn [parse via]. destruct (parse a bs) as [[x r]|] eqn:E; [|done].
  intros [= <- <-]. apply Ha in E. specialize (Hc x). lia.
Qed.

Lemma variant_consumes (f : A → B) g (a : Serial A) cost cost' :
  Consumes a cost → (∀ x, cost' (f x) ≤ cost x) → Consumes (variant_ f g a) cost'.
Proof.
  intros Ha Hc bs y rest. cbn [parse variant_]. destruct (parse a bs) as [[x r]|] eqn:E; [|done].
  intros [= <- <-]. apply Ha in E. specialize (Hc x). lia.
Qed.

#[export] Instance seq_consumes (a : Serial A) cost :
  Consumes a cost → Consumes (seq_ a) (λ l, 8 + sum_list_with cost l).
Proof.
  intros Ha bs l rest. cbn [parse seq_].
  destruct (parse (uint 8) bs) as [[n r]|] eqn:E; [|done]. cbn [mbind option_bind].
  apply uint_consumes in E. generalize (Z.to_nat n). intros k Hk.
  enough (length rest + sum_list_with cost l ≤ length r) by lia. clear E. revert r l Hk.
  induction k as [|k IH]; intros r l; cbn [parse_all]; [intros [= <- <-]; simpl; lia|].
  destruct (parse a r) as [[x r1]|] eqn:E; [|done]. cbn [mbind option_bind].
  destruct (parse_all a k r1) as [[l' r2]|] eqn:E2; [|done]. intros [= <- <-].
  apply Ha in E. apply IH in E2. simpl. lia.
Qed.
End consumes.

Lemma enum_consumes {A} (index : A → Z) variant cost :
  (∀ i c, variant i = Some c → Consumes c cost) → Consumes (enum index variant : Serial A) (λ a, 4 + cost a).
Proof.
  intros Hv bs a rest. cbn [parse enum].
  destruct (parse (uint 4) bs) as [[i r]|] eqn:E; [|done]. cbn [mbind option_bind].
  destruct (variant i) as [c|] eqn:Ec; [|done]. intros Hc. cbn [mbind option_bind] in Hc.
  apply uint_consumes in E. apply (Hv _ _ Ec) in Hc. lia.
Qed.

Lemma size_bt_collect_le {V} (l : list (Key * V)) : size (bt_collect l) ≤ length l.
Proof.
  induction l as [|kv l IH] using rev_ind; [done|]. unfold bt_collect in *. rewrite foldl_app length_app /=.
  rewrite map_size_insert. case_match; simpl; lia.
Qed.

Lemma sum_list_with_ge {A} (f : A → nat) l : (∀ x, 1 ≤ f x) → length l ≤ sum_list_with f l.
Proof. intros Hf. induction l as [|x l IH]; simpl; [lia|]. specialize (Hf x). lia. Qed.

#[export] Instance vec_u8_consumes : Consumes vec_u8 (λ _, 8).
Proof.
  intros bs l rest. cbn [parse vec_u8]. destruct (parse (uint 8) bs) as [[n r]|] eqn:E; [|done].
  cbn [mbind option_bind]. intros Hr. apply uint_consumes in E. apply (raw_consumes (Z.to_nat n)) in Hr. lia.
Qed.

#[export] Instance btree_map_consumes {V} (v : Serial V) cost :
  Consumes v cost → Consumes (btree_map v) size.
Proof.
  intros Hv. eapply via_consumes; [apply _|]. intros l. cbn beta.
  etrans; [apply size_bt_collect_le|]. etrans; [apply sum_list_with_ge|apply Nat.le_add_l]. intros x. simpl. lia.
Qed.

#[export] Instance leaf_entry_consumes : Consumes leaf_entry (λ _, 0).
Proof. eapply via_consumes; [apply _|intros; apply Nat.le_0_l]. Qed.

Lemma enum_shrinks {A} (index : A → Z) variant :
  (∀ i c, variant i = Some c → Consumes c (λ _, 0)) → Consumes (enum index variant : Serial A) (λ _, 0).
Proof. intros Hv bs a rest Ha. apply (enum_consumes _ _ _ Hv) in Ha. lia. Qed.

#[export] Instance upsert_op_consumes : Consumes upsert_op (λ _, 0).
Proof.
  apply enum_shrinks. intros i c. case_decide; [|done]. intros [= <-].
  eapply variant_consumes; [apply _|intros; apply Nat.le_0_l].
Qed.

#[export] Instance message_consumes : Consumes message (λ _, 0).
Proof.
  apply enum_shrinks. intros i c. repeat case_decide; intros E; simplify_eq; try done;
    (eapply variant_consumes; [apply _|intros; apply Nat.le_0_l]).
Qed.

#[export] Instance disk_node_consumes : Consumes disk_node disk_cost.
Proof.
  intros bs n rest Hn. enough (length rest + (4 + (disk_cost n - 1)) ≤ length bs) by lia.
  revert bs n rest Hn. apply (enum_consumes _ _ (λ n, disk_cost n - 1)). intros i c.
  repeat case_decide; intros E; simplify_eq; try done; (eapply variant_consumes; [apply _|]).
  - intros (ps & cs & b). simpl. pose proof (sum_list_with_ge (λ _ : Z, 8) cs ltac:(intros; simpl; lia)). lia.
  - intros e. simpl. lia.
Qed.

(** Offsets have a fixed width. *)
Lemma put_u64s l l' ys :
  put_all (uint 8) l = Some ys → length l' = length l → Forall u64_ok l' →
  ∃ ys', put_all (uint 8) l' = Some ys' ∧ length ys' = length ys.
Proof.
  revert l ys. induction l' as [|z' l' IH]; intros [|z l] ys Hl Hlen Hok; try done; [by exists ys|].
  cbn [put_all] in Hl. destruct (put (uint 8) z) as [zs|] eqn:Ez; [|done]. cbn [mbind option_bind] in Hl.
  destruct (put_all (uint 8) l) as [ws|] eqn:Ew; [|done]. injection Hl as <-.
  apply Forall_cons in Hok as [Hz Hok]. injection Hlen as Hlen. destruct (IH l ws Ew Hlen Hok) as (ws' & Hw' & Hlw).
  cbn [put_all]. rewrite (put_uint 8 z').
  { unfold u64_ok, u64_max in Hz. change (8 * Z.of_nat 8)%Z with 64%Z. lia. }
  cbn [mbind option_bind]. rewrite Hw'. eexists. split; [done|]. rewrite !length_app Hlw.
  cbn [put uint] in Ez. case_decide; [|done]. injection Ez as <-. by rewrite !length_le_encode.
Qed.

Lemma disk_node_width ps os os' b bs :
  put disk_node (DiskInternal ps os b) = Some bs → length os' = length os → Forall u64_ok os' →
  ∃ bs', put disk_node (DiskInternal ps os' b) = Some bs' ∧ length bs' = length bs.
Proof.
  intros Hp Hlen Hok. unfold disk_node, enum in *. cbn [put] in *.
  destruct (put (uint 4) 0%Z) as [tag|]; [|done]. cbn [mbind option_bind] in *.
  destruct (decide (0 = 0)%Z) as [_|]; [|done]. cbn [mbind option_bind put variant_ pair_ fst snd] in *.
  destruct (put (seq_ vec_u8) ps) as [xs|]; [|done]. cbn [mbind option_bind] in *.
  cbn [seq_ put] in *. rewrite Hlen.
  destruct (put (uint 8) (Z.of_nat (length os))) as [n|]; [|done]. cbn [mbind option_bind] in *.
  destruct (put_all (uint 8) os) as [ys|] eqn:Ey; [|done]. cbn [mbind option_bind] in *.
  destruct (put_u64s _ _ _ Ey Hlen Hok) as (ys' & -> & Hl). cbn [mbind option_bind].
  destruct (put (btree_map message) b) as [zs|]; [|done]. cbn [mbind option_bind] in *.
  injection Hp as <-. eexists. split; [done|]. by rewrite !length_app Hl.
Qed.

Lemma bincode_laws : CodecLaws (H := bincode).
Proof.
  constructor.
  - intros sb bs rest. apply (consumed_put superblock).
  - apply put_superblock.
  - intros bs sb n. cbn [bincode_read_superblock bincode]. unfold consumed.
    destruct (parse superblock bs) as [[x r]|] eqn:E; [|done]. intros [= <- _]. by eapply parse_superblock.
  - intros n bs rest. apply (consumed_put disk_node).
  - intros bs n k. cbn [bincode_read_node bincode]. unfold consumed.
    destruct (parse disk_node bs) as [[x r]|] eqn:E; [|done]. intros [= <- <-].
    apply disk_node_consumes in E. lia.
  - intros ps os os' b bs. apply disk_node_width.
  - intros bs. apply Z.mod_pos_bound. lia.
Qed.
