(* ===== verification/CheckSpec.v ===== *)
(** * The checker decides I1–I7

    On every tree-shaped source of nodes the walk of [check_invariants]
    terminates without a panic, and it answers [Ok] exactly for the trees at
    rest whose views are fresh. *)

From S2P Require Export Check Tree.
From stdpp Require Import options.
From Stdlib Require Import ZArith.

(** ** The I3 map: overlay and undo *)
Definition overlaid (m : BTreeMap Z) (overlay : list (Key * Z)) : BTreeMap Z :=
  foldl (λ m '(key, seq), <[key := seq]> m) m overlay.

Lemma apply_overlay_gen overlay : ∀ (m : BTreeMap Z) (u : list (Key * option Z)),
  ∃ u', foldl (λ '(m, undo) '(key, seq), (<[key := seq]> m, undo ++ [(key, m !! key)])) (m, u) overlay =
    (overlaid m overlay, u ++ u') ∧ undo (overlaid m overlay) u' = m.
Proof.
  induction overlay as [|[k z] overlay IH]; intros m u; simpl.
  - exists []. by rewrite app_nil_r.
  - destruct (IH (<[k:=z]> m) (u ++ [(k, m !! k)])) as (u' & E & Hu).
    exists ((k, m !! k) :: u'). rewrite E -app_assoc. split; [done|].
    unfold undo in *. cbn [rev]. rewrite foldl_app Hu. simpl.
    destruct (m !! k) as [z0|] eqn:Hk.
    + rewrite insert_insert_eq. by rewrite insert_id.
    + rewrite delete_insert_eq. by rewrite delete_id.
Qed.

Lemma apply_overlay_spec (m : BTreeMap Z) overlay : ∃ u,
  apply_overlay m overlay = (overlaid m overlay, u) ∧ undo (overlaid m overlay) u = m.
Proof. destruct (apply_overlay_gen overlay m []) as (u & E & Hu). by exists u. Qed.

(** The overlay of a child, as a map. *)
Definition child_overlay (lo hi : option Key) (b : BTreeMap Message) : list (Key * Z) :=
  map (λ '(key, message), (key, Message_seq message))
    (filter (λ kv, in_range kv.1 lo hi = true) (bt_iter b)).

Lemma lookup_overlaid_absent (m : BTreeMap Z) l k : (∀ z, (k, z) ∉ l) → overlaid m l !! k = m !! k.
Proof.
  revert m. induction l as [|[j z] l IH]; intros m Hk; simpl; [done|].
  rewrite IH; [intros z' Hz; apply (Hk z'); by right|].
  apply lookup_insert_ne. intros ->. apply (Hk z). by left.
Qed.

Lemma lookup_overlaid_present (m : BTreeMap Z) l k z :
  NoDup l.*1 → (k, z) ∈ l → overlaid m l !! k = Some z.
Proof.
  revert m. induction l as [|[j w] l IH]; intros m Hnd Hk; [by inversion Hk|].
  simpl in Hnd. apply NoDup_cons in Hnd as [Hj Hnd]. simpl.
  apply elem_of_cons in Hk as [[= -> ->]|Hk]; [|by apply IH].
  rewrite lookup_overlaid_absent; [|by rewrite lookup_insert_eq]. intros u Hu. apply Hj.
  by apply (list_elem_of_fmap_2 fst) in Hu.
Qed.

Lemma lookup_child_overlay (m : BTreeMap Z) lo hi (b : BTreeMap Message) k :
  overlaid m (child_overlay lo hi b) !! k =
  match b !! k with
  | Some msg => if in_range k lo hi then Some (Message_seq msg) else m !! k
  | None => m !! k
  end.
Proof.
  unfold child_overlay. set (l := filter _ (bt_iter b)).
  assert ((map (λ '(key, message), (key, Message_seq message)) l).*1 = l.*1) as E1.
  { generalize l. clear. intros l. induction l as [|[k msg] l IH]; [done|]. simpl. by f_equal. }
  assert (NoDup (map (λ '(key, message), (key, Message_seq message)) l).*1) as Hnd.
  { rewrite E1. eapply (sublist_NoDup _ (bt_iter b).*1); [apply NoDup_fst_bt_iter|].
    apply fmap_sublist, sublist_filter. }
  assert (∀ z, (k, z) ∈ map (λ '(key, message), (key, Message_seq message)) l ↔
    ∃ msg, b !! k = Some msg ∧ z = Message_seq msg ∧ in_range k lo hi = true) as Hin.
  { intros z. rewrite list_elem_of_fmap. split.
    - intros ([k' msg] & [= <- ->] & [Hr Hb%elem_of_bt_iter]%list_elem_of_filter). eauto.
    - intros (msg & Hb & -> & Hr). exists (k, msg). split; [done|].
      apply list_elem_of_filter. split; [done|]. by apply elem_of_bt_iter. }
  destruct (b !! k) as [msg|] eqn:Hb; [destruct (in_range k lo hi) eqn:Hr|].
  - apply lookup_overlaid_present; [done|]. apply Hin. eauto.
  - apply lookup_overlaid_absent. intros z (? & ? & ? & ?)%Hin. congruence.
  - apply lookup_overlaid_absent. intros z (? & ? & ? & ?)%Hin. congruence.
Qed.

(** ** First violations *)
Lemma first_violation_None {A} (f : A → option InvariantViolation) l :
  first_violation f l = None ↔ ∀ x, x ∈ l → f x = None.
Proof.
  induction l as [|x l IH]; simpl; [set_solver|].
  destruct (f x) eqn:Ex.
  - split; [done|]. intros H. specialize (H x ltac:(left)). congruence.
  - rewrite IH. split.
    + intros H y [->|Hy]%elem_of_cons; auto.
    + intros H y Hy. apply H. by right.
Qed.

Lemma check_entry_None id lo hi (m : BTreeMap Z) k z :
  check_entry id lo hi m k z = None ↔
  in_range k lo hi = true ∧ ∀ a, m !! k = Some a → (z < a)%Z.
Proof.
  unfold check_entry. destruct (in_range k lo hi); simpl; [|naive_solver].
  destruct (m !! k) as [a|]; [|naive_solver]. destruct (_ <=? _)%Z eqn:E.
  - apply Z.leb_le in E. split; [done|]. intros [_ H]. specialize (H a eq_refl). lia.
  - apply Z.leb_gt in E. naive_solver.
Qed.

Lemma pivots_out_of_order_None pivots : ∀ i,
  pivots_out_of_order i pivots = None ↔ StronglySorted key_lt pivots.
Proof.
  induction pivots as [|p pivots IH]; intros i; [split; [constructor|done]|].
  destruct pivots as [|q pivots]; [split; [repeat constructor|done]|].
  cbn [pivots_out_of_order]. destruct (key_leb q p) eqn:E.
  - apply key_leb_le in E. split; [done|]. inversion 1 as [|? ? _ Hall]; subst.
    apply Forall_cons in Hall as [Hpq _]. exfalso. key_order.
  - assert (key_lt p q) as Hpq.
    { apply key_not_le. intros Hle. apply key_leb_le in Hle. congruence. }
    change (pivots_out_of_order (i + 1) (q :: pivots) = None ↔ StronglySorted key_lt (p :: q :: pivots)).
    rewrite (IH (i + 1)). split.
    + intros Hs. constructor; [done|]. inversion Hs as [|? ? _ Hall]; subst.
      constructor; [done|]. eapply Forall_impl; [exact Hall|]. intros x Hx. simpl in Hx. key_order.
    + by inversion 1.
Qed.

(** ** The walk on a represented tree *)
Definition opt_le (lo hi : option Key) : Prop :=
  match lo, hi with Some l, Some h => key_le l h | _, _ => True end.

Definition lo_bound (lo : option Key) : Bound := match lo with Some k => Included k | None => Unbounded end.
Definition hi_bound (hi : option Key) : Bound := match hi with Some k => Excluded k | None => Unbounded end.

Lemma in_bounds_in_range lo hi k : in_bounds (lo_bound lo) (hi_bound hi) k = in_range k lo hi.
Proof. by destruct lo, hi. Qed.

Lemma range_panics_bounds lo hi : opt_le lo hi → range_panics (lo_bound lo) (hi_bound hi) = false.
Proof. destruct lo as [l|], hi as [h|]; simpl; try done. Qed.

Definition add_depth (D : LeafDepths) (d : nat) : LeafDepths :=
  mkLeafDepths (Some (match shallowest D with Some x => x `min` d | None => d end))
               (deepest D `max` d).

(** The leaf depths in the order of the walk (last child first). *)
Fixpoint walk_depths (t : tree) (d : nat) : list nat :=
  match t with
  | TLeaf _ _ => [d]
  | TInt _ _ ks _ => flat_map id (rev (map (λ c, walk_depths c (d + 1)) ks))
  end.

Section walk.
Context {Src : Type} `{NodeSource Src} (src : Src).
Notation prm := (src_params src).
Notation step := (check_step (S := Src)).

(** What the walk accepts, below a node with the I3 map [m]. *)
Inductive accept : option Key → option Key → BTreeMap Z → tree → Prop :=
  | accept_leaf lo hi m id e :
      check_leaf src id lo hi m e = None → accept lo hi m (TLeaf id e)
  | accept_int lo hi m id ps ks b :
      check_internal src id lo hi m ps (map label ks) b = None →
      (∀ i c, ks !! i = Some c → accept (child_lower lo ps i) (child_upper hi ps i)
         (overlaid m (child_overlay (child_lower lo ps i) (child_upper hi ps i) b)) c) →
      accept lo hi m (TInt id ps ks b).

Definition src_arena : NodeId → option Node := λ i,
  match src_node src i with Ok n => Some n | _ => None end.

Record layout_checked (lo hi : option Key) (ps : list Key) (ks : list tree) (b : BTreeMap Message)
    (id : NodeId) (m : BTreeMap Z) : Prop := mkLayoutChecked {
  lc_sorted : StronglySorted key_lt ps;
  lc_length : length ks = length ps + 1;
  lc_fanout : length ks ≤ fanout prm;
  lc_buffer : size b ≤ buffer_capacity prm;
  lc_pivots p : p ∈ ps → in_range p lo hi = true;
  lc_keys k msg : b !! k = Some msg → in_range k lo hi = true ∧
    ∀ a, m !! k = Some a → (Message_seq msg < a)%Z;
}.

Lemma check_internal_None id lo hi m ps ks b :
  check_internal src id lo hi m ps (map label ks) b = None ↔ layout_checked lo hi ps ks b id m.
Proof.
  unfold check_internal, bt_len. rewrite length_map.
  destruct (pivots_out_of_order 1 ps) eqn:E1.
  { split; [done|]. intros []. apply (pivots_out_of_order_None ps 1) in lc_sorted0. congruence. }
  apply pivots_out_of_order_None in E1.
  destruct (length ks =? length ps + 1) eqn:E2; cbn [negb];
    [apply Nat.eqb_eq in E2|apply Nat.eqb_neq in E2; split; [done|by intros []]].
  destruct (fanout prm <? length ks) eqn:E3;
    [apply Nat.ltb_lt in E3; split; [done|intros []; lia]|apply Nat.ltb_ge in E3].
  destruct (buffer_capacity prm <? size b) eqn:E4;
    [apply Nat.ltb_lt in E4; split; [done|intros []; lia]|apply Nat.ltb_ge in E4].
  destruct (first_violation _ ps) eqn:E5.
  { split; [done|]. intros []. rewrite (proj2 (first_violation_None _ _)) in E5; [|done].
    intros p Hp. by rewrite (lc_pivots0 p Hp). }
  rewrite first_violation_None in E5. rewrite first_violation_None. split.
  - intros Hb. constructor; try done.
    + intros p Hp. specialize (E5 p Hp). simpl in E5. by destruct (in_range p lo hi).
    + intros k msg Hk. apply elem_of_bt_iter in Hk. specialize (Hb _ Hk). simpl in Hb.
      by apply check_entry_None in Hb.
  - intros [] [k msg] Hk%elem_of_bt_iter. apply check_entry_None. by apply lc_keys0.
Qed.

(** The bounds of the children never invert. *)
Lemma child_opt_le lo hi ps i :
  StronglySorted key_lt ps → (∀ p, p ∈ ps → in_range p lo hi = true) → opt_le lo hi →
  i ≤ length ps → opt_le (child_lower lo ps i) (child_upper hi ps i).
Proof.
  intros Hs Hp Hle Hi. unfold child_upper. destruct i as [|j]; simpl.
  - destruct (ps !! 0) as [q|] eqn:Hq; [|done]. destruct lo as [l|]; [|done]. simpl.
    apply list_elem_of_lookup_2, Hp, in_range_true in Hq as [Hq _]. by apply Hq.
  - destruct (lookup_lt_is_Some_2 ps j) as [p Hpj]; [lia|]. rewrite Hpj.
    destruct (ps !! S j) as [q|] eqn:Hq.
    + simpl. apply key_lt_le. eapply (StronglySorted_lookup key_lt); [done| |exact Hpj|exact Hq]. lia.
    + destruct hi as [h|]; [|done]. simpl.
      apply list_elem_of_lookup_2, Hp, in_range_true in Hpj as [_ Hq']. by apply key_lt_le, Hq'.
Qed.

Definition enter_child lo hi ps (b : BTreeMap Message) d (i : nat) (c : tree) : Frame :=
  Enter (label c) (child_lower lo ps i) (child_upper hi ps i) (d + 1)
    (child_overlay (child_lower lo ps i) (child_upper hi ps i) b).

Lemma child_frames_Ok lo hi ps b d ks : ∀ i,
  StronglySorted key_lt ps → (∀ p, p ∈ ps → in_range p lo hi = true) → opt_le lo hi →
  i + length ks ≤ length ps + 1 →
  child_frames lo hi d ps b i (map label ks) = Ok (imap (λ j, enter_child lo hi ps b d (i + j)) ks).
Proof.
  induction ks as [|c ks IH]; intros i Hs Hp Hle Hi; simpl in *; [done|].
  assert (child_frame lo hi d ps b i (label c) = Ok (enter_child lo hi ps b d i c)) as ->.
  { pose proof (child_opt_le lo hi ps i Hs Hp Hle ltac:(lia)) as Hcle.
    unfold child_frame, enter_child.
    assert ((if i =? 0 then mret lo else pivot ← expect (ps !! (i - 1)); mret (Some pivot)) =
      Ok (child_lower lo ps i)) as ->.
    { destruct i as [|j]; [done|]. simpl. rewrite Nat.sub_0_r.
      destruct (lookup_lt_is_Some_2 ps j) as [p Hpj]; [lia|]. by rewrite Hpj. }
    cbn [mbind outcome_bind]. fold (child_upper hi ps i).
    fold (lo_bound (child_lower lo ps i)). fold (hi_bound (child_upper hi ps i)).
    rewrite bt_range_Ok; [by apply range_panics_bounds|]. cbn [mbind outcome_bind mret outcome_ret].
    do 2 f_equal. unfold child_overlay. f_equal. apply list_filter_iff. intros [k v].
    by rewrite in_bounds_in_range. }
  cbn [mbind outcome_bind]. rewrite IH //; [lia|]. cbn [mbind outcome_bind mret outcome_ret].
  rewrite Nat.add_0_r. do 2 f_equal. apply imap_ext. intros j x _. simpl. f_equal. lia.
Qed.

(** A walk from [w] either reaches [w'], when [ok] holds, or stops with a
    violation. *)
Definition walks (ok : Prop) (bound : nat) (w w' : Walk) : Prop := ∃ n, n ≤ bound ∧
  ((ok ∧ reaches step n (w, src) (w', src)) ∨
   (¬ ok ∧ ∃ w1 v, reaches step n (w, src) (w1, src) ∧ step w1 src = Ok (Break (RErr v), src))).

Lemma walks_step (ok : Prop) bound w w1 w2 :
  step w src = Ok (Continue w1, src) → walks ok bound w1 w2 → walks ok (1 + bound) w w2.
Proof.
  intros Hstep (n & Hn & Hw). exists (1 + n). split; [lia|].
  destruct Hw as [[Hok Hr]|(Hok & w' & v & Hr & Hv)]; [left|right].
  - split; [done|]. eapply reaches_trans; [by apply reaches_one|done].
  - split; [done|]. exists w', v. split; [|done]. eapply reaches_trans; [by apply reaches_one|done].
Qed.

Lemma walks_seq (ok1 ok2 : Prop) b1 b2 w1 w2 w3 :
  walks ok1 b1 w1 w2 → walks ok2 b2 w2 w3 → walks (ok1 ∧ ok2) (b1 + b2) w1 w3.
Proof.
  intros (n1 & Hn1 & Hw1) (n2 & Hn2 & Hw2).
  destruct Hw1 as [[Hok1 Hr1]|(Hok1 & w' & v & Hr1 & Hv)].
  - exists (n1 + n2). split; [lia|].
    destruct Hw2 as [[Hok2 Hr2]|(Hok2 & w' & v & Hr2 & Hv)]; [left|right].
    + split; [done|]. by eapply reaches_trans.
    + split; [naive_solver|]. exists w', v. split; [|done]. by eapply reaches_trans.
  - exists n1. split; [lia|]. right. split; [naive_solver|]. eauto.
Qed.

Lemma walks_iff (ok ok' : Prop) b b' w w' :
  walks ok b w w' → (ok ↔ ok') → b ≤ b' → walks ok' b' w w'.
Proof. intros (n & Hn & Hw) Hiff Hb. exists n. split; [lia|]. naive_solver. Qed.

Lemma walks_refl (ok : Prop) w : ok → walks ok 0 w w.
Proof. intros Hok. exists 0. split; [lia|]. left. split; [done|constructor]. Qed.

Lemma walks_violation (ok : Prop) w w' v :
  ¬ ok → step w src = Ok (Break (RErr v), src) → walks ok 0 w w'.
Proof. intros Hok Hv. exists 0. split; [lia|]. right. split; [done|]. exists w, v. split; [constructor|done]. Qed.

(** The statement of the walk for one subtree. *)
Definition walks_tree (t : tree) : Prop := ∀ lo hi d ov m D rest,
  repr src_arena t → opt_le lo hi →
  walks (accept lo hi (overlaid m ov) t) (2 * length (ids t))
    (mkWalk (Enter (label t) lo hi d ov :: rest) m D)
    (mkWalk rest m (foldl add_depth D (walk_depths t d))).

(** The frames of some children, in the order they are popped. *)
Lemma walks_children lo hi ps b d m rest (l : list (nat * tree)) : ∀ D,
  (∀ i c, (i, c) ∈ l → walks_tree c ∧ repr src_arena c ∧
     opt_le (child_lower lo ps i) (child_upper hi ps i)) →
  walks (∀ i c, (i, c) ∈ l → accept (child_lower lo ps i) (child_upper hi ps i)
      (overlaid m (child_overlay (child_lower lo ps i) (child_upper hi ps i) b)) c)
    (2 * sum_list_with (λ x, length (ids x.2)) l)
    (mkWalk (map (λ '(i, c), enter_child lo hi ps b d i c) l ++ rest) m D)
    (mkWalk rest m (foldl add_depth D (flat_map (λ x, walk_depths x.2 (d + 1)) l))).
Proof.
  induction l as [|[i c] l IH]; intros D Hl.
  - apply walks_refl. intros i c Hin. inversion Hin.
  - destruct (Hl i c ltac:(by left)) as (Hc & Hr & Hle).
    simpl. rewrite foldl_app.
    eapply walks_iff; [eapply walks_seq; [by apply Hc|apply IH]| |lia].
    + intros j c' Hin. apply Hl. by right.
    + split.
      * intros [Hacc Hrest] j c' [[= -> ->]|Hin]%elem_of_cons; [done|by apply Hrest].
      * intros Hall. split; [apply Hall; by left|]. intros j c' Hin. apply Hall. by right.
Qed.

Lemma flat_map_rev_pairs d ks :
  flat_map (λ x, walk_depths x.2 (d + 1)) (rev (imap pair ks)) =
  flat_map id (rev (map (λ c, walk_depths c (d + 1)) ks)).
Proof.
  assert (map (λ c, walk_depths c (d + 1)) ks = map (λ x : nat * tree, walk_depths x.2 (d + 1)) (imap pair ks)) as ->.
  { apply list_eq. intros i. rewrite !list_lookup_fmap list_lookup_imap. by destruct (ks !! i). }
  rewrite -map_rev. generalize (rev (imap pair ks)). intros l. by induction l as [|x l IH]; simpl; [|rewrite IH].
Qed.

Lemma sum_imap_pairs (f : tree → nat) ks :
  sum_list_with (λ x, f x.2) (rev (imap pair ks)) = sum_list_with f ks.
Proof.
  assert (∀ (g : nat * tree → nat) l, sum_list_with g (rev l) = sum_list_with g l) as ->.
  { intros g l. induction l as [|x l IH]; [done|]. simpl. rewrite sum_list_with_app IH. simpl. lia. }
  assert (∀ i, sum_list_with (λ x, f x.2) (imap (λ j, pair (i + j)) ks) = sum_list_with f ks) as Hi.
  { induction ks as [|c ks IH]; intros i; simpl; [done|]. f_equal. rewrite -(IH (i + 1)).
    f_equal. apply imap_ext. intros j x _. simpl. f_equal. lia. }
  apply (Hi 0).
Qed.

Lemma src_node_Some id n : src_arena id = Some n → src_node src id = Ok n.
Proof. unfold src_arena. destruct (src_node src id); naive_solver. Qed.

(** The first iteration on an [Enter] frame. *)
Lemma enter_step t lo hi d ov m D rest :
  repr src_arena t → opt_le lo hi → ∃ u, undo (overlaid m ov) u = m ∧
  step (mkWalk (Enter (label t) lo hi d ov :: rest) m D) src =
    match t with
    | TLeaf id e =>
        match check_leaf src id lo hi (overlaid m ov) e with
        | Some v => Ok (Break (RErr v), src)
        | None => Ok (Continue (mkWalk (Undo u :: rest) (overlaid m ov) (add_depth D d)), src)
        end
    | TInt id ps ks b =>
        match check_internal src id lo hi (overlaid m ov) ps (map label ks) b with
        | Some v => Ok (Break (RErr v), src)
        | None => Ok (Continue (mkWalk
            (map (λ '(i, c), enter_child lo hi ps b d i c) (rev (imap pair ks)) ++ Undo u :: rest)
            (overlaid m ov) D), src)
        end
    end.
Proof.
  intros Hr Hle. destruct (apply_overlay_spec m ov) as (u & Eov & Hu). exists u. split; [done|].
  pose proof (src_node_Some _ _ (repr_label _ _ Hr)) as Hn.
  unfold check_step. cbn [wk_stack wk_newest_above wk_depths]. rewrite Eov.
  unfold get_, lift, mbind, M_bind. rewrite Hn. destruct t as [id e|id ps ks b]; cbn [node_of label].
  - by destruct (check_leaf src id lo hi (overlaid m ov) e).
  - destruct (check_internal src id lo hi (overlaid m ov) ps (map label ks) b) eqn:Ec; [done|].
    apply check_internal_None in Ec as [].
    rewrite (child_frames_Ok lo hi ps b d ks 0) //; [lia|]. cbn [mret M_ret].
    assert (imap (λ j, enter_child lo hi ps b d (0 + j)) ks =
      map (λ '(i, c), enter_child lo hi ps b d i c) (imap pair ks)) as ->.
    { apply list_eq. intros i. rewrite list_lookup_fmap !list_lookup_imap. by destruct (ks !! i). }
    by rewrite map_rev.
Qed.

Lemma undo_step (u : list (Key * option Z)) m0 D rest :
  step (mkWalk (Undo u :: rest) m0 D) src = Ok (Continue (mkWalk rest (undo m0 u) D), src).
Proof. done. Qed.

Lemma walk_all t : walks_tree t.
Proof.
  induction t as [id e|id ps ks b IH] using tree_nested_ind; intros lo hi d ov m D rest Hr Hle;
    destruct (enter_step _ lo hi d ov m D rest Hr Hle) as (u & Hu & Hstep).
  - destruct (check_leaf src id lo hi (overlaid m ov) e) as [v|] eqn:Ec.
    + eapply walks_iff; [eapply (walks_violation (accept lo hi (overlaid m ov) (TLeaf id e))); [|exact Hstep]
        |done|lia]. inversion 1; congruence.
    + eapply (walks_iff True); [|split; [by constructor|done]|].
      { eapply walks_step; [exact Hstep|]. eapply walks_step; [apply undo_step|].
        rewrite Hu. by apply walks_refl. }
      rewrite ids_TLeaf. simpl. lia.
  - destruct (check_internal src id lo hi (overlaid m ov) ps (map label ks) b) as [v|] eqn:Ec.
    + eapply walks_iff; [eapply (walks_violation (accept lo hi (overlaid m ov) (TInt id ps ks b))); [|exact Hstep]
        |done|lia]. inversion 1; congruence.
    + pose proof Ec as Hlc. apply check_internal_None in Hlc as [Hs Hl _ _ Hp _].
      pose proof (walks_children lo hi ps b d (overlaid m ov) (Undo u :: rest) (rev (imap pair ks)) D) as Hkids.
      apply repr_TInt in Hr as [_ Hkr].
      assert (∀ i c, (i, c) ∈ rev (imap pair ks) ↔ ks !! i = Some c) as Hin.
      { intros i c. rewrite list_elem_of_In -in_rev -list_elem_of_In list_elem_of_lookup. split.
        - intros (j & Hj). apply list_lookup_imap_Some in Hj as (x & Hx & [= -> ->]). done.
        - intros Hi. exists i. by rewrite list_lookup_imap Hi. }
      rewrite flat_map_rev_pairs (sum_imap_pairs (λ c, length (ids c))) in Hkids.
      eapply walks_iff; [eapply walks_step; [exact Hstep|]; eapply walks_seq; [apply Hkids|]| |].
      * intros i c Hi%Hin. rewrite Forall_forall in IH. split_and!.
        -- apply IH. by eapply list_elem_of_lookup_2.
        -- rewrite -(take_drop_middle _ _ _ Hi) in Hkr.
           by apply forest_repr_app in Hkr as [_ [? _]%forest_repr_cons].
        -- apply child_opt_le; [done..|]. apply lookup_lt_Some in Hi. lia.
      * eapply walks_step; [apply undo_step|]. rewrite Hu. by apply (walks_refl True).
      * split.
        -- intros [Hacc _]. constructor; [done|]. intros i c Hi. by apply Hacc, Hin.
        -- inversion 1; subst. split; [|done]. intros i c Hi%Hin. auto.
      * rewrite ids_TInt. assert (length (forest_ids ks) = sum_list_with (λ c, length (ids c)) ks) as Hlen.
        { clear. induction ks as [|c ks IH]; [done|]. by rewrite forest_ids_cons length_app IH. }
        cbn [length]. lia.
Qed.

(** The worker, from an empty I3 map. *)
Lemma check_tree_walk t :
  src_root src = label t → repr src_arena t → 2 * length (ids t) < 2 ^ src_fuel src →
  (accept None None ∅ t ∧
     check_tree src = Ok (ROk (foldl add_depth (mkLeafDepths None 0) (walk_depths t 1)), src)) ∨
  (¬ accept None None ∅ t ∧ ∃ v, check_tree src = Ok (RErr v, src)).
Proof.
  intros Hroot Hr Hf. destruct (walk_all t None None 1 [] ∅ (mkLeafDepths None 0) [] Hr I)
    as (n & Hn & [[Hacc Hreach]|(Hacc & w & v & Hreach & Hv)]); [left|right];
    unfold check_tree, get_, mbind, M_bind; rewrite Hroot.
  - split; [done|]. eapply loopM_reaches; [exact Hreach|done|lia].
  - split; [done|]. exists v. eapply loopM_reaches; [exact Hreach|done|lia].
Qed.
End walk.

(** ** What the accepted trees are *)
Section meaning.
Context {Src : Type} `{NodeSource Src} (src : Src).
Notation prm := (src_params src).

Lemma good_nonempty h lo hi t : good prm h lo hi t → ∃ k, in_range k lo hi = true.
Proof.
  revert lo hi t. induction h as [|h IH]; intros lo hi [id e|id ps ks b] Hg; try done.
  - destruct Hg as [Hk Hsz]. destruct (map_choose e) as (k & v & Hkv).
    { intros ->. rewrite map_size_empty in Hsz. lia. }
    exists k. by eapply Hk.
  - destruct Hg as (_ & _ & _ & Hks). inversion Hks as [? ? c Hc|? ? p ? c cs Ha Hb Hc]; subst.
    + by eapply IH.
    + destruct (IH _ _ _ Hc) as (k & Hk). exists k.
      rewrite (in_range_cut k lo p hi) //. by rewrite Hk.
Qed.

(** No leaf of the subtree is the root. *)
Definition nonroot (t : tree) : Prop :=
  match t with
  | TLeaf id _ => id ≠ src_root src
  | TInt _ _ ks _ => src_root src ∉ forest_ids ks
  end.

Lemma nonroot_ids t : src_root src ∉ ids t → nonroot t.
Proof.
  destruct t as [id e|id ps ks b]; simpl.
  - rewrite ids_TLeaf. set_solver.
  - rewrite ids_TInt. set_solver.
Qed.

Lemma nonroot_kids id ps ks b i c : nonroot (TInt id ps ks b) → ks !! i = Some c → nonroot c.
Proof.
  intros Hn Hi. apply nonroot_ids. intros Hin. apply Hn. apply elem_of_forest_ids.
  exists c. split; [by eapply list_elem_of_lookup_2|done].
Qed.

Lemma elem_of_walk_depths_TInt x id ps ks b d :
  x ∈ walk_depths (TInt id ps ks b) d ↔ ∃ i c, ks !! i = Some c ∧ x ∈ walk_depths c (d + 1).
Proof.
  simpl. rewrite list_elem_of_In in_flat_map. split.
  - intros (l & Hl & Hx). rewrite -in_rev -list_elem_of_In in Hl.
    apply list_elem_of_fmap in Hl as (c & -> & Hc). apply list_elem_of_lookup in Hc as [i Hi].
    exists i, c. split; [done|]. by apply list_elem_of_In.
  - intros (i & c & Hi & Hx). exists (walk_depths c (d + 1)). split; [|by apply list_elem_of_In].
    rewrite -in_rev -list_elem_of_In. apply list_elem_of_fmap. exists c. split; [done|].
    by eapply list_elem_of_lookup_2.
Qed.

Lemma walk_depths_ge t : ∀ d x, x ∈ walk_depths t d → d ≤ x.
Proof.
  induction t as [id e|id ps ks b IH] using tree_nested_ind; intros d x Hx.
  - simpl in Hx. set_solver by lia.
  - apply elem_of_walk_depths_TInt in Hx as (i & c & Hi & Hx). rewrite Forall_forall in IH.
    apply (IH c) in Hx; [lia|by eapply list_elem_of_lookup_2].
Qed.

Lemma walk_depths_exists t : ∀ lo hi m d, accept src lo hi m t → ∃ x, x ∈ walk_depths t d.
Proof.
  induction t as [id e|id ps ks b IH] using tree_nested_ind; intros lo hi m d Hacc.
  - exists d. by left.
  - inversion Hacc as [|? ? ? ? ? ? ? Hlc Hkids]; subst. apply check_internal_None in Hlc as [_ Hl _ _ _ _].
    destruct (lookup_lt_is_Some_2 ks 0) as [c Hc]; [lia|]. rewrite Forall_forall in IH.
    destruct (IH c ltac:(by eapply list_elem_of_lookup_2) _ _ _ (d + 1) (Hkids 0 c Hc)) as (x & Hx).
    exists x. apply elem_of_walk_depths_TInt. eauto.
Qed.

Lemma check_leaf_None id lo hi m e :
  check_leaf src id lo hi m e = None ↔
  size e ≤ leaf_capacity prm ∧ (id ≠ src_root src → 1 ≤ size e) ∧
  ∀ k x, e !! k = Some x → in_range k lo hi = true ∧ ∀ a, m !! k = Some a → (le_seq x < a)%Z.
Proof.
  unfold check_leaf, bt_len. destruct (_ <? _) eqn:E1.
  { apply Nat.ltb_lt in E1. split; [done|]. lia. }
  apply Nat.ltb_ge in E1.
  destruct (bt_is_empty e && negb (bool_decide (id = src_root src))) eqn:E2.
  { split; [done|]. intros (_ & Hne & _). apply andb_true_iff in E2 as [Ee Er].
    apply bt_is_empty_true in Ee as ->. apply negb_true_iff, bool_decide_eq_false in Er.
    apply Hne in Er. rewrite map_size_empty in Er. lia. }
  rewrite first_violation_None. split.
  - intros He. split_and!; [done| |].
    + intros Hid. destruct (decide (e = ∅)) as [->|Hne]; [|apply map_size_non_empty_iff in Hne; lia].
      apply andb_false_iff in E2 as [E2|E2]; [done|].
      by apply negb_false_iff, bool_decide_eq_true in E2.
    + intros k x Hk. apply elem_of_bt_iter in Hk. specialize (He _ Hk). simpl in He.
      by apply check_entry_None in He.
  - intros (_ & _ & He) [k x] Hk%elem_of_bt_iter. apply check_entry_None. by apply He.
Qed.

(** The part of I3 that the map above stands for. *)
Definition below_map (m : BTreeMap Z) (lo hi : option Key) (t : tree) : Prop :=
  ∀ k a, m !! k = Some a → in_range k lo hi = true → vbelow a (view t k).

Lemma child_view lo hi ps ks b id i c k :
  kids_ok (good prm i) lo hi ps ks → ks !! route ps k = Some c →
  view (TInt id ps ks b) k = vpush (b !! k) (view c k).
Proof. intros _ Hc. by rewrite view_TInt /kview Hc. Qed.

Lemma accept_sound t : ∀ h lo hi m d,
  accept src lo hi m t → (∀ x, x ∈ walk_depths t d → x = d + h) → nonroot t →
  good prm h lo hi t ∧ (∀ k, vfresh (view t k)) ∧ below_map m lo hi t.
Proof.
  induction t as [id e|id ps ks b IH] using tree_nested_ind; intros h lo hi m d Hacc Hd Hn.
  - inversion Hacc as [? ? ? ? ? Hc|]; subst. apply check_leaf_None in Hc as (Hsz & Hne & He).
    specialize (Hd d ltac:(by left)). assert (h = 0) as -> by lia. split_and!.
    + split; [|split; [by apply Hne|done]]. intros k x Hk. by apply (He k x).
    + intros k. unfold vfresh, vseqs. simpl. destruct (e !! k); repeat constructor.
    + intros k a Ha _. unfold vbelow, vseqs. simpl. destruct (e !! k) as [x|] eqn:Hk; constructor; [|constructor].
      by apply (He k x).
  - inversion Hacc as [|? ? ? ? ? ? ? Hlc Hkids]; subst.
    apply check_internal_None in Hlc as [Hs Hl HF HB Hp Hb].
    rewrite Forall_forall in IH.
    destruct (walk_depths_exists _ _ _ _ d Hacc) as (x & Hx).
    assert (x = d + h) by (by apply Hd).
    pose proof Hx as (i0 & c0 & Hi0 & Hx0)%elem_of_walk_depths_TInt.
    apply walk_depths_ge in Hx0. destruct h as [|h]; [lia|].
    assert (∀ i c, ks !! i = Some c →
      good prm h (child_lower lo ps i) (child_upper hi ps i) c ∧ (∀ k, vfresh (view c k)) ∧
      below_map (overlaid m (child_overlay (child_lower lo ps i) (child_upper hi ps i) b))
        (child_lower lo ps i) (child_upper hi ps i) c) as Hc.
    { intros i c Hi. apply (IH c ltac:(by eapply list_elem_of_lookup_2) h _ _ _ (d + 1)).
      - by apply Hkids.
      - intros y Hy. assert (y = d + S h); [|lia]. apply Hd, elem_of_walk_depths_TInt. eauto.
      - by eapply nonroot_kids. }
    assert (kids_ok (good prm h) lo hi ps ks) as Hks.
    { apply kids_ok_intro; [lia|done| |intros i c Hi; by apply Hc].
      intros p Hpin. pose proof (Hp p Hpin) as [Hplo Hphi]%in_range_true. split.
      - destruct ps as [|p0 ps]; [by inversion Hpin|].
        destruct (lookup_lt_is_Some_2 ks 0) as [c Hc0]; [simpl in *; lia|].
        destruct (Hc 0 c Hc0) as (Hg & _). destruct (good_nonempty _ _ _ _ Hg) as (k & Hk).
        apply in_range_true in Hk as [Hk1 Hk2]. specialize (Hk2 p0 eq_refl). simpl in Hk1.
        destruct lo as [l|]; [|done]. specialize (Hk1 l eq_refl). simpl.
        apply elem_of_cons in Hpin as [->|Hpin]; [key_order|].
        inversion Hs as [|? ? _ Hall]; subst. rewrite Forall_forall in Hall.
        specialize (Hall p Hpin). simpl in Hall. key_order.
      - destruct hi as [u|]; [|done]. by apply Hphi. }
    split_and!.
    + split_and!; [intros k msg Hk; by apply (Hb k msg)|done..].
    + intros k. destruct (kids_pick _ _ _ _ _ k Hks) as (c & Hcr & _ & Hin).
      destruct (Hc _ _ Hcr) as (_ & Hf & Hbelow). rewrite view_TInt /kview Hcr.
      destruct (b !! k) as [msg|] eqn:Hk; [|by rewrite vpush_None]. apply vfresh_vpush. split; [|done].
      destruct (Hb k msg Hk) as [Hkr _]. rewrite Hkr in Hin.
      apply (Hbelow k); [|done]. by rewrite lookup_child_overlay Hk Hin.
    + intros k a Ha Hkr. destruct (kids_pick _ _ _ _ _ k Hks) as (c & Hcr & _ & Hin).
      destruct (Hc _ _ Hcr) as (_ & Hf & Hbelow). rewrite view_TInt /kview Hcr. rewrite Hkr in Hin.
      destruct (b !! k) as [msg|] eqn:Hk.
      * destruct (Hb k msg Hk) as [_ Hlt]. specialize (Hlt a Ha). apply vbelow_vpush. split; [done|].
        eapply (vbelow_mono (Message_seq msg)); [lia|]. apply (Hbelow k); [|done].
        by rewrite lookup_child_overlay Hk Hin.
      * rewrite vpush_None. apply (Hbelow k); [|done]. by rewrite lookup_child_overlay Hk.
Qed.

Lemma accept_complete t : ∀ h lo hi m d,
  good prm h lo hi t → (∀ k, vfresh (view t k)) → below_map m lo hi t → nonroot t →
  accept src lo hi m t ∧ ∀ x, x ∈ walk_depths t d → x = d + h.
Proof.
  induction t as [id e|id ps ks b IH] using tree_nested_ind; intros h lo hi m d Hg Hf Hm Hn.
  - destruct h as [|h]; [|done]. destruct Hg as [Hk Hsz]. split.
    + constructor. apply check_leaf_None. split_and!; [lia|intros _; lia|].
      intros k x Hx. split; [by eapply Hk|]. intros a Ha. specialize (Hm k a Ha (Hk k x Hx)).
      simpl in Hm. rewrite Hx in Hm. by inversion Hm.
    + intros x Hx. simpl in Hx. set_solver by lia.
  - destruct h as [|h]; [done|]. destruct Hg as (Hk & HB & HF & Hks).
    pose proof (kids_ok_length _ _ _ _ _ Hks) as Hl. rewrite Forall_forall in IH.
    assert (∀ i c k, ks !! i = Some c →
      in_range k (child_lower lo ps i) (child_upper hi ps i) = true →
      in_range k lo hi = true ∧ view (TInt id ps ks b) k = vpush (b !! k) (view c k)) as Hview.
    { intros i c k Hi Hin. assert (in_range k lo hi = true) as Hkr.
      { revert Hin. apply in_range_mono.
        - destruct i as [|j]; simpl; [apply lo_le_refl|].
          destruct (lookup_lt_is_Some_2 ps j) as [p Hp]; [apply lookup_lt_Some in Hi; lia|]. rewrite Hp.
          apply above_lo_le. eapply (kids_ok_pivot _ _ _ _ _ _ Hks). by eapply list_elem_of_lookup_2.
        - unfold child_upper. destruct (ps !! i) as [p|] eqn:Hp; [|apply hi_le_refl].
          apply below_hi_le. eapply (kids_ok_pivot _ _ _ _ _ _ Hks). by eapply list_elem_of_lookup_2. }
      split; [done|]. rewrite view_TInt /kview.
      rewrite (proj2 (route_child _ _ _ _ _ k i Hks Hkr (lookup_lt_Some _ _ _ Hi)) Hin) Hi. done. }
    assert (∀ i c, ks !! i = Some c →
      accept src (child_lower lo ps i) (child_upper hi ps i)
        (overlaid m (child_overlay (child_lower lo ps i) (child_upper hi ps i) b)) c ∧
      ∀ x, x ∈ walk_depths c (d + 1) → x = d + 1 + h) as Hc.
    { intros i c Hi. pose proof (kids_ok_at _ _ _ _ _ _ _ Hks Hi) as Hgc.
      apply (IH c ltac:(by eapply list_elem_of_lookup_2) h); [done| | |by eapply nonroot_kids].
      - intros k. destruct (in_range k (child_lower lo ps i) (child_upper hi ps i)) eqn:Hin.
        + destruct (Hview i c k Hi Hin) as [_ Hv]. specialize (Hf k). rewrite Hv in Hf.
          destruct (b !! k) as [msg|]; [by apply vfresh_vpush in Hf as [_ ?]|by rewrite vpush_None in Hf].
        + rewrite (good_view_out _ _ _ _ _ _ Hgc Hin). constructor.
      - intros k a Ha Hin. destruct (Hview i c k Hi Hin) as [Hkr Hv]. specialize (Hf k). rewrite Hv in Hf.
        rewrite lookup_child_overlay Hin in Ha. destruct (b !! k) as [msg|] eqn:Hb.
        + injection Ha as <-. by apply vfresh_vpush in Hf as [? _].
        + specialize (Hm k a Ha Hkr). by rewrite Hv vpush_None in Hm. }
    split.
    + constructor; [|intros i c Hi; by apply Hc]. apply check_internal_None. constructor; try done; [by eapply kids_ok_sorted|lia| |].
      * intros p Hp. destruct (kids_ok_pivot _ _ _ _ _ _ Hks Hp) as [Ha Hb].
        apply in_range_true. split; [intros l ->; by apply key_lt_le|by intros u ->].
      * intros k msg Hkb. split; [by eapply Hk|]. intros a Ha.
        specialize (Hm k a Ha (Hk k msg Hkb)). rewrite view_TInt Hkb in Hm. by apply vbelow_vpush in Hm as [? _].
    + intros x (i & c & Hi & Hx)%elem_of_walk_depths_TInt. apply (proj2 (Hc i c Hi)) in Hx. lia.
Qed.

(** ** The depths (I6) *)
Lemma add_depths_spec ds : ds ≠ [] → ∃ mn mx,
  foldl add_depth (mkLeafDepths None 0) ds = mkLeafDepths (Some mn) mx ∧
  mn ∈ ds ∧ (mx ∈ ds ∨ mx = 0) ∧ ∀ x, x ∈ ds → mn ≤ x ≤ mx.
Proof.
  induction ds as [|d ds IH] using rev_ind; [done|]. intros _. rewrite foldl_app.
  destruct ds as [|d0 ds].
  - simpl. exists d, d. split_and!; [done|by left|left; by left|]. intros x. set_solver by lia.
  - destruct IH as (mn & mx & -> & Hmn & Hmx & Hall); [done|].
    cbn [foldl add_depth shallowest deepest].
    exists (mn `min` d), (mx `max` d). split_and!; [done| | |].
    + destruct (Nat.min_spec mn d) as [[_ ->]|[_ ->]]; apply elem_of_app; [by left|right; by left].
    + destruct (Nat.max_spec mx d) as [[_ ->]|[_ ->]]; [left|destruct Hmx; [left|by right]];
        apply elem_of_app; [right; by left|by left].
    + intros x [Hx|Hx]%elem_of_app; [specialize (Hall x Hx); lia|].
      apply list_elem_of_singleton in Hx. lia.
Qed.

Definition uniform (t : tree) (h : nat) : Prop := ∀ x, x ∈ walk_depths t 1 → x = 1 + h.

Lemma depths_equal t : (∃ x, x ∈ walk_depths t 1) →
  let D := foldl add_depth (mkLeafDepths None 0) (walk_depths t 1) in
  shallowest D = Some (deepest D) ↔ ∃ h, uniform t h.
Proof.
  intros [x0 Hx0]. destruct (add_depths_spec (walk_depths t 1)) as (mn & mx & -> & Hmn & Hmx & Hall).
  { intros E. rewrite E in Hx0. by inversion Hx0. }
  simpl. split.
  - intros [= ->]. exists (mx - 1). intros x Hx. pose proof (Hall x Hx). apply walk_depths_ge in Hx. lia.
  - intros [h Hh]. f_equal. pose proof (Hall x0 Hx0). pose proof (Hh x0 Hx0). pose proof (Hh mn Hmn).
    destruct Hmx as [Hmx| ->]; [pose proof (Hh mx Hmx)|]; lia.
Qed.

(** ** The trees that are accepted are those at rest *)
Definition fresh (t : tree) : Prop := ∀ k, vfresh (view t k).

Lemma accept_root t h :
  src_root src = label t → NoDup (ids t) →
  accept src None None ∅ t ∧ uniform t h ↔ at_rest prm h t ∧ fresh t.
Proof.
  intros Hroot Hnd. destruct t as [id e|id ps ks b]; cbn [label] in Hroot.
  - split.
    + intros [Hacc Hu]. inversion Hacc as [? ? ? ? ? Hc|]; subst.
      specialize (Hu 1 ltac:(by left)). assert (h = 0) as -> by lia.
      apply check_leaf_None in Hc as (Hsz & _ & _). split; [done|]. intros k.
      unfold vfresh, vseqs. simpl. destruct (e !! k); repeat constructor.
    + intros [Hr _]. destruct h as [|h]; [|done]. split.
      * constructor. apply check_leaf_None. split_and!; [done|congruence|].
        intros k x _. split; [done|]. intros a. by rewrite lookup_empty.
      * intros x Hx. simpl in Hx. set_solver by lia.
  - assert (nonroot (TInt id ps ks b)) as Hn.
    { simpl. rewrite Hroot. rewrite ids_TInt in Hnd. by apply NoDup_cons in Hnd as [? _]. }
    split.
    + intros [Hacc Hu]. destruct (accept_sound _ h None None ∅ 1 Hacc Hu Hn) as (Hg & Hf & _).
      split; [|done]. by destruct h.
    + intros [Hr Hf]. destruct h as [|h]; [done|].
      destruct (accept_complete (TInt id ps ks b) (S h) None None ∅ 1 Hr Hf) as [Hacc Hd]; [|done|done].
      intros k a. by rewrite lookup_empty.
Qed.

Lemma check_invariants_walk t :
  src_root src = label t → repr (src_arena src) t → NoDup (ids t) →
  2 * length (ids t) < 2 ^ src_fuel src →
  ∃ r, check_invariants src = Ok r ∧
    (r = ROk tt ↔ ∃ h, at_rest prm h t ∧ fresh t).
Proof.
  intros Hroot Hr Hnd Hf. unfold check_invariants.
  assert ((∃ h, at_rest prm h t ∧ fresh t) ↔ accept src None None ∅ t ∧ ∃ h, uniform t h) as Hiff.
  { split.
    - intros [h Hh]. apply (accept_root t h Hroot Hnd) in Hh as [??]. eauto.
    - intros [Hacc [h Hu]]. exists h. by apply (accept_root t h Hroot Hnd). }
  destruct (check_tree_walk src t Hroot Hr Hf) as [[Hacc ->]|(Hacc & v & ->)];
    cbn [mbind outcome_bind mret outcome_ret]; eexists; (split; [done|]).
  - pose proof (depths_equal t) as Hde. cbv zeta in Hde.
    rewrite Hiff -Hde; [by eapply walk_depths_exists|]. case_bool_decide; naive_solver.
  - rewrite Hiff. naive_solver.
Qed.
End meaning.
