(* ===== verification/BeTree.v ===== *)
(** * The in-memory Bε-tree ([src/betree.rs])

    The engine's state and its operations, written as the code writes them:
    an arena of nodes addressed by id, explicit work stacks, and loops.
    [Vec]s used as stacks are lists with the top at the head. *)

From S2P Require Export Kids Policy Engine.
From stdpp Require Import options.
From Stdlib Require Import ZArith.

(** [BeTree], for a policy type [P]. *)
Record BeTree (P : Type) : Type := mkBeTree {
  params : Params;
  nodes : list Node;
  dirty : list bool;
  root : NodeId;
  next_seq : Z;
  ops_since_commit : Z;
  policy : P;
  trace : Recorder;
}.
Arguments mkBeTree {P} _ _ _ _ _ _ _ _.
Arguments params {P} _.
Arguments nodes {P} _.
Arguments dirty {P} _.
Arguments root {P} _.
Arguments next_seq {P} _.
Arguments ops_since_commit {P} _.
Arguments policy {P} _.
Arguments trace {P} _.

(** The fields that [&mut self] methods assign. *)
Section fields.
Context {P : Type}.
Implicit Types self : BeTree P.

Definition set_nodes ns self := mkBeTree (params self) ns (dirty self) (root self)
  (next_seq self) (ops_since_commit self) (policy self) (trace self).
Definition set_dirty ds self := mkBeTree (params self) (nodes self) ds (root self)
  (next_seq self) (ops_since_commit self) (policy self) (trace self).
Definition set_root r self := mkBeTree (params self) (nodes self) (dirty self) r
  (next_seq self) (ops_since_commit self) (policy self) (trace self).
Definition set_next_seq n self := mkBeTree (params self) (nodes self) (dirty self) (root self)
  n (ops_since_commit self) (policy self) (trace self).
Definition set_ops_since_commit n self := mkBeTree (params self) (nodes self) (dirty self)
  (root self) (next_seq self) n (policy self) (trace self).
Definition set_policy (p : P) self := mkBeTree (params self) (nodes self) (dirty self) (root self)
  (next_seq self) (ops_since_commit self) p (trace self).
Definition set_trace t self := mkBeTree (params self) (nodes self) (dirty self) (root self)
  (next_seq self) (ops_since_commit self) (policy self) t.
End fields.

(** ** Fuel

    Loops get [2 ^ fuel] iterations, which exceeds 256 times the fourth
    power of the arena's size: the number of its nodes, children, entries
    and messages.  The proofs show that no loop needs more. *)
Definition node_cost (n : Node) : nat :=
  match n with
  | Internal _ children buffer => 1 + length children + size buffer
  | Leaf entries => 1 + size entries
  end.

Definition arena_cost (ns : list Node) : nat := sum_list_with node_cost ns.

Definition fuel {P} (self : BeTree P) : nat :=
  8 + 4 * N.size_nat (N.of_nat (arena_cost (nodes self))).

Section betree.
Context {P : Type} `{FlushPolicy P}.

(** [&self.nodes[id]] and assignment through [&mut self.nodes[id]]. *)
Definition node (id : NodeId) : M (BeTree P) Node :=
  self ← get_; lift (expect (nodes self !! id)).
Definition put_node (id : NodeId) (n : Node) : M (BeTree P) unit :=
  modify (λ self, set_nodes (<[id := n]> (nodes self)) self).

(** [BeTree::height] *)
Definition height : M (BeTree P) nat :=
  self ← get_;
  loopM fuel (λ '(height, id),
    n ← node id;
    match n with
    | Internal _ children _ =>
        c ← lift (expect (children !! 0));
        mret (Continue (height + 1, c))
    | Leaf _ => mret (Break height)
    end) (1, root self).

(** [BeTree::node_count] *)
Definition node_count (self : BeTree P) : nat := length (nodes self).

(** [BeTree::alloc] *)
Definition alloc (n : Node) : M (BeTree P) NodeId :=
  self ← get_;
  let id := length (nodes self) in
  _ ← modify (λ self, set_nodes (nodes self ++ [n]) self);
  _ ← modify (λ self, set_dirty (dirty self ++ [true]) self);
  mret id.

(** [BeTree::mark_dirty] *)
Definition mark_dirty (id : NodeId) : M (BeTree P) unit :=
  self ← get_;
  ds ← lift (vec_update id (λ _, true) (dirty self));
  modify (set_dirty ds).

(** [BeTree::subtree_has_messages]: [extend] pushes the children in
    order, so the last one is on top. *)
Definition subtree_has_messages (id : NodeId) : M (BeTree P) bool :=
  loopM fuel (λ stack,
    match stack with
    | [] => mret (Break false)
    | n :: stack =>
        nd ← node n;
        match nd with
        | Internal _ children buffer =>
            if bt_is_empty buffer then mret (Continue (rev children ++ stack))
            else mret (Break true)
        | Leaf _ => mret (Continue stack)
        end
    end) [id].

(** [children.iter().copied().find(|&c| self.subtree_has_messages(c))] *)
Fixpoint find_buffered_child (children : list NodeId) : M (BeTree P) (option NodeId) :=
  match children with
  | [] => mret None
  | c :: children =>
      b ← subtree_has_messages c;
      if (b : bool) then mret (Some c) else find_buffered_child children
  end.

(** [BeTree::buffer_len] *)
Definition buffer_len (id : NodeId) : M (BeTree P) nat :=
  n ← node id;
  match n with
  | Internal _ _ buffer => mret (bt_len buffer)
  | Leaf _ => lift Panic
  end.

(** The pieces of a split leaf: [iter.by_ref().take(size).collect()] for
    each size. *)
Fixpoint take_pieces (sizes : list nat) (items : list (Key * LeafEntry))
    : list (BTreeMap LeafEntry) :=
  match sizes with
  | [] => []
  | size :: sizes => bt_collect (take size items) :: take_pieces sizes (drop size items)
  end.

(** [BeTree::split_leaf] (the emptied entries are never read before they
    are replaced by the first piece). *)
Definition split_leaf (id : NodeId) : M (BeTree P) (list (Key * NodeId)) :=
  _ ← mark_dirty id;
  n ← node id;
  match n with
  | Internal _ _ _ => lift Panic
  | Leaf entries =>
      self ← get_;
      let items := bt_iter entries in
      sizes ← lift (partition_sizes (length items) (leaf_capacity (params self)));
      let pieces := take_pieces sizes items in
      first ← lift (expect (head pieces));
      _ ← put_node id (Leaf first);
      mapM (λ piece,
        kv ← lift (expect (bt_first_key_value piece));
        new_id ← alloc (Leaf piece);
        mret (kv.1, new_id)) (tail pieces)
  end.

(** The offsets [starts] of the pieces of a split internal node. *)
Definition piece_starts (sizes : list nat) : list nat :=
  (foldl (λ '(starts, acc), λ size, (starts ++ [acc], acc + size)) ([], 0) sizes).1.

Definition InternalPiece : Type := Key * list Key * list NodeId * BTreeMap Message.

(** The loop that peels the pieces off the right end: the remaining
    buffer, and [pieces_rev]. *)
Definition peel_pieces (pivots : list Key) (children : list NodeId) (buffer : BTreeMap Message)
    (sizes : list nat) : outcome (BTreeMap Message * list InternalPiece) :=
  let starts := piece_starts sizes in
  ofold (λ '(buffer, pieces_rev) j,
    start ← expect (starts !! j);
    size ← expect (sizes !! j);
    last ← usize_sub (start + size) 1;
    piece_pivots ← vec_slice start last pivots;
    piece_children ← vec_slice start (start + size) children;
    at_ ← usize_sub start 1;
    pivot ← expect (pivots !! at_);
    let '(buffer, piece_buffer) := bt_split_off buffer pivot in
    mret (buffer, pieces_rev ++ [(pivot, piece_pivots, piece_children, piece_buffer)]))
    (buffer, []) (rev (seq 1 (length sizes - 1))).

(** [BeTree::split_internal] *)
Definition split_internal (id : NodeId) : M (BeTree P) (list (Key * NodeId)) :=
  _ ← mark_dirty id;
  n ← node id;
  match n with
  | Leaf _ => lift Panic
  | Internal pivots children buffer =>
      self ← get_;
      sizes ← lift (partition_sizes (length children) (fanout (params self)));
      '(buffer, pieces_rev) ← lift (peel_pieces pivots children buffer sizes);
      size0 ← lift (expect (sizes !! 0));
      last0 ← lift (usize_sub size0 1);
      first_pivots ← lift (vec_slice 0 last0 pivots);
      first_children ← lift (vec_slice 0 size0 children);
      _ ← put_node id (Internal first_pivots first_children buffer);
      mapM (λ '(pivot, piece_pivots, piece_children, piece_buffer),
        new_id ← alloc (Internal piece_pivots piece_children piece_buffer);
        mret (pivot, new_id)) (rev pieces_rev)
  end.

(** [BeTree::split_if_needed] *)
Definition split_if_needed (id : NodeId) : M (BeTree P) (list (Key * NodeId)) :=
  n ← node id;
  self ← get_;
  match n with
  | Leaf entries =>
      if leaf_capacity (params self) <? bt_len entries then split_leaf id else mret []
  | Internal _ children _ =>
      if fanout (params self) <? length children then split_internal id else mret []
  end.

(** [BeTree::settle] *)
Definition settle (id : NodeId) : M (BeTree P) Outcome :=
  n ← node id;
  let splits := promoted ← split_if_needed id; mret (Splits promoted) in
  match n with
  | Internal _ [] buffer =>
      _ ← assert_ (bt_is_empty buffer);
      mret Removed
  | _ => splits
  end.

(** [children.iter().position(|&c| c == child)] *)
Definition position (child : NodeId) (children : list NodeId) : option nat :=
  fst <$> list_find (λ c, c = child) children.

(** [BeTree::remove_child] *)
Definition remove_child (parent child : NodeId) : M (BeTree P) unit :=
  _ ← mark_dirty parent;
  n ← node parent;
  match n with
  | Leaf _ => lift Panic
  | Internal pivots children buffer =>
      at_ ← lift (expect (position child children));
      children ← lift (vec_remove at_ children);
      pivots ← lift (if 0 <? at_ then vec_remove (at_ - 1) pivots
                     else match pivots with
                          | [] => mret pivots
                          | _ => vec_remove 0 pivots
                          end);
      put_node parent (Internal pivots children buffer)
  end.

(** [BeTree::integrate_splits] *)
Definition integrate_splits (id : NodeId) (promoted : list (Key * NodeId)) : M (BeTree P) unit :=
  match promoted with
  | [] => mret tt
  | _ =>
      _ ← mark_dirty id;
      n ← node id;
      match n with
      | Leaf _ => lift Panic
      | Internal pivots children buffer =>
          '(pivots, children) ← lift (insert_promoted promoted (pivots, children));
          put_node id (Internal pivots children buffer)
      end
  end.

(** The per-child message counts and bytes of [pick_and_extract]. *)
Definition occupancies_of (pivots : list Key) (children : list NodeId)
    (buffer : BTreeMap Message) : outcome (list nat * list Z) :=
  ofold (λ '(occupancies, pending_bytes) '(key, message),
    let child := route pivots key in
    occupancies ← vec_update child S occupancies;
    pending_bytes ← vec_update child (Z.add (entry_bytes key message)) pending_bytes;
    mret (occupancies, pending_bytes))
    (replicate (length children) 0, replicate (length children) 0%Z) (bt_iter buffer).

(** The extraction of [pick_and_extract]: what stays in the buffer, and
    the batch for child [chosen]. *)
Definition extract_batch (pivots : list Key) (buffer : BTreeMap Message) (chosen : nat)
    : outcome (BTreeMap Message * BTreeMap Message) :=
  '(buffer, batch) ← match chosen with
    | S i => pivot ← expect (pivots !! i); mret (bt_split_off buffer pivot)
    | 0 => mret (∅, buffer)
    end;
  match pivots !! chosen with
  | Some hi =>
      let '(batch, tail) := bt_split_off batch hi in
      mret (bt_append buffer tail, batch)
  | None => mret (buffer, batch)
  end.

(** [BeTree::pick_and_extract] *)
Definition pick_and_extract (id : NodeId) (depth : nat) (policy_mode : bool)
    : M (BeTree P) (nat * NodeId * list nat * BTreeMap Message) :=
  n ← node id;
  match n with
  | Leaf _ => lift Panic
  | Internal pivots children buffer =>
      self ← get_;
      '(occupancies, pending_bytes) ← lift (occupancies_of pivots children buffer);
      chosen ← if policy_mode then
          child_dirty ← lift (mapM (λ c, expect (dirty self !! c)) children);
          let ctx := {|
            ctx_node := id;
            ctx_depth := depth;
            child_pending := occupancies;
            child_pending_bytes := pending_bytes;
            child_dirty := child_dirty;
            buffer_total := bt_len buffer;
            ctx_ops_since_commit := ops_since_commit self
          |} in
          '(chosen, policy) ← lift (Policy.choose (policy self) ctx);
          _ ← modify (set_policy policy);
          mret chosen
        else lift (pick occupancies);
      _ ← assert_ (match occupancies !! chosen with Some count => 0 <? count | None => false end);
      _ ← mark_dirty id;
      '(buffer, batch) ← lift (extract_batch pivots buffer chosen);
      _ ← put_node id (Internal pivots children buffer);
      child_id ← lift (expect (children !! chosen));
      mret (chosen, child_id, occupancies, batch)
  end.

(** [BeTree::apply_batch] *)
Definition apply_batch (child_id : NodeId) (batch : BTreeMap Message) (threshold : nat)
    : M (BeTree P) Delivery :=
  _ ← mark_dirty child_id;
  n ← node child_id;
  match n with
  | Leaf entries =>
      entries ← lift (ofold (λ entries '(key, message), apply_to_leaf entries key message)
        entries (bt_iter batch));
      _ ← put_node child_id (Leaf entries);
      mret (DLeaf (bt_is_empty entries))
  | Internal pivots children buffer =>
      buffer ← lift (ofold (λ buffer '(key, message), coalesce_into buffer key message)
        buffer (bt_iter batch));
      _ ← put_node child_id (Internal pivots children buffer);
      mret (DInternal (threshold <? bt_len buffer))
  end.

(** One iteration of the loop of [flush_with]: [top :: rest] is the
    vector [flushing], whose last element is [top]. *)
Definition flush_step (threshold : nat) (trace_flushes : bool) (flushing : list NodeId)
    : M (BeTree P) (ctl (list NodeId) Outcome) :=
  match flushing with
  | [] => lift Panic
  | top :: rest =>
      len ← buffer_len top;
      if len <=? threshold then
        buffered_child ← if threshold =? 0 then
            n ← node top;
            match n with
            | Internal _ children _ => find_buffered_child children
            | Leaf _ => mret None
            end
          else mret None;
        match buffered_child with
        | Some child => mret (Continue (child :: flushing))
        | None =>
            outcome ← settle top;
            match rest with
            | parent :: _ =>
                _ ← match outcome with
                    | Splits promoted => integrate_splits parent promoted
                    | Removed => remove_child parent top
                    end;
                mret (Continue rest)
            | [] => mret (Break outcome)
            end
        end
      else
        let depth := length flushing - 1 in
        '(chosen, child_id, child_occupancies, batch) ← pick_and_extract top depth trace_flushes;
        _ ← if trace_flushes then
            modify (λ self, set_trace
              (Recorder_flush_decision (trace self) top child_occupancies chosen) self)
          else mret tt;
        delivery ← apply_batch child_id batch threshold;
        match delivery with
        | DInternal true => mret (Continue (child_id :: flushing))
        | DInternal false | DLeaf false =>
            promoted ← split_if_needed child_id;
            _ ← integrate_splits top promoted;
            mret (Continue flushing)
        | DLeaf true =>
            _ ← remove_child top child_id;
            mret (Continue flushing)
        end
  end.

(** [BeTree::flush_with] *)
Definition flush_with (id : NodeId) (threshold : nat) (trace_flushes : bool)
    : M (BeTree P) Outcome :=
  loopM fuel (flush_step threshold trace_flushes) [id].

(** One iteration of the settling loop of [restore_root_with]. *)
Definition restore_step (threshold : nat) (trace_flushes : bool) (_ : unit)
    : M (BeTree P) (ctl unit unit) :=
  self ← get_;
  n ← node (root self);
  outcome ← match n with
    | Internal _ _ _ => flush_with (root self) threshold trace_flushes
    | Leaf _ => promoted ← split_if_needed (root self); mret (Splits promoted)
    end;
  match outcome with
  | Removed =>
      id ← alloc (Leaf ∅);
      _ ← modify (set_root id);
      mret (Break tt)
  | Splits [] => mret (Break tt)
  | Splits promoted =>
      self ← get_;
      let pivots := promoted.*1 in
      let children := root self :: promoted.*2 in
      id ← alloc (Internal pivots children ∅);
      _ ← modify (set_root id);
      mret (Continue tt)
  end.

(** One iteration of the root-collapse loop. *)
Definition collapse_step (_ : unit) : M (BeTree P) (ctl unit unit) :=
  self ← get_;
  n ← node (root self);
  match n with
  | Internal _ [child] buffer =>
      if bt_is_empty buffer then
        _ ← modify (set_root child);
        mret (Continue tt)
      else mret (Break tt)
  | _ => mret (Break tt)
  end.

(** [BeTree::restore_root_with] *)
Definition restore_root_with (threshold : nat) (trace_flushes : bool) : M (BeTree P) unit :=
  _ ← loopM fuel (restore_step threshold trace_flushes) tt;
  loopM fuel collapse_step tt.

(** [BeTree::restore_root] *)
Definition restore_root : M (BeTree P) unit :=
  self ← get_;
  restore_root_with (buffer_capacity (params self)) true.

(** [BeTree::drain] *)
Definition drain : M (BeTree P) unit := restore_root_with 0 false.

(** [BeTree::apply_root] *)
Definition apply_root (key : Key) (message : Message) : M (BeTree P) unit :=
  self ← get_;
  _ ← mark_dirty (root self);
  n ← node (root self);
  _ ← match n with
      | Leaf entries =>
          entries ← lift (apply_to_leaf entries key message);
          put_node (root self) (Leaf entries)
      | Internal pivots children buffer =>
          buffer ← lift (coalesce_into buffer key message);
          put_node (root self) (Internal pivots children buffer)
      end;
  restore_root.

(** [BeTree::with_policy] *)
Definition with_policy (params : Params) (policy : P) : outcome (BeTree P) :=
  _ ← oassert (legal_params params);
  mret (mkBeTree params [Leaf ∅] [true] 0 0%Z 0%Z policy Recorder_default).

(** The shared head of the mutating ops: the seqno and the trace event. *)
Definition next_op (op : OpKind2) : M (BeTree P) Z :=
  self ← get_;
  seq ← lift (u64_add (next_seq self) 1);
  _ ← modify (set_next_seq seq);
  ops ← lift (u64_add (ops_since_commit self) 1);
  _ ← modify (set_ops_since_commit ops);
  _ ← modify (λ self, set_trace (Recorder_op (trace self) seq op) self);
  mret seq.

(** [BeTree::insert], [BeTree::delete], [BeTree::upsert] *)
Definition insert (key : Key) (value : Value) : M (BeTree P) unit :=
  seq ← next_op (Insert2 key value);
  apply_root key (Put seq value).
Definition delete (key : Key) : M (BeTree P) unit :=
  seq ← next_op (Delete2 key);
  apply_root key (Delete seq).
Definition upsert (key : Key) (op : UpsertOp) : M (BeTree P) unit :=
  seq ← next_op (Upsert2 key op);
  apply_root key (Upsert seq op).

(** The loop of [BeTree::get]. *)
Definition get_step (key : Key) : option Z * NodeId → M (BeTree P) (ctl (option Z * NodeId) (option Value)) :=
  λ '(chain, id),
    n ← node id;
    match n with
    | Internal pivots children buffer =>
        let descend chain :=
          id ← lift (expect (children !! route pivots key));
          mret (Continue (chain, id)) in
        match buffer !! key with
        | Some (Put _ value) => mret (Break (apply_chain chain (Some value)))
        | Some (Delete _) => mret (Break (apply_chain chain None))
        | Some (Upsert _ (Add delta)) => descend (Some (i64_wrapping_add (default 0%Z chain) delta))
        | None => descend chain
        end
    | Leaf entries => mret (Break (apply_chain chain (le_value <$> entries !! key)))
    end.

(** [BeTree::get] *)
Definition get (key : Key) : M (BeTree P) (option Value) :=
  _ ← modify (λ self, set_trace (Recorder_get (trace self) key) self);
  self ← get_;
  loopM fuel (get_step key) (None, root self).

(** The frames of [BeTree::scan]. *)
Record Frame : Type := mkFrame {
  fr_id : NodeId;
  fr_lo : Bound;
  fr_hi : Bound;
  fr_next_child : nat;
  fr_acc : BTreeMap Value;
}.

Definition insert_entries (acc : BTreeMap Value) (l : list (Key * LeafEntry)) : BTreeMap Value :=
  foldl (λ acc '(k, e), <[k := le_value e]> acc) acc l.

(** The fold of a node's in-range messages onto its children's results. *)
Definition apply_messages (acc : BTreeMap Value) (l : list (Key * Message)) : BTreeMap Value :=
  foldl (λ acc '(k, message),
    match message with
    | Put _ value => <[k := value]> acc
    | Delete _ => base.delete k acc
    | Upsert _ op => <[k := UpsertOp_apply op (acc !! k)]> acc
    end) acc l.

(** The bounds [c_lo] and [c_hi] of child [i]. *)
Definition clip_child_lo (pivots : list Key) (i : nat) (lo : Bound) : outcome Bound :=
  if i =? 0 then mret lo
  else pivot ← expect (pivots !! (i - 1)); mret (clip_lower lo pivot).
Definition clip_child_hi (pivots : list Key) (i : nat) (hi : Bound) : outcome Bound :=
  if i =? length pivots then mret hi
  else pivot ← expect (pivots !! i); mret (clip_upper hi pivot).

(** One iteration of the loop of [BeTree::scan]. *)
Definition scan_step (stack : list Frame) : M (BeTree P) (ctl (list Frame) (list (Key * Value))) :=
  match stack with
  | [] => lift Panic
  | frame :: rest =>
      n ← node (fr_id frame);
      match n with
      | Leaf _ => lift Panic
      | Internal pivots children buffer =>
          let i := fr_next_child frame in
          if i <? length children then
            let frame := mkFrame (fr_id frame) (fr_lo frame) (fr_hi frame) (i + 1) (fr_acc frame) in
            c_lo ← lift (clip_child_lo pivots i (fr_lo frame));
            c_hi ← lift (clip_child_hi pivots i (fr_hi frame));
            if range_is_empty c_lo c_hi then mret (Continue (frame :: rest))
            else
              child ← lift (expect (children !! i));
              nd ← node child;
              match nd with
              | Leaf entries =>
                  l ← lift (bt_range entries c_lo c_hi);
                  mret (Continue (mkFrame (fr_id frame) (fr_lo frame) (fr_hi frame)
                    (fr_next_child frame) (insert_entries (fr_acc frame) l) :: rest))
              | Internal _ _ _ =>
                  mret (Continue (mkFrame child c_lo c_hi 0 ∅ :: frame :: rest))
              end
          else
            l ← lift (bt_range buffer (fr_lo frame) (fr_hi frame));
            let acc := apply_messages (fr_acc frame) l in
            match rest with
            | parent :: rest =>
                mret (Continue (mkFrame (fr_id parent) (fr_lo parent) (fr_hi parent)
                  (fr_next_child parent) (bt_append (fr_acc parent) acc) :: rest))
            | [] => mret (Break (bt_iter acc))
            end
      end
  end.

(** [BeTree::scan] *)
Definition scan (lo hi : Bound) : M (BeTree P) (Result (list (Key * Value)) EngineError) :=
  _ ← modify (λ self, set_trace (Recorder_scan (trace self) lo hi) self);
  if range_is_empty lo hi then mret (ROk [])
  else
    self ← get_;
    n ← node (root self);
    match n with
    | Leaf entries =>
        l ← lift (bt_range entries lo hi);
        mret (ROk (map (λ '(k, e), (k, le_value e)) l))
    | Internal _ _ _ =>
        l ← loopM fuel scan_step [mkFrame (root self) lo hi 0 ∅];
        mret (ROk l)
    end.
End betree.
