(* ===== verification/Disk.v ===== *)
(** * The disk engine: slots, cache and records ([src/disk.rs])

    The arena of slots over a virtual file: lazy loading of node records
    and the bounded cache.  The commit protocol and recovery are in
    DiskCommit, the tree operations over the slots in DiskTree. *)

From S2P Require Export Vfs Format BeTree.
From stdpp Require Import options.
From Stdlib Require Import ZArith.

Local Open Scope Z_scope.

(** ** Fallible methods: the [?] operator *)
Definition try_ {S A B E} (m : M S (Result A E)) (k : A → M S (Result B E)) : M S (Result B E) :=
  r ← m;
  match r with ROk a => k a | RErr e => mret (RErr e) end.
Notation "x ←? m ; k" := (try_ m (λ x, k))
  (at level 20, m at level 100, k at level 200, right associativity).
Notation "' p ←? m ; k" := (try_ m (λ x, let p := x in k))
  (at level 20, p pattern, m at level 100, k at level 200, right associativity).
(** A method that cannot fail, in one that can. *)
Definition fine {S A E} (m : M S A) : M S (Result A E) := a ← m; mret (ROk a).
Definition throw {S A E} (e : E) : M S (Result A E) := mret (RErr e).
(** [result.map_err(f)?] *)
Definition map_err {A E E'} (f : E → E') (r : Result A E) : Result A E' :=
  match r with ROk a => ROk a | RErr e => RErr (f e) end.

(** [for x in l { .. ? .. }] *)
Fixpoint tfold {S A B E} (f : B → A → M S (Result B E)) (b : B) (l : list A) : M S (Result B E) :=
  match l with
  | [] => mret (ROk b)
  | a :: l => b ←? f b a; tfold f b l
  end.

(** ** State *)

(** [CommitStats] *)
Record CommitStats : Type := mkCommitStats { nodes_written : nat; bytes_written : Z }.

(** [NodeSlot] *)
Inductive NodeSlot : Type :=
  | Loaded (node : Node) (dirty : bool) (disk_offset : option Z) (bytes last_tick : Z)
  | OnDisk (offset : Z)
  | Freed.

(** [CacheStats] *)
Record CacheStats : Type := mkCacheStats {
  cs_hits : Z; cs_misses : Z; cs_evictions : Z; cs_overcommit_events : Z; cs_resident_bytes : Z;
}.

(** [Cache]; the front of the deque is the head of [c_lru]. *)
Record Cache : Type := mkCache {
  c_budget : option Z;
  c_bytes : Z;
  c_resident : nat;
  c_tick : Z;
  c_lru : list (NodeId * Z);
  c_hits : Z;
  c_misses : Z;
  c_evictions : Z;
  c_overcommit_events : Z;
}.

Section cache_fields.
Implicit Types c : Cache.
Definition set_c_budget b c := mkCache b (c_bytes c) (c_resident c) (c_tick c) (c_lru c)
  (c_hits c) (c_misses c) (c_evictions c) (c_overcommit_events c).
Definition set_c_resident bs n c := mkCache (c_budget c) bs n (c_tick c) (c_lru c)
  (c_hits c) (c_misses c) (c_evictions c) (c_overcommit_events c).
Definition set_c_tick t c := mkCache (c_budget c) (c_bytes c) (c_resident c) t (c_lru c)
  (c_hits c) (c_misses c) (c_evictions c) (c_overcommit_events c).
Definition set_c_lru l c := mkCache (c_budget c) (c_bytes c) (c_resident c) (c_tick c) l
  (c_hits c) (c_misses c) (c_evictions c) (c_overcommit_events c).
Definition set_c_hits n c := mkCache (c_budget c) (c_bytes c) (c_resident c) (c_tick c) (c_lru c)
  n (c_misses c) (c_evictions c) (c_overcommit_events c).
Definition set_c_misses n c := mkCache (c_budget c) (c_bytes c) (c_resident c) (c_tick c) (c_lru c)
  (c_hits c) n (c_evictions c) (c_overcommit_events c).
Definition set_c_evictions n c := mkCache (c_budget c) (c_bytes c) (c_resident c) (c_tick c) (c_lru c)
  (c_hits c) (c_misses c) n (c_overcommit_events c).
Definition set_c_overcommit n c := mkCache (c_budget c) (c_bytes c) (c_resident c) (c_tick c) (c_lru c)
  (c_hits c) (c_misses c) (c_evictions c) n.
End cache_fields.

(** [est_bytes] *)
Definition est_bytes (node : Node) : Z :=
  match node with
  | Leaf entries =>
      16 + foldr (λ '(k, e) acc, 24 + Z.of_nat (length k) + Z.of_nat (length (le_value e)) + acc) 0
        (bt_iter entries)
  | Internal pivots children buffer =>
      28 + foldr (λ p acc, 8 + Z.of_nat (length p) + acc) 0 pivots
      + 8 * Z.of_nat (length children)
      + foldr (λ '(k, m) acc,
          12 + Z.of_nat (length k) +
          match m with
          | Put _ value => 20 + Z.of_nat (length value)
          | Delete _ => 12
          | Upsert _ _ => 24
          end + acc) 0 (bt_iter buffer)
  end.

(** [DiskEngine], over a [Vfs] [V] and a policy [P]. *)
Record DiskEngine (V P : Type) : Type := mkDisk {
  d_params : Params;
  d_vfs : V;
  d_slots : list NodeSlot;
  d_root : NodeId;
  d_next_seq : Z;
  d_next_generation : Z;
  d_watermark : Z;
  d_poisoned : bool;
  d_cache : Cache;
  d_offsets : gmap Z NodeId;
  d_ops_since_commit : Z;
  d_policy : P;
  d_trace : Recorder;
}.
Arguments mkDisk {V P} _ _ _ _ _ _ _ _ _ _ _ _ _.
Arguments d_params {V P} _.
Arguments d_vfs {V P} _.
Arguments d_slots {V P} _.
Arguments d_root {V P} _.
Arguments d_next_seq {V P} _.
Arguments d_next_generation {V P} _.
Arguments d_watermark {V P} _.
Arguments d_poisoned {V P} _.
Arguments d_cache {V P} _.
Arguments d_offsets {V P} _.
Arguments d_ops_since_commit {V P} _.
Arguments d_policy {V P} _.
Arguments d_trace {V P} _.

Section engine_fields.
Context {V P : Type}.
Implicit Types d : DiskEngine V P.

Definition set_d_vfs (v : V) d := mkDisk (d_params d) v (d_slots d) (d_root d) (d_next_seq d)
  (d_next_generation d) (d_watermark d) (d_poisoned d) (d_cache d) (d_offsets d)
  (d_ops_since_commit d) (d_policy d) (d_trace d).
Definition set_d_slots ss d := mkDisk (d_params d) (d_vfs d) ss (d_root d) (d_next_seq d)
  (d_next_generation d) (d_watermark d) (d_poisoned d) (d_cache d) (d_offsets d)
  (d_ops_since_commit d) (d_policy d) (d_trace d).
Definition set_d_root r d := mkDisk (d_params d) (d_vfs d) (d_slots d) r (d_next_seq d)
  (d_next_generation d) (d_watermark d) (d_poisoned d) (d_cache d) (d_offsets d)
  (d_ops_since_commit d) (d_policy d) (d_trace d).
Definition set_d_next_seq n d := mkDisk (d_params d) (d_vfs d) (d_slots d) (d_root d) n
  (d_next_generation d) (d_watermark d) (d_poisoned d) (d_cache d) (d_offsets d)
  (d_ops_since_commit d) (d_policy d) (d_trace d).
Definition set_d_published g w d := mkDisk (d_params d) (d_vfs d) (d_slots d) (d_root d)
  (d_next_seq d) g w (d_poisoned d) (d_cache d) (d_offsets d)
  (d_ops_since_commit d) (d_policy d) (d_trace d).
Definition set_d_poisoned b d := mkDisk (d_params d) (d_vfs d) (d_slots d) (d_root d)
  (d_next_seq d) (d_next_generation d) (d_watermark d) b (d_cache d) (d_offsets d)
  (d_ops_since_commit d) (d_policy d) (d_trace d).
Definition set_d_cache c d := mkDisk (d_params d) (d_vfs d) (d_slots d) (d_root d) (d_next_seq d)
  (d_next_generation d) (d_watermark d) (d_poisoned d) c (d_offsets d)
  (d_ops_since_commit d) (d_policy d) (d_trace d).
Definition set_d_offsets os d := mkDisk (d_params d) (d_vfs d) (d_slots d) (d_root d) (d_next_seq d)
  (d_next_generation d) (d_watermark d) (d_poisoned d) (d_cache d) os
  (d_ops_since_commit d) (d_policy d) (d_trace d).
Definition set_d_ops n d := mkDisk (d_params d) (d_vfs d) (d_slots d) (d_root d) (d_next_seq d)
  (d_next_generation d) (d_watermark d) (d_poisoned d) (d_cache d) (d_offsets d)
  n (d_policy d) (d_trace d).
Definition set_d_policy (p : P) d := mkDisk (d_params d) (d_vfs d) (d_slots d) (d_root d) (d_next_seq d)
  (d_next_generation d) (d_watermark d) (d_poisoned d) (d_cache d) (d_offsets d)
  (d_ops_since_commit d) p (d_trace d).
Definition set_d_trace t d := mkDisk (d_params d) (d_vfs d) (d_slots d) (d_root d) (d_next_seq d)
  (d_next_generation d) (d_watermark d) (d_poisoned d) (d_cache d) (d_offsets d)
  (d_ops_since_commit d) (d_policy d) t.
Definition on_cache f d := set_d_cache (f (d_cache d)) d.
End engine_fields.

(** Fuel: the nodes in the slots, and for every byte below the watermark
    the record that may start there, whose node has at most as many parts as
    there are bytes below the watermark. *)
Definition slot_cost (s : NodeSlot) : nat :=
  match s with Loaded n _ _ _ _ => node_cost n | OnDisk _ => 1 | Freed => 2 end.

Definition d_fuel {V P} (d : DiskEngine V P) : nat :=
  8 + 4 * N.size_nat (N.of_nat (sum_list_with slot_cost (d_slots d)) +
    Z.to_N (d_watermark d) * Z.to_N (d_watermark d)).

Section disk.
Context {V P : Type} `{Vfs V} `{Codec}.
Notation E := (DiskEngine V P).
Notation D A := (M E (Result A DiskError)).

(** A call of [self.vfs], its I/O error converted by [?]. *)
Definition on_vfs {A} (m : M V (Result A IoError)) : D A := λ d,
  '(r, v) ← m (d_vfs d);
  mret (map_err Io r, set_d_vfs v d).

(** [&self.slots[id]], and assignments to the slot. *)
Definition slot (id : NodeId) : M E NodeSlot :=
  d ← get_; lift (expect (d_slots d !! id)).
Definition put_slot (id : NodeId) (s : NodeSlot) : M E unit :=
  modify (λ d, set_d_slots (<[id := s]> (d_slots d)) d).

(** ** The cache *)

(** Stamping a resident slot. *)
Definition stamp (tick : Z) (s : NodeSlot) : NodeSlot :=
  match s with
  | Loaded node dirty disk_offset bytes _ => Loaded node dirty disk_offset bytes tick
  | _ => s
  end.

(** The stale entries that compaction drops. *)
Fixpoint retain_current (slots : list NodeSlot) (lru : list (NodeId * Z))
    : outcome (list (NodeId * Z)) :=
  match lru with
  | [] => mret []
  | (id, tick) :: lru =>
      s ← expect (slots !! id);
      lru ← retain_current slots lru;
      mret match s with
        | Loaded _ _ _ _ last_tick => if last_tick =? tick then (id, tick) :: lru else lru
        | _ => lru
        end
  end.

(** [DiskEngine::touch] *)
Definition touch (id : NodeId) : M E unit :=
  d ← get_;
  match c_budget (d_cache d) with
  | None => mret tt
  | Some _ =>
      tick ← lift (u64_add (c_tick (d_cache d)) 1);
      _ ← modify (on_cache (set_c_tick tick));
      s ← slot id;
      _ ← put_slot id (stamp tick s);
      _ ← modify (on_cache (λ c, set_c_lru (c_lru c ++ [(id, tick)]) c));
      d ← get_;
      if (64 `max` (c_resident (d_cache d) * 4) <? length (c_lru (d_cache d)))%nat then
        lru ← lift (retain_current (d_slots d) (c_lru (d_cache d)));
        modify (on_cache (set_c_lru lru))
      else mret tt
  end.

(** One examined entry of the deque. *)
Definition enforce_step (pins : list NodeId) (just_loaded : option NodeId) (id : NodeId) (tick : Z)
    : M E unit :=
  s ← slot id;
  match s with
  | OnDisk _ | Freed => mret tt
  | Loaded node dirty disk_offset bytes last_tick =>
      if negb (last_tick =? tick) then mret tt
      else if dirty || bool_decide (id ∈ pins) || bool_decide (just_loaded = Some id) then
        d ← get_;
        tick ← lift (u64_add (c_tick (d_cache d)) 1);
        _ ← modify (on_cache (set_c_tick tick));
        _ ← put_slot id (stamp tick s);
        modify (on_cache (λ c, set_c_lru (c_lru c ++ [(id, tick)]) c))
      else
        offset ← lift (expect disk_offset);
        _ ← put_slot id (OnDisk offset);
        d ← get_;
        bs ← lift (u64_sub (c_bytes (d_cache d)) bytes);
        n ← lift (usize_sub (c_resident (d_cache d)) 1);
        _ ← modify (on_cache (set_c_resident bs n));
        k ← lift (u64_add (c_evictions (d_cache d)) 1);
        modify (on_cache (set_c_evictions k))
  end.

(** The scan of [enforce_budget], with [n] entries still to examine. *)
Fixpoint enforce_loop (pins : list NodeId) (just_loaded : option NodeId) (budget : Z) (n : nat)
    : M E unit :=
  d ← get_;
  if (budget <? c_bytes (d_cache d)) then
    match n, c_lru (d_cache d) with
    | 0%nat, _ | _, [] => mret tt
    | S n, (id, tick) :: lru =>
        _ ← modify (on_cache (set_c_lru lru));
        _ ← enforce_step pins just_loaded id tick;
        enforce_loop pins just_loaded budget n
    end
  else mret tt.

(** [DiskEngine::enforce_budget] *)
Definition enforce_budget (pins : list NodeId) (just_loaded : option NodeId) : M E unit :=
  d ← get_;
  match c_budget (d_cache d) with
  | None => mret tt
  | Some budget =>
      _ ← enforce_loop pins just_loaded budget (length (c_lru (d_cache d)));
      d ← get_;
      if budget <? c_bytes (d_cache d) then
        n ← lift (u64_add (c_overcommit_events (d_cache d)) 1);
        modify (on_cache (set_c_overcommit n))
      else mret tt
  end.

(** [DiskEngine::cache_stats] *)
Definition cache_stats (d : E) : CacheStats :=
  let c := d_cache d in
  mkCacheStats (c_hits c) (c_misses c) (c_evictions c) (c_overcommit_events c) (c_bytes c).

(** ** Slot bookkeeping *)

(** [cache.bytes += bytes; cache.resident += 1] *)
Definition account (bytes : Z) : M E unit :=
  d ← get_;
  bs ← lift (u64_add (c_bytes (d_cache d)) bytes);
  modify (on_cache (λ c, set_c_resident bs (c_resident c + 1)%nat c)).

(** [DiskEngine::alloc_dirty] *)
Definition alloc_dirty (node : Node) : M E NodeId :=
  d ← get_;
  let id := length (d_slots d) in
  let bytes := est_bytes node in
  _ ← modify (set_d_slots (d_slots d ++ [Loaded node true None bytes 0]));
  _ ← account bytes;
  _ ← touch id;
  mret id.

(** [DiskEngine::alloc_on_disk] *)
Definition alloc_on_disk (offset : Z) : M E NodeId :=
  d ← get_;
  let alloc : M E NodeId :=
    let id := length (d_slots d) in
    _ ← modify (set_d_slots (d_slots d ++ [OnDisk offset]));
    _ ← modify (set_d_offsets (<[offset := id]> (d_offsets d)));
    mret id in
  match d_offsets d !! offset with
  | Some id =>
      s ← slot id;
      match s with Freed => alloc | _ => mret id end
  | None => alloc
  end.

(** [DiskEngine::release_slot] *)
Definition release_slot (id : NodeId) : M E unit :=
  s ← slot id;
  match s with
  | Loaded _ _ disk_offset bytes _ =>
      d ← get_;
      bs ← lift (u64_sub (c_bytes (d_cache d)) bytes);
      n ← lift (usize_sub (c_resident (d_cache d)) 1);
      _ ← modify (on_cache (set_c_resident bs n));
      _ ← match disk_offset with
          | Some offset => modify (λ d, set_d_offsets (base.delete offset (d_offsets d)) d)
          | None => mret tt
          end;
      put_slot id Freed
  | OnDisk offset =>
      _ ← modify (λ d, set_d_offsets (base.delete offset (d_offsets d)) d);
      put_slot id Freed
  | Freed => mret tt
  end.

(** [DiskEngine::is_dirty] *)
Definition is_dirty (id : NodeId) : M E bool :=
  s ← slot id;
  mret match s with Loaded _ true _ _ _ => true | _ => false end.

(** [DiskEngine::loaded] *)
Definition loaded (id : NodeId) : M E Node :=
  s ← slot id;
  match s with
  | Loaded node _ _ _ _ => mret node
  | OnDisk _ | Freed => lift Panic
  end.

(** [DiskEngine::loaded_mut], and the assignment through the reference. *)
Definition loaded_mut (id : NodeId) : M E Node :=
  s ← slot id;
  match s with
  | Loaded node _ disk_offset bytes last_tick =>
      let est := est_bytes node in
      d ← get_;
      rest ← lift (u64_sub (c_bytes (d_cache d)) bytes);
      bs ← lift (u64_add rest est);
      _ ← put_slot id (Loaded node true disk_offset est last_tick);
      _ ← modify (on_cache (λ c, set_c_resident bs (c_resident c) c));
      mret node
  | OnDisk _ | Freed => lift Panic
  end.
Definition put_loaded (id : NodeId) (node : Node) : M E unit :=
  s ← slot id;
  match s with
  | Loaded _ dirty disk_offset bytes last_tick =>
      put_slot id (Loaded node dirty disk_offset bytes last_tick)
  | OnDisk _ | Freed => lift Panic
  end.

(** ** Records *)

(** [DiskEngine::read_record] *)
Definition read_record (offset : Z) : D (DiskNode * Z) :=
  d ← get_;
  let watermark := d_watermark d in
  if (offset <? DATA_START) || (0 `max` (watermark - RECORD_HEADER_SIZE) <? offset) then
    throw (CorruptNode offset)
  else
    header ←? on_vfs (read_exact_at offset (Z.to_nat RECORD_HEADER_SIZE));
    b_len ← lift (vec_slice 0 4 header);
    b_crc ← lift (vec_slice 4 (length header) header);
    let len := le_decode b_len in
    let stored_crc := le_decode b_crc in
    start ← lift (u64_add offset RECORD_HEADER_SIZE);
    room ← lift (u64_sub watermark start);
    if room <? len then throw (CorruptNode offset)
    else
      payload ←? on_vfs (read_exact_at start (Z.to_nat len));
      if negb (crc32_hash payload =? stored_crc) then throw (CorruptNode offset)
      else
        match decode_node payload with
        | RErr _ => throw (CorruptNode offset)
        | ROk node => mret (ROk (node, Z.of_nat (length payload)))
        end.

(** [children.into_iter().map(|off| self.alloc_on_disk(off)).collect()] *)
Definition intern_children (children : list Z) : M E (list NodeId) := mapM alloc_on_disk children.

(** The node of a record read at [offset]: its arity and its child offsets
    are validated, its children interned. *)
Definition adopt_record (offset : Z) (disk_node : DiskNode) : D Node :=
  match disk_node with
  | DiskLeaf entries => mret (ROk (Leaf entries))
  | DiskInternal pivots children buffer =>
      if negb (length children =? length pivots + 1)%nat then throw (CorruptNode offset)
      else if existsb (λ child, (child <? DATA_START) || (offset <=? child)) children then
        throw (CorruptNode offset)
      else
        children ← intern_children children;
        mret (ROk (Internal pivots children buffer))
  end.

(** [DiskEngine::ensure_loaded] *)
Definition ensure_loaded (id : NodeId) (pins : list NodeId) : D unit :=
  s ← slot id;
  match s with
  | Loaded _ _ _ _ _ =>
      d ← get_;
      hits ← lift (u64_add (c_hits (d_cache d)) 1);
      _ ← modify (on_cache (set_c_hits hits));
      fine (touch id)
  | Freed => lift Panic
  | OnDisk offset =>
      '(disk_node, payload_len) ←? read_record offset;
      node ←? adopt_record offset disk_node;
      bytes ← lift (u64_add RECORD_HEADER_SIZE payload_len);
      _ ← put_slot id (Loaded node false (Some offset) bytes 0);
      _ ← account bytes;
      d ← get_;
      misses ← lift (u64_add (c_misses (d_cache d)) 1);
      _ ← modify (on_cache (set_c_misses misses));
      _ ← touch id;
      fine (enforce_budget pins (Some id))
  end.

(** [DiskEngine::resolve_offset] *)
Definition resolve_offset (id : NodeId) (assigned : gmap NodeId Z) : M E Z :=
  s ← slot id;
  lift match s with
  | Freed => Panic
  | OnDisk offset => Ok offset
  | Loaded _ false disk_offset _ _ => expect disk_offset
  | Loaded _ true _ _ _ => expect (assigned !! id)
  end.

(** [DiskEngine::node_payload] *)
Definition node_payload (id : NodeId) (assigned : gmap NodeId Z) : D (list byte) :=
  n ← loaded id;
  disk_node ← match n with
    | Leaf entries => mret (DiskLeaf entries)
    | Internal pivots children buffer =>
        children ← mapM (λ c, resolve_offset c assigned) children;
        mret (DiskInternal pivots children buffer)
    end;
  mret (map_err Io (encode_node disk_node)).
End disk.
