(* ===== verification/DiskCommit.v ===== *)
(** * The disk engine: commit, creation and recovery ([src/disk.rs])

    The commit protocol (append the dirty records, sync, publish the
    inactive superblock slot, sync), [create] and [open]. *)

From S2P Require Export Disk.
From stdpp Require Import options.
From Stdlib Require Import ZArith.

Local Open Scope Z_scope.

Definition u32_max : Z := 2 ^ 32 - 1.

(** A [BTreeMap<NodeId, u64>] in ascending order of the ids. *)
Definition id_le (x y : NodeId * Z) : Prop := (x.1 ≤ y.1)%nat.
#[export] Instance id_le_dec x y : Decision (id_le x y).
Proof. unfold id_le. apply _. Defined.
Definition by_id (m : gmap NodeId Z) : list (NodeId * Z) := merge_sort id_le (map_to_list m).

Section commit.
Context {V P : Type} `{Vfs V} `{Codec}.
Notation E := (DiskEngine V P).
Notation D A := (M E (Result A DiskError)).

(** The dirty children of a node, in order. *)
Fixpoint dirty_of (children : list NodeId) : M E (list NodeId) :=
  match children with
  | [] => mret []
  | c :: children =>
      b ← is_dirty c;
      cs ← dirty_of children;
      mret (if (b : bool) then c :: cs else cs)
  end.

(** One iteration of the walk over dirty-only edges: [pre], and the stack
    [visit]. *)
Definition visit_dirty : list NodeId * list NodeId →
    M E (ctl (list NodeId * list NodeId) (list NodeId)) := λ '(pre, visit),
  match visit with
  | [] => mret (Break pre)
  | id :: visit =>
      let pre := pre ++ [id] in
      n ← loaded id;
      match n with
      | Internal _ children _ =>
          cs ← dirty_of children;
          mret (Continue (pre, rev cs ++ visit))
      | Leaf _ => mret (Continue (pre, visit))
      end
  end.

(** What the serialization loop of a commit has written: [buf],
    [assigned] and [record_lens]. *)
Record Written : Type := mkWritten {
  w_buf : list byte;
  w_assigned : gmap NodeId Z;
  w_record_lens : gmap NodeId Z;
}.

(** One record: length, checksum, payload. *)
Definition record_bytes (payload : list byte) : list byte :=
  le_encode 4 (Z.of_nat (length payload)) ++ le_encode 4 (crc32_hash payload) ++ payload.

(** One iteration of the serialization loop. *)
Definition write_record (base : Z) (w : Written) (id : NodeId) : D Written :=
  offset ← lift (u64_add base (Z.of_nat (length (w_buf w))));
  payload ←? node_payload id (w_assigned w);
  if u32_max <? Z.of_nat (length payload) then throw (NodeTooLarge (length payload))
  else
    len ← lift (u64_add RECORD_HEADER_SIZE (Z.of_nat (length payload)));
    mret (ROk (mkWritten (w_buf w ++ record_bytes payload)
      (<[id := offset]> (w_assigned w)) (<[id := len]> (w_record_lens w)))).

(** The adoption of one written record in memory. *)
Definition adopt_written (record_lens : gmap NodeId Z) (id : NodeId) (off : Z) : M E unit :=
  s ← slot id;
  match s with
  | Loaded node _ disk_offset bytes last_tick =>
      exact ← lift (expect (record_lens !! id));
      d ← get_;
      rest ← lift (u64_sub (c_bytes (d_cache d)) bytes);
      bs ← lift (u64_add rest exact);
      _ ← modify (on_cache (λ c, set_c_resident bs (c_resident c) c));
      _ ← put_slot id (Loaded node false (Some off) exact last_tick);
      _ ← match disk_offset with
          | Some old => modify (λ d, set_d_offsets (base.delete old (d_offsets d)) d)
          | None => mret tt
          end;
      modify (λ d, set_d_offsets (<[off := id]> (d_offsets d)) d)
  | OnDisk _ | Freed => lift Panic
  end.

Fixpoint adopt_all (record_lens : gmap NodeId Z) (l : list (NodeId * Z)) : M E unit :=
  match l with
  | [] => mret tt
  | (id, off) :: l => _ ← adopt_written record_lens id off; adopt_all record_lens l
  end.

(** The dirty nodes that a commit writes, parents before descendants. *)
Definition dirty_nodes : M E (list NodeId) :=
  d ← get_;
  b ← is_dirty (d_root d);
  if (b : bool) then loopM d_fuel visit_dirty ([], [d_root d]) else mret [].

(** The end of a commit: the new generation is durable, and is adopted in
    memory. *)
Definition finish (watermark : Z) (w : Written) : D CommitStats :=
  d ← get_;
  next_generation ← lift (u64_add (d_next_generation d) 1);
  _ ← modify (set_d_published next_generation watermark);
  let nodes_written := size (w_assigned w) in
  _ ← adopt_all (w_record_lens w) (by_id (w_assigned w));
  _ ← enforce_budget [] None;
  _ ← modify (set_d_ops 0);
  bytes_written ← lift (u64_add (Z.of_nat (length (w_buf w))) SUPERBLOCK_SLOT_SIZE);
  mret (ROk (mkCommitStats nodes_written bytes_written)).

(** The publication of the superblock through the inactive slot. *)
Definition publish (base : Z) (w : Written) : D CommitStats :=
  watermark ← lift (u64_add base (Z.of_nat (length (w_buf w))));
  d ← get_;
  root_offset ← resolve_offset (d_root d) (w_assigned w);
  let sb := {|
    magic := MAGIC;
    format_version := FORMAT_VERSION;
    sb_params := d_params d;
    last_seq := d_next_seq d;
    generation := d_next_generation d;
    root_offset := root_offset;
    watermark := watermark
  |} in
  slot ← lift (expect (SUPERBLOCK_SLOTS !! Z.to_nat (d_next_generation d mod 2)));
  image ← lift (encode_slot sb);
  image ←? mret (map_err Io image);
  _ ←? on_vfs (write_all_at slot image);
  _ ←? on_vfs sync;
  finish watermark w.

(** [DiskEngine::commit_inner] *)
Definition commit_inner : D CommitStats :=
  pre ← dirty_nodes;
  d ← get_;
  let base := d_watermark d in
  w ←? tfold (write_record base) (mkWritten [] ∅ ∅) (rev pre);
  _ ←? match w_buf w with
       | [] => mret (ROk tt)
       | buf => on_vfs (write_all_at base buf)
       end;
  _ ←? on_vfs sync;
  publish base w.

(** A fallible method whose error poisons the engine. *)
Definition poisoning {A} (m : D A) : D A :=
  r ← m;
  _ ← match r with RErr _ => modify (set_d_poisoned true) | ROk _ => mret tt end;
  mret r.

(** [DiskEngine::commit] *)
Definition commit : D CommitStats :=
  d ← get_;
  if d_poisoned d then throw Poisoned else poisoning commit_inner.

(** [DiskEngine::generation] and [DiskEngine::file_len] *)
Definition generation (d : E) : outcome Z := u64_sub (d_next_generation d) 1.
Definition file_len (d : E) : Result Z DiskError := map_err Io (vfs_len (d_vfs d)).

(** [DiskEngine::create_on_with]; the [Vfs] of an engine that is not
    created is dropped. *)
Definition create_on_with (vfs : V) (params : Params) (cache_budget : option Z) (policy : P)
    : outcome (Result E DiskError) :=
  _ ← oassert (legal_params params);
  match vfs_len vfs with
  | RErr e => mret (RErr (Io e))
  | ROk len =>
      if 0 <? len then mret (RErr (NotEmpty len))
      else
        let root_leaf := Leaf ∅ in
        let bytes := est_bytes root_leaf in
        let engine := mkDisk params vfs [Loaded root_leaf true None bytes 0] 0 0 0 DATA_START false
          (mkCache cache_budget bytes 1 0 [] 0 0 0 0) ∅ 0 policy Recorder_default in
        '(r, engine) ← (_ ← touch 0%nat; commit) engine;
        mret match r with ROk _ => ROk engine | RErr e => RErr e end
  end.

(** The recovery of [open_on_with]: the slots scanned, [best] and
    [wrong_version]. *)
Definition scan_slot (file_len : Z) (acc : option Superblock * option Z) (slot_offset : Z)
    : M V (Result (option Superblock * option Z) DiskError) :=
  let '(best, wrong_version) := acc in
  slot_end ← lift (u64_add slot_offset SUPERBLOCK_SLOT_SIZE);
  if file_len <? slot_end then mret (ROk (best, wrong_version))
  else
    slot ←? r ← read_exact_at slot_offset (Z.to_nat SUPERBLOCK_SLOT_SIZE); mret (map_err Io r);
    status ← lift (decode_slot slot);
    mret (ROk match status with
      | Valid sb =>
          if (watermark sb <=? file_len) &&
             match best with None => true | Some b => Format.generation b <? Format.generation sb end
          then (Some sb, wrong_version)
          else (best, wrong_version)
      | WrongVersion found => (best, Some found)
      | Invalid => (best, wrong_version)
      end).

Definition recover : M V (Result Superblock DiskError) :=
  vfs ← get_;
  match vfs_len vfs with
  | RErr e => throw (Io e)
  | ROk file_len =>
      '(best, wrong_version) ←? tfold (scan_slot file_len) (None, None) SUPERBLOCK_SLOTS;
      match wrong_version, best with
      | Some found, _ => throw (UnsupportedVersion found)
      | None, None => throw NoValidSuperblock
      | None, Some sb =>
          _ ←? r ← set_len (watermark sb); mret (map_err Io r);
          mret (ROk sb)
      end
  end.

(** [DiskEngine::open_on_with] *)
Definition open_on_with (vfs : V) (cache_budget : option Z) (policy : P)
    : outcome (Result E DiskError) :=
  '(r, vfs) ← recover vfs;
  match r with
  | RErr e => mret (RErr e)
  | ROk sb =>
      next_generation ← u64_add (Format.generation sb) 1;
      mret (ROk (mkDisk (sb_params sb) vfs [OnDisk (root_offset sb)] 0 (last_seq sb)
        next_generation (watermark sb) false
        (mkCache cache_budget 0 0 0 [] 0 0 0 0) {[root_offset sb := 0%nat]} 0 policy Recorder_default))
  end.
End commit.

(** The constructors over an arbitrary [Vfs]. *)
Section constructors.
Context {V : Type} `{Vfs V} `{Codec}.

(** [create_on], [create_on_bounded], [open_on], [open_on_bounded] *)
Definition create_on (vfs : V) (params : Params) := create_on_with vfs params None mkGreedyFullest.
Definition create_on_bounded (vfs : V) (params : Params) (cache_budget : Z) :=
  create_on_with vfs params (Some cache_budget) mkGreedyFullest.
Definition open_on (vfs : V) := open_on_with vfs None mkGreedyFullest.
Definition open_on_bounded (vfs : V) (cache_budget : Z) :=
  open_on_with vfs (Some cache_budget) mkGreedyFullest.

(** [create_on_with_policy] and [open_on_with_policy] *)
Definition create_on_with_policy {P} (vfs : V) (params : Params) (policy : P) :=
  create_on_with vfs params None policy.
Definition open_on_with_policy {P} (vfs : V) (policy : P) := open_on_with vfs None policy.
End constructors.
