(* ===== verification/DiskTree.v ===== *)
(** * The disk engine: the tree operations over slots ([src/disk.rs])

    The flush cascade, splits, reclamation and reads over lazily loaded
    slots, and the fallible and infallible public operations. *)

From S2P Require Export DiskCommit Check.
From stdpp Require Import options.
From Stdlib Require Import ZArith.

Module Disk.
Section tree.
Context {V P : Type} `{Vfs V} `{Codec} `{FlushPolicy P}.
Notation E := (DiskEngine V P).
Notation D A := (M E (Result A DiskError)).

(** [DiskEngine::split_leaf]: the entries are taken out of the node before
    its second [loaded_mut]. *)
Definition split_leaf (id : NodeId) : M E (list (Key * NodeId)) :=
  n ← loaded_mut id;
  match n with
  | Internal _ _ _ => lift Panic
  | Leaf entries =>
      _ ← put_loaded id (Leaf ∅);
      d ← get_;
      let items := bt_iter entries in
      sizes ← lift (partition_sizes (length items) (leaf_capacity (d_params d)));
      let pieces := take_pieces sizes items in
      first ← lift (expect (head pieces));
      _ ← loaded_mut id;
      _ ← put_loaded id (Leaf first);
      mapM (λ piece,
        kv ← lift (expect (bt_first_key_value piece));
        new_id ← alloc_dirty (Leaf piece);
        mret (kv.1, new_id)) (tail pieces)
  end.

(** [DiskEngine::split_internal] *)
Definition split_internal (id : NodeId) : M E (list (Key * NodeId)) :=
  n ← loaded_mut id;
  match n with
  | Leaf _ => lift Panic
  | Internal pivots children buffer =>
      _ ← put_loaded id (Internal [] [] ∅);
      d ← get_;
      sizes ← lift (partition_sizes (length children) (fanout (d_params d)));
      '(buffer, pieces_rev) ← lift (peel_pieces pivots children buffer sizes);
      size0 ← lift (expect (sizes !! 0));
      last0 ← lift (usize_sub size0 1);
      first_pivots ← lift (vec_slice 0 last0 pivots);
      first_children ← lift (vec_slice 0 size0 children);
      _ ← loaded_mut id;
      _ ← put_loaded id (Internal first_pivots first_children buffer);
      mapM (λ '(pivot, piece_pivots, piece_children, piece_buffer),
        new_id ← alloc_dirty (Internal piece_pivots piece_children piece_buffer);
        mret (pivot, new_id)) (rev pieces_rev)
  end.

(** [DiskEngine::split_if_needed] *)
Definition split_if_needed (id : NodeId) : M E (list (Key * NodeId)) :=
  n ← loaded id;
  d ← get_;
  match n with
  | Leaf entries =>
      if leaf_capacity (d_params d) <? bt_len entries then split_leaf id else mret []
  | Internal _ children _ =>
      if fanout (d_params d) <? length children then split_internal id else mret []
  end.

(** [DiskEngine::settle] *)
Definition settle (id : NodeId) : M E Outcome :=
  n ← loaded id;
  let splits := promoted ← split_if_needed id; mret (Splits promoted) in
  match n with
  | Internal _ [] buffer =>
      _ ← assert_ (bt_is_empty buffer);
      mret Removed
  | _ => splits
  end.

(** [DiskEngine::remove_child] *)
Definition remove_child (parent child : NodeId) : M E unit :=
  n ← loaded_mut parent;
  match n with
  | Leaf _ => lift Panic
  | Internal pivots children buffer =>
      at_ ← lift (expect (position child children));
      children ← lift (vec_remove at_ children);
      pivots ← lift (if 0 <? at_ then vec_remove (at_ - 1) pivots
                     else match pivots with
                          | [] => mret pivots
                          | _ => vec_remove 0 pivots
                          end);
      _ ← put_loaded parent (Internal pivots children buffer);
      release_slot child
  end.

(** [DiskEngine::buffer_len] *)
Definition buffer_len (id : NodeId) : M E nat :=
  n ← loaded id;
  match n with
  | Internal _ _ buffer => mret (bt_len buffer)
  | Leaf _ => lift Panic
  end.

(** [DiskEngine::integrate_splits] *)
Definition integrate_splits (id : NodeId) (promoted : list (Key * NodeId)) : M E unit :=
  match promoted with
  | [] => mret tt
  | _ =>
      n ← loaded_mut id;
      match n with
      | Leaf _ => lift Panic
      | Internal pivots children buffer =>
          '(pivots, children) ← lift (insert_promoted promoted (pivots, children));
          put_loaded id (Internal pivots children buffer)
      end
  end.

(** [DiskEngine::pick_and_extract]; the dirty flags of all children. *)
Definition pick_and_extract (id : NodeId) (depth : nat) (policy_mode : bool)
    : M E (nat * NodeId * list nat * BTreeMap Message) :=
  n ← loaded id;
  match n with
  | Leaf _ => lift Panic
  | Internal pivots children buffer =>
      d ← get_;
      '(occupancies, pending_bytes) ← lift (occupancies_of pivots children buffer);
      chosen ← if policy_mode then
          child_dirty ← mapM is_dirty children;
          let ctx := {|
            ctx_node := id;
            ctx_depth := depth;
            child_pending := occupancies;
            child_pending_bytes := pending_bytes;
            child_dirty := child_dirty;
            buffer_total := bt_len buffer;
            ctx_ops_since_commit := d_ops_since_commit d
          |} in
          '(chosen, policy) ← lift (Policy.choose (d_policy d) ctx);
          _ ← modify (set_d_policy policy);
          mret chosen
        else lift (pick occupancies);
      _ ← assert_ (match occupancies !! chosen with Some count => 0 <? count | None => false end);
      _ ← loaded_mut id;
      '(buffer, batch) ← lift (extract_batch pivots buffer chosen);
      _ ← put_loaded id (Internal pivots children buffer);
      child_id ← lift (expect (children !! chosen));
      mret (chosen, child_id, occupancies, batch)
  end.

(** [DiskEngine::apply_batch] *)
Definition apply_batch (child_id : NodeId) (batch : BTreeMap Message) (pins : list NodeId)
    (threshold : nat) : D Delivery :=
  _ ←? ensure_loaded child_id pins;
  n ← loaded_mut child_id;
  match n with
  | Leaf entries =>
      entries ← lift (ofold (λ entries '(key, message), apply_to_leaf entries key message)
        entries (bt_iter batch));
      _ ← put_loaded child_id (Leaf entries);
      mret (ROk (DLeaf (bt_is_empty entries)))
  | Internal pivots children buffer =>
      buffer ← lift (ofold (λ buffer '(key, message), coalesce_into buffer key message)
        buffer (bt_iter batch));
      _ ← put_loaded child_id (Internal pivots children buffer);
      mret (ROk (DInternal (threshold <? bt_len buffer)))
  end.

(** [DiskEngine::subtree_has_messages] *)
Definition subtree_has_messages (id : NodeId) (pins : list NodeId) : D bool :=
  loopM d_fuel (λ stack,
    match stack with
    | [] => mret (Break (ROk false))
    | n :: stack =>
        r ← ensure_loaded n pins;
        match r with
        | RErr e => mret (Break (RErr e))
        | ROk _ =>
            nd ← loaded n;
            match nd with
            | Internal _ children buffer =>
                if bt_is_empty buffer then mret (Continue (rev children ++ stack))
                else mret (Break (ROk true))
            | Leaf _ => mret (Continue stack)
            end
        end
    end) [id].

(** The child that a drain descends into, with [child] among the pins. *)
Fixpoint find_buffered_child (flushing children : list NodeId) : D (option NodeId) :=
  match children with
  | [] => mret (ROk None)
  | c :: children =>
      b ←? subtree_has_messages c (c :: flushing);
      if (b : bool) then mret (ROk (Some c)) else find_buffered_child flushing children
  end.

(** A step of a loop that an error leaves. *)
Definition try_step {L A B} (m : D B) (k : B → M E (ctl L (Result A DiskError)))
    : M E (ctl L (Result A DiskError)) :=
  r ← m;
  match r with ROk b => k b | RErr e => mret (Break (RErr e)) end.

(** One iteration of the loop of [flush_with]: [top :: rest] is the
    vector [flushing], whose last element is [top]. *)
Definition flush_step (threshold : nat) (trace_flushes : bool) (flushing : list NodeId)
    : M E (ctl (list NodeId) (Result Outcome DiskError)) :=
  match flushing with
  | [] => lift Panic
  | top :: rest =>
      len ← buffer_len top;
      if len <=? threshold then
        try_step (if threshold =? 0 then
            n ← loaded top;
            match n with
            | Internal _ children _ => find_buffered_child flushing children
            | Leaf _ => mret (ROk None)
            end
          else mret (ROk None)) (λ buffered_child,
        match buffered_child with
        | Some child => mret (Continue (child :: flushing))
        | None =>
            outcome ← settle top;
            match rest with
            | parent :: _ =>
                _ ← match outcome with
                    | Splits promoted => integrate_splits parent promoted
                    | Removed => remove_child parent top
                    end;
                mret (Continue rest)
            | [] => mret (Break (ROk outcome))
            end
        end)
      else
        let depth := length flushing - 1 in
        '(chosen, child_id, child_occupancies, batch) ← pick_and_extract top depth trace_flushes;
        _ ← if trace_flushes then
            modify (λ d, set_d_trace
              (Recorder_flush_decision (d_trace d) top child_occupancies chosen) d)
          else mret tt;
        try_step (apply_batch child_id batch flushing threshold) (λ delivery,
        match delivery with
        | DInternal true => mret (Continue (child_id :: flushing))
        | DInternal false | DLeaf false =>
            promoted ← split_if_needed child_id;
            _ ← integrate_splits top promoted;
            mret (Continue flushing)
        | DLeaf true =>
            _ ← remove_child top child_id;
            mret (Continue flushing)
        end)
  end.

(** [DiskEngine::flush_with] *)
Definition flush_with (id : NodeId) (threshold : nat) (trace_flushes : bool) : D Outcome :=
  loopM d_fuel (flush_step threshold trace_flushes) [id].

(** One iteration of the settling loop of [restore_root_with]. *)
Definition restore_step (threshold : nat) (trace_flushes : bool) (_ : unit)
    : M E (ctl unit (Result unit DiskError)) :=
  d ← get_;
  n ← loaded (d_root d);
  try_step (match n with
    | Internal _ _ _ => flush_with (d_root d) threshold trace_flushes
    | Leaf _ => promoted ← split_if_needed (d_root d); mret (ROk (Splits promoted))
    end) (λ outcome,
  match outcome with
  | Removed =>
      d ← get_;
      let old_root := d_root d in
      id ← alloc_dirty (Leaf ∅);
      _ ← modify (set_d_root id);
      _ ← release_slot old_root;
      mret (Break (ROk tt))
  | Splits [] => mret (Break (ROk tt))
  | Splits promoted =>
      d ← get_;
      let pivots := promoted.*1 in
      let children := d_root d :: promoted.*2 in
      id ← alloc_dirty (Internal pivots children ∅);
      _ ← modify (set_d_root id);
      mret (Continue tt)
  end).

(** One iteration of the root-collapse loop. *)
Definition collapse_step (_ : unit) : M E (ctl unit (Result unit DiskError)) :=
  d ← get_;
  n ← loaded (d_root d);
  match n with
  | Internal _ [child] buffer =>
      if bt_is_empty buffer then
        let old_root := d_root d in
        _ ← modify (set_d_root child);
        _ ← release_slot old_root;
        try_step (ensure_loaded child []) (λ _, mret (Continue tt))
      else mret (Break (ROk tt))
  | _ => mret (Break (ROk tt))
  end.

(** [DiskEngine::restore_root_with] *)
Definition restore_root_with (threshold : nat) (trace_flushes : bool) : D unit :=
  _ ←? loopM d_fuel (restore_step threshold trace_flushes) tt;
  loopM d_fuel collapse_step tt.

(** [DiskEngine::restore_root] *)
Definition restore_root : D unit :=
  d ← get_;
  restore_root_with (buffer_capacity (d_params d)) true.

(** [DiskEngine::drain] *)
Definition drain : D unit :=
  d ← get_;
  _ ←? ensure_loaded (d_root d) [];
  poisoning (restore_root_with 0 false).

(** [DiskEngine::apply_root] *)
Definition apply_root (key : Key) (message : Message) : D unit :=
  d ← get_;
  n ← loaded_mut (d_root d);
  _ ← match n with
      | Leaf entries =>
          entries ← lift (apply_to_leaf entries key message);
          put_loaded (d_root d) (Leaf entries)
      | Internal pivots children buffer =>
          buffer ← lift (coalesce_into buffer key message);
          put_loaded (d_root d) (Internal pivots children buffer)
      end;
  poisoning restore_root.

(** The shared head of the mutating ops. *)
Definition next_op (op : OpKind2) : D Z :=
  d ← get_;
  _ ←? ensure_loaded (d_root d) [];
  d ← get_;
  seq ← lift (u64_add (d_next_seq d) 1);
  _ ← modify (set_d_next_seq seq);
  ops ← lift (u64_add (d_ops_since_commit d) 1);
  _ ← modify (set_d_ops ops);
  _ ← modify (λ d, set_d_trace (Recorder_op (d_trace d) seq op) d);
  mret (ROk seq).

(** [DiskEngine::try_insert], [try_delete], [try_upsert] *)
Definition try_insert (key : Key) (value : Value) : D unit :=
  seq ←? next_op (Insert2 key value);
  apply_root key (Put seq value).
Definition try_delete (key : Key) : D unit :=
  seq ←? next_op (Delete2 key);
  apply_root key (Delete seq).
Definition try_upsert (key : Key) (op : UpsertOp) : D unit :=
  seq ←? next_op (Upsert2 key op);
  apply_root key (Upsert seq op).

(** One iteration of the loop of [try_get]. *)
Definition get_step (key : Key) : option Z * NodeId →
    M E (ctl (option Z * NodeId) (Result (option Value) DiskError)) := λ '(chain, id),
  try_step (ensure_loaded id []) (λ _,
  n ← loaded id;
  match n with
  | Internal pivots children buffer =>
      let descend chain :=
        id ← lift (expect (children !! route pivots key));
        mret (Continue (chain, id)) in
      match buffer !! key with
      | Some (Put _ value) => mret (Break (ROk (apply_chain chain (Some value))))
      | Some (Delete _) => mret (Break (ROk (apply_chain chain None)))
      | Some (Upsert _ (Add delta)) => descend (Some (i64_wrapping_add (default 0%Z chain) delta))
      | None => descend chain
      end
  | Leaf entries => mret (Break (ROk (apply_chain chain (le_value <$> entries !! key))))
  end).

(** [DiskEngine::try_get] *)
Definition try_get (key : Key) : D (option Value) :=
  _ ← modify (λ d, set_d_trace (Recorder_get (d_trace d) key) d);
  d ← get_;
  loopM d_fuel (get_step key) (None, d_root d).

(** One iteration of the loop of [try_scan]; the pins are the ids of the
    frames. *)
Definition scan_step (stack : list BeTree.Frame)
    : M E (ctl (list BeTree.Frame) (Result (list (Key * Value)) DiskError)) :=
  match stack with
  | [] => lift Panic
  | frame :: rest =>
      let pins := map fr_id stack in
      n ← loaded (fr_id frame);
      match n with
      | Leaf _ => lift Panic
      | Internal pivots children buffer =>
          let i := fr_next_child frame in
          if i <? length children then
            let frame := mkFrame (fr_id frame) (fr_lo frame) (fr_hi frame) (i + 1) (fr_acc frame) in
            c_lo ← lift (clip_child_lo pivots i (fr_lo frame));
            c_hi ← lift (clip_child_hi pivots i (fr_hi frame));
            if range_is_empty c_lo c_hi then mret (Continue (frame :: rest))
            else
              child ← lift (expect (children !! i));
              try_step (ensure_loaded child pins) (λ _,
              nd ← loaded child;
              match nd with
              | Leaf entries =>
                  l ← lift (bt_range entries c_lo c_hi);
                  mret (Continue (mkFrame (fr_id frame) (fr_lo frame) (fr_hi frame)
                    (fr_next_child frame) (insert_entries (fr_acc frame) l) :: rest))
              | Internal _ _ _ =>
                  mret (Continue (mkFrame child c_lo c_hi 0 ∅ :: frame :: rest))
              end)
          else
            l ← lift (bt_range buffer (fr_lo frame) (fr_hi frame));
            let acc := apply_messages (fr_acc frame) l in
            match rest with
            | parent :: rest =>
                mret (Continue (mkFrame (fr_id parent) (fr_lo parent) (fr_hi parent)
                  (fr_next_child parent) (bt_append (fr_acc parent) acc) :: rest))
            | [] => mret (Break (ROk (bt_iter acc)))
            end
      end
  end.

(** [DiskEngine::try_scan] *)
Definition try_scan (lo hi : Bound) : D (list (Key * Value)) :=
  _ ← modify (λ d, set_d_trace (Recorder_scan (d_trace d) lo hi) d);
  if range_is_empty lo hi then mret (ROk [])
  else
    d ← get_;
    _ ←? ensure_loaded (d_root d) [];
    n ← loaded (d_root d);
    match n with
    | Leaf entries =>
        l ← lift (bt_range entries lo hi);
        mret (ROk (map (λ '(k, e), (k, le_value e)) l))
    | Internal _ _ _ => loopM d_fuel scan_step [mkFrame (d_root d) lo hi 0 ∅]
    end.

(** [DiskEngine::load_all] *)
Definition load_all : D unit :=
  d ← get_;
  loopM d_fuel (λ stack,
    match stack with
    | [] => mret (Break (ROk tt))
    | id :: stack =>
        try_step (ensure_loaded id []) (λ _,
        n ← loaded id;
        match n with
        | Internal _ children _ => mret (Continue (rev children ++ stack))
        | Leaf _ => mret (Continue stack)
        end)
    end) [d_root d].

(** [DiskEngine::live_walk], [live_bytes] and [live_node_count] *)
Definition live_walk : D (Z * Z) :=
  d ← get_;
  loopM d_fuel (λ '(nodes, bytes, stack),
    match stack with
    | [] => mret (Break (ROk (nodes, bytes)))
    | id :: stack =>
        try_step (ensure_loaded id []) (λ _,
        nodes ← lift (u64_add nodes 1);
        s ← slot id;
        bytes ← match s with
          | Loaded _ _ _ b _ => lift (u64_add bytes b)
          | _ => mret bytes
          end;
        n ← loaded id;
        match n with
        | Internal _ children _ => mret (Continue (nodes, bytes, rev children ++ stack))
        | Leaf _ => mret (Continue (nodes, bytes, stack))
        end)
    end) (0%Z, 0%Z, [d_root d]).
Definition live_bytes : D Z := '(_, bytes) ←? live_walk; mret (ROk bytes).
Definition live_node_count : D Z := '(nodes, _) ←? live_walk; mret (ROk nodes).

(** [DiskEngine::height] *)
Definition height : D nat :=
  d ← get_;
  _ ←? ensure_loaded (d_root d) [];
  loopM d_fuel (λ '(height, id),
    n ← loaded id;
    match n with
    | Internal _ children _ =>
        id ← lift (expect (children !! 0));
        try_step (ensure_loaded id []) (λ _, mret (Continue (height + 1, id)))
    | Leaf _ => mret (Break (ROk height))
    end) (1, d_root d).

(** [impl NodeSource for DiskEngine]: only resident nodes can be seen. *)
#[export] Instance DiskEngine_source : NodeSource E := {|
  src_root := d_root;
  src_params := d_params;
  src_node d id := s ← expect (d_slots d !! id);
    match s with Loaded n _ _ _ _ => mret n | OnDisk _ | Freed => Panic end;
  src_fuel := d_fuel;
|}.

(** The re-stamping loop of [check_invariants_full]. *)
Fixpoint restamp (ids : list NodeId) : M E unit :=
  match ids with
  | [] => mret tt
  | id :: ids =>
      s ← slot id;
      _ ← match s with Loaded _ _ _ _ _ => touch id | _ => mret tt end;
      restamp ids
  end.

(** [DiskEngine::check_invariants_full] *)
Definition check_invariants_full : M E (Result unit InvariantViolation) :=
  d ← get_;
  let budget := c_budget (d_cache d) in
  _ ← modify (on_cache (set_c_budget None));
  r ← load_all;
  _ ← match r with ROk _ => mret tt | RErr _ => lift Panic end;
  d ← get_;
  result ← lift (check_invariants d);
  _ ← modify (on_cache (set_c_budget budget));
  _ ← match budget with
      | Some _ => d ← get_; restamp (seq 0 (length (d_slots d)))
      | None => mret tt
      end;
  _ ← enforce_budget [] None;
  mret result.

(** [.expect("storage failure ..")] *)
Definition unwrap {A} (m : D A) : M E A :=
  r ← m; match r with ROk a => mret a | RErr _ => lift Panic end.

(** [impl KvEngine for DiskEngine] *)
#[export] Instance engine : KvEngine E := {|
  kv_new _ := Panic;
  kv_insert key value := unwrap (try_insert key value);
  kv_delete key := unwrap (try_delete key);
  kv_upsert key op := unwrap (try_upsert key op);
  kv_get key := unwrap (try_get key);
  kv_scan lo hi := r ← try_scan lo hi; mret (map_err Storage r);
  kv_check_invariants d := check_invariants d;
  kv_trace d := rec_v1 (d_trace d);
  kv_trace2 d := rec_v2 (d_trace d);
|}.
End tree.
End Disk.
