(* ===== verification/Stored.v ===== *)
(** * Trees in a file

    Node records in a file image, the tree that a record stores, and the
    superblock that recovery chooses. *)

From S2P Require Export Device DiskCommit Tree.
From stdpp Require Import options.
From Stdlib Require Import ZArith.

Local Open Scope Z_scope.

Section records.
Context `{Codec}.

(** ** Records *)

(** The image [buf] holds, in its first [w] bytes, the record of [node] at
    [off], with a payload of [len] bytes. *)
Definition holds_record (buf : list byte) (w off : Z) (node : DiskNode) (len : Z) : Prop :=
  DATA_START ≤ off ∧ ∃ payload, bytes_at buf off (record_bytes payload) ∧
    decode_node payload = ROk node ∧ len = Z.of_nat (length payload) ∧ len ≤ u32_max ∧
    off + RECORD_HEADER_SIZE + len ≤ w.

Lemma length_record_bytes payload : length (record_bytes payload) = (8 + length payload)%nat.
Proof. unfold record_bytes. rewrite !length_app !length_le_encode. lia. Qed.

(** The header determines the record. *)
Lemma record_header buf off payload :
  bytes_at buf off (record_bytes payload) → Z.of_nat (length payload) ≤ u32_max → ∀ b_len,
  bytes_at buf off b_len → length b_len = 4%nat → le_decode b_len = Z.of_nat (length payload).
Proof.
  intros Hb Hmax b_len Hl H4. unfold record_bytes in Hb. apply bytes_at_app in Hb as [Hb _].
  assert (b_len = le_encode 4 (Z.of_nat (length payload))) as ->.
  { eapply bytes_at_unique; [done|done|]. by rewrite H4 length_le_encode. }
  rewrite le_decode_encode. apply Z.mod_small. unfold u32_max in Hmax. simpl Z.of_nat. lia.
Qed.

Lemma holds_record_fun buf w w' off node node' len len' :
  holds_record buf w off node len → holds_record buf w' off node' len' → node' = node ∧ len' = len.
Proof.
  intros (_ & p & Hp & Hd & -> & Hm & _) (_ & p' & Hp' & Hd' & -> & Hm' & _).
  assert (length p' = length p) as Hl.
  { pose proof Hp as Hh. unfold record_bytes in Hh. apply bytes_at_app in Hh as [Hh _].
    pose proof (record_header _ _ _ Hp Hm _ Hh) as E1. pose proof (record_header _ _ _ Hp' Hm' _ Hh) as E2.
    rewrite length_le_encode in E1 E2. specialize (E1 eq_refl). specialize (E2 eq_refl). lia. }
  assert (p' = p) as E; [|subst p'; split; congruence].
  unfold record_bytes in Hp, Hp'. rewrite !app_assoc in Hp Hp'.
  apply bytes_at_app in Hp as [_ Hp]. apply bytes_at_app in Hp' as [_ Hp'].
  rewrite !length_app !length_le_encode in Hp Hp'. by eapply bytes_at_unique.
Qed.

(** Images that agree below [w]. *)
Definition agree_below (w : Z) (buf buf' : list byte) : Prop :=
  w ≤ Z.of_nat (length buf') ∧ ∀ i, DATA_START ≤ Z.of_nat i < w → buf' !! i = buf !! i.

Lemma holds_record_agree buf buf' w w' off node len :
  agree_below w buf buf' → w ≤ w' → holds_record buf w off node len → holds_record buf' w' off node len.
Proof.
  intros [Hl Ha] Hw (H0 & p & Hp & Hd & -> & Hm & Hle). split; [done|]. exists p.
  split_and!; [|done|done|done|lia]. unfold RECORD_HEADER_SIZE in *.
  eapply bytes_at_agree; [done|right; rewrite length_record_bytes; lia|].
  assert (0 ≤ DATA_START) by done.
  intros i Hi. rewrite length_record_bytes in Hi. apply Ha. lia.
Qed.

(** ** Stored trees *)

(** The record at [off] stores the tree [t] (labels apart): the records of
    the children lie below, and [Q] holds of every record's offset. *)
Local Unset Elimination Schemes.
Inductive stored (Q : Z → Prop) (buf : list byte) (w : Z) : tree → Z → Prop :=
  | stored_leaf id e off len :
      Q off → holds_record buf w off (DiskLeaf e) len → stored Q buf w (TLeaf id e) off
  | stored_int id ps ks b offs off len :
      Q off → holds_record buf w off (DiskInternal ps offs b) len →
      length offs = S (length ps) → Forall (λ o, DATA_START ≤ o < off) offs →
      Forall2 (stored Q buf w) ks offs → stored Q buf w (TInt id ps ks b) off.

Local Set Elimination Schemes.

Lemma stored_record Q buf w t off :
  stored Q buf w t off → Q off ∧ ∃ node len, holds_record buf w off node len ∧
    match t, node with
    | TLeaf _ e, DiskLeaf e' => e' = e
    | TInt _ ps ks b, DiskInternal ps' offs b' => ps' = ps ∧ b' = b ∧
        length offs = S (length ps) ∧ Forall (λ o, DATA_START ≤ o < off) offs ∧
        Forall2 (stored Q buf w) ks offs
    | _, _ => False
    end.
Proof. destruct 1; (split; [done|]); eexists _, _; split; try done; naive_solver. Qed.

Lemma stored_impl (Q Q' : Z → Prop) buf buf' w w' t off :
  (∀ o, o ≤ off → Q o → Q' o) → agree_below w buf buf' → w ≤ w' →
  stored Q buf w t off → stored Q' buf' w' t off.
Proof.
  intros HQ Ha Hw. revert off HQ.
  induction t as [id e|id ps ks b IH] using tree_nested_ind; intros off HQ Hst; inversion Hst; subst.
  - econstructor; [by apply HQ|by eapply holds_record_agree].
  - econstructor; [by apply HQ|by eapply holds_record_agree|done|done|].
    match goal with Hk : Forall2 _ ks _ |- _ => rename Hk into Hks end.
    match goal with Hk : Forall _ offs |- _ => rename Hk into Hoffs end.
    apply Forall2_lookup. intros i.
    pose proof (Forall2_length _ _ _ Hks) as Hl.
    destruct (ks !! i) as [c|] eqn:Ec; destruct (offs !! i) as [o|] eqn:Eo; try constructor;
      [|apply lookup_lt_Some in Ec; apply lookup_ge_None_1 in Eo; lia
       |apply lookup_lt_Some in Eo; apply lookup_ge_None_1 in Ec; lia].
    rewrite Forall_forall in IH. apply (IH c); [by eapply list_elem_of_lookup_2| |].
    + intros o' Ho'. apply HQ. eapply Forall_lookup_1 in Hoffs; [|exact Eo]. lia.
    + by eapply Forall2_lookup_lr.
Qed.

Lemma stored_weaken (Q Q' : Z → Prop) buf w t off :
  (∀ o, o ≤ off → Q o → Q' o) → w ≤ Z.of_nat (length buf) → stored Q buf w t off → stored Q' buf w t off.
Proof. intros HQ Hl. apply stored_impl; [done|by split|done]. Qed.

(** ** Trees laid out without sharing *)

(** The offsets of the records of the tree [t] at [off]. *)
Local Unset Elimination Schemes.
Inductive spread (buf : list byte) (w : Z) : tree → Z → list Z → Prop :=
  | spread_leaf id e off len :
      holds_record buf w off (DiskLeaf e) len → spread buf w (TLeaf id e) off [off]
  | spread_int id ps ks b offs off len ls :
      holds_record buf w off (DiskInternal ps offs b) len →
      Forall3 (spread buf w) ks offs ls → spread buf w (TInt id ps ks b) off (off :: concat ls).
Local Set Elimination Schemes.

Lemma Forall3_impl_Forall {A B C} (R R' : A → B → C → Prop) l k k' :
  Forall (λ x, ∀ y z, R x y z → R' x y z) l → Forall3 R l k k' → Forall3 R' l k k'.
Proof. intros Hl H3. induction H3; decompose_Forall_hyps; constructor; auto. Qed.

Lemma spread_agree buf buf' w w' t off l :
  agree_below w buf buf' → w ≤ w' → spread buf w t off l → spread buf' w' t off l.
Proof.
  intros Ha Hw. revert off l. induction t as [id e|id ps ks b IH] using tree_nested_ind; intros off l Hs;
    inversion Hs; subst; econstructor; (try by eapply holds_record_agree). by eapply Forall3_impl_Forall.
Qed.

(** The tree [t] at [off], no two of its nodes in the same record. *)
Definition laid (buf : list byte) (w : Z) (t : tree) (off : Z) : Prop :=
  stored (λ _, True) buf w t off ∧ ∃ l, spread buf w t off l ∧ NoDup l.

Lemma laid_agree buf buf' w w' t off :
  agree_below w buf buf' → w ≤ w' → laid buf w t off → laid buf' w' t off.
Proof.
  intros Ha Hw [Hs (l & Hl & Hnd)]. split; [by eapply stored_impl|]. exists l. split; [by eapply spread_agree|done].
Qed.
End records.
