(* ===== verification/ReadOnly.v ===== *)
(** * What the operations of the disk engine never do

    Apart from [commit], no operation calls the [Vfs] for anything but a
    read, and none moves the watermark, the generation or the params, or
    forgets that the engine is poisoned.  Proved operation by operation,
    through the hint database [reads_only]. *)

From S2P Require Export DiskTree.
From stdpp Require Import options.
From Stdlib Require Import ZArith.

(** The states of a device that reads alone can lead to. *)
Definition read_step `{Vfs V} (v v' : V) : Prop :=
  ∃ off len r, read_exact_at off len v = Ok (r, v').
Definition only_read `{Vfs V} : V → V → Prop := rtc read_step.

Create HintDb reads_only.

Section reads_only.
Context {V P : Type} `{Vfs V} `{Codec} `{FlushPolicy P}.
Notation E := (DiskEngine V P).
Notation D A := (M E (Result A DiskError)).
Implicit Types d : E.

Record reading d d' : Prop := {
  rd_vfs : only_read (d_vfs d) (d_vfs d');
  rd_watermark : d_watermark d' = d_watermark d;
  rd_generation : d_next_generation d' = d_next_generation d;
  rd_params : d_params d' = d_params d;
  rd_poisoned : d_poisoned d = true → d_poisoned d' = true;
}.

#[export] Instance reading_po : PreOrder reading.
Proof.
  split.
  - intros d. by split.
  - intros d1 d2 d3 [] []. split; [by etrans|congruence..|auto].
Qed.

Record reads_only {A} (m : M E A) : Prop := {
  ro_run d a d' : m d = Ok (a, d') → reading d d';
}.

(** ** The combinators *)
Lemma ro_ret {A} (a : A) : reads_only (mret a).
Proof. split. by intros d ? ? [= <- <-]. Qed.

Lemma ro_bind {A B} (m : M E A) (k : A → M E B) :
  reads_only m → (∀ a, reads_only (k a)) → reads_only (m ≫= k).
Proof.
  intros Hm Hk. split. intros d b d' Hrun. unfold mbind, M_bind in Hrun.
  destruct (m d) as [[a d1]| | |] eqn:E1; [|done..].
  transitivity d1; [by eapply (ro_run _ Hm)|by eapply (ro_run _ (Hk a))].
Qed.

Lemma ro_get : reads_only get_.
Proof. split. by intros d ? ? [= <- <-]. Qed.

Lemma ro_lift {A} (o : outcome A) : reads_only (lift o).
Proof. split. intros d a d' Hr. unfold lift in Hr. destruct o; by simplify_eq. Qed.

Lemma ro_modify (f : E → E) : (∀ d, reading d (f d)) → reads_only (modify f).
Proof. intros Hf. split. intros d a d' [= <- <-]. apply Hf. Qed.

Lemma ro_read off len : reads_only (on_vfs (V := V) (P := P) (read_exact_at off len)).
Proof.
  split. intros d r d' Hr. unfold on_vfs in Hr. destruct (read_exact_at off len (d_vfs d)) as [[r' v]| | |] eqn:Er; [|done..].
  simpl in Hr. injection Hr as <- <-. split; try done. apply rtc_once. by exists off, len, r'.
Qed.

Lemma ro_loopM {L A} (fuel : E → nat) (body : L → M E (ctl L A)) l :
  (∀ l, reads_only (body l)) → reads_only (loopM fuel body l).
Proof.
  intros Hb.
  assert (∀ n l, reads_only (loop2 n body l)) as Hl.
  { induction n as [|n IH]; intros l0; [apply Hb|]. apply ro_bind; [apply IH|].
    intros [l1|a]; [apply IH|apply ro_ret]. }
  split. intros d a d' Hr. unfold loopM in Hr. destruct (loop2 (fuel d) body l d) as [[[l'|a'] d1]| | |] eqn:E1; [done| |done..].
  injection Hr as <- <-. by eapply (ro_run _ (Hl _ _)).
Qed.

Lemma ro_mapM {A B} (f : A → M E B) l : (∀ a, reads_only (f a)) → reads_only (mapM f l).
Proof.
  intros Hf. induction l as [|a l IH]; [apply ro_ret|]. apply ro_bind; [apply Hf|].
  intros b. apply ro_bind; [apply IH|]. intros bs. apply ro_ret.
Qed.

Lemma ro_try {A B} (m : D A) (k : A → D B) : reads_only m → (∀ a, reads_only (k a)) → reads_only (try_ m k).
Proof. intros Hm Hk. apply ro_bind; [done|]. intros [a|e]; [apply Hk|apply ro_ret]. Qed.

Lemma ro_fine {A} (m : M E A) : reads_only m → reads_only (fine (E := DiskError) m).
Proof. intros Hm. apply ro_bind; [done|]. intros a. apply ro_ret. Qed.

Lemma ro_try_step {L A B} (m : D B) (k : B → M E (ctl L (Result A DiskError))) :
  reads_only m → (∀ b, reads_only (k b)) → reads_only (Disk.try_step m k).
Proof. intros Hm Hk. apply ro_bind; [done|]. intros [b|e]; [apply Hk|apply ro_ret]. Qed.

Lemma ro_poisoning {A} (m : D A) : reads_only m → reads_only (poisoning m).
Proof.
  intros Hm. apply ro_bind; [done|]. intros r. apply ro_bind; [|intros; apply ro_ret].
  destruct r; [apply ro_ret|]. apply ro_modify. intros d. by split.
Qed.
End reads_only.

#[export] Hint Resolve ro_ret ro_get ro_lift ro_read : reads_only.

(** One step into the body of an operation. *)
Ltac ro_step :=
  first
    [ solve [auto with reads_only nocore]
    | progress cbv beta zeta
    | match goal with
      | |- reads_only (try_ _ _) => apply ro_try; [|intros ?]
      | |- reads_only (Disk.try_step _ _) => apply ro_try_step; [|intros ?]
      | |- reads_only (fine _) => apply ro_fine
      | |- reads_only (assert_ _) => apply ro_lift
      | |- reads_only (mbind _ _) => apply ro_bind; [|intros ?]
      | |- reads_only (modify _) => apply ro_modify; intros ?; solve [by split]
      | |- reads_only (mapM _ _) => apply ro_mapM; intros ?
      | |- reads_only (loopM _ _ _) => apply ro_loopM; intros ?
      | |- reads_only (poisoning _) => apply ro_poisoning
      | |- reads_only (match ?x with _ => _ end) => destruct x
      end ].
Ltac ro := repeat ro_step.

Section operations.
Context {V P : Type} `{Vfs V} `{Codec} `{FlushPolicy P}.
Notation E := (DiskEngine V P).
Notation ro m := (reads_only (V := V) (P := P) m).

Lemma ro_slot id : ro (slot id).
Proof. unfold slot. ro. Qed.
#[local] Hint Resolve ro_slot : reads_only.
Lemma ro_put_slot id s : ro (put_slot id s).
Proof. unfold put_slot. ro. Qed.
#[local] Hint Resolve ro_put_slot : reads_only.
Lemma ro_touch id : ro (touch id).
Proof. unfold touch. ro. Qed.
#[local] Hint Resolve ro_touch : reads_only.
Lemma ro_enforce_step pins j id tick : ro (enforce_step pins j id tick).
Proof. unfold enforce_step. ro. Qed.
#[local] Hint Resolve ro_enforce_step : reads_only.
Lemma ro_enforce_loop pins j budget n : ro (enforce_loop pins j budget n).
Proof. induction n; cbn [enforce_loop]; ro. Qed.
#[local] Hint Resolve ro_enforce_loop : reads_only.
Lemma ro_enforce_budget pins j : ro (enforce_budget pins j).
Proof. unfold enforce_budget. ro. Qed.
#[local] Hint Resolve ro_enforce_budget : reads_only.
Lemma ro_account bytes : ro (account bytes).
Proof. unfold account. ro. Qed.
#[local] Hint Resolve ro_account : reads_only.
Lemma ro_alloc_dirty n : ro (alloc_dirty n).
Proof. unfold alloc_dirty. ro. Qed.
#[local] Hint Resolve ro_alloc_dirty : reads_only.
Lemma ro_alloc_on_disk o : ro (alloc_on_disk o).
Proof. unfold alloc_on_disk. ro. Qed.
#[local] Hint Resolve ro_alloc_on_disk : reads_only.
Lemma ro_release_slot id : ro (release_slot id).
Proof. unfold release_slot. ro. Qed.
#[local] Hint Resolve ro_release_slot : reads_only.
Lemma ro_is_dirty id : ro (is_dirty id).
Proof. unfold is_dirty. ro. Qed.
#[local] Hint Resolve ro_is_dirty : reads_only.
Lemma ro_loaded id : ro (loaded id).
Proof. unfold loaded. ro. Qed.
#[local] Hint Resolve ro_loaded : reads_only.
Lemma ro_loaded_mut id : ro (loaded_mut id).
Proof. unfold loaded_mut. ro. Qed.
#[local] Hint Resolve ro_loaded_mut : reads_only.
Lemma ro_put_loaded id n : ro (put_loaded id n).
Proof. unfold put_loaded. ro. Qed.
#[local] Hint Resolve ro_put_loaded : reads_only.

Lemma ro_throw {A} (e : DiskError) : ro (throw (A := A) e).
Proof. unfold throw. ro. Qed.
#[local] Hint Resolve ro_throw : reads_only.

Lemma ro_read_record o : ro (read_record o).
Proof. unfold read_record. ro. Qed.
#[local] Hint Resolve ro_read_record : reads_only.
Lemma ro_adopt_record o n : ro (adopt_record o n).
Proof. unfold adopt_record, intern_children. ro. Qed.
#[local] Hint Resolve ro_adopt_record : reads_only.
Lemma ro_ensure_loaded id pins : ro (ensure_loaded id pins).
Proof. unfold ensure_loaded. ro. Qed.
#[local] Hint Resolve ro_ensure_loaded : reads_only.
Lemma ro_split_leaf id : ro (Disk.split_leaf id).
Proof. unfold Disk.split_leaf. ro. Qed.
#[local] Hint Resolve ro_split_leaf : reads_only.
Lemma ro_split_internal id : ro (Disk.split_internal id).
Proof. unfold Disk.split_internal. ro. Qed.
#[local] Hint Resolve ro_split_internal : reads_only.
Lemma ro_split_if_needed id : ro (Disk.split_if_needed id).
Proof. unfold Disk.split_if_needed. ro. Qed.
#[local] Hint Resolve ro_split_if_needed : reads_only.
Lemma ro_settle id : ro (Disk.settle id).
Proof. unfold Disk.settle. ro. Qed.
#[local] Hint Resolve ro_settle : reads_only.
Lemma ro_remove_child id c : ro (Disk.remove_child id c).
Proof. unfold Disk.remove_child. ro. Qed.
#[local] Hint Resolve ro_remove_child : reads_only.
Lemma ro_buffer_len id : ro (Disk.buffer_len id).
Proof. unfold Disk.buffer_len. ro. Qed.
#[local] Hint Resolve ro_buffer_len : reads_only.
Lemma ro_integrate_splits id ps : ro (Disk.integrate_splits id ps).
Proof. unfold Disk.integrate_splits. ro. Qed.
#[local] Hint Resolve ro_integrate_splits : reads_only.
Lemma ro_pick_and_extract id n b : ro (Disk.pick_and_extract id n b).
Proof. unfold Disk.pick_and_extract. ro. Qed.
#[local] Hint Resolve ro_pick_and_extract : reads_only.
Lemma ro_apply_batch id b pins n : ro (Disk.apply_batch id b pins n).
Proof. unfold Disk.apply_batch. ro. Qed.
#[local] Hint Resolve ro_apply_batch : reads_only.
Lemma ro_subtree_has_messages id pins : ro (Disk.subtree_has_messages id pins).
Proof. unfold Disk.subtree_has_messages. ro. Qed.
#[local] Hint Resolve ro_subtree_has_messages : reads_only.
Lemma ro_find_buffered_child pins cs : ro (Disk.find_buffered_child pins cs).
Proof. induction cs; cbn [Disk.find_buffered_child]; ro. Qed.
#[local] Hint Resolve ro_find_buffered_child : reads_only.
Lemma ro_flush_step n b l : ro (Disk.flush_step n b l).
Proof. unfold Disk.flush_step. ro. Qed.
#[local] Hint Resolve ro_flush_step : reads_only.
Lemma ro_flush_with id n b : ro (Disk.flush_with id n b).
Proof. unfold Disk.flush_with. ro. Qed.
#[local] Hint Resolve ro_flush_with : reads_only.
Lemma ro_restore_step n b u : ro (Disk.restore_step n b u).
Proof. unfold Disk.restore_step. ro. Qed.
#[local] Hint Resolve ro_restore_step : reads_only.
Lemma ro_collapse_step u : ro (Disk.collapse_step u).
Proof. unfold Disk.collapse_step. ro. Qed.
#[local] Hint Resolve ro_collapse_step : reads_only.
Lemma ro_restore_root_with n b : ro (Disk.restore_root_with n b).
Proof. unfold Disk.restore_root_with. ro. Qed.
#[local] Hint Resolve ro_restore_root_with : reads_only.
Lemma ro_restore_root : ro Disk.restore_root.
Proof. unfold Disk.restore_root. ro. Qed.
Lemma ro_drain : ro Disk.drain.
Proof. unfold Disk.drain. ro. Qed.
#[local] Hint Resolve ro_drain : reads_only.
Lemma ro_apply_root k m : ro (Disk.apply_root k m).
Proof. unfold Disk.apply_root. ro; apply ro_restore_root. Qed.
#[local] Hint Resolve ro_apply_root : reads_only.
Lemma ro_next_op op : ro (Disk.next_op op).
Proof. unfold Disk.next_op. ro. Qed.
#[local] Hint Resolve ro_next_op : reads_only.
Lemma ro_try_insert k v : ro (Disk.try_insert k v).
Proof. unfold Disk.try_insert. ro. Qed.
#[local] Hint Resolve ro_try_insert : reads_only.
Lemma ro_try_delete k : ro (Disk.try_delete k).
Proof. unfold Disk.try_delete. ro. Qed.
#[local] Hint Resolve ro_try_delete : reads_only.
Lemma ro_try_upsert k op : ro (Disk.try_upsert k op).
Proof. unfold Disk.try_upsert. ro. Qed.
#[local] Hint Resolve ro_try_upsert : reads_only.
Lemma ro_get_step k l : ro (Disk.get_step k l).
Proof. unfold Disk.get_step. ro. Qed.
#[local] Hint Resolve ro_get_step : reads_only.
Lemma ro_try_get k : ro (Disk.try_get k).
Proof. unfold Disk.try_get. ro. Qed.
#[local] Hint Resolve ro_try_get : reads_only.
Lemma ro_scan_step l : ro (Disk.scan_step l).
Proof. unfold Disk.scan_step. ro. Qed.
#[local] Hint Resolve ro_scan_step : reads_only.
Lemma ro_try_scan lo hi : ro (Disk.try_scan lo hi).
Proof. unfold Disk.try_scan. ro. Qed.
#[local] Hint Resolve ro_try_scan : reads_only.
Lemma ro_load_all : ro Disk.load_all.
Proof. unfold Disk.load_all. ro. Qed.
#[local] Hint Resolve ro_load_all : reads_only.
Lemma ro_live_walk : ro Disk.live_walk.
Proof. unfold Disk.live_walk. ro. Qed.
#[local] Hint Resolve ro_live_walk : reads_only.
Lemma ro_height : ro Disk.height.
Proof. unfold Disk.height. ro. Qed.
#[local] Hint Resolve ro_height : reads_only.
Lemma ro_restamp ids : ro (Disk.restamp ids).
Proof. induction ids; cbn [Disk.restamp]; ro. Qed.
#[local] Hint Resolve ro_restamp : reads_only.
Lemma ro_check_invariants_full : ro Disk.check_invariants_full.
Proof. unfold Disk.check_invariants_full. ro. Qed.
#[local] Hint Resolve ro_check_invariants_full : reads_only.
End operations.

(** ** Histories without a commit *)

(** The calls other than [commit]. *)
Inductive DiskCall : Type :=
  | CallInsert (key : Key) (value : Value)
  | CallDelete (key : Key)
  | CallUpsert (key : Key) (op : UpsertOp)
  | CallGet (key : Key)
  | CallScan (lo hi : Bound)
  | CallDrain
  | CallHeight
  | CallLiveWalk
  | CallCheckFull.

Section calls.
Context {V P : Type} `{Vfs V} `{Codec} `{FlushPolicy P}.
Notation E := (DiskEngine V P).

(** One call, its reply dropped. *)
Definition run_disk_call (c : DiskCall) : M E unit :=
  match c with
  | CallInsert key value => _ ← Disk.try_insert key value; mret tt
  | CallDelete key => _ ← Disk.try_delete key; mret tt
  | CallUpsert key op => _ ← Disk.try_upsert key op; mret tt
  | CallGet key => _ ← Disk.try_get key; mret tt
  | CallScan lo hi => _ ← Disk.try_scan lo hi; mret tt
  | CallDrain => _ ← Disk.drain; mret tt
  | CallHeight => _ ← Disk.height; mret tt
  | CallLiveWalk => _ ← Disk.live_walk; mret tt
  | CallCheckFull => _ ← Disk.check_invariants_full; mret tt
  end.

Definition call_step (d d' : E) : Prop := ∃ c, run_disk_call c d = Ok (tt, d').

Lemma call_step_reading d d' : call_step d d' → reading d d'.
Proof.
  intros [c Hr]. eapply (ro_run (run_disk_call c)); [|exact Hr].
  destruct c; cbn [run_disk_call]; (apply ro_bind; [|intros; apply ro_ret]).
  - apply ro_try_insert.
  - apply ro_try_delete.
  - apply ro_try_upsert.
  - apply ro_try_get.
  - apply ro_try_scan.
  - apply ro_drain.
  - apply ro_height.
  - apply ro_live_walk.
  - apply ro_check_invariants_full.
Qed.

Lemma calls_reading d d' : rtc call_step d d' → reading d d'.
Proof. induction 1 as [|d d1 d' Hs _ IH]; [done|]. transitivity d1; [by apply call_step_reading|done]. Qed.
End calls.

(** A [FaultyVfs] does not notice reads. *)
Lemma faulty_only_read (v v' : FaultyVfs) : only_read v v' → v' = v.
Proof.
  induction 1 as [|v v1 v' (off & len & r & Hr) _ IH]; [done|]. rewrite IH. clear IH.
  cbn in Hr. unfold FaultyVfs.read_exact_at, mbind, M_bind, get_, lift, mret, M_ret in Hr.
  destruct (u64_add off (Z.of_nat len)); [|done..]. destruct (_ <? _)%Z; [by simplify_eq|].
  destruct (vec_slice _ _ _); by simplify_eq.
Qed.
