(* ===== verification/DiskInv.v ===== *)
(** * The slots and the cache of the disk engine

    The invariant of the slots: a clean resident node is its record, the
    offsets are interned, the cache counts what is resident.  Loading and
    evicting change none of what the slots represent. *)

From S2P Require Export Stored DiskTree.
From stdpp Require Import options.
From Stdlib Require Import ZArith.

Local Open Scope Z_scope.

Lemma wp_try {S A B E} (m : M S (Result A E)) (k : A → M S (Result B E)) (Q : Result B E → S → Prop) s :
  wp m (λ r s', match r with ROk a => wp (k a) Q s' | RErr e => Q (RErr e) s' end) s →
  wp (x ←? m; k x) Q s.
Proof.
  intros Hm. apply wp_bind. eapply wp_mono; [exact Hm|]. intros [a|e] s'; [done|]. apply wp_ret.
Qed.

Lemma wpo_try {S A B E} ov (m : M S (Result A E)) (k : A → M S (Result B E)) (Q : Result B E → S → Prop) s :
  wpo ov m (λ r s', match r with ROk a => wpo ov (k a) Q s' | RErr e => Q (RErr e) s' end) s →
  wpo ov (x ←? m; k x) Q s.
Proof. intros Hm. apply wpo_bind. eapply wpo_mono; [exact Hm|]. by intros [a|e] s'. Qed.

(** ** Sums over slots *)
Definition slot_bytes (s : NodeSlot) : Z := match s with Loaded _ _ _ b _ => b | _ => 0 end.
Definition slot_resident (s : NodeSlot) : nat := match s with Loaded _ _ _ _ _ => 1 | _ => 0 end.
Definition total_bytes (ss : list NodeSlot) : Z := foldr (λ s z, slot_bytes s + z) 0 ss.
Definition resident (ss : list NodeSlot) : nat := sum_list_with slot_resident ss.

Lemma total_bytes_app ss ss' : total_bytes (ss ++ ss') = total_bytes ss + total_bytes ss'.
Proof. induction ss as [|s ss IH]; simpl; lia. Qed.

Lemma total_bytes_insert ss i s s' :
  ss !! i = Some s → total_bytes (<[i:=s']> ss) = total_bytes ss - slot_bytes s + slot_bytes s'.
Proof.
  revert i. induction ss as [|x ss IH]; intros [|i]; simpl; [done..| |].
  - intros [= ->]. lia.
  - intros Hi. rewrite (IH i Hi). lia.
Qed.

Lemma resident_insert ss i s s' :
  ss !! i = Some s → (resident (<[i:=s']> ss) + slot_resident s = resident ss + slot_resident s')%nat.
Proof.
  unfold resident. revert i. induction ss as [|x ss IH]; intros [|i]; simpl; [done..| |].
  - intros [= ->]. lia.
  - intros Hi. specialize (IH i Hi). lia.
Qed.

Lemma total_bytes_ge ss i s :
  Forall (λ s, 0 ≤ slot_bytes s) ss → ss !! i = Some s → slot_bytes s ≤ total_bytes ss.
Proof.
  intros Hs. revert i. induction Hs as [|x ss Hx Hs IH]; intros [|i]; simpl; [done..| |].
  - intros [= ->]. assert (0 ≤ total_bytes ss); [|unfold total_bytes in *; lia].
    clear IH. induction Hs; simpl; unfold total_bytes in *; lia.
  - intros Hi. specialize (IH i Hi). unfold total_bytes in *. lia.
Qed.

Lemma resident_ge ss i s : ss !! i = Some s → (slot_resident s ≤ resident ss)%nat.
Proof.
  unfold resident. revert i. induction ss as [|x ss IH]; intros [|i]; simpl; [done..| |].
  - intros [= ->]. lia.
  - intros Hi. specialize (IH i Hi). lia.
Qed.

Section inv.
Context {V P : Type} `{DeviceLaws V} `{Codec}.
Notation E := (DiskEngine V P).
Implicit Types d : E.

Definition file (d : E) : list byte := dev_view (d_vfs d).

(** ** What the slots represent *)

(** A slot that stands for the record at [o]. *)
Definition clean_at (s : NodeSlot) (o : Z) : Prop :=
  match s with
  | OnDisk o' => o' = o
  | Loaded _ false (Some o') _ _ => o' = o
  | _ => False
  end.

(** No node in memory supersedes the record at [o]. *)
Definition clean_offset d (o : Z) : Prop :=
  ∀ id s, d_offsets d !! o = Some id → d_slots d !! id = Some s → s = Freed ∨ clean_at s o.

(** The tree [t] at [o] in the file, none of it superseded. *)
Definition settled d : tree → Z → Prop := stored (clean_offset d) (file d) (d_watermark d).

(** The tree [t] that a slot represents: a record, or a dirty node over its
    children. *)
Local Unset Elimination Schemes.
Inductive cached d : tree → NodeId → Prop :=
  | cached_clean t id s o :
      d_slots d !! id = Some s → clean_at s o → settled d t o → cached d t id
  | cached_leaf i id e off bytes tick :
      d_slots d !! id = Some (Loaded (Leaf e) true off bytes tick) → cached d (TLeaf i e) id
  | cached_int i id ps ks chs b off bytes tick :
      d_slots d !! id = Some (Loaded (Internal ps chs b) true off bytes tick) →
      Forall2 (cached d) ks chs → cached d (TInt i ps ks b) id.
Local Set Elimination Schemes.

(** A resident clean node is its record, the children interned. *)
Definition node_matches d (o : Z) (n : Node) : Prop :=
  ∃ node len, holds_record (file d) (d_watermark d) o node len ∧
    match n, node with
    | Leaf e, DiskLeaf e' => e' = e
    | Internal ps chs b, DiskInternal ps' offs b' =>
        ps' = ps ∧ b' = b ∧ length offs = S (length ps) ∧
        Forall (λ o', DATA_START ≤ o' < o) offs ∧
        Forall2 (λ c o', d_offsets d !! o' = Some c) chs offs
    | _, _ => False
    end.

Record disk_inv d : Prop := {
  di_dev : dev_wf (d_vfs d);
  di_watermark : DATA_START ≤ d_watermark d ≤ Z.of_nat (length (file d));
  di_u64 : d_watermark d ≤ u64_max;
  di_clean id n off bytes tick :
    d_slots d !! id = Some (Loaded n false off bytes tick) →
    ∃ o, off = Some o ∧ node_matches d o n ∧ d_offsets d !! o = Some id;
  di_on_disk id o : d_slots d !! id = Some (OnDisk o) → d_offsets d !! o = Some id;
  di_dirty id n o bytes tick :
    d_slots d !! id = Some (Loaded n true (Some o) bytes tick) → d_offsets d !! o = Some id;
  di_below o id : d_offsets d !! o = Some id → o < d_watermark d;
  di_offsets o id : d_offsets d !! o = Some id → ∃ s, d_slots d !! id = Some s ∧ s ≠ Freed;
  di_bytes : c_bytes (d_cache d) = total_bytes (d_slots d);
  di_resident : c_resident (d_cache d) = resident (d_slots d);
  di_pos : Forall (λ s, 0 ≤ slot_bytes s) (d_slots d);
  di_lru : Forall (λ x, x.1 < length (d_slots d))%nat (c_lru (d_cache d));
}.

(** ** Steps of the cache

    Loads, evictions and time stamps: dirty nodes stay, a clean slot stands
    for the same record, pinned nodes stay resident. *)
Definition slot_step (pinned : Prop) (s s' : NodeSlot) : Prop :=
  match s with
  | Freed => s' = Freed
  | Loaded n true off b _ => ∃ tick, s' = Loaded n true off b tick
  | Loaded n false off b _ =>
      (∃ tick, s' = Loaded n false off b tick) ∨ ¬ pinned ∧ ∃ o, off = Some o ∧ clean_at s' o
  | OnDisk o => clean_at s' o
  end.

(** A child offset of the record of a clean slot. *)
Definition interned_child d (o : Z) : Prop := ∃ off id s ps offs b len,
  d_offsets d !! off = Some id ∧ d_slots d !! id = Some s ∧ clean_at s off ∧
  holds_record (file d) (d_watermark d) off (DiskInternal ps offs b) len ∧ o ∈ offs ∧ o < off.

Record refreshes (pins : NodeId → Prop) d d' : Prop := {
  rf_vfs : dev_same (d_vfs d) (d_vfs d');
  rf_params : d_params d' = d_params d;
  rf_root : d_root d' = d_root d;
  rf_seq : d_next_seq d' = d_next_seq d;
  rf_generation : d_next_generation d' = d_next_generation d;
  rf_watermark : d_watermark d' = d_watermark d;
  rf_poisoned : d_poisoned d' = d_poisoned d;
  rf_ops : d_ops_since_commit d' = d_ops_since_commit d;
  rf_policy : d_policy d' = d_policy d;
  rf_trace : d_trace d' = d_trace d;
  rf_budget : c_budget (d_cache d') = c_budget (d_cache d);
  rf_slots id s : d_slots d !! id = Some s →
    ∃ s', d_slots d' !! id = Some s' ∧ slot_step (pins id) s s';
  rf_offsets o id : d_offsets d !! o = Some id → d_offsets d' !! o = Some id;
  rf_new o id : d_offsets d' !! o = Some id → d_offsets d !! o = Some id ∨
    d_offsets d !! o = None ∧ (∃ s, d_slots d' !! id = Some s ∧ clean_at s o) ∧ interned_child d' o;
}.

Lemma slot_step_refl X s : slot_step X s s.
Proof. destruct s as [n [] off b t|o|]; simpl; eauto. Qed.

Lemma slot_step_clean X s s' o : slot_step X s s' → clean_at s o → clean_at s' o.
Proof.
  destruct s as [n [] off b t|o'|]; simpl; [done| |by intros ? <-|done].
  destruct off as [o''|]; [|done]. intros [[t' ->]|(_ & ? & [= <-] & ?)] <-; done.
Qed.

Lemma slot_step_trans (X : Prop) s s' s'' : slot_step X s s' → slot_step X s' s'' → slot_step X s s''.
Proof.
  destruct s as [n [] off b t|o|]; simpl.
  - intros [t' ->]. done.
  - intros [[t' ->]|(Hp & o & -> & Hc)]; [done|].
    intros Hs. right. split; [done|]. exists o. split; [done|]. by eapply slot_step_clean.
  - intros Hc Hs. by eapply slot_step_clean.
  - by intros ->.
Qed.

Lemma slot_step_weaken (X X' : Prop) s s' : (X' → X) → slot_step X s s' → slot_step X' s s'.
Proof. intros HX. destruct s as [n [] off b t|o|]; simpl; naive_solver. Qed.

Lemma refreshes_refl X d : dev_wf (d_vfs d) → refreshes X d d.
Proof. split; auto using dev_same_refl. eauto using slot_step_refl. Qed.

Lemma dev_same_trans (v v' v'' : V) : dev_same v v' → dev_same v' v'' → dev_same v v''.
Proof. intros [] []. split; try done; try congruence; auto. Qed.

Lemma interned_child_refreshes X d d' o : refreshes X d d' → interned_child d o → interned_child d' o.
Proof.
  intros R (off & id & s & ps & offs & b & len & Hoff & Hs & Hc & Hh & Hin & Hlt).
  destruct (rf_slots _ _ _ R _ _ Hs) as (s' & Hs' & Hst). exists off, id, s', ps, offs, b, len.
  split; [by apply R|]. split; [done|]. split; [by eapply slot_step_clean|].
  assert (file d' = file d) as -> by apply R. by rewrite (rf_watermark _ _ _ R).
Qed.

Lemma refreshes_trans X d d' d'' : refreshes X d d' → refreshes X d' d'' → refreshes X d d''.
Proof.
  intros R1 R2. split; try (etrans; [apply R2|apply R1]).
  - eapply dev_same_trans; [apply R1|apply R2].
  - intros id s Hs. destruct (rf_slots _ _ _ R1 _ _ Hs) as (s1 & Hs1 & ?).
    destruct (rf_slots _ _ _ R2 _ _ Hs1) as (s2 & Hs2 & ?). eauto using slot_step_trans.
  - intros o id Ho. by apply R2, R1.
  - intros o id Ho. destruct (rf_new _ _ _ R2 _ _ Ho) as [Ho'|(Hn & Hs)].
    + destruct (rf_new _ _ _ R1 _ _ Ho') as [?|(? & (s1 & Hs1 & Hc) & Hch)]; [by left|right].
      split; [done|]. split; [|by eapply interned_child_refreshes].
      destruct (rf_slots _ _ _ R2 _ _ Hs1) as (s2 & Hs2 & ?). eauto using slot_step_clean.
    + right. split; [|done]. destruct (d_offsets d !! o) eqn:E; [|done].
      apply (rf_offsets _ _ _ R1) in E. congruence.
Qed.

Lemma refreshes_weaken (X X' : NodeId → Prop) d d' :
  (∀ i, X' i → X i) → refreshes X d d' → refreshes X' d d'.
Proof.
  intros HX [Hvfs Hp Hr Hsq Hg Hw Hpo Ho Hpl Ht Hb Hs Hof Hn]. split; try done.
  intros id s Hid. destruct (Hs _ _ Hid) as (s' & ? & ?). exists s'. split; [done|].
  eapply slot_step_weaken; [|done]. apply HX.
Qed.

Lemma file_refreshes X d d' : refreshes X d d' → file d' = file d.
Proof. intros Hr. apply Hr. Qed.

(** What the slots represent does not change. *)
Lemma clean_offset_refreshes X d d' o :
  disk_inv d → refreshes X d d' → clean_offset d o → clean_offset d' o.
Proof.
  intros Hi Hr Hc id s Ho Hs. destruct (rf_new _ _ _ Hr _ _ Ho) as [Ho'|(_ & (s' & Hs' & Hcl) & _)].
  - destruct (di_offsets _ Hi _ _ Ho') as (s0 & Hs0 & Hne).
    destruct (rf_slots _ _ _ Hr _ _ Hs0) as (s1 & Hs1 & Hst). rewrite Hs in Hs1. injection Hs1 as <-.
    destruct (Hc _ _ Ho' Hs0) as [->|Hcl]; [done|]. right. by eapply slot_step_clean.
  - rewrite Hs in Hs'. injection Hs' as <-. by right.
Qed.

Lemma settled_refreshes X d d' t o : disk_inv d → refreshes X d d' → settled d t o → settled d' t o.
Proof.
  intros Hi Hr. unfold settled. rewrite (file_refreshes _ _ _ Hr) (rf_watermark _ _ _ Hr).
  apply stored_weaken; [|apply Hi]. intros o' _. by eapply clean_offset_refreshes.
Qed.

Lemma Forall2_impl_Forall {A B} (R R' : A → B → Prop) l l' :
  Forall (λ x, ∀ y, R x y → R' x y) l → Forall2 R l l' → Forall2 R' l l'.
Proof. induction 2; decompose_Forall_hyps; constructor; auto. Qed.

Lemma cached_refreshes X d d' t id : disk_inv d → refreshes X d d' → cached d t id → cached d' t id.
Proof.
  intros Hi Hr. revert id. induction t as [i e|i ps ks b IH] using tree_nested_ind; intros id Hc;
    inversion Hc as [? ? s o Hs Hcl Hst|? ? ? ? ? ? Hs|? ? ? ? chs ? ? ? ? Hs Hks]; subst;
    destruct (rf_slots _ _ _ Hr _ _ Hs) as (s' & Hs' & Hstep);
    try (eapply cached_clean; [exact Hs'|by eapply slot_step_clean|by eapply settled_refreshes]).
  - destruct Hstep as [tick' ->]. by eapply cached_leaf.
  - destruct Hstep as [tick' ->]. eapply cached_int; [exact Hs'|]. by eapply Forall2_impl_Forall.
Qed.

Lemma node_matches_refreshes X d d' o n : refreshes X d d' → node_matches d o n → node_matches d' o n.
Proof.
  intros Hr (node & len & Hh & Hm). exists node, len. rewrite (file_refreshes _ _ _ Hr) (rf_watermark _ _ _ Hr).
  split; [done|]. destruct n, node; try done. destruct Hm as (? & ? & ? & ? & Hoffs). split_and!; try done.
  eapply Forall2_impl; [exact Hoffs|]. intros c o'. simpl. apply Hr.
Qed.

(** A resident node shows the tree its slot represents. *)
Lemma cached_loaded d t id n dirty off bytes tick :
  disk_inv d → cached d t id → d_slots d !! id = Some (Loaded n dirty off bytes tick) →
  match t, n with
  | TLeaf _ e, Leaf e' => e' = e
  | TInt _ ps ks b, Internal ps' chs b' => ps' = ps ∧ b' = b ∧ Forall2 (cached d) ks chs
  | _, _ => False
  end.
Proof.
  intros Hi Hc Hs. inversion Hc as [? ? s o Hs' Hcl Hst|? ? ? ? ? ? Hs'|? ? ? ? chs ? ? ? ? Hs' Hks]; subst;
    rewrite Hs in Hs'; simplify_eq; [|done|done].
  destruct dirty; [done|]. destruct off as [o'|]; [|done]. simpl in Hcl. subst o'.
  destruct (di_clean _ Hi _ _ _ _ _ Hs) as (o' & [= <-] & (node & len & Hh & Hm) & _).
  destruct (stored_record _ _ _ _ _ Hst) as (_ & node' & len' & Hh' & Hm').
  destruct (holds_record_fun _ _ _ _ _ _ _ _ Hh Hh') as [-> ->].
  destruct t as [i e|i ps ks b], n as [ps' chs b'|e'], node as [ps'' offs b''|e'']; try done; [by subst|].
  destruct Hm as (-> & -> & _ & _ & Ho), Hm' as (-> & -> & _ & _ & Hk). split_and!; [done|done|].
  clear Hh Hh' Hs Hc Hst. revert ks Hk. induction Ho as [|c o' chs offs Hco Ho IH]; intros ks Hk;
    inversion Hk as [|k ? ks' ? Hko Hk']; subst; constructor; [|by apply IH].
  destruct (di_offsets _ Hi _ _ Hco) as (s & Hs & Hne).
  destruct (stored_record _ _ _ _ _ Hko) as [Hcl _]. destruct (Hcl _ _ Hco Hs) as [->|Hcl']; [done|].
  by eapply cached_clean.
Qed.
End inv.
