(* ===== verification/DiskCache.v ===== *)
(** * The node cache: time stamps, eviction, loading

    [touch] and [enforce_budget] keep the slots' invariant and what the
    slots represent; [enforce_budget] never panics, and only evicts clean,
    unpinned nodes. *)

From S2P Require Export DiskInv.
From stdpp Require Import options.
From Stdlib Require Import ZArith.

Local Open Scope Z_scope.

Section cache.
Context {V P : Type} `{DeviceLaws V} `{Codec}.
Notation E := (DiskEngine V P).
Implicit Types d : E.

Lemma wp_slot id s (Q : NodeSlot → E → Prop) d :
  d_slots d !! id = Some s → Q s d → wp (slot id) Q d.
Proof. intros Hs HQ. apply wp_bind, wp_get. eapply wp_lift; [by rewrite Hs|done]. Qed.

Lemma wp_put_slot id s (Q : unit → E → Prop) d :
  Q tt (set_d_slots (<[id:=s]> (d_slots d)) d) → wp (put_slot id s) Q d.
Proof. intros HQ. by apply wp_modify. Qed.
Lemma wpo_slot ov id s (Q : NodeSlot → E → Prop) d :
  d_slots d !! id = Some s → Q s d → wpo ov (slot id) Q d.
Proof. intros Hs HQ. by eapply wp_wpo, wp_slot. Qed.

(** How much the counters of the cache can have grown. *)
Record spends (ticks lru hits misses over evics bytes : Z) d d' : Prop := {
  sp_tick : c_tick (d_cache d') ≤ c_tick (d_cache d) + ticks;
  sp_lru : Z.of_nat (length (c_lru (d_cache d'))) ≤ Z.of_nat (length (c_lru (d_cache d))) + lru;
  sp_hits : c_hits (d_cache d') ≤ c_hits (d_cache d) + hits;
  sp_misses : c_misses (d_cache d') ≤ c_misses (d_cache d) + misses;
  sp_over : c_overcommit_events (d_cache d') ≤ c_overcommit_events (d_cache d) + over;
  sp_evics : c_evictions (d_cache d') ≤ c_evictions (d_cache d) + evics;
  sp_bytes : c_bytes (d_cache d') ≤ c_bytes (d_cache d) + bytes;
}.

Lemma spends_trans t l h m o e b t' l' h' m' o' e' b' d d' d'' :
  spends t l h m o e b d d' → spends t' l' h' m' o' e' b' d' d'' →
  spends (t + t') (l + l') (h + h') (m + m') (o + o') (e + e') (b + b') d d''.
Proof. intros [] []. split; lia. Qed.

(** Counters, stamps and the deque are not represented. *)
Definition same_counts (c c' : Cache) : Prop :=
  c_budget c' = c_budget c ∧ c_bytes c' = c_bytes c ∧ c_resident c' = c_resident c.

Lemma on_cache_step X c' d :
  disk_inv d → same_counts (d_cache d) c' →
  Forall (λ x, x.1 < length (d_slots d))%nat (c_lru c') →
  disk_inv (set_d_cache c' d) ∧ refreshes X d (set_d_cache c' d).
Proof.
  intros Hi (Hb & Hbs & Hr) Hl. split.
  - destruct Hi. split; try done; simpl; congruence.
  - split; try done; simpl; [by apply dev_same_refl, Hi|eauto using slot_step_refl|auto].
Qed.

Lemma stamp_step X d id s tick :
  disk_inv d → d_slots d !! id = Some s →
  disk_inv (set_d_slots (<[id:=stamp tick s]> (d_slots d)) d) ∧
  refreshes X d (set_d_slots (<[id:=stamp tick s]> (d_slots d)) d).
Proof.
  intros Hi Hs. pose proof (lookup_lt_Some _ _ _ Hs) as Hlt.
  assert (∀ i s', <[id:=stamp tick s]> (d_slots d) !! i = Some s' →
    ∃ s0, d_slots d !! i = Some s0 ∧ (s' = s0 ∨ s' = stamp tick s0)) as Hinv.
  { intros i s' Hi'. destruct (decide (i = id)) as [->|Hne].
    - rewrite list_lookup_insert_eq in Hi'; [done|]. injection Hi' as <-. eauto.
    - rewrite list_lookup_insert_ne in Hi'; [done|]. eauto. }
  assert (refreshes X d (set_d_slots (<[id:=stamp tick s]> (d_slots d)) d)) as Hr.
  { split; try done; simpl; [by apply dev_same_refl, Hi| |auto].
    intros i s0 Hs0. destruct (decide (i = id)) as [->|Hne].
    - exists (stamp tick s). rewrite list_lookup_insert_eq; [done|]. split; [done|].
      assert (s0 = s) as -> by congruence. destruct s as [n [] off b t|o|]; simpl; eauto.
    - exists s0. rewrite list_lookup_insert_ne; [done|]. split; [done|apply slot_step_refl]. }
  split; [|done]. split; try apply Hi; simpl.
  - intros i n off bytes t Hi'. destruct (Hinv _ _ Hi') as (s0 & Hs0 & [<-|Hst]).
    + exact (di_clean _ Hi _ _ _ _ _ Hs0).
    + destruct s0 as [n0 dr off0 b0 t0|o0|]; try done. simpl in Hst. simplify_eq.
      exact (di_clean _ Hi _ _ _ _ _ Hs0).
  - intros i o Hi'. destruct (Hinv _ _ Hi') as (s0 & Hs0 & [<-|Hst]); [by eapply di_on_disk|].
    destruct s0; try done. simpl in Hst. simplify_eq. by eapply di_on_disk.
  - intros i n o bytes t Hi'. destruct (Hinv _ _ Hi') as (s0 & Hs0 & [<-|Hst]); [by eapply di_dirty|].
    destruct s0; try done. simpl in Hst. simplify_eq. by eapply di_dirty.
  - intros o i Ho. destruct (di_offsets _ Hi _ _ Ho) as (s0 & Hs0 & Hne).
    destruct (rf_slots _ _ _ Hr _ _ Hs0) as (s' & Hs' & Hstep). exists s'. split; [done|].
    intros ->. destruct (Hinv _ _ Hs') as (s1 & Hs1 & [<-|E1]); [congruence|].
    destruct s1; try done. congruence.
  - rewrite (total_bytes_insert _ _ s) //. rewrite (di_bytes _ Hi). destruct s; simpl; lia.
  - pose proof (resident_insert _ _ _ (stamp tick s) Hs). rewrite (di_resident _ Hi). destruct s; simpl in *; lia.
  - apply Forall_insert; [apply Hi|]. pose proof (di_pos _ Hi) as Hp. rewrite Forall_lookup in Hp.
    specialize (Hp _ _ Hs). by destruct s.
  - rewrite length_insert. apply Hi.
Qed.

Lemma retain_current_Ok ss lru :
  Forall (λ x, x.1 < length ss)%nat lru →
  ∃ lru', retain_current ss lru = Ok lru' ∧ (length lru' ≤ length lru)%nat ∧
    Forall (λ x, x.1 < length ss)%nat lru'.
Proof.
  induction 1 as [|[id tick] lru Hid _ IH]; [by exists []|]. simpl in *.
  destruct (lookup_lt_is_Some_2 ss id Hid) as [s ->]. destruct IH as (l & -> & Hl & Hf).
  simpl. eexists. split; [done|]. destruct s as [? ? ? ? lt|o|]; [destruct (lt =? tick)|..]; simpl;
    (split; [lia|]); try constructor; done.
Qed.

Lemma touch_ov ov X id d :
  disk_inv d → (id < length (d_slots d))%nat → (ov = false → c_tick (d_cache d) + 1 ≤ u64_max) →
  wpo ov (touch id) (λ _ d', disk_inv d' ∧ refreshes X d d' ∧ spends 1 1 0 0 0 0 0 d d') d.
Proof.
  intros Hi Hid Ht. unfold touch. apply wpo_bind, wpo_get.
  destruct (c_budget (d_cache d)) as [bud|]; last first.
  { apply wpo_ret. split; [done|]. split; [by apply refreshes_refl, Hi|split; lia]. }
  apply wpo_bind. apply wpo_u64_add; [done|intros _]. apply wpo_bind, wpo_modify.
  destruct (lookup_lt_is_Some_2 _ _ Hid) as [s Hs].
  set (d1 := on_cache (set_c_tick (c_tick (d_cache d) + 1)) d).
  destruct (on_cache_step X (set_c_tick (c_tick (d_cache d) + 1) (d_cache d)) d) as [Hi1 Hr1];
    [done|done|apply Hi|]. change (set_d_cache _ d) with d1 in *.
  apply wpo_bind. eapply wpo_slot; [done|]. apply wpo_bind, wpo_modify.
  destruct (stamp_step X d1 id s (c_tick (d_cache d) + 1)) as [Hi2 Hr2]; [done|done|].
  set (d2 := set_d_slots _ d1) in *. apply wpo_bind, wpo_modify.
  set (lru := c_lru (d_cache d2) ++ [(id, c_tick (d_cache d) + 1)]).
  assert (Forall (λ x, x.1 < length (d_slots d2))%nat lru) as Hl.
  { apply Forall_app. split; [apply Hi2|]. repeat constructor. simpl. by rewrite length_insert. }
  destruct (on_cache_step X (set_c_lru lru (d_cache d2)) d2) as [Hi3 Hr3]; [done|done|done|].
  change (on_cache (λ c, set_c_lru (c_lru c ++ [(id, c_tick (d_cache d) + 1)]) c) d2)
    with (set_d_cache (set_c_lru lru (d_cache d2)) d2).
  set (d3 := set_d_cache _ d2) in *.
  assert (refreshes X d d3) as Hr by (by eapply refreshes_trans, refreshes_trans).
  assert (spends 1 1 0 0 0 0 0 d d3) as Hsp by (split; simpl; rewrite ?length_app /=; lia).
  apply wpo_bind, wpo_get. destruct (_ <? _)%nat; [|by apply wpo_ret].
  destruct (retain_current_Ok (d_slots d3) (c_lru (d_cache d3))) as (lru' & Hret & Hle & Hf); [apply Hi3|].
  apply wpo_bind. eapply wpo_lift; [exact Hret|]. apply wpo_modify.
  destruct (on_cache_step X (set_c_lru lru' (d_cache d3)) d3) as [Hi4 Hr4]; [done|done|done|].
  split; [done|]. split; [by eapply refreshes_trans|].
  destruct Hsp. split; simpl in *; try lia.
Qed.

(** Evicting a clean node. *)
Lemma evict_step (X : NodeId → Prop) d id n off bytes tick k :
  disk_inv d → d_slots d !! id = Some (Loaded n false (Some off) bytes tick) → ¬ X id →
  let d' := set_d_cache (set_c_evictions k (set_c_resident (c_bytes (d_cache d) - bytes)
    (c_resident (d_cache d) - 1) (d_cache d))) (set_d_slots (<[id:=OnDisk off]> (d_slots d)) d) in
  disk_inv d' ∧ refreshes X d d'.
Proof.
  intros Hi Hs HX d'. pose proof (lookup_lt_Some _ _ _ Hs) as Hlt.
  destruct (di_clean _ Hi _ _ _ _ _ Hs) as (o & [= <-] & Hm & Ho).
  assert (∀ i s', <[id:=OnDisk off]> (d_slots d) !! i = Some s' →
    (i = id ∧ s' = OnDisk off) ∨ (i ≠ id ∧ d_slots d !! i = Some s')) as Hinv.
  { intros i s' Hi'. destruct (decide (i = id)) as [->|Hne].
    - rewrite list_lookup_insert_eq in Hi'; [done|]. injection Hi' as <-. auto.
    - rewrite list_lookup_insert_ne in Hi'; [done|]. auto. }
  assert (refreshes X d d') as Hr.
  { split; try done; simpl; [by apply dev_same_refl, Hi| |auto].
    intros i s0 Hs0. destruct (decide (i = id)) as [->|Hne].
    - exists (OnDisk off). rewrite list_lookup_insert_eq; [done|]. split; [done|].
      rewrite Hs in Hs0. injection Hs0 as <-. simpl. eauto 10.
    - exists s0. rewrite list_lookup_insert_ne; [done|]. split; [done|apply slot_step_refl]. }
  split; [|done]. split; try apply Hi; simpl.
  - intros i n' off' bytes' t [[-> ?]|[Hne Hi']]%Hinv; [done|]. exact (di_clean _ Hi _ _ _ _ _ Hi').
  - intros i o [[-> [= ->]]|[Hne Hi']]%Hinv; [done|]. by eapply di_on_disk.
  - intros i n' o bytes' t [[-> [=]]|[Hne Hi']]%Hinv. by eapply di_dirty.
  - intros o i Hoi. destruct (decide (i = id)) as [->|Hne].
    + exists (OnDisk off). by rewrite list_lookup_insert_eq.
    + rewrite list_lookup_insert_ne; [done|]. by eapply di_offsets.
  - rewrite (total_bytes_insert _ _ _ _ Hs) (di_bytes _ Hi). simpl. lia.
  - pose proof (resident_insert _ _ _ (OnDisk off) Hs). rewrite (di_resident _ Hi). simpl in *. lia.
  - apply Forall_insert; [apply Hi|done].
  - rewrite length_insert. apply Hi.
Qed.

Definition pinned (pins : list NodeId) (just_loaded : option NodeId) (id : NodeId) : Prop :=
  id ∈ pins ∨ just_loaded = Some id.

Lemma enforce_step_ov ov pins just_loaded id tick d :
  disk_inv d → (id < length (d_slots d))%nat →
  (ov = false → c_tick (d_cache d) + 1 ≤ u64_max) → (ov = false → c_evictions (d_cache d) + 1 ≤ u64_max) →
  wpo ov (enforce_step pins just_loaded id tick) (λ _ d', disk_inv d' ∧
    refreshes (pinned pins just_loaded) d d' ∧ spends 1 1 0 0 0 1 0 d d') d.
Proof.
  intros Hi Hid Ht He. unfold enforce_step. destruct (lookup_lt_is_Some_2 _ _ Hid) as [s Hs].
  apply wpo_bind. eapply wpo_slot; [exact Hs|].
  assert (disk_inv d ∧ refreshes (pinned pins just_loaded) d d ∧ spends 1 1 0 0 0 1 0 d d) as Hskip.
  { split; [done|]. split; [by apply refreshes_refl, Hi|split; lia]. }
  destruct s as [n dirty off bytes last|o|]; [|by apply wpo_ret..].
  destruct (negb (last =? tick)); [by apply wpo_ret|].
  destruct (dirty || bool_decide (id ∈ pins) || bool_decide (just_loaded = Some id)) eqn:Ekeep.
  - apply wpo_bind, wpo_get, wpo_bind. apply wpo_u64_add; [done|intros _]. apply wpo_bind, wpo_modify.
    set (X := pinned pins just_loaded).
    destruct (on_cache_step X (set_c_tick (c_tick (d_cache d) + 1) (d_cache d)) d) as [Hi1 Hr1];
      [done|done|apply Hi|].
    change (on_cache (set_c_tick (c_tick (d_cache d) + 1)) d)
      with (set_d_cache (set_c_tick (c_tick (d_cache d) + 1) (d_cache d)) d).
    set (d1 := set_d_cache _ d) in *. apply wpo_bind, wpo_modify.
    destruct (stamp_step X d1 id _ (c_tick (d_cache d) + 1) Hi1 Hs) as [Hi2 Hr2].
    set (d2 := set_d_slots _ d1) in *. apply wpo_modify.
    set (lru := c_lru (d_cache d2) ++ [(id, c_tick (d_cache d) + 1)]).
    destruct (on_cache_step X (set_c_lru lru (d_cache d2)) d2) as [Hi3 Hr3]; [done|done| |].
    { apply Forall_app. split; [apply Hi2|]. repeat constructor. simpl. by rewrite length_insert. }
    split; [exact Hi3|]. split; [by eapply refreshes_trans; [|eapply refreshes_trans]|].
    split; simpl; rewrite ?length_app /=; lia.
  - apply orb_false_iff in Ekeep as [[-> Ep]%orb_false_iff Ej].
    apply bool_decide_eq_false in Ep, Ej.
    destruct (di_clean _ Hi _ _ _ _ _ Hs) as (o & -> & _).
    apply wpo_bind. eapply wpo_lift; [done|]. apply wpo_bind, wpo_modify, wpo_bind, wpo_get.
    pose proof (total_bytes_ge _ _ _ (di_pos _ Hi) Hs) as Hge. simpl in Hge.
    pose proof (resident_ge _ _ _ Hs) as Hrge. simpl in Hrge.
    apply wpo_bind. eapply wpo_lift; [apply u64_sub_Ok; simpl; rewrite (di_bytes _ Hi); lia|].
    apply wpo_bind. eapply wpo_lift; [apply usize_sub_Ok; simpl; rewrite (di_resident _ Hi); lia|].
    apply wpo_bind, wpo_modify, wpo_bind. apply wpo_u64_add; [done|intros _]. apply wpo_modify.
    destruct (evict_step (pinned pins just_loaded) d id n o bytes last (c_evictions (d_cache d) + 1))
      as [Hi' Hr']; [done|done|by intros []|].
    split; [exact Hi'|]. split; [exact Hr'|]. pose proof (di_pos _ Hi) as Hp. rewrite Forall_lookup in Hp.
    specialize (Hp _ _ Hs). simpl in Hp. split; simpl; lia.
Qed.

Lemma spends_le t l h m o e b t' l' h' m' o' e' b' d d' :
  spends t l h m o e b d d' → t ≤ t' → l ≤ l' → h ≤ h' → m ≤ m' → o ≤ o' → e ≤ e' → b ≤ b' →
  spends t' l' h' m' o' e' b' d d'.
Proof. intros []. split; lia. Qed.

Lemma refreshes_length X d d' : refreshes X d d' → (length (d_slots d) ≤ length (d_slots d'))%nat.
Proof.
  intros Hr. destruct (decide (length (d_slots d) = 0)%nat) as [->|Hne]; [lia|].
  destruct (lookup_lt_is_Some_2 (d_slots d) (length (d_slots d) - 1)) as [s Hs]; [lia|].
  destruct (rf_slots _ _ _ Hr _ _ Hs) as (s' & Hs' & _). apply lookup_lt_Some in Hs'. lia.
Qed.

Lemma enforce_loop_ov ov pins just_loaded budget n d :
  disk_inv d → (ov = false → c_tick (d_cache d) + Z.of_nat n ≤ u64_max) →
  (ov = false → c_evictions (d_cache d) + Z.of_nat n ≤ u64_max) →
  wpo ov (enforce_loop pins just_loaded budget n) (λ _ d', disk_inv d' ∧
    refreshes (pinned pins just_loaded) d d' ∧ spends (Z.of_nat n) 0 0 0 0 (Z.of_nat n) 0 d d') d.
Proof.
  revert d. induction n as [|n IH]; intros d Hi Ht He; cbn [enforce_loop]; apply wpo_bind, wpo_get.
  all: assert (∀ k, 0 ≤ k → disk_inv d ∧ refreshes (pinned pins just_loaded) d d ∧ spends k 0 0 0 0 k 0 d d) as Hskip
    by (intros k Hk; split; [done|]; split; [by apply refreshes_refl, Hi|split; lia]).
  all: destruct (budget <? c_bytes (d_cache d)); [|apply wpo_ret, Hskip; lia].
  { apply wpo_ret, Hskip. lia. }
  destruct (c_lru (d_cache d)) as [|[id tick] lru] eqn:El; [apply wpo_ret, Hskip; lia|].
  pose proof (di_lru _ Hi) as Hl. rewrite El in Hl. apply Forall_cons in Hl as [Hid Hl]. simpl in Hid.
  apply wpo_bind, wpo_modify.
  destruct (on_cache_step (pinned pins just_loaded) (set_c_lru lru (d_cache d)) d) as [Hi1 Hr1];
    [done|done|done|].
  change (on_cache (set_c_lru lru) d) with (set_d_cache (set_c_lru lru (d_cache d)) d).
  set (d1 := set_d_cache _ d) in *. apply wpo_bind.
  eapply wpo_mono; [apply (enforce_step_ov ov pins just_loaded id tick d1); simpl; [done|done|ov_lia..]|].
  intros _ d2 (Hi2 & Hr2 & Hs2). destruct Hs2. simpl in *.
  eapply wpo_mono; [apply (IH d2 Hi2); ov_lia|].
  intros _ d3 (Hi3 & Hr3 & []). split; [done|]. split; [by eapply refreshes_trans; [|eapply refreshes_trans]|].
  split; simpl in *; rewrite ?El /=; lia.
Qed.

(** [enforce_budget] never panics, except on an exhausted counter, and
    never loops forever; without a budget nothing is evicted. *)
Lemma enforce_budget_kept ov pins just_loaded d :
  disk_inv d → (ov = false → c_tick (d_cache d) + Z.of_nat (length (c_lru (d_cache d))) ≤ u64_max) →
  (ov = false → c_evictions (d_cache d) + Z.of_nat (length (c_lru (d_cache d))) ≤ u64_max) →
  (ov = false → c_overcommit_events (d_cache d) + 1 ≤ u64_max) →
  wpo ov (enforce_budget pins just_loaded) (λ _ d', disk_inv d' ∧
    refreshes (λ i, pinned pins just_loaded i ∨ c_budget (d_cache d) = None) d d' ∧
    spends (Z.of_nat (length (c_lru (d_cache d)))) 0 0 0 1 (Z.of_nat (length (c_lru (d_cache d)))) 0 d d') d.
Proof.
  intros Hi Ht He Ho. unfold enforce_budget. apply wpo_bind, wpo_get.
  destruct (c_budget (d_cache d)) as [budget|] eqn:Eb; last first.
  { apply wpo_ret. split; [done|]. split; [by apply refreshes_refl, Hi|split; lia]. }
  apply wpo_bind. eapply wpo_mono; [by apply enforce_loop_ov|]. intros _ d1 (Hi1 & Hr1 & Hs1).
  apply (refreshes_weaken _ (λ i, pinned pins just_loaded i ∨ Some budget = None)) in Hr1; [|by intros i [?|?]].
  apply wpo_bind, wpo_get. destruct (budget <? c_bytes (d_cache d1)).
  - destruct Hs1. apply wpo_bind. apply wpo_u64_add; [ov_lia|intros _]. apply wpo_modify.
    destruct (on_cache_step (λ i, pinned pins just_loaded i ∨ Some budget = None)
      (set_c_overcommit (c_overcommit_events (d_cache d1) + 1) (d_cache d1)) d1) as [Hi2 Hr2];
      [done|done|apply Hi1|].
    split; [exact Hi2|]. split; [by eapply refreshes_trans|]. split; simpl; lia.
  - apply wpo_ret. split; [done|]. split; [done|]. destruct Hs1. split; lia.
Qed.

Lemma enforce_budget_ov ov pins just_loaded d :
  disk_inv d → (ov = false → c_tick (d_cache d) + Z.of_nat (length (c_lru (d_cache d))) ≤ u64_max) →
  (ov = false → c_evictions (d_cache d) + Z.of_nat (length (c_lru (d_cache d))) ≤ u64_max) →
  (ov = false → c_overcommit_events (d_cache d) + 1 ≤ u64_max) →
  wpo ov (enforce_budget pins just_loaded) (λ _ d', disk_inv d' ∧
    refreshes (pinned pins just_loaded) d d' ∧
    spends (Z.of_nat (length (c_lru (d_cache d)))) 0 0 0 1 (Z.of_nat (length (c_lru (d_cache d)))) 0 d d') d.
Proof.
  intros Hi Ht He Ho. eapply wpo_mono; [by apply enforce_budget_kept|]. intros _ d' (? & ? & ?).
  split_and!; [done|eapply refreshes_weaken; [|done]; by left|done].
Qed.

Lemma enforce_budget_spec pins just_loaded d :
  disk_inv d → c_tick (d_cache d) + Z.of_nat (length (c_lru (d_cache d))) ≤ u64_max →
  c_evictions (d_cache d) + Z.of_nat (length (c_lru (d_cache d))) ≤ u64_max →
  c_overcommit_events (d_cache d) + 1 ≤ u64_max →
  wp (enforce_budget pins just_loaded) (λ _ d', disk_inv d' ∧
    refreshes (pinned pins just_loaded) d d' ∧
    spends (Z.of_nat (length (c_lru (d_cache d)))) 0 0 0 1 (Z.of_nat (length (c_lru (d_cache d)))) 0 d d') d.
Proof. intros Hi Ht He Ho. by apply wpo_wp, enforce_budget_ov. Qed.
End cache.
