(* ===== verification/DiskLoad.v ===== *)
(** * Loading node records

    [read_record] returns exactly the record in the file or a typed error;
    [ensure_loaded] makes a slot resident without changing what any slot
    represents, whatever the file holds. *)

From S2P Require Export DiskCache.
From stdpp Require Import options.
From Stdlib Require Import ZArith.

Local Open Scope Z_scope.

Section load.
Context {V P : Type} `{DeviceLaws V} `{CodecLaws}.
Notation E := (DiskEngine V P).
Implicit Types d : E.

Lemma wp_on_vfs {A} (m : M V (Result A IoError)) (Q : Result A DiskError → E → Prop) d :
  wp m (λ r v', Q (map_err Io r) (set_d_vfs v' d)) (d_vfs d) → wp (on_vfs m) Q d.
Proof. intros (r & v' & Hm & HQ). exists (map_err Io r), (set_d_vfs v' d). split; [|done]. unfold on_vfs. by rewrite Hm. Qed.

Lemma vfs_step X v d :
  disk_inv d → dev_same (d_vfs d) v → disk_inv (set_d_vfs v d) ∧ refreshes X d (set_d_vfs v d).
Proof.
  intros Hi Hv. assert (file (set_d_vfs v d) = file d) as Hf by apply Hv.
  split.
  - split; try apply Hi; simpl; [apply Hv|rewrite Hf; apply Hi|].
    intros id n off bytes tick Hs. destruct (di_clean _ Hi _ _ _ _ _ Hs) as (o & -> & (node & len & Hh & Hm) & Ho).
    exists o. split; [done|]. split; [|done]. exists node, len. by rewrite Hf.
  - split; try done; simpl; eauto using slot_step_refl.
Qed.

(** ** Records *)

Lemma record_header8 buf off p header :
  bytes_at buf off (record_bytes p) → bytes_at buf off header → length header = 8%nat →
  header = le_encode 4 (Z.of_nat (length p)) ++ le_encode 4 (crc32_hash p) ∧ bytes_at buf (off + 8) p.
Proof.
  unfold record_bytes. rewrite app_assoc. intros Hb Hh Hl.
  assert (length (le_encode 4 (Z.of_nat (length p)) ++ le_encode 4 (crc32_hash p)) = 8%nat) as H8
    by by rewrite length_app !length_le_encode.
  apply bytes_at_app in Hb as [Hb Hp]. rewrite H8 in Hp. split; [|exact Hp].
  eapply bytes_at_unique; [done|done|]. by rewrite H8.
Qed.

Lemma le_decode_4 z : 0 ≤ z < 2 ^ 32 → le_decode (le_encode 4 z) = z.
Proof. intros Hz. rewrite le_decode_encode. by apply Z.mod_small. Qed.

(** A typed error of a load at [off]: the storage failed, or there is no
    such record. *)
Definition load_error d (off : Z) (none : Prop) (e : DiskError) : Prop :=
  (∃ e', e = Io e' ∧ ¬ dev_reliable (d_vfs d)) ∨ (e = CorruptNode off ∧ none).

Lemma read_record_spec off d :
  disk_inv d →
  wp (read_record off) (λ r d', (∃ v, d' = set_d_vfs v d ∧ dev_same (d_vfs d) v) ∧
    match r with
    | ROk (node, len) => holds_record (file d) (d_watermark d) off node len
    | RErr e => load_error d off (∀ node len, ¬ holds_record (file d) (d_watermark d) off node len) e
    end) d.
Proof using All.
  intros Hi. pose proof (di_watermark _ Hi) as [Hw1 Hw2]. pose proof (di_u64 _ Hi) as Hw3.
  unfold read_record. apply wp_bind, wp_get.
  assert (∃ v, d = set_d_vfs v d ∧ dev_same (d_vfs d) v) as Hsame.
  { exists (d_vfs d). split; [by destruct d|]. apply dev_same_refl, Hi. }
  destruct ((off <? DATA_START) || (0 `max` (d_watermark d - RECORD_HEADER_SIZE) <? off)) eqn:Erange.
  { apply wp_ret. split; [done|]. right. split; [done|]. intros node len (H0' & p & _ & _ & -> & _ & Hle).
    apply orb_true_iff in Erange. rewrite !Z.ltb_lt in Erange. unfold RECORD_HEADER_SIZE in *. lia. }
  apply orb_false_iff in Erange. rewrite !Z.ltb_ge in Erange.
  assert (8 ≤ DATA_START) by done. unfold RECORD_HEADER_SIZE in *. change (Z.to_nat 8) with 8%nat.
  apply wp_try, wp_on_vfs.
  eapply wp_mono; [apply (dev_read (d_vfs d) off 8); [apply Hi|lia..]|].
  intros r v1 [Hv1 Hr]. destruct r as [header|e]; cbn [map_err]; last first.
  { split; [by exists v1|]. left. exists e. split; [done|]. intros Hrel. specialize (Hr Hrel).
    unfold file in Hw2. lia. }
  destruct Hr as [Hl8 Hhead].
  apply wp_bind. eapply wp_lift; [apply vec_slice_Ok; lia|].
  apply wp_bind. eapply wp_lift; [apply vec_slice_Ok; lia|]. rewrite Hl8.
  replace (take (4 - 0) (drop 0 header)) with (take 4 header) by done.
  replace (take (8 - 4) (drop 4 header)) with (drop 4 header)
    by (rewrite take_ge; [rewrite length_drop; lia|done]).
  apply wp_bind. eapply wp_lift; [apply u64_add_Ok; lia|].
  apply wp_bind. eapply wp_lift; [apply u64_sub_Ok; lia|].
  (* the record, if there is one *)
  assert (∀ node len, holds_record (file d) (d_watermark d) off node len → ∃ p,
    le_decode (take 4 header) = Z.of_nat (length p) ∧ le_decode (drop 4 header) = crc32_hash p ∧
    bytes_at (file d) (off + 8) p ∧ decode_node p = ROk node ∧ len = Z.of_nat (length p) ∧
    off + 8 + len ≤ d_watermark d) as Hrec.
  { intros node len (_ & p & Hp & Hd & -> & Hm & Hle). exists p.
    destruct (record_header8 _ _ _ _ Hp Hhead Hl8) as [-> Hpay].
    assert (length (le_encode 4 (Z.of_nat (length p))) = 4%nat) as Hl4 by apply length_le_encode.
    rewrite take_app_le ?Hl4; [lia|]. rewrite take_ge ?Hl4; [lia|].
    rewrite drop_app_ge ?Hl4; [lia|]. rewrite le_decode_4; [unfold u32_max in Hm; lia|].
    replace (4 - 4)%nat with 0%nat by done. rewrite drop_0 le_decode_4; [apply crc32_range|]. done. }
  pose proof (le_decode_range (take 4 header)) as Hlen. rewrite length_take Hl8 in Hlen.
  set (len := le_decode (take 4 header)) in *. change (8 * Z.of_nat (4 `min` 8)) with 32 in Hlen.
  destruct (Z.ltb_spec (d_watermark d - (off + 8)) len) as [Hroom|Hroom].
  { apply wp_ret. split; [by exists v1|]. right. split; [done|].
    intros node l (p & Hp & _ & _ & _ & -> & Hle)%Hrec. lia. }
  apply wp_try, wp_on_vfs. simpl d_vfs.
  eapply wp_mono; [apply (dev_read v1 (off + 8) (Z.to_nat len)); [apply Hv1|lia..]|].
  intros r v2 [Hv2 Hr]. pose proof (dev_same_trans _ _ _ Hv1 Hv2) as Hv12.
  assert (∃ v, set_d_vfs v2 (set_d_vfs v1 d) = set_d_vfs v d ∧ dev_same (d_vfs d) v) as Hsame2 by (by exists v2).
  destruct r as [payload|e]; cbn [map_err]; last first.
  { split; [done|]. left. exists e. split; [done|]. intros Hrel. apply Hv1 in Hrel. specialize (Hr Hrel).
    rewrite (same_view _ _ Hv1) in Hr. unfold file in Hw2. lia. }
  destruct Hr as [Hpl Hpay]. rewrite (same_view _ _ Hv1) in Hpay. change (dev_view (d_vfs d)) with (file d) in *.
  assert (∀ node l, holds_record (file d) (d_watermark d) off node l →
    le_decode (drop 4 header) = crc32_hash payload ∧ decode_node payload = ROk node ∧
    l = Z.of_nat (length payload)) as Hrec'.
  { intros node l (p & Hp & Hc & Hat & Hd & -> & Hle)%Hrec.
    assert (p = payload) as <-; [|done]. eapply bytes_at_unique; [done|done|]. lia. }
  destruct (Z.eqb_spec (crc32_hash payload) (le_decode (drop 4 header))) as [Hcrc|Hcrc]; cbn [negb]; last first.
  { apply wp_ret. split; [done|]. right. split; [done|]. intros node l (? & _)%Hrec'. congruence. }
  destruct (decode_node payload) as [node|] eqn:Ed; apply wp_ret; (split; [done|]).
  - split; [lia|]. exists payload. split_and!; [|done|done|unfold u32_max; lia|unfold RECORD_HEADER_SIZE; lia].
    unfold record_bytes. rewrite app_assoc. apply bytes_at_app.
    assert (le_encode 4 (Z.of_nat (length payload)) ++ le_encode 4 (crc32_hash payload) = header) as ->.
    { rewrite Hcrc Hpl. rewrite -{2}(take_drop 4 header). f_equal.
      - rewrite Z2Nat.id; [lia|]. unfold len. pose proof (le_encode_decode (take 4 header)) as E4.
        rewrite length_take Hl8 in E4. exact E4.
      - pose proof (le_encode_decode (drop 4 header)) as E4. by rewrite length_drop Hl8 in E4. }
    rewrite Hl8. done.
  - right. split; [done|]. intros node l (_ & ? & _)%Hrec'. congruence.
Qed.

(** ** Interning the children *)

Lemma alloc_on_disk_spec X o d :
  disk_inv d → o < d_watermark d → interned_child d o → wp (alloc_on_disk o) (λ id d', disk_inv d' ∧ refreshes X d d' ∧
    d_cache d' = d_cache d ∧ d_slots d `prefix_of` d_slots d' ∧ d_offsets d' !! o = Some id) d.
Proof.
  intros Hi Hbelow Hch. unfold alloc_on_disk. apply wp_bind, wp_get.
  destruct (d_offsets d !! o) as [id|] eqn:Eo.
  { destruct (di_offsets _ Hi _ _ Eo) as (s & Hs & Hne). apply wp_bind. eapply wp_slot; [exact Hs|].
    assert (wp (mret id : M E NodeId) (λ id d', disk_inv d' ∧ refreshes X d d' ∧
      d_cache d' = d_cache d ∧ d_slots d `prefix_of` d_slots d' ∧ d_offsets d' !! o = Some id) d) as Hret
      by (apply wp_ret; split_and!; [done|by apply refreshes_refl, Hi|done|done|done]).
    by destruct s. }
  apply wp_bind, wp_modify, wp_bind, wp_modify, wp_ret.
  set (d' := set_d_offsets (<[o:=length (d_slots d)]> (d_offsets d))
    (set_d_slots (d_slots d ++ [OnDisk o]) d)).
  assert (∀ o' id, d_offsets d !! o' = Some id → d_offsets d' !! o' = Some id) as Hof.
  { intros o' id Ho'. simpl. rewrite lookup_insert_ne; [by intros ->; congruence|done]. }
  assert (∀ i s, (d_slots d ++ [OnDisk o]) !! i = Some s →
    (d_slots d !! i = Some s) ∨ (i = length (d_slots d) ∧ s = OnDisk o)) as Hsl.
  { intros i s [?|[Hge Hs]]%lookup_app_Some; [by left|right].
    apply list_lookup_singleton_Some in Hs as [? <-]. split; [lia|done]. }
  assert (interned_child d' o) as Hch'.
  { destruct Hch as (off & id & s & ps & offs & b & len & Hoff & Hs & Hc & Hrest).
    exists off, id, s, ps, offs, b, len. split; [by apply Hof|]. split; [by apply lookup_app_l_Some|done]. }
  assert (refreshes X d d') as Hr.
  { split; try done; simpl; [by apply dev_same_refl, Hi| |].
    - intros i s Hs. exists s. split; [by apply lookup_app_l_Some|apply slot_step_refl].
    - intros o' i. destruct (decide (o' = o)) as [->|Hne].
      + rewrite lookup_insert_eq. intros [= <-]. right. split; [done|]. split; [|done]. exists (OnDisk o).
        split; [by rewrite lookup_app_r ?Nat.sub_diag|done].
      + rewrite lookup_insert_ne; [done|]. by left. }
  split_and!; [|exact Hr|done|by apply prefix_app_r|simpl; by rewrite lookup_insert_eq].
  split; try apply Hi; simpl.
  - intros i n off bytes tick [Hs|[_ [=]]]%Hsl.
    destruct (di_clean _ Hi _ _ _ _ _ Hs) as (o' & -> & Hm & Ho'). exists o'. split; [done|].
    split; [by eapply node_matches_refreshes|]. by apply Hof.
  - intros i o' [Hs|[-> [= ->]]]%Hsl; [by apply Hof, Hi|]. by rewrite lookup_insert_eq.
  - intros i n o' bytes tick [Hs|[_ [=]]]%Hsl. by eapply Hof, di_dirty.
  - intros o' i. destruct (decide (o' = o)) as [->|Hne]; [done|].
    rewrite lookup_insert_ne; [done|]. by apply Hi.
  - intros o' i. destruct (decide (o' = o)) as [->|Hne].
    + rewrite lookup_insert_eq. intros [= <-]. exists (OnDisk o). by rewrite lookup_app_r ?Nat.sub_diag.
    + rewrite lookup_insert_ne; [done|]. intros Ho'. destruct (di_offsets _ Hi _ _ Ho') as (s & Hs & ?).
      exists s. split; [by apply lookup_app_l_Some|done].
  - rewrite total_bytes_app (di_bytes _ Hi). simpl. lia.
  - rewrite (di_resident _ Hi). unfold resident. rewrite sum_list_with_app. simpl. lia.
  - apply Forall_app. split; [apply Hi|]. by repeat constructor.
  - eapply Forall_impl; [apply Hi|]. intros x. rewrite length_app. simpl. lia.
Qed.

Lemma intern_children_spec X offs d :
  disk_inv d → Forall (λ o, o < d_watermark d ∧ interned_child d o) offs → wp (intern_children offs) (λ chs d', disk_inv d' ∧ refreshes X d d' ∧
    d_cache d' = d_cache d ∧ d_slots d `prefix_of` d_slots d' ∧ Forall2 (λ c o, d_offsets d' !! o = Some c) chs offs) d.
Proof.
  revert d. induction offs as [|o offs IH]; intros d Hi Hb; unfold intern_children; cbn [mapM].
  - apply wp_ret. split_and!; [done|by apply refreshes_refl, Hi|done|done|constructor].
  - apply Forall_cons in Hb as [[Hb Hch] Hbs].
    apply wp_bind. eapply wp_mono; [by apply (alloc_on_disk_spec X)|]. intros c d1 (Hi1 & Hr1 & Hc1 & Hp1 & Ho1).
    apply wp_bind. eapply wp_mono; [apply IH; [done|]|].
    { rewrite (rf_watermark _ _ _ Hr1). eapply Forall_impl; [exact Hbs|].
      intros o' [? ?]. split; [done|by eapply interned_child_refreshes]. } intros chs d2 (Hi2 & Hr2 & Hc2 & Hp2 & Ho2).
    apply wp_ret. split_and!; [done|by eapply refreshes_trans|congruence|by etrans|].
    constructor; [by apply Hr2|done].
Qed.

(** No tree is stored at [off]. *)
Definition no_tree d (off : Z) : Prop := ∀ Q t, ¬ stored Q (file d) (d_watermark d) t off.

Lemma adopt_record_spec X off id disk_node len d :
  disk_inv d → d_slots d !! id = Some (OnDisk off) → holds_record (file d) (d_watermark d) off disk_node len →
  wp (adopt_record off disk_node) (λ r d', disk_inv d' ∧ refreshes X d d' ∧ d_cache d' = d_cache d ∧
    d_slots d `prefix_of` d_slots d' ∧ match r with
    | ROk n => node_matches d' off n
    | RErr e => d' = d ∧ e = CorruptNode off ∧ no_tree d off
    end) d.
Proof.
  intros Hi Hs Hh. destruct disk_node as [ps offs b|e]; cbn [adopt_record]; last first.
  { apply wp_ret. split_and!; [done|by apply refreshes_refl, Hi|done|done|]. by exists (DiskLeaf e), len. }
  assert (∀ Q t, stored Q (file d) (d_watermark d) t off →
    length offs = S (length ps) ∧ Forall (λ o', DATA_START ≤ o' < off) offs) as Hst.
  { intros Q t Ht. destruct (stored_record _ _ _ _ _ Ht) as (_ & node' & len' & Hh' & Hm).
    destruct (holds_record_fun _ _ _ _ _ _ _ _ Hh Hh') as [-> _]. destruct t; naive_solver. }
  destruct (Nat.eqb_spec (length offs) (length ps + 1)) as [Ear|Ear]; cbn [negb]; last first.
  { apply wp_ret. split_and!; [done|by apply refreshes_refl, Hi|done|done|done|done|].
    intros Q t [? _]%Hst. lia. }
  destruct (existsb _ offs) eqn:Ex.
  { apply wp_ret. split_and!; [done|by apply refreshes_refl, Hi|done|done|done|done|].
    intros Q t [_ Hf]%Hst. apply existsb_exists in Ex as (o' & Hin & Ho').
    rewrite Forall_forall in Hf. apply list_elem_of_In, Hf in Hin. apply orb_true_iff in Ho'. lia. }
  assert (Forall (λ o', DATA_START ≤ o' < off) offs) as Hrange.
  { apply Forall_forall. intros o' Hin. destruct (decide (DATA_START ≤ o' < off)) as [|Hno]; [done|].
    assert (existsb (λ child, (child <? DATA_START) || (off <=? child)) offs = true) as Ht; [|congruence].
    apply existsb_exists. exists o'. split; [by apply list_elem_of_In|]. apply orb_true_iff. lia. }
  pose proof Hh as (_ & p & _ & _ & Hlen & _ & Hend). unfold RECORD_HEADER_SIZE in Hend.
  apply wp_bind. eapply wp_mono; [apply (intern_children_spec X); [done|]|].
  { apply Forall_forall. intros o' Hin. rewrite Forall_forall in Hrange. specialize (Hrange o' Hin).
    split; [lia|]. exists off, id, (OnDisk off), ps, offs, b, len.
    split_and!; [by eapply di_on_disk|done..|lia]. }
  intros chs d1 (Hi1 & Hr1 & Hc1 & Hp1 & Ho1). apply wp_ret. split_and!; [done|done|done|done|].
  exists (DiskInternal ps offs b), len. rewrite (file_refreshes _ _ _ Hr1) (rf_watermark _ _ _ Hr1).
  split_and!; [done|done|done|lia|done|done].
Qed.

(** ** [ensure_loaded] *)

(** A record that becomes resident. *)
Lemma load_step X d id off n bytes k :
  disk_inv d → d_slots d !! id = Some (OnDisk off) → node_matches d off n → 0 ≤ bytes →
  let d' := set_d_cache (set_c_misses k (set_c_resident (c_bytes (d_cache d) + bytes)
    (c_resident (d_cache d) + 1) (d_cache d)))
    (set_d_slots (<[id:=Loaded n false (Some off) bytes 0]> (d_slots d)) d) in
  disk_inv d' ∧ refreshes X d d'.
Proof.
  intros Hi Hs Hm Hb d'. pose proof (lookup_lt_Some _ _ _ Hs) as Hlt.
  pose proof (di_on_disk _ Hi _ _ Hs) as Ho.
  assert (∀ i s', <[id:=Loaded n false (Some off) bytes 0]> (d_slots d) !! i = Some s' →
    (i = id ∧ s' = Loaded n false (Some off) bytes 0) ∨ (i ≠ id ∧ d_slots d !! i = Some s')) as Hinv.
  { intros i s' Hi'. destruct (decide (i = id)) as [->|Hne].
    - rewrite list_lookup_insert_eq in Hi'; [done|]. injection Hi' as <-. auto.
    - rewrite list_lookup_insert_ne in Hi'; [done|]. auto. }
  assert (refreshes X d d') as Hr.
  { split; try done; simpl; [by apply dev_same_refl, Hi| |auto].
    intros i s0 Hs0. destruct (decide (i = id)) as [->|Hne].
    - eexists. rewrite list_lookup_insert_eq; [done|]. split; [done|].
      rewrite Hs in Hs0. by injection Hs0 as <-.
    - exists s0. rewrite list_lookup_insert_ne; [done|]. split; [done|apply slot_step_refl]. }
  split; [|done]. split; try apply Hi; simpl.
  - intros i n' off' bytes' t [[-> Heq]|[Hne Hi']]%Hinv; [injection Heq as -> -> -> ->; by exists off|].
    exact (di_clean _ Hi _ _ _ _ _ Hi').
  - intros i o [[-> [=]]|[Hne Hi']]%Hinv. by eapply di_on_disk.
  - intros i n' o bytes' t [[-> [=]]|[Hne Hi']]%Hinv. by eapply di_dirty.
  - intros o i Hoi. destruct (decide (i = id)) as [->|Hne].
    + eexists. by rewrite list_lookup_insert_eq.
    + rewrite list_lookup_insert_ne; [done|]. by eapply di_offsets.
  - rewrite (total_bytes_insert _ _ _ _ Hs) (di_bytes _ Hi). simpl. lia.
  - pose proof (resident_insert _ _ _ (Loaded n false (Some off) bytes 0) Hs).
    rewrite (di_resident _ Hi). simpl in *. lia.
  - apply Forall_insert; [apply Hi|done].
  - rewrite length_insert. apply Hi.
Qed.

(** The counters have room for [n] more loads. *)
Record room (n : Z) d : Prop := {
  rm_tick : c_tick (d_cache d) + n * (Z.of_nat (length (c_lru (d_cache d))) + n + 2) ≤ u64_max;
  rm_evics : c_evictions (d_cache d) + n * (Z.of_nat (length (c_lru (d_cache d))) + n + 2) ≤ u64_max;
  rm_hits : c_hits (d_cache d) + n ≤ u64_max;
  rm_misses : c_misses (d_cache d) + n ≤ u64_max;
  rm_over : c_overcommit_events (d_cache d) + n ≤ u64_max;
  rm_bytes : c_bytes (d_cache d) + n * d_watermark d ≤ u64_max;
}.

Lemma room_weaken n m d : disk_inv d → room n d → (0 ≤ m ≤ n)%Z → room m d.
Proof.
  intros Hi [] Hm. pose proof (di_watermark _ Hi) as [? _]. assert (0 ≤ DATA_START) by done.
  split; nia.
Qed.

(** What one load can cost. *)
Definition load_cost d d' : Prop :=
  let l := Z.of_nat (length (c_lru (d_cache d))) in spends (l + 2) 1 1 1 1 (l + 1) (d_watermark d) d d'.

Lemma room_load n d d' X :
  0 ≤ n → disk_inv d → room (n + 1) d → refreshes X d d' → load_cost d d' → room n d'.
Proof.
  intros Hn Hi [] Hr []. pose proof (di_watermark _ Hi) as [? _]. assert (0 ≤ DATA_START) by done.
  split; rewrite ?(rf_watermark _ _ _ Hr); nia.
Qed.

(** Loading a node; without a budget every resident node stays. *)
Lemma ensure_loaded_kept ov id pins d s :
  disk_inv d → (ov = false → room 1 d) → d_slots d !! id = Some s → s ≠ Freed →
  wpo ov (ensure_loaded id pins) (λ r d', disk_inv d' ∧
    refreshes (λ i, i ∈ pins ∨ c_budget (d_cache d) = None) d d' ∧ load_cost d d' ∧
    match r with
    | ROk _ => ∃ n dirty off bytes tick, d_slots d' !! id = Some (Loaded n dirty off bytes tick)
    | RErr e => ∃ off, s = OnDisk off ∧ load_error d off (no_tree d off) e
    end) d.
Proof using All.
  intros Hi Hroom Hs Hne. pose proof (di_watermark _ Hi) as [Hw1 Hw2]. pose proof (di_u64 _ Hi) as Hw3.
  assert (0 ≤ DATA_START) by done. 
  assert (Ht := λ E, rm_tick _ _ (Hroom E)). assert (Hev := λ E, rm_evics _ _ (Hroom E)).
  assert (Hh := λ E, rm_hits _ _ (Hroom E)). assert (Hmi := λ E, rm_misses _ _ (Hroom E)).
  assert (Hov := λ E, rm_over _ _ (Hroom E)). assert (Hby := λ E, rm_bytes _ _ (Hroom E)). clear Hroom.
  unfold ensure_loaded. apply wpo_bind. eapply wpo_slot; [exact Hs|].
  destruct s as [n dirty off bytes tick|off|]; [| |done].
  - (* a hit *)
    apply wpo_bind, wpo_get, wpo_bind. apply wpo_u64_add; [done|intros _]. apply wpo_bind, wpo_modify.
    destruct (on_cache_step (λ _, True) (set_c_hits (c_hits (d_cache d) + 1) (d_cache d)) d)
      as [Hi1 Hr1]; [done|done|apply Hi|].
    change (on_cache (set_c_hits (c_hits (d_cache d) + 1)) d)
      with (set_d_cache (set_c_hits (c_hits (d_cache d) + 1) (d_cache d)) d).
    set (d1 := set_d_cache _ d) in *. apply wpo_bind.
    eapply wpo_mono; [apply (touch_ov ov (λ _, True) id d1); [done|by eapply lookup_lt_Some|simpl; ov_lia]|].
    intros [] d2 (Hi2 & Hr2 & Hs2). apply wpo_ret.
    pose proof (refreshes_trans _ _ _ _ Hr1 Hr2) as Hr. split; [done|]. split.
    { by eapply refreshes_weaken; [|exact Hr]. }
    split; [destruct Hs2; split; simpl in *; lia|].
    destruct (rf_slots _ _ _ Hr _ _ Hs) as (s' & Hs' & Hst).
    destruct dirty; [destruct Hst as [? ->]; eauto 10|].
    destruct Hst as [[? ->]|[[] _]]; [eauto 10|done].
  - (* a miss *)
    apply wpo_try. eapply wpo_mono; [by apply wp_wpo, read_record_spec|].
    intros r d1 [(v & -> & Hv) Hr]. destruct (vfs_step (λ _, True) v d Hi Hv) as [Hi1 Hr1].
    destruct r as [[disk_node len]|e]; last first.
    { split; [done|]. split; [by eapply refreshes_weaken; [|exact Hr1]|]. split; [split; simpl; lia|].
      exists off. split; [done|]. destruct Hr as [Hio|[-> Hnone]]; [by left|right]. split; [done|]. intros Q t Hst.
      destruct (stored_record _ _ _ _ _ Hst) as (_ & node & l & Hh' & _). by eapply Hnone. }
    assert (file (set_d_vfs v d) = file d) as Hf by apply Hv.
    apply wpo_try. eapply wpo_mono; [apply wp_wpo, (adopt_record_spec (λ _, True) off id disk_node len); [done|done|]|].
    { by rewrite Hf. }
    intros r d2 (Hi2 & Hr2 & Hc2 & Hp2 & Hr2'). pose proof (refreshes_trans _ _ _ _ Hr1 Hr2) as Hr12.
    destruct r as [n|e]; last first.
    { destruct Hr2' as (-> & -> & Hnone). split; [done|]. split; [by eapply refreshes_weaken; [|exact Hr12]|]. split; [split; simpl; lia|].
      exists off. split; [done|]. right. split; [done|]. unfold no_tree in *. by rewrite Hf in Hnone. }
    simpl in Hc2. destruct Hr as (Hoff & p & _ & _ & -> & _ & Hlen). unfold RECORD_HEADER_SIZE in *.
    apply wpo_bind. apply wpo_u64_add; [ov_lia|intros _].
    assert (d_slots d2 !! id = Some (OnDisk off)) as Hs2 by by eapply prefix_lookup_Some.
    apply wpo_bind, wpo_modify, wpo_bind. unfold account. apply wpo_bind, wpo_get, wpo_bind.
    apply wpo_u64_add; [simpl; rewrite Hc2; ov_lia|intros _]. apply wpo_modify, wpo_bind, wpo_get, wpo_bind.
    apply wpo_u64_add; [simpl; rewrite Hc2; ov_lia|intros _]. apply wpo_bind, wpo_modify.
    destruct (load_step (λ _, True) d2 id off n (8 + Z.of_nat (length p)) (c_misses (d_cache d2) + 1))
      as [Hi3 Hr3]; [done|done|done|lia|].
    match type of Hi3 with disk_inv ?x => set (d3 := x) in * end.
    match goal with |- wpo _ ?m ?Q _ => change (wpo ov m Q d3) end.
    assert (d_slots d3 !! id = Some (Loaded n false (Some off) (8 + Z.of_nat (length p)) 0)) as Hs3
      by (simpl; rewrite list_lookup_insert_eq; [by eapply lookup_lt_Some|done]).
    assert (spends 0 0 0 1 0 0 (d_watermark d) d d3) as Hsp3 by (split; simpl; rewrite Hc2; lia).
    apply wpo_bind. eapply wpo_mono; [apply (touch_ov ov (λ _, True) id d3);
      [done|by eapply lookup_lt_Some|destruct Hsp3; ov_lia]|].
    intros _ d4 (Hi4 & Hr4 & Hsp4). apply wpo_bind. unfold fine.
    eapply wpo_mono; [apply (enforce_budget_kept ov pins (Some id) d4); [done|destruct Hsp3, Hsp4; ov_lia..]|].
    intros [] d5 (Hi5 & Hr5 & Hsp5). apply wpo_ret. split; [done|]. split.
    { assert (c_budget (d_cache d4) = c_budget (d_cache d)) as Eb.
      { by rewrite (rf_budget _ _ _ Hr4) (rf_budget _ _ _ Hr3) (rf_budget _ _ _ Hr12). }
      pose proof (refreshes_trans _ _ _ _ Hr12 (refreshes_trans _ _ _ _ Hr3 Hr4)) as Hr14.
      eapply refreshes_trans; [by eapply refreshes_weaken; [|exact Hr14]|].
      eapply refreshes_weaken; [|exact Hr5]. rewrite Eb. intros i [?|?]; [by left; left|by right]. }
    split; [unfold load_cost; destruct Hsp3, Hsp4, Hsp5; split; simpl in *; lia|].
    assert (refreshes (λ i, i = id) d3 d5) as Hr35.
    { eapply refreshes_trans; [by eapply refreshes_weaken; [|exact Hr4]|].
      eapply refreshes_weaken; [|exact Hr5]. intros i ->. by left; right. }
    destruct (rf_slots _ _ _ Hr35 _ _ Hs3) as (s' & Hs' & Hst).
    destruct Hst as [[? ->]|[[] _]]; [by eauto 10|done].
Qed.

Lemma ensure_loaded_ov ov id pins d s :
  disk_inv d → (ov = false → room 1 d) → d_slots d !! id = Some s → s ≠ Freed →
  wpo ov (ensure_loaded id pins) (λ r d', disk_inv d' ∧ refreshes (λ i, i ∈ pins) d d' ∧ load_cost d d' ∧
    match r with
    | ROk _ => ∃ n dirty off bytes tick, d_slots d' !! id = Some (Loaded n dirty off bytes tick)
    | RErr e => ∃ off, s = OnDisk off ∧ load_error d off (no_tree d off) e
    end) d.
Proof using All.
  intros. eapply wpo_mono; [by apply ensure_loaded_kept|]. intros r d' (? & ? & ?).
  split; [done|]. split; [eapply refreshes_weaken; [|done]; by left|done].
Qed.

Lemma ensure_loaded_spec id pins d s :
  disk_inv d → room 1 d → d_slots d !! id = Some s → s ≠ Freed →
  wp (ensure_loaded id pins) (λ r d', disk_inv d' ∧ refreshes (λ i, i ∈ pins) d d' ∧ load_cost d d' ∧
    match r with
    | ROk _ => ∃ n dirty off bytes tick, d_slots d' !! id = Some (Loaded n dirty off bytes tick)
    | RErr e => ∃ off, s = OnDisk off ∧ load_error d off (no_tree d off) e
    end) d.
Proof using All. intros. apply wpo_wp. by apply ensure_loaded_ov. Qed.
End load.
