(* ===== verification/DiskReads.v ===== *)
(** * Reads of the disk engine

    [try_get] answers from the tree the engine represents, loading what it
    needs; on a file with arbitrary contents it never panics. *)

From S2P Require Export DiskLoad.
From stdpp Require Import options.
From Stdlib Require Import ZArith.

(** ** Shapes of trees *)
Fixpoint depth (t : tree) : nat :=
  match t with TLeaf _ _ => 1 | TInt _ _ ks _ => S (foldr (λ c n, depth c `max` n) 0 ks) end.

Definition node_shaped (n : Node) : Prop :=
  match n with Internal ps chs _ => length chs = S (length ps) | Leaf _ => True end.
(** Every internal node has one more child than pivots. *)
Definition shaped (t : tree) : Prop := Forall (λ x, node_shaped x.2) (nodes_of t).

Lemma depth_child (ks : list tree) c : c ∈ ks → depth c ≤ foldr (λ c n, depth c `max` n) 0 ks.
Proof. induction 1; simpl; lia. Qed.

Lemma shaped_TInt id ps ks b :
  shaped (TInt id ps ks b) ↔ length ks = S (length ps) ∧ Forall shaped ks.
Proof.
  unfold shaped. simpl. rewrite Forall_cons /= length_map. f_equiv.
  induction ks as [|c ks IH]; simpl; [split; constructor|]. by rewrite Forall_app Forall_cons IH.
Qed.

Section reads.
Context {V P : Type} `{DeviceLaws V} `{CodecLaws} `{FlushPolicy P}.
Notation E := (DiskEngine V P).
Implicit Types d : E.

Lemma d_fuel_ge d n :
  n ≤ 256 * (sum_list_with slot_cost (d_slots d) +
    Z.to_nat (d_watermark d) * Z.to_nat (d_watermark d) + 1) ^ 4 → n ≤ 2 ^ d_fuel d.
Proof.
  intros Hn. apply pow_size_ge. by rewrite N2Nat.inj_add N2Nat.inj_mul Nat2N.id Z_N_nat.
Qed.

Lemma d_fuel_linear d n : n ≤ length (d_slots d) + Z.to_nat (d_watermark d) + 1 → n ≤ 2 ^ d_fuel d.
Proof.
  intros Hn. apply d_fuel_ge.
  assert (length (d_slots d) ≤ sum_list_with slot_cost (d_slots d)).
  { clear. induction (d_slots d) as [|s ss IH]; simpl; [lia|]. destruct s as [[]| |]; simpl; lia. }
  assert (Z.to_nat (d_watermark d) ≤ Z.to_nat (d_watermark d) * Z.to_nat (d_watermark d)) by nia.
  set (W := _ + Z.to_nat _ * _ + 1). assert (W ≤ W ^ 4); [|lia].
  change 4 with (1 + 3). rewrite Nat.pow_add_r Nat.pow_1_r.
  pose proof (Nat.pow_nonzero W 3). nia.
Qed.

(** Fields that the slots and the cache do not depend on. *)
Definition same_store d d' : Prop :=
  d_vfs d' = d_vfs d ∧ d_slots d' = d_slots d ∧ d_watermark d' = d_watermark d ∧
  d_cache d' = d_cache d ∧ d_offsets d' = d_offsets d.

Lemma disk_inv_same d d' : same_store d d' → disk_inv d → disk_inv d'.
Proof.
  destruct d, d'. unfold same_store. simpl. intros (-> & -> & -> & -> & ->) []. by split.
Qed.

Lemma cached_same d d' t id : same_store d d' → cached d t id → cached d' t id.
Proof.
  destruct d, d'. unfold same_store. simpl. intros (-> & -> & -> & -> & ->). revert id.
  induction t as [i e|i ps ks b IH] using tree_nested_ind; intros id Hca;
    inversion Hca as [? ? s o Hs Hcl Hst|? ? ? ? ? ? Hs|? ? ? ? chs ? ? ? ? Hs Hks]; subst;
    try by eapply cached_clean.
  - by eapply cached_leaf.
  - eapply cached_int; [exact Hs|]. by eapply Forall2_impl_Forall.
Qed.

Lemma wp_try_step {L A B} (m : M E (Result B DiskError))
    (k : B → M E (ctl L (Result A DiskError))) (Q : ctl L (Result A DiskError) → E → Prop) d :
  wp m (λ r d', match r with ROk b => wp (k b) Q d' | RErr e => Q (Break (RErr e)) d' end) d →
  wp (Disk.try_step m k) Q d.
Proof.
  intros Hm. apply wp_bind. eapply wp_mono; [exact Hm|]. intros [b|e] d'; [done|]. apply wp_ret.
Qed.

(** The storage failed. *)
Definition io_error d (e : DiskError) : Prop := ∃ e', e = Io e' ∧ ¬ dev_reliable (d_vfs d).

Lemma refreshes_reliable X d d' : refreshes X d d' → dev_reliable (d_vfs d) → dev_reliable (d_vfs d').
Proof. intros Hr. apply (same_reliable _ _ (rf_vfs _ _ _ Hr)). Qed.

(** Loading a node of a tree that the slots represent: only the storage can
    fail, and the node is then there. *)
Lemma ensure_cached id pins d t :
  disk_inv d → room 1 d → cached d t id →
  wp (Disk.ensure_loaded id pins) (λ r d', disk_inv d' ∧ refreshes (λ i, i ∈ pins) d d' ∧ load_cost d d' ∧
    cached d' t id ∧ match r with
    | ROk _ => ∃ n, wp (loaded id) (λ n' d2, n' = n ∧ d2 = d') d' ∧ match t, n with
        | TLeaf _ e, Leaf e' => e' = e
        | TInt _ ps ks b, Internal ps' chs b' => ps' = ps ∧ b' = b ∧ Forall2 (cached d') ks chs
        | _, _ => False
        end
    | RErr e => io_error d e
    end) d.
Proof using All.
  intros Hi Hroom Hc.
  assert (∃ s, d_slots d !! id = Some s ∧ s ≠ Freed ∧ ∀ off, s = OnDisk off → settled d t off) as (s & Hs & Hne & Hst).
  { inversion Hc as [? ? s o Hs Hcl Hst|? ? ? ? ? ? Hs|? ? ? ? chs ? ? ? ? Hs Hks]; subst;
      eexists; (split; [exact Hs|]); (split; [first [done|by destruct s]|]); [|done|done].
    intros off ->. simpl in Hcl. by subst. }
  eapply wp_mono; [by apply (ensure_loaded_spec id pins d s)|].
  intros r d' (Hi' & Hr & Hcost & Hres). split; [done|]. split; [done|]. split; [done|].
  pose proof (cached_refreshes _ _ _ _ _ Hi Hr Hc) as Hc'. split; [done|].
  destruct r as [_|e].
  - destruct Hres as (n & dirty & off & bytes & tick & Hl). exists n. split.
    + apply wp_bind. eapply wp_slot; [exact Hl|]. by apply wp_ret.
    + by eapply cached_loaded.
  - destruct Hres as (off & -> & [(e' & -> & Hrel)|[-> Hnone]]); [by exists e'|].
    exfalso. by eapply Hnone, Hst.
Qed.

(** [try_get], from a tree that the engine represents. *)
Lemma get_loop_cached d0 t key :
  disk_inv d0 → cached d0 t (d_root d0) → shaped t → room (Z.of_nat (depth t)) d0 →
  depth t ≤ length (d_slots d0) + Z.to_nat (d_watermark d0) →
  wp (loopM d_fuel (Disk.get_step key) (None, d_root d0)) (λ r d', disk_inv d' ∧
    refreshes (λ _, False) d0 d' ∧ match r with
    | ROk v => v = vval (view t key)
    | RErr e => io_error d0 e
    end) d0.
Proof using All.
  intros Hi Hc Hsh Hroom Hd.
  apply (wp_loopM _ _ (λ n '(chain, id) d, disk_inv d ∧ refreshes (λ _, False) d0 d ∧
    room (Z.of_nat n) d ∧ ∃ c, cached d c id ∧ shaped c ∧ depth c ≤ n ∧
    apply_chain chain (vval (view c key)) = vval (view t key)) _ (depth t)).
  - clear Hi Hc Hsh Hroom Hd. intros n [chain id] d (Hi & Hr & Hroom & c & Hc & Hsh & Hdep & Hv).
    destruct n as [|n]; [destruct c; simpl in Hdep; lia|].
    apply wp_try_step. eapply wp_mono; [apply (ensure_cached id [] d c); [done| |done]|].
    { eapply room_weaken; [done|exact Hroom|lia]. }
    intros r d' (Hi' & Hr' & Hcost & Hc' & Hres).
    assert (refreshes (λ _, False) d0 d') as Hr0
      by (eapply refreshes_trans; [done|]; eapply refreshes_weaken; [|done]; set_solver).
    destruct r as [_|e]; last first.
    { split; [done|]. split; [done|]. destruct Hres as (e' & -> & Hrel). exists e'. split; [done|].
      intros ?. apply Hrel. by eapply refreshes_reliable. }
    assert (room (Z.of_nat n) d') as Hroom'.
    { eapply room_load; [lia|exact Hi| |exact Hr'|exact Hcost]. by replace (Z.of_nat n + 1)%Z with (Z.of_nat (S n)) by lia. }
    destruct Hres as (nd & Hload & Hm). apply wp_bind. eapply wp_mono; [exact Hload|].
    intros n' d2 [-> ->]. destruct c as [i e|i ps ks b], nd as [ps' chs b'|e']; try done.
    + subst e'. apply wp_ret. split; [done|]. split; [done|]. by rewrite -Hv.
    + destruct Hm as (-> & -> & Hks). apply shaped_TInt in Hsh as [Hlen Hshs].
      destruct (lookup_lt_is_Some_2 ks (route ps key)) as [k Hk]; [pose proof (route_le ps key); lia|].
      destruct (Forall2_lookup_l _ _ _ _ _ Hks Hk) as (cid & Hcid & Hck).
      rewrite view_TInt /kview Hk in Hv.
      assert (∀ chain', apply_chain chain' (vval (view k key)) = vval (view t key) →
        wp (id ← lift (expect (chs !! route ps key)); mret (Continue (chain', id)))
          (λ c d', match c with
           | Continue l' => ∃ n', n' < S n ∧ (let '(chain, id) := l' in disk_inv d' ∧
               refreshes (λ _, False) d0 d' ∧ room (Z.of_nat n') d' ∧ ∃ c, cached d' c id ∧ shaped c ∧
               depth c ≤ n' ∧ apply_chain chain (vval (view c key)) = vval (view t key))
           | Break r => disk_inv d' ∧ refreshes (λ _, False) d0 d' ∧
               match r with ROk v => v = vval (view t key) | RErr e => io_error d0 e end
           end) d') as Hdescend.
      { intros chain' Hv'. apply wp_bind. eapply wp_lift; [by rewrite Hcid|]. apply wp_ret.
        exists n. split; [lia|]. split; [done|]. split; [done|]. split; [done|]. exists k.
        split; [done|]. split; [rewrite Forall_forall in Hshs; by eapply Hshs, list_elem_of_lookup_2|].
        split; [|done]. pose proof (depth_child ks k (list_elem_of_lookup_2 _ _ _ Hk)).
        simpl in Hdep. lia. }
      destruct (b !! key) as [[sq v|sq|sq [dl]]|]; cbn [vpush option_list] in Hv.
      * apply wp_ret. split; [done|]. split; [done|]. by rewrite -Hv.
      * apply wp_ret. split; [done|]. split; [done|]. by rewrite -Hv.
      * eapply wp_mono; [apply Hdescend|by intros [[]|]].
        rewrite apply_chain_add -Hv. by destruct (view k key).
      * eapply wp_mono; [apply Hdescend|by intros [[]|]].
        rewrite -Hv. by destruct (view k key).
  - split; [done|]. split; [by apply refreshes_refl, Hi|]. split; [done|]. by exists t.
  - enough (S (depth t) ≤ 2 ^ d_fuel d0) by lia. apply d_fuel_linear. lia.
Qed.

(** [try_get] on a file with any contents: as long as nothing in memory is
    dirty, it returns an answer or a typed error; with room for the counters
    of the cache it cannot overflow. *)
Lemma get_loop_safe ov d0 s0 o0 key :
  disk_inv d0 → (∀ o, clean_offset d0 o) → d_slots d0 !! d_root d0 = Some s0 → clean_at s0 o0 →
  (0 ≤ o0 ≤ d_watermark d0)%Z → (ov = false → room (o0 + 1) d0) →
  wpo ov (loopM d_fuel (Disk.get_step key) (None, d_root d0)) (λ r d', disk_inv d' ∧
    refreshes (λ _, False) d0 d' ∧ match r with
    | ROk _ => True
    | RErr e => io_error d0 e ∨ ∃ off, e = CorruptNode off
    end) d0.
Proof using All.
  intros Hi0 Hcl Hs0 Hc0 Ho0 Hroom.
  apply (wpo_loopM _ ov _ (λ n '(_, id) d, disk_inv d ∧ refreshes (λ _, False) d0 d ∧
    (ov = false → room (Z.of_nat n) d) ∧ ∃ s o, d_slots d !! id = Some s ∧ clean_at s o ∧ (0 ≤ o < Z.of_nat n)%Z)
    _ (S (Z.to_nat o0))).
  - clear Hs0 Hc0 Ho0 Hroom. intros n [chain id] d (Hi & Hr & Hroom & s & o & Hs & Hco & Hon).
    apply wpo_bind. eapply wpo_mono; [apply (ensure_loaded_ov ov id [] d s); [done| |done|by intros ->]|].
    { intros Eov. eapply room_weaken; [done|exact (Hroom Eov)|lia]. }
    intros r d' (Hi' & Hr' & Hcost & Hres).
    assert (refreshes (λ _, False) d0 d') as Hr0
      by (eapply refreshes_trans; [done|]; eapply refreshes_weaken; [|done]; set_solver).
    destruct r as [_|e]; last first.
    { apply wpo_ret. split; [done|]. split; [done|]. destruct Hres as (off & -> & [(e' & -> & Hrel)|[-> _]]); [left|eauto].
      exists e'. split; [done|]. intros ?. apply Hrel. by eapply refreshes_reliable. }
    destruct n as [|n]; [lia|].
    assert (ov = false → room (Z.of_nat n) d') as Hroom'.
    { intros Eov. eapply room_load; [lia|exact Hi| |exact Hr'|exact Hcost]. specialize (Hroom Eov). by replace (Z.of_nat n + 1)%Z with (Z.of_nat (S n)) by lia. }
    destruct Hres as (nd & dirty & off & bytes & tick & Hl).
    destruct (rf_slots _ _ _ Hr' _ _ Hs) as (s' & Hs' & Hst). rewrite Hl in Hs'. injection Hs' as <-.
    pose proof (slot_step_clean _ _ _ _ Hst Hco) as Hco'. destruct dirty; [done|].
    destruct (di_clean _ Hi' _ _ _ _ _ Hl) as (off' & -> & (node & len & _ & Hm) & _). simpl in Hco'. subst off'.
    apply wpo_bind. apply wpo_bind. eapply wpo_slot; [exact Hl|]. apply wpo_ret.
    destruct nd as [ps chs b|e], node as [ps' offs b'|e']; try by (done || apply wpo_ret).
    destruct Hm as (-> & -> & Hlen & Hrange & Hoffs).
    assert (∀ chain' : option Z,
      wpo ov (id ← lift (expect (chs !! route ps key)); mret (Continue (chain', id)))
        (λ (c : ctl (option Z * NodeId) (Result (option Value) DiskError)) d', match c with
         | Continue l' => ∃ n', n' < S n ∧ (let '(_, id) := l' in disk_inv d' ∧ refreshes (λ _, False) d0 d' ∧
             (ov = false → room (Z.of_nat n') d') ∧ ∃ s o, d_slots d' !! id = Some s ∧ clean_at s o ∧ (0 ≤ o < Z.of_nat n')%Z)
         | Break r => disk_inv d' ∧ refreshes (λ _, False) d0 d' ∧
             match r with ROk _ => True | RErr e => io_error d0 e ∨ ∃ off, e = CorruptNode off end
         end) d') as Hdescend.
    { intros chain'.
      destruct (lookup_lt_is_Some_2 offs (route ps key)) as [o' Ho']; [pose proof (route_le ps key); lia|].
      destruct (Forall2_lookup_r _ _ _ _ _ Hoffs Ho') as (cid & Hcid & Hoc).
      destruct (di_offsets _ Hi' _ _ Hoc) as (s' & Hs' & Hne).
      eapply Forall_lookup_1 in Hrange; [|exact Ho']. assert (0 ≤ DATA_START)%Z by done.
      apply wpo_bind. eapply wpo_lift; [by rewrite Hcid|]. apply wpo_ret.
      exists n. split; [lia|]. split; [done|]. split; [done|]. split; [done|]. exists s', o'.
      split; [done|]. split; [|lia].
      destruct (clean_offset_refreshes _ d0 d' o' Hi0 Hr0 (Hcl o') _ _ Hoc Hs'); done. }
    destruct (b !! key) as [[sq v|sq|sq [dl]]|]; try by apply wpo_ret.
    + eapply wpo_mono; [apply Hdescend|by intros [[]|]].
    + eapply wpo_mono; [apply Hdescend|by intros [[]|]].
  - split; [done|]. split; [by apply refreshes_refl, Hi0|].
    split; [intros Eov; specialize (Hroom Eov); by replace (Z.of_nat (S (Z.to_nat o0))) with (o0 + 1)%Z by lia|]. exists s0, o0.
    split; [done|]. split; [done|]. lia.
  - enough (S (S (Z.to_nat o0)) ≤ 2 ^ d_fuel d0) by lia. apply d_fuel_linear. 
    apply lookup_lt_Some in Hs0. lia.
Qed.
End reads.
