(* ===== verification/Recovery.v ===== *)
(** * Recovery: what [open] finds in a file

    The two superblock slots of an image, the superblock that recovery
    chooses, and the engine that [open] builds from it. *)

From S2P Require Export DiskLoad.
From stdpp Require Import options.
From Stdlib Require Import ZArith.

Local Open Scope Z_scope.

Section recovery.
Context `{Codec}.

(** The bytes of the slot at [off], and what they decode to; a slot that the
    file is too short for is invalid. *)
Definition slot_bytes_at (img : list byte) (off : Z) : list byte :=
  take (Z.to_nat SUPERBLOCK_SLOT_SIZE) (drop (Z.to_nat off) img).
Definition status_of (o : outcome SlotStatus) : SlotStatus :=
  match o with Ok st => st | _ => Invalid end.
Definition slot_at (img : list byte) (off : Z) : SlotStatus :=
  status_of (decode_slot (slot_bytes_at img off)).

(** A specification of recovery: any slot of a foreign version refuses the
    file; else the valid slot of the highest generation whose watermark the
    file reaches. *)
Definition newer (best : option Superblock) (sb : Superblock) : bool :=
  match best with None => true | Some b => Format.generation b <? Format.generation sb end.

Definition consider (len : Z) (acc : option Superblock * option Z) (st : SlotStatus)
    : option Superblock * option Z :=
  match st with
  | Valid sb => if (watermark sb <=? len) && newer acc.1 sb then (Some sb, acc.2) else acc
  | WrongVersion found => (acc.1, Some found)
  | Invalid => acc
  end.

Definition scanned (img : list byte) : option Superblock * option Z :=
  foldl (consider (Z.of_nat (length img))) (None, None) (map (slot_at img) SUPERBLOCK_SLOTS).
Definition chosen (acc : option Superblock * option Z) : Result Superblock DiskError :=
  match acc with
  | (_, Some found) => RErr (UnsupportedVersion found)
  | (None, None) => RErr NoValidSuperblock
  | (Some sb, None) => ROk sb
  end.
Definition recovery (img : list byte) : Result Superblock DiskError := chosen (scanned img).

Lemma slot_at_Valid img off sb :
  slot_at img off = Valid sb → decode_slot (slot_bytes_at img off) = Ok (Valid sb).
Proof.
  unfold slot_at. destruct (decode_slot (slot_bytes_at img off)) as [st| | |];
    cbn [status_of]; intros E; by rewrite ?E.
Qed.

(** A foreign version is never forgotten. *)
Lemma consider_wrong len sts best found : (foldl (consider len) (best, Some found) sts).2 ≠ None.
Proof.
  revert best found. induction sts as [|[sb|w|] sts IH]; intros best found; simpl; [done| |by apply IH..].
  destruct (_ && _); apply IH.
Qed.

(** The scan ends with the newest superblock it met. *)
Lemma consider_newest len sts best b :
  foldl (consider len) (best, None) sts = (b, None) →
  (∀ sb, b = Some sb → best = Some sb ∨ (Valid sb ∈ sts ∧ watermark sb ≤ len)) ∧
  (∀ sb, best = Some sb ∨ (Valid sb ∈ sts ∧ watermark sb ≤ len) →
     ∃ sb', b = Some sb' ∧ Format.generation sb ≤ Format.generation sb').
Proof.
  revert best. induction sts as [|[sb0|w|] sts IH]; intros best; simpl.
  - intros [= ->]. split; [auto|]. intros sb [->|[?%not_elem_of_nil _]]; [eauto with lia|done].
  - destruct (watermark sb0 <=? len) eqn:Ew; [apply Z.leb_le in Ew|apply Z.leb_gt in Ew];
      [destruct (newer best sb0) eqn:En|]; simpl; intros Hf; destruct (IH _ Hf) as [H1 H2]; clear IH.
    + split.
      * intros sb Hb. destruct (H1 sb Hb) as [[= <-]|[??]]; [right; split; [by left|done]|]. right. split; [by right|done].
      * intros sb [->|[[Hv|Hv]%elem_of_cons ?]]; [|injection Hv as ->; by apply H2; left|by apply H2; right].
        simpl in En. destruct (H2 sb0) as (sb' & -> & ?); [by left|]. exists sb'. split; [done|]. lia.
    + split.
      * intros sb Hb. destruct (H1 sb Hb) as [?|[??]]; [by left|]. right. split; [by right|done].
      * intros sb [?|[[Hv|Hv]%elem_of_cons ?]]; [by apply H2; left| |by apply H2; right].
        injection Hv as ->. destruct best as [b0|]; [|done]. simpl in En.
        destruct (H2 b0) as (sb' & -> & ?); [by left|]. exists sb'. split; [done|]. lia.
    + split.
      * intros sb Hb. destruct (H1 sb Hb) as [?|[??]]; [by left|]. right. split; [by right|done].
      * intros sb [?|[[Hv|Hv]%elem_of_cons ?]]; [by apply H2; left| |by apply H2; right].
        injection Hv as ->. lia.
  - intros Hf. exfalso. apply (consider_wrong len sts best w). by rewrite Hf.
  - intros Hf. destruct (IH _ Hf) as [H1 H2]. split.
    + intros sb Hb. destruct (H1 sb Hb) as [?|[??]]; [by left|]. right. split; [by right|done].
    + intros sb [?|[[Hv|Hv]%elem_of_cons ?]]; [by apply H2; left|done|by apply H2; right].
Qed.

(** Declaratively. *)
Definition candidate (img : list byte) (sb : Superblock) : Prop :=
  (slot_at img 0 = Valid sb ∨ slot_at img SUPERBLOCK_SLOT_SIZE = Valid sb) ∧
  watermark sb ≤ Z.of_nat (length img).

Lemma chosen_newest len sts sb :
  chosen (foldl (consider len) (None, None) sts) = ROk sb →
  (Valid sb ∈ sts ∧ watermark sb ≤ len) ∧
  ∀ sb', Valid sb' ∈ sts → watermark sb' ≤ len → Format.generation sb' ≤ Format.generation sb.
Proof.
  destruct (foldl _ _ _) as [[sb0|] [found|]] eqn:E; cbn [chosen]; intros ?; simplify_eq.
  destruct (consider_newest _ _ _ _ E) as [H1 H2]. split.
  - by destruct (H1 sb eq_refl) as [[=]|?].
  - intros sb' Hv Hw. destruct (H2 sb') as (sb1 & [= <-] & ?); [by right|done].
Qed.

Lemma slots_of img sb :
  Valid sb ∈ map (slot_at img) SUPERBLOCK_SLOTS ↔
  slot_at img 0 = Valid sb ∨ slot_at img SUPERBLOCK_SLOT_SIZE = Valid sb.
Proof.
  generalize (slot_at img) as f. intros f. unfold SUPERBLOCK_SLOTS. cbn [map].
  rewrite !elem_of_cons elem_of_nil. naive_solver.
Qed.

Lemma recovery_Ok img sb :
  recovery img = ROk sb → candidate img sb ∧
    ∀ sb', candidate img sb' → Format.generation sb' ≤ Format.generation sb.
Proof.
  unfold recovery, scanned. intros [[Hv Hw] Hn]%chosen_newest. apply slots_of in Hv.
  split; [done|]. intros sb' [Hv' Hw']. apply Hn; [by apply slots_of|done].
Qed.

Lemma slot_status_Valid sb sb' : slot_status sb' = Valid sb → sb' = sb ∧ geometry_legal sb.
Proof. unfold slot_status. intros Hst. by repeat case_decide; simplify_eq. Qed.

Lemma slot_at_wf `{!CodecLaws} img off sb :
  slot_at img off = Valid sb → superblock_wf sb ∧ geometry_legal sb.
Proof.
  intros Ho%slot_at_Valid.
  destruct (decode_slot_inv _ _ Ho) as (body & tail & sb' & n & _ & _ & _ & _ & Hr & Hst); [done|].
  destruct (slot_status_Valid sb sb') as [-> ?]; [done|]. split; [by eapply superblock_typed|done].
Qed.

Lemma candidate_wf `{!CodecLaws} img sb : candidate img sb → superblock_wf sb ∧ geometry_legal sb.
Proof. intros [[?|?] _]; by eapply slot_at_wf. Qed.

Lemma slot_at_eq img img' off :
  slot_bytes_at img' off = slot_bytes_at img off → slot_at img' off = slot_at img off.
Proof. unfold slot_at. by intros ->. Qed.

Lemma slot_size_pos : 0 < SUPERBLOCK_SLOT_SIZE.
Proof. done. Qed.

(** What a slot decodes to depends on its bytes alone. *)
Lemma slot_at_agree img img' off :
  0 ≤ off → off + SUPERBLOCK_SLOT_SIZE ≤ Z.of_nat (length img) →
  off + SUPERBLOCK_SLOT_SIZE ≤ Z.of_nat (length img') →
  (∀ i, off ≤ Z.of_nat i < off + SUPERBLOCK_SLOT_SIZE → img' !! i = img !! i) →
  slot_bytes_at img' off = slot_bytes_at img off.
Proof.
  intros H0 Hl Hl' Ha. pose proof slot_size_pos. unfold slot_bytes_at. apply list_eq. intros i.
  destruct (decide (i < Z.to_nat SUPERBLOCK_SLOT_SIZE)%nat).
  - rewrite !lookup_take_lt // !lookup_drop. apply Ha. lia.
  - rewrite !lookup_ge_None_2 ?length_take; [lia..|done].
Qed.
End recovery.

(** ** The scan of the slots *)
Section scan.
Context {V : Type} `{DeviceLaws V} `{CodecLaws}.

Lemma slots_u64 : Forall (λ off, 0 ≤ off ∧ off + SUPERBLOCK_SLOT_SIZE ≤ u64_max) SUPERBLOCK_SLOTS.
Proof. repeat constructor; done. Qed.

Lemma scan_slot_spec off acc (v : V) :
  dev_wf v → 0 ≤ off → off + SUPERBLOCK_SLOT_SIZE ≤ u64_max →
  wp (scan_slot (Z.of_nat (length (dev_view v))) acc off) (λ r v', dev_same v v' ∧
    match r with
    | ROk acc' => acc' = consider (Z.of_nat (length (dev_view v))) acc (slot_at (dev_view v) off)
    | RErr e => ∃ e', e = Io e' ∧ ¬ dev_reliable v
    end) v.
Proof using All.
  intros Hwf Hoff Hmax. pose proof slot_size_pos. unfold scan_slot. destruct acc as [best wrong].
  apply wp_bind. eapply wp_lift; [by apply u64_add_Ok|].
  destruct (Z.ltb_spec (Z.of_nat (length (dev_view v))) (off + SUPERBLOCK_SLOT_SIZE)) as [Hs|Hs].
  { apply wp_ret. split; [by apply dev_same_refl|]. unfold slot_at. rewrite decode_slot_short; [|done].
    unfold slot_bytes_at. rewrite length_take length_drop. lia. }
  apply wp_try, wp_bind. eapply wp_mono; [apply (dev_read v off (Z.to_nat SUPERBLOCK_SLOT_SIZE)); [done..|]|].
  { lia. }
  intros r v1 [Hv1 Hr]. apply wp_ret. destruct r as [bs|e]; cbn [map_err]; last first.
  { split; [done|]. exists e. split; [done|]. intros Hrel. specialize (Hr Hrel). lia. }
  destruct Hr as [Hl Hbs].
  assert (bs = slot_bytes_at (dev_view v) off) as ->.
  { eapply bytes_at_unique; [exact Hbs|apply bytes_at_take_drop; lia|].
    rewrite Hl length_take length_drop. lia. }
  destruct (decode_slot_total (slot_bytes_at (dev_view v) off)) as [st Est].
  apply wp_bind. eapply wp_lift; [exact Est|]. apply wp_ret. split; [done|].
  unfold slot_at. rewrite Est. by destruct st.
Qed.

Lemma scan_slots_spec slots acc (v v0 : V) :
  dev_wf v0 → dev_same v0 v → Forall (λ off, 0 ≤ off ∧ off + SUPERBLOCK_SLOT_SIZE ≤ u64_max) slots →
  wp (tfold (scan_slot (Z.of_nat (length (dev_view v0)))) acc slots) (λ r v', dev_same v0 v' ∧
    match r with
    | ROk acc' => acc' = foldl (consider (Z.of_nat (length (dev_view v0)))) acc
        (map (slot_at (dev_view v0)) slots)
    | RErr e => ∃ e', e = Io e' ∧ ¬ dev_reliable v0
    end) v.
Proof using All.
  intros Hwf Hsame Hs. revert acc v Hsame. induction Hs as [|off slots [Hoff Hmax] Hs IH]; intros acc v Hsame.
  { by apply wp_ret. }
  cbn [tfold map foldl]. rewrite -(same_view _ _ Hsame). apply wp_try.
  eapply wp_mono; [apply (scan_slot_spec off acc v); [apply Hsame|done..]|].
  intros r v1 [Hv1 Hr]. pose proof (dev_same_trans _ _ _ Hsame Hv1) as Hv.
  destruct r as [acc'|e]; last first.
  { split; [done|]. destruct Hr as (e' & -> & Hrel). exists e'. split; [done|].
    intros Hr0. by apply Hrel, Hsame. }
  subst acc'. rewrite (same_view _ _ Hsame). by apply IH.
Qed.

(** [recover] chooses what the specification chooses, and truncates the
    file to the committed bytes. *)
Definition settles (v v' : V) (w : Z) : Prop :=
  dev_wf v' ∧ one_more v v' ∧
  (∀ img', dev_images v' img' → ∃ img, dev_images v img ∧
     (img' = img ∨ img' = resize (Z.to_nat w) x00 img)) ∧
  dev_view v' = resize (Z.to_nat w) x00 (dev_view v) ∧ dev_pending v' = dev_pending v ∧
  (dev_healthy v → dev_healthy v') ∧ (dev_reliable v → dev_reliable v').

Lemma recover_spec (v : V) :
  dev_wf v → wp recover (λ r v', match r with
    | ROk sb => recovery (dev_view v) = ROk sb ∧ settles v v' (watermark sb)
    | RErr (Io _) => ¬ dev_reliable v
    | RErr e => recovery (dev_view v) = RErr e
    end) v.
Proof using All.
  intros Hwf. unfold recover. apply wp_bind, wp_get.
  pose proof (dev_len v Hwf) as Hlen. destruct (vfs_len v) as [n|e]; [|by apply wp_ret]. subst n.
  apply wp_try. eapply wp_mono; [apply (scan_slots_spec SUPERBLOCK_SLOTS (None, None) v v Hwf)|].
  { by apply dev_same_refl. }
  { exact slots_u64. }
  intros r v1 [Hv1 Hr]. destruct r as [acc|e]; [|destruct Hr as (e' & -> & ?); done].
  assert (recovery (dev_view v) = chosen acc) as Erec0 by (by rewrite Hr). clear Hr. rewrite Erec0.
  destruct (chosen acc) as [sb|e] eqn:Erec.
  - destruct (recovery_Ok _ _ Erec0) as [Hcand _]. destruct (candidate_wf _ _ Hcand) as [_ (Hr1 & Hr2 & _)].
    destruct Hcand as [_ Hw]. pose proof (dev_length v Hwf). assert (0 ≤ DATA_START) by done.
    assert (0 ≤ RECORD_HEADER_SIZE) by done.
    destruct acc as [[sb'|] [w|]]; cbn [chosen] in Erec; simplify_eq.
    apply wp_try, wp_bind. eapply wp_mono; [apply (dev_set_len v1 (watermark sb)); [apply Hv1|lia]|].
    intros r v2 (Hwf2 & Hmore & Himgs & Hrel & Hres). apply wp_ret. destruct r as [[]|e]; cbn [map_err].
    + apply wp_ret. split; [done|]. destruct Hres as (Hv2 & Hp2 & Hh2 & _). destruct Hv1. split_and!.
      * done.
      * destruct Hmore as [Hle Hmore]. split; [congruence|]. intros n img Hi.
        destruct (Hmore _ _ Hi); auto.
      * intros img' Hi'. destruct (Himgs _ Hi') as (img & Hi & ?). exists img. auto.
      * congruence.
      * congruence.
      * auto.
      * auto.
    + intros Hr0. by apply Hres, (same_reliable _ _ Hv1).
  - destruct acc as [[sb'|] [w|]]; cbn [chosen] in Erec; simplify_eq; by apply wp_ret.
Qed.
End scan.
