(* ===== verification/Durable.v ===== *)
(** * Durable states

    An image commits a tree when recovery chooses a superblock whose root
    record stores the tree.  [open] on such an image gives an engine that
    represents the tree. *)

From S2P Require Export Recovery.
From stdpp Require Import options.
From Stdlib Require Import ZArith.

Local Open Scope Z_scope.

(** The slot of a generation: the active slot flips by generation. *)
Definition slot_of (g : Z) : Z := SUPERBLOCK_SLOT_SIZE * (g mod 2).

Lemma slot_of_cases g :
  (slot_of g = 0 ∧ slot_of (g + 1) = SUPERBLOCK_SLOT_SIZE) ∨
  (slot_of g = SUPERBLOCK_SLOT_SIZE ∧ slot_of (g + 1) = 0).
Proof.
  unfold slot_of. rewrite Z.add_mod //. destruct (Z.mod_pos_bound g 2) as [??]; [done|].
  assert (g mod 2 = 0 ∨ g mod 2 = 1) as [->| ->] by lia; [left|right]; done.
Qed.

Lemma slot_of_range g : 0 ≤ slot_of g ∧ slot_of g + SUPERBLOCK_SLOT_SIZE ≤ DATA_START.
Proof.
  change DATA_START with (2 * SUPERBLOCK_SLOT_SIZE). pose proof slot_size_pos.
  destruct (slot_of_cases g) as [[-> _]|[-> _]]; lia.
Qed.

Lemma slot_of_apart g :
  slot_of g + SUPERBLOCK_SLOT_SIZE ≤ slot_of (g + 1) ∨ slot_of (g + 1) + SUPERBLOCK_SLOT_SIZE ≤ slot_of g.
Proof. destruct (slot_of_cases g) as [[-> ->]|[-> ->]]; lia. Qed.

Lemma slot_of_lookup g : SUPERBLOCK_SLOTS !! Z.to_nat (g mod 2) = Some (slot_of g).
Proof.
  unfold slot_of. destruct (Z.mod_pos_bound g 2) as [??]; [done|].
  assert (g mod 2 = 0 ∨ g mod 2 = 1) as [->| ->] by lia; done.
Qed.

Lemma slot_of_next g : slot_of (g + 1 + 1) = slot_of g.
Proof. unfold slot_of. replace (g + 1 + 1) with (g + 1 * 2) by lia. by rewrite Z.mod_add. Qed.

Section durable.
Context `{Codec}.

(** What the inactive slot of a committed image can hold. *)
Definition stale (g : Z) (st : SlotStatus) : Prop :=
  match st with
  | Valid sb => Format.generation sb < g
  | WrongVersion _ => False
  | Invalid => True
  end.

Record committed (img : list byte) (sb : Superblock) (t : tree) : Prop := {
  cm_slot : slot_at img (slot_of (Format.generation sb)) = Valid sb;
  cm_other : stale (Format.generation sb) (slot_at img (slot_of (Format.generation sb + 1)));
  cm_watermark : watermark sb ≤ Z.of_nat (length img);
  cm_tree : laid img (watermark sb) t (root_offset sb);
}.

Lemma consider_pair len sb st :
  watermark sb ≤ len → stale (Format.generation sb) st →
  chosen (foldl (consider len) (None, None) [Valid sb; st]) = ROk sb ∧
  chosen (foldl (consider len) (None, None) [st; Valid sb]) = ROk sb.
Proof.
  intros Hw Hst. cbn [foldl consider fst snd newer andb]. rewrite (proj2 (Z.leb_le _ _) Hw). cbn [andb fst snd].
  destruct st as [sb'|w|]; [|done|]; cbn [consider fst snd newer andb]; [|done].
  simpl in Hst. rewrite (proj2 (Z.ltb_ge (Format.generation sb) (Format.generation sb'))); [lia|].
  rewrite andb_false_r andb_true_r. split; [done|].
  destruct (watermark sb' <=? len); cbn [fst snd newer]; [|done].
  by rewrite (proj2 (Z.ltb_lt _ _) Hst).
Qed.

(** Recovery chooses the committed superblock. *)
Lemma committed_recovers img sb t : committed img sb t → recovery img = ROk sb.
Proof.
  intros [Hs Ho Hw _]. unfold recovery, scanned. revert Hs Ho Hw. generalize (slot_at img) as f.
  intros f Hs Ho Hw. destruct (consider_pair _ _ _ Hw Ho) as [H1 H2].
  unfold SUPERBLOCK_SLOTS. cbn [map].
  destruct (slot_of_cases (Format.generation sb)) as [[E1 E2]|[E1 E2]]; rewrite E1 in Hs; rewrite E2 in H1, H2;
    by rewrite Hs.
Qed.

Lemma committed_geometry `{!CodecLaws} img sb t :
  committed img sb t → superblock_wf sb ∧ geometry_legal sb.
Proof. intros [Hs _ _ _]. by eapply slot_at_wf. Qed.

Lemma committed_watermark `{!CodecLaws} img sb t : committed img sb t → DATA_START ≤ watermark sb.
Proof.
  intros [_ (H1 & H2 & _)]%committed_geometry. assert (0 ≤ RECORD_HEADER_SIZE) by done. lia.
Qed.

(** An image commits the same tree when it has the same slots, and the same
    bytes below the watermark. *)
Lemma committed_agree img img' sb t :
  committed img sb t → agree_below (watermark sb) img img' →
  slot_bytes_at img' (slot_of (Format.generation sb)) = slot_bytes_at img (slot_of (Format.generation sb)) →
  slot_bytes_at img' (slot_of (Format.generation sb + 1)) =
    slot_bytes_at img (slot_of (Format.generation sb + 1)) →
  committed img' sb t.
Proof.
  intros [Hs Ho Hw Ht] Ha E1 E2. split.
  - by rewrite (slot_at_eq _ _ _ E1).
  - by rewrite (slot_at_eq _ _ _ E2).
  - apply Ha.
  - by eapply laid_agree.
Qed.

(** Changes beyond the watermark do not matter. *)
Lemma committed_prefix `{!CodecLaws} img img' sb t :
  committed img sb t → watermark sb ≤ Z.of_nat (length img') →
  (∀ i, Z.of_nat i < watermark sb → img' !! i = img !! i) → committed img' sb t.
Proof.
  intros Hc Hl Ha. pose proof (committed_watermark _ _ _ Hc) as Hd. pose proof (cm_watermark _ _ _ Hc) as Hw.
  assert (∀ g, slot_bytes_at img' (slot_of g) = slot_bytes_at img (slot_of g)) as Hslots.
  { intros g. destruct (slot_of_range g). apply slot_at_agree; [lia..|]. intros i Hi. apply Ha. lia. }
  eapply committed_agree; [done| |apply Hslots..]. split; [done|]. intros i Hi. apply Ha. lia.
Qed.

Lemma committed_truncated `{!CodecLaws} img sb t :
  committed img sb t → committed (resize (Z.to_nat (watermark sb)) x00 img) sb t.
Proof.
  intros Hc. pose proof (cm_watermark _ _ _ Hc). pose proof (committed_watermark _ _ _ Hc).
  assert (0 ≤ DATA_START) by done. eapply committed_prefix; [done|rewrite length_resize; lia|].
  intros i Hi. apply lookup_resize; lia.
Qed.

Lemma committed_torn `{!CodecLaws} img img' sb t off data :
  committed img sb t → torn img off data img' → watermark sb ≤ off → committed img' sb t.
Proof.
  intros Hc Ht Hoff. pose proof (cm_watermark _ _ _ Hc). pose proof (committed_watermark _ _ _ Hc).
  assert (0 ≤ DATA_START) by done.
  assert (∀ data, committed (splice img (Z.to_nat off) data) sb t) as Hsp.
  { intros data'. eapply committed_prefix; [done|rewrite length_splice; lia|].
    intros i Hi. apply lookup_splice_old; lia. }
  destruct Ht as [->|[->|[k ->]]]; [done|apply Hsp..].
Qed.
End durable.

(** ** Opening *)
Section opening.
Context {V P : Type} `{DeviceLaws V} `{CodecLaws}.
Notation E := (DiskEngine V P).
Implicit Types d : E.

(** What [open] makes of the superblock it recovered. *)
Record opened (sb : Superblock) (budget : option Z) (policy : P) d : Prop := {
  op_params : d_params d = sb_params sb;
  op_slots : d_slots d = [OnDisk (root_offset sb)];
  op_root : d_root d = 0%nat;
  op_seq : d_next_seq d = last_seq sb;
  op_generation : d_next_generation d = Format.generation sb + 1;
  op_watermark : d_watermark d = watermark sb;
  op_poisoned : d_poisoned d = false;
  op_cache : d_cache d = mkCache budget 0 0 0 [] 0 0 0 0;
  op_offsets : d_offsets d = {[root_offset sb := 0%nat]};
  op_ops : d_ops_since_commit d = 0;
  op_policy : d_policy d = policy;
  op_trace : d_trace d = Recorder_default;
}.

Lemma opened_inv (v : V) sb budget policy d :
  dev_wf v → recovery (dev_view v) = ROk sb → settles v (d_vfs d) (watermark sb) →
  opened sb budget policy d → disk_inv d ∧ (∀ o, clean_offset d o) ∧
  ∀ t, stored (λ _, True) (dev_view v) (watermark sb) t (root_offset sb) → cached d t (d_root d).
Proof using All.
  intros Hwf Hrec (Hwf' & _ & _ & Hview & _) [].
  destruct (recovery_Ok _ _ Hrec) as [Hcand _]. destruct (candidate_wf _ _ Hcand) as [_ (Hr1 & Hr2 & _)].
  destruct Hcand as [_ Hw]. pose proof (dev_length v Hwf) as Hlen. assert (0 ≤ DATA_START) by done.
  unfold RECORD_HEADER_SIZE in Hr2.
  assert (∀ id s, d_slots d !! id = Some s → id = 0%nat ∧ s = OnDisk (root_offset sb)) as Hsl.
  { intros id s. rewrite op_slots0. by intros [-> <-]%list_lookup_singleton_Some. }
  assert (∀ o id, d_offsets d !! o = Some id → o = root_offset sb ∧ id = 0%nat) as Hof.
  { intros o id. rewrite op_offsets0. by intros [<- <-]%lookup_singleton_Some. }
  assert (∀ o, clean_offset d o) as Hclean.
  { intros o id s [-> ->]%Hof [_ ->]%Hsl. by right. }
  split_and!; [|done|].
  - split; rewrite ?op_watermark0 ?op_cache0 ?op_slots0 //.
    + unfold file. rewrite Hview length_resize. lia.
    + lia.
    + by intros id n off bytes tick [_ [=]]%list_lookup_singleton_Some.
    + intros id o [-> [= <-]]%list_lookup_singleton_Some. by rewrite op_offsets0 lookup_singleton_eq.
    + by intros id n off bytes tick [_ [=]]%list_lookup_singleton_Some.
    + intros o id [-> ->]%Hof. lia.
    + intros o id [-> ->]%Hof. by eexists.
    + by repeat constructor.
  - intros t Ht. rewrite op_root0. eapply cached_clean; [by rewrite op_slots0|done|].
    unfold settled, file. rewrite Hview op_watermark0. eapply (stored_impl _ _ (dev_view v) _ (watermark sb)); [done| |done|exact Ht].
    split; [rewrite length_resize; lia|]. intros i Hi. apply lookup_resize; lia.
Qed.

(** [open_on_with] on any contents of the file: the engine that recovery
    prescribes, a storage failure, the refusal that recovery prescribes, or
    the overflow of the last generation of all, which has no successor. *)
Lemma open_cases (v : V) budget (policy : P) :
  dev_wf v → match open_on_with v budget policy with
  | Ok (ROk d) => ∃ sb, recovery (dev_view v) = ROk sb ∧ Format.generation sb < u64_max ∧
      settles v (d_vfs d) (watermark sb) ∧ opened sb budget policy d
  | Ok (RErr (Io _)) => ¬ dev_reliable v
  | Ok (RErr e) => recovery (dev_view v) = RErr e
  | Overflow => ∃ sb, recovery (dev_view v) = ROk sb ∧ Format.generation sb = u64_max
  | Panic | OutOfFuel => False
  end.
Proof using All.
  intros Hwf. unfold open_on_with. destruct (recover_spec v Hwf) as (r & v' & Hrun & Hr).
  rewrite Hrun. cbn [mbind outcome_bind]. destruct r as [sb|e]; [|done].
  destruct Hr as [Hrec Hset]. destruct (recovery_Ok _ _ Hrec) as [Hcand _].
  destruct (candidate_wf _ _ Hcand) as [Hsb _]. assert (Format.generation sb ≤ u64_max) as Hmax by (destruct Hsb as (_ & _ & _ & _ & _ & _ & Hg & _); apply Hg).
  unfold u64_add. destruct (Z.leb_spec (Format.generation sb + 1) u64_max); cbn [mbind outcome_bind mret outcome_ret].
  - exists sb. split; [done|]. split; [lia|]. split; [exact Hset|]. by split.
  - exists sb. split; [done|lia].
Qed.

Lemma open_spec (v : V) budget (policy : P) :
  dev_wf v →
  (∀ sb, recovery (dev_view v) = ROk sb → Format.generation sb < u64_max) →
  ∃ r, open_on_with v budget policy = Ok r ∧ match r with
    | ROk d => ∃ sb, recovery (dev_view v) = ROk sb ∧ settles v (d_vfs d) (watermark sb) ∧
        opened sb budget policy d
    | RErr (Io _) => ¬ dev_reliable v
    | RErr e => recovery (dev_view v) = RErr e
    end.
Proof using All.
  intros Hwf Hgen. pose proof (open_cases v budget policy Hwf) as Hc.
  destruct (open_on_with v budget policy) as [[d|e]| | |]; [| |done| |done].
  - exists (ROk d). split; [done|]. destruct Hc as (sb & Hrec & _ & Hset & Hop). by exists sb.
  - by exists (RErr e).
  - destruct Hc as (sb & Hrec & Hg). specialize (Hgen _ Hrec). lia.
Qed.

(** The one file that [open] cannot cope with: an authentic superblock whose
    generation is [u64::MAX]. *)
Lemma open_overflow (v : V) budget (policy : P) sb :
  dev_wf v → dev_reliable v → recovery (dev_view v) = ROk sb → Format.generation sb = u64_max →
  open_on_with v budget policy = Overflow.
Proof using All.
  intros Hwf Hrel Hrec Hgen. unfold open_on_with.
  destruct (recover_spec v Hwf) as (r & v' & Hrun & Hr). rewrite Hrun. cbn [mbind outcome_bind].
  destruct r as [sb'|e].
  - destruct Hr as [Hrec' _]. rewrite Hrec in Hrec'. injection Hrec' as <-. by rewrite Hgen.
  - destruct e; try done; congruence.
Qed.
End opening.
