(* ===== verification/CommitWalk.v ===== *)
(** * The dirty nodes of a commit

    The walk over dirty-only edges finds the dirty nodes of the tree,
    parents before descendants; each once. *)

From S2P Require Export Durable DiskReads.
From stdpp Require Import options.
From Stdlib Require Import ZArith.

Local Open Scope Z_scope.

Definition dirtyb (ss : list NodeSlot) (id : NodeId) : bool :=
  match ss !! id with Some (Loaded _ true _ _ _) => true | _ => false end.

(** The dirty nodes of the tree at [id], children before parents: the order
    in which a commit writes them. *)
Fixpoint dirty_post (ss : list NodeSlot) (t : tree) (id : NodeId) {struct t} : list NodeId :=
  match ss !! id with
  | Some (Loaded n true _ _ _) =>
      match t, n with
      | TInt _ _ ks _, Internal _ chs _ => concat (zip_with (dirty_post ss) ks chs) ++ [id]
      | _, _ => [id]
      end
  | _ => []
  end.

Lemma dirty_post_clean ss t id : dirtyb ss id = false → dirty_post ss t id = [].
Proof. unfold dirtyb. destruct t; simpl; destruct (ss !! id) as [[? [] ? ? ?| |]|]; done. Qed.

Lemma dirty_post_dirty ss t id : dirtyb ss id = true → ∃ l, dirty_post ss t id = l ++ [id].
Proof.
  unfold dirtyb. destruct t; simpl; destruct (ss !! id) as [[[] [] ? ? ?| |]|]; try done; intros _;
    first [by exists []|by eexists].
Qed.

Section walk.
Context {V P : Type} `{DeviceLaws V} `{Codec}.
Notation E := (DiskEngine V P).
Implicit Types d : E.

Lemma is_dirty_spec d id s : d_slots d !! id = Some s →
  wp (is_dirty id) (λ b d', d' = d ∧ b = dirtyb (d_slots d) id) d.
Proof.
  intros Hs. apply wp_bind. eapply wp_slot; [exact Hs|]. apply wp_ret. split; [done|].
  unfold dirtyb. rewrite Hs. by destruct s as [? [] ? ? ?| |].
Qed.

Lemma dirty_of_spec d chs :
  Forall (λ c, is_Some (d_slots d !! c)) chs →
  wp (dirty_of chs) (λ cs d', d' = d ∧ cs = filter (λ c, dirtyb (d_slots d) c = true) chs) d.
Proof.
  induction 1 as [|c chs [s Hs] _ IH]; cbn [dirty_of]; [by apply wp_ret|].
  apply wp_bind. eapply wp_mono; [by eapply is_dirty_spec|]. intros b d' [-> ->].
  apply wp_bind. eapply wp_mono; [exact IH|]. intros cs d' [-> ->]. apply wp_ret. split; [done|].
  rewrite filter_cons. by case_decide as Hd; destruct (dirtyb (d_slots d) c).
Qed.

Lemma cached_slot d t id : cached d t id → is_Some (d_slots d !! id).
Proof. destruct 1; by eexists. Qed.

(** The pending part of the walk: trees at dirty nodes. *)
Definition todo d (x : tree * NodeId) : Prop := cached d x.1 x.2 ∧ dirtyb (d_slots d) x.2 = true.
Definition pre_of d (x : tree * NodeId) : list NodeId := rev (dirty_post (d_slots d) x.1 x.2).

Lemma dirty_kids d ks chs :
  Forall2 (cached d) ks chs → ∃ ps : list (tree * NodeId),
    ps.*2 = filter (λ c, dirtyb (d_slots d) c = true) chs ∧ Forall (todo d) ps ∧
    concat (map (pre_of d) (rev ps)) = rev (concat (zip_with (dirty_post (d_slots d)) ks chs)).
Proof.
  induction 1 as [|k c ks chs Hk _ (ps & Hps & Hall & Hpre)]; [by exists []|].
  rewrite filter_cons. cbn [zip_with concat]. rewrite rev_app_distr -Hpre.
  case_decide as Hd; [|apply not_true_iff_false in Hd].
  - exists ((k, c) :: ps). cbn [fmap list_fmap snd]. rewrite Hps.
    split_and!; [done|by constructor|]. cbn [rev]. by rewrite map_app concat_app /= app_nil_r.
  - exists ps. rewrite (dirty_post_clean _ _ _ Hd) /= app_nil_r. done.
Qed.

(** A dirty node of a represented tree, with the walk below it. *)
Lemma todo_loaded d t id :
  todo d (t, id) → ∃ n off bytes tick, d_slots d !! id = Some (Loaded n true off bytes tick) ∧
    match t, n with
    | TLeaf _ e, Leaf e' => e' = e ∧ pre_of d (t, id) = [id]
    | TInt _ ps ks b, Internal ps' chs b' => ps' = ps ∧ b' = b ∧ Forall2 (cached d) ks chs ∧
        pre_of d (t, id) = id :: rev (concat (zip_with (dirty_post (d_slots d)) ks chs))
    | _, _ => False
    end.
Proof.
  intros [Hc Hd]. cbn [fst snd] in *. unfold dirtyb in Hd.
  inversion Hc as [? ? s o Hs Hcl Hst|? ? ? ? ? ? Hs|? ? ? ? chs ? ? ? ? Hs Hks]; subst; rewrite Hs in Hd.
  - by destruct s as [? [] ? ? ?| |].
  - eexists _, _, _, _. split; [exact Hs|]. split; [done|]. unfold pre_of. simpl. by rewrite Hs.
  - eexists _, _, _, _. split; [exact Hs|]. split_and!; [done|done|done|].
    unfold pre_of. simpl. by rewrite Hs rev_app_distr.
Qed.

Lemma dirty_post_range d t id x : x ∈ dirty_post (d_slots d) t id → (x < length (d_slots d))%nat.
Proof.
  revert id. induction t as [i e|i ps ks b IH] using tree_nested_ind; intros id; simpl;
    destruct (d_slots d !! id) as [s|] eqn:E; [|by intros ?%not_elem_of_nil| |by intros ?%not_elem_of_nil];
    apply lookup_lt_Some in E; destruct s as [n [] ? ? ?| |]; try by intros ?%not_elem_of_nil.
  - by intros ->%list_elem_of_singleton.
  - destruct n as [ps' chs b'|e]; [|by intros ->%list_elem_of_singleton].
    rewrite elem_of_app list_elem_of_singleton. intros [Hin| ->]; [|done]. revert chs Hin.
    induction IH as [|k ks Hk _ IHks]; intros [|c chs]; simpl; try by intros ?%not_elem_of_nil.
    rewrite elem_of_app. intros [?|?]; eauto.
Qed.

Lemma NoDup_bounded (l : list nat) n : NoDup l → (∀ x, x ∈ l → (x < n)%nat) → (length l ≤ n)%nat.
Proof.
  intros Hnd Hl. assert (length (seq 0 n) = n) as <- by apply length_seq. apply submseteq_length, NoDup_submseteq; [done|].
  intros x Hx. apply elem_of_seq. specialize (Hl x Hx). lia.
Qed.

(** The walk lists exactly the dirty nodes of the tree. *)
Lemma dirty_nodes_spec d t :
  cached d t (d_root d) → NoDup (dirty_post (d_slots d) t (d_root d)) →
  wp dirty_nodes (λ pre d', d' = d ∧ rev pre = dirty_post (d_slots d) t (d_root d)) d.
Proof.
  intros Hc Hnd. unfold dirty_nodes. apply wp_bind, wp_get, wp_bind.
  destruct (cached_slot _ _ _ Hc) as [s Hs].
  eapply wp_mono; [by eapply is_dirty_spec|]. intros b d' [-> ->].
  destruct (dirtyb (d_slots d) (d_root d)) eqn:Eroot; last first.
  { apply wp_ret. by rewrite dirty_post_clean. }
  set (target := dirty_post (d_slots d) t (d_root d)) in *.
  apply (wp_loopM _ _ (λ n '(pre, visit) d', d' = d ∧ ∃ ps, visit = ps.*2 ∧ Forall (todo d) ps ∧
    rev target = pre ++ concat (map (pre_of d) ps) ∧ n = length (concat (map (pre_of d) ps))) _
    (length target)).
  - intros n [pre visit] d' (-> & ps & -> & Hps & Htarget & ->).
    destruct Hps as [|[t1 id] ps Hx Hps]; cbn [visit_dirty fmap list_fmap snd].
    { apply wp_ret. split; [done|]. rewrite /= app_nil_r in Htarget. by rewrite -Htarget rev_involutive. }
    destruct (todo_loaded _ _ _ Hx) as (nd & off & bytes & tick & Hl & Hm).
    apply wp_bind. apply wp_bind. eapply wp_slot; [exact Hl|]. apply wp_ret.
    cbn [map concat] in Htarget |- *.
    destruct t1 as [i e|i pvs ks b], nd as [pvs' chs b'|e']; try done.
    + destruct Hm as [-> Hpre]. apply wp_ret. rewrite Hpre in Htarget |- *. cbn [app length].
      exists (length (concat (map (pre_of d) ps))). split; [lia|]. split; [done|]. exists ps.
      split_and!; [done|done| |done]. by rewrite -app_assoc.
    + destruct Hm as (-> & -> & Hks & Hpre). destruct (dirty_kids _ _ _ Hks) as (kps & Hkps & Hall & Hkpre).
      apply wp_bind. eapply wp_mono; [apply dirty_of_spec|].
      { apply Forall_forall. intros c [j Hj]%list_elem_of_lookup.
        destruct (Forall2_lookup_r _ _ _ _ _ Hks Hj) as (k & _ & Hk). by eapply cached_slot. }
      intros cs d' [-> ->]. apply wp_ret. rewrite Hpre -Hkpre in Htarget |- *.
      exists (length (concat (map (pre_of d) (rev kps ++ ps)))).
      split; [rewrite map_app concat_app length_app /= length_app; lia|]. split; [done|].
      exists (rev kps ++ ps). split_and!.
      * rewrite -Hkps fmap_app. f_equal. by rewrite -map_rev.
      * apply Forall_app. split; [|done]. by apply Forall_rev.
      * rewrite Htarget map_app concat_app -!app_assoc. done.
      * done.
  - split; [done|]. exists [(t, d_root d)]. cbn [fmap list_fmap map concat snd]. rewrite app_nil_r.
    split_and!; [done|by repeat constructor|done|]. unfold pre_of. by rewrite length_rev.
  - assert (length target ≤ length (d_slots d))%nat.
    { apply NoDup_bounded; [done|]. intros x. apply dirty_post_range. }
    enough (S (length target) ≤ 2 ^ d_fuel d)%nat by lia. apply d_fuel_linear. lia.
Qed.
End walk.
