(* ===== verification/CommitWrite.v ===== *)
(** * The records of a commit

    The serialization loop appends one record per dirty node, children
    first; the records then store the tree that the engine represents. *)

From S2P Require Export CommitWalk.
From stdpp Require Import options.
From Stdlib Require Import ZArith.

Local Open Scope Z_scope.

Lemma wp_tfold_app {S A B Er} (f : B → A → M S (Result B Er)) b l1 l2 (Q : Result B Er → S → Prop) s :
  wp (tfold f b l1) (λ r s', match r with ROk b' => wp (tfold f b' l2) Q s' | RErr e => Q (RErr e) s' end) s →
  wp (tfold f b (l1 ++ l2)) Q s.
Proof.
  revert b s. induction l1 as [|a l1 IH]; intros b s; cbn [tfold app].
  - intros (r & s' & Hr & HQ). injection Hr as <- <-. exact HQ.
  - intros Hw. apply wp_try. destruct Hw as (r & s' & Hr & HQ).
    unfold try_, mbind, M_bind in Hr. destruct (f b a s) as [[[b'|e] s1]| | |] eqn:E; try done.
    + exists (ROk b'), s1. split; [done|]. apply IH. by exists r, s'.
    + injection Hr as <- <-. by exists (RErr e), s1.
Qed.

(** The largest record. *)
Definition record_max : Z := RECORD_HEADER_SIZE + u32_max.

Section write.
Context {V P : Type} `{DeviceLaws V} `{CodecLaws}.
Notation E := (DiskEngine V P).
Implicit Types (d : E) (w : Written).

(** The file as it will be: the committed bytes, then the new records. *)
Definition image d w : list byte := take (Z.to_nat (d_watermark d)) (file d) ++ w_buf w.
Definition image_end d w : Z := d_watermark d + Z.of_nat (length (w_buf w)).

Lemma length_image d w : disk_inv d → Z.of_nat (length (image d w)) = image_end d w.
Proof.
  intros Hi. destruct (di_watermark _ Hi). assert (0 ≤ DATA_START) by done.
  unfold image, image_end. rewrite length_app length_take. lia.
Qed.

(** The offset that a pointer to a child is stored as. *)
Definition resolves d (w : Written) (c : NodeId) (o : Z) : Prop :=
  resolve_offset c (w_assigned w) d = Ok (o, d).

Lemma resolves_clean d w c s o :
  d_slots d !! c = Some s → clean_at s o → resolves d w c o.
Proof.
  intros Hs Ho. unfold resolves, resolve_offset, slot, get_, lift, mbind, M_bind. rewrite Hs /=.
  destruct s as [n [] [o'|] b t|o'|]; try done; simpl in Ho; by subst.
Qed.

Lemma resolves_dirty d w c o n off b t :
  d_slots d !! c = Some (Loaded n true off b t) → resolves d w c o ↔ w_assigned w !! c = Some o.
Proof.
  intros Hs. unfold resolves, resolve_offset, slot, get_, lift, mbind, M_bind. rewrite Hs /=.
  destruct (w_assigned w !! c); simpl; [|naive_solver]. split; [by intros [= ->]|by intros [= ->]].
Qed.

Lemma resolves_vfs d w c o v :
  resolves d w c o → resolve_offset c (w_assigned w) (set_d_vfs v d) = Ok (o, set_d_vfs v d).
Proof.
  unfold resolves, resolve_offset, slot, get_, lift, mbind, M_bind. cbn [d_slots set_d_vfs].
  destruct (d_slots d !! c) as [[? [] ? ? ?| |]|]; simpl; try done;
    try (destruct (expect _) as [o'| | |]; try done); intros Hr; by injection Hr as ->.
Qed.

Lemma resolves_fun d w c o o' : resolves d w c o → resolves d w c o' → o' = o.
Proof. unfold resolves. congruence. Qed.

(** The loop only adds. *)
Record extends w w' : Prop := {
  ex_buf : w_buf w `prefix_of` w_buf w';
  ex_assigned : w_assigned w ⊆ w_assigned w';
  ex_lens : w_record_lens w ⊆ w_record_lens w';
}.

Lemma extends_refl w : extends w w.
Proof. by split. Qed.
Lemma extends_trans w w' w'' : extends w w' → extends w' w'' → extends w w''.
Proof. intros [] []. split; by etrans. Qed.

Lemma resolves_extends d w w' c o : extends w w' → resolves d w c o → resolves d w' c o.
Proof.
  intros [_ Ha _]. unfold resolves, resolve_offset, slot, get_, lift, mbind, M_bind.
  destruct (d_slots d !! c) as [[n [] off b t|o'|]|]; simpl; try done.
  destruct (w_assigned w !! c) as [o'|] eqn:E; simpl; [|done].
  by rewrite (lookup_weaken _ _ _ _ E Ha).
Qed.

Lemma image_agree d w w' :
  disk_inv d → extends w w' → agree_below (image_end d w) (image d w) (image d w').
Proof.
  intros Hi [[b Hb] _ _]. pose proof (length_image d w Hi) as Hl. split.
  - rewrite length_image // /image_end Hb length_app. lia.
  - intros i Hlt. unfold image. rewrite Hb app_assoc lookup_app_l; [|done].
    unfold image in Hl. lia.
Qed.

(** The record of a written node. *)
Definition wrote d w (id : NodeId) (off : Z) : Prop :=
  ∃ n old b tick node len, d_slots d !! id = Some (Loaded n true old b tick) ∧
    d_watermark d ≤ off ∧ holds_record (image d w) (image_end d w) off node len ∧
    w_record_lens w !! id = Some (RECORD_HEADER_SIZE + len) ∧
    match n, node with
    | Leaf e, DiskLeaf e' => e' = e
    | Internal ps chs b, DiskInternal ps' offs b' =>
        ps' = ps ∧ b' = b ∧ length offs = S (length ps) ∧
        Forall (λ o, DATA_START ≤ o < off) offs ∧ Forall2 (resolves d w) chs offs
    | _, _ => False
    end.

Lemma wrote_extends d w w' id off : disk_inv d → extends w w' → wrote d w id off → wrote d w' id off.
Proof.
  intros Hi Hx (n & old & b & tick & node & len & Hs & Hoff & Hh & Hl & Hm).
  exists n, old, b, tick, node, len. split_and!; [done|done| | |].
  - eapply holds_record_agree; [by apply image_agree| |done]. unfold image_end.
    destruct (ex_buf _ _ Hx) as [b' ->]. rewrite length_app. lia.
  - eapply lookup_weaken; [done|apply Hx].
  - destruct n, node; try done. destruct Hm as (? & ? & ? & ? & Hc). split_and!; try done.
    eapply Forall2_impl; [exact Hc|]. intros c o. by apply resolves_extends.
Qed.

(** The node [n] in the form [node] in which it was encoded, over some
    offsets. *)
Definition disk_image (n : Node) (node : DiskNode) : Prop :=
  match n, node with
  | Leaf e, DiskLeaf e' => e' = e
  | Internal ps chs b, DiskInternal ps' offs b' =>
      ps' = ps ∧ b' = b ∧ length offs = length chs ∧ Forall u64_ok offs
  | _, _ => False
  end.

(** The size of the record of a dirty node. *)
Definition record_of d (id : NodeId) (len : Z) : Prop :=
  ∃ n old b tick node p, d_slots d !! id = Some (Loaded n true old b tick) ∧ disk_image n node ∧
    bincode_node node = Some p ∧ len = RECORD_HEADER_SIZE + Z.of_nat (length p).

Definition total_lens (m : gmap NodeId Z) (l : list NodeId) : Z :=
  foldr (λ id, Z.add (default 0 (m !! id))) 0 l.

Lemma total_lens_snoc m l id len :
  id ∉ l → total_lens (<[id := len]> m) (l ++ [id]) = total_lens m l + len.
Proof.
  induction l as [|i l IH]; intros Hid; cbn [app total_lens foldr].
  - rewrite lookup_insert_eq /=. lia.
  - apply not_elem_of_cons in Hid as [Hne Hid]. fold (total_lens (<[id := len]> m) (l ++ [id])) (total_lens m l).
    rewrite IH // lookup_insert_ne //. lia.
Qed.

Lemma total_lens_perm m l l' : l ≡ₚ l' → total_lens m l = total_lens m l'.
Proof. induction 1; cbn [total_lens foldr] in *; unfold total_lens in *; lia. Qed.

(** The state of the loop after the nodes [l]. *)
Record written d (l : list NodeId) w : Prop := {
  wi_dom id : is_Some (w_assigned w !! id) ↔ id ∈ l;
  wi_lens id : is_Some (w_record_lens w !! id) ↔ id ∈ l;
  wi_wrote id off : w_assigned w !! id = Some off → wrote d w id off;
  wi_inj id id' off : w_assigned w !! id = Some off → w_assigned w !! id' = Some off → id' = id;
  wi_below id off : w_assigned w !! id = Some off → off < image_end d w;
  wi_size : Z.of_nat (length (w_buf w)) ≤ Z.of_nat (length l) * record_max;
  wi_record id len : w_record_lens w !! id = Some len → record_of d id len;
  wi_bytes : Z.of_nat (length (w_buf w)) = total_lens (w_record_lens w) l;
}.

Lemma written_nil d : written d [] (mkWritten [] ∅ ∅).
Proof.
  split; simpl; try (intros *; by rewrite lookup_empty); [| |done|done].
  all: intros id; rewrite lookup_empty elem_of_nil; by split; [intros []|].
Qed.

Lemma snoc_dom (m : gmap NodeId Z) (l : list NodeId) id x i :
  (is_Some (m !! i) ↔ i ∈ l) → is_Some (<[id := x]> m !! i) ↔ i ∈ l ++ [id].
Proof.
  intros Hm. rewrite elem_of_app list_elem_of_singleton. destruct (decide (i = id)) as [->|Hne].
  - rewrite lookup_insert_eq. split; [auto|by eexists].
  - rewrite lookup_insert_ne; [done|]. rewrite Hm. naive_solver.
Qed.

Lemma decode_encoded node p : bincode_node node = Some p → decode_node p = ROk node.
Proof using All.
  intros E. pose proof (node_roundtrip _ _ [] E) as Hr. rewrite app_nil_r in Hr.
  unfold decode_node. by rewrite Hr Nat.eqb_refl.
Qed.

(** Appending one record. *)
Lemma written_snoc d l w id n old b tick payload node :
  disk_inv d → written d l w → id ∉ l → d_slots d !! id = Some (Loaded n true old b tick) →
  bincode_node node = Some payload → disk_image n node → Z.of_nat (length payload) ≤ u32_max →
  (let off := image_end d w in match n, node with
    | Leaf e, DiskLeaf e' => e' = e
    | Internal ps chs b, DiskInternal ps' offs b' =>
        ps' = ps ∧ b' = b ∧ length offs = S (length ps) ∧
        Forall (λ o, DATA_START ≤ o < off) offs ∧ Forall2 (resolves d w) chs offs
    | _, _ => False
    end) →
  let w' := mkWritten (w_buf w ++ record_bytes payload) (<[id := image_end d w]> (w_assigned w))
    (<[id := RECORD_HEADER_SIZE + Z.of_nat (length payload)]> (w_record_lens w)) in
  written d (l ++ [id]) w' ∧ extends w w'.
Proof using All.
  intros Hi Hw Hid Hs He Hdi Hmax Hm w'. pose proof (decode_encoded _ _ He) as Hd.
  assert (w_assigned w !! id = None) as Hna.
  { apply eq_None_not_Some. by rewrite (wi_dom _ _ _ Hw). }
  assert (w_record_lens w !! id = None) as Hnl.
  { apply eq_None_not_Some. by rewrite (wi_lens _ _ _ Hw). }
  assert (extends w w') as Hx.
  { split; simpl; [by apply prefix_app_r|by apply insert_subseteq|by apply insert_subseteq]. }
  assert (image_end d w' = image_end d w + 8 + Z.of_nat (length payload)) as Hend.
  { unfold image_end. simpl. rewrite length_app length_record_bytes. lia. }
  assert (∀ i o, w_assigned w' !! i = Some o →
    (i = id ∧ o = image_end d w) ∨ (i ≠ id ∧ w_assigned w !! i = Some o)) as Hinv.
  { intros i o. simpl. destruct (decide (i = id)) as [->|Hne].
    - rewrite lookup_insert_eq. intros [= <-]. auto.
    - rewrite lookup_insert_ne; [done|]. auto. }
  destruct (di_watermark _ Hi) as [Hw1 Hw2]. assert (0 ≤ DATA_START) by done.
  split; [|done]. split.
  - intros i. simpl. by apply snoc_dom, Hw.
  - intros i. simpl. by apply snoc_dom, Hw.
  - intros i o [[-> ->]|[Hne Ho]]%Hinv; [|by eapply wrote_extends, wi_wrote].
    exists n, old, b, tick, node, (Z.of_nat (length payload)). split_and!; [done|unfold image_end; lia| | |].
    + split; [unfold image_end; lia|]. exists payload. split_and!; [|done|done|done|unfold RECORD_HEADER_SIZE; lia].
      exists (image d w), []. rewrite app_nil_r. unfold image at 1. simpl. rewrite app_assoc.
      split; [done|]. by apply length_image.
    + simpl. by rewrite lookup_insert_eq.
    + destruct n, node; try done. destruct Hm as (? & ? & ? & ? & Hc). split_and!; try done.
      eapply Forall2_impl; [exact Hc|]. intros c o'. by apply resolves_extends.
  - intros i j o [[-> ->]|[Hne Ho]]%Hinv [[-> Ho']|[Hne' Ho']]%Hinv; [done| | |by eapply wi_inj].
    + pose proof (wi_below _ _ _ Hw _ _ Ho'). lia.
    + subst o. pose proof (wi_below _ _ _ Hw _ _ Ho). lia.
  - intros i o [[-> ->]|[Hne Ho]]%Hinv; [lia|]. pose proof (wi_below _ _ _ Hw _ _ Ho). lia.
  - simpl. rewrite length_app length_record_bytes length_app /=. pose proof (wi_size _ _ _ Hw).
    unfold record_max, RECORD_HEADER_SIZE in *. lia.
  - intros i len. simpl. destruct (decide (i = id)) as [->|Hne].
    + rewrite lookup_insert_eq. intros [= <-]. by exists n, old, b, tick, node, payload.
    + rewrite lookup_insert_ne //. apply (wi_record _ _ _ Hw).
  - simpl. rewrite total_lens_snoc // -(wi_bytes _ _ _ Hw) length_app length_record_bytes. unfold RECORD_HEADER_SIZE. lia.
Qed.

(** An error of the loop: nothing was written to the file. *)
Definition write_error (e : DiskError) : Prop := e = Io OtherError ∨ ∃ k, e = NodeTooLarge k.

Lemma mapM_resolve d w chs offs :
  Forall2 (resolves d w) chs offs →
  wp (mapM (λ c, resolve_offset c (w_assigned w)) chs) (λ os d', os = offs ∧ d' = d) d.
Proof.
  induction 1 as [|c o chs offs Hc _ IH]; cbn [mapM]; [by apply wp_ret|].
  apply wp_bind. eapply wp_run; [exact Hc|]. apply wp_bind. eapply wp_mono; [exact IH|].
  intros os d' [-> ->]. by apply wp_ret.
Qed.

Lemma node_payload_spec d w id n old b tick offs :
  d_slots d !! id = Some (Loaded n true old b tick) →
  match n with Internal _ chs _ => Forall2 (resolves d w) chs offs | Leaf _ => True end →
  wp (node_payload id (w_assigned w)) (λ r d', d' = d ∧
    match r with
    | ROk payload => bincode_node
        match n with Internal ps _ b => DiskInternal ps offs b | Leaf e => DiskLeaf e end = Some payload
    | RErr e => write_error e
    end) d.
Proof using All.
  intros Hs Hch. unfold node_payload. apply wp_bind, wp_bind. eapply wp_slot; [exact Hs|]. apply wp_ret.
  set (node := match n with Internal ps _ b => DiskInternal ps offs b | Leaf e => DiskLeaf e end).
  apply wp_bind.
  assert (wp (match n with
    | Leaf entries => mret (DiskLeaf entries)
    | Internal pivots children buffer =>
        children ← mapM (λ c, resolve_offset c (w_assigned w)) children;
        mret (DiskInternal pivots children buffer)
    end) (λ n' d', n' = node ∧ d' = d) d) as Hn.
  { destruct n as [ps chs bu|e]; [|by apply wp_ret]. apply wp_bind.
    eapply wp_mono; [by apply mapM_resolve|]. intros os d' [-> ->]. by apply wp_ret. }
  eapply wp_mono; [exact Hn|]. intros n' d' [-> ->]. apply wp_ret. split; [done|].
  unfold encode_node. destruct (bincode_node node) as [bs|] eqn:E; simpl; [done|by left].
Qed.

Lemma write_record_spec d l w id n old b tick offs :
  disk_inv d → written d l w → id ∉ l → d_slots d !! id = Some (Loaded n true old b tick) →
  d_watermark d + (Z.of_nat (length l) + 1) * record_max ≤ u64_max →
  match n with
  | Internal ps chs _ => length offs = S (length ps) ∧
      Forall (λ o, DATA_START ≤ o < image_end d w) offs ∧ Forall2 (resolves d w) chs offs
  | Leaf _ => True
  end →
  wp (write_record (d_watermark d) w id) (λ r d', d' = d ∧
    match r with
    | ROk w' => written d (l ++ [id]) w' ∧ extends w w'
    | RErr e => write_error e
    end) d.
Proof using All.
  intros Hi Hw Hid Hs Hroom Hn. pose proof (wi_size _ _ _ Hw) as Hsize.
  assert (0 < record_max) by done.
  unfold write_record. apply wp_bind. eapply wp_lift; [apply u64_add_Ok; lia|]. apply wp_try.
  eapply wp_mono; [eapply (node_payload_spec d w id n old b tick offs); [done|]|].
  { destruct n; [apply Hn|done]. }
  intros r d' [-> Hr]. destruct r as [payload|e]; [|by split].
  destruct (Z.ltb_spec u32_max (Z.of_nat (length payload))) as [Hbig|Hsmall].
  { apply wp_ret. split; [done|]. right. by eexists. }
  apply wp_bind. eapply wp_lift; [apply u64_add_Ok; unfold RECORD_HEADER_SIZE, u32_max, u64_max in *; lia|].
  apply wp_ret. split; [done|]. eapply written_snoc; [done|done|done|exact Hs|exact Hr| |done|].
  - destruct n as [ps chs bu|e]; [|done]. destruct Hn as (_ & Hof & Hres). split_and!; [done|done|by symmetry; eapply Forall2_length|].
    eapply Forall_impl; [exact Hof|]. intros o Hr'. cbv beta in Hr'. destruct Hr'. assert (0 ≤ DATA_START) by done.
    unfold u64_ok, image_end in *. lia.
  - destruct n as [ps chs bu|e]; [|done]. destruct Hn as (? & ? & ?). by split_and!.
Qed.

(** ** The whole loop *)

(** What a written prefix of the loop gives for the node at [id]. *)
Definition placed d w (id : NodeId) : Prop :=
  ∃ o, resolves d w id o ∧ DATA_START ≤ o < image_end d w.

Lemma placed_extends d w w' id : extends w w' → placed d w id → placed d w' id.
Proof.
  intros Hx (o & Ho & Hr). exists o. split; [by eapply resolves_extends|].
  unfold image_end in *. destruct (ex_buf _ _ Hx) as [b ->]. rewrite length_app. lia.
Qed.

Definition writes d (l : list NodeId) w (ids : list NodeId) (done : Written → Prop) : Prop :=
  wp (tfold (write_record (d_watermark d)) w ids) (λ r d', d' = d ∧
    match r with
    | ROk w' => written d (l ++ ids) w' ∧ extends w w' ∧ done w'
    | RErr e => write_error e
    end) d.

Lemma writes_nil d l w (D : Written → Prop) : written d l w → D w → writes d l w [] D.
Proof. intros Hw HD. apply wp_ret. rewrite app_nil_r. split_and!; [done|done|apply extends_refl|done]. Qed.

Lemma writes_app d l w ids ids' (D D' : Written → Prop) :
  writes d l w ids D → (∀ w', written d (l ++ ids) w' → extends w w' → D w' →
    writes d (l ++ ids) w' ids' (λ w'', D' w'')) → writes d l w (ids ++ ids') D'.
Proof.
  intros Hs1 Hs2. apply wp_tfold_app. eapply wp_mono; [exact Hs1|]. intros [w'|e] d' [-> Hr]; [|done].
  destruct Hr as (Hw & Hx & HD). eapply wp_mono; [by apply Hs2|]. intros [w''|e] d' [-> Hr]; [|done].
  split; [done|]. rewrite app_assoc. destruct Hr as (? & ? & ?). split_and!; [done|by eapply extends_trans|done].
Qed.

Lemma writes_one d l w id (D : Written → Prop) :
  wp (write_record (d_watermark d) w id) (λ r d', d' = d ∧
    match r with
    | ROk w' => written d (l ++ [id]) w' ∧ extends w w' ∧ D w'
    | RErr e => write_error e
    end) d → writes d l w [id] D.
Proof.
  intros Hw. apply wp_try. eapply wp_mono; [exact Hw|]. intros [w'|e] d' [-> Hr]; [|done].
  by apply wp_ret.
Qed.

Definition fits d (l : list NodeId) : Prop :=
  d_watermark d + Z.of_nat (length l) * record_max ≤ u64_max.

Lemma fits_app d l l' : fits d (l ++ l') → fits d l.
Proof. unfold fits. rewrite length_app. assert (0 < record_max) by done. lia. Qed.

(** Writing a node, once its children are placed. *)
Lemma writes_node d l w id n old b tick :
  disk_inv d → written d l w → NoDup (l ++ [id]) → fits d (l ++ [id]) →
  d_slots d !! id = Some (Loaded n true old b tick) → node_shaped n →
  match n with Internal _ chs _ => Forall (placed d w) chs | Leaf _ => True end →
  writes d l w [id] (λ w', placed d w' id).
Proof using All.
  intros Hi Hw Hnd Hfit Hs Hsh Hch. apply writes_one.
  assert (id ∉ l) as Hid by (apply NoDup_app in Hnd as (_ & Hnd & _); intros ?; by eapply Hnd, list_elem_of_singleton).
  assert (∃ offs, match n with
    | Internal ps chs _ => length offs = S (length ps) ∧
        Forall (λ o, DATA_START ≤ o < image_end d w) offs ∧ Forall2 (resolves d w) chs offs
    | Leaf _ => True
    end) as [offs Hoffs].
  { destruct n as [ps chs bu|e]; [|by exists []].
    assert (∃ offs, Forall (λ o, DATA_START ≤ o < image_end d w) offs ∧ Forall2 (resolves d w) chs offs)
      as (offs & Hf & Hf2).
    { clear Hs Hsh. induction Hch as [|c chs (o & Ho & Hr) _ (offs & ? & ?)]; [by exists []|].
      exists (o :: offs). by split; constructor. }
    exists offs. split_and!; [|done|done]. rewrite -Hsh. symmetry. by eapply Forall2_length. }
  unfold fits in Hfit. rewrite length_app /= in Hfit. assert (0 < record_max) by done.
  eapply wp_mono; [eapply (write_record_spec d l w id n old b tick offs); [done|done|done|done| |done]|].
  { lia. }
  intros [w'|e] d' [-> Hr]; [|done]. split; [done|]. destruct Hr as [Hw' Hx]. split_and!; [done|done|].
  destruct (proj2 (wi_dom _ _ _ Hw' id)) as [o Ho]; [set_solver|]. exists o.
  split; [by apply (resolves_dirty _ _ _ _ _ _ _ _ Hs)|].
  destruct (wi_wrote _ _ _ Hw' _ _ Ho) as (? & ? & ? & ? & ? & ? & _ & _ & [? _] & _).
  split; [done|]. by eapply wi_below.
Qed.

Lemma clean_placed d w t id : disk_inv d → cached d t id → dirtyb (d_slots d) id = false → placed d w id.
Proof.
  intros Hi Hc Hd.
  inversion Hc as [? ? s o Hs Hcl Hst|? ? ? ? ? ? Hs|? ? ? ? chs ? ? ? ? Hs Hks]; subst;
    unfold dirtyb in Hd; rewrite Hs in Hd; try done.
  exists o. split; [by eapply resolves_clean|].
  destruct (stored_record _ _ _ _ _ Hst) as (_ & node & len & (Hlo & p & _ & _ & -> & _ & Hend) & _).
  unfold image_end, RECORD_HEADER_SIZE in *. lia.
Qed.

Lemma writes_tree d t : disk_inv d → shaped t → ∀ id l w,
  cached d t id → written d l w → NoDup (l ++ dirty_post (d_slots d) t id) →
  fits d (l ++ dirty_post (d_slots d) t id) →
  writes d l w (dirty_post (d_slots d) t id) (λ w', placed d w' id).
Proof using All.
  intros Hi. induction t as [i e|i ps ks b IH] using tree_nested_ind; intros Hsh id l w Hc Hw Hnd Hfit;
    (destruct (dirtyb (d_slots d) id) eqn:Ed;
      [|rewrite (dirty_post_clean _ _ _ Ed); apply writes_nil; [done|by eapply clean_placed]]);
    destruct (todo_loaded d _ id (conj Hc Ed)) as (n & off & bytes & tick & Hs & Hm);
    destruct n as [ps' chs b'|e']; try done.
  - simpl in Hnd, Hfit |- *. rewrite Hs in Hnd, Hfit |- *. by eapply writes_node.
  - destruct Hm as (-> & -> & Hks & _). apply shaped_TInt in Hsh as [Hlen Hshs].
    simpl in Hnd, Hfit |- *. rewrite Hs in Hnd, Hfit |- *. rewrite app_assoc in Hnd, Hfit.
    pose proof (Forall2_length _ _ _ Hks) as Hl2.
    apply (writes_app _ _ _ _ _ (λ w', Forall (placed d w') chs)).
    + assert (NoDup (l ++ concat (zip_with (dirty_post (d_slots d)) ks chs))) as Hnd'
        by by apply NoDup_app in Hnd as (? & _).
      apply fits_app in Hfit. clear Hnd Hs Hc Ed Hlen Hl2. revert l w Hw Hnd' Hfit.
      induction Hks as [|k c ks chs Hk Hks IHks]; intros l w Hw Hnd Hfit; [by apply writes_nil|].
      cbn [zip_with concat] in *. apply Forall_cons in IH as [IHk IH], Hshs as [Hshk Hshs].
      rewrite app_assoc in Hnd, Hfit.
      eapply writes_app; [apply IHk; try done; [by apply NoDup_app in Hnd as (? & _)|by eapply fits_app]|].
      intros w1 Hw1 Hx1 Hc1.
      eapply wp_mono; [apply (IHks IH Hshs _ w1 Hw1 Hnd Hfit)|]. intros [w2|e2] d2 [-> Hr]; [|done].
      split; [done|]. destruct Hr as (? & ? & ?). split_and!; [done|done|].
      constructor; [by eapply placed_extends|done].
    + intros w' Hw' _ Hch. eapply writes_node; [done|done|done|done|exact Hs| |exact Hch].
      simpl. lia.
Qed.

(** The records store the tree. *)
Definition stays d w (o : Z) : Prop :=
  (o < d_watermark d ∧ clean_offset d o) ∨ ∃ id, w_assigned w !! id = Some o.

Lemma settled_stays d w t o : disk_inv d → settled d t o → stored (stays d w) (image d w) (image_end d w) t o.
Proof.
  intros Hi Hst. destruct (di_watermark _ Hi) as [Hw1 Hw2]. assert (0 ≤ DATA_START) by done.
  destruct (stored_record _ _ _ _ _ Hst) as (_ & node & len & (_ & p & _ & _ & -> & _ & Hend) & _).
  unfold RECORD_HEADER_SIZE in Hend.
  eapply (stored_impl (clean_offset d) _ (file d) _ (d_watermark d)); [| | |exact Hst].
  - intros o' Ho' Hcl. left. split; [lia|done].
  - split; [rewrite length_image //; unfold image_end; lia|]. intros i Hlt. unfold image.
    rewrite lookup_app_l ?length_take; [lia|]. rewrite lookup_take_lt; [lia|done].
  - unfold image_end. lia.
Qed.

Lemma written_stored d l w t : disk_inv d → written d l w → ∀ id, cached d t id →
  (∀ x, x ∈ dirty_post (d_slots d) t id → x ∈ l) →
  ∃ o, resolves d w id o ∧ stored (stays d w) (image d w) (image_end d w) t o.
Proof using All.
  intros Hi Hw. induction t as [i e|i ps ks b IH] using tree_nested_ind; intros id Hc Hsub;
    (destruct (dirtyb (d_slots d) id) eqn:Ed; last first;
      [inversion Hc as [? ? s o Hs Hcl Hst|? ? ? ? ? ? Hs|? ? ? ? chs ? ? ? ? Hs Hks]; subst;
       unfold dirtyb in Ed; rewrite Hs in Ed; try done; exists o;
       by split; [eapply resolves_clean|apply settled_stays]|]);
    destruct (todo_loaded d _ id (conj Hc Ed)) as (n & off & bytes & tick & Hs & Hm);
    (assert (id ∈ l) as Hid by (apply Hsub;
      match goal with |- id ∈ dirty_post ?ss ?t _ => destruct (dirty_post_dirty ss t id Ed) as [? ->] end;
      set_solver));
    destruct (proj2 (wi_dom _ _ _ Hw id) Hid) as [o Ho];
    destruct (wi_wrote _ _ _ Hw _ _ Ho) as (n' & ? & ? & ? & node & len & Hs' & Hoff & Hh & Hlen & Hn);
    rewrite Hs in Hs'; injection Hs' as <- _ _ _;
    exists o; (split; [by apply (resolves_dirty _ _ _ _ _ _ _ _ Hs)|]);
    destruct n as [ps' chs b'|e'], node as [ps'' offs b''|e'']; try done.
  - destruct Hm as [-> _]. subst. eapply stored_leaf; [right; by eexists|exact Hh].
  - destruct Hm as (-> & -> & Hks & _), Hn as (-> & -> & Hlo & Hrange & Hres).
    eapply stored_int; [right; by eexists|exact Hh|done|done|].
    simpl in Hsub. rewrite Hs in Hsub.
    assert (∀ x, x ∈ concat (zip_with (dirty_post (d_slots d)) ks chs) → x ∈ l) as Hsubk by set_solver.
    clear Hrange Hlo Hsub Hh Hs Hc Ed. revert chs Hks offs Hres Hsubk.
    induction IH as [|k ks Hk _ IHks]; intros chs Hks offs Hres Hsubk;
      inversion Hks as [|? c ? chs' Hkc Hks']; subst; inversion Hres as [|? o' ? offs' Hco Hres']; subst; constructor.
    + destruct (Hk c Hkc) as (o1 & Ho1 & Hst); [simpl in Hsubk; set_solver|].
      by rewrite (resolves_fun _ _ _ _ _ Hco Ho1) in Hst.
    + eapply IHks; [done|done|]. simpl in Hsubk. set_solver.
Qed.
End write.
