(* ===== verification/CommitSpread.v ===== *)
(** * No record is shared

    The clean nodes of the tree and the records of a commit lie at distinct
    offsets: the tree that a commit leaves in the file shares no record. *)

From S2P Require Export CommitWrite.
From stdpp Require Import options.
From Stdlib Require Import ZArith.

Local Open Scope Z_scope.

Section spread.
Context {V P : Type} `{DeviceLaws V} `{CodecLaws}.
Notation E := (DiskEngine V P).
Implicit Types (d : E) (w : Written).

(** The offsets of the clean nodes of a represented tree. *)
Local Unset Elimination Schemes.
Inductive scattered d : tree → NodeId → list Z → Prop :=
  | scattered_clean t id s o l :
      d_slots d !! id = Some s → clean_at s o → spread (file d) (d_watermark d) t o l → scattered d t id l
  | scattered_leaf i id e off bytes tick :
      d_slots d !! id = Some (Loaded (Leaf e) true off bytes tick) → scattered d (TLeaf i e) id []
  | scattered_int i id ps ks chs b off bytes tick ls :
      d_slots d !! id = Some (Loaded (Internal ps chs b) true off bytes tick) →
      Forall3 (scattered d) ks chs ls → scattered d (TInt i ps ks b) id (concat ls).
Local Set Elimination Schemes.

Definition unshared d (t : tree) (id : NodeId) : Prop := ∃ l, scattered d t id l ∧ NoDup l.

Lemma spread_below buf (wm : Z) t off l : spread buf wm t off l → Forall (λ o, o < wm) l.
Proof using Type.
  assert (∀ o node len, holds_record buf wm o node len → o < wm) as Hb.
  { intros o node len (_ & p & _ & _ & -> & _ & Hle). unfold RECORD_HEADER_SIZE in Hle. lia. }
  revert off l. induction t as [i e|i ps ks b IH] using tree_nested_ind; intros off l Hs; inversion Hs; subst;
    constructor; eauto. apply Forall_concat.
  match goal with Hk : Forall3 _ ks _ _ |- _ => clear -IH Hk; induction Hk; decompose_Forall_hyps; constructor; eauto end.
Qed.

Lemma scattered_below d t id l : scattered d t id l → Forall (λ o, o < d_watermark d) l.
Proof using Type.
  revert id l. induction t as [i e|i ps ks b IH] using tree_nested_ind; intros id l Hs;
    inversion Hs as [? ? ? ? ? _ _ Hsp|? ? ? ? ? ? _|? ? ? ? ? ? ? ? ? ls _ Hk]; subst; [by eapply spread_below|done|by eapply spread_below|].
  apply Forall_concat. clear -IH Hk. induction Hk; decompose_Forall_hyps; constructor; eauto.
Qed.

(** The records of a commit complete the layout. *)
Definition completed d w t id (lc : list Z) : Prop := ∃ o lo os, resolves d w id o ∧
  spread (image d w) (image_end d w) t o lo ∧ lo ≡ₚ lc ++ os ∧
  Forall2 (λ x o, w_assigned w !! x = Some o) (dirty_post (d_slots d) t id) os.

Lemma completed_kids d w ks chs lcs offs :
  Forall3 (completed d w) ks chs lcs → Forall2 (resolves d w) chs offs →
  ∃ los os, Forall3 (spread (image d w) (image_end d w)) ks offs los ∧ concat los ≡ₚ concat lcs ++ os ∧
    Forall2 (λ x o, w_assigned w !! x = Some o) (concat (zip_with (dirty_post (d_slots d)) ks chs)) os.
Proof using Type.
  intros Hk. revert offs. induction Hk as [|k c lc ks chs lcs (o & lo & os & Ho & Hsp & Hlo & Hos) _ IH]; intros offs Hres;
    inversion Hres as [|? o' ? offs' Ho' Hres']; subst.
  { by exists [], []; repeat constructor. }
  assert (o' = o) as -> by (by eapply resolves_fun). destruct (IH _ Hres') as (los & oss & Hsps & Hlos & Hoss).
  exists (lo :: los), (os ++ oss). split; [by constructor|]. cbn [zip_with concat]. split; [|by apply Forall2_app].
  rewrite Hlo Hlos. rewrite -!app_assoc. f_equiv. rewrite !app_assoc. f_equiv. apply Permutation_app_comm.
Qed.

Lemma written_spread d l w t : disk_inv d → written d l w → ∀ id lc, scattered d t id lc →
  (∀ x, x ∈ dirty_post (d_slots d) t id → x ∈ l) → completed d w t id lc.
Proof using All.
  intros Hi Hw. destruct (di_watermark _ Hi) as [Hw1 Hw2]. assert (0 ≤ DATA_START) by done.
  assert (agree_below (d_watermark d) (file d) (image d w)) as Hag.
  { split; [rewrite length_image //; unfold image_end; lia|]. intros i Hlt. unfold image.
    rewrite lookup_app_l ?length_take; [lia|]. rewrite lookup_take_lt; [lia|done]. }
  assert (∀ t id s o lc, d_slots d !! id = Some s → clean_at s o → spread (file d) (d_watermark d) t o lc →
    completed d w t id lc) as Hclean.
  { intros t' id s o lc Hs Hc Hsp. exists o, lc, []. split; [by eapply resolves_clean|]. split.
    - eapply spread_agree; [exact Hag|unfold image_end; lia|done].
    - rewrite app_nil_r dirty_post_clean; [unfold dirtyb; rewrite Hs; by destruct s as [? [] ? ? ?| |]|by split]. }
  assert (∀ id, id ∈ l → ∃ o n old b tick node len, w_assigned w !! id = Some o ∧
    d_slots d !! id = Some (Loaded n true old b tick) ∧ holds_record (image d w) (image_end d w) o node len ∧
    match n, node with
    | Leaf e, DiskLeaf e' => e' = e
    | Internal ps chs b, DiskInternal ps' offs b' => ps' = ps ∧ b' = b ∧ Forall2 (resolves d w) chs offs
    | _, _ => False
    end) as Hwrote.
  { intros id Hid. destruct (proj2 (wi_dom _ _ _ Hw id) Hid) as [o Ho].
    destruct (wi_wrote _ _ _ Hw _ _ Ho) as (n & old & b & tick & node & len & Hs & _ & Hh & _ & Hn).
    exists o, n, old, b, tick, node, len. split_and!; [done..|]. destruct n, node; naive_solver. }
  induction t as [i e|i ps ks b IH] using tree_nested_ind; intros id lc Hsc Hsub;
    inversion Hsc as [? ? s o ? Hs Hc Hsp|? ? ? off b' tk Hs|? ? ? ? chs ? off b' tk ls Hs Hk]; subst;
    (try by eapply Hclean); simpl in Hsub; rewrite Hs in Hsub; unfold completed; simpl; rewrite Hs;
    (destruct (Hwrote id) as (o & n & old & b1 & tk1 & node & len & Ho & Hs' & Hh & Hn);
      [apply Hsub; rewrite ?elem_of_app list_elem_of_singleton; auto|]);
    rewrite Hs in Hs'; injection Hs' as <- _ _ _; destruct node as [ps'' offs b''|e'']; try done; exists o.
  - subst e''. exists [o], [o]. split; [by eapply (resolves_dirty _ _ _ _ _ _ _ _ Hs)|].
    split; [by econstructor|]. split; [done|by repeat constructor].
  - destruct Hn as (-> & -> & Hres).
    assert (Forall3 (completed d w) ks chs ls) as Hks.
    { assert (∀ x, x ∈ concat (zip_with (dirty_post (d_slots d)) ks chs) → x ∈ l) as Hsubk
        by (intros x Hx; apply Hsub, elem_of_app; by left).
      clear -IH Hk Hsubk. induction Hk as [|k c lc ks chs ls Hc _ IHk]; constructor; apply Forall_cons in IH as [IHc IH].
      - apply IHc; [done|]. intros x Hx. apply Hsubk. cbn [zip_with concat]. apply elem_of_app. by left.
      - apply IHk; [done|]. intros x Hx. apply Hsubk. cbn [zip_with concat]. apply elem_of_app. by right. }
    destruct (completed_kids _ _ _ _ _ _ Hks Hres) as (los & os & Hsps & Hlos & Hos).
    exists (o :: concat los), (os ++ [o]). split; [by eapply (resolves_dirty _ _ _ _ _ _ _ _ Hs)|].
    split; [by econstructor|]. split; [rewrite Hlos app_assoc; apply Permutation_cons_append|].
    apply Forall2_app; [done|by repeat constructor].
Qed.

Lemma written_laid d l w t id root : disk_inv d → written d l w → cached d t id → unshared d t id →
  NoDup (dirty_post (d_slots d) t id) → (∀ x, x ∈ dirty_post (d_slots d) t id → x ∈ l) → resolves d w id root →
  laid (image d w) (image_end d w) t root.
Proof using All.
  intros Hi Hw Hc (lc & Hsc & Hlc) Hnd Hsub Hres. split.
  - destruct (written_stored d l w t Hi Hw id Hc Hsub) as (o & Ho & Hst). rewrite -(resolves_fun _ _ _ _ _ Hres Ho).
    eapply stored_impl; [| |done|exact Hst]; [done|]. split; [by rewrite length_image|done].
  - destruct (written_spread d l w t Hi Hw id lc Hsc Hsub) as (o & lo & os & Ho & Hsp & Hlo & Hos).
    rewrite -(resolves_fun _ _ _ _ _ Hres Ho). exists lo. split; [done|]. rewrite Hlo.
    apply NoDup_app. split; [done|]. split.
    + intros x Hx Hx'. pose proof (scattered_below _ _ _ _ Hsc) as Hb. rewrite Forall_forall in Hb. specialize (Hb _ Hx).
      apply list_elem_of_lookup in Hx' as [j Hj]. destruct (Forall2_lookup_r _ _ _ _ _ Hos Hj) as (y & _ & Hy).
      destruct (wi_wrote _ _ _ Hw _ _ Hy) as (? & ? & ? & ? & ? & ? & _ & Hlo' & _). lia.
    + clear -Hos Hnd Hw. induction Hos as [|x o xs os Hx Hos IH]; [constructor|].
      apply NoDup_cons in Hnd as [Hnx Hnd]. constructor; [|by apply IH]. intros [j Hj]%list_elem_of_lookup.
      destruct (Forall2_lookup_r _ _ _ _ _ Hos Hj) as (y & Hy & Hyo). apply Hnx.
      rewrite -(wi_inj _ _ _ Hw _ _ _ Hx Hyo). by eapply list_elem_of_lookup_2.
Qed.
End spread.
