(* ===== verification/Adopt.v ===== *)
(** * Adoption of a commit in memory

    After the superblock is durable the written nodes become clean nodes at
    their new offsets; the slots then represent the same tree, every node of
    it stored in the file. *)

From S2P Require Export CommitSpread.
From stdpp Require Import options.
From Stdlib Require Import ZArith.

Local Open Scope Z_scope.

Section adopt.
Context {V P : Type} `{DeviceLaws V} `{CodecLaws}.
Notation E := (DiskEngine V P).
Implicit Types (d : E) (w : Written) (m : gmap NodeId Z).

(** The engine [d] with the records of [w] in its file and the new watermark
    published. *)
Record published d w d1 : Prop := {
  pb_slots : d_slots d1 = d_slots d;
  pb_offsets : d_offsets d1 = d_offsets d;
  pb_cache : d_cache d1 = d_cache d;
  pb_root : d_root d1 = d_root d;
  pb_watermark : d_watermark d1 = image_end d w;
  pb_dev : dev_wf (d_vfs d1);
  pb_file : agree_below (image_end d w) (image d w) (file d1);
  pb_u64 : image_end d w ≤ u64_max;
}.

(** A slot after the adoption of the nodes of [m]. *)
Definition adopted_slot m w (id : NodeId) (s : NodeSlot) : NodeSlot :=
  match m !! id, s with
  | Some off, Loaded n _ _ _ tick => Loaded n false (Some off) (default 0 (w_record_lens w !! id)) tick
  | _, _ => s
  end.

Definition offset_of (ss : list NodeSlot) (id : NodeId) : option Z :=
  match ss !! id with Some (Loaded _ _ off _ _) => off | _ => None end.

(** The adoption of the nodes of [m], from [d1] on. *)
Record adopted d w d1 m d2 : Prop := {
  ad_length : length (d_slots d2) = length (d_slots d);
  ad_slots id s : d_slots d !! id = Some s → d_slots d2 !! id = Some (adopted_slot m w id s);
  ad_offsets o id : d_offsets d2 !! o = Some id ↔ m !! id = Some o ∨
    d_offsets d !! o = Some id ∧ ¬ (is_Some (m !! id) ∧ offset_of (d_slots d) id = Some o);
  ad_bytes : c_bytes (d_cache d2) = total_bytes (d_slots d2);
  ad_resident : resident (d_slots d2) = resident (d_slots d);
  ad_pos : Forall (λ s, 0 ≤ slot_bytes s) (d_slots d2);
  ad_rest : ∃ ss os bs, d2 = set_d_slots ss (set_d_offsets os
    (on_cache (λ c, set_c_resident bs (c_resident c) c) d1));
}.

(** Adoption only changes the slots, the offsets and the cached bytes. *)
Lemma adopted_fields d w d1 m d2 : adopted d w d1 m d2 →
  d_vfs d2 = d_vfs d1 ∧ d_root d2 = d_root d1 ∧ d_next_generation d2 = d_next_generation d1 ∧
  d_watermark d2 = d_watermark d1 ∧ d_poisoned d2 = d_poisoned d1 ∧ d_next_seq d2 = d_next_seq d1 ∧
  d_params d2 = d_params d1 ∧
  c_tick (d_cache d2) = c_tick (d_cache d1) ∧ c_lru (d_cache d2) = c_lru (d_cache d1) ∧
  c_evictions (d_cache d2) = c_evictions (d_cache d1) ∧
  c_overcommit_events (d_cache d2) = c_overcommit_events (d_cache d1).
Proof. intros Had. by destruct (ad_rest _ _ _ _ _ Had) as (ss & os & bs & ->). Qed.

Lemma adopted_nil d w d1 : disk_inv d → published d w d1 → adopted d w d1 ∅ d1.
Proof.
  intros Hi [Hs Ho Hc _ _ _ _ _]. split; rewrite ?Hs ?Ho ?Hc //.
  - intros o id. rewrite lookup_empty. split; [|by intros [[=]|[? _]]].
    intros ?. right. split; [done|]. by intros [[? [=]] _].
  - apply Hi.
  - apply Hi.
  - exists (d_slots d1), (d_offsets d1), (c_bytes (d_cache d1)). by destruct d1 as [? ? ? ? ? ? ? ? [] ? ? ? ?].
Qed.

Lemma adopted_slot_other m w id off i s : i ≠ id → adopted_slot (<[id:=off]> m) w i s = adopted_slot m w i s.
Proof. intros Hne. unfold adopted_slot. by rewrite lookup_insert_ne. Qed.

(** A written node: dirty, with its old offset below the new one. *)
Lemma assigned_slot d l w id off :
  disk_inv d → written d l w → w_assigned w !! id = Some off → ∃ n old b tick len,
    d_slots d !! id = Some (Loaded n true old b tick) ∧ d_watermark d ≤ off < image_end d w ∧
    w_record_lens w !! id = Some (RECORD_HEADER_SIZE + len) ∧ 0 ≤ len ≤ u32_max ∧
    ∀ o, old = Some o → o < d_watermark d ∧ d_offsets d !! o = Some id.
Proof.
  intros Hi Hw Ha. destruct (wi_wrote _ _ _ Hw _ _ Ha) as (n & old & b & tick & node & len & Hs & Hoff & Hh & Hlen & _).
  destruct Hh as (_ & p & _ & _ & -> & Hmax & _).
  exists n, old, b, tick, (Z.of_nat (length p)). split_and!; [done|done|by eapply wi_below|done|lia|done|].
  intros o ->. pose proof (di_dirty _ Hi _ _ _ _ _ Hs) as Ho. split; [by eapply di_below|done].
Qed.

(** The offsets after one more adoption. *)
Lemma offsets_step d l w d1 m d2 id off n old b tick :
  disk_inv d → written d l w → adopted d w d1 m d2 → m ⊆ w_assigned w → m !! id = None →
  w_assigned w !! id = Some off → d_slots d !! id = Some (Loaded n true old b tick) →
  let os := match old with Some o => base.delete o (d_offsets d2) | None => d_offsets d2 end in
  ∀ o i, <[off:=id]> os !! o = Some i ↔ <[id:=off]> m !! i = Some o ∨
    d_offsets d !! o = Some i ∧ ¬ (is_Some (<[id:=off]> m !! i) ∧ offset_of (d_slots d) i = Some o).
Proof.
  intros Hi Hw Had Hm Hid Ha Hs os o i.
  destruct (assigned_slot _ _ _ _ _ Hi Hw Ha) as (n' & old' & b' & tick' & len & Hs' & Hoff & _ & _ & Hold).
  rewrite Hs in Hs'. injection Hs' as <- <- <- <-.
  assert (offset_of (d_slots d) id = old) as Hoo by (unfold offset_of; by rewrite Hs).
  destruct (decide (o = off)) as [->|Hne].
  - rewrite lookup_insert_eq. split.
    + intros [= <-]. left. by rewrite lookup_insert_eq.
    + intros [Hmi|[Ho _]].
      * destruct (decide (i = id)) as [->|Hni]; [done|]. rewrite lookup_insert_ne in Hmi; [done|].
        pose proof (wi_inj _ _ _ Hw _ _ _ Ha (lookup_weaken _ _ _ _ Hmi Hm)). congruence.
      * apply (di_below _ Hi) in Ho. lia.
  - rewrite lookup_insert_ne; [done|]. destruct (decide (old = Some o)) as [Heq|Hno].
    + destruct (Hold o Heq) as [Hlt Ho]. subst os. rewrite Heq lookup_delete_eq. split; [done|].
      intros [Hmi|[Ho' Hn]]; exfalso.
      * destruct (decide (i = id)) as [->|Hni]; [rewrite lookup_insert_eq in Hmi; congruence|].
        rewrite lookup_insert_ne in Hmi; [done|].
        destruct (assigned_slot _ _ _ _ _ Hi Hw (lookup_weaken _ _ _ _ Hmi Hm)) as (? & ? & ? & ? & ? & _ & ? & _). lia.
      * rewrite Ho in Ho'. injection Ho' as <-. apply Hn. rewrite lookup_insert_eq Hoo. by split.
    + assert (os !! o = d_offsets d2 !! o) as ->.
      { subst os. destruct old as [o'|]; [|done]. apply lookup_delete_ne. congruence. }
      rewrite (ad_offsets _ _ _ _ _ Had). destruct (decide (i = id)) as [->|Hni].
      * rewrite Hid lookup_insert_eq Hoo. split; [intros [|[? _]]; [done|]; right; split; [done|]; by intros [_ ?]|].
        intros [|[? _]]; [congruence|]. right. split; [done|]. by intros [[] _].
      * by rewrite lookup_insert_ne.
Qed.

Lemma adopt_written_spec d l w d1 m d2 id off :
  disk_inv d → written d l w → adopted d w d1 m d2 → m ⊆ w_assigned w → m !! id = None →
  w_assigned w !! id = Some off → c_bytes (d_cache d2) + record_max ≤ u64_max →
  wp (adopt_written (w_record_lens w) id off) (λ _ d3, adopted d w d1 (<[id:=off]> m) d3 ∧
    c_bytes (d_cache d3) ≤ c_bytes (d_cache d2) + record_max) d2.
Proof.
  intros Hi Hw Had Hm Hid Ha Hroom.
  destruct (assigned_slot _ _ _ _ _ Hi Hw Ha) as (n & old & b & tick & len & Hs & Hoff & Hlen & Hl & Hold).
  pose proof (ad_slots _ _ _ _ _ Had _ _ Hs) as Hs2. unfold adopted_slot in Hs2. rewrite Hid in Hs2.
  pose proof (total_bytes_ge _ _ _ (ad_pos _ _ _ _ _ Had) Hs2) as Hge. simpl in Hge.
  pose proof (ad_pos _ _ _ _ _ Had) as Hpos. pose proof Hpos as Hb. rewrite Forall_lookup in Hb.
  specialize (Hb _ _ Hs2). simpl in Hb. rewrite -(ad_bytes _ _ _ _ _ Had) in Hge.
  unfold record_max in *. assert (0 < RECORD_HEADER_SIZE) by done.
  unfold adopt_written. apply wp_bind. eapply wp_slot; [exact Hs2|].
  apply wp_bind. eapply wp_lift; [by rewrite Hlen|]. apply wp_bind, wp_get.
  apply wp_bind. eapply wp_lift; [apply u64_sub_Ok; lia|].
  apply wp_bind. eapply wp_lift; [apply u64_add_Ok; lia|]. apply wp_bind, wp_modify, wp_bind, wp_put_slot.
  set (exact := RECORD_HEADER_SIZE + len) in *.
  set (s' := Loaded n false (Some off) exact tick).
  set (bs := c_bytes (d_cache d2) - b + exact).
  set (os := match old with Some o => base.delete o (d_offsets d2) | None => d_offsets d2 end).
  set (d3 := set_d_offsets (<[off:=id]> os)
    (set_d_slots (<[id:=s']> (d_slots d2)) (on_cache (λ c, set_c_resident bs (c_resident c) c) d2))).
  assert (adopted d w d1 (<[id:=off]> m) d3 ∧ c_bytes (d_cache d3) ≤ c_bytes (d_cache d2) + (RECORD_HEADER_SIZE + u32_max))
    as Hdone.
  { split; [|simpl; unfold bs, exact; lia]. pose proof (lookup_lt_Some _ _ _ Hs2) as Hlt. split.
    - simpl. rewrite length_insert. apply Had.
    - intros i s Hi'. simpl. destruct (decide (i = id)) as [->|Hne].
      + rewrite list_lookup_insert_eq; [done|]. assert (s = Loaded n true old b tick) as -> by congruence.
        unfold adopted_slot. by rewrite lookup_insert_eq Hlen.
      + rewrite list_lookup_insert_ne; [done|]. rewrite adopted_slot_other //. by apply Had.
    - by eapply offsets_step.
    - simpl. rewrite (total_bytes_insert _ _ _ _ Hs2) -(ad_bytes _ _ _ _ _ Had). simpl. unfold bs. lia.
    - simpl. pose proof (resident_insert _ _ _ s' Hs2) as Hr. rewrite -(ad_resident _ _ _ _ _ Had). simpl in Hr. lia.
    - simpl. apply Forall_insert; [done|]. simpl. unfold exact. lia.
    - destruct (ad_rest _ _ _ _ _ Had) as (ss & os' & bs' & ->). by eexists _, _, _. }
  apply wp_bind. destruct old as [o|]; [apply wp_modify|apply wp_ret]; apply wp_modify; exact Hdone.
Qed.

Lemma adopt_all_spec d l w d1 rest m d2 :
  disk_inv d → written d l w → adopted d w d1 m d2 → m ⊆ w_assigned w → NoDup rest.*1 →
  (∀ i o, (i, o) ∈ rest → m !! i = None ∧ w_assigned w !! i = Some o) →
  c_bytes (d_cache d2) + Z.of_nat (length rest) * record_max ≤ u64_max →
  wp (adopt_all (w_record_lens w) rest) (λ _ d3, ∃ m', m' ⊆ w_assigned w ∧ m ⊆ m' ∧
    (∀ i o, (i, o) ∈ rest → m' !! i = Some o) ∧ adopted d w d1 m' d3) d2.
Proof.
  intros Hi Hw. assert (0 < record_max) by done.
  revert m d2. induction rest as [|[i o] rest IH]; intros m d2 Had Hm Hnd Hrest Hroom; cbn [adopt_all].
  { apply wp_ret. exists m. split_and!; [done|done|by intros ? ? ?%not_elem_of_nil|done]. }
  cbn [fmap list_fmap fst] in Hnd. apply NoDup_cons in Hnd as [Hni Hnd].
  destruct (Hrest i o) as [Hmi Hio]; [by left|]. cbn [length] in Hroom. apply wp_bind.
  eapply wp_mono; [apply (adopt_written_spec d l w d1 m d2 i o); [done..|lia]|]. intros _ d3 [Had3 Hb3].
  eapply wp_mono; [apply (IH (<[i:=o]> m) d3 Had3)|].
  - by apply insert_subseteq_l.
  - done.
  - intros j p Hj. destruct (Hrest j p) as [Hmj Hjp]; [by right|]. split; [|done].
    rewrite lookup_insert_ne; [|done]. intros ->. apply Hni. by apply (list_elem_of_fmap_2 fst) in Hj.
  - lia.
  - intros _ d4 (m' & Hm' & Hsub & Hin & Had'). exists m'. split_and!; [done| | |done].
    + etrans; [by apply insert_subseteq|done].
    + intros j p [[= -> ->]|Hj]%elem_of_cons; [|by apply Hin]. eapply lookup_weaken; [|exact Hsub].
      apply lookup_insert_eq.
Qed.

Lemma by_id_perm (m : gmap NodeId Z) : by_id m ≡ₚ map_to_list m.
Proof. apply merge_sort_Permutation. Qed.

(** The whole adoption. *)
Lemma adopt_all_by_id d l w d1 :
  disk_inv d → written d l w → published d w d1 →
  c_bytes (d_cache d) + Z.of_nat (size (w_assigned w)) * record_max ≤ u64_max →
  wp (adopt_all (w_record_lens w) (by_id (w_assigned w))) (λ _ d3, adopted d w d1 (w_assigned w) d3) d1.
Proof.
  intros Hi Hw Hpub Hroom.
  eapply wp_mono; [apply (adopt_all_spec d l w d1 _ ∅ d1); [done|done|by apply adopted_nil|apply map_empty_subseteq|..]|].
  - rewrite by_id_perm. apply NoDup_fst_map_to_list.
  - intros i o. rewrite by_id_perm elem_of_map_to_list. intros ?. by rewrite lookup_empty.
  - rewrite by_id_perm length_map_to_list (pb_cache _ _ _ Hpub). done.
  - intros _ d3 (m' & Hm' & _ & Hin & Had). assert (m' = w_assigned w) as ->; [|done].
    apply (anti_symm (⊆)); [done|]. apply map_subseteq_spec. intros i o Hio. apply Hin.
    by rewrite by_id_perm elem_of_map_to_list.
Qed.

(** ** The engine after the adoption *)

(** Dirty nodes hang together: no clean node in memory points at a dirty
    one. *)
Definition children_of (n : Node) : list NodeId := match n with Internal _ chs _ => chs | Leaf _ => [] end.
Definition connected d : Prop := ∀ id n off b tick c,
  d_slots d !! id = Some (Loaded n false off b tick) → c ∈ children_of n → dirtyb (d_slots d) c = false.

Section result.
Context (d : E) (l : list NodeId) (w : Written) (d1 d2 : E).
Hypothesis Hi : disk_inv d.
Hypothesis Hw : written d l w.
Hypothesis Hpub : published d w d1.
Hypothesis Had : adopted d w d1 (w_assigned w) d2.

Lemma ad_file : file d2 = file d1.
Proof using Had. by destruct (ad_rest _ _ _ _ _ Had) as (ss & os & bs & ->). Qed.
Lemma ad_watermark : d_watermark d2 = image_end d w.
Proof using Had Hpub. destruct (ad_rest _ _ _ _ _ Had) as (ss & os & bs & ->). apply Hpub. Qed.

Lemma ad_record off node len :
  holds_record (image d w) (image_end d w) off node len → holds_record (file d2) (d_watermark d2) off node len.
Proof using Had Hpub.
  rewrite ad_file ad_watermark. intros Hh. by eapply holds_record_agree; [apply Hpub| |].
Qed.

Lemma old_record off node len :
  holds_record (file d) (d_watermark d) off node len →
  holds_record (image d w) (image_end d w) off node len.
Proof using Hi.
  destruct (di_watermark _ Hi) as [? Hl]. assert (0 ≤ DATA_START) by done.
  apply holds_record_agree; [|unfold image_end; lia]. split; [rewrite length_image //; unfold image_end; lia|].
  intros i Hlt. unfold image. rewrite lookup_app_l ?length_take; [lia|]. rewrite lookup_take_lt; [lia|done].
Qed.

(** The slots: written nodes are clean, the others as before. *)
Lemma ad_cases id s2 : d_slots d2 !! id = Some s2 →
  (∃ n old b tick off len, d_slots d !! id = Some (Loaded n true old b tick) ∧
     w_assigned w !! id = Some off ∧ s2 = Loaded n false (Some off) (RECORD_HEADER_SIZE + len) tick ∧ 0 ≤ len) ∨
  (w_assigned w !! id = None ∧ d_slots d !! id = Some s2).
Proof using Had Hi Hw.
  intros Hs2. destruct (lookup_lt_is_Some_2 (d_slots d) id) as [s Hs].
  { rewrite -(ad_length _ _ _ _ _ Had). by eapply lookup_lt_Some. }
  pose proof (ad_slots _ _ _ _ _ Had _ _ Hs) as Hs2'. rewrite Hs2 in Hs2'. injection Hs2' as ->.
  unfold adopted_slot. destruct (w_assigned w !! id) as [off|] eqn:E; [left|by right].
  destruct (assigned_slot _ _ _ _ _ Hi Hw E) as (n & old & b & tick & len & Hs' & _ & Hlen & [? _] & _).
  rewrite Hs in Hs'. injection Hs' as ->. exists n, old, b, tick, off, len. by rewrite Hlen.
Qed.

Lemma ad_clean id s : d_slots d !! id = Some s → dirtyb (d_slots d) id = false →
  w_assigned w !! id = None ∧ d_slots d2 !! id = Some s.
Proof using Had Hi Hw.
  intros Hs Hd. assert (w_assigned w !! id = None) as Hn.
  { apply eq_None_not_Some. intros [off Ha].
    destruct (assigned_slot _ _ _ _ _ Hi Hw Ha) as (n & old & b & tick & len & Hs' & _).
    unfold dirtyb in Hd. by rewrite Hs' in Hd. }
  split; [done|]. rewrite (ad_slots _ _ _ _ _ Had _ _ Hs). unfold adopted_slot. by rewrite Hn.
Qed.

Lemma ad_offset_keep o id : d_offsets d !! o = Some id → dirtyb (d_slots d) id = false →
  d_offsets d2 !! o = Some id.
Proof using Had Hi Hw.
  intros Ho Hd. apply (ad_offsets _ _ _ _ _ Had). right. split; [done|]. intros [[off Ha] _].
  destruct (di_offsets _ Hi _ _ Ho) as (s & Hs & _). destruct (ad_clean _ _ Hs Hd) as [? _]. congruence.
Qed.

Lemma clean_at_dirtyb id s o : d_slots d !! id = Some s → clean_at s o → dirtyb (d_slots d) id = false.
Proof. unfold dirtyb. intros -> Hc. by destruct s as [? [] ? ? ?| |]. Qed.

(** Where a pointer was stored is where the child now is. *)
Lemma ad_resolves c o : resolves d w c o → d_offsets d2 !! o = Some c.
Proof using Had Hi Hw.
  intros Hr. pose proof Hr as Hr'. unfold resolves, resolve_offset, slot, get_, lift, mbind, M_bind in Hr.
  destruct (d_slots d !! c) as [[n [] off b t|o'|]|] eqn:Es; simpl in Hr; try done.
  - apply (resolves_dirty _ _ _ _ _ _ _ _ Es) in Hr'. apply (ad_offsets _ _ _ _ _ Had). by left.
  - destruct (di_clean _ Hi _ _ _ _ _ Es) as (o' & -> & _ & Ho). injection Hr as <-.
    apply ad_offset_keep; [done|]. unfold dirtyb. by rewrite Es.
  - injection Hr as <-. apply ad_offset_keep; [by apply di_on_disk|]. unfold dirtyb. by rewrite Es.
Qed.

Lemma ad_node_matches id n off : w_assigned w !! id = Some off →
  (∃ old b tick, d_slots d !! id = Some (Loaded n true old b tick)) → node_matches d2 off n.
Proof using Had Hi Hw Hpub.
  intros Ha (old & b & tick & Hs).
  destruct (wi_wrote _ _ _ Hw _ _ Ha) as (n' & ? & ? & ? & node & len & Hs' & _ & Hh & _ & Hm).
  rewrite Hs in Hs'. injection Hs' as <- _ _ _. exists node, len. split; [by apply ad_record|].
  destruct n, node; try done. destruct Hm as (? & ? & ? & ? & Hr). split_and!; try done.
  eapply Forall2_impl; [exact Hr|]. intros c o. apply ad_resolves.
Qed.

Lemma ad_disk_inv : connected d → disk_inv d2.
Proof using Had Hi Hw Hpub.
  intros Hcon. destruct (di_watermark _ Hi) as [Hwm _].
  split; rewrite ?ad_watermark.
  - destruct (ad_rest _ _ _ _ _ Had) as (ss & os & bs & ->). apply Hpub.
  - rewrite ad_file. split; [unfold image_end; lia|apply Hpub].
  - apply Hpub.
  - intros id n off b tick [(n' & old & b' & t' & o & len & Hs & Ha & [= -> -> -> ->] & _)|[Ha Hs]]%ad_cases.
    + exists o. split; [done|]. split; [by eapply ad_node_matches; eauto|].
      apply (ad_offsets _ _ _ _ _ Had). by left.
    + destruct (di_clean _ Hi _ _ _ _ _ Hs) as (o & -> & (node & len & Hh & Hm) & Ho). exists o.
      split; [done|]. split; [|by apply ad_offset_keep; [|unfold dirtyb; rewrite Hs]].
      exists node, len. split; [by apply ad_record, old_record|].
      destruct n as [ps chs bu|e], node; try done. destruct Hm as (? & ? & ? & ? & Hr). split_and!; try done.
      apply Forall2_lookup. intros j. pose proof (Forall2_length _ _ _ Hr) as Hlen.
      destruct (chs !! j) as [c|] eqn:Ec.
      * destruct (Forall2_lookup_l _ _ _ _ _ Hr Ec) as (o' & -> & Ho'). constructor.
        apply ad_offset_keep; [done|]. eapply Hcon; [exact Hs|]. by eapply list_elem_of_lookup_2.
      * rewrite (lookup_ge_None_2 _ j); [apply lookup_ge_None_1 in Ec; lia|constructor].
  - intros id o [(n' & old & b' & t' & o' & len & Hs & Ha & [=] & _)|[Ha Hs]]%ad_cases.
    apply ad_offset_keep; [by apply di_on_disk|]. unfold dirtyb. by rewrite Hs.
  - intros id n o b tick [(n' & old & b' & t' & o' & len & Hs & Ha & [=] & _)|[Ha Hs]]%ad_cases.
    apply (ad_offsets _ _ _ _ _ Had). right. split; [by eapply di_dirty|]. rewrite Ha. by intros [[? [=]] _].
  - intros o id [Ha|[Ho _]]%(ad_offsets _ _ _ _ _ Had); [by eapply wi_below|].
    pose proof (di_below _ Hi _ _ Ho). unfold image_end. lia.
  - intros o id [Ha|[Ho _]]%(ad_offsets _ _ _ _ _ Had).
    + destruct (assigned_slot _ _ _ _ _ Hi Hw Ha) as (n & old & b & tick & len & Hs & _).
      eexists. split; [by apply (ad_slots _ _ _ _ _ Had)|]. unfold adopted_slot. by rewrite Ha.
    + destruct (di_offsets _ Hi _ _ Ho) as (s & Hs & Hne).
      eexists. split; [by apply (ad_slots _ _ _ _ _ Had)|]. unfold adopted_slot.
      by destruct (w_assigned w !! id), s.
  - apply Had.
  - rewrite (ad_resident _ _ _ _ _ Had) -(di_resident _ Hi) -(pb_cache _ _ _ Hpub).
    by destruct (ad_rest _ _ _ _ _ Had) as (ss & os & bs & ->).
  - apply Had.
  - rewrite (ad_length _ _ _ _ _ Had). pose proof (di_lru _ Hi) as Hlru. rewrite -(pb_cache _ _ _ Hpub) in Hlru.
    by destruct (ad_rest _ _ _ _ _ Had) as (ss & os & bs & ->).
Qed.

(** Every node of the tree is now clean. *)
Lemma ad_clean_offset o : stays d w o → clean_offset d2 o.
Proof using Had Hi Hw.
  intros Hst id s [Ha|[Ho Hn]]%(ad_offsets _ _ _ _ _ Had) [(n & old & b & t & off & len & Hs & Ha' & -> & _)|[Ha' Hs]]%ad_cases.
  - right. simpl. congruence.
  - congruence.
  - destruct Hst as [[Hlt Hcl]|[id' Ha]].
    + destruct (Hcl _ _ Ho Hs) as [[=]|[]].
    + pose proof (di_below _ Hi _ _ Ho).
      destruct (assigned_slot _ _ _ _ _ Hi Hw Ha) as (? & ? & ? & ? & ? & _ & ? & _). lia.
  - destruct Hst as [[Hlt Hcl]|[id' Ha]]; [by apply Hcl with id|].
    pose proof (di_below _ Hi _ _ Ho).
    destruct (assigned_slot _ _ _ _ _ Hi Hw Ha) as (? & ? & ? & ? & ? & _ & ? & _). lia.
Qed.

Lemma ad_cached t id : cached d t id → (∀ x, x ∈ dirty_post (d_slots d) t id → x ∈ l) → cached d2 t id.
Proof using All.
  intros Hc Hsub. destruct (written_stored _ _ _ _ Hi Hw _ Hc Hsub) as (o & Hr & Hst).
  assert (∃ s, d_slots d2 !! id = Some s ∧ clean_at s o) as (s & Hs & Hcl).
  { destruct (cached_slot _ _ _ Hc) as [s Hs]. unfold resolves, resolve_offset, slot, get_, lift, mbind, M_bind in Hr.
    rewrite Hs /= in Hr. pose proof (ad_slots _ _ _ _ _ Had _ _ Hs) as Hs2. exists (adopted_slot (w_assigned w) w id s).
    split; [done|]. unfold adopted_slot. destruct s as [n [] off b tick|o'|]; simpl in Hr; try done.
    - destruct (w_assigned w !! id); [|done]. injection Hr as ->. done.
    - destruct (ad_clean _ _ Hs) as [-> _]; [unfold dirtyb; by rewrite Hs|]. destruct off; [|done]. by injection Hr as ->.
    - destruct (w_assigned w !! id); by injection Hr as ->. }
  eapply cached_clean; [exact Hs|exact Hcl|]. unfold settled. rewrite ad_file ad_watermark.
  eapply stored_impl; [|apply Hpub|done|exact Hst]. intros o' _. apply ad_clean_offset.
Qed.
End result.
End adopt.
