(* ===== verification/CommitSpec.v ===== *)
(** * Crash safety of the commit protocol

    Whatever happens during a commit, every image that a crash can leave
    commits the tree of the previous commit or the tree of this one; a
    commit that returns [Ok] has made this one durable. *)

From S2P Require Export Adopt.
From stdpp Require Import options.
From Stdlib Require Import ZArith.

Local Open Scope Z_scope.

(** ** A torn superblock slot *)
Section slot.
Context `{CodecLaws}.

(** The bytes of a slot are neither what was there nor what was written, and
    yet carry their own checksum: a collision of [crc32]. *)
Definition collision (old new found : list byte) : Prop :=
  found ≠ old ∧ found ≠ new ∧ ∃ body tail, found = body ++ tail ∧ length tail = 4%nat ∧
    crc32_hash body = le_decode tail.

Lemma slot_authentic img off : slot_at img off ≠ Invalid → ∃ body tail,
  slot_bytes_at img off = body ++ tail ∧ length tail = 4%nat ∧ crc32_hash body = le_decode tail.
Proof using Type.
  unfold slot_at. generalize (slot_bytes_at img off) as bs. intros bs.
  destruct (decode_slot bs) as [st| | |] eqn:Ed; cbn [status_of]; [|done..]. intros Hst.
  destruct (decode_slot_inv _ _ Ed Hst) as (body & tail & sb & n & -> & _ & Ht & Hc & _).
  by exists body, tail.
Qed.

(** The crash images of a commit. *)
Definition crash_ok (sb sb' : Superblock) (t0 t : tree) (old new img : list byte) : Prop :=
  committed img sb t0 ∨ committed img sb' t ∨
  collision old new (slot_bytes_at img (slot_of (Format.generation sb'))).

(** Images that differ in one slot at most. *)
Record differs (off : Z) (img img' : list byte) : Prop := {
  df_length : length img' = length img;
  df_same i : ¬ (off ≤ Z.of_nat i < off + SUPERBLOCK_SLOT_SIZE) → img' !! i = img !! i;
}.

Lemma differs_torn off img img' data :
  torn img off data img' → Z.of_nat (length data) = SUPERBLOCK_SLOT_SIZE → 0 ≤ off →
  off + SUPERBLOCK_SLOT_SIZE ≤ Z.of_nat (length img) → differs off img img'.
Proof.
  intros Ht Hl Hoff Hlen.
  assert (∀ data', (length data' ≤ length data)%nat → differs off img (splice img (Z.to_nat off) data')) as Hs.
  { intros data' Hd. split; [rewrite length_splice; lia|]. intros i Hi.
    destruct (decide (i < length img)%nat); [apply lookup_splice_old; lia|].
    rewrite !lookup_ge_None_2 ?length_splice; [lia..|done]. }
  destruct Ht as [->|[->|[k ->]]]; [by split|apply Hs..]; rewrite ?length_replicate ?length_take; lia.
Qed.

Lemma slot_bytes_splice off img data :
  Z.of_nat (length data) = SUPERBLOCK_SLOT_SIZE → 0 ≤ off →
  slot_bytes_at (splice img (Z.to_nat off) data) off = data.
Proof.
  intros Hl Hoff. unfold slot_bytes_at. apply list_eq. intros i.
  destruct (decide (i < length data)%nat).
  - rewrite lookup_take_lt; [lia|]. rewrite lookup_drop lookup_splice_in; [lia|]. f_equal. lia.
  - rewrite !lookup_ge_None_2 ?length_take; [lia..|done].
Qed.

Lemma differs_slot g img img' :
  differs (slot_of (g + 1)) img img' → DATA_START ≤ Z.of_nat (length img) →
  slot_bytes_at img' (slot_of g) = slot_bytes_at img (slot_of g).
Proof using Type.
  intros [Hl Hs] Hd. destruct (slot_of_range g) as [Hr1 Hr2]. pose proof (slot_of_apart g).
  apply slot_at_agree; [lia..|]. intros i Hi. apply Hs. lia.
Qed.

(** The new tree, once the whole slot has landed. *)
Lemma committed_new img img' sb sb' t0 t :
  committed img sb t0 → Format.generation sb' = Format.generation sb + 1 →
  laid img (watermark sb') t (root_offset sb') →
  watermark sb' ≤ Z.of_nat (length img) → differs (slot_of (Format.generation sb')) img img' →
  slot_at img' (slot_of (Format.generation sb')) = Valid sb' → committed img' sb' t.
Proof using All.
  intros Hc Hg Hst Hw Hdf Hslot. pose proof (committed_watermark _ _ _ Hc) as Hd.
  pose proof (cm_watermark _ _ _ Hc) as Hw0. pose proof Hdf as [Hl Hs]. split; [done| |lia|].
  - rewrite Hg slot_of_next. rewrite Hg in Hdf. rewrite (slot_at_eq img img'); [apply differs_slot; [done|lia]|].
    rewrite (cm_slot _ _ _ Hc). simpl. lia.
  - eapply (laid_agree img _ (watermark sb')); [|done|exact Hst]. split; [lia|]. intros i Hi. apply Hs.
    pose proof (slot_of_range (Format.generation sb')). lia.
Qed.

Lemma committed_old img img' sb t0 st :
  committed img sb t0 → differs (slot_of (Format.generation sb + 1)) img img' →
  slot_at img' (slot_of (Format.generation sb + 1)) = st → stale (Format.generation sb) st →
  committed img' sb t0.
Proof using All.
  intros Hc Hdf Hslot Hst. pose proof (committed_watermark _ _ _ Hc) as Hd.
  pose proof (cm_watermark _ _ _ Hc) as Hw0. pose proof Hdf as [Hl Hs]. split.
  - rewrite (slot_at_eq img img'); [apply differs_slot; [done|lia]|]. apply Hc.
  - by rewrite Hslot.
  - lia.
  - eapply (laid_agree img _ (watermark sb)); [|done|exact (cm_tree _ _ _ Hc)]. split; [lia|]. intros i Hi. apply Hs.
    pose proof (slot_of_range (Format.generation sb + 1)). lia.
Qed.

(** Any state of the slot in between is safe. *)
Lemma torn_slot_ok img img' sb sb' t0 t old new :
  committed img sb t0 → Format.generation sb' = Format.generation sb + 1 →
  laid img (watermark sb') t (root_offset sb') →
  watermark sb' ≤ Z.of_nat (length img) → differs (slot_of (Format.generation sb')) img img' →
  old = slot_bytes_at img (slot_of (Format.generation sb')) →
  status_of (decode_slot new) = Valid sb' → crash_ok sb sb' t0 t old new img'.
Proof using All.
  intros Hc Hg Hst Hw Hdf -> Hnew. set (off := slot_of (Format.generation sb')) in *.
  destruct (decide (slot_bytes_at img' off = new)) as [En|Hn].
  { right. left. eapply committed_new; [done..|]. unfold slot_at. by rewrite En. }
  destruct (decide (slot_bytes_at img' off = slot_bytes_at img off)) as [Eo|Ho].
  { left. apply slot_at_eq in Eo. subst off. rewrite Hg in Eo, Hdf.
    eapply committed_old; [done|done|exact Eo|apply Hc]. }
  destruct (slot_at img' off) as [sb1|v|] eqn:Est.
  3: { left. subst off. rewrite Hg in Est, Hdf. by eapply committed_old. }
  all: right; right; split; [done|]; split; [done|]; apply slot_authentic; fold off; by rewrite Est.
Qed.

Lemma encode_slot_valid sb :
  superblock_wf sb → magic sb = MAGIC → format_version sb = FORMAT_VERSION → geometry_legal sb →
  ∃ slot, encode_slot sb = Ok (ROk slot) ∧ Z.of_nat (length slot) = SUPERBLOCK_SLOT_SIZE ∧
    status_of (decode_slot slot) = Valid sb.
Proof using All.
  intros Hwf Hm Hv Hg. destruct (superblock_encodes sb Hwf) as (bs & Hbs & Hl).
  destruct (encode_decode_slot sb bs Hbs Hl) as (slot & He & Hsl & Hd). exists slot.
  split; [done|]. split; [done|]. rewrite Hd. cbn [status_of]. unfold slot_status. by rewrite !decide_True.
Qed.
End slot.

(** ** The steps of the protocol *)
Section protocol.
Context {V P : Type} `{DeviceLaws V} `{CodecLaws}.
Notation E := (DiskEngine V P).
Implicit Types (d : E) (w : Written).

(** From [v] to [v'] the machine can only have crashed into an image that is
    [ok]. *)
Definition crashes (v v' : V) (ok : list byte → Prop) : Prop :=
  (dev_time v ≤ dev_time v')%nat ∧
  (∀ n img, dev_history v' n img → dev_history v n img ∨ ok img) ∧
  ∀ img, dev_images v' img → ok img.

Lemma crashes_step (v v' : V) (ok : list byte → Prop) :
  one_more v v' → (∀ img, dev_images v' img → ok img) → crashes v v' ok.
Proof. intros [Ht Hm] Hi. split_and!; [done| |done]. intros n img Hh. destruct (Hm n img Hh); auto. Qed.

Lemma crashes_trans (v v' v'' : V) (ok ok' : list byte → Prop) :
  crashes v v' ok → crashes v' v'' ok' → (∀ img, ok img → ok' img) → crashes v v'' ok'.
Proof.
  intros (T1 & C1 & _) (T2 & C2 & C3) Hok. split_and!; [lia| |done]. intros n img Hh.
  destruct (C2 n img Hh) as [Hh'|]; [destruct (C1 n img Hh')|]; auto.
Qed.

Lemma crashes_weaken (v v' : V) (ok ok' : list byte → Prop) :
  crashes v v' ok → (∀ img, ok img → ok' img) → crashes v v' ok'.
Proof. intros (T & C1 & C2) Hok. split_and!; [done| |auto]. intros n img Hh. destruct (C1 n img Hh); auto. Qed.

(** A crash from the moment of [v] on. *)
Lemma crashes_since (v v' : V) (ok : list byte → Prop) n img :
  crashes v v' ok → dev_wf v → (∀ img, dev_images v img → ok img) →
  (dev_time v ≤ n)%nat → dev_history v' n img → ok img.
Proof using H H0 H1 V.
  intros (_ & C & _) Hwf Hnow Hn Hh. destruct (C _ _ Hh) as [Hv|]; [|done].
  pose proof (dev_past _ _ _ Hv). assert (n = dev_time v) as -> by lia. by apply Hnow, dev_now.
Qed.

(** The last commit, durable. *)
Record durable d (sb : Superblock) (t0 : tree) : Prop := {
  du_healthy : dev_healthy (d_vfs d);
  du_pending : dev_pending (d_vfs d) = [];
  du_images img : dev_images (d_vfs d) img → committed img sb t0;
  du_view : committed (file d) sb t0;
  du_generation : d_next_generation d = Format.generation sb + 1;
  du_watermark : d_watermark d = watermark sb;
}.

(** The append of the records. *)
Lemma append_spec d sb t0 buf :
  disk_inv d → durable d sb t0 → d_watermark d + Z.of_nat (length buf) ≤ u64_max →
  wp (match buf with [] => mret (ROk tt) | b :: bs => on_vfs (write_all_at (d_watermark d) (b :: bs)) end)
    (λ r d', ∃ v, d' = set_d_vfs v d ∧ dev_wf v ∧ crashes (d_vfs d) v (λ img, committed img sb t0) ∧
      (dev_reliable (d_vfs d) → dev_reliable v) ∧
      match r with
      | ROk _ => dev_view v = splice (file d) (Z.to_nat (d_watermark d)) buf ∧ dev_healthy v ∧
          dev_bytes v = dev_bytes (d_vfs d) + Z.of_nat (length buf)
      | RErr e => io_error d e
      end) d.
Proof using All.
  intros Hi [Hh Hp Himg Hv Hg Hw] Hmax. destruct (di_watermark _ Hi) as [Hw1 Hw2]. assert (0 ≤ DATA_START) by done.
  destruct buf as [|b buf].
  { apply wp_ret. exists (d_vfs d). split; [by destruct d|]. split; [apply Hi|]. split; [by split_and!; auto|].
    split; [done|]. split; [|split; [done|simpl; lia]]. unfold splice. cbn [length]. rewrite Nat.add_0_r.
    destruct (Nat.ltb_spec (length (file d)) (Z.to_nat (d_watermark d))); [lia|]. by rewrite /= take_drop. }
  apply wp_on_vfs. eapply wp_mono; [apply dev_write; [apply Hi|]|].
  { split; [lia|]. split; [lia|]. rewrite Hp. constructor. }
  intros r v (Hwf & Hmore & Himgs & Hrel & Hr). exists v. split; [done|]. split; [done|]. split.
  { apply crashes_step; [done|]. intros img' Hi'. destruct (Himgs _ Hi') as (img & Hi0 & Ht).
    eapply committed_torn; [by apply Himg|exact Ht|lia]. }
  split; [done|]. destruct r as [[]|e]; cbn [map_err].
  - destruct Hr as (Hv' & _ & Hh' & Hb). split; [exact Hv'|auto].
  - by exists e.
Qed.

(** A sync. *)
Lemma sync_spec d (ok : list byte → Prop) :
  dev_wf (d_vfs d) → (∀ img, dev_images (d_vfs d) img → ok img) →
  wp (on_vfs sync) (λ r d', ∃ v, d' = set_d_vfs v d ∧ dev_wf v ∧ crashes (d_vfs d) v ok ∧
    dev_view v = file d ∧ dev_bytes v = dev_bytes (d_vfs d) ∧ dev_pending v = [] ∧ (dev_reliable (d_vfs d) → dev_reliable v) ∧
    match r with
    | ROk _ => dev_healthy (d_vfs d) → dev_healthy v ∧ ∀ img, dev_images v img → img = file d
    | RErr e => io_error d e
    end) d.
Proof using All.
  intros Hwf Hok. apply wp_on_vfs. eapply wp_mono; [by apply dev_sync|].
  intros r v (Hwf' & Hmore & Hv & Hb & Hp & Himgs & Hrel & Hr). exists v.
  split; [done|]. split; [done|]. split; [apply crashes_step; auto|].
  split_and!; [done|done|done|done|]. destruct r as [[]|e]; cbn [map_err]; [done|by exists e].
Qed.

(** The publication through the inactive slot. *)
Lemma publish_spec d sb sb' t0 t image :
  dev_wf (d_vfs d) → dev_pending (d_vfs d) = [] → dev_healthy (d_vfs d) →
  (∀ img, dev_images (d_vfs d) img → img = file d) → committed (file d) sb t0 →
  Format.generation sb' = Format.generation sb + 1 →
  laid (file d) (watermark sb') t (root_offset sb') →
  watermark sb' ≤ Z.of_nat (length (file d)) →
  Z.of_nat (length image) = SUPERBLOCK_SLOT_SIZE → status_of (decode_slot image) = Valid sb' →
  let off := slot_of (Format.generation sb') in
  let ok := crash_ok sb sb' t0 t (slot_bytes_at (file d) off) image in
  wp (on_vfs (write_all_at off image)) (λ r d', ∃ v, d' = set_d_vfs v d ∧ dev_wf v ∧
    crashes (d_vfs d) v ok ∧ (dev_reliable (d_vfs d) → dev_reliable v) ∧
    match r with
    | ROk _ => dev_view v = splice (file d) (Z.to_nat off) image ∧ dev_healthy v ∧
        dev_bytes v = dev_bytes (d_vfs d) + SUPERBLOCK_SLOT_SIZE ∧ committed (dev_view v) sb' t
    | RErr e => io_error d e
    end) d.
Proof using All.
  intros Hwf Hp Hh Himg Hc Hg Hst Hw Hl Hdec off ok.
  pose proof (committed_watermark _ _ _ Hc) as Hd. pose proof (cm_watermark _ _ _ Hc) as Hw0.
  destruct (slot_of_range (Format.generation sb')) as [Hr1 Hr2]. pose proof (dev_length _ Hwf) as Hlen.
  fold off in Hr1, Hr2. unfold file in *.
  assert (∀ img', torn (dev_view (d_vfs d)) off image img' → differs off (dev_view (d_vfs d)) img') as Hdf.
  { intros img' Ht. eapply differs_torn; [done|done|lia|lia]. }
  apply wp_on_vfs. eapply wp_mono; [apply dev_write; [done|]|].
  { split; [lia|]. split; [lia|]. rewrite Hp. constructor. }
  intros r v (Hwf' & Hmore & Himgs & Hrel & Hr). exists v. split; [done|]. split; [done|]. split.
  { apply crashes_step; [done|]. intros img' Hi'. destruct (Himgs _ Hi') as (img & Hi0 & Ht).
    apply Himg in Hi0. subst img. eapply torn_slot_ok; [done|done|done|done|by apply Hdf|done|done]. }
  split; [done|]. destruct r as [[]|e]; cbn [map_err]; [|by exists e].
  destruct Hr as (Hv' & _ & Hh' & Hb). split; [exact Hv'|]. split; [auto|]. split; [by rewrite Hb Hl|]. rewrite Hv'.
  eapply committed_new; [done|done|exact Hst|done| |].
  - apply Hdf. right. right. exists (length image). by rewrite firstn_all.
  - fold off. unfold slot_at. by rewrite slot_bytes_splice.
Qed.
End protocol.
