(* ===== verification/Commit.v ===== *)
(** * [commit]

    The commit protocol as a whole: it returns, every crash image is safe,
    [Ok] means durable, and an error poisons the engine. *)

From S2P Require Export CommitSpec.
From stdpp Require Import options.
From Stdlib Require Import ZArith.

Local Open Scope Z_scope.

Lemma wp_bind_assoc {S A B C} (m : M S A) (f : A → M S B) (k : B → M S C) (Q : C → S → Prop) s :
  wp (m ≫= f) (λ b s', wp (k b) Q s') s → wp (a ← m; b ← f a; k b) Q s.
Proof.
  intros (b & s' & Hr & c & s'' & Hk & HQ). exists c, s''. split; [|done].
  unfold mbind, M_bind in *. destruct (m s) as [[a s1]| | |]; [|done..].
  destruct (f a s1) as [[b' s2]| | |]; [|done..]. by injection Hr as -> ->.
Qed.

Section commit.
Context {V P : Type} `{DeviceLaws V} `{CodecLaws}.
Notation E := (DiskEngine V P).
Implicit Types (d : E) (w : Written).

(** The integers have room for one more commit. *)
Record commit_room d : Prop := {
  cr_generation : d_next_generation d + 1 ≤ u64_max;
  cr_seq : u64_ok (d_next_seq d);
  cr_params : legal_params (d_params d) = true;
  cr_fanout : u64_ok (Z.of_nat (fanout (d_params d)));
  cr_buffer : u64_ok (Z.of_nat (buffer_capacity (d_params d)));
  cr_leaf : u64_ok (Z.of_nat (leaf_capacity (d_params d)));
  cr_file : d_watermark d + Z.of_nat (length (d_slots d)) * record_max ≤ u64_max;
  cr_bytes : c_bytes (d_cache d) + Z.of_nat (length (d_slots d)) * record_max ≤ u64_max;
  cr_tick : c_tick (d_cache d) + Z.of_nat (length (c_lru (d_cache d))) ≤ u64_max;
  cr_evictions : c_evictions (d_cache d) + Z.of_nat (length (c_lru (d_cache d))) ≤ u64_max;
  cr_overcommit : c_overcommit_events (d_cache d) + 1 ≤ u64_max;
}.

(** Whether there is room can be computed. *)
#[export] Instance commit_room_dec d : Decision (commit_room d).
Proof using Type.
  refine (cast_if (decide (d_next_generation d + 1 ≤ u64_max ∧ (0 ≤ d_next_seq d ≤ u64_max) ∧
    legal_params (d_params d) = true ∧ (0 ≤ Z.of_nat (fanout (d_params d)) ≤ u64_max) ∧
    (0 ≤ Z.of_nat (buffer_capacity (d_params d)) ≤ u64_max) ∧
    (0 ≤ Z.of_nat (leaf_capacity (d_params d)) ≤ u64_max) ∧
    d_watermark d + Z.of_nat (length (d_slots d)) * record_max ≤ u64_max ∧
    c_bytes (d_cache d) + Z.of_nat (length (d_slots d)) * record_max ≤ u64_max ∧
    c_tick (d_cache d) + Z.of_nat (length (c_lru (d_cache d))) ≤ u64_max ∧
    c_evictions (d_cache d) + Z.of_nat (length (c_lru (d_cache d))) ≤ u64_max ∧
    c_overcommit_events (d_cache d) + 1 ≤ u64_max))).
  - abstract (destruct_and!; by split).
  - abstract (intros []; by destruct_and?; tauto).
Defined.

(** The superblock that a commit publishes. *)
Definition next_superblock d w (root : Z) : Superblock :=
  mkSuperblock MAGIC FORMAT_VERSION (d_params d) (d_next_seq d) (d_next_generation d) root (image_end d w).

(** Every image that a crash can leave: the tree of the last commit, or the
    tree of this one, unless a torn superblock slot carries a checksum that
    matches by accident. *)
Definition safe d (sb : Superblock) (t0 t : tree) (img : list byte) : Prop :=
  committed img sb t0 ∨ ∃ sb' new,
    Format.generation sb' = Format.generation sb + 1 ∧ last_seq sb' = d_next_seq d ∧
    sb_params sb' = d_params d ∧ status_of (decode_slot new) = Valid sb' ∧
    (committed img sb' t ∨
     collision (slot_bytes_at (file d) (slot_of (Format.generation sb'))) new
       (slot_bytes_at img (slot_of (Format.generation sb')))).

(** What is known once the records are written. *)
Record serialized d t (l : list NodeId) w (root : Z) : Prop := {
  sz_written : written d l w;
  sz_nodup : NoDup l;
  sz_dirty : l = dirty_post (d_slots d) t (d_root d);
  sz_root : resolves d w (d_root d) root;
  sz_stored : stored (stays d w) (image d w) (image_end d w) t root;
  sz_laid : laid (image d w) (image_end d w) t root;
}.

Lemma serialized_length d t l w root : serialized d t l w root →
  (length l ≤ length (d_slots d))%nat ∧ size (w_assigned w) = length l.
Proof.
  intros [Hw Hnd Hl _ _ _]. split.
  - apply NoDup_bounded; [done|]. rewrite Hl. intros x. apply dirty_post_range.
  - rewrite -size_dom -(size_list_to_set (C := gset NodeId) l Hnd). f_equal. apply set_eq. intros id.
    rewrite elem_of_dom elem_of_list_to_set. apply Hw.
Qed.

Lemma serialized_end d t l w root : commit_room d → serialized d t l w root →
  d_watermark d ≤ image_end d w ≤ d_watermark d + Z.of_nat (length (d_slots d)) * record_max.
Proof.
  intros Hroom Hs. destruct (serialized_length _ _ _ _ _ Hs) as [Hl _].
  pose proof (wi_size _ _ _ (sz_written _ _ _ _ _ Hs)). assert (0 < record_max) by done.
  unfold image_end. nia.
Qed.

(** The walk and the serialization loop. *)
Lemma serialize_spec d t :
  disk_inv d → cached d t (d_root d) → shaped t → unshared d t (d_root d) → NoDup (dirty_post (d_slots d) t (d_root d)) →
  commit_room d → ∀ pre, rev pre = dirty_post (d_slots d) t (d_root d) →
  wp (tfold (write_record (d_watermark d)) (mkWritten [] ∅ ∅) (rev pre)) (λ r d', d' = d ∧
    match r with
    | ROk w => ∃ root, serialized d t (rev pre) w root
    | RErr e => write_error e
    end) d.
Proof using All.
  intros Hi Hc Hsh Hap Hnd Hroom pre ->. set (l := dirty_post (d_slots d) t (d_root d)) in *.
  assert (fits d l) as Hfit.
  { unfold fits. assert (length l ≤ length (d_slots d))%nat.
    { apply NoDup_bounded; [done|]. intros x. apply dirty_post_range. }
    assert (0 < record_max) by done. pose proof (cr_file _ Hroom). nia. }
  eapply wp_mono; [apply (writes_tree d t Hi Hsh (d_root d) [] (mkWritten [] ∅ ∅) Hc (written_nil d) Hnd Hfit)|].
  intros [w|e] d' [-> Hr]; [|done]. split; [done|]. destruct Hr as (Hw & _ & _).
  destruct (written_stored d l w t Hi Hw (d_root d) Hc) as (root & Hres & Hst); [done|].
  exists root. split; try done. by eapply written_laid.
Qed.

(** The new superblock is one that recovery accepts. *)
Lemma next_superblock_ok d sb t0 t l w root :
  disk_inv d → durable d sb t0 → commit_room d → serialized d t l w root →
  ∃ image, encode_slot (next_superblock d w root) = Ok (ROk image) ∧
    Z.of_nat (length image) = SUPERBLOCK_SLOT_SIZE ∧
    status_of (decode_slot image) = Valid (next_superblock d w root).
Proof using All.
  intros Hi Hd Hroom Hs. pose proof (serialized_end _ _ _ _ _ Hroom Hs) as Hend.
  destruct (stored_record _ _ _ _ _ (sz_stored _ _ _ _ _ Hs)) as (_ & node & len & (Hlo & p & _ & _ & -> & _ & Hhi) & _).
  destruct (di_watermark _ Hi). assert (0 ≤ DATA_START) by done. unfold RECORD_HEADER_SIZE in Hhi.
  destruct (committed_geometry _ _ _ (du_view _ _ _ Hd)) as [(_ & _ & _ & _ & _ & _ & [Hg _] & _) _].
  destruct Hroom. pose proof (du_generation _ _ _ Hd). apply encode_slot_valid; [|done|done|].
  - unfold superblock_wf, u64_ok in *. simpl. split_and!; try done; lia.
  - split; [done|]. split; [unfold RECORD_HEADER_SIZE; simpl; lia|done].
Qed.

(** ** After the second sync *)

(** How the slots of [d'] come from those of [d]: the records of the dirty
    nodes of [t] are in the file and adopted, then the cache settles. *)
Definition landed d t d' : Prop := ∃ w v g d2 d3,
  let l := dirty_post (d_slots d) t (d_root d) in
  let d1 := set_d_published g (image_end d w) (set_d_vfs v d) in
  written d l w ∧ published d w d1 ∧ adopted d w d1 (w_assigned w) d2 ∧ disk_inv d2 ∧
  refreshes (λ _, False) d2 d3 ∧ disk_inv d3 ∧ d' = set_d_ops 0 d3.

(** The written records are adopted, the cache settles. *)
Lemma adoption_spec d t l w root v :
  disk_inv d → commit_room d → cached d t (d_root d) → connected d → serialized d t l w root →
  dev_wf v → agree_below (image_end d w) (image d w) (dev_view v) →
  let d1 := set_d_published (d_next_generation d + 1) (image_end d w) (set_d_vfs v d) in
  wp (_ ← adopt_all (w_record_lens w) (by_id (w_assigned w)); enforce_budget [] None) (λ _ d',
    disk_inv d' ∧ cached d' t (d_root d') ∧ dev_same v (d_vfs d') ∧ d_root d' = d_root d ∧
    d_next_generation d' = d_next_generation d + 1 ∧ d_watermark d' = image_end d w ∧
    d_poisoned d' = d_poisoned d ∧ d_next_seq d' = d_next_seq d ∧ landed d t (set_d_ops 0 d')) d1.
Proof using All.
  intros Hi Hroom Hc Hcon Hs Hwf Hag d1. pose proof (serialized_end _ _ _ _ _ Hroom Hs) as Hend.
  destruct (serialized_length _ _ _ _ _ Hs) as [Hl Hsize]. pose proof Hs as [Hw Hnd Hdl _ _ _].
  destruct Hroom. assert (published d w d1) as Hpub by (split; try done; simpl; lia).
  apply wp_bind. eapply wp_mono; [apply (adopt_all_by_id d l w d1); [done|done|done|]|].
  { rewrite Hsize. assert (0 < record_max) by done. nia. }
  intros [] d2 Had. pose proof (ad_disk_inv d l w d1 d2 Hi Hw Hpub Had Hcon) as Hi2.
  assert (cached d2 t (d_root d)) as Hc2.
  { apply (ad_cached d l w d1 d2 Hi Hw Hpub Had); [done|]. by rewrite Hdl. }
  destruct (adopted_fields _ _ _ _ _ Had) as (Ev & Er & Eg & Ew & Ep & Es & _ & Et & El & Ee & Eo).
  eapply wp_mono; [apply enforce_budget_spec; [done|by rewrite ?Et ?El ?Ee ?Eo..]|].
  intros [] d3 (Hi3 & Hr3 & _). pose proof (rf_root _ _ _ Hr3) as Hroot. split_and!; [done| |..].
  - rewrite Hroot Er. apply (cached_refreshes _ _ _ _ _ Hi2 Hr3 Hc2).
  - exact (eq_ind _ (λ v', dev_same v' (d_vfs d3)) (rf_vfs _ _ _ Hr3) v Ev).
  - by rewrite Hroot Er.
  - by rewrite (rf_generation _ _ _ Hr3) Eg.
  - by rewrite (rf_watermark _ _ _ Hr3) Ew.
  - by rewrite (rf_poisoned _ _ _ Hr3) Ep.
  - by rewrite (rf_seq _ _ _ Hr3) Es.
  - exists w, v, (d_next_generation d + 1), d2, d3. rewrite -Hdl. split_and!; try done.
    eapply refreshes_weaken; [|exact Hr3]. done.
Qed.

(** The file after both writes still holds the records. *)
Lemma published_agree d t l w root sb t0 slot off :
  disk_inv d → durable d sb t0 → serialized d t l w root → 0 ≤ off → off + SUPERBLOCK_SLOT_SIZE ≤ DATA_START →
  Z.of_nat (length slot) = SUPERBLOCK_SLOT_SIZE →
  let view1 := splice (file d) (Z.to_nat (d_watermark d)) (w_buf w) in
  agree_below (image_end d w) (image d w) view1 ∧
  agree_below (image_end d w) (image d w) (splice view1 (Z.to_nat off) slot).
Proof.
  intros Hi Hd Hs Hoff Hslot Hl view1. destruct (di_watermark _ Hi) as [Hw1 Hw2]. assert (0 ≤ DATA_START) by done.
  assert (agree_below (image_end d w) (image d w) view1) as Hag.
  { split; [unfold view1, image_end; rewrite length_splice; lia|]. intros i Hlt. unfold view1, image, image_end in *.
    destruct (decide (Z.of_nat i < d_watermark d)).
    - rewrite lookup_splice_old; [lia..|]. rewrite lookup_app_l ?length_take; [lia|]. rewrite lookup_take_lt; [lia|done].
    - rewrite lookup_splice_in; [lia|]. rewrite lookup_app_r ?length_take; [lia|]. f_equal. lia. }
  split; [done|]. destruct Hag as [Hlen Ha]. split; [rewrite length_splice; lia|].
  intros i Hlt. rewrite lookup_splice_old; [lia..|]. by apply Ha.
Qed.

(** What a commit leaves. *)
Definition commit_post d (sb : Superblock) (t0 t : tree) (r : Result CommitStats DiskError) d' : Prop :=
  crashes (d_vfs d) (d_vfs d') (safe d sb t0 t) ∧
  match r with
  | ROk stats => ∃ sb', Format.generation sb' = Format.generation sb + 1 ∧ last_seq sb' = d_next_seq d ∧
      sb_params sb' = d_params d ∧ durable d' sb' t ∧ disk_inv d' ∧ cached d' t (d_root d') ∧
      d_poisoned d' = d_poisoned d ∧ landed d t d' ∧
      nodes_written stats = length (dirty_post (d_slots d) t (d_root d)) ∧
      bytes_written stats = watermark sb' - watermark sb + SUPERBLOCK_SLOT_SIZE ∧
      dev_bytes (d_vfs d') = dev_bytes (d_vfs d) + bytes_written stats ∧
      (dev_reliable (d_vfs d) → dev_reliable (d_vfs d'))
  | RErr e => write_error e ∨ io_error d e
  end.

Lemma io_error_vfs d v e : (dev_reliable (d_vfs d) → dev_reliable v) → io_error (set_d_vfs v d) e → io_error d e.
Proof. intros Hr (e' & -> & Hn). exists e'. split; [done|]. auto. Qed.

(** The crash images of the publication are safe. *)
Lemma safe_crash_ok d sb t0 t w root image img :
  durable d sb t0 → status_of (decode_slot image) = Valid (next_superblock d w root) →
  crash_ok sb (next_superblock d w root) t0 t
    (slot_bytes_at (file d) (slot_of (Format.generation (next_superblock d w root)))) image img →
  safe d sb t0 t img.
Proof.
  intros Hd Hdec [Hc|Hc]; [by left|]. right. exists (next_superblock d w root), image.
  split_and!; [|done|done|done|exact Hc]. exact (du_generation _ _ _ Hd).
Qed.

(** The slot is untouched by the append. *)
Lemma append_slot d sb t0 w g :
  disk_inv d → durable d sb t0 →
  slot_bytes_at (splice (file d) (Z.to_nat (d_watermark d)) (w_buf w)) (slot_of g) = slot_bytes_at (file d) (slot_of g).
Proof.
  intros Hi Hd. destruct (di_watermark _ Hi) as [Hw1 Hw2]. destruct (slot_of_range g).
  apply slot_at_agree; [lia|lia|rewrite length_splice; lia|]. intros i Hlt. apply lookup_splice_old; lia.
Qed.

(** The end of the commit, once the superblock is durable. *)
Lemma finish_spec d sb t0 t l w root v :
  disk_inv d → durable d sb t0 → cached d t (d_root d) → connected d → commit_room d →
  serialized d t l w root → dev_wf v → crashes (d_vfs d) v (safe d sb t0 t) →
  agree_below (image_end d w) (image d w) (dev_view v) → dev_pending v = [] → dev_healthy v →
  (∀ img, dev_images v img → img = dev_view v) → (dev_reliable (d_vfs d) → dev_reliable v) →
  dev_bytes v = dev_bytes (d_vfs d) + Z.of_nat (length (w_buf w)) + SUPERBLOCK_SLOT_SIZE →
  committed (dev_view v) (next_superblock d w root) t →
  wp (finish (image_end d w) w) (commit_post d sb t0 t) (set_d_vfs v d).
Proof using All.
  intros Hi Hd Hc Hcon Hroom Hs Hwf (Hcr0 & Hcr1 & Hcr2) Hag Hp Hh Himg Hrel Hby Hcom.
  pose proof (serialized_end _ _ _ _ _ Hroom Hs) as Hend. destruct (serialized_length _ _ _ _ _ Hs) as [_ Hsize].
  assert (SUPERBLOCK_SLOT_SIZE ≤ DATA_START) by done. pose proof (di_watermark _ Hi) as [Hw1 _].
  unfold finish. apply wp_bind, wp_get, wp_bind.
  eapply wp_lift; [apply u64_add_Ok; exact (cr_generation _ Hroom)|]. apply wp_bind, wp_modify.
  apply wp_bind_assoc. eapply wp_mono; [apply (adoption_spec d t l w root v); done|].
  intros [] d2 (Hi2 & Hc2 & Hsame & Hroot & Hg2 & Hw2 & Hpo & Hseq2 & Hland).
  apply wp_bind, wp_modify, wp_bind. pose proof (cr_file _ Hroom).
  eapply wp_lift; [apply u64_add_Ok; unfold image_end in *; lia|]. apply wp_ret. split; [split_and!|].
  - simpl. rewrite (same_time _ _ Hsame). exact Hcr0.
  - intros k img Hhi. apply Hcr1. by apply Hsame.
  - intros img Hhi. apply Hcr2. by apply Hsame.
  - set (d3 := set_d_ops 0 d2).
    assert (same_store d2 d3) as Hss by by split_and!. exists (next_superblock d w root). split_and!.
    + exact (du_generation _ _ _ Hd).
    + done.
    + done.
    + split; simpl; unfold file; simpl; rewrite ?(same_view _ _ Hsame) //.
      * by apply Hsame.
      * by rewrite (same_pending _ _ Hsame).
      * intros img Hi'%(same_images _ _ Hsame). by rewrite (Himg img Hi').
    + by eapply disk_inv_same.
    + by eapply cached_same.
    + done.
    + done.
    + simpl. rewrite Hsize. by rewrite (sz_dirty _ _ _ _ _ Hs).
    + simpl. rewrite -(du_watermark _ _ _ Hd). unfold image_end. lia.
    + simpl. rewrite (same_bytes _ _ Hsame) Hby. lia.
    + intros Hr. apply (same_reliable _ _ Hsame), Hrel, Hr.
Qed.

(** A failure of a step: the crash images so far are what is left. *)
Lemma failed_post d sb t0 t v e :
  crashes (d_vfs d) v (safe d sb t0 t) → write_error e ∨ io_error d e →
  commit_post d sb t0 t (RErr e) (set_d_vfs v d).
Proof. by split. Qed.

(** The second sync. *)
Lemma settle_commit d sb t0 t l w root v :
  disk_inv d → durable d sb t0 → cached d t (d_root d) → connected d → commit_room d →
  serialized d t l w root → dev_wf v → crashes (d_vfs d) v (safe d sb t0 t) →
  agree_below (image_end d w) (image d w) (dev_view v) → dev_healthy v →
  (dev_reliable (d_vfs d) → dev_reliable v) →
  dev_bytes v = dev_bytes (d_vfs d) + Z.of_nat (length (w_buf w)) + SUPERBLOCK_SLOT_SIZE →
  committed (dev_view v) (next_superblock d w root) t →
  wp (_ ←? on_vfs sync; finish (image_end d w) w) (commit_post d sb t0 t) (set_d_vfs v d).
Proof using All.
  intros Hi Hd Hc Hcon Hroom Hs Hwf Hcrash Hag Hh Hrel Hby Hcom.
  apply wp_try. eapply wp_mono; [apply (sync_spec (set_d_vfs v d) (safe d sb t0 t)); [done|apply Hcrash]|].
  intros r d3 (v3 & -> & Hwf3 & Hcr3 & Hview3 & Hb3 & Hp3 & Hrel3 & Hr3).
  change (set_d_vfs v3 (set_d_vfs v d)) with (set_d_vfs v3 d).
  pose proof (crashes_trans _ _ _ _ _ Hcrash Hcr3 (λ _ x, x)) as Hcrash3.
  destruct r as [[]|e].
  - destruct (Hr3 Hh) as [Hh3 Himg3]. unfold file in Hview3, Himg3. cbn [d_vfs set_d_vfs] in Hview3, Himg3.
    rewrite -Hview3 in Himg3, Hcom, Hag. rewrite -Hb3 in Hby. eapply finish_spec; [done..|auto|done|done].
  - apply failed_post; [done|]. right. by apply (io_error_vfs d v).
Qed.

(** The superblock is published from a state where the records are durable. *)
Lemma publish_commit_spec d sb t0 t l w root v :
  disk_inv d → durable d sb t0 → cached d t (d_root d) → connected d → commit_room d →
  serialized d t l w root → dev_wf v → crashes (d_vfs d) v (λ img, committed img sb t0) →
  (dev_reliable (d_vfs d) → dev_reliable v) →
  dev_view v = splice (file d) (Z.to_nat (d_watermark d)) (w_buf w) →
  dev_bytes v = dev_bytes (d_vfs d) + Z.of_nat (length (w_buf w)) →
  dev_pending v = [] → dev_healthy v → (∀ img, dev_images v img → img = dev_view v) →
  wp (publish (d_watermark d) w) (commit_post d sb t0 t) (set_d_vfs v d).
Proof using All.
  intros Hi Hd Hc Hcon Hroom Hs Hwf Hcr Hrel Hview Hby Hpend Hh Himg.
  pose proof (serialized_end _ _ _ _ _ Hroom Hs) as Hend. pose proof (cr_file _ Hroom) as Hfile.
  destruct (next_superblock_ok d sb t0 t l w root Hi Hd Hroom Hs) as (blob & Henc & Hlen & Hdec).
  set (sb' := next_superblock d w root) in *. set (off := slot_of (d_next_generation d)).
  assert (Format.generation sb' = Format.generation sb + 1) as Hg by exact (du_generation _ _ _ Hd).
  destruct (slot_of_range (d_next_generation d)) as [Hoff1 Hoff2]. fold off in Hoff1, Hoff2.
  destruct (published_agree d t l w root sb t0 blob off Hi Hd Hs Hoff1 Hoff2 Hlen) as [Hag1 Hag2].
  rewrite -Hview in Hag1, Hag2.
  assert (committed (dev_view v) sb t0) as Hc1.
  { rewrite Hview. eapply (committed_torn (file d) _ _ _ (d_watermark d) (w_buf w)); [exact (du_view _ _ _ Hd)| |].
    - right. right. exists (length (w_buf w)). by rewrite firstn_all.
    - by rewrite (du_watermark _ _ _ Hd). }
  assert (laid (dev_view v) (watermark sb') t (root_offset sb')) as Hst.
  { eapply (laid_agree (image d w) _ (image_end d w)); [exact Hag1|done|apply Hs]. }
  unfold publish. apply wp_bind. eapply wp_lift; [apply u64_add_Ok; unfold image_end in *; lia|].
  apply wp_bind, wp_get, wp_bind. eapply (wp_run _ _ _ root (set_d_vfs v d)).
  { apply resolves_vfs, Hs. }
  apply wp_bind. eapply wp_lift; [cbn [d_next_generation set_d_vfs]; by rewrite slot_of_lookup|].
  apply wp_bind. eapply wp_lift; [exact Henc|]. apply wp_try, wp_ret. cbn [map_err].
  apply wp_try. eapply wp_mono; [apply (publish_spec (set_d_vfs v d) sb sb' t0 t blob); try done|].
  { unfold file. cbn [d_vfs set_d_vfs]. apply Hag1. }
  change (slot_of (Format.generation sb')) with off. unfold file. cbn [d_vfs set_d_vfs].
  assert (slot_bytes_at (dev_view v) off = slot_bytes_at (file d) off) as ->
    by (rewrite Hview; by eapply append_slot).
  intros r d2 (v2 & -> & Hwf2 & Hcr2 & Hrel2 & Hr2).
  assert (crashes (d_vfs d) v2 (safe d sb t0 t)) as Hcrash2.
  { eapply crashes_trans; [exact Hcr| |by left]. eapply crashes_weaken; [exact Hcr2|]. intros img.
    by apply (safe_crash_ok d sb t0 t w root blob). }
  change (set_d_vfs v2 (set_d_vfs v d)) with (set_d_vfs v2 d).
  destruct r as [[]|e]; [|apply failed_post; [done|right; by eapply io_error_vfs]].
  destruct Hr2 as (Hview2 & Hh2 & Hb2 & Hcom).
  rewrite -Hview2 in Hag2. eapply (settle_commit d sb t0 t l w root v2); [done..|auto| |done].
  rewrite Hb2 -Hby. done.
Qed.

(** [commit_inner] *)
Lemma commit_inner_spec d sb t0 t :
  disk_inv d → durable d sb t0 → cached d t (d_root d) → shaped t → connected d →
  unshared d t (d_root d) → NoDup (dirty_post (d_slots d) t (d_root d)) → commit_room d →
  wp commit_inner (commit_post d sb t0 t) d.
Proof using All.
  intros Hi Hd Hc Hsh Hcon Hap Hnd Hroom. unfold commit_inner.
  assert (crashes (d_vfs d) (d_vfs d) (safe d sb t0 t)) as Hcrash0.
  { split_and!; [done|by left|]. intros img Himg. left. by apply Hd. }
  apply wp_bind. eapply wp_mono; [by apply dirty_nodes_spec|]. intros pre d' [-> Hpre].
  apply wp_bind, wp_get, wp_try. eapply wp_mono; [by apply serialize_spec|].
  intros r d' [-> Hr]. destruct r as [w|e]; last first.
  { split; [done|]. by left. }
  destruct Hr as [root Hs]. pose proof (serialized_end _ _ _ _ _ Hroom Hs) as Hend.
  pose proof (cr_file _ Hroom) as Hfile.
  apply wp_try. eapply wp_mono; [apply (append_spec d sb t0 (w_buf w)); [done|done|unfold image_end in *; lia]|].
  intros r d' (v1 & -> & Hwf1 & Hcr1 & Hrel1 & Hr1).
  assert (crashes (d_vfs d) v1 (safe d sb t0 t)) as Hs1 by (eapply crashes_weaken; [exact Hcr1|by left]).
  destruct r as [[]|e]; [|apply failed_post; [done|by right]]. destruct Hr1 as (Hview1 & Hh1 & Hb1).
  apply wp_try. eapply wp_mono; [apply (sync_spec (set_d_vfs v1 d) (λ img, committed img sb t0)); [done|apply Hcr1]|].
  intros r d' (v2 & -> & Hwf2 & Hcr2 & Hview2 & Hb2 & Hp2 & Hrel2 & Hr2).
  change (set_d_vfs v2 (set_d_vfs v1 d)) with (set_d_vfs v2 d).
  pose proof (crashes_trans _ _ _ _ _ Hcr1 Hcr2 (λ _ x, x)) as Hcr12.
  destruct r as [[]|e].
  - destruct (Hr2 Hh1) as [Hh2 Himg2]. unfold file in Hview2, Himg2. cbn [d_vfs set_d_vfs] in Hview2, Himg2.
    eapply publish_commit_spec; [done..|auto|congruence|by rewrite Hb2|done|done|]. intros img Hi0. by rewrite (Himg2 _ Hi0) Hview2.
  - apply failed_post; [|right; by eapply (io_error_vfs d v1)].
    eapply crashes_weaken; [exact Hcr12|]. by left.
Qed.

(** [commit]: refused once poisoned, else as above; an error poisons. *)
Lemma commit_spec d sb t0 t :
  disk_inv d → durable d sb t0 → cached d t (d_root d) → shaped t → connected d →
  unshared d t (d_root d) → NoDup (dirty_post (d_slots d) t (d_root d)) → commit_room d → d_poisoned d = false →
  wp commit (λ r d', commit_post d sb t0 t r d' ∧
    d_poisoned d' = match r with ROk _ => false | RErr _ => true end) d.
Proof using All.
  intros Hi Hd Hc Hsh Hcon Hap Hnd Hroom Hpo. unfold commit. apply wp_bind, wp_get. rewrite Hpo.
  unfold poisoning. apply wp_bind. eapply wp_mono; [by apply commit_inner_spec|].
  intros [stats|e] d' Hpost; apply wp_bind.
  - apply wp_ret, wp_ret. split; [done|]. destruct Hpost as (_ & sb' & _ & _ & _ & _ & _ & _ & Hp & _). congruence.
  - apply wp_modify, wp_ret. by split.
Qed.
End commit.
