(* ===== verification/Reopen.v ===== *)
(** * After a crash

    [open] on a committed image gives a durable engine that represents the
    committed tree; reads of the engine answer from that tree. *)

From S2P Require Export Commit DiskReads.
From stdpp Require Import options.
From Stdlib Require Import ZArith.

Local Open Scope Z_scope.

Section reopen.
Context {V P : Type} `{DeviceLaws V} `{CodecLaws} `{FlushPolicy P}.
Notation E := (DiskEngine V P).
Implicit Types (d : E) (v : V).

(** What [open] gives on a committed image. *)
Record reopened (sb : Superblock) (t : tree) (policy : P) d : Prop := {
  ro_inv : disk_inv d;
  ro_durable : durable d sb t;
  ro_cached : cached d t (d_root d);
  ro_connected : connected d;
  ro_clean : dirty_post (d_slots d) t (d_root d) = [];
  ro_offsets o : clean_offset d o;
  ro_params : d_params d = sb_params sb;
  ro_seq : d_next_seq d = last_seq sb;
  ro_poisoned : d_poisoned d = false;
  ro_policy : d_policy d = policy;
}.

Lemma settles_durable v d sb t :
  settles v (d_vfs d) (watermark sb) → dev_healthy v → dev_pending v = [] →
  (∀ img, dev_images v img → committed img sb t) → committed (dev_view v) sb t →
  d_next_generation d = Format.generation sb + 1 → d_watermark d = watermark sb → durable d sb t.
Proof using All.
  intros (Hwf & _ & Himgs & Hview & Hp & Hh & _) Hhe Hpe Himg Hc Hg Hw. split; [auto|congruence| | |done|done].
  - intros img' Hi'. destruct (Himgs _ Hi') as (img & Hi & [->| ->]); [auto|]. by apply committed_truncated, Himg.
  - unfold file. rewrite Hview. by apply committed_truncated.
Qed.

Lemma open_committed v sb t budget (policy : P) :
  dev_wf v → dev_reliable v → dev_healthy v → dev_pending v = [] →
  (∀ img, dev_images v img → committed img sb t) → committed (dev_view v) sb t →
  Format.generation sb < u64_max →
  ∃ d, open_on_with v budget policy = Ok (ROk d) ∧ reopened sb t policy d ∧
    c_budget (d_cache d) = budget.
Proof using All.
  intros Hwf Hrel Hh Hp Himg Hc Hgen. pose proof (committed_recovers _ _ _ Hc) as Hrec.
  destruct (open_spec v budget policy Hwf) as (r & Hopen & Hr).
  { intros sb' Hrec'. congruence. }
  destruct r as [d|e]; [|destruct e; by (congruence || done)].
  destruct Hr as (sb' & Hrec' & Hset & Hop). rewrite Hrec in Hrec'. injection Hrec' as <-.
  exists d. split; [done|]. split; [|by rewrite (op_cache _ _ _ _ Hop)].
  destruct (opened_inv v sb budget policy d Hwf Hrec Hset Hop) as (Hi & Hcl & Hcd).
  pose proof (Hcd t (proj1 (cm_tree _ _ _ Hc))) as Hcached.
  destruct Hop as [Hpar Hslots Hroot Hseq Hgn Hwm Hpo _ _ _ Hpol _]. split; try done.
  - by eapply settles_durable.
  - intros id n off b tick c Hs. rewrite Hslots in Hs. by apply list_lookup_singleton_Some in Hs as [_ [=]].
  - apply dirty_post_clean. unfold dirtyb. rewrite Hslots Hroot. done.
Qed.

(** ** Reads *)
Lemma depth_le_kids (ks : list tree) n :
  Forall (λ k, (depth k ≤ n)%nat) ks → (foldr (λ c m, depth c `max` m) 0 ks ≤ n)%nat.
Proof using Type. induction 1; simpl; lia. Qed.

(** A stored tree is no deeper than its offset: children lie below their
    parents. *)
Lemma stored_depth Q buf w t off : stored Q buf w t off → Z.of_nat (depth t) + DATA_START ≤ off + 1.
Proof using Type.
  revert off. induction t as [i e|i ps ks b IH] using tree_nested_ind; intros off Hst;
    destruct (stored_record _ _ _ _ _ Hst) as (_ & node & len & [Hlo _] & Hm); simpl depth; [lia|].
  destruct node as [ps' offs b'|]; [|done]. destruct Hm as (_ & _ & _ & Hr & Hks).
  assert ((foldr (λ c m, depth c `max` m) 0 ks ≤ Z.to_nat (off - DATA_START))%nat); [|lia].
  apply depth_le_kids. clear Hst. revert offs Hr Hks. induction IH as [|k ks Hk _ IHks]; intros offs Hr Hks;
    inversion Hks as [|? o ? offs' Hko Hks']; subst; constructor; apply Forall_cons in Hr as [Ho Hr].
  - specialize (Hk _ Hko). lia.
  - by eapply IHks.
Qed.

Lemma cached_depth_slots d t id l : disk_inv d → cached d t id → NoDup (dirty_post (d_slots d) t id) →
  l = length (dirty_post (d_slots d) t id) → (depth t ≤ l + Z.to_nat (d_watermark d))%nat.
Proof using All.
  intros Hi Hc _ ->. revert id Hc. destruct (di_watermark _ Hi) as [Hw _]. assert (0 ≤ DATA_START) by done.
  induction t as [i e|i ps ks b IH] using tree_nested_ind; intros id Hc; [simpl; assert (8192 ≤ d_watermark d) by exact Hw; lia|].
  destruct (dirtyb (d_slots d) id) eqn:Ed.
  - destruct (todo_loaded d _ id (conj Hc Ed)) as (n & off & bytes & tick & Hs & Hm).
    destruct n as [ps' chs b'|]; [|done]. destruct Hm as (_ & _ & Hks & _). simpl. rewrite Hs length_app /=.
    assert ((foldr (λ c m, depth c `max` m) 0 ks ≤
      length (concat (zip_with (dirty_post (d_slots d)) ks chs)) + Z.to_nat (d_watermark d))%nat); [|lia].
    clear Hc Ed Hs. induction Hks as [|k c ks chs Hk Hks IHks]; simpl; [lia|].
    apply Forall_cons in IH as [IHk IH]. specialize (IHk _ Hk). specialize (IHks IH). rewrite length_app. lia.
  - inversion Hc as [? ? s o Hs Hcl Hst|? ? ? ? ? ? Hs|? ? ? ? chs ? ? ? ? Hs Hks]; subst;
      unfold dirtyb in Ed; rewrite Hs in Ed; try done.
    pose proof (stored_depth _ _ _ _ _ Hst). destruct (stored_record _ _ _ _ _ Hst) as (_ & node & len & (_ & p & _ & _ & -> & _ & Hend) & _).
    unfold RECORD_HEADER_SIZE in Hend. lia.
Qed.

(** [try_get] answers from the represented tree. *)
Lemma try_get_spec d t key :
  disk_inv d → cached d t (d_root d) → shaped t → NoDup (dirty_post (d_slots d) t (d_root d)) →
  room (Z.of_nat (depth t)) d →
  wp (Disk.try_get key) (λ r d', disk_inv d' ∧ cached d' t (d_root d') ∧ dev_same (d_vfs d) (d_vfs d') ∧
    match r with ROk v => v = vval (view t key) | RErr e => io_error d e end) d.
Proof using All.
  intros Hi Hc Hsh Hnd Hroom. unfold Disk.try_get. apply wp_bind, wp_modify, wp_bind, wp_get.
  set (d1 := set_d_trace (Recorder_get (d_trace d) key) d).
  assert (same_store d d1) as Hss by by split_and!.
  pose proof (disk_inv_same _ _ Hss Hi) as Hi1. pose proof (cached_same _ _ _ _ Hss Hc) as Hc1.
  eapply wp_mono; [apply (get_loop_cached d1 t key Hi1 Hc1 Hsh)|].
  - by destruct Hroom; split.
  - pose proof (cached_depth_slots d t (d_root d) _ Hi Hc Hnd eq_refl).
    assert (length (dirty_post (d_slots d) t (d_root d)) ≤ length (d_slots d))%nat.
    { apply NoDup_bounded; [done|]. intros x. apply dirty_post_range. }
    simpl. lia.
  - intros r d' (Hi' & Hr' & Hres). split_and!; [done| |exact (rf_vfs _ _ _ Hr')|exact Hres].
    rewrite (rf_root _ _ _ Hr'). exact (cached_refreshes _ _ _ _ _ Hi1 Hr' Hc1).
Qed.
End reopen.

(** ** [FaultyVfs] *)
Lemma from_image_wf img :
  Z.of_nat (length img) ≤ u64_max → dev_wf (FaultyVfs.from_image img) ∧
  dev_reliable (FaultyVfs.from_image img) ∧ dev_healthy (FaultyVfs.from_image img) ∧
  dev_pending (FaultyVfs.from_image img) = [] ∧ dev_view (FaultyVfs.from_image img) = img ∧
  ∀ img', dev_images (FaultyVfs.from_image img) img' → img' = img.
Proof.
  intros Hl. split_and!; try done.
  - intros img' [fates Hf]. symmetry. exact Hf.
Qed.
