(* ===== verification/Split.v ===== *)
(** * Splits, as functions on trees

    What the loops of [split_leaf] and [split_internal] compute: pieces that
    respect the capacities, in a layout that covers the split node's range
    and gives every key the view it had. *)

From S2P Require Export Tree BeTree.
From stdpp Require Import options.
From Stdlib Require Import ZArith.

(** ** Leaves *)
Lemma kv_sorted_app {V} (l1 l2 : list (Key * V)) :
  StronglySorted kv_lt (l1 ++ l2) →
  StronglySorted kv_lt l1 ∧ StronglySorted kv_lt l2 ∧
  ∀ x y, x ∈ l1 → y ∈ l2 → key_lt x.1 y.1.
Proof.
  induction l1 as [|x l1 IH]; simpl; [intros; split_and!; [constructor|done|set_solver]|].
  inversion 1 as [|? ? Hs Hx]; subst. destruct (IH Hs) as (H1 & H2 & H12).
  rewrite Forall_forall in Hx. split_and!; [|done|].
  - constructor; [done|]. apply Forall_forall. intros y Hy. apply Hx. set_solver.
  - intros y z [->|Hy]%elem_of_cons Hz; [|by apply H12]. apply Hx. set_solver.
Qed.

Lemma bt_first_collect {V} (l : list (Key * V)) :
  StronglySorted kv_lt l → bt_first_key_value (bt_collect l) = head l.
Proof. intros. unfold bt_first_key_value. by rewrite bt_iter_collect. Qed.

Lemma lookup_collect_app_l {V} (l1 l2 : list (Key * V)) k :
  StronglySorted kv_lt (l1 ++ l2) → (∀ y, y ∈ l2 → key_lt k y.1) →
  bt_collect l1 !! k = bt_collect (l1 ++ l2) !! k.
Proof.
  intros Hs Hk. destruct (kv_sorted_app _ _ Hs) as (H1 & _ & _).
  apply option_eq. intros v.
  apply StronglySorted_lt_alt in H1 as [_ H1]. apply StronglySorted_lt_alt in Hs as [_ Hs].
  rewrite !lookup_bt_collect //.
  rewrite elem_of_app. split; [by left|]. intros [?|Hin]; [done|].
  apply Hk in Hin. simpl in Hin. by apply key_lt_irrefl in Hin.
Qed.

Lemma lookup_collect_app_r {V} (l1 l2 : list (Key * V)) k :
  StronglySorted kv_lt (l1 ++ l2) → (∀ x, x ∈ l1 → key_lt x.1 k) →
  bt_collect l2 !! k = bt_collect (l1 ++ l2) !! k.
Proof.
  intros Hs Hk. destruct (kv_sorted_app _ _ Hs) as (_ & H2 & _).
  apply option_eq. intros v.
  apply StronglySorted_lt_alt in H2 as [_ H2]. apply StronglySorted_lt_alt in Hs as [_ Hs].
  rewrite !lookup_bt_collect //.
  rewrite elem_of_app. split; [by right|]. intros [Hin|?]; [|done].
  apply Hk in Hin. simpl in Hin. by apply key_lt_irrefl in Hin.
Qed.

Definition leaf_piece (cap : nat) (lo hi : option Key) (e : BTreeMap LeafEntry) : Prop :=
  keys_in lo hi e ∧ 1 ≤ size e ≤ cap.

Lemma leaf_piece_collect cap lo hi (l : list (Key * LeafEntry)) :
  StronglySorted kv_lt l → Forall (λ x, in_range x.1 lo hi = true) l → 1 ≤ length l ≤ cap →
  leaf_piece cap lo hi (bt_collect l).
Proof.
  intros Hs Hr Hl. split; [|by rewrite size_bt_collect].
  intros k v Hk. apply lookup_bt_collect in Hk; [|by apply StronglySorted_lt_alt in Hs as []].
  rewrite Forall_forall in Hr. by apply (Hr (k, v)).
Qed.

Lemma leaf_pieces cap lo hi sizes items :
  StronglySorted kv_lt items → Forall (λ x, in_range x.1 lo hi = true) items → sizes ≠ [] →
  Forall (λ s, 1 ≤ s ≤ cap) sizes → sum_list sizes = length items →
  let pieces := take_pieces sizes items in
  ∃ qs, Forall2 (λ piece q, fst <$> bt_first_key_value piece = Some q) (tail pieces) qs ∧
    kids_ok (leaf_piece cap) lo hi qs pieces ∧
    (∀ k, in_range k lo hi = true →
       default ∅ (pieces !! route qs k) !! k = bt_collect items !! k) ∧
    sum_list_with size pieces = length items.
Proof.
  revert lo items. induction sizes as [|s sizes IH]; intros lo items Hs Hr Hne Hcap Hsum; [done|].
  apply Forall_cons in Hcap as [Hsc Hcap]. simpl in Hsum. unfold id in Hsum.
  destruct sizes as [|s' sizes].
  { simpl in *. exists []. rewrite take_ge; [lia|]. split_and!; [by constructor| |done|].
    - constructor. apply leaf_piece_collect; [done..|lia].
    - rewrite size_bt_collect //. }
  pose proof Hcap as Hcap'. apply Forall_cons in Hcap' as [Hsc' _].
  assert (s < length items) as Hlt by (simpl in Hsum; unfold id in Hsum; lia).
  destruct (drop s items) as [|[p v] tl] eqn:Ed.
  { apply (f_equal length) in Ed. rewrite length_drop /= in Ed. lia. }
  assert (items = take s items ++ (p, v) :: tl) as Ei by (by rewrite -Ed take_drop).
  rewrite Ei in Hs Hr. destruct (kv_sorted_app _ _ Hs) as (Hs1 & Hs2 & H12).
  apply Forall_app in Hr as [Hr1 Hr2].
  assert (∀ x, x ∈ take s items → key_lt x.1 p) as Hlp.
  { intros x Hx. apply (H12 x (p, v)); [done|left]. }
  assert (∀ y, y ∈ (p, v) :: tl → key_le p y.1) as Hpy.
  { intros y [->|Hy]%elem_of_cons; [apply key_le_refl|]. inversion Hs2 as [|? ? _ Hall]; subst.
    rewrite Forall_forall in Hall. by apply key_lt_le, (Hall y). }
  rewrite Forall_forall in Hr1. rewrite Forall_forall in Hr2.
  pose proof (Hr2 (p, v) ltac:(left)) as Hp. apply in_range_true in Hp as [Hplo Hphi].
  assert (below p hi) as Hb by (destruct hi; simpl; [by apply Hphi|done]).
  assert (above lo p) as Ha.
  { destruct lo as [l|]; [|done]. simpl. destruct items as [|x items]; [simpl in *; lia|].
    destruct s as [|s]; [lia|]. simpl in *.
    specialize (Hlp x ltac:(left)). specialize (Hr1 x ltac:(left)).
    apply in_range_true in Hr1 as [Hr1 _]. specialize (Hr1 l eq_refl). key_order. }
  destruct (IH (Some p) ((p, v) :: tl)) as (qs & Hqs & Hk & Hv & Hsz); [done| |done|done| |].
  { apply Forall_forall. intros y Hy. apply in_range_true. split.
    - intros l [= <-]. by apply Hpy.
    - apply (proj1 (in_range_true _ _ _) (Hr2 y Hy)). }
  { rewrite -Ed length_drop. simpl; simpl in Hsum; unfold id in *; lia. }
  set (rest := take_pieces (s' :: sizes) ((p, v) :: tl)) in *.
  assert (take_pieces (s :: s' :: sizes) items = bt_collect (take s items) :: rest) as ->.
  { unfold rest. by rewrite -Ed. }
  exists (p :: qs). split_and!.
  - cbn [tail]. unfold rest in *. cbn [take_pieces tail] in *. constructor; [|done].
    destruct s' as [|s']; [lia|]. rewrite bt_first_collect //.
    rewrite -(take_drop (S s') ((p, v) :: tl)) in Hs2. by apply kv_sorted_app in Hs2 as [? _].
  - constructor; [done..| |done].
    apply leaf_piece_collect; [done| |rewrite length_take; lia].
    apply Forall_forall. intros x Hx. apply in_range_true. split.
    + by apply (proj1 (in_range_true _ _ _) (Hr1 x Hx)).
    + intros h [= <-]. by apply Hlp.
  - intros k Hkr. rewrite route_cons. case_decide as Hpk.
    + change ((bt_collect (take s items) :: rest) !! S (route qs k)) with (rest !! route qs k).
      rewrite Hv.
      { apply in_range_true. apply in_range_true in Hkr as [_ ?]. naive_solver. }
      rewrite [in RHS]Ei. apply lookup_collect_app_r; [done|].
      intros x Hx. apply Hlp in Hx. key_order.
    + change (bt_collect (take s items) !! k = bt_collect items !! k). rewrite [in RHS]Ei.
      apply lookup_collect_app_l; [done|]. intros y Hy. apply Hpy in Hy.
      apply key_not_le in Hpk. key_order.
  - cbn [sum_list_with]. rewrite Hsz size_bt_collect // length_take -Ed length_drop. lia.
Qed.

(** ** Internal nodes *)
Section pieces.
Context {A : Type}.
Implicit Types (ks : list A) (ps : list Key) (b : BTreeMap Message).

(** The pieces and the promoted pivots, from the left. *)
Fixpoint split_pieces (sizes : list nat) ps ks b : list (list Key * list A * BTreeMap Message) :=
  match sizes with
  | [] => []
  | [_] => [(ps, ks, b)]
  | s :: sizes =>
      match ps !! (s - 1) with
      | Some p =>
          (take (s - 1) ps, take s ks, (bt_split_off b p).1) ::
          split_pieces sizes (drop s ps) (drop s ks) (bt_split_off b p).2
      | None => []
      end
  end.

Fixpoint split_pivots (sizes : list nat) ps : list Key :=
  match sizes with
  | [] | [_] => []
  | s :: sizes =>
      match ps !! (s - 1) with
      | Some p => p :: split_pivots sizes (drop s ps)
      | None => []
      end
  end.
End pieces.

Lemma split_pieces_fmap {A B} (f : A → B) sizes ps ks b :
  split_pieces sizes ps (map f ks) b =
  map (λ '(ps, ks, b), (ps, map f ks, b)) (split_pieces sizes ps ks b).
Proof.
  revert ps ks b. induction sizes as [|s [|s' sizes] IH]; intros ps ks b; [done..|].
  cbn -[bt_split_off]. destruct (ps !! (s - 1)) as [p|]; [|done]. cbn -[bt_split_off split_pieces].
  by rewrite -IH firstn_map skipn_map.
Qed.

(** *** Right-to-left peeling computes the same pieces *)
Lemma bt_split_off_below {V} (b : BTreeMap V) p p' : key_le p p' →
  (bt_split_off (bt_split_off b p').1 p).1 = (bt_split_off b p).1.
Proof.
  intros Hp. apply map_eq. intros k. rewrite !lookup_split_off_kept.
  repeat case_decide; try done. exfalso. key_order.
Qed.
Lemma bt_split_off_between {V} (b : BTreeMap V) p p' : key_le p p' →
  (bt_split_off (bt_split_off b p').1 p).2 = (bt_split_off (bt_split_off b p).2 p').1.
Proof.
  intros Hp. apply map_eq. intros k. rewrite lookup_split_off_kept !lookup_split_off_tail lookup_split_off_kept.
  repeat case_decide; done.
Qed.
Lemma bt_split_off_above {V} (b : BTreeMap V) p p' : key_le p p' →
  (bt_split_off (bt_split_off b p).2 p').2 = (bt_split_off b p').2.
Proof.
  intros Hp. apply map_eq. intros k. rewrite !lookup_split_off_tail.
  repeat case_decide; try done. exfalso. key_order.
Qed.

Lemma sum_list_cons s l : sum_list (s :: l) = s + sum_list l.
Proof. done. Qed.

Lemma foldl_piece_starts sizes :
  foldl (λ '(starts, acc), λ size, (starts ++ [acc], acc + size)) ([], 0) sizes =
  (piece_starts sizes, sum_list sizes).
Proof.
  unfold piece_starts. induction sizes as [|s sizes IH] using rev_ind; [done|].
  rewrite !foldl_app IH /= sum_list_with_app /=. f_equal. unfold id. lia.
Qed.

Lemma piece_starts_app sizes s : piece_starts (sizes ++ [s]) = piece_starts sizes ++ [sum_list sizes].
Proof. unfold piece_starts at 1. by rewrite foldl_app foldl_piece_starts. Qed.

Lemma length_piece_starts sizes : length (piece_starts sizes) = length sizes.
Proof.
  induction sizes as [|s sizes IH] using rev_ind; [done|].
  by rewrite piece_starts_app !length_app IH.
Qed.

Lemma lookup_piece_starts pre s suf :
  piece_starts (pre ++ s :: suf) !! length pre = Some (sum_list pre).
Proof.
  induction suf as [|s' suf IH] using rev_ind.
  - rewrite piece_starts_app list_lookup_middle //. by rewrite length_piece_starts.
  - rewrite app_comm_cons app_assoc piece_starts_app lookup_app_l //.
    rewrite length_piece_starts length_app /=. lia.
Qed.

Definition name_piece (p : Key) (x : list Key * list NodeId * BTreeMap Message) : InternalPiece :=
  let '(ps, ks, b) := x in (p, ps, ks, b).

Lemma peel_step (pivots : list Key) (children : list NodeId) (buffer : BTreeMap Message)
    (acc : list InternalPiece) (pre : list nat) (s : nat) (suf : list nat) (p : Key) :
  1 ≤ s → sum_list pre + s ≤ length children → length children = S (length pivots) →
  1 ≤ sum_list pre → pivots !! (sum_list pre - 1) = Some p →
  (let starts := piece_starts (pre ++ s :: suf) in
    start ← expect (starts !! length pre);
    size ← expect ((pre ++ s :: suf) !! length pre);
    last ← usize_sub (start + size) 1;
    piece_pivots ← vec_slice start last pivots;
    piece_children ← vec_slice start (start + size) children;
    at_ ← usize_sub start 1;
    pivot ← expect (pivots !! at_);
    let '(buffer, piece_buffer) := bt_split_off buffer pivot in
    mret (buffer, acc ++ [(pivot, piece_pivots, piece_children, piece_buffer)])) =
  Ok ((bt_split_off buffer p).1,
      acc ++ [(p, take (s - 1) (drop (sum_list pre) pivots), take s (drop (sum_list pre) children),
               (bt_split_off buffer p).2)]).
Proof.
  intros Hs Hlen Hl Hpre Hp. cbv zeta.
  rewrite lookup_piece_starts list_lookup_middle //. cbn [expect mbind outcome_bind].
  rewrite (usize_sub_Ok (sum_list pre + s) 1); [lia|]. cbn [mbind outcome_bind].
  rewrite (vec_slice_Ok (sum_list pre) (sum_list pre + s - 1)); [lia..|]. cbn [mbind outcome_bind].
  rewrite (vec_slice_Ok (sum_list pre) (sum_list pre + s)); [lia..|]. cbn [mbind outcome_bind].
  rewrite (usize_sub_Ok (sum_list pre) 1) //. cbn [mbind outcome_bind].
  rewrite Hp. cbn [expect mbind outcome_bind].
  replace (sum_list pre + s - 1 - sum_list pre) with (s - 1) by lia.
  by replace (sum_list pre + s - sum_list pre) with s by lia.
Qed.

Definition peel_body (pivots : list Key) (children : list NodeId) (sizes : list nat) :=
  λ '(buffer, pieces_rev) (j : nat),
    start ← expect (piece_starts sizes !! j);
    size ← expect (sizes !! j);
    last ← usize_sub (start + size) 1;
    piece_pivots ← vec_slice start last pivots;
    piece_children ← vec_slice start (start + size) children;
    at_ ← usize_sub start 1;
    pivot ← expect (pivots !! at_);
    let '(buffer, piece_buffer) := bt_split_off buffer pivot in
    mret (M := outcome) (buffer, pieces_rev ++
      [(pivot, piece_pivots, piece_children, piece_buffer) : InternalPiece]).

Lemma peel_loop (pivots : list Key) (children : list NodeId) (sizes suf : list nat) :
  ∀ (pre : list nat) (buffer : BTreeMap Message) (acc : list InternalPiece) (p : Key),
  sizes = pre ++ suf → Forall (λ s, 1 ≤ s) suf → suf ≠ [] →
  sum_list sizes = length children → length children = S (length pivots) →
  StronglySorted key_lt pivots → 1 ≤ sum_list pre → pivots !! (sum_list pre - 1) = Some p →
  let start := sum_list pre in
  ofold (peel_body pivots children sizes) (buffer, acc) (rev (seq (length pre) (length suf))) =
  Ok ((bt_split_off buffer p).1,
      acc ++ rev (zip_with name_piece (p :: split_pivots suf (drop start pivots))
        (split_pieces suf (drop start pivots) (drop start children) (bt_split_off buffer p).2))).
Proof.
  induction suf as [|s suf IH]; intros pre buffer acc p Es Hpos Hne Hsum Hl Hsort Hpre Hp; [done|].
  apply Forall_cons in Hpos as [Hs Hpos].
  assert (sum_list pre + s + sum_list suf = length children) as Hsum'.
  { rewrite -Hsum Es sum_list_with_app sum_list_cons. lia. }
  cbn [length seq rev]. rewrite ofold_app.
  destruct suf as [|s' suf].
  - cbn [length seq rev ofold mbind outcome_bind].
    pose proof (peel_step pivots children buffer acc pre s [] p) as Hstep.
    rewrite -Es in Hstep. cbv zeta in Hstep. cbn [peel_body].
    rewrite Hstep //; [simpl in Hsum'; lia|]. cbn [mbind outcome_bind split_pivots split_pieces zip_with name_piece rev app].
    rewrite !take_ge //; rewrite length_drop; simpl in Hsum'; lia.
  - pose proof Hpos as Hpos'. apply Forall_cons in Hpos' as [Hs' _].
    assert (sum_list (pre ++ [s]) = sum_list pre + s) as Epre.
    { rewrite sum_list_with_app sum_list_cons /=. lia. }
    assert (∃ p', pivots !! (sum_list pre + s - 1) = Some p') as [p' Hp'].
    { apply lookup_lt_is_Some. rewrite sum_list_cons in Hsum'. lia. }
    assert (key_le p p') as Hpp.
    { apply key_lt_le. eapply (StronglySorted_lookup key_lt); [exact Hsort| |exact Hp|exact Hp']. lia. }
    specialize (IH (pre ++ [s]) buffer acc p'). rewrite Epre in IH.
    rewrite length_app Nat.add_1_r in IH. rewrite IH //; [by rewrite -app_assoc|lia|].
    cbn [mbind outcome_bind ofold].
    pose proof (peel_step pivots children (bt_split_off buffer p').1
      (acc ++ rev (zip_with name_piece (p' :: split_pivots (s' :: suf) (drop (sum_list pre + s) pivots))
        (split_pieces (s' :: suf) (drop (sum_list pre + s) pivots) (drop (sum_list pre + s) children)
           (bt_split_off buffer p').2))) pre s (s' :: suf) p) as Hstep.
    rewrite -Es in Hstep. cbv zeta in Hstep. cbn [peel_body]. rewrite Hstep //; [lia|].
    cbn [mbind outcome_bind]. rewrite bt_split_off_below // bt_split_off_between //.
    f_equal. f_equal. rewrite -app_assoc. f_equal.
    assert (drop (sum_list pre) pivots !! (s - 1) = Some p') as Hp''.
    { rewrite lookup_drop. by replace (sum_list pre + (s - 1)) with (sum_list pre + s - 1) by lia. }
    remember (s' :: suf) as suf' eqn:E'.
    assert (∀ A (ks : list A) b, split_pieces (s :: suf') (drop (sum_list pre) pivots) ks b =
      (take (s - 1) (drop (sum_list pre) pivots), take s ks, (bt_split_off b p').1) ::
      split_pieces suf' (drop s (drop (sum_list pre) pivots)) (drop s ks) (bt_split_off b p').2) as ->.
    { intros. subst suf'. cbn [split_pieces]. by rewrite Hp''. }
    assert (split_pivots (s :: suf') (drop (sum_list pre) pivots) =
      p' :: split_pivots suf' (drop s (drop (sum_list pre) pivots))) as ->.
    { subst suf'. cbn [split_pivots]. by rewrite Hp''. }
    rewrite !drop_drop bt_split_off_above //.
Qed.

Lemma peel_pieces_Ok (pivots : list Key) (children : list NodeId) (buffer : BTreeMap Message)
    (s0 : nat) (suf : list nat) :
  Forall (λ s, 1 ≤ s) (s0 :: suf) → sum_list (s0 :: suf) = length children →
  length children = S (length pivots) → StronglySorted key_lt pivots →
  ∃ ps0 ks0 b0 pcs, split_pieces (s0 :: suf) pivots children buffer = (ps0, ks0, b0) :: pcs ∧
    ps0 = take (s0 - 1) pivots ∧ ks0 = take s0 children ∧
    peel_pieces pivots children buffer (s0 :: suf) =
    Ok (b0, rev (zip_with name_piece (split_pivots (s0 :: suf) pivots) pcs)).
Proof.
  intros Hpos Hsum Hl Hsort. apply Forall_cons in Hpos as [Hs0 Hpos].
  rewrite sum_list_cons in Hsum.
  unfold peel_pieces. cbv zeta. cbn [length]. rewrite Nat.sub_succ Nat.sub_0_r.
  change (ofold _ ?b ?l) with (ofold (peel_body pivots children (s0 :: suf)) b l).
  destruct suf as [|s' suf].
  - simpl in Hsum. eexists _, _, _, []. split_and!; [done| | |done]; by rewrite take_ge; [lia|].
  - assert (∃ p, pivots !! (s0 - 1) = Some p) as [p Hp].
    { apply lookup_lt_is_Some. apply Forall_cons in Hpos as [? _].
      rewrite sum_list_cons in Hsum. lia. }
    pose proof (peel_loop pivots children (s0 :: s' :: suf) (s' :: suf) [s0] buffer [] p) as Hloop.
    assert (sum_list [s0] = s0) as E0 by (simpl; unfold id; lia). rewrite E0 in Hloop.
    cbn [length] in Hloop |- *. cbv zeta in Hloop.
    rewrite Hloop //; clear Hloop.
    eexists _, _, _, _. split_and!; [cbn [split_pieces]; by rewrite Hp|done|done|].
    cbn [app]. do 3 f_equal. cbn [split_pivots]. by rewrite Hp.
Qed.

(** *** The pieces respect the capacities and keep every view *)
Definition piece_view (x : list Key * list tree * BTreeMap Message) (k : Key) : View :=
  let '(ps, ks, b) := x in vpush (b !! k) (kview ps ks k).
Definition piece_kids (x : list Key * list tree * BTreeMap Message) : list tree := x.1.2.
Definition piece_size (x : list Key * list tree * BTreeMap Message) : nat := size x.2.

Definition internal_piece (prm : Params) (h : nat) (lo hi : option Key)
    (x : list Key * list tree * BTreeMap Message) : Prop :=
  let '(ps, ks, b) := x in
  keys_in lo hi b ∧ size b ≤ buffer_capacity prm ∧ length ks ≤ fanout prm ∧
  kids_ok (good prm h) lo hi ps ks.

Lemma split_off_keys_in {V} (b : BTreeMap V) lo hi p :
  keys_in lo hi b → keys_in lo (Some p) (bt_split_off b p).1 ∧ keys_in (Some p) hi (bt_split_off b p).2.
Proof.
  intros Hb. split; intros k v.
  - rewrite lookup_split_off_kept. case_decide as Hk; [|done]. intros Hv.
    apply Hb, in_range_true in Hv as [? _]. apply in_range_true. naive_solver.
  - rewrite lookup_split_off_tail. case_decide as Hk; [done|]. intros Hv.
    apply Hb, in_range_true in Hv as [_ ?]. apply in_range_true. apply key_not_lt in Hk. naive_solver.
Qed.

Lemma piece_lookup_default {A} (l : list A) (d : View) (f : A → View) (i : nat) x :
  l !! i = Some x → default d (f <$> l !! i) = f x.
Proof. by intros ->. Qed.

Lemma internal_pieces prm h hi (sizes : list nat) : ∀ lo ps ks b,
  kids_ok (good prm h) lo hi ps ks → keys_in lo hi b → size b ≤ buffer_capacity prm →
  sizes ≠ [] → Forall (λ s, 1 ≤ s ≤ fanout prm) sizes → sum_list sizes = length ks →
  let qs := split_pivots sizes ps in
  let pcs := split_pieces sizes ps ks b in
  kids_ok (internal_piece prm h) lo hi qs pcs ∧
  (∀ k, default vempty ((λ x, piece_view x k) <$> pcs !! route qs k) = vpush (b !! k) (kview ps ks k)) ∧
  concat (map piece_kids pcs) = ks ∧ sum_list_with piece_size pcs = size b ∧
  length pcs = length sizes.
Proof.
  induction sizes as [|s sizes IH]; intros lo ps ks b Hks Hb HbB Hne Hs Hsum; [done|].
  apply Forall_cons in Hs as [Hs1 Hs]. rewrite sum_list_cons in Hsum.
  destruct sizes as [|s' sizes].
  { simpl in *. split_and!; [constructor; split_and!; try done; lia|done| |unfold piece_size; simpl; lia|done].
    by rewrite app_nil_r. }
  pose proof Hs as Hs'. apply Forall_cons in Hs' as [Hs' _]. rewrite sum_list_cons in Hsum.
  destruct (kids_ok_split _ _ _ _ _ s Hks) as (p & Eps & Hp & Ha & Hbl & Hl & Hr); [lia..|].
  destruct (split_off_keys_in b lo hi p Hb) as [Hb1 Hb2].
  pose proof (size_split_off b p) as Hsz.
  destruct (IH (Some p) (drop s ps) (drop s ks) (bt_split_off b p).2) as (Hk & Hv & Hc & Hsm & Hln);
    [done|done|lia|done|done|rewrite length_drop sum_list_cons; lia|].
  remember (s' :: sizes) as rest eqn:E.
  assert (split_pieces (s :: rest) ps ks b = (take (s - 1) ps, take s ks, (bt_split_off b p).1) ::
    split_pieces rest (drop s ps) (drop s ks) (bt_split_off b p).2) as ->.
  { subst rest. cbn [split_pieces]. by rewrite Hp. }
  assert (split_pivots (s :: rest) ps = p :: split_pivots rest (drop s ps)) as ->.
  { subst rest. cbn [split_pivots]. by rewrite Hp. }
  cbv zeta. split_and!.
  - constructor; [done..| |done]. split_and!; [done|lia|rewrite length_take; lia|done].
  - intros k. rewrite route_cons. case_decide as Hpk.
    + change (_ !! S ?n) with (split_pieces rest (drop s ps) (drop s ks) (bt_split_off b p).2 !! n).
      rewrite Hv lookup_split_off_tail decide_False; [by apply key_not_lt|]. f_equal.
      unfold kview. rewrite (route_split _ _ _ _ _ s p k Hks) //; [lia..|]. by rewrite decide_True.
    + change (piece_view (take (s - 1) ps, take s ks, (bt_split_off b p).1) k = vpush (b !! k) (kview ps ks k)).
      unfold piece_view. rewrite lookup_split_off_kept decide_True; [by apply key_not_le|]. f_equal.
      unfold kview. rewrite (route_split _ _ _ _ _ s p k Hks) //; [lia..|]. by rewrite decide_False.
  - simpl. by rewrite Hc /piece_kids /= take_drop.
  - cbn [sum_list_with]. rewrite Hsm. unfold piece_size. cbn [snd]. lia.
  - simpl. by rewrite Hln.
Qed.
