(* ===== verification/BeTreeOps.v ===== *)
(** * Operations of the Bε-tree on represented trees

    What each [&mut self] helper of the engine does to the tree an arena
    represents: total-correctness specifications (no panic, no lack of
    fuel) with the nodes they may touch. *)

From S2P Require Export Split.
From stdpp Require Import options.
From Stdlib Require Import ZArith.

Section ops.
Context {P : Type}.
Implicit Types (s : BeTree P) (t c : tree) (X : list NodeId).

(** ** The arena *)
Definition arena s : NodeId → option Node := λ i, nodes s !! i.

(** [evolves X s s']: from [s] to [s'] only the nodes [X] changed and new
    ones were allocated; the root, the counters and the recorded ops are
    the same. *)
Record evolves X s s' : Prop := mkEvolves {
  ev_params : params s' = params s;
  ev_root : root s' = root s;
  ev_next_seq : next_seq s' = next_seq s;
  ev_ops : ops_since_commit s' = ops_since_commit s;
  ev_length : length (nodes s) ≤ length (nodes s');
  ev_frame i : i < length (nodes s) → i ∉ X → nodes s' !! i = nodes s !! i;
  ev_dirty : length (dirty s) = length (nodes s) → length (dirty s') = length (nodes s');
  ev_trace : Recorder_ok (trace s) → Recorder_ok (trace s');
  ev_trace_ops : ops_of (rec_v2 (trace s')) = ops_of (rec_v2 (trace s));
}.

Lemma evolves_refl X s : evolves X s s.
Proof. by constructor. Qed.

Lemma evolves_trans X Y s s' s'' :
  evolves X s s' → evolves Y s' s'' → (∀ i, i ∈ Y → i ∈ X ∨ length (nodes s) ≤ i) →
  evolves X s s''.
Proof.
  intros [] [] HY. split; try (congruence || lia || auto).
  intros i Hi HX. rewrite -ev_frame0 //. apply ev_frame1; [lia|].
  intros HiY. destruct (HY i HiY); [done|lia].
Qed.

Lemma evolves_weaken X Y s s' : evolves X s s' → X ⊆ Y → evolves Y s s'.
Proof. intros [] HXY. split; auto. Qed.

Lemma arena_lt s i : is_Some (arena s i) ↔ i < length (nodes s).
Proof. apply lookup_lt_is_Some. Qed.

Lemma repr_ids_lt s t i : repr (arena s) t → i ∈ ids t → i < length (nodes s).
Proof. intros. apply arena_lt. by eapply repr_is_Some. Qed.
Lemma forest_ids_lt s ks i : forest_repr (arena s) ks → i ∈ forest_ids ks → i < length (nodes s).
Proof. intros. apply arena_lt. by eapply forest_repr_is_Some. Qed.

Lemma evolves_repr X s s' t :
  evolves X s s' → repr (arena s) t → (∀ i, i ∈ ids t → i ∉ X) → repr (arena s') t.
Proof.
  intros Hev Hr HX. eapply repr_frame; [|exact Hr]. intros i Hi.
  apply (ev_frame _ _ _ Hev); [by eapply repr_ids_lt|by apply HX].
Qed.
Lemma evolves_forest_repr X s s' ks :
  evolves X s s' → forest_repr (arena s) ks → (∀ i, i ∈ forest_ids ks → i ∉ X) →
  forest_repr (arena s') ks.
Proof.
  intros Hev Hr HX. eapply forest_repr_frame; [|exact Hr]. intros i Hi.
  apply (ev_frame _ _ _ Hev); [by eapply forest_ids_lt|by apply HX].
Qed.

(** ** Primitive steps *)
Lemma wp_node id n (Q : Node → BeTree P → Prop) s :
  arena s id = Some n → Q n s → wp (node id) Q s.
Proof. intros Hn HQ. apply wp_bind, wp_get. eapply wp_lift; [by apply expect_Ok|done]. Qed.

Lemma wp_put_node id n (Q : unit → BeTree P → Prop) s :
  Q tt (set_nodes (<[id := n]> (nodes s)) s) → wp (put_node id n) Q s.
Proof. intros HQ. by eapply wp_run. Qed.

Lemma evolves_put_node id n s : evolves [id] s (set_nodes (<[id := n]> (nodes s)) s).
Proof.
  constructor; simpl; try done; rewrite ?length_insert //.
  intros i _ Hi. rewrite list_lookup_insert_ne //. set_solver.
Qed.

Lemma arena_put_node id n s i :
  id < length (nodes s) → arena (set_nodes (<[id := n]> (nodes s)) s) i =
  if decide (i = id) then Some n else arena s i.
Proof.
  intros Hid. unfold arena. simpl. case_decide as Hi; [subst|].
  - by apply list_lookup_insert_eq.
  - by apply list_lookup_insert_ne.
Qed.

Lemma wp_alloc n (Q : NodeId → BeTree P → Prop) s :
  Q (length (nodes s)) (set_dirty (dirty s ++ [true]) (set_nodes (nodes s ++ [n]) s)) →
  wp (alloc n) Q s.
Proof.
  intros HQ. apply wp_bind, wp_get. apply wp_bind, wp_modify. apply wp_bind, wp_modify.
  by apply wp_ret.
Qed.

Lemma evolves_alloc ns s :
  evolves [] s (set_dirty (dirty s ++ replicate (length ns) true) (set_nodes (nodes s ++ ns) s)).
Proof.
  constructor; simpl; try done; rewrite ?length_app ?length_replicate; try lia.
  intros i Hi _. by apply lookup_app_l.
Qed.

Definition wf_dirty s : Prop := length (dirty s) = length (nodes s).

(** [mark_dirty] changes nothing but the flags. *)
Lemma wp_mark_dirty id (Q : unit → BeTree P → Prop) s :
  wf_dirty s → id < length (nodes s) →
  (∀ ds, length ds = length (dirty s) → Q tt (set_dirty ds s)) → wp (mark_dirty id) Q s.
Proof.
  intros Hd Hid HQ. apply wp_bind, wp_get. apply wp_bind.
  eapply wp_lift; [apply vec_update_Ok; by rewrite Hd|].
  apply wp_modify, HQ. by rewrite length_alter.
Qed.

Lemma evolves_set_dirty ds s : length ds = length (dirty s) → evolves [] s (set_dirty ds s).
Proof. intros Hd. constructor; simpl; try done. congruence. Qed.

Lemma evolves_set_policy p s : evolves [] s (set_policy p s).
Proof. by constructor. Qed.

Lemma evolves_flush_decision n o i s :
  evolves [] s (set_trace (Recorder_flush_decision (trace s) n o i) s).
Proof.
  constructor; simpl; try done; auto with recorder. apply ops_of_Recorder_flush_decision.
Qed.

Lemma evolves_wf_dirty X s s' : evolves X s s' → wf_dirty s → wf_dirty s'.
Proof. intros []; auto. Qed.

(** ** Allocation of the pieces of a split *)
Definition alloc_all (ns : list Node) s : BeTree P :=
  set_dirty (dirty s ++ replicate (length ns) true) (set_nodes (nodes s ++ ns) s).

Lemma wp_mapM_alloc {A} (f : A → M (BeTree P) (Key * NodeId)) l (qns : list (Key * Node))
    (Q : list (Key * NodeId) → BeTree P → Prop) s :
  Forall2 (λ a qn, ∀ (Q : Key * NodeId → BeTree P → Prop) s,
    wp (id ← alloc qn.2; mret (qn.1, id)) Q s → wp (f a) Q s) l qns →
  Q (zip qns.*1 (seq (length (nodes s)) (length qns))) (alloc_all qns.*2 s) →
  wp (mapM f l) Q s.
Proof.
  intros Hl. revert Q s. induction Hl as [|a [q n] l qns Ha Hl IH]; intros Q s HQ; simpl.
  - apply wp_ret. unfold alloc_all in HQ. simpl in HQ. rewrite !app_nil_r in HQ. by destruct s.
  - apply wp_bind, Ha, wp_bind, wp_alloc, wp_ret. cbn [fst snd].
    apply wp_bind, IH, wp_ret. simpl in *. unfold alloc_all in *. simpl in *.
    rewrite length_app -!app_assoc /= Nat.add_1_r. exact HQ.
Qed.

(** ** What an operation leaves of a subtree

    [becomes prm h lo hi t s ps cs s']: the subtree [t] of height [h]
    became the pieces [cs] with pivots [ps] (none, if it was reclaimed). *)
Record becomes (prm : Params) (h : nat) (lo hi : option Key) t s
    (ps : list Key) (cs : list tree) s' : Prop := mkBecomes {
  bc_pieces : pieces_ok prm h lo hi ps cs;
  bc_view k : in_range k lo hi = true → vrefines (kview ps cs k) (view t k);
  bc_repr : forest_repr (arena s') cs;
  bc_NoDup : NoDup (forest_ids cs);
  bc_ids i : i ∈ forest_ids cs → i ∈ ids t ∨ length (nodes s) ≤ i;
  bc_evolves : evolves (ids t) s s';
  bc_weight : sum_list_with weight cs ≤ weight t;
  bc_phi : sum_list_with (phi h) cs ≤ phi h t;
  bc_msgs : sum_list_with msgs cs ≤ msgs t;
}.

Definition promoted_of (ps : list Key) (cs : list tree) : list (Key * NodeId) :=
  zip ps (map label (tail cs)).

(** ** Laying the pieces of a split into the arena *)
Section lay.
Context {A : Type} (mk : NodeId → A → tree) (kd : A → list tree) (nd : A → Node).
Hypothesis mk_nodes : ∀ i x, nodes_of (mk i x) = (i, nd x) :: forest_nodes (kd x).

Lemma forest_ids_mk js xs : length js = length xs →
  forest_ids (zip_with mk js xs) ≡ₚ js ++ forest_ids (concat (map kd xs)).
Proof using mk_nodes.
  revert js. induction xs as [|x xs IH]; intros [|i js] Hl; try done.
  simpl in Hl. cbn [zip_with concat map]. rewrite forest_ids_cons forest_ids_app.
  rewrite (IH js); [lia|]. unfold ids. rewrite mk_nodes. cbn [fmap list_fmap fst].
  simpl. constructor. fold (forest_ids (kd x)). rewrite !(assoc_L (++)).
  apply Permutation_app_tail, Permutation_app_comm.
Qed.

Lemma forest_repr_mk f js xs : length js = length xs →
  Forall2 (λ i x, f i = Some (nd x)) js xs → forest_repr f (concat (map kd xs)) →
  forest_repr f (zip_with mk js xs).
Proof using mk_nodes.
  intros Hl Hf. induction Hf as [|i x js xs Hi Hf IH]; simpl; [intros; apply forest_repr_nil|].
  rewrite forest_repr_app. intros [Hk Hks]. apply forest_repr_cons. split.
  - unfold repr. rewrite mk_nodes. constructor; [done|exact Hk].
  - apply IH; [simpl in Hl; lia|done].
Qed.

Lemma lay_pieces s id x0 xs ds :
  id < length (nodes s) → length ds = length (dirty s) →
  forest_repr (arena s) (concat (map kd (x0 :: xs))) →
  NoDup (id :: forest_ids (concat (map kd (x0 :: xs)))) →
  let s' := alloc_all (map nd xs) (set_nodes (<[id := nd x0]> (nodes s)) (set_dirty ds s)) in
  let cs := zip_with mk (id :: seq (length (nodes s)) (length xs)) (x0 :: xs) in
  forest_repr (arena s') cs ∧ NoDup (forest_ids cs) ∧
  (∀ i, i ∈ forest_ids cs → i = id ∨ i ∈ forest_ids (concat (map kd (x0 :: xs))) ∨
     length (nodes s) ≤ i) ∧
  evolves [id] s s'.
Proof using mk_nodes.
  intros Hid Hds Hr Hnd s' cs.
  assert (length (id :: seq (length (nodes s)) (length xs)) = length (x0 :: xs)) as Hl.
  { simpl. by rewrite length_seq. }
  assert (evolves [id] s s') as Hev.
  { eapply evolves_trans; [|apply (evolves_alloc (map nd xs))|set_solver].
    apply (evolves_trans _ [id] _ (set_dirty ds s)); [|exact (evolves_put_node id (nd x0) (set_dirty ds s))|set_solver].
    eapply evolves_weaken; [by apply evolves_set_dirty|set_solver]. }
  assert (∀ i, i ∈ forest_ids (concat (map kd (x0 :: xs))) → i < length (nodes s)) as Hlt.
  { intros i. by apply forest_ids_lt. }
  inversion Hnd as [|? ? Hnot Hnd']; subst.
  split_and!; [| | |done].
  - apply forest_repr_mk; [done| |].
    + constructor.
      * unfold arena, s'. simpl. rewrite lookup_app_l; [by rewrite length_insert|].
        by apply list_lookup_insert_eq.
      * apply Forall2_same_length_lookup. split; [by rewrite length_seq|].
        intros j i x Hi Hx. apply lookup_seq in Hi as [-> Hj].
        unfold arena, s'. simpl. rewrite lookup_app_r; rewrite length_insert; [lia|].
        replace (length (nodes s) + j - length (nodes s)) with j by lia.
        by rewrite list_lookup_fmap Hx.
    + eapply evolves_forest_repr; [done|done|]. set_solver.
  - unfold cs. rewrite forest_ids_mk //. apply NoDup_app. split_and!; [| |done].
    + constructor; [|apply NoDup_seq]. rewrite elem_of_seq. lia.
    + intros i [->|Hi]%elem_of_cons; [done|]. rewrite elem_of_seq in Hi.
      intros Hi'%Hlt. lia.
  - intros i. unfold cs. rewrite forest_ids_mk // elem_of_app elem_of_cons elem_of_seq. intuition lia.
Qed.
End lay.

Lemma kids_ok_zip_with {A B C} (R : option Key → option Key → A → Prop)
    (R' : option Key → option Key → C → Prop) (f : B → A → C) lo hi ps xs js :
  (∀ l u i x, R l u x → R' l u (f i x)) → length js = length xs →
  kids_ok R lo hi ps xs → kids_ok R' lo hi ps (zip_with f js xs).
Proof.
  intros HR Hl Hk. revert js Hl. induction Hk as [|? ? ? ? ? ? ? ? ? ? IH]; intros [|i js] Hl; try done.
  - destruct js; [|done]. constructor. by apply HR.
  - simpl. constructor; [done..|by apply HR|]. apply IH. simpl in Hl. lia.
Qed.

Lemma map_label_zip_with {A} (mk : NodeId → A → tree) js xs :
  (∀ i x, label (mk i x) = i) → length js = length xs → map label (zip_with mk js xs) = js.
Proof.
  intros Hmk. revert js. induction xs as [|x xs IH]; intros [|j js] Hl; try done.
  simpl in *. rewrite Hmk IH //. lia.
Qed.

Lemma lookup_zip_with_view {A} (mk : NodeId → A → tree) (v : A → View) js xs k i :
  (∀ i x, view (mk i x) k = v x) → length js = length xs →
  match zip_with mk js xs !! i with Some c => view c k | None => vempty end =
  default vempty (v <$> xs !! i).
Proof.
  intros Hmk. revert js i. induction xs as [|x xs IH]; intros [|j js] i Hl; try done.
  destruct i as [|i]; simpl; [apply Hmk|]. apply IH. simpl in Hl. lia.
Qed.

Lemma sum_zip_with {A B C} (g : C → nat) (g' : A → nat) (f : B → A → C) js xs :
  (∀ i x, g (f i x) = g' x) → length js = length xs →
  sum_list_with g (zip_with f js xs) = sum_list_with g' xs.
Proof.
  intros Hg. revert js. induction xs as [|x xs IH]; intros [|i js] Hl; try done.
  simpl in *. rewrite Hg IH; lia.
Qed.

(** ** Splits *)
Definition splittable (prm : Params) (h : nat) (lo hi : option Key) t : Prop :=
  match h, t with
  | 0, TLeaf _ e => keys_in lo hi e ∧ 1 ≤ size e
  | S h, TInt _ ps ks b =>
      keys_in lo hi b ∧ size b ≤ buffer_capacity prm ∧ kids_ok (good prm h) lo hi ps ks
  | _, _ => False
  end.

Definition arity t : nat := match t with TLeaf _ e => size e | TInt _ _ ks _ => length ks end.

Record split_into prm h lo hi t s (out : list (Key * NodeId))
    (ps : list Key) (t0 : tree) (cs : list tree) s' : Prop := mkSplitInto {
  sp_out : out = promoted_of ps (t0 :: cs);
  sp_label : label t0 = label t;
  sp_kids : kids_ok (good prm h) lo hi ps (t0 :: cs);
  sp_becomes : becomes prm h lo hi t s ps (t0 :: cs) s';
  sp_fewer : h ≠ 0 → cs ≠ [] → length (t0 :: cs) < arity t;
}.

Definition split_spec (m : M (BeTree P) (list (Key * NodeId))) prm h lo hi t s : Prop :=
  wp m (λ out s', ∃ ps t0 cs, split_into prm h lo hi t s out ps t0 cs s') s.

Lemma legal_params_spec prm :
  legal_params prm = true ↔ 2 ≤ fanout prm ∧ 1 ≤ buffer_capacity prm ∧ 1 ≤ leaf_capacity prm.
Proof. unfold legal_params. rewrite !andb_true_iff !Nat.leb_le. tauto. Qed.

(** Nothing to split. *)
Lemma split_into_refl prm h lo hi t s :
  good prm h lo hi t → repr (arena s) t → NoDup (ids t) →
  split_into prm h lo hi t s [] [] t [] s.
Proof.
  intros Hg Hr Hnd. assert (kids_ok (good prm h) lo hi [] [t]) as Hk by by constructor.
  constructor; try done. constructor.
  - by right.
  - intros k _. reflexivity.
  - apply forest_repr_cons. split; [done|apply forest_repr_nil].
  - rewrite forest_ids_cons app_nil_r //.
  - intros i. rewrite forest_ids_cons app_nil_r. by left.
  - apply evolves_refl.
  - simpl. lia.
  - simpl. lia.
  - simpl. lia.
Qed.

Lemma split_leaf_spec prm lo hi id e s :
  1 ≤ leaf_capacity prm → params s = prm → wf_dirty s → leaf_capacity prm < size e →
  keys_in lo hi e → arena s id = Some (Leaf e) →
  split_spec (split_leaf id) prm 0 lo hi (TLeaf id e) s.
Proof.
  intros HL Hprm Hd Hsz Hkeys Hid.
  assert (id < length (nodes s)) as Hlt by (apply arena_lt; eauto).
  apply wp_bind, wp_mark_dirty; [done..|]. intros ds Hds.
  apply wp_bind. eapply wp_node; [exact Hid|]. apply wp_bind, wp_get.
  cbn [params set_dirty]. rewrite Hprm.
  destruct (partition_sizes_Ok (length (bt_iter e)) (leaf_capacity prm) HL) as (sizes & Hsizes & Hspec).
  apply wp_bind. eapply wp_lift; [exact Hsizes|].
  destruct Hspec as (Hsum & Hcap & Hpos & _ & Hmany & _).
  rewrite length_bt_iter in Hsum, Hpos, Hmany.
  destruct (leaf_pieces (leaf_capacity prm) lo hi sizes (bt_iter e)) as (qs & Hqs & Hk & Hv & Hw).
  { apply bt_iter_sorted. }
  { apply Forall_forall. intros [k v] Hkv%elem_of_bt_iter. by eapply Hkeys. }
  { intros ->. simpl in *. lia. }
  { rewrite Forall_forall. rewrite Forall_forall in Hcap. specialize (Hpos ltac:(lia)).
    rewrite Forall_forall in Hpos. intros x Hx. split; [by apply Hpos|by apply Hcap]. }
  { by rewrite length_bt_iter. }
  destruct (take_pieces sizes (bt_iter e)) as [|x0 xs] eqn:Epieces; [inversion Hk|].
  apply wp_bind. eapply wp_lift; [done|]. apply wp_bind, wp_put_node. cbn [tail] in Hqs |- *.
  eapply (wp_mapM_alloc _ _ (zip qs (map Leaf xs))).
  { clear -Hqs. induction Hqs as [|x q xs qs Hx Hqs IH]; simpl; constructor; [|done].
    intros Q s1 HQ. destruct (bt_first_key_value x) as [[q' v]|] eqn:E; simplify_eq/=.
    apply wp_bind. eapply wp_lift; [done|]. exact HQ. }
  pose proof (Forall2_length _ _ _ Hqs) as Hlq.
  rewrite fst_zip; [rewrite length_map; lia|]. rewrite snd_zip; [rewrite length_map; lia|].
  rewrite length_zip length_map -Hlq Nat.min_id.
  cbn [nodes set_nodes set_dirty]. rewrite length_insert.
  destruct (lay_pieces TLeaf (λ _, []) Leaf (λ _ _, eq_refl) s id x0 xs ds) as (Hr & Hnd & Hids & Hev);
    [done|done| | |].
  { assert (concat (map (λ _ : BTreeMap LeafEntry, @nil tree) (x0 :: xs)) = []) as ->.
    { clear. by induction (x0 :: xs). }
    apply forest_repr_nil. }
  { assert (concat (map (λ _ : BTreeMap LeafEntry, @nil tree) (x0 :: xs)) = []) as ->.
    { clear. by induction (x0 :: xs). }
    apply NoDup_singleton. }
  assert (length (id :: seq (length (nodes s)) (length xs)) = length (x0 :: xs)) as Hl.
  { simpl. by rewrite length_seq. }
  assert (kids_ok (good prm 0) lo hi qs
    (zip_with TLeaf (id :: seq (length (nodes s)) (length xs)) (x0 :: xs))) as Hkg.
  { eapply kids_ok_zip_with; [|done|exact Hk]. by intros l u i x. }
  exists qs, (TLeaf id x0), (zip_with TLeaf (seq (length (nodes s)) (length xs)) xs).
  constructor; [|done|exact Hkg| |done].
  { unfold promoted_of. cbn [tail]. f_equal.
    symmetry. apply map_label_zip_with; [done|apply length_seq]. }
  change (TLeaf id x0 :: zip_with TLeaf (seq (length (nodes s)) (length xs)) xs)
    with (zip_with TLeaf (id :: seq (length (nodes s)) (length xs)) (x0 :: xs)).
  constructor; [by right| |exact Hr|exact Hnd| | | | |].
  - intros k Hk'. unfold kview. rewrite (lookup_zip_with_view TLeaf (λ x, ([], x !! k))) //.
    change (view (TLeaf id e) k) with ([] : list Message, e !! k). specialize (Hv k Hk').
    rewrite bt_collect_iter in Hv. rewrite -Hv. by destruct ((x0 :: xs) !! route qs k).
  - intros i Hi. rewrite ids_TLeaf list_elem_of_singleton.
    destruct (Hids i Hi) as [->|[Hn|?]]; [by left| |by right].
    exfalso. revert Hn. clear. induction (x0 :: xs); [set_solver|done].
  - exact Hev.
  - rewrite (sum_zip_with weight size) // Hw length_bt_iter. done.
  - rewrite (sum_zip_with (phi 0) (λ _, 0)) //. clear. induction (x0 :: xs); done.
  - rewrite (sum_zip_with msgs (λ _, 0)) //. clear. induction (x0 :: xs); done.
Qed.

Definition piece_tree (i : NodeId) (x : list Key * list tree * BTreeMap Message) : tree :=
  let '(ps, ks, b) := x in TInt i ps ks b.
Definition piece_node (x : list Key * list tree * BTreeMap Message) : Node :=
  let '(ps, ks, b) := x in Internal ps (map label ks) b.

Lemma piece_tree_nodes i x : nodes_of (piece_tree i x) = (i, piece_node x) :: forest_nodes (piece_kids x).
Proof. by destruct x as [[ps ks] b]. Qed.
Lemma piece_tree_label i x : label (piece_tree i x) = i.
Proof. by destruct x as [[ps ks] b]. Qed.
Lemma piece_tree_view i x k : view (piece_tree i x) k = piece_view x k.
Proof. destruct x as [[ps ks] b]. apply view_TInt. Qed.

Lemma sum_pieces (f : tree → nat) (g : nat) xs ks n :
  concat (map piece_kids xs) = ks → sum_list_with piece_size xs = n →
  sum_list_with (λ x, g * piece_size x + sum_list_with f (piece_kids x)) xs =
  g * n + sum_list_with f ks.
Proof.
  intros <- <-. induction xs as [|x xs IH]; simpl; [lia|].
  rewrite IH sum_list_with_app. lia.
Qed.

Lemma split_internal_spec prm h lo hi id ps ks b s :
  legal_params prm = true → params s = prm → wf_dirty s → fanout prm < length ks →
  splittable prm (S h) lo hi (TInt id ps ks b) →
  repr (arena s) (TInt id ps ks b) → NoDup (ids (TInt id ps ks b)) →
  split_spec (split_internal id) prm (S h) lo hi (TInt id ps ks b) s.
Proof.
  intros Hlegal Hprm Hd Hlen (Hb & HbB & Hks) Hrepr Hnd.
  apply legal_params_spec in Hlegal as (HF & HB & HL).
  apply repr_TInt in Hrepr as [Hid Hkr].
  assert (id < length (nodes s)) as Hlt by (apply arena_lt; eauto).
  apply wp_bind, wp_mark_dirty; [done..|]. intros ds Hds.
  apply wp_bind. eapply wp_node; [exact Hid|]. apply wp_bind, wp_get.
  cbn [params set_dirty]. rewrite Hprm length_map.
  destruct (partition_sizes_Ok (length ks) (fanout prm)) as (sizes & Hsizes & Hspec); [lia|].
  apply wp_bind. eapply wp_lift; [exact Hsizes|].
  destruct Hspec as (Hsum & Hcap & Hpos & _ & Hmany & Hfew).
  specialize (Hpos ltac:(lia)). specialize (Hmany Hlen). specialize (Hfew HF Hlen).
  destruct sizes as [|s0 suf]; [simpl in *; lia|].
  pose proof (kids_ok_length _ _ _ _ _ Hks) as Hl.
  destruct (internal_pieces prm h hi (s0 :: suf) lo ps ks b) as (Hk & Hv & Hc & Hsz & Hln); [done..| |done|].
  { rewrite Forall_forall. rewrite Forall_forall in Hcap. rewrite Forall_forall in Hpos.
    intros x Hx. split; [by apply Hpos|by apply Hcap]. }
  destruct (peel_pieces_Ok ps (map label ks) b s0 suf) as (ps0 & ks0 & b0 & pcs & Esp & -> & -> & Epeel);
    [done|by rewrite length_map|by rewrite length_map|by eapply kids_ok_sorted|].
  rewrite split_pieces_fmap in Esp.
  destruct (split_pieces (s0 :: suf) ps ks b) as [|x0 xs] eqn:Ex; [done|].
  cbn [map] in Esp. injection Esp as Ex0 Exs.
  apply wp_bind. eapply wp_lift; [exact Epeel|].
  apply wp_bind. eapply wp_lift; [done|].
  apply Forall_cons in Hpos as [Hs0 Hpos]. apply Forall_cons in Hcap as [Hs0' _].
  apply wp_bind. eapply wp_lift; [apply usize_sub_Ok; lia|].
  apply wp_bind. eapply wp_lift; [apply vec_slice_Ok; lia|].
  apply wp_bind. eapply wp_lift; [apply vec_slice_Ok; [lia|rewrite length_map; lia]|].
  rewrite !drop_0 !Nat.sub_0_r. apply wp_bind, wp_put_node.
  rewrite rev_involutive.
  assert (Internal (take (s0 - 1) ps) (take s0 (map label ks)) b0 = piece_node x0) as ->.
  { destruct x0 as [[ps0 ks0] b0']. unfold piece_node. congruence. }
  set (qs := split_pivots (s0 :: suf) ps) in *.
  pose proof (kids_ok_length _ _ _ _ _ Hk) as Hlq. simpl in Hlq. injection Hlq as Hlq.
  eapply (wp_mapM_alloc _ _ (zip qs (map piece_node xs))).
  { rewrite -Exs. clear -Hlq. revert Hlq. generalize qs. clear.
    induction xs as [|[[ps' ks'] b'] xs IH]; intros [|q qs] Hl; try done.
    simpl in *. constructor; [|apply IH; lia]. intros Q s1 HQ. exact HQ. }
  rewrite fst_zip; [rewrite length_map; lia|]. rewrite snd_zip; [rewrite length_map; lia|].
  rewrite length_zip length_map -Hlq Nat.min_id.
  cbn [nodes set_nodes set_dirty]. rewrite length_insert.
  destruct (lay_pieces piece_tree piece_kids piece_node piece_tree_nodes s id x0 xs ds)
    as (Hr' & Hnd' & Hids & Hev); [done|done|by rewrite Hc|by rewrite Hc|].
  rewrite Hc in Hids.
  assert (length (id :: seq (length (nodes s)) (length xs)) = length (x0 :: xs)) as Hl'.
  { simpl. by rewrite length_seq. }
  assert (kids_ok (good prm (S h)) lo hi qs
    (zip_with piece_tree (id :: seq (length (nodes s)) (length xs)) (x0 :: xs))) as Hkg.
  { eapply kids_ok_zip_with; [|done|exact Hk]. by intros l u i [[??]?]. }
  exists qs, (piece_tree id x0), (zip_with piece_tree (seq (length (nodes s)) (length xs)) xs).
  constructor; [|apply piece_tree_label|exact Hkg| |].
  { unfold promoted_of. cbn [tail]. f_equal.
    symmetry. apply map_label_zip_with; [apply piece_tree_label|apply length_seq]. }
  2: { intros _ _. cbn [length arity] in *. rewrite length_zip_with length_seq. lia. }
  change (piece_tree id x0 :: zip_with piece_tree (seq (length (nodes s)) (length xs)) xs)
    with (zip_with piece_tree (id :: seq (length (nodes s)) (length xs)) (x0 :: xs)).
  constructor; [by right| |exact Hr'|exact Hnd'| | | | |].
  - intros k _. unfold kview. rewrite (lookup_zip_with_view piece_tree (λ x, piece_view x k)) //.
    { intros. apply piece_tree_view. }
    by rewrite Hv view_TInt.
  - intros i Hi. rewrite ids_TInt. specialize (Hids i Hi). set_solver.
  - eapply evolves_weaken; [exact Hev|]. rewrite ids_TInt. set_solver.
  - rewrite (sum_zip_with weight (λ x, 1 * piece_size x + sum_list_with weight (piece_kids x))) //.
    { intros i [[??]?]. unfold piece_size, piece_kids. simpl. lia. }
    rewrite (sum_pieces _ _ _ _ _ Hc Hsz). simpl. lia.
  - rewrite (sum_zip_with (phi (S h)) (λ x, S h * piece_size x + sum_list_with (phi h) (piece_kids x))) //.
    { by intros i [[??]?]. }
    rewrite (sum_pieces _ _ _ _ _ Hc Hsz). simpl. lia.
  - rewrite (sum_zip_with msgs (λ x, 1 * piece_size x + sum_list_with msgs (piece_kids x))) //.
    { intros i [[??]?]. unfold piece_size, piece_kids. simpl. lia. }
    rewrite (sum_pieces _ _ _ _ _ Hc Hsz). simpl. lia.
Qed.
End ops.
