(* ===== verification/Deliver.v ===== *)
(** * Deliveries and their integration

    The other helpers of the flush loop: the choice and extraction of a
    batch, its application to a child, and what the parent does with the
    outcome. *)

From S2P Require Export BeTreeOps.
From stdpp Require Import options.
From Stdlib Require Import ZArith.

(** ** Fold specifications of the two deliveries *)
Definition deliver_leaf (e : BTreeMap LeafEntry) (batch : BTreeMap Message) (k : Key) : option LeafEntry :=
  match batch !! k with Some m => leaf_result m (e !! k) | None => e !! k end.
Definition deliver_buffer (b batch : BTreeMap Message) (k : Key) : option Message :=
  match batch !! k with Some m => buffer_result m (b !! k) | None => b !! k end.

Lemma apply_leaf_batch (e : BTreeMap LeafEntry) (batch : BTreeMap Message) :
  (∀ k m x, batch !! k = Some m → e !! k = Some x → (le_seq x < Message_seq m)%Z) →
  ∃ e', ofold (λ entries '(key, message), apply_to_leaf entries key message) e (bt_iter batch) = Ok e' ∧
    ∀ k, e' !! k = deliver_leaf e batch k.
Proof.
  intros Hlt. apply (ofold_bt_iter (λ entries '(key, message), apply_to_leaf entries key message) leaf_result).
  intros k m m0 Hk Hm0. destruct (apply_to_leaf_Ok m0 k m) as (e1 & ? & ? & ?).
  - intros x Hx. eapply Hlt; [done|]. by rewrite -Hm0.
  - exists e1. by rewrite -Hm0.
Qed.

Lemma apply_buffer_batch (b batch : BTreeMap Message) :
  (∀ k m x, batch !! k = Some m → b !! k = Some x → (Message_seq x < Message_seq m)%Z) →
  ∃ b', ofold (λ buffer '(key, message), coalesce_into buffer key message) b (bt_iter batch) = Ok b' ∧
    ∀ k, b' !! k = deliver_buffer b batch k.
Proof.
  intros Hlt. apply (ofold_bt_iter (λ buffer '(key, message), coalesce_into buffer key message) buffer_result).
  intros k m m0 Hk Hm0. destruct (coalesce_into_Ok m0 k m) as (e1 & ? & ? & ?).
  - intros x Hx. eapply Hlt; [done|]. by rewrite -Hm0.
  - exists e1. by rewrite -Hm0.
Qed.

(** Sizes of merged maps. *)
Lemma size_le_union {V W : Type} (m : BTreeMap V) (m1 : BTreeMap V) (m2 : BTreeMap W) :
  (∀ k, is_Some (m !! k) → is_Some (m1 !! k) ∨ is_Some (m2 !! k)) → size m ≤ size m1 + size m2.
Proof.
  intros Hm. rewrite -!size_dom. transitivity (size (dom m1 ∪ dom m2)).
  - apply subseteq_size. intros k. rewrite elem_of_union !elem_of_dom. apply Hm.
  - rewrite size_union_alt. apply Nat.add_le_mono_l, subseteq_size. set_solver.
Qed.

Lemma size_deliver_leaf (e : BTreeMap LeafEntry) (batch : BTreeMap Message)
    (e' : BTreeMap LeafEntry) :
  (∀ k, e' !! k = deliver_leaf e batch k) → size e' ≤ size e + size batch.
Proof.
  intros He. apply size_le_union. intros k. rewrite He /deliver_leaf.
  destruct (batch !! k); eauto.
Qed.
Lemma size_deliver_buffer (b batch b' : BTreeMap Message) :
  (∀ k, b' !! k = deliver_buffer b batch k) → size b' ≤ size b + size batch.
Proof.
  intros He. apply size_le_union. intros k. rewrite He /deliver_buffer.
  destruct (batch !! k); eauto.
Qed.

(** ** Extraction *)
Lemma route_lt_pivot (pivots : list Key) (i : nat) (p k : Key) : StronglySorted key_lt pivots → pivots !! i = Some p →
  i < route pivots k ↔ key_le p k.
Proof.
  intros Hs Hp. split.
  - intros Hi. apply key_leb_le. by eapply (partition_point_lt (λ p, key_leb p k)).
  - intros Hk. destruct (decide (i < route pivots k)) as [|Hge]; [done|]. exfalso.
    assert (∃ q, pivots !! route pivots k = Some q) as [q Hq].
    { apply lookup_lt_is_Some. apply lookup_lt_Some in Hp. lia. }
    pose proof (partition_point_at _ _ _ Hq) as Hqk. simpl in Hqk.
    assert (key_le q p) as Hqp.
    { destruct (decide (route pivots k = i)) as [E|]; [rewrite E in Hq; simplify_eq; apply key_le_refl|].
      apply key_lt_le. eapply (StronglySorted_lookup key_lt); [exact Hs| |exact Hq|exact Hp]. lia. }
    assert (key_leb q k = true) by (apply key_leb_le; key_order). congruence.
Qed.

Lemma extract_batch_Ok (pivots : list Key) (buffer : BTreeMap Message) (chosen : nat) :
  StronglySorted key_lt pivots → chosen ≤ length pivots →
  ∃ kept batch, extract_batch pivots buffer chosen = Ok (kept, batch) ∧
    (∀ k, kept !! k = if decide (route pivots k = chosen) then None else buffer !! k) ∧
    (∀ k, batch !! k = if decide (route pivots k = chosen) then buffer !! k else None) ∧
    size kept + size batch = size buffer.
Proof.
  intros Hs Hc. set (kb := match chosen with S i => match pivots !! i with
    | Some p => bt_split_off buffer p | None => (∅, buffer) end | 0 => (∅, buffer) end).
  assert (match chosen with
      | S i => pivot ← expect (pivots !! i); mret (bt_split_off buffer pivot)
      | 0 => mret (∅, buffer) end = Ok kb ∧
    (∀ k, kb.1 !! k = if decide (chosen ≤ route pivots k) then None else buffer !! k) ∧
    (∀ k, kb.2 !! k = if decide (chosen ≤ route pivots k) then buffer !! k else None) ∧
    size kb.1 + size kb.2 = size buffer) as (Ekb & Hkept & Hbatch & Hsz).
  { unfold kb. destruct chosen as [|i].
    - split_and!; [done| | |done]; intros k; case_decide; done || lia.
    - destruct (lookup_lt_is_Some_2 pivots i) as [p Hp]; [lia|]. rewrite Hp.
      split_and!; [done| | |apply size_split_off]; intros k;
        rewrite ?lookup_split_off_kept ?lookup_split_off_tail;
        pose proof (route_lt_pivot _ _ _ k Hs Hp) as Hr.
      + destruct (decide (key_lt k p)), (decide (S i ≤ route pivots k)) as [Hi|]; try done.
        * apply Hr in Hi. exfalso. key_order.
        * exfalso. assert (¬ key_le p k) by (intros ?%Hr; lia). key_order.
      + destruct (decide (key_lt k p)), (decide (S i ≤ route pivots k)) as [Hi|]; try done.
        * apply Hr in Hi. exfalso. key_order.
        * exfalso. assert (¬ key_le p k) by (intros ?%Hr; lia). key_order. }
  unfold extract_batch. rewrite Ekb. cbn [mbind outcome_bind]. destruct kb as [kept batch].
  cbn [fst snd] in *. destruct (pivots !! chosen) as [hi|] eqn:Ehi.
  - eexists _, _. split; [done|]. split_and!.
    + intros k. rewrite lookup_append lookup_split_off_tail Hkept Hbatch.
      pose proof (route_lt_pivot _ _ _ k Hs Ehi) as Hr.
      destruct (decide (key_lt k hi)).
      * assert (¬ chosen < route pivots k) by (intros ?%Hr; key_order).
        repeat case_decide; done || lia.
      * assert (chosen < route pivots k) by (apply Hr; by apply key_not_lt).
        repeat case_decide; try (done || lia). by destruct (buffer !! k).
    + intros k. rewrite lookup_split_off_kept Hbatch.
      pose proof (route_lt_pivot _ _ _ k Hs Ehi) as Hr.
      destruct (decide (key_lt k hi)).
      * assert (¬ chosen < route pivots k) by (intros ?%Hr; key_order).
        repeat case_decide; done || lia.
      * assert (chosen < route pivots k) by (apply Hr; by apply key_not_lt).
        repeat case_decide; done || lia.
    + rewrite -Hsz -(size_split_off batch hi). unfold bt_append.
      rewrite map_size_disj_union; [|unfold bt_split_off; cbn [fst snd]; lia].
      apply map_disjoint_spec. intros j x y.
      change (filter _ batch) with (bt_split_off batch hi).2.
      rewrite lookup_split_off_tail Hkept Hbatch. repeat case_decide; done.
  - eexists _, _. split; [done|]. apply lookup_ge_None in Ehi.
    split_and!; [| |done]; intros k; rewrite ?Hkept ?Hbatch;
      pose proof (route_le pivots k); repeat case_decide; done || lia.
Qed.

(** ** Occupancies *)
Definition occupancy (pivots : list Key) (l : list (Key * Message)) (i : nat) : nat :=
  length (filter (λ kv, route pivots kv.1 = i) l).

Lemma occupancy_snoc pivots l k m i :
  occupancy pivots (l ++ [(k, m)]) i =
  if decide (route pivots k = i) then S (occupancy pivots l i) else occupancy pivots l i.
Proof.
  unfold occupancy. rewrite filter_app length_app. case_decide as Hk.
  - rewrite filter_cons_True //= Nat.add_1_r //.
  - rewrite filter_cons_False //= Nat.add_0_r //.
Qed.

Definition occupancy_bytes (pivots : list Key) (l : list (Key * Message)) (i : nat) : Z :=
  foldr (λ kv, Z.add (entry_bytes kv.1 kv.2)) 0%Z (filter (λ kv, route pivots kv.1 = i) l).

Lemma occupancy_bytes_snoc pivots l k m i :
  occupancy_bytes pivots (l ++ [(k, m)]) i =
  if decide (route pivots k = i) then (entry_bytes k m + occupancy_bytes pivots l i)%Z
  else occupancy_bytes pivots l i.
Proof.
  unfold occupancy_bytes. rewrite filter_app. case_decide as Hk.
  - rewrite filter_cons_True // filter_nil foldr_app.
    induction (filter _ l) as [|x l' IH]; cbn [foldr fst snd]; [done|]. rewrite IH. lia.
  - rewrite filter_cons_False // filter_nil app_nil_r. done.
Qed.

Lemma sum_list_alter_S l i : i < length l → sum_list (alter S i l) = S (sum_list l).
Proof.
  revert i. induction l as [|n l IH]; intros [|i] Hi; simpl in *; try lia.
  change (list_alter S i l) with (alter S i l). rewrite IH; lia.
Qed.

Lemma occupancies_of_Ok (pivots : list Key) (children : list NodeId) (buffer : BTreeMap Message) :
  length children = S (length pivots) →
  ∃ occ bytes, occupancies_of pivots children buffer = Ok (occ, bytes) ∧
    length occ = length children ∧ length bytes = length children ∧ sum_list occ = size buffer ∧
    ∀ i, i < length children → occ !! i = Some (occupancy pivots (bt_iter buffer) i) ∧
      bytes !! i = Some (occupancy_bytes pivots (bt_iter buffer) i).
Proof.
  intros Hl. unfold occupancies_of.
  destruct (ofold_inv (λ l1 '(occ, bytes), length occ = length children ∧
      length bytes = length children ∧ sum_list occ = length l1 ∧
      ∀ i, i < length children → occ !! i = Some (occupancy pivots l1 i) ∧
        bytes !! i = Some (occupancy_bytes pivots l1 i))
    (λ '(occupancies, pending_bytes) '(key, message),
      let child := route pivots key in
      occupancies ← vec_update child S occupancies;
      pending_bytes ← vec_update child (Z.add (entry_bytes key message)) pending_bytes;
      mret (occupancies, pending_bytes))
    (replicate (length children) 0, replicate (length children) 0%Z) (bt_iter buffer))
    as ([occ bytes] & E & Hlo & Hlb & Hsum & Ho).
  - rewrite !length_replicate. split_and!; [done..| |].
    + simpl. generalize (length children) as n. induction n as [|n IH]; [done|]. simpl. exact IH.
    + intros i Hi. split; by apply lookup_replicate_2.
  - intros l1 [k m] l2 [occ bytes] _ (Hlo & Hlb & Hsum & Ho). pose proof (route_le pivots k).
    cbv zeta. rewrite vec_update_Ok; [lia|]. cbn [mbind outcome_bind].
    rewrite vec_update_Ok; [lia|]. cbn [mbind outcome_bind mret outcome_ret].
    eexists; split; [done|]. cbn beta iota. rewrite !length_alter. split_and!; [done..| |].
    + rewrite sum_list_alter_S; [lia|]. rewrite length_app /=. lia.
    + intros i Hi. rewrite occupancy_snoc occupancy_bytes_snoc. destruct (Ho i Hi) as [Ho1 Ho2].
      case_decide as Hk.
      * by rewrite Hk !list_lookup_alter_eq Ho1 Ho2.
      * by rewrite !list_lookup_alter_ne.
  - exists occ, bytes. split_and!; [done..| |done]. by rewrite Hsum length_bt_iter.
Qed.

Lemma occupancy_pos (pivots : list Key) (buffer : BTreeMap Message) (i : nat) :
  0 < occupancy pivots (bt_iter buffer) i ↔ ∃ k m, buffer !! k = Some m ∧ route pivots k = i.
Proof.
  unfold occupancy. split.
  - destruct (filter _ _) as [|[k m] l] eqn:E; simpl; [lia|]. intros _.
    assert ((k, m) ∈ filter (λ kv, route pivots kv.1 = i) (bt_iter buffer)) as Hin by (rewrite E; left).
    apply list_elem_of_filter in Hin as [Hr Hin%elem_of_bt_iter]. eauto.
  - intros (k & m & Hk & Hr).
    assert ((k, m) ∈ filter (λ kv, route pivots kv.1 = i) (bt_iter buffer)) as Hin.
    { apply list_elem_of_filter. split; [done|]. by apply elem_of_bt_iter. }
    destruct (filter _ _); [set_solver|simpl; lia].
Qed.

Lemma mapM_expect_Ok {A} (d : list A) (l : list nat) :
  Forall (λ c, is_Some (d !! c)) l → ∃ r, mapM (λ c, expect (d !! c)) l = Ok r.
Proof.
  induction 1 as [|c l [x Hx] _ [r IH]]; simpl; [by eexists|].
  rewrite Hx IH /=. by eexists.
Qed.

(** ** The tree after a delivery *)
Definition delivered (c : tree) (batch : BTreeMap Message) (c1 : tree) : Prop :=
  match c, c1 with
  | TLeaf i e, TLeaf i' e' => i' = i ∧ ∀ k, e' !! k = deliver_leaf e batch k
  | TInt i ps ks b, TInt i' ps' ks' b' =>
      i' = i ∧ ps' = ps ∧ ks' = ks ∧ ∀ k, b' !! k = deliver_buffer b batch k
  | _, _ => False
  end.

Section delivered.
Context (c : tree) (batch : BTreeMap Message) (c1 : tree) (Hd : delivered c batch c1).

Lemma delivered_view k : vrefines (view c1 k) (vpush (batch !! k) (view c k)).
Proof using Hd.
  destruct c as [i e|i ps ks b], c1 as [i' e'|i' ps' ks' b']; try done; simpl in Hd.
  - destruct Hd as (_ & He). simpl. rewrite He /deliver_leaf.
    destruct (batch !! k); [apply leaf_result_refines|reflexivity].
  - destruct Hd as (_ & -> & -> & Hb). rewrite !view_TInt Hb /deliver_buffer.
    destruct (batch !! k); [apply buffer_result_refines|by rewrite vpush_None].
Qed.

Lemma delivered_ids : label c1 = label c ∧ ids c1 = ids c.
Proof using Hd.
  destruct c as [i e|i ps ks b], c1 as [i' e'|i' ps' ks' b']; try done; simpl in Hd.
  - by destruct Hd as (-> & _).
  - by destruct Hd as (-> & -> & -> & _).
Qed.

Lemma delivered_weight : weight c1 ≤ weight c + size batch.
Proof using Hd.
  destruct c as [i e|i ps ks b], c1 as [i' e'|i' ps' ks' b']; try done; simpl in *.
  - destruct Hd as (_ & He). by apply size_deliver_leaf.
  - destruct Hd as (_ & _ & -> & Hb). apply size_deliver_buffer in Hb. lia.
Qed.

Lemma delivered_msgs : msgs c1 ≤ msgs c + size batch.
Proof using Hd.
  destruct c as [i e|i ps ks b], c1 as [i' e'|i' ps' ks' b']; try done; simpl in *; [lia|].
  destruct Hd as (_ & _ & -> & Hb). apply size_deliver_buffer in Hb. lia.
Qed.

Lemma delivered_phi h : phi h c1 ≤ phi h c + h * size batch.
Proof using Hd.
  destruct c as [i e|i ps ks b], c1 as [i' e'|i' ps' ks' b']; try done; simpl in *; [lia|].
  destruct Hd as (_ & _ & -> & Hb). apply size_deliver_buffer in Hb. nia.
Qed.
End delivered.

Section helpers.
Context {P : Type} `{LawfulPolicy P}.
Implicit Types (s : BeTree P) (t c : tree).

(** ** [pick_and_extract] *)
Lemma pick_and_extract_spec id depth (mode : bool) (ps : list Key) (chs : list NodeId)
    (b : BTreeMap Message) s :
  wf_dirty s → arena s id = Some (Internal ps chs b) → length chs = S (length ps) →
  StronglySorted key_lt ps → b ≠ ∅ → Forall (λ ch, ch < length (nodes s)) chs →
  wp (pick_and_extract id depth mode) (λ '(chosen, child_id, occ, batch) s', ∃ kept,
    chs !! chosen = Some child_id ∧
    (∀ k, kept !! k = if decide (route ps k = chosen) then None else b !! k) ∧
    (∀ k, batch !! k = if decide (route ps k = chosen) then b !! k else None) ∧
    size kept + size batch = size b ∧ 1 ≤ size batch ∧
    evolves [id] s s' ∧ arena s' id = Some (Internal ps chs kept)) s.
Proof using Type*.
  intros Hd Hid Hl Hs Hne Hch.
  assert (id < length (nodes s)) as Hlt by (apply arena_lt; eauto).
  apply wp_bind. eapply wp_node; [exact Hid|]. apply wp_bind, wp_get.
  destruct (occupancies_of_Ok ps chs b Hl) as (occ & bytes & Eo & Hlo & _ & _ & Ho).
  apply wp_bind. eapply wp_lift; [exact Eo|].
  assert (Exists (λ n, 0 < n) occ) as Hex.
  { apply map_choose in Hne as (k & m & Hk). pose proof (route_le ps k).
    apply Exists_exists. exists (occupancy ps (bt_iter b) (route ps k)). split.
    - apply (list_elem_of_lookup_2 _ (route ps k)). apply Ho. lia.
    - apply occupancy_pos. eauto. }
  (* the choice, by the policy or by the greedy rule *)
  apply wp_bind. eapply (wp_mono _ (λ chosen s1, (∃ n, occ !! chosen = Some n ∧ 0 < n) ∧
    evolves [] s s1 ∧ nodes s1 = nodes s ∧ dirty s1 = dirty s)).
  { destruct mode.
    - apply wp_bind. destruct (mapM_expect_Ok (dirty s) chs) as [cd Ecd].
      { eapply Forall_impl; [exact Hch|]. intros ch Hc. apply lookup_lt_is_Some.
        simpl in Hc. by rewrite Hd. }
      eapply wp_lift; [exact Ecd|]. cbv zeta.
      edestruct (choose_lawful (policy s)) as (i & p' & n & Ec & Hi & Hn);
        [|apply wp_bind; eapply wp_lift; [exact Ec|]].
      { exact Hex. }
      apply wp_bind, wp_modify, wp_ret. simpl in Hi.
      split_and!; [eauto|apply evolves_set_policy|done|done].
    - destruct (pick_fullest occ) as (i & Ei & n & Hi & Hmax).
      { intros ->. inversion Hex. }
      eapply wp_lift; [exact Ei|]. split_and!; [|apply evolves_refl|done|done].
      exists n. split; [done|]. apply Exists_exists in Hex as (m & Hm & Hpos).
      apply list_elem_of_lookup in Hm as [j Hj]. destruct (Hmax j m Hj). lia. }
  intros chosen s1 ((n & Hn & Hpos) & Hev1 & En1 & Ed1).
  apply wp_bind, wp_assert; [by rewrite Hn (proj2 (Nat.ltb_lt _ _) Hpos)|].
  assert (chosen < length chs) as Hc by (rewrite -Hlo; by eapply lookup_lt_Some).
  apply wp_bind, wp_mark_dirty; [by rewrite /wf_dirty En1 Ed1|by rewrite En1|].
  intros ds Hds.
  destruct (extract_batch_Ok ps b chosen Hs ltac:(lia)) as (kept & batch & Ee & Hk & Hb & Hsz).
  apply wp_bind. eapply wp_lift; [exact Ee|]. apply wp_bind, wp_put_node.
  destruct (lookup_lt_is_Some_2 chs chosen Hc) as [child Hchild].
  apply wp_bind. eapply wp_lift; [by apply expect_Ok|]. apply wp_ret.
  exists kept. split_and!; [done..| | |].
  - rewrite (proj1 (Ho _ Hc)) in Hn. injection Hn as <-. apply occupancy_pos in Hpos as (k & m & Hkm & Hr).
    destruct (decide (batch = ∅)) as [->|Hne'].
    + specialize (Hb k). by rewrite lookup_empty decide_True // Hkm in Hb.
    + apply map_size_non_empty_iff in Hne'. lia.
  - eapply evolves_trans; [|exact (evolves_put_node id _ (set_dirty ds s1))|set_solver].
    eapply (evolves_trans _ []); [|by apply evolves_set_dirty|set_solver].
    eapply evolves_weaken; [exact Hev1|set_solver].
  - rewrite arena_put_node; [|by rewrite decide_True]. simpl. by rewrite En1.
Qed.

End helpers.

Section helpers2.
Context {P : Type}.
Implicit Types (s : BeTree P) (t c : tree).

(** ** [apply_batch] *)
Lemma apply_batch_spec c batch (thr : nat) s :
  wf_dirty s → repr (arena s) c → NoDup (ids c) →
  (∀ k m, batch !! k = Some m → vbelow (Message_seq m) (view c k)) →
  wp (apply_batch (label c) batch thr) (λ d s', ∃ c1, delivered c batch c1 ∧
    repr (arena s') c1 ∧ evolves [label c] s s' ∧
    d = match c1 with
        | TLeaf _ e => DLeaf (bt_is_empty e)
        | TInt _ _ _ b => DInternal (thr <? size b)
        end) s.
Proof.
  intros Hd Hr Hnd Hfresh.
  pose proof (repr_label _ _ Hr) as Hid.
  assert (label c < length (nodes s)) as Hlt by (apply arena_lt; eauto).
  apply wp_bind, wp_mark_dirty; [done..|]. intros ds Hds.
  apply wp_bind. eapply wp_node; [exact Hid|].
  assert (∀ n, evolves [label c] s (set_nodes (<[label c:=n]> (nodes (set_dirty ds s))) (set_dirty ds s))) as Hev.
  { intros n. eapply evolves_trans; [|exact (evolves_put_node _ _ (set_dirty ds s))|set_solver].
    eapply evolves_weaken; [by apply evolves_set_dirty|set_solver]. }
  destruct c as [i e|i ps ks b]; cbn [node_of label] in *.
  - destruct (apply_leaf_batch e batch) as (e' & Ee & He').
    { intros k m x Hk Hx. specialize (Hfresh k m Hk). simpl in Hfresh. rewrite Hx in Hfresh.
      by inversion Hfresh. }
    apply wp_bind. eapply wp_lift; [exact Ee|]. apply wp_bind, wp_put_node, wp_ret.
    exists (TLeaf i e'). split_and!; [done| |apply Hev|done].
    apply repr_TLeaf. rewrite arena_put_node //. by rewrite decide_True.
  - destruct (apply_buffer_batch b batch) as (b' & Eb & Hb').
    { intros k m x Hk Hx. specialize (Hfresh k m Hk). rewrite view_TInt Hx in Hfresh.
      by apply vbelow_vpush in Hfresh as [? _]. }
    apply wp_bind. eapply wp_lift; [exact Eb|]. apply wp_bind, wp_put_node, wp_ret.
    exists (TInt i ps ks b'). split_and!; [done| |apply Hev|done].
    apply repr_TInt. split.
    + rewrite arena_put_node //. by rewrite decide_True.
    + apply repr_TInt in Hr as [_ Hks]. eapply evolves_forest_repr; [apply Hev|done|].
      rewrite ids_TInt in Hnd. inversion Hnd; set_solver.
Qed.

(** ** Splits of any node *)
Lemma split_if_needed_spec prm h lo hi t s :
  legal_params prm = true → params s = prm → wf_dirty s → splittable prm h lo hi t →
  repr (arena s) t → NoDup (ids t) →
  split_spec (split_if_needed (label t)) prm h lo hi t s.
Proof.
  intros Hlegal Hprm Hd Hsp Hr Hnd. pose proof (repr_label _ _ Hr) as Hid.
  pose proof Hlegal as (HF & HB & HL)%legal_params_spec.
  apply wp_bind. eapply wp_node; [exact Hid|]. apply wp_bind, wp_get. rewrite Hprm.
  destruct h as [|h], t as [i e|i ps ks b]; try done; cbn [node_of label].
  - destruct Hsp as [Hk Hsz]. unfold bt_len. destruct (_ <? _) eqn:E.
    + apply Nat.ltb_lt in E. by apply split_leaf_spec.
    + apply Nat.ltb_ge in E. apply wp_ret. eexists _, _, _. by apply split_into_refl.
  - rewrite length_map. destruct (_ <? _) eqn:E.
    + apply Nat.ltb_lt in E. by apply split_internal_spec.
    + apply Nat.ltb_ge in E. apply wp_ret. eexists _, _, _. apply split_into_refl; [|done..].
      destruct Hsp as (? & ? & ?). by split_and!.
Qed.

(** ** What the parent does with an outcome *)
Definition outcome_is (id : NodeId) (qs : list Key) (cs : list tree) (out : Outcome) : Prop :=
  match cs with
  | [] => out = Removed
  | c0 :: _ => out = Splits (promoted_of qs cs) ∧ label c0 = id
  end.

Definition parent_updated id ps (ks : list tree) b i qs cs s s' : Prop :=
  evolves [id] s s' ∧
  arena s' id = Some (Internal (replace_pivots i qs cs ps) (map label (replace_kids i cs ks)) b).

Lemma integrate_splits_spec id prm h lo hi ps ks b i c qs c0 cs s :
  wf_dirty s → arena s id = Some (Internal ps (map label ks) b) →
  kids_ok (good prm h) lo hi ps ks → ks !! i = Some c → label c0 = label c →
  kids_ok (good prm h) (child_lower lo ps i) (child_upper hi ps i) qs (c0 :: cs) →
  wp (integrate_splits id (promoted_of qs (c0 :: cs)))
    (λ _ s', parent_updated id ps ks b i qs (c0 :: cs) s s') s.
Proof.
  intros Hd Hid Hks Hi Hlab Hcs.
  assert (id < length (nodes s)) as Hlt by (apply arena_lt; eauto).
  pose proof (kids_ok_subst _ _ _ _ _ _ _ _ _ Hks Hi Hcs) as Hnew.
  pose proof (kids_ok_length _ _ _ _ _ Hks) as Hl. pose proof (lookup_lt_Some _ _ _ Hi) as Hil.
  pose proof (kids_ok_length _ _ _ _ _ Hcs) as Hlc. simpl in Hlc. injection Hlc as Hlc.
  assert (map label (replace_kids i (c0 :: cs) ks) =
    take (S i) (map label ks) ++ map label cs ++ drop (S i) (map label ks)) as Elab.
  { unfold replace_kids. rewrite !map_app /= Hlab firstn_map skipn_map.
    rewrite (take_S_r ks i c Hi) map_app -app_assoc //. }
  unfold promoted_of, integrate_splits. cbn [tail].
  destruct (zip qs (map label cs)) as [|[q x] pr] eqn:Ez.
  - apply wp_ret. split; [apply evolves_refl|]. rewrite Elab.
    destruct qs as [|q qs]; [|destruct cs; done]. destruct cs; [|done].
    simpl. by rewrite !take_drop.
  - rewrite -Ez. apply wp_bind, wp_mark_dirty; [done..|]. intros ds Hds.
    apply wp_bind. eapply wp_node; [exact Hid|].
    assert (insert_promoted (zip qs (map label cs)) (ps, map label ks) =
      Ok (take i ps ++ qs ++ drop i ps, map label (replace_kids i (c0 :: cs) ks))) as Eins.
    { rewrite Elab. rewrite -{1}(take_drop i ps) -{1}(take_drop (S i) (map label ks)).
      rewrite insert_promoted_Ok.
      - rewrite fst_zip; [rewrite length_map; lia|]. by apply kids_ok_sorted in Hnew.
      - rewrite !length_take length_map. lia.
      - rewrite fst_zip; [rewrite length_map; lia|]. rewrite snd_zip; [rewrite length_map; lia|done]. }
    apply wp_bind. eapply wp_lift; [exact Eins|]. apply wp_put_node. split.
    + eapply evolves_trans; [|exact (evolves_put_node _ _ (set_dirty ds s))|set_solver].
      eapply evolves_weaken; [by apply evolves_set_dirty|set_solver].
    + rewrite arena_put_node //. by rewrite decide_True.
Qed.

Lemma remove_child_spec id prm h lo hi ps ks b i c s :
  wf_dirty s → arena s id = Some (Internal ps (map label ks) b) →
  kids_ok (good prm h) lo hi ps ks → ks !! i = Some c → NoDup (map label ks) →
  wp (remove_child id (label c)) (λ _ s', parent_updated id ps ks b i [] [] s s') s.
Proof.
  intros Hd Hid Hks Hi Hnd.
  assert (id < length (nodes s)) as Hlt by (apply arena_lt; eauto).
  pose proof (kids_ok_length _ _ _ _ _ Hks) as Hl. pose proof (lookup_lt_Some _ _ _ Hi) as Hil.
  apply wp_bind, wp_mark_dirty; [done..|]. intros ds Hds.
  apply wp_bind. eapply wp_node; [exact Hid|].
  assert (position (label c) (map label ks) = Some i) as Hpos.
  { unfold position. rewrite (_ : list_find _ _ = Some (i, label c)) //.
    apply list_find_Some. split_and!; [by rewrite list_lookup_fmap Hi|done|].
    intros j y Hj Hlt' ->. assert (j = i); [|lia].
    eapply (NoDup_lookup (map label ks)); [done|exact Hj|]. by rewrite list_lookup_fmap Hi. }
  apply wp_bind. eapply wp_lift; [by apply expect_Ok|].
  apply wp_bind. eapply wp_lift; [apply vec_remove_Ok; by rewrite length_map|].
  assert ((if 0 <? i then vec_remove (i - 1) ps
           else match ps with [] => mret ps | _ => vec_remove 0 ps end) =
          Ok (remove_pivot i ps)) as Epiv.
  { destruct i as [|i]; [by destruct ps|]. cbn [Nat.ltb Nat.leb remove_pivot].
    rewrite Nat.sub_succ Nat.sub_0_r. apply vec_remove_Ok. lia. }
  apply wp_bind. eapply wp_lift; [exact Epiv|]. apply wp_put_node. split.
  - eapply evolves_trans; [|exact (evolves_put_node _ _ (set_dirty ds s))|set_solver].
    eapply evolves_weaken; [by apply evolves_set_dirty|set_solver].
  - rewrite arena_put_node //. rewrite decide_True //. do 2 f_equal.
    rewrite replace_kids_nil !delete_take_drop map_app firstn_map skipn_map //.
Qed.
End helpers2.
