(* ===== verification/Flush.v ===== *)
(** * The flush cascade

    Total correctness of [flush_with]: from any freshness-respecting state
    the loop terminates within its fuel, never panics, keeps the view of
    every key, and leaves a tree within its capacities (or, when it drains,
    without messages). *)

From S2P Require Export Deliver.
From stdpp Require Import options.
From Stdlib Require Import ZArith.

(** ** Fuel *)
Section fuel.
Context {P : Type}.
Implicit Types (s : BeTree P) (t : tree).

Definition tree_cost t : nat := sum_list_with (node_cost ∘ snd) (nodes_of t).

Lemma sum_list_with_submseteq {A} (f : A → nat) l1 l2 :
  l1 ⊆+ l2 → sum_list_with f l1 ≤ sum_list_with f l2.
Proof. induction 1; simpl; lia. Qed.

Lemma sum_list_with_fmap {A B} (g : A → B) (f : B → nat) l :
  sum_list_with f (g <$> l) = sum_list_with (f ∘ g) l.
Proof. induction l as [|x l IH]; [done|]. simpl. by rewrite IH. Qed.

Lemma sum_list_with_seq (f : nat → nat) {A} (g : A → nat) (l : list A) :
  (∀ i x, l !! i = Some x → f i = g x) → sum_list_with f (seq 0 (length l)) = sum_list_with g l.
Proof.
  revert f. induction l as [|x l IH]; intros f Hf; simpl; [done|].
  rewrite (Hf 0 x) // -fmap_S_seq sum_list_with_fmap (IH (f ∘ S)) //.
  intros i y Hi. by apply (Hf (S i)).
Qed.

(** The nodes of a represented forest are nodes of the arena. *)
Lemma nodes_sum (g : Node → nat) s (l : list (NodeId * Node)) :
  NoDup l.*1 → Forall (λ '(i, n), arena s i = Some n) l →
  sum_list_with (g ∘ snd) l ≤ sum_list_with g (nodes s).
Proof.
  intros Hnd Hl. set (f i := match nodes s !! i with Some n => g n | None => 0 end).
  assert (sum_list_with (g ∘ snd) l = sum_list_with f l.*1) as ->.
  { clear Hnd. induction Hl as [|[i n] l Hi Hl IH]; simpl; [done|]. rewrite IH. unfold f at 2.
    unfold arena in Hi. by rewrite Hi. }
  rewrite -(sum_list_with_seq f g).
  - intros i x Hi. unfold f. by rewrite Hi.
  - apply sum_list_with_submseteq, NoDup_submseteq; [done|]. intros i Hi.
    apply list_elem_of_fmap in Hi as ([j n] & -> & Hi).
    rewrite Forall_forall in Hl. specialize (Hl _ Hi). simpl in Hl.
    apply elem_of_seq. split; [lia|]. apply lookup_lt_Some in Hl. simpl. lia.
Qed.

Lemma tree_cost_le s t : repr (arena s) t → NoDup (ids t) → tree_cost t ≤ arena_cost (nodes s).
Proof. intros. by apply nodes_sum. Qed.

Lemma tree_cost_TInt id ps ks b :
  tree_cost (TInt id ps ks b) = 1 + length ks + size b + sum_list_with tree_cost ks.
Proof.
  assert (sum_list_with (node_cost ∘ snd) (flat_map nodes_of ks) = sum_list_with tree_cost ks) as E.
  { induction ks as [|c ks IH]; simpl; [done|]. by rewrite sum_list_with_app IH. }
  unfold tree_cost at 1. simpl. rewrite length_map E. lia.
Qed.

Lemma weight_le_cost t : weight t ≤ tree_cost t.
Proof.
  induction t as [id e|id ps ks b IH] using tree_nested_ind; [unfold tree_cost; simpl; lia|].
  rewrite tree_cost_TInt. cbn [weight]. apply sum_list_with_le in IH. lia.
Qed.

Lemma length_ids_le_cost t : length (ids t) ≤ tree_cost t.
Proof.
  unfold ids, tree_cost. rewrite length_fmap. apply sum_list_with_ge_1.
  apply Forall_true. intros [i []]; simpl; lia.
Qed.

Lemma good_height_cost prm h lo hi t : good prm h lo hi t → S h ≤ tree_cost t.
Proof.
  revert lo hi t. induction h as [|h IH]; intros lo hi [id e|id ps ks b] Hg; try done.
  - unfold tree_cost. simpl. lia.
  - destruct Hg as (_ & _ & _ & Hks). rewrite tree_cost_TInt.
    inversion Hks as [? ? c Hc|? ? ? ? c cs ? ? Hc]; subst; apply IH in Hc; simpl; lia.
Qed.

Lemma fuel_ge s n : n ≤ 256 * (arena_cost (nodes s) + 1) ^ 4 → n ≤ 2 ^ fuel s.
Proof. intros Hn. apply pow_size_ge. by rewrite Nat2N.id. Qed.

Lemma fuel_linear s n : n ≤ 256 * (arena_cost (nodes s) + 1) → n ≤ 2 ^ fuel s.
Proof.
  intros Hn. apply fuel_ge. change 4 with (1 + 3). rewrite Nat.pow_add_r Nat.pow_1_r.
  pose proof (Nat.pow_nonzero (arena_cost (nodes s) + 1) 3). nia.
Qed.

Lemma ids_fuel t s : repr (arena s) t → NoDup (ids t) → length (ids t) < 2 ^ fuel s.
Proof.
  intros Hr Hnd. pose proof (length_ids_le_cost t). pose proof (tree_cost_le s t Hr Hnd).
  enough (S (length (ids t)) ≤ 2 ^ fuel s) by lia. apply fuel_linear. lia.
Qed.
End fuel.

(** ** The drain probe *)
Section probe.
Context {P : Type}.
Implicit Types (s : BeTree P) (t c : tree).

Lemma forest_cost_cons c ks :
  sum_list_with (λ c, length (ids c)) (c :: ks) = length (ids c) + sum_list_with (λ c, length (ids c)) ks.
Proof. done. Qed.

Lemma length_ids_TInt id ps ks b :
  length (ids (TInt id ps ks b)) = S (sum_list_with (λ c, length (ids c)) ks).
Proof.
  rewrite ids_TInt /=. f_equal. induction ks as [|c ks IH]; [done|].
  by rewrite forest_ids_cons length_app IH.
Qed.

Lemma sum_list_with_rev {A} (f : A → nat) l : sum_list_with f (rev l) = sum_list_with f l.
Proof.
  induction l as [|x l IH]; [done|]. simpl. rewrite sum_list_with_app IH. simpl. lia.
Qed.

Lemma forest_repr_rev f ks : forest_repr f ks → forest_repr f (rev ks).
Proof.
  induction ks as [|c ks IH]; [done|]. rewrite forest_repr_cons. intros [Hc Hks]. simpl.
  apply forest_repr_app. split; [by apply IH|]. apply forest_repr_cons.
  split; [done|apply forest_repr_nil].
Qed.

Lemma subtree_has_messages_spec t s :
  repr (arena s) t → length (ids t) < 2 ^ fuel s →
  wp (subtree_has_messages (label t)) (λ b s', s' = s ∧ b = bool_decide (0 < msgs t)) s.
Proof.
  intros Hr Hf.
  apply (wp_loopM _ _ (λ n stack s', s' = s ∧ ∃ ts, stack = map label ts ∧
    forest_repr (arena s) ts ∧ n = sum_list_with (λ c, length (ids c)) ts ∧
    (0 < msgs t ↔ 0 < sum_list_with msgs ts)) _ (length (ids t))); [|split; [done|]|done].
  2:{ exists [t]. split_and!; [done| |simpl; lia|simpl; lia].
      apply forest_repr_cons. split; [done|apply forest_repr_nil]. }
  intros n stack s' (-> & ts & -> & Hts & -> & Hm). destruct ts as [|c ts]; cbn [map].
  { apply wp_ret. split; [done|]. symmetry. apply bool_decide_eq_false. simpl in Hm. lia. }
  apply forest_repr_cons in Hts as [Hc Hts].
  apply wp_bind. eapply wp_node; [by apply repr_label|].
  destruct c as [id e|id ps ks b]; cbn [node_of].
  - apply wp_ret. eexists. split; [|split; [done|exists ts; split_and!; [done..|exact Hm]]].
    rewrite forest_cost_cons. simpl. lia.
  - apply repr_TInt in Hc as [_ Hks]. destruct (bt_is_empty b) eqn:E.
    + apply bt_is_empty_true in E as ->. apply wp_ret.
      exists (sum_list_with (λ c, length (ids c)) (rev ks ++ ts)). split.
      { rewrite forest_cost_cons length_ids_TInt sum_list_with_app sum_list_with_rev. lia. }
      split; [done|]. exists (rev ks ++ ts). split_and!; [by rewrite map_app map_rev| |done|].
      * apply forest_repr_app. split; [by apply forest_repr_rev|done].
      * rewrite Hm sum_list_with_app sum_list_with_rev. simpl. by rewrite map_size_empty.
    + apply wp_ret. split; [done|]. symmetry. apply bool_decide_eq_true. apply Hm. simpl.
      assert (size b ≠ 0); [|lia]. intros Hb%map_size_empty_inv. subst b. done.
Qed.

Lemma find_buffered_child_spec ks s :
  forest_repr (arena s) ks → Forall (λ c, length (ids c) < 2 ^ fuel s) ks →
  wp (find_buffered_child (map label ks)) (λ r s', s' = s ∧ match r with
    | Some x => ∃ i c, ks !! i = Some c ∧ x = label c ∧ 0 < msgs c
    | None => sum_list_with msgs ks = 0
    end) s.
Proof.
  induction ks as [|c ks IH]; intros Hr Hf; cbn [map find_buffered_child].
  { by apply wp_ret. }
  apply forest_repr_cons in Hr as [Hc Hr]. apply Forall_cons in Hf as [Hfc Hf].
  apply wp_bind. eapply wp_mono; [by apply subtree_has_messages_spec|].
  intros b s' (-> & ->). case_bool_decide as Hm.
  - apply wp_ret. split; [done|]. by exists 0, c.
  - eapply wp_mono; [by apply IH|]. intros [x|] s' (-> & Hx); (split; [done|]).
    + destruct Hx as (i & c' & Hi & -> & Hm'). by exists (S i), c'.
    + simpl. lia.
Qed.
End probe.

(** ** Progress of a node that is being flushed *)
Section moves.
Context {P : Type} (prm : Params).
Implicit Types (s : BeTree P) (t c : tree).

(** The flushed subtree went from [t] to [t'] while the engine went from
    [s] to [s']. *)
Record moves (h : nat) (lo hi : option Key) t s t' s' : Prop := mkMoves {
  mv_label : label t' = label t;
  mv_loose : loose prm h lo hi t';
  mv_view k : in_range k lo hi = true → vrefines (view t' k) (view t k);
  mv_repr : repr (arena s') t';
  mv_NoDup : NoDup (ids t');
  mv_ids i : i ∈ ids t' → i ∈ ids t ∨ length (nodes s) ≤ i;
  mv_evolves : evolves (ids t) s s';
  mv_weight : weight t' ≤ weight t;
  mv_msgs : msgs t' ≤ msgs t;
  mv_phi : phi (S h) t' ≤ phi (S h) t;
}.

Lemma moves_refl h lo hi t s :
  loose prm h lo hi t → repr (arena s) t → NoDup (ids t) → moves h lo hi t s t s.
Proof. intros. constructor; auto using evolves_refl. intros k _. reflexivity. Qed.

Lemma moves_trans h lo hi t1 s1 t2 s2 t3 s3 :
  moves h lo hi t1 s1 t2 s2 → moves h lo hi t2 s2 t3 s3 → moves h lo hi t1 s1 t3 s3.
Proof.
  intros [] []. assert (∀ i, i ∈ ids t2 → i ∈ ids t1 ∨ length (nodes s1) ≤ i) by done.
  pose proof (ev_length _ _ _ mv_evolves0). constructor; try done.
  - congruence.
  - intros k Hk. etrans; [by apply mv_view1|by apply mv_view0].
  - intros i Hi. destruct (mv_ids1 i Hi) as [?|?]; [by apply mv_ids0|right; lia].
  - by eapply evolves_trans.
  - lia.
  - lia.
  - lia.
Qed.

Lemma disjoint_siblings (l1 l2 l3 : list NodeId) id :
  id ∉ l1 ++ l2 ++ l3 → NoDup (l1 ++ l2 ++ l3) →
  (∀ x, x ∈ l1 → x ∉ id :: l2) ∧ (∀ x, x ∈ l3 → x ∉ id :: l2).
Proof. rewrite !NoDup_app. set_solver. Qed.

(** A removed child, and the child of a settled node. *)
Lemma becomes_removed h lo hi t s :
  (∀ k, in_range k lo hi = true → view t k = vempty) → becomes prm h lo hi t s [] [] s.
Proof.
  intros Hv. constructor; simpl; try lia.
  - by left.
  - intros k Hk. rewrite Hv //.
  - apply forest_repr_nil.
  - constructor.
  - intros i Hi. inversion Hi.
  - apply evolves_refl.
Qed.

(** Progress followed by a settlement. *)
Lemma moves_becomes h lo hi t1 s1 t2 s2 ps cs s3 :
  moves h lo hi t1 s1 t2 s2 → becomes prm (S h) lo hi t2 s2 ps cs s3 →
  becomes prm (S h) lo hi t1 s1 ps cs s3.
Proof.
  intros [] []. pose proof (ev_length _ _ _ mv_evolves0). constructor; try done.
  - intros k Hk. etrans; [by apply bc_view|by apply mv_view0].
  - intros i Hi. destruct (bc_ids i Hi) as [?|?]; [by apply mv_ids0|right; lia].
  - by eapply evolves_trans.
  - lia.
  - lia.
  - lia.
Qed.

(** ** One child of a flushing node

    [pending]: node [id] handed [batch] to its child [c], which is [c1]
    by now; [kept] is what stayed in the buffer. *)
Record pending (h : nat) (lo hi : option Key) id ps (ks : list tree) (b : BTreeMap Message) s
    (i : nat) c (kept batch : BTreeMap Message) c1 s1 : Prop := mkPending {
  pd_kids : kids_ok (good prm h) lo hi ps ks;
  pd_child : ks !! i = Some c;
  pd_keys : keys_in lo hi b;
  pd_kept k : kept !! k = if decide (route ps k = i) then None else b !! k;
  pd_batch k : batch !! k = if decide (route ps k = i) then b !! k else None;
  pd_size : size kept + size batch = size b;
  pd_delivered : delivered c batch c1;
  pd_repr0 : repr (arena s) (TInt id ps ks b);
  pd_NoDup : NoDup (ids (TInt id ps ks b));
  pd_repr : repr (arena s1) c1;
  pd_node : arena s1 id = Some (Internal ps (map label ks) kept);
  pd_evolves : evolves (id :: ids c) s s1;
}.

Section pending.
Context {h : nat} {lo hi : option Key} {id : NodeId} {ps : list Key} {ks : list tree}
  {b : BTreeMap Message} {s : BeTree P} {i : nat} {c : tree} {kept batch : BTreeMap Message}
  {c1 : tree} {s1 : BeTree P} (Hpd : pending h lo hi id ps ks b s i c kept batch c1 s1).
Notation t := (TInt id ps ks b).

Lemma pending_NoDup : NoDup (ids c1) ∧ id ∉ ids c1 ∧ NoDup (forest_ids ks).
Proof using Hpd.
  pose proof (pd_NoDup _ _ _ _ _ _ _ _ _ _ _ _ _ _ Hpd) as Hnd. rewrite ids_TInt in Hnd.
  apply NoDup_cons in Hnd as [Hid Hnd].
  destruct (delivered_ids _ _ _ (pd_delivered _ _ _ _ _ _ _ _ _ _ _ _ _ _ Hpd)) as [_ ->].
  rewrite (forest_ids_split i c ks) in Hid Hnd |- *; [apply Hpd..|].
  split_and!; [|set_solver|done]. by apply NoDup_app in Hnd as (_ & _ & (? & _)%NoDup_app).
Qed.

Lemma pending_range k : in_range k lo hi = true → route ps k = i ↔
  in_range k (child_lower lo ps i) (child_upper hi ps i) = true.
Proof using Hpd.
  intros Hk. eapply route_child; [apply Hpd|done|]. eapply lookup_lt_Some, Hpd.
Qed.

Lemma child_range_in k :
  in_range k (child_lower lo ps i) (child_upper hi ps i) = true → in_range k lo hi = true.
Proof using Hpd.
  apply in_range_mono.
  - pose proof (pd_kids _ _ _ _ _ _ _ _ _ _ _ _ _ _ Hpd) as Hks.
    destruct i as [|j]; simpl; [apply lo_le_refl|].
    destruct (ps !! j) as [p|] eqn:Hp; [|].
    + apply above_lo_le. eapply kids_ok_pivot; [exact Hks|by eapply list_elem_of_lookup_2].
    + exfalso. apply lookup_ge_None in Hp. pose proof (kids_ok_length _ _ _ _ _ Hks).
      pose proof (lookup_lt_Some _ _ _ (pd_child _ _ _ _ _ _ _ _ _ _ _ _ _ _ Hpd)). lia.
  - pose proof (pd_kids _ _ _ _ _ _ _ _ _ _ _ _ _ _ Hpd) as Hks. unfold child_upper.
    destruct (ps !! i) as [p|] eqn:Hp; [|apply hi_le_refl].
    apply below_hi_le. eapply kids_ok_pivot; [exact Hks|by eapply list_elem_of_lookup_2].
Qed.

(** In the child's range the delivery refines the parent's view. *)
Lemma pending_view k :
  in_range k (child_lower lo ps i) (child_upper hi ps i) = true →
  vrefines (view c1 k) (view t k).
Proof using Hpd.
  intros Hk. pose proof (child_range_in k Hk) as Hk'.
  pose proof (proj2 (pending_range k Hk') Hk) as Hr.
  etrans; [eapply delivered_view, Hpd|]. rewrite view_TInt.
  rewrite (pd_batch _ _ _ _ _ _ _ _ _ _ _ _ _ _ Hpd) decide_True //.
  unfold kview. rewrite Hr (pd_child _ _ _ _ _ _ _ _ _ _ _ _ _ _ Hpd). reflexivity.
Qed.

Lemma pending_absorb s2 qs cs s3 :
  becomes prm h (child_lower lo ps i) (child_upper hi ps i) c1 s1 qs cs s2 →
  parent_updated id ps ks kept i qs cs s2 s3 →
  moves h lo hi t s (TInt id (replace_pivots i qs cs ps) (replace_kids i cs ks) kept) s3 ∧
  phi (S h) (TInt id (replace_pivots i qs cs ps) (replace_kids i cs ks) kept) +
    size batch + phi h c1 ≤ phi (S h) t + sum_list_with (phi h) cs.
Proof using Hpd.
  intros Hbc [Hev3 Hnode3]. destruct (pending_NoDup) as (Hnd1 & Hid1 & Hndk).
  pose proof (λ k, pending_range k) as Hrange. pose proof (λ k, pending_view k) as Hview.
  destruct Hpd as [Hks Hi Hkeys Hkept Hbatch Hsize Hdel Hr0 Hnd Hr1 Hn1 Hev1].
  destruct (delivered_ids _ _ _ Hdel) as [Hlab Hids]. rewrite Hids in Hnd1 Hid1.
  apply repr_TInt in Hr0 as [Hid0 Hkr0].
  assert (id < length (nodes s)) as Hidlt by (apply arena_lt; eauto).
  pose proof (ev_length _ _ _ Hev1) as Hl1.
  pose proof (ev_length _ _ _ (bc_evolves _ _ _ _ _ _ _ _ _ Hbc)) as Hl2.
  assert (∀ x, x ∈ forest_ids cs → x ∈ ids c ∨ length (nodes s) ≤ x) as Hcs_ids.
  { intros x Hx. destruct (bc_ids _ _ _ _ _ _ _ _ _ Hbc x Hx) as [?|?]; [left; congruence|right; lia]. }
  assert (evolves (id :: ids c) s s3) as Hev.
  { eapply evolves_trans; [|exact Hev3|set_solver].
    eapply evolves_trans; [exact Hev1|apply Hbc|]. rewrite Hids. set_solver. }
  rewrite ids_TInt (forest_ids_split _ _ _ Hi) in Hnd.
  apply NoDup_cons in Hnd as [Hidn Hnd].
  assert (∀ x, x ∈ forest_ids (take i ks) ++ ids c ++ forest_ids (drop (S i) ks) →
    x < length (nodes s)) as Hlt.
  { intros x. rewrite -(forest_ids_split _ _ _ Hi). by apply forest_ids_lt. }
  assert (NoDup (forest_ids (replace_kids i cs ks))) as Hnd'.
  { rewrite forest_ids_replace. eapply NoDup_replace; [exact Hnd|exact Hlt|apply Hbc|done]. }
  assert (id ∉ forest_ids (replace_kids i cs ks)) as Hid'.
  { rewrite forest_ids_replace. intros Hin. assert (id ∈ forest_ids cs) as Hin' by (clear -Hin Hidn; set_solver).
    destruct (Hcs_ids _ Hin') as [?|?]; [done|lia]. }
  pose proof (replace_kids_sum weight i c cs ks Hi) as Hw.
  pose proof (replace_kids_sum msgs i c cs ks Hi) as Hm.
  pose proof (replace_kids_sum (phi h) i c cs ks Hi) as Hp.
  pose proof (bc_weight _ _ _ _ _ _ _ _ _ Hbc). pose proof (delivered_weight _ _ _ Hdel).
  pose proof (bc_msgs _ _ _ _ _ _ _ _ _ Hbc). pose proof (delivered_msgs _ _ _ Hdel).
  pose proof (bc_phi _ _ _ _ _ _ _ _ _ Hbc). pose proof (delivered_phi _ _ _ Hdel h).
  assert (phi (S h) (TInt id (replace_pivots i qs cs ps) (replace_kids i cs ks) kept) +
    size batch + phi h c1 ≤ phi (S h) t + sum_list_with (phi h) cs) as Hphi.
  { cbn [phi Nat.pred]. nia. }
  split; [|exact Hphi]. constructor.
  - done.
  - split_and!.
    + intros k v. rewrite Hkept. case_decide; [done|]. apply Hkeys.
    + eapply replace_ok; [done..|apply Hbc].
    + intros Hnil. apply map_eq. intros k. rewrite Hkept lookup_empty. case_decide as Hk; [done|].
      exfalso. apply Hk. pose proof (replace_kids_length i c cs ks Hi) as Hlen.
      rewrite Hnil /= in Hlen. pose proof (lookup_lt_Some _ _ _ Hi).
      pose proof (kids_ok_length _ _ _ _ _ Hks). pose proof (route_le ps k). lia.
  - intros k Hk. rewrite view_TInt (replace_view prm h lo hi ps ks i c qs cs k Hks Hi) //; [apply Hbc|].
    rewrite Hkept. case_decide as Hrt.
    + rewrite vpush_None. apply (Hrange k Hk) in Hrt. etrans; [by apply Hbc|by apply Hview].
    + by rewrite view_TInt.
  - apply repr_TInt. split; [done|]. unfold replace_kids. rewrite !forest_repr_app.
    rewrite -(take_drop_middle _ _ _ Hi) forest_repr_app forest_repr_cons in Hkr0.
    destruct (disjoint_siblings _ _ _ _ Hidn Hnd) as [Hdis1 Hdis3].
    destruct Hkr0 as (Hk1 & _ & Hk3). split_and!.
    + eapply evolves_forest_repr; [exact Hev|exact Hk1|exact Hdis1].
    + eapply evolves_forest_repr; [exact Hev3|apply Hbc|].
      rewrite forest_ids_replace in Hid'. clear -Hid'. set_solver.
    + eapply evolves_forest_repr; [exact Hev|exact Hk3|exact Hdis3].
  - rewrite ids_TInt. by constructor.
  - intros x. rewrite !ids_TInt forest_ids_replace (forest_ids_split _ _ _ Hi).
    specialize (Hcs_ids x). clear -Hcs_ids. set_solver.
  - eapply evolves_weaken; [exact Hev|]. rewrite ids_TInt (forest_ids_split _ _ _ Hi). clear. set_solver.
  - cbn [weight]. lia.
  - cbn [msgs]. lia.
  - lia.
Qed.
End pending.
End moves.

(** ** The loop of [flush_with] *)
Section flush.
Context {P : Type} `{LawfulPolicy P} (prm : Params) (thr : nat) (tr : bool).
Hypothesis Hlegal : legal_params prm = true.
Hypothesis Hthr : thr ≤ buffer_capacity prm.
Implicit Types (s : BeTree P) (t c : tree).
Notation step := (flush_step (P := P) thr tr).

(** The precondition of a flush of [t]. *)
Record flushable (h : nat) (lo hi : option Key) t s : Prop := mkFlushable {
  fl_params : params s = prm;
  fl_dirty : wf_dirty s;
  fl_loose : loose prm h lo hi t;
  fl_repr : repr (arena s) t;
  fl_NoDup : NoDup (ids t);
  fl_fresh k : in_range k lo hi = true → vfresh (view t k);
}.

Lemma flushable_moves h lo hi t s t' s' :
  flushable h lo hi t s → moves prm h lo hi t s t' s' → flushable h lo hi t' s'.
Proof.
  intros [] Hm. pose proof (mv_evolves _ _ _ _ _ _ _ _ Hm) as Hev. constructor; [| |apply Hm..|].
  - by rewrite (ev_params _ _ _ Hev).
  - by eapply evolves_wf_dirty.
  - intros k Hk. apply (mv_view _ _ _ _ _ _ _ _ Hm k Hk). auto.
Qed.

(** The node is done: within the threshold, and message-free below when
    draining. *)
Definition finished t : Prop :=
  match t with
  | TLeaf _ _ => False
  | TInt _ _ ks b => size b ≤ thr ∧ (thr = 0 → sum_list_with msgs ks = 0)
  end.

Lemma settle_spec h lo hi t s :
  flushable h lo hi t s → finished t →
  wp (settle (label t)) (λ out s', ∃ qs cs, outcome_is (label t) qs cs out ∧
    becomes prm (S h) lo hi t s qs cs s' ∧
    (cs ≠ [] → kids_ok (good prm (S h)) lo hi qs cs) ∧
    (2 ≤ length cs → length cs < arity t)) s.
Proof using Hlegal Hthr.
  intros [Hprm Hd Hl Hr Hnd Hf] Hfin. destruct t as [id e|id ps ks b]; [done|].
  destruct Hl as (Hkeys & Hpc & Hemp). destruct Hfin as [Hb Hm].
  pose proof (repr_label _ _ Hr) as Hid. cbn [node_of label] in Hid.
  apply wp_bind. eapply wp_node; [exact Hid|]. destruct ks as [|c ks].
  - specialize (Hemp eq_refl) as ->. cbn [map].
    apply wp_bind, wp_assert; [done|]. apply wp_ret. exists [], []. split_and!; [done| |done|simpl; lia].
    apply becomes_removed. intros k Hk. by rewrite view_TInt lookup_empty /kview lookup_nil.
  - destruct Hpc as [[_ ?]|Hks]; [done|]. cbn [map].
    apply wp_bind. eapply wp_mono.
    { apply (split_if_needed_spec prm (S h) lo hi (TInt id ps (c :: ks) b)); try done.
      split_and!; [done|lia|done]. }
    intros out s' (qs & c0 & cs & Hsp). apply wp_ret. exists qs, (c0 :: cs). split_and!.
    + split; [f_equal; apply Hsp|apply Hsp].
    + apply Hsp.
    + intros _. apply Hsp.
    + intros Hlen. apply (sp_fewer _ _ _ _ _ _ _ _ _ _ _ Hsp); [done|]. intros ->. simpl in *; lia.
Qed.

(** The parent's reaction to any outcome. *)
Lemma parent_spec h lo hi id ps ks b s i c kept batch c1 s1 qs cs out s2 :
  wf_dirty s → pending prm h lo hi id ps ks b s i c kept batch c1 s1 →
  becomes prm h (child_lower lo ps i) (child_upper hi ps i) c1 s1 qs cs s2 →
  outcome_is (label c1) qs cs out →
  wp (match out with
      | Splits promoted => integrate_splits id promoted
      | Removed => remove_child id (label c1)
      end) (λ _ s3, parent_updated id ps ks kept i qs cs s2 s3) s2.
Proof.
  intros Hd Hpd Hbc Hout. destruct (pending_NoDup _ Hpd) as (_ & Hid1 & Hndk).
  destruct Hpd as [Hks Hi Hkeys Hkept Hbatch Hsize Hdel Hr0 Hnd Hr1 Hn1 Hev1].
  destruct (delivered_ids _ _ _ Hdel) as [Hlab _].
  pose proof (bc_evolves _ _ _ _ _ _ _ _ _ Hbc) as Hev2.
  assert (wf_dirty s2) as Hd2 by (eapply evolves_wf_dirty; [exact Hev2|]; by eapply evolves_wf_dirty).
  assert (arena s2 id = Some (Internal ps (map label ks) kept)) as Hn2.
  { rewrite /arena (ev_frame _ _ _ Hev2) //. apply arena_lt. eauto. }
  destruct cs as [|c0 cs]; simpl in Hout.
  - subst out. rewrite Hlab.
    assert (qs = []) as -> by (destruct (bc_pieces _ _ _ _ _ _ _ _ _ Hbc) as [[??]|Hx]; [done|inversion Hx]).
    eapply remove_child_spec; [done..|]. by apply labels_NoDup.
  - destruct Hout as [-> Hlab0].
    destruct (bc_pieces _ _ _ _ _ _ _ _ _ Hbc) as [[??]|Hcs]; [done|].
    eapply integrate_splits_spec; [done..| |exact Hcs]. congruence.
Qed.

(** ** Children as flush targets *)
Lemma delivered_keys h lo hi id ps ks b s i c kept batch c1 s1 :
  pending prm h lo hi id ps ks b s i c kept batch c1 s1 →
  match c1 with
  | TLeaf _ e => keys_in (child_lower lo ps i) (child_upper hi ps i) e
  | TInt _ _ _ b1 => keys_in (child_lower lo ps i) (child_upper hi ps i) b1
  end ∧ good prm h (child_lower lo ps i) (child_upper hi ps i) c.
Proof.
  intros Hpd. pose proof (pending_range prm Hpd) as Hrange.
  destruct Hpd as [Hks Hi Hkeys Hkept Hbatch Hsize Hdel Hr0 Hnd Hr1 Hn1 Hev1].
  pose proof (kids_ok_at _ _ _ _ _ _ _ Hks Hi) as Hg. split; [|done].
  assert (∀ k m, batch !! k = Some m → in_range k (child_lower lo ps i) (child_upper hi ps i) = true) as Hb.
  { intros k m. rewrite Hbatch. case_decide as Hr; [|done]. intros Hk%Hkeys. by apply Hrange. }
  destruct h as [|h'], c as [j e|j qs cs b0]; try done; destruct c1 as [j1 e1|j1 qs1 cs1 b1]; try done;
    simpl in Hdel; intros k v Hv.
  - destruct Hdel as [_ He]. rewrite He /deliver_leaf in Hv. destruct Hg as [Hke _].
    destruct (batch !! k) eqn:E; [by eapply Hb|by eapply Hke].
  - destruct Hdel as (_ & _ & _ & He). rewrite He /deliver_buffer in Hv. destruct Hg as [Hke _].
    destruct (batch !! k) eqn:E; [by eapply Hb|by eapply Hke].
Qed.

Lemma pending_splittable h lo hi id ps ks b s i c kept batch c1 s1 :
  pending prm h lo hi id ps ks b s i c kept batch c1 s1 →
  match c1 with TLeaf _ e => 1 ≤ size e | TInt _ _ _ b1 => size b1 ≤ buffer_capacity prm end →
  splittable prm h (child_lower lo ps i) (child_upper hi ps i) c1.
Proof.
  intros Hpd Hsz. destruct (delivered_keys _ _ _ _ _ _ _ _ _ _ _ _ _ _ Hpd) as [Hk Hg].
  pose proof (pd_delivered _ _ _ _ _ _ _ _ _ _ _ _ _ _ _ Hpd) as Hdel.
  destruct h as [|h'], c as [j e|j qs cs b0]; try done; destruct c1 as [j1 e1|j1 qs1 cs1 b1]; try done.
  simpl in Hdel. destruct Hdel as (_ & -> & -> & _). destruct Hg as (_ & _ & _ & ?). by split_and!.
Qed.

Lemma pending_params h lo hi id ps ks b s i c kept batch c1 s1 :
  pending prm h lo hi id ps ks b s i c kept batch c1 s1 → params s = prm → wf_dirty s →
  params s1 = prm ∧ wf_dirty s1.
Proof.
  intros Hpd Hp Hd. pose proof (pd_evolves _ _ _ _ _ _ _ _ _ _ _ _ _ _ _ Hpd) as Hev. split.
  - by rewrite (ev_params _ _ _ Hev).
  - by eapply evolves_wf_dirty.
Qed.

Lemma pending_flushable h lo hi id ps ks b s i c kept batch j qs cs b1 s1 :
  flushable (S h) lo hi (TInt id ps ks b) s →
  pending prm (S h) lo hi id ps ks b s i c kept batch (TInt j qs cs b1) s1 →
  flushable h (child_lower lo ps i) (child_upper hi ps i) (TInt j qs cs b1) s1.
Proof.
  intros [Hp Hd Hl Hr Hnd Hf] Hpd.
  destruct (pending_params _ _ _ _ _ _ _ _ _ _ _ _ _ _ Hpd Hp Hd) as [Hp1 Hd1].
  destruct (delivered_keys _ _ _ _ _ _ _ _ _ _ _ _ _ _ Hpd) as [Hk Hg].
  constructor; [done|done| |apply Hpd|apply (pending_NoDup prm Hpd)|].
  - pose proof (pd_delivered _ _ _ _ _ _ _ _ _ _ _ _ _ _ _ Hpd) as Hdel.
    destruct c as [|j0 qs0 cs0 b0]; [done|]. simpl in Hdel. destruct Hdel as (_ & -> & -> & _).
    destruct Hg as (_ & _ & _ & Hks). split_and!; [done|by right|].
    intros ->. inversion Hks.
  - intros k Hk'. apply (pending_view prm Hpd k Hk'). apply Hf. by apply (child_range_in prm Hpd).
Qed.

(** The descent of a drain: nothing is handed over. *)
Lemma pending_descend h lo hi id ps ks s i c :
  flushable h lo hi (TInt id ps ks ∅) s → ks !! i = Some c →
  pending prm h lo hi id ps ks ∅ s i c ∅ ∅ c s.
Proof.
  intros [Hp Hd Hl Hr Hnd Hf] Hi. destruct Hl as (Hkeys & [[_ ->]|Hks] & _); [done|].
  pose proof (proj1 (repr_TInt _ _ _ _ _) Hr) as [Hid Hkr].
  assert (repr (arena s) c) as Hrc.
  { rewrite -(take_drop_middle _ _ _ Hi) in Hkr.
    by apply forest_repr_app in Hkr as [_ [? _]%forest_repr_cons]. }
  constructor; try done; try (intros k; by case_decide); try apply evolves_refl.
  destruct c as [j e|j qs cs b]; simpl; split_and!; try done; intros k;
      by rewrite /deliver_leaf /deliver_buffer lookup_empty.
Qed.

(** ** Iterations *)
Lemma buffer_len_spec id ps chs b (Q : nat → BeTree P → Prop) s :
  arena s id = Some (Internal ps chs b) → Q (size b) s → wp (buffer_len id) Q s.
Proof. intros Hid HQ. apply wp_bind. eapply wp_node; [exact Hid|]. by apply wp_ret. Qed.

(** An overfull node: one delivery. *)
Lemma deliver_step h lo hi id ps ks b s rest :
  flushable h lo hi (TInt id ps ks b) s → thr < size b →
  wp (step (id :: rest)) (λ r s',
    (r = Continue (id :: rest) ∧ ∃ t', moves prm h lo hi (TInt id ps ks b) s t' s' ∧
       phi (S h) t' + 1 ≤ phi (S h) (TInt id ps ks b)) ∨
    (∃ i c kept batch j qs cs b1, r = Continue (j :: id :: rest) ∧ 1 ≤ size batch ∧
       pending prm h lo hi id ps ks b s i c kept batch (TInt j qs cs b1) s')) s.
Proof using All.
  intros Hfl Hbig. pose proof Hfl as [Hp Hd (Hkeys & Hpc & Hemp) Hr Hnd Hf].
  pose proof Hr as [Hid Hkr]%repr_TInt.
  assert (b ≠ ∅) as Hne by (intros ->; rewrite map_size_empty in Hbig; lia).
  destruct Hpc as [[_ ->]|Hks]; [by destruct Hne; auto|].
  pose proof (kids_ok_length _ _ _ _ _ Hks) as Hl.
  unfold flush_step. apply wp_bind. eapply buffer_len_spec; [exact Hid|].
  rewrite (proj2 (Nat.leb_gt _ _) Hbig). cbv zeta. apply wp_bind.
  eapply wp_mono; [apply (pick_and_extract_spec id _ tr ps (map label ks) b); try done|].
  { by rewrite length_map. }
  { by eapply kids_ok_sorted. }
  { apply Forall_forall. intros x Hx. eapply forest_ids_lt; [exact Hkr|]. by apply label_in_forest_ids. }
  intros [[[i child] occ] batch] s1 (kept & Hchild & Hkept & Hbatch & Hsize & Hpos & Hev1 & Hn1).
  rewrite list_lookup_fmap in Hchild. apply fmap_Some in Hchild as (c & Hi & ->).
  apply wp_bind. apply (wp_mono _ (λ _ s2, evolves [id] s s2 ∧ nodes s2 = nodes s1)).
  { destruct tr.
    - apply wp_modify. split; [|done].
      eapply evolves_trans; [exact Hev1|apply evolves_flush_decision|set_solver].
    - by apply wp_ret. }
  intros _ s2 [Hev2 En2].
  assert (arena s2 id = Some (Internal ps (map label ks) kept)) as Hn2 by (by rewrite /arena En2).
  rewrite ids_TInt (forest_ids_split _ _ _ Hi) in Hnd. pose proof Hnd as [Hidn Hndk]%NoDup_cons.
  assert (id ∉ ids c) as Hidc by (clear -Hidn; set_solver).
  assert (NoDup (ids c)) as Hndc by (by apply NoDup_app in Hndk as (_ & _ & (? & _)%NoDup_app)).
  assert (repr (arena s2) c) as Hrc.
  { eapply evolves_repr; [exact Hev2| |clear -Hidc; set_solver].
    rewrite -(take_drop_middle _ _ _ Hi) in Hkr.
    by apply forest_repr_app in Hkr as [_ [? _]%forest_repr_cons]. }
  apply wp_bind. eapply wp_mono.
  { apply (apply_batch_spec c batch thr); [by eapply evolves_wf_dirty|done|done|].
    intros k m. rewrite Hbatch. case_decide as Hk; [|done]. intros Hm.
    specialize (Hf k (Hkeys k m Hm)). rewrite view_TInt Hm in Hf. apply vfresh_vpush in Hf as [Hf _].
    by rewrite /kview Hk Hi in Hf. }
  intros d s3 (c1 & Hdel & Hr3 & Hev3 & ->).
  assert (pending prm h lo hi id ps ks b s i c kept batch c1 s3) as Hpd.
  { constructor; try done.
    - by rewrite ids_TInt (forest_ids_split _ _ _ Hi).
    - rewrite /arena (ev_frame _ _ _ Hev3) //; [apply arena_lt; eauto|].
      pose proof (label_in_ids c) as Hlc. clear -Hidc Hlc. set_solver.
    - eapply evolves_trans; [eapply evolves_weaken; [exact Hev2|set_solver]|exact Hev3|].
      pose proof (label_in_ids c) as Hlc. clear -Hlc. set_solver. }
  destruct (delivered_ids _ _ _ Hdel) as [Hlab _]. rewrite -Hlab.
  destruct (pending_params _ _ _ _ _ _ _ _ _ _ _ _ _ _ Hpd Hp Hd) as [Hp3 Hd3].
  assert (∀ qs cs out s4, outcome_is (label c1) qs cs out →
    becomes prm h (child_lower lo ps i) (child_upper hi ps i) c1 s3 qs cs s4 →
    wp (_ ← match out with
        | Splits promoted => integrate_splits id promoted
        | Removed => remove_child id (label c1)
        end; mret (M := M (BeTree P)) (Continue (A := Outcome) (id :: rest)))
      (λ r s', r = Continue (id :: rest) ∧ ∃ t', moves prm h lo hi (TInt id ps ks b) s t' s' ∧
       phi (S h) t' + 1 ≤ phi (S h) (TInt id ps ks b)) s4) as Hparent.
  { intros qs cs out s4 Hout Hbc. apply wp_bind. eapply wp_mono; [eapply parent_spec; [exact Hd|exact Hpd|exact Hbc|exact Hout]|].
    intros [] s5 Hpu. apply wp_ret. split; [done|]. eexists. cbv beta in Hpu.
    destruct (pending_absorb prm Hpd _ _ _ _ Hbc Hpu) as [Hm Hphi]. split; [exact Hm|].
    pose proof (bc_phi _ _ _ _ _ _ _ _ _ Hbc). lia. }
  assert (∀ (Hsp : match c1 with TLeaf _ e => 1 ≤ size e | TInt _ _ _ b1 => size b1 ≤ buffer_capacity prm end),
    wp (promoted ← split_if_needed (label c1); _ ← integrate_splits id promoted;
        mret (M := M (BeTree P)) (Continue (A := Outcome) (id :: rest)))
      (λ r s', r = Continue (id :: rest) ∧ ∃ t', moves prm h lo hi (TInt id ps ks b) s t' s' ∧
       phi (S h) t' + 1 ≤ phi (S h) (TInt id ps ks b)) s3) as Hsplit.
  { intros Hsp. apply wp_bind. eapply wp_mono.
    { eapply split_if_needed_spec; [done|done|done|by eapply pending_splittable|done|].
      apply (pending_NoDup prm Hpd). }
    intros out s4 (qs & c0 & cs & Hinto).
    apply (Hparent qs (c0 :: cs) (Splits out) s4); [|apply Hinto].
    split; [f_equal; apply Hinto|apply Hinto]. }
  destruct c1 as [j e1|j qs1 cs1 b1]; cbn [label] in *.
  - destruct (bt_is_empty e1) eqn:Ee.
    + apply bt_is_empty_true in Ee as ->. eapply wp_mono.
      { apply (Hparent [] [] Removed s3); [done|]. apply becomes_removed. intros k _.
        by rewrite /= lookup_empty. }
      intros r s' Hr'. by left.
    + eapply wp_mono; [apply Hsplit|intros r s' Hr'; by left].
      assert (size e1 ≠ 0); [|lia]. intros Hz%map_size_empty_inv. by subst.
  - destruct (thr <? size b1) eqn:Eb.
    + apply wp_ret. right. exists i, c, kept, batch, j, qs1, cs1, b1. done.
    + apply Nat.ltb_ge in Eb. eapply wp_mono; [apply Hsplit; lia|intros r s' Hr'; by left].
Qed.

(** A node within the threshold: a descent of the drain, or its end. *)
Definition settle_tail (id : NodeId) (rest : list NodeId) : M (BeTree P) (ctl (list NodeId) Outcome) :=
  outcome ← settle id;
  match rest with
  | parent :: _ =>
      _ ← match outcome with
          | Splits promoted => integrate_splits parent promoted
          | Removed => remove_child parent id
          end;
      mret (Continue rest)
  | [] => mret (Break outcome)
  end.

Lemma resting_step h lo hi id ps ks b s rest :
  flushable h lo hi (TInt id ps ks b) s → size b ≤ thr →
  (thr = 0 ∧ b = ∅ ∧ ∃ i c, ks !! i = Some c ∧ 0 < msgs c ∧
     step (id :: rest) s = Ok (Continue (label c :: id :: rest), s)) ∨
  (finished (TInt id ps ks b) ∧ step (id :: rest) s = settle_tail id rest s).
Proof using All.
  intros [Hp Hd Hl Hr Hnd Hf] Hb. pose proof Hr as [Hid Hkr]%repr_TInt.
  assert (∀ (k : option NodeId → M (BeTree P) (ctl (list NodeId) Outcome)),
    (buffered_child ← if thr =? 0 then
          n ← node id;
          match n with Internal _ children _ => find_buffered_child children | Leaf _ => mret None end
        else mret None; k buffered_child) s =
    (if thr =? 0 then bc ← find_buffered_child (map label ks); k bc else k None) s) as Hfind.
  { intros k. destruct (thr =? 0); [|done].
    unfold node, get_, lift, expect, mbind, M_bind. unfold arena in Hid. rewrite Hid. done. }
  assert (step (id :: rest) s = (if thr =? 0 then bc ← find_buffered_child (map label ks);
      match bc with Some child => mret (Continue (child :: id :: rest)) | None => settle_tail id rest end
    else settle_tail id rest) s) as ->.
  { rewrite -Hfind. unfold flush_step. unfold buffer_len, node, get_, lift, expect.
    unfold arena in Hid. unfold mbind, M_bind. rewrite Hid. cbn [mret M_ret].
    unfold bt_len. rewrite (proj2 (Nat.leb_le _ _) Hb). done. }
  destruct (thr =? 0) eqn:Ethr.
  - apply Nat.eqb_eq in Ethr. assert (size b = 0) as Hb0 by lia. apply map_size_empty_inv in Hb0 as ->.
    destruct (find_buffered_child_spec ks s Hkr) as (r & s' & E & -> & Hres).
    { apply Forall_forall. intros c Hc. apply list_elem_of_lookup in Hc as [i Hi].
      rewrite ids_TInt (forest_ids_split _ _ _ Hi) in Hnd. apply NoDup_cons in Hnd as [_ Hnd].
      apply ids_fuel.
      - rewrite -(take_drop_middle _ _ _ Hi) in Hkr.
        by apply forest_repr_app in Hkr as [_ [? _]%forest_repr_cons].
      - by apply NoDup_app in Hnd as (_ & _ & (? & _)%NoDup_app). }
    unfold mbind, M_bind. rewrite E. destruct r as [x|].
    + destruct Hres as (i & c & Hi & -> & Hm). left. eauto 10.
    + right. split; [|done]. split; [lia|done].
  - apply Nat.eqb_neq in Ethr. right. split; [|done]. split; [done|]. by intros.
Qed.

(** The constant of the amortised bound for a node of height [h + 1]. *)
Definition rounds (h : nat) : nat := 2 * h + 2.

(** What a completed flush of [t], on top of the stack, achieves. *)
Definition flushes (h : nat) : Prop := ∀ lo hi t s rest,
  flushable h lo hi t s →
  ∃ m t' s', reaches step m (label t :: rest, s) (label t :: rest, s') ∧
    moves prm h lo hi t s t' s' ∧ finished t' ∧
    step (label t :: rest) s' = settle_tail (label t) rest s' ∧
    m + rounds h * phi (S h) t' ≤ rounds h * phi (S h) t.

Lemma finished_phi h t : finished t → thr = 0 → phi h t = 0.
Proof using All.
  destruct t as [|id ps ks b]; [done|]. intros [Hb Hm] Hz. specialize (Hm Hz).
  pose proof (phi_le_msgs h (TInt id ps ks b)) as Hphi. cbn [msgs] in Hphi.
  rewrite Hm in Hphi. assert (size b = 0) as Hb0 by lia. rewrite Hb0 in Hphi. lia.
Qed.

(** A pending child: its own flush, its settlement, and the parent. *)
Lemma child_done h lo hi id ps ks b s i c kept batch j qs cs b1 s1 rest :
  flushes h → flushable (S h) lo hi (TInt id ps ks b) s →
  pending prm (S h) lo hi id ps ks b s i c kept batch (TInt j qs cs b1) s1 →
  ∃ m t' s' d, reaches step m (j :: id :: rest, s1) (id :: rest, s') ∧
    moves prm (S h) lo hi (TInt id ps ks b) s t' s' ∧
    m ≤ rounds h * d + 1 ∧
    phi (S (S h)) t' + size batch + d ≤ phi (S (S h)) (TInt id ps ks b) ∧
    (thr = 0 → phi (S h) (TInt j qs cs b1) ≤ d).
Proof using All.
  intros IH Hfl Hpd. pose proof (pending_flushable _ _ _ _ _ _ _ _ _ _ _ _ _ _ _ _ _ Hfl Hpd) as Hflc.
  destruct (IH _ _ _ _ (id :: rest) Hflc) as (m & t' & s2 & Hreach & Hm & Hfin & Hstep & Hcost).
  cbn [label] in *. pose proof (flushable_moves _ _ _ _ _ _ _ Hflc Hm) as Hfl'.
  destruct (settle_spec _ _ _ _ _ Hfl' Hfin) as (out & s3 & Eset & qs' & cs' & Hout & Hbc & _ & _).
  pose proof (moves_becomes _ _ _ _ _ _ _ _ _ _ _ Hm Hbc) as Hbc'.
  rewrite (mv_label _ _ _ _ _ _ _ _ Hm) /= in Eset Hout.
  destruct (parent_spec (S h) lo hi id ps ks b s i c kept batch (TInt j qs cs b1) s1 qs' cs' out s3)
    as ([] & s4 & Epar & Hpu); [apply Hfl|done|done|done|].
  destruct (pending_absorb prm Hpd _ _ _ _ Hbc' Hpu) as [Hmv Hphi].
  exists (m + 1). eexists _, s4, (phi (S h) (TInt j qs cs b1) - phi (S h) t').
  pose proof (mv_phi _ _ _ _ _ _ _ _ Hm). pose proof (bc_phi _ _ _ _ _ _ _ _ _ Hbc).
  split_and!; [|exact Hmv| | |].
  - eapply reaches_trans; [exact Hreach|]. apply reaches_one. rewrite Hstep.
    unfold settle_tail, mbind, M_bind. rewrite Eset. cbn [label] in Epar. by rewrite Epar.
  - rewrite Nat.mul_sub_distr_l. lia.
  - lia.
  - intros H0'. rewrite (finished_phi _ _ Hfin H0'). lia.
Qed.

(** Progress, then a completed flush. *)
Lemma flushes_after h lo hi t s t1 s1 m1 rest :
  flushable h lo hi t s → moves prm h lo hi t s t1 s1 →
  reaches step m1 (label t :: rest, s) (label t :: rest, s1) →
  m1 + rounds h * phi (S h) t1 ≤ rounds h * phi (S h) t →
  (flushable h lo hi t1 s1 → ∃ m t' s', reaches step m (label t1 :: rest, s1) (label t1 :: rest, s') ∧
    moves prm h lo hi t1 s1 t' s' ∧ finished t' ∧
    step (label t1 :: rest) s' = settle_tail (label t1) rest s' ∧
    m + rounds h * phi (S h) t' ≤ rounds h * phi (S h) t1) →
  ∃ m t' s', reaches step m (label t :: rest, s) (label t :: rest, s') ∧
    moves prm h lo hi t s t' s' ∧ finished t' ∧
    step (label t :: rest) s' = settle_tail (label t) rest s' ∧
    m + rounds h * phi (S h) t' ≤ rounds h * phi (S h) t.
Proof using All.
  intros Hfl Hm Hr Hc Hrest. pose proof (flushable_moves _ _ _ _ _ _ _ Hfl Hm) as Hfl1.
  destruct (Hrest Hfl1) as (m & t' & s' & Hr' & Hm' & Hfin & Hstep & Hc').
  pose proof (mv_label _ _ _ _ _ _ _ _ Hm) as Hlab. rewrite Hlab in Hr' Hstep.
  exists (m1 + m), t', s'. split_and!; [by eapply reaches_trans| |done|done|lia].
  by eapply moves_trans.
Qed.

Lemma flush_all h : flushes h.
Proof using All.
  induction h as [h IHh] using lt_wf_ind.
  assert (∀ n lo hi t s rest, phi (S h) t ≤ n → flushable h lo hi t s →
    ∃ m t' s', reaches step m (label t :: rest, s) (label t :: rest, s') ∧
      moves prm h lo hi t s t' s' ∧ finished t' ∧
      step (label t :: rest) s' = settle_tail (label t) rest s' ∧
      m + rounds h * phi (S h) t' ≤ rounds h * phi (S h) t) as Hind.
  2: { intros lo hi t s rest Hfl. by eapply Hind. }
  induction n as [n IHn] using lt_wf_ind. intros lo hi t s rest Hn Hfl.
  destruct t as [|id ps ks b]; [by destruct (fl_loose _ _ _ _ _ Hfl)|]. cbn [label].
  destruct (decide (size b ≤ thr)) as [Hb|Hb].
  - destruct (resting_step _ _ _ _ _ _ _ _ rest Hfl Hb) as
      [(H0' & -> & i & c & Hi & Hmc & Hstep)|[Hfin Hstep]].
    + pose proof (pending_descend _ _ _ _ _ _ _ _ _ Hfl Hi) as Hpd.
      pose proof (kids_ok_at _ _ _ _ _ _ _ (pd_kids _ _ _ _ _ _ _ _ _ _ _ _ _ _ _ Hpd) Hi) as Hg.
      pose proof (good_msgs_phi _ _ _ _ _ Hg) as Hphic.
      destruct c as [|j qs cs b1]; [simpl in Hmc; lia|]. destruct h as [|h']; [done|].
      destruct (child_done _ _ _ _ _ _ _ _ _ _ _ _ _ _ _ _ _ rest (IHh h' ltac:(lia)) Hfl Hpd)
        as (m & t' & s' & d & Hr & Hm & Hmd & Hphi & Hd).
      specialize (Hd H0'). assert (1 ≤ d) by lia.
      eapply (flushes_after (S h') lo hi (TInt id ps ks ∅) s t' s' (1 + m)); [done|done| | |].
      * eapply reaches_trans; [by apply reaches_one|exact Hr].
      * unfold rounds in *. rewrite map_size_empty in Hphi. nia.
      * intros Hfl'. eapply (IHn (phi (S (S h')) t')); [lia|done|done].
    + exists 0, (TInt id ps ks b), s. split_and!; [constructor| |done|done|lia].
      apply moves_refl; apply Hfl.
  - destruct (deliver_step _ _ _ _ _ _ _ _ rest Hfl ltac:(lia)) as (r & s1 & Hstep & Hcase).
    destruct Hcase as [(-> & t' & Hm & Hphi)|(i & c & kept & batch & j & qs & cs & b1 & -> & Hbp & Hpd)].
    + eapply (flushes_after h lo hi (TInt id ps ks b) s t' s1 1); [done|done| | |].
      * by apply reaches_one.
      * unfold rounds in *. nia.
      * intros Hfl'. eapply (IHn (phi (S h) t')); [lia|done|done].
    + pose proof (kids_ok_at _ _ _ _ _ _ _ (pd_kids _ _ _ _ _ _ _ _ _ _ _ _ _ _ _ Hpd)
        (pd_child _ _ _ _ _ _ _ _ _ _ _ _ _ _ _ Hpd)) as Hg.
      pose proof (pd_delivered _ _ _ _ _ _ _ _ _ _ _ _ _ _ _ Hpd) as Hdel.
      destruct h as [|h']; [by destruct c|].
      destruct (child_done _ _ _ _ _ _ _ _ _ _ _ _ _ _ _ _ _ rest (IHh h' ltac:(lia)) Hfl Hpd)
        as (m & t' & s' & d & Hr & Hm & Hmd & Hphi & Hd).
      eapply (flushes_after (S h') lo hi (TInt id ps ks b) s t' s' (1 + m)); [done|done| | |].
      * eapply reaches_trans; [by apply reaches_one|exact Hr].
      * unfold rounds in *. nia.
      * intros Hfl'. eapply (IHn (phi (S (S h')) t')); [lia|done|done].
Qed.

(** ** [flush_with] *)
Lemma flush_with_spec h lo hi t s :
  flushable h lo hi t s → S h ≤ tree_cost t →
  wp (flush_with (label t) thr tr) (λ out s', ∃ qs cs, outcome_is (label t) qs cs out ∧
    becomes prm (S h) lo hi t s qs cs s' ∧
    (cs ≠ [] → kids_ok (good prm (S h)) lo hi qs cs) ∧
    (thr = 0 → sum_list_with msgs cs = 0)) s.
Proof using All.
  intros Hfl Hh. destruct (flush_all h lo hi t s [] Hfl) as (m & t' & s' & Hr & Hm & Hfin & Hstep & Hc).
  pose proof (flushable_moves _ _ _ _ _ _ _ Hfl Hm) as Hfl'.
  destruct (settle_spec _ _ _ _ _ Hfl' Hfin) as (out & s2 & Eset & qs & cs & Hout & Hbc & Hk & _).
  pose proof (mv_label _ _ _ _ _ _ _ _ Hm) as Hlab. rewrite Hlab in Eset Hout.
  exists out, s2. split.
  - unfold flush_with. eapply loopM_reaches; [exact Hr| |].
    + rewrite Hstep. unfold settle_tail, mbind, M_bind. by rewrite Eset.
    + pose proof (phi_le_msgs (S h) t). pose proof (msgs_le_weight t). pose proof (weight_le_cost t).
      pose proof (tree_cost_le s t (fl_repr _ _ _ _ _ Hfl) (fl_NoDup _ _ _ _ _ Hfl)) as HW.
      enough (S m ≤ 2 ^ fuel s) by lia. apply fuel_ge.
      set (W := arena_cost (nodes s)) in *.
      assert (phi (S h) t ≤ W * W) by nia.
      assert (m ≤ (2 * W + 2) * (W * W)) by (unfold rounds in Hc; nia).
      change 4 with (1 + 1 + 1 + 1). rewrite !Nat.pow_add_r !Nat.pow_1_r. nia.
  - exists qs, cs. split_and!; [done|by eapply moves_becomes|done|].
    intros H0'. pose proof (bc_msgs _ _ _ _ _ _ _ _ _ Hbc) as Hle.
    destruct t' as [|id ps ks b]; [done|]. destruct Hfin as [Hb Hm0]. cbn [msgs] in Hle.
    rewrite (Hm0 H0') in Hle. lia.
Qed.

(** A flush of a node that is done settles it at once. *)
Lemma flush_with_finished h lo hi t s :
  flushable h lo hi t s → finished t →
  wp (flush_with (label t) thr tr) (λ out s', ∃ qs cs, outcome_is (label t) qs cs out ∧
    becomes prm (S h) lo hi t s qs cs s' ∧
    (cs ≠ [] → kids_ok (good prm (S h)) lo hi qs cs) ∧
    (2 ≤ length cs → length cs < arity t)) s.
Proof using All.
  intros Hfl Hfin. destruct (settle_spec _ _ _ _ _ Hfl Hfin) as (out & s2 & Eset & Hpost).
  exists out, s2. split; [|exact Hpost]. unfold flush_with.
  eapply loopM_reaches; [constructor| |].
  - destruct t as [|id ps ks b]; [done|]. destruct Hfin as [Hb Hm].
    destruct (resting_step _ _ _ _ _ _ _ _ [] Hfl Hb) as [(H0' & -> & i & c & Hi & Hmc & _)|[_ Hstep]].
    + exfalso. specialize (Hm H0').
      assert (msgs c ≤ sum_list_with msgs ks); [|lia].
      rewrite -(take_drop_middle _ _ _ Hi) sum_list_with_app /=. lia.
    + rewrite Hstep. unfold settle_tail, mbind, M_bind. cbn [label] in Eset. by rewrite Eset.
  - apply (fuel_linear s 1). lia.
Qed.
End flush.
