(* ===== verification/Restore.v ===== *)
(** * Root settling

    [restore_root_with]: the cascade from the root, growth of the tree by
    new roots above split pieces, reclamation of an emptied tree, and the
    collapse of a root with a single child. *)

From S2P Require Export Flush.
From stdpp Require Import options.
From Stdlib Require Import ZArith.

Section rooted.
Context {P : Type} (prm : Params).
Implicit Types (s : BeTree P) (t c : tree).

(** What root settling keeps of the engine's state. *)
Record keeps s s' : Prop := mkKeeps {
  kp_params : params s' = params s;
  kp_next_seq : next_seq s' = next_seq s;
  kp_ops : ops_since_commit s' = ops_since_commit s;
  kp_dirty : wf_dirty s → wf_dirty s';
  kp_trace : Recorder_ok (trace s) → Recorder_ok (trace s');
  kp_trace_ops : ops_of (rec_v2 (trace s')) = ops_of (rec_v2 (trace s));
}.

#[export] Instance keeps_preorder : PreOrder keeps.
Proof. split; [by constructor|]. intros ? ? ? [] []. constructor; try congruence; auto. Qed.

Lemma evolves_keeps X s s' : evolves X s s' → keeps s s'.
Proof. intros []. by constructor. Qed.
Lemma keeps_set_root r s : keeps s (set_root r s).
Proof. by constructor. Qed.

(** The tree a settling iteration starts from. *)
Definition settling (h : nat) t : Prop :=
  match h, t with
  | 0, TLeaf _ e => True
  | S h, TInt _ _ _ _ => loose prm h None None t
  | _, _ => False
  end.

Record rooted t s : Prop := mkRooted {
  rt_params : params s = prm;
  rt_dirty : wf_dirty s;
  rt_root : root s = label t;
  rt_repr : repr (arena s) t;
  rt_NoDup : NoDup (ids t);
  rt_fresh k : vfresh (view t k);
}.

Lemma in_range_None k : in_range k None None = true.
Proof. done. Qed.

Lemma rooted_flushable h t s : rooted t s → loose prm h None None t → flushable prm h None None t s.
Proof. intros [] Hl. constructor; auto. Qed.

(** A tree that replaces the old one, under the same root id. *)
Lemma rooted_piece h t s qs c0 s' :
  rooted t s → becomes prm h None None t s qs [c0] s' → label c0 = label t →
  qs = [] → rooted c0 s' ∧ (∀ k, vrefines (view c0 k) (view t k)) ∧ keeps s s'.
Proof.
  intros [Hp Hd Hroot Hr Hnd Hf] Hbc Hlab ->.
  pose proof (bc_evolves _ _ _ _ _ _ _ _ _ Hbc) as Hev.
  assert (∀ k, vrefines (view c0 k) (view t k)) as Hv.
  { intros k. rewrite -kview_singleton. by apply (bc_view _ _ _ _ _ _ _ _ _ Hbc). }
  split_and!; [|done|by eapply evolves_keeps].
  pose proof (bc_repr _ _ _ _ _ _ _ _ _ Hbc) as [Hr' _]%forest_repr_cons.
  pose proof (bc_NoDup _ _ _ _ _ _ _ _ _ Hbc) as Hnd'.
  rewrite forest_ids_cons app_nil_r in Hnd'.
  constructor; try done.
  - by rewrite (ev_params _ _ _ Hev).
  - by eapply evolves_wf_dirty.
  - by rewrite (ev_root _ _ _ Hev) Hroot.
  - intros k. apply Hv, Hf.
Qed.

(** A new root above the pieces. *)
Lemma rooted_new_root h t s qs cs s' id :
  rooted t s → becomes prm h None None t s qs cs s' → kids_ok (good prm h) None None qs cs →
  id = length (nodes s') →
  let s2 := set_root id (alloc_all [Internal qs (map label cs) ∅] s') in
  rooted (TInt id qs cs ∅) s2 ∧ (∀ k, vrefines (view (TInt id qs cs ∅) k) (view t k)) ∧
  keeps s s2 ∧ loose prm h None None (TInt id qs cs ∅).
Proof.
  intros [Hp Hd Hroot Hr Hnd Hf] Hbc Hk -> s2.
  pose proof (bc_evolves _ _ _ _ _ _ _ _ _ Hbc) as Hev.
  pose proof (evolves_alloc [Internal qs (map label cs) ∅] s') as Hev2.
  assert (∀ k, vrefines (view (TInt (length (nodes s')) qs cs ∅) k) (view t k)) as Hv.
  { intros k. rewrite view_TInt lookup_empty vpush_None. by apply (bc_view _ _ _ _ _ _ _ _ _ Hbc). }
  split_and!; [|done| |].
  - constructor; simpl; try done.
    + by rewrite (ev_params _ _ _ Hev).
    + rewrite /wf_dirty /= !length_app /=. f_equal. by eapply evolves_wf_dirty.
    + apply repr_TInt. split.
      * unfold arena. simpl. by rewrite lookup_app_r // Nat.sub_diag.
      * eapply (evolves_forest_repr [] s' (alloc_all [_] s')); [exact Hev2|apply Hbc|set_solver].
    + rewrite ids_TInt. constructor; [|apply Hbc]. intros Hin.
      pose proof (forest_ids_lt _ _ _ (bc_repr _ _ _ _ _ _ _ _ _ Hbc) Hin). lia.
    + intros k. apply Hv, Hf.
  - etrans; [by eapply evolves_keeps|]. etrans; [by eapply evolves_keeps|apply keeps_set_root].
  - split_and!; [done|by right|]. intros ->. inversion Hk.
Qed.
End rooted.

Section restore.
Context {P : Type} `{LawfulPolicy P} (prm : Params) (thr : nat) (tr : bool).
Hypothesis Hlegal : legal_params prm = true.
Hypothesis Hthr : thr ≤ buffer_capacity prm.
Implicit Types (s : BeTree P) (t c : tree).

Lemma weight_fuel t s : rooted prm t s → weight t + 1 < 2 ^ fuel s.
Proof using All.
  intros Hrt. pose proof (weight_le_cost t).
  pose proof (tree_cost_le s t (rt_repr _ _ _ Hrt) (rt_NoDup _ _ _ Hrt)).
  enough (weight t + 2 ≤ 2 ^ fuel s) by lia. apply fuel_linear. lia.
Qed.

(** The settlement of the root, whatever it is. *)
Lemma root_outcome h t s :
  rooted prm t s → settling prm h t → h ≤ tree_cost t → (h = 0 → 1 ≤ weight t) →
  wp (n ← node (root s);
      match n with
      | Internal _ _ _ => flush_with (root s) thr tr
      | Leaf _ => promoted ← split_if_needed (root s); mret (Splits promoted)
      end)
    (λ out s', ∃ qs cs, outcome_is (label t) qs cs out ∧ becomes prm h None None t s qs cs s' ∧
      (cs ≠ [] → kids_ok (good prm h) None None qs cs) ∧
      (thr = 0 → sum_list_with msgs cs = 0)) s.
Proof using All.
  intros Hrt Hset Hh Hw. pose proof Hrt as [Hp Hd Hroot Hr Hnd Hf].
  pose proof (repr_label _ _ Hr) as Hid. rewrite Hroot.
  apply wp_bind. eapply wp_node; [exact Hid|].
  destruct h as [|h], t as [id e|id ps ks b]; try done; cbn [node_of label] in *.
  - apply wp_bind. eapply wp_mono.
    { apply (split_if_needed_spec prm 0 None None (TLeaf id e)); try done.
      split; [by intros k v _|by apply Hw]. }
    intros out s' (qs & c0 & cs & Hsp). apply wp_ret. exists qs, (c0 :: cs).
    split_and!; [split; [f_equal; apply Hsp|apply Hsp]|apply Hsp|intros _; apply Hsp|].
    intros _. pose proof (bc_msgs _ _ _ _ _ _ _ _ _ (sp_becomes _ _ _ _ _ _ _ _ _ _ _ Hsp)) as Hm.
    cbn [msgs] in Hm. lia.
  - eapply wp_mono; [apply (flush_with_spec prm thr tr Hlegal Hthr h None None (TInt id ps ks b));
      [by eapply rooted_flushable|done]|]. done.
Qed.

(** The invariant of the settling loop: [n] bounds the new roots to come. *)
Definition restoring t0 s0 (n : nat) s : Prop := ∃ h t,
  rooted prm t s ∧ settling prm h t ∧ h ≤ tree_cost t ∧ (h = 0 → 1 ≤ weight t) ∧
  (∀ k, vrefines (view t k) (view t0 k)) ∧ keeps s0 s ∧
  (n = weight t + 1 ∨ ∃ id qs cs, t = TInt id qs cs ∅ ∧ n = length cs ∧
     (thr = 0 → sum_list_with msgs cs = 0)).

Definition restored t0 s0 s : Prop := ∃ h t,
  rooted prm t s ∧ at_rest prm h t ∧ (∀ k, vrefines (view t k) (view t0 k)) ∧ keeps s0 s ∧
  (thr = 0 → msgs t = 0).

(** One outcome of the root: done, or a new root with fewer children. *)
Lemma settle_root h t s qs cs out s1 t0 s0 n :
  rooted prm t s → keeps s0 s → (∀ k, vrefines (view t k) (view t0 k)) →
  outcome_is (label t) qs cs out → becomes prm h None None t s qs cs s1 →
  (cs ≠ [] → kids_ok (good prm h) None None qs cs) → (thr = 0 → sum_list_with msgs cs = 0) →
  (2 ≤ length cs → length cs < n) →
  wp (match out with
      | Removed =>
          id ← alloc (Leaf ∅);
          _ ← modify (set_root id);
          mret (Break tt)
      | Splits [] => mret (Break tt)
      | Splits promoted =>
          self ← get_;
          let pivots := promoted.*1 in
          let children := root self :: promoted.*2 in
          id ← alloc (Internal pivots children ∅);
          _ ← modify (set_root id);
          mret (Continue tt)
      end) (λ r s', match r with
        | Continue _ => ∃ n', n' < n ∧ restoring t0 s0 n' s'
        | Break _ => restored t0 s0 s'
        end) s1.
Proof using All.
  intros Hrt Hkeep Hview Hout Hbc Hks Hm Hfew. pose proof Hrt as [Hp Hd Hroot Hr Hnd Hf].
  pose proof (bc_evolves _ _ _ _ _ _ _ _ _ Hbc) as Hev.
  destruct cs as [|c0 cs]; simpl in Hout.
  - subst out. apply wp_bind, wp_alloc, wp_bind, wp_modify, wp_ret.
    exists 0, (TLeaf (length (nodes s1)) ∅).
    assert (∀ k, vrefines vempty (view t k)) as Hv.
    { intros k. etrans; [|by apply (bc_view _ _ _ _ _ _ _ _ _ Hbc k)]. unfold kview. done. }
    split_and!; [|simpl; rewrite map_size_empty; lia| | |done].
    + constructor; simpl; try done.
      * by rewrite (ev_params _ _ _ Hev).
      * rewrite /wf_dirty /= !length_app /=. f_equal. by eapply evolves_wf_dirty.
      * apply repr_TLeaf. unfold arena. simpl. by rewrite lookup_app_r // Nat.sub_diag.
      * apply NoDup_singleton.
      * intros k. rewrite lookup_empty. constructor.
    + intros k. etrans; [|apply Hview]. simpl. rewrite lookup_empty. apply Hv.
    + etrans; [exact Hkeep|]. etrans; [by eapply evolves_keeps|].
      etrans; [eapply evolves_keeps, (evolves_alloc [Leaf ∅])|apply keeps_set_root].
  - destruct Hout as [-> Hlab]. specialize (Hks ltac:(done)).
    pose proof (kids_ok_length _ _ _ _ _ Hks) as Hl. simpl in Hl. injection Hl as Hl.
    unfold promoted_of. cbn [tail].
    destruct cs as [|c1 cs].
    + destruct qs; [|done]. apply wp_ret. 
      destruct (rooted_piece prm h t s [] c0 s1 Hrt Hbc Hlab eq_refl) as (Hrt' & Hv & Hkp).
      inversion Hks as [? ? ? Hg|]; subst. exists h, c0. split_and!; [done| | | |].
      * destruct h as [|h], c0 as [id e|id ps ks b]; try done. simpl in *. apply Hg.
      * intros k. etrans; [apply Hv|apply Hview].
      * by etrans.
      * intros H0'. specialize (Hm H0'). simpl in Hm. lia.
    + destruct qs as [|q qs]; [done|].
      destruct (rooted_new_root prm h t s (q :: qs) (c0 :: c1 :: cs) s1 _ Hrt Hbc Hks eq_refl)
        as (Hrt' & Hv & Hkp & Hl').
      assert (zip (q :: qs) (map label (c1 :: cs)) = (q, label c1) :: zip qs (map label cs)) as -> by done.
      apply wp_bind, wp_get. cbv zeta. apply wp_bind, wp_alloc, wp_bind, wp_modify, wp_ret.
      exists (length (c0 :: c1 :: cs)). split; [apply Hfew; simpl; lia|].
      exists (S h), (TInt (length (nodes s1)) (q :: qs) (c0 :: c1 :: cs) ∅).
      assert ((q, label c1) :: zip qs (map label cs) = zip (q :: qs) (map label (c1 :: cs))) as -> by done.
      rewrite fst_zip; [rewrite length_map; lia|]. rewrite snd_zip; [rewrite length_map; lia|].
      rewrite (ev_root _ _ _ Hev) Hroot -Hlab. split_and!; [exact Hrt'|exact Hl'| |done| | |].
      * rewrite tree_cost_TInt. inversion Hks as [|? ? ? ? ? ? ? ? Hg]; subst.
        apply good_height_cost in Hg. simpl. lia.
      * intros k. etrans; [apply Hv|apply Hview].
      * by etrans.
      * right. eauto 10.
Qed.

Lemma restore_step_spec t0 s0 n s :
  restoring t0 s0 n s →
  wp (restore_step thr tr tt) (λ r s', match r with
    | Continue _ => ∃ n', n' < n ∧ restoring t0 s0 n' s'
    | Break _ => restored t0 s0 s'
    end) s.
Proof using All.
  intros (h & t & Hrt & Hset & Hh & Hw & Hv & Hkp & Hn).
  assert (∀ (k : Outcome → M (BeTree P) (ctl unit unit)) Q,
    wp (outcome ← (n ← node (root s);
      match n with
      | Internal _ _ _ => flush_with (root s) thr tr
      | Leaf _ => promoted ← split_if_needed (root s); mret (Splits promoted)
      end); k outcome) Q s →
    wp (self ← get_; n ← node (root self);
      outcome ← match n with
        | Internal _ _ _ => flush_with (root self) thr tr
        | Leaf _ => promoted ← split_if_needed (root self); mret (Splits promoted)
        end; k outcome) Q s) as Hassoc.
  { intros k Q (a & s' & Hrun & HQ). exists a, s'. split; [|done].
    unfold get_, mbind, M_bind in *. by destruct (node (root s) s) as [[]| | |]. }
  apply Hassoc, wp_bind. destruct Hn as [->|(id & qs & cs & -> & -> & Hm)].
  - eapply wp_mono; [by eapply root_outcome|]. intros out s1 (qs & cs & Hout & Hbc & Hk & Hm).
    eapply settle_root; try done. intros _.
    pose proof (bc_weight _ _ _ _ _ _ _ _ _ Hbc). destruct cs as [|c0 cs]; [simpl; lia|].
    pose proof (kids_weight _ _ _ _ _ _ (Hk ltac:(done))). lia.
  - destruct h as [|h]; [done|].
    pose proof (rooted_flushable prm h _ s Hrt Hset) as Hfl.
    assert (finished thr (TInt id qs cs ∅)) as Hfin.
    { split; [rewrite map_size_empty; lia|done]. }
    apply wp_bind. eapply wp_node; [rewrite (rt_root _ _ _ Hrt); apply repr_label, Hrt|].
    cbn [node_of]. rewrite (rt_root _ _ _ Hrt).
    eapply wp_mono; [by apply (flush_with_finished prm thr tr Hlegal Hthr h None None)|].
    intros out s1 (qs' & cs' & Hout & Hbc & Hk & Hfew).
    eapply settle_root; try done. intros H0'.
    pose proof (bc_msgs _ _ _ _ _ _ _ _ _ Hbc) as Hle. cbn [msgs] in Hle.
    rewrite (Hm H0') map_size_empty in Hle. lia.
Qed.

(** ** Root collapse *)
Lemma collapse_spec t0 s0 s :
  restored t0 s0 s → wp (loopM fuel collapse_step tt) (λ _, restored t0 s0) s.
Proof using All.
  intros (h & t & Hrt & Hrest & Hv & Hkp & Hm).
  apply (wp_loopM _ _ (λ n _ s', ∃ t', rooted prm t' s' ∧ at_rest prm n t' ∧
    (∀ k, vrefines (view t' k) (view t0 k)) ∧ keeps s0 s' ∧ (thr = 0 → msgs t' = 0)) _ h).
  - clear. intros n [] s (t & Hrt & Hrest & Hv & Hkp & Hm).
    apply wp_bind, wp_get, wp_bind. eapply wp_node; [rewrite (rt_root _ _ _ Hrt); apply repr_label, Hrt|].
    assert (restored t0 s0 s) as Hdone by (exists n, t; done).
    destruct n as [|n], t as [id e|id ps ks b]; try done; cbn [node_of].
    { by apply wp_ret. }
    destruct ks as [|c [|c' ks]]; cbn [map]; [by apply wp_ret| |by apply wp_ret].
    destruct (bt_is_empty b) eqn:Eb; [|by apply wp_ret].
    apply bt_is_empty_true in Eb as ->. apply wp_bind, wp_modify, wp_ret.
    exists n. split; [lia|]. exists c. destruct Hrest as (_ & _ & _ & Hks).
    pose proof (kids_ok_length _ _ _ _ _ Hks) as Hl. destruct ps; [|done]. clear Hl.
    inversion Hks as [? ? ? Hg|]; subst.
    assert (∀ k, view (TInt id [] [c] ∅) k = view c k) as Hvc.
    { intros k. by rewrite view_TInt lookup_empty vpush_None. }
    destruct Hrt as [Hp Hd Hroot Hr Hnd Hf].
    apply repr_TInt in Hr as [_ [Hr _]%forest_repr_cons].
    rewrite ids_TInt forest_ids_cons app_nil_r in Hnd. apply NoDup_cons in Hnd as [_ Hnd].
    split_and!.
    + constructor; done.
    + destruct n as [|n], c as [j e|j qs cs b1]; try done. simpl in *. lia.
    + intros k. rewrite -Hvc. apply Hv.
    + etrans; [exact Hkp|apply keeps_set_root].
    + intros H0'. specialize (Hm H0'). simpl in Hm. lia.
  - by exists t.
  - destruct h as [|h], t as [id e|id ps ks b]; try done.
    + apply (fuel_linear s 1). lia.
    + pose proof (good_height_cost _ _ _ _ _ Hrest).
      pose proof (tree_cost_le s _ (rt_repr _ _ _ Hrt) (rt_NoDup _ _ _ Hrt)).
      enough (S (S h) ≤ 2 ^ fuel s) by lia. apply fuel_linear. lia.
Qed.

(** ** [restore_root_with] *)
Lemma restore_root_with_spec h t s :
  rooted prm t s → settling prm h t → h ≤ tree_cost t →
  wp (restore_root_with thr tr) (λ _, restored t s) s.
Proof using All.
  intros Hrt Hset Hh. apply wp_bind.
  apply (wp_mono _ (λ _, restored t s)).
  2: { intros [] s' Hr. by apply collapse_spec. }
  destruct (decide (h = 0 ∧ weight t = 0)) as [[-> Hw]|Hnz].
  - destruct t as [id e|]; [|done]. simpl in Hw. apply map_size_empty_inv in Hw as ->.
    pose proof Hrt as [Hp Hd Hroot Hr Hnd Hf].
    assert (restored (TLeaf id ∅) s s) as Hres.
    { exists 0, (TLeaf id ∅). split_and!; [done|simpl; rewrite map_size_empty; lia| |reflexivity|done].
      intros k. reflexivity. }
    apply (wp_loopM _ _ (λ n _ s', n = 0 ∧ s' = s) _ 0);
      [|done|apply (fuel_linear s 1); lia].
    intros n [] s' [-> ->]. apply wp_bind, wp_get, wp_bind.
    eapply wp_node; [rewrite Hroot; apply repr_label, Hr|]. cbn [node_of label].
    apply wp_bind, wp_bind, wp_bind. eapply wp_node; [rewrite Hroot; apply repr_label, Hr|].
    apply wp_bind, wp_get. cbn [node_of]. unfold bt_len. rewrite map_size_empty Hp.
    destruct (_ <? _) eqn:E; [apply Nat.ltb_lt in E; lia|].
    apply wp_ret, wp_ret, wp_ret. done.
  - apply (wp_loopM _ _ (λ n _ s', restoring t s n s') _ (weight t + 1)).
    + intros n [] s' Hn. by apply restore_step_spec.
    + exists h, t. split_and!; try done; [lia|by left..]. 
    + by apply weight_fuel.
Qed.
End restore.
