(* ===== verification/Reads.v ===== *)
(** * Reads of the Bε-tree

    [get] and [scan] return the value the view of each key denotes, and
    leave the tree alone. *)

From S2P Require Export Restore.
From stdpp Require Import options.
From Stdlib Require Import ZArith.

(** ** Folds over entries with distinct keys *)
Section fold.
Context {V W : Type} (f : BTreeMap W → Key * V → BTreeMap W) (g : V → option W → option W).
Hypothesis f_eq : ∀ m k v, f m (k, v) !! k = g v (m !! k).
Hypothesis f_ne : ∀ m k v j, j ≠ k → f m (k, v) !! j = m !! j.

Lemma foldl_absent m l k : (∀ v, (k, v) ∉ l) → foldl f m l !! k = m !! k.
Proof using f_ne.
  revert m. induction l as [|[j w] l IH]; intros m Hk; simpl; [done|].
  rewrite IH; [intros v Hv; apply (Hk v); by right|].
  apply f_ne. intros ->. apply (Hk w). by left.
Qed.

Lemma foldl_present m l k v : NoDup l.*1 → (k, v) ∈ l → foldl f m l !! k = g v (m !! k).
Proof using f_eq f_ne.
  revert m. induction l as [|[j w] l IH]; intros m Hnd Hk; [by inversion Hk|].
  simpl in Hnd. apply NoDup_cons in Hnd as [Hj Hnd]. simpl.
  apply elem_of_cons in Hk as [[= -> ->]|Hk].
  - rewrite foldl_absent; [|apply f_eq]. intros u Hu. apply Hj.
    by apply (list_elem_of_fmap_2 fst) in Hu.
  - rewrite IH // f_ne //. intros ->. apply Hj. by apply (list_elem_of_fmap_2 fst) in Hk.
Qed.

(** The fold over the entries of a map that a predicate selects. *)
Lemma foldl_range m (b : BTreeMap V) (lo hi : Bound) k :
  foldl f m (filter (λ kv, in_bounds lo hi kv.1 = true) (bt_iter b)) !! k =
  match b !! k with
  | Some v => if in_bounds lo hi k then g v (m !! k) else m !! k
  | None => m !! k
  end.
Proof using f_eq f_ne.
  assert (NoDup (filter (λ kv, in_bounds lo hi kv.1 = true) (bt_iter b)).*1) as Hnd.
  { eapply (sublist_NoDup _ (bt_iter b).*1); [apply NoDup_fst_bt_iter|]. apply fmap_sublist, sublist_filter. }
  destruct (b !! k) as [v|] eqn:Hk; [destruct (in_bounds lo hi k) eqn:Hb|].
  - apply foldl_present; [done|]. apply list_elem_of_filter. split; [done|]. by apply elem_of_bt_iter.
  - apply foldl_absent. intros u [Hu _]%list_elem_of_filter. simpl in Hu. congruence.
  - apply foldl_absent. intros u [_ Hu%elem_of_bt_iter]%list_elem_of_filter. congruence.
Qed.
End fold.

Lemma lookup_insert_entries acc (e : BTreeMap LeafEntry) lo hi k :
  insert_entries acc (filter (λ kv, in_bounds lo hi kv.1 = true) (bt_iter e)) !! k =
  match e !! k with
  | Some x => if in_bounds lo hi k then Some (le_value x) else acc !! k
  | None => acc !! k
  end.
Proof.
  apply (foldl_range (λ acc '(k, e), <[k := le_value e]> acc) (λ x _, Some (le_value x))).
  - intros. by rewrite lookup_insert_eq.
  - intros. by rewrite lookup_insert_ne.
Qed.

Lemma lookup_apply_messages acc (b : BTreeMap Message) lo hi k :
  apply_messages acc (filter (λ kv, in_bounds lo hi kv.1 = true) (bt_iter b)) !! k =
  match b !! k with
  | Some m => if in_bounds lo hi k then msg_apply m (acc !! k) else acc !! k
  | None => acc !! k
  end.
Proof.
  apply (foldl_range _ msg_apply).
  - intros m j [s v|s|s op]; simpl; by rewrite ?lookup_insert_eq ?lookup_delete_eq.
  - intros m j [s v|s|s op] i Hi; by rewrite ?lookup_insert_ne ?lookup_delete_ne.
Qed.

(** ** Clipping is routing *)
Definition child_lo (lo : Bound) (ps : list Key) (i : nat) : Bound :=
  match i with 0 => lo | S j => match ps !! j with Some p => clip_lower lo p | None => lo end end.
Definition child_hi (hi : Bound) (ps : list Key) (i : nat) : Bound :=
  match ps !! i with Some p => clip_upper hi p | None => hi end.

Lemma in_bounds_child lo hi ps i k :
  StronglySorted key_lt ps → i ≤ length ps →
  in_bounds (child_lo lo ps i) (child_hi hi ps i) k =
  in_bounds lo hi k && bool_decide (route ps k = i).
Proof.
  intros Hs Hi. unfold in_bounds.
  assert (above_lower (child_lo lo ps i) k = above_lower lo k && bool_decide (i ≤ route ps k)) as ->.
  { destruct i as [|j]; cbn [child_lo].
    - rewrite bool_decide_true; [lia|by rewrite andb_true_r].
    - destruct (lookup_lt_is_Some_2 ps j) as [p Hp]; [lia|]. rewrite Hp above_clip_lower. f_equal.
      apply eq_true_iff_eq. rewrite key_leb_le bool_decide_eq_true -(route_lt_pivot _ _ _ k Hs Hp). lia. }
  assert (below_upper (child_hi hi ps i) k = below_upper hi k && bool_decide (route ps k ≤ i)) as ->.
  { unfold child_hi. destruct (ps !! i) as [p|] eqn:Hp.
    - rewrite below_clip_upper. f_equal. apply eq_true_iff_eq.
      rewrite key_ltb_lt bool_decide_eq_true -key_not_le -(route_lt_pivot _ _ _ k Hs Hp). lia.
    - apply lookup_ge_None in Hp. pose proof (route_le ps k).
      rewrite bool_decide_true; [lia|by rewrite andb_true_r]. }
  destruct (above_lower lo k), (below_upper hi k); simpl; try by rewrite ?andb_false_r.
  apply eq_true_iff_eq. rewrite andb_true_iff !bool_decide_eq_true. lia.
Qed.

Section reads.
Context {P : Type} (prm : Params).
Implicit Types (s : BeTree P) (t c : tree).

(** The shape the reads rely on: the root, or any node below it. *)
Definition readable (h : nat) t : Prop := at_rest prm h t ∨ ∃ lo hi, good prm h lo hi t.

Lemma readable_inv h t : readable h t →
  match h, t with
  | 0, TLeaf _ _ => True
  | S h, TInt _ ps ks b => ∃ lo hi, kids_ok (good prm h) lo hi ps ks
  | _, _ => False
  end.
Proof.
  intros [Hr|(lo & hi & Hg)]; destruct h as [|h], t as [id e|id ps ks b]; try done; simpl in *.
  - destruct Hr as (_ & _ & _ & ?). eauto.
  - destruct Hg as (_ & _ & _ & ?). eauto.
Qed.

Lemma forest_repr_lookup s ks i c : forest_repr (arena s) ks → ks !! i = Some c → repr (arena s) c.
Proof.
  intros Hr Hi. rewrite -(take_drop_middle _ _ _ Hi) in Hr.
  by apply forest_repr_app in Hr as [_ [? _]%forest_repr_cons].
Qed.

(** ** [get] *)
Lemma get_loop_spec h t key s :
  repr (arena s) t → readable h t → h < 2 ^ fuel s →
  wp (loopM fuel (get_step key) (None, label t)) (λ v s', v = vval (view t key) ∧ s' = s) s.
Proof.
  intros Hr Hread Hf.
  apply (wp_loopM _ _ (λ n '(chain, id) s', s' = s ∧ ∃ c, label c = id ∧ repr (arena s) c ∧
    readable n c ∧ apply_chain chain (vval (view c key)) = vval (view t key)) _ h); [|by eauto 10|done].
  clear Hr Hread Hf. intros n [chain id] s' (-> & c & <- & Hr & Hread & Hv).
  apply wp_bind. eapply wp_node; [by apply repr_label|].
  apply readable_inv in Hread. destruct n as [|n], c as [id e|id ps ks b]; try done; cbn [node_of].
  - apply wp_ret. split; [|done]. by rewrite -Hv.
  - destruct Hread as (lo & hi & Hks). apply repr_TInt in Hr as [_ Hkr].
    destruct (kids_pick _ _ _ _ _ key Hks) as (c & Hc & Hg & _).
    rewrite view_TInt /kview Hc in Hv.
    assert (∀ chain', apply_chain chain' (vval (view c key)) = vval (view t key) →
      wp (id ← lift (expect (map label ks !! route ps key)); mret (Continue (chain', id)))
        (λ r s', match r with
          | Continue l' => ∃ n', n' < S n ∧ (let '(chain, id) := l' in s' = s ∧ ∃ c, label c = id ∧
              repr (arena s) c ∧ readable n' c ∧ apply_chain chain (vval (view c key)) = vval (view t key))
          | Break v => v = vval (view t key) ∧ s' = s
          end) s) as Hdescend.
    { intros chain' Hv'. apply wp_bind. eapply wp_lift; [by rewrite list_lookup_fmap Hc|].
      apply wp_ret. exists n. split; [lia|]. split; [done|]. exists c.
      split_and!; [done|by eapply forest_repr_lookup|right; eauto|done]. }
    destruct (b !! key) as [[sq v|sq|sq [d]]|]; cbn [vpush option_list] in Hv.
    + apply wp_ret. by rewrite -Hv.
    + apply wp_ret. by rewrite -Hv.
    + eapply wp_mono; [apply Hdescend|by intros [[]|]].
      rewrite apply_chain_add -Hv. by destruct (view c key).
    + eapply wp_mono; [apply Hdescend|by intros [[]|]].
      rewrite -Hv. by destruct (view c key).
Qed.

(** ** [scan] *)

(** The contents of a subtree in a range. *)
Definition in_scan (lo hi : Bound) (v : Key → View) (acc : BTreeMap Value) : Prop :=
  ∀ k, acc !! k = if in_bounds lo hi k then vval (v k) else None.

Lemma clip_child_lo_Ok (ps : list Key) i lo :
  i ≤ length ps → clip_child_lo ps i lo = Ok (child_lo lo ps i).
Proof.
  intros Hi. unfold clip_child_lo. destruct i as [|j]; cbn [Nat.eqb child_lo]; [done|].
  rewrite Nat.sub_succ Nat.sub_0_r. destruct (lookup_lt_is_Some_2 ps j) as [p Hp]; [lia|].
  by rewrite Hp.
Qed.

Lemma clip_child_hi_Ok (ps : list Key) i hi :
  i ≤ length ps → clip_child_hi ps i hi = Ok (child_hi hi ps i).
Proof.
  intros Hi. unfold clip_child_hi, child_hi.
  destruct (i =? length ps) eqn:E; [apply Nat.eqb_eq in E|apply Nat.eqb_neq in E].
  - by rewrite (proj2 (lookup_ge_None ps i)); [lia|].
  - destruct (lookup_lt_is_Some_2 ps i) as [p Hp]; [lia|]. by rewrite Hp.
Qed.

Definition finish_frame (rest : list Frame) (acc : BTreeMap Value)
    : M (BeTree P) (ctl (list Frame) (list (Key * Value))) :=
  match rest with
  | parent :: rest =>
      mret (Continue (mkFrame (fr_id parent) (fr_lo parent) (fr_hi parent)
        (fr_next_child parent) (bt_append (fr_acc parent) acc) :: rest))
  | [] => mret (Break (bt_iter acc))
  end.

(** The frame of [t] runs its children, then folds its own messages. *)
Definition scans t s : Prop := ∀ lo hi rest, range_is_empty lo hi = false →
  ∃ m acc0 acc n, reaches scan_step m (mkFrame (label t) lo hi 0 ∅ :: rest, s)
      (mkFrame (label t) lo hi n acc0 :: rest, s) ∧
    scan_step (mkFrame (label t) lo hi n acc0 :: rest) s = finish_frame rest acc s ∧
    in_scan lo hi (view t) acc ∧ m + 2 ≤ 2 * length (ids t).

(** What the frame has gathered from the first [j] children. *)
Definition gathered lo hi (ps : list Key) (ks : list tree) (j : nat) (acc : BTreeMap Value) : Prop :=
  ∀ k, acc !! k =
    if in_bounds lo hi k && bool_decide (route ps k < j) then vval (kview ps ks k) else None.

Lemma gathered_skip lo hi ps ks j acc :
  StronglySorted key_lt ps → j ≤ length ps →
  (∀ k, in_bounds (child_lo lo ps j) (child_hi hi ps j) k = false) →
  gathered lo hi ps ks j acc → gathered lo hi ps ks (j + 1) acc.
Proof.
  intros Hs Hj Hempty Hg k. rewrite Hg. specialize (Hempty k). rewrite in_bounds_child // in Hempty.
  destruct (in_bounds lo hi k); [|done]. simpl in *. apply bool_decide_eq_false in Hempty.
  do 2 case_bool_decide; done || lia.
Qed.

Lemma gathered_child lo hi ps ks j c acc acc' :
  StronglySorted key_lt ps → j ≤ length ps → ks !! j = Some c →
  (∀ k, acc' !! k = match (if in_bounds (child_lo lo ps j) (child_hi hi ps j) k
    then vval (view c k) else None) with Some v => Some v | None => acc !! k end) →
  gathered lo hi ps ks j acc → gathered lo hi ps ks (j + 1) acc'.
Proof.
  intros Hs Hj Hc Hacc Hg k. rewrite Hacc Hg in_bounds_child //.
  destruct (in_bounds lo hi k); [|done]. simpl. case_bool_decide as Hr.
  - rewrite bool_decide_false; [lia|]. rewrite bool_decide_true; [lia|].
    rewrite /kview Hr Hc. by destruct (vval (view c k)).
  - do 2 case_bool_decide; done || lia.
Qed.

(** One child of a frame. *)
Lemma scan_child id ps ks b s lo hi rest j c acc rlo rhi h :
  repr (arena s) (TInt id ps ks b) → kids_ok (good prm h) rlo rhi ps ks →
  (∀ c, c ∈ ks → match c with TLeaf _ _ => True | TInt _ _ _ _ => scans c s end) →
  ks !! j = Some c → gathered lo hi ps ks j acc →
  ∃ m acc', reaches scan_step m (mkFrame id lo hi j acc :: rest, s)
    (mkFrame id lo hi (j + 1) acc' :: rest, s) ∧ gathered lo hi ps ks (j + 1) acc' ∧
    m ≤ 2 * length (ids c).
Proof.
  intros Hr Hks Hscan Hj Hg. pose proof Hr as [Hid Hkr]%repr_TInt.
  pose proof (kids_ok_length _ _ _ _ _ Hks) as Hl. pose proof (lookup_lt_Some _ _ _ Hj) as Hjl.
  pose proof (kids_ok_sorted _ _ _ _ _ Hks) as Hs. assert (j ≤ length ps) as Hjp by lia.
  pose proof (forest_repr_lookup _ _ _ _ Hkr Hj) as Hrc.
  assert (1 ≤ length (ids c)) as Hlc by (destruct c; rewrite ?ids_TInt ?ids_TLeaf; simpl; lia).
  (* the part of the body before the child is looked at *)
  assert (scan_step (mkFrame id lo hi j acc :: rest) s =
    (let frame := mkFrame id lo hi (j + 1) acc in
     if range_is_empty (child_lo lo ps j) (child_hi hi ps j) then mret (Continue (frame :: rest))
     else match node_of c with
       | Leaf entries =>
           l ← lift (bt_range entries (child_lo lo ps j) (child_hi hi ps j));
           mret (Continue (mkFrame id lo hi (j + 1) (insert_entries acc l) :: rest))
       | Internal _ _ _ =>
           mret (Continue (mkFrame (label c) (child_lo lo ps j) (child_hi hi ps j) 0 ∅ :: frame :: rest))
       end) s) as Ebody.
  { unfold scan_step, node, get_, lift, mbind, M_bind. cbn [fr_id fr_next_child fr_lo fr_hi fr_acc].
    unfold arena in Hid. rewrite Hid. cbn [expect].
    rewrite length_map (proj2 (Nat.ltb_lt _ _) Hjl). rewrite clip_child_lo_Ok // clip_child_hi_Ok //.
    cbv zeta. destruct (range_is_empty _ _); [done|].
    rewrite list_lookup_fmap Hj. cbn [fmap option_fmap option_map expect].
    pose proof (repr_label _ _ Hrc) as Hnc. unfold arena in Hnc. rewrite Hnc. cbn [expect].
    by destruct (node_of c). }
  cbv zeta in Ebody. destruct (range_is_empty (child_lo lo ps j) (child_hi hi ps j)) eqn:Ere.
  { exists 1, acc. split_and!; [by apply reaches_one| |lia]. apply gathered_skip; [done..| |done].
    intros k. by apply range_is_empty_true. }
  destruct c as [cid e|cid cps cks cb]; cbn [node_of] in Ebody.
  - rewrite bt_range_Ok in Ebody; [by apply range_is_empty_false|].
    exists 1. eexists. split_and!; [apply reaches_one; exact Ebody| |lia].
    eapply gathered_child; [done..| |exact Hg]. intros k. rewrite lookup_insert_entries.
    unfold vval. simpl. destruct (e !! k); simpl; by destruct (in_bounds _ _ k).
  - assert (TInt cid cps cks cb ∈ ks) as Hin by (by eapply list_elem_of_lookup_2).
    destruct (Hscan _ Hin (child_lo lo ps j) (child_hi hi ps j)
      (mkFrame id lo hi (j + 1) acc :: rest) Ere) as (m & acc0 & acc1 & n & Hreach & Hfin & Hin' & Hm).
    exists (1 + (m + 1)). eexists. split_and!.
    + eapply reaches_trans; [apply reaches_one; exact Ebody|].
      eapply reaches_trans; [exact Hreach|]. apply reaches_one. rewrite Hfin. reflexivity.
    + eapply gathered_child; [done..| |exact Hg]. intros k. cbn [fr_acc].
      by rewrite lookup_append Hin'.
    + lia.
Qed.

Lemma scan_kids id ps ks b s lo hi rest rlo rhi h j :
  repr (arena s) (TInt id ps ks b) → kids_ok (good prm h) rlo rhi ps ks →
  (∀ c, c ∈ ks → match c with TLeaf _ _ => True | TInt _ _ _ _ => scans c s end) →
  j ≤ length ks →
  ∃ m acc, reaches scan_step m (mkFrame id lo hi 0 ∅ :: rest, s) (mkFrame id lo hi j acc :: rest, s) ∧
    gathered lo hi ps ks j acc ∧ m ≤ 2 * sum_list_with (λ c, length (ids c)) (take j ks).
Proof.
  intros Hr Hks Hscan. induction j as [|j IH]; intros Hj.
  - exists 0, ∅. split_and!; [constructor| |lia]. intros k.
    rewrite lookup_empty bool_decide_false; [lia|by rewrite andb_false_r].
  - destruct (IH ltac:(lia)) as (m & acc & Hreach & Hg & Hm).
    destruct (lookup_lt_is_Some_2 ks j) as [c Hc]; [lia|].
    destruct (scan_child id ps ks b s lo hi rest j c acc rlo rhi h Hr Hks Hscan Hc Hg)
      as (m' & acc' & Hreach' & Hg' & Hm').
    exists (m + m'), acc'. rewrite (take_S_r _ _ _ Hc) sum_list_with_app /= -(Nat.add_1_r j).
    split_and!; [by eapply reaches_trans|done|lia].
Qed.

Lemma scans_ok h : ∀ t s, repr (arena s) t → readable h t →
  match t with TLeaf _ _ => True | TInt _ _ _ _ => scans t s end.
Proof.
  induction h as [|h IH]; intros t s Hr Hread; pose proof (readable_inv _ _ Hread) as Hk;
    destruct t as [id e|id ps ks b]; try done.
  destruct Hk as (rlo & rhi & Hks). intros lo hi rest Hne.
  pose proof Hr as [Hid Hkr]%repr_TInt.
  assert (∀ c, c ∈ ks → match c with TLeaf _ _ => True | TInt _ _ _ _ => scans c s end) as Hscan.
  { intros c Hc. apply IH.
    - apply list_elem_of_lookup in Hc as [i Hi]. by eapply forest_repr_lookup.
    - pose proof (kids_ok_Forall _ _ _ _ _ Hks) as Hall. rewrite Forall_forall in Hall.
      right. by apply Hall. }
  destruct (scan_kids id ps ks b s lo hi rest rlo rhi h (length ks) Hr Hks Hscan) as (m & acc & Hreach & Hg & Hm);
    [done|].
  set (acc1 := apply_messages acc (filter (λ kv, in_bounds lo hi kv.1 = true) (bt_iter b))).
  exists m, acc, acc1, (length ks). split_and!; [exact Hreach| | |].
  - unfold scan_step, node, get_, lift, mbind, M_bind. cbn [fr_id fr_next_child fr_lo fr_hi fr_acc label].
    unfold arena in Hid. rewrite Hid. cbn [expect]. rewrite length_map Nat.ltb_irrefl.
    rewrite bt_range_Ok; [by apply range_is_empty_false|]. done.
  - intros k. unfold acc1. rewrite lookup_apply_messages view_TInt.
    assert (acc !! k = if in_bounds lo hi k then vval (kview ps ks k) else None) as Hacc.
    { rewrite Hg. rewrite bool_decide_true; [by eapply kids_ok_route_lt|]. by rewrite andb_true_r. }
    destruct (b !! k) as [msg|] eqn:Hb.
    + rewrite vval_vpush Hacc. by destruct (in_bounds lo hi k).
    + by rewrite vpush_None Hacc.
  - rewrite take_ge // in Hm. rewrite length_ids_TInt. lia.
Qed.

Lemma spec_scan_unique lo hi (m acc : BTreeMap Value) :
  (∀ k, acc !! k = if in_bounds lo hi k then m !! k else None) → bt_iter acc = spec_scan lo hi m.
Proof.
  intros Hacc. apply sorted_ext.
  - apply bt_iter_sorted.
  - apply StronglySorted_filter, bt_iter_sorted.
  - intros [k v]. unfold spec_scan. rewrite list_elem_of_filter !elem_of_bt_iter Hacc. simpl.
    destruct (in_bounds lo hi k); naive_solver.
Qed.

(** The result of a scan, for the contents the views denote. *)
Lemma scan_tree_spec h t lo hi (m : BTreeMap Value) s :
  repr (arena s) t → NoDup (ids t) → at_rest prm h t → root s = label t →
  (∀ k, vval (view t k) = m !! k) →
  wp (scan lo hi) (λ r s', r = ROk (spec_scan lo hi m) ∧
    s' = set_trace (Recorder_scan (trace s) lo hi) s) s.
Proof.
  intros Hr Hnd Hrest Hroot Hv. apply wp_bind, wp_modify.
  destruct (range_is_empty lo hi) eqn:Ere.
  { apply wp_ret. by rewrite spec_scan_empty. }
  set (s1 := set_trace (Recorder_scan (trace s) lo hi) s). apply wp_bind, wp_get, wp_bind.
  assert (repr (arena s1) t) as Hr1 by done.
  eapply wp_node; [change (root s1) with (root s); rewrite Hroot; by apply repr_label|].
  change (root s1) with (root s). rewrite Hroot.
  destruct t as [id e|id ps ks b]; cbn [node_of label].
  - apply wp_bind. eapply wp_lift; [apply bt_range_Ok; by apply range_is_empty_false|].
    apply wp_ret. split; [|done]. f_equal. unfold spec_scan. apply sorted_ext.
    + pose proof (StronglySorted_filter kv_lt (λ kv, in_bounds lo hi kv.1 = true) _ (bt_iter_sorted e)) as Hs.
      revert Hs. generalize (filter (λ kv, in_bounds lo hi kv.1 = true) (bt_iter e)). clear.
      intros l Hs. induction Hs as [|[k x] l Hs IH Hall]; simpl; constructor; [done|].
      rewrite !Forall_forall in Hall |- *. intros [k' v'] Hin.
      apply list_elem_of_fmap in Hin as ([k2 x2] & [= -> ->] & Hin). by apply (Hall (k2, x2)).
    + apply StronglySorted_filter, bt_iter_sorted.
    + intros [k v]. rewrite list_elem_of_filter elem_of_bt_iter -Hv. simpl. split.
      * intros Hin. apply list_elem_of_fmap in Hin as ([k2 x2] & [= -> ->] & Hin).
        apply list_elem_of_filter in Hin as [? Hin%elem_of_bt_iter]. split; [done|].
        by rewrite /vval /= Hin.
      * intros [Hb Hval]. rewrite /vval /= in Hval. apply fmap_Some in Hval as (x & Hx & ->).
        apply list_elem_of_fmap. exists (k, x). split; [done|]. apply list_elem_of_filter.
        split; [done|]. by apply elem_of_bt_iter.
  - pose proof (scans_ok h _ s1 Hr1 (or_introl Hrest)) as Hscan. simpl in Hscan.
    destruct (Hscan lo hi [] Ere) as (n & acc0 & acc & j & Hreach & Hfin & Hin & Hn).
    apply wp_bind. eapply wp_run.
    { eapply loopM_reaches; [exact Hreach|exact Hfin|].
      enough (2 * length (ids (TInt id ps ks b)) ≤ 2 ^ fuel s1) by lia.
      apply fuel_linear. pose proof (length_ids_le_cost (TInt id ps ks b)).
      pose proof (tree_cost_le s1 _ Hr1 Hnd). lia. }
    apply wp_ret. split; [|done]. f_equal. apply spec_scan_unique. intros k. rewrite Hin.
    by rewrite Hv.
Qed.
End reads.
