(* ===== verification/BeTreeEngine.v ===== *)
(** * The Bε-tree implements the engine interface

    The invariant of [BeTree] between public operations, and the proof that
    every operation preserves it and implements the finite map: the laws of
    [KvEngine], for any lawful flush policy. *)

From S2P Require Export Reads CheckSpec.
From stdpp Require Import options.
From Stdlib Require Import ZArith.

(** [impl NodeSource for BeTree] *)
#[export] Instance BeTree_source {P} : NodeSource (BeTree P) := {|
  src_root := root;
  src_params := params;
  src_node self id := expect (nodes self !! id);
  src_fuel := fuel;
|}.

(** [impl KvEngine for BeTree]; [BeTree::new] installs the greedy policy,
    [with_policy] any other one. *)
Definition engine_with {P} `{FlushPolicy P} (policy : P) : KvEngine (BeTree P) := {|
  kv_new params := with_policy params policy;
  kv_insert := BeTree.insert;
  kv_delete := BeTree.delete;
  kv_upsert := BeTree.upsert;
  kv_scan := BeTree.scan;
  kv_get := BeTree.get;
  kv_check_invariants := check_invariants;
  kv_trace self := rec_v1 (trace self);
  kv_trace2 self := rec_v2 (trace self);
|}.

#[export] Instance engine : KvEngine (BeTree GreedyFullest) := engine_with mkGreedyFullest.

Section inv.
Context {P : Type}.
Implicit Types (s : BeTree P) (t : tree).

(** ** The invariant *)
Record tree_inv s t (h : nat) (m : BTreeMap Value) (n : Z) : Prop := mkTreeInv {
  ti_legal : legal_params (params s) = true;
  ti_rooted : rooted (params s) t s;
  ti_rest : at_rest (params s) h t;
  ti_contents k : vval (view t k) = m !! k;
  ti_below k : vbelow (n + 1) (view t k);
  ti_next_seq : next_seq s = n;
  ti_ops : (0 ≤ ops_since_commit s ≤ n)%Z;
  ti_trace : Recorder_ok (trace s);
}.

Definition Inv s (m : BTreeMap Value) (n : Z) : Prop := ∃ t h, tree_inv s t h m n.

Lemma kids_height_cost prm h lo hi ps ks :
  kids_ok (good prm h) lo hi ps ks → S h ≤ sum_list_with tree_cost ks.
Proof.
  intros Hks. inversion Hks as [? ? c Hc|? ? ? ? c cs ? ? Hc]; subst;
    apply good_height_cost in Hc; simpl; lia.
Qed.

Lemma lookup_singleton_deliver {V} (key k : Key) (msg : Message) (o : option V) (f : Message → option V → option V) :
  match ({[key := msg]} : BTreeMap Message) !! k with Some m => f m o | None => o end =
  if decide (k = key) then f msg o else o.
Proof.
  case_decide as Hk; [subst; by rewrite lookup_singleton_eq|].
  by rewrite lookup_singleton_ne.
Qed.

(** ** [apply_root] *)
Lemma put_root_rooted prm t t1 batch s ds :
  rooted prm t s → delivered t batch t1 → (∀ k, vfresh (view t1 k)) → length ds = length (dirty s) →
  rooted prm t1 (set_nodes (<[root s := node_of t1]> (nodes s)) (set_dirty ds s)).
Proof.
  intros [Hp Hd Hroot Hr Hnd Hf] Hdel Hfr Hds. destruct (delivered_ids _ _ _ Hdel) as [Hlab Hids].
  assert (label t < length (nodes s)) as Hlt.
  { apply arena_lt. rewrite (repr_label _ _ Hr). eauto. }
  assert (evolves [label t] s (set_nodes (<[root s := node_of t1]> (nodes s)) (set_dirty ds s))) as Hev.
  { rewrite Hroot. eapply evolves_trans; [|exact (evolves_put_node _ _ (set_dirty ds s))|set_solver].
    eapply evolves_weaken; [by apply evolves_set_dirty|set_solver]. }
  constructor; [done|by eapply evolves_wf_dirty|by rewrite Hlab| |by rewrite Hids|done].
  assert (arena (set_nodes (<[root s := node_of t1]> (nodes s)) (set_dirty ds s)) (label t) = Some (node_of t1)) as Hn.
  { rewrite Hroot. rewrite (arena_put_node _ _ (set_dirty ds s)) //. by rewrite decide_True. }
  destruct t as [i e|i ps ks b], t1 as [i' e'|i' ps' ks' b']; try done; simpl in Hdel.
  - destruct Hdel as (-> & _). by apply repr_TLeaf.
  - destruct Hdel as (-> & -> & -> & _). apply repr_TInt. split; [done|].
    apply repr_TInt in Hr as [_ Hks]. eapply evolves_forest_repr; [exact Hev|done|].
    rewrite ids_TInt in Hnd. inversion Hnd; set_solver.
Qed.

End inv.

Section engine.
Context {P : Type} `{LawfulPolicy P}.
Implicit Types (s : BeTree P) (t : tree).

Lemma apply_root_spec key msg h t s :
  legal_params (params s) = true → rooted (params s) t s → at_rest (params s) h t →
  (∀ k, vbelow (Message_seq msg) (view t k)) →
  wp (apply_root key msg) (λ _ s', ∃ t',
    rooted (params s) t' s' ∧ (∃ h', at_rest (params s) h' t') ∧ keeps s s' ∧
    ∀ k, vrefines (view t' k) (vpush (({[key := msg]} : BTreeMap Message) !! k) (view t k))) s.
Proof using All.
  intros Hlegal Hrt Hrest Hbelow. pose proof Hrt as [_ Hd Hroot Hr Hnd Hf].
  pose proof (repr_label _ _ Hr) as Hid.
  assert (root s < length (nodes s)) as Hlt.
  { rewrite Hroot. apply arena_lt. eauto. }
  apply wp_bind, wp_get, wp_bind, wp_mark_dirty; [done..|]. intros ds Hds.
  apply wp_bind. eapply wp_node; [rewrite Hroot; exact Hid|].
  assert (∀ t1, delivered t {[key := msg]} t1 → settling (params s) h t1 → h ≤ tree_cost t1 →
    wp restore_root (λ _ s', ∃ t', rooted (params s) t' s' ∧ (∃ h', at_rest (params s) h' t') ∧ keeps s s' ∧
      ∀ k, vrefines (view t' k) (vpush (({[key := msg]} : BTreeMap Message) !! k) (view t k)))
      (set_nodes (<[root s := node_of t1]> (nodes s)) (set_dirty ds s))) as Hrestore.
  { intros t1 Hdel Hset Hh. pose proof (λ k, delivered_view _ _ _ Hdel k) as Hv.
    assert (∀ k, vfresh (view t1 k)) as Hfr.
    { intros k. apply Hv. destruct (decide (k = key)) as [->|Hne].
      - rewrite lookup_singleton_eq. apply vfresh_vpush. split; [apply Hbelow|apply Hf].
      - rewrite lookup_singleton_ne // vpush_None. apply Hf. }
    pose proof (put_root_rooted _ _ _ _ _ ds Hrt Hdel Hfr Hds) as Hrt1.
    apply wp_bind, wp_get. cbn [params set_nodes set_dirty].
    eapply wp_mono; [apply (restore_root_with_spec (params s) (buffer_capacity (params s)) true
      Hlegal (le_n _) h t1); done|].
    intros _ s' (h' & t' & Hrt' & Hrest' & Hv' & Hkp & _). exists t'. split_and!; [done|eauto| |].
    - etrans; [|exact Hkp]. eapply evolves_keeps, (evolves_trans [root s] [root s]).
      + eapply evolves_weaken; [by apply (evolves_set_dirty ds s)|set_solver].
      + exact (evolves_put_node (root s) (node_of t1) (set_dirty ds s)).
      + set_solver.
    - intros k. etrans; [apply Hv'|apply Hv]. }
  destruct t as [id e|id ps ks b]; cbn [node_of].
  - destruct (apply_to_leaf_Ok e key msg) as (e' & Ee & Hk & Hne).
    { intros x Hx. specialize (Hbelow key). simpl in Hbelow. rewrite Hx in Hbelow. by inversion Hbelow. }
    apply wp_bind, wp_bind. eapply wp_lift; [exact Ee|]. apply wp_put_node.
    cbn [nodes set_dirty]. apply (Hrestore (TLeaf id e')).
    + split; [done|]. intros k. unfold deliver_leaf. rewrite lookup_singleton_deliver.
      case_decide as E; [by subst|by apply Hne].
    + by destruct h.
    + destruct h; [|done]. lia.
  - destruct (coalesce_into_Ok b key msg) as (b' & Eb & Hk & Hne).
    { intros x Hx. specialize (Hbelow key). rewrite view_TInt Hx in Hbelow.
      by apply vbelow_vpush in Hbelow as [? _]. }
    apply wp_bind, wp_bind. eapply wp_lift; [exact Eb|]. apply wp_put_node.
    cbn [nodes set_dirty]. destruct h as [|h]; [done|]. destruct Hrest as (_ & _ & _ & Hks).
    apply (Hrestore (TInt id ps ks b')).
    + split_and!; [done..|]. intros k. unfold deliver_buffer. rewrite lookup_singleton_deliver.
      case_decide as E; [by subst|by apply Hne].
    + split_and!; [done|by right|]. intros ->. inversion Hks.
    + apply kids_height_cost in Hks. rewrite tree_cost_TInt. lia.
Qed.

(** ** The mutating ops *)
Definition op_key (op : OpKind2) : Key :=
  match op with Insert2 key _ | Delete2 key | Upsert2 key _ => key end.
Definition op_message (seq : Z) (op : OpKind2) : Message :=
  match op with
  | Insert2 _ value => Put seq value
  | Delete2 _ => Delete seq
  | Upsert2 _ op => Upsert seq op
  end.

Lemma op_message_seq seq op : Message_seq (op_message seq op) = seq.
Proof. by destruct op. Qed.

Lemma lookup_spec_op op (m : BTreeMap Value) seq k :
  spec_op op m !! k = if decide (k = op_key op) then msg_apply (op_message seq op) (m !! k) else m !! k.
Proof.
  destruct op as [j v|j|j op]; simpl; case_decide as Hk; subst;
    by rewrite ?lookup_insert_eq ?lookup_delete_eq ?lookup_insert_ne ?lookup_delete_ne.
Qed.

Lemma run_op_eq (policy : P) op s :
  run_op (H := engine_with policy) op s =
  (seq ← next_op op; apply_root (op_key op) (op_message seq op)) s.
Proof. by destruct op. Qed.

Lemma next_op_spec op s n (Q : Z → BeTree P → Prop) :
  next_seq s = n → (0 ≤ ops_since_commit s ≤ n)%Z → (n < u64_max)%Z →
  Q (n + 1)%Z (set_trace (Recorder_op (trace s) (n + 1) op)
    (set_ops_since_commit (ops_since_commit s + 1) (set_next_seq (n + 1) s))) →
  wp (next_op op) Q s.
Proof.
  intros Hn Ho Hmax HQ. apply wp_bind, wp_get, wp_bind.
  eapply wp_lift; [rewrite Hn; apply u64_add_Ok; lia|]. apply wp_bind, wp_modify, wp_bind.
  eapply wp_lift; [apply u64_add_Ok; lia|]. apply wp_bind, wp_modify, wp_bind, wp_modify, wp_ret.
  exact HQ.
Qed.

Lemma mutate_spec op s m n :
  Inv s m n → (n < u64_max)%Z →
  wp (seq ← next_op op; apply_root (op_key op) (op_message seq op)) (λ _ s',
    Inv s' (spec_op op m) (n + 1) ∧
    ops_of (rec_v2 (trace s')) = ops_of (rec_v2 (trace s)) ++ [((n + 1)%Z, op)]) s.
Proof using All.
  intros (t & h & [Hlegal Hrt Hrest Hm Hb Hn Ho Htr]) Hmax.
  apply wp_bind. eapply next_op_spec; [done..|].
  set (s1 := set_trace _ _).
  assert (rooted (params s) t s1) as Hrt1 by (destruct Hrt; by constructor).
  eapply wp_mono.
  { apply (apply_root_spec (op_key op) (op_message (n + 1) op) h t s1); [done..|].
    intros k. rewrite op_message_seq. apply Hb. }
  intros _ s' (t' & Hrt' & (h' & Hrest') & Hkp & Hv).
  pose proof (kp_params _ _ Hkp) as Hp. change (params s1) with (params s) in *. split.
  - exists t', h'. constructor; rewrite ?Hp; try done.
    + intros k. destruct (Hv k) as [Hval _]. rewrite Hval (lookup_spec_op op m (n + 1)).
      case_decide as Hk; [subst; rewrite lookup_singleton_eq vval_vpush Hm //|].
      rewrite lookup_singleton_ne // vpush_None Hm //.
    + intros k. apply Hv. destruct (decide (op_key op = k)) as [<-|Hne].
      * rewrite lookup_singleton_eq. apply vbelow_vpush. rewrite op_message_seq. split; [lia|].
        eapply vbelow_mono; [|apply Hb]. lia.
      * rewrite lookup_singleton_ne // vpush_None. eapply vbelow_mono; [|apply Hb]. lia.
    + by rewrite (kp_next_seq _ _ Hkp).
    + rewrite (kp_ops _ _ Hkp). simpl. lia.
    + apply (kp_trace _ _ Hkp). simpl. auto with recorder.
  - rewrite (kp_trace_ops _ _ Hkp). simpl. apply ops_of_Recorder_op.
Qed.

(** ** The reads *)
Lemma tree_inv_trace s t h m n tr :
  tree_inv s t h m n → Recorder_ok tr → tree_inv (set_trace tr s) t h m n.
Proof. intros [Hlegal [] Hrest Hm Hb Hn Ho Htr] Hok. by constructor. Qed.

Lemma at_rest_height prm h t : at_rest prm h t → h ≤ tree_cost t.
Proof.
  destruct h as [|h], t as [id e|id ps ks b]; try done; [lia|].
  intros (_ & _ & _ & Hks). apply kids_height_cost in Hks. rewrite tree_cost_TInt. lia.
Qed.

Lemma height_fuel h t s : rooted (params s) t s → h ≤ tree_cost t → h < 2 ^ fuel s.
Proof.
  intros Hrt Hh. pose proof (tree_cost_le s t (rt_repr _ _ _ Hrt) (rt_NoDup _ _ _ Hrt)).
  enough (S h ≤ 2 ^ fuel s) by lia. apply fuel_linear. lia.
Qed.

Lemma get_spec key s m n :
  Inv s m n → wp (get key) (λ v s', v = m !! key ∧ Inv s' m n ∧
    rec_v2 (trace s') = rec_v2 (trace s) ++ [Get2 key]) s.
Proof.
  intros (t & h & Hinv). apply wp_bind, wp_modify, wp_bind, wp_get.
  set (s1 := set_trace _ s).
  assert (tree_inv s1 t h m n) as Hinv1.
  { apply tree_inv_trace; [done|]. pose proof (ti_trace _ _ _ _ _ Hinv). auto with recorder. }
  pose proof Hinv1 as [Hlegal Hrt Hrest Hm Hb Hn Ho Htr]. rewrite (rt_root _ _ _ Hrt).
  eapply wp_mono; [apply (get_loop_spec (params s1) h t key s1); [apply Hrt|by left|]|].
  { eapply height_fuel; [exact Hrt|by eapply at_rest_height]. }
  intros v s' [-> ->]. split_and!; [apply Hm|by exists t, h|done].
Qed.

Lemma scan_spec lo hi s m n :
  Inv s m n → wp (scan lo hi) (λ r s', r = ROk (spec_scan lo hi m) ∧ Inv s' m n ∧
    rec_v2 (trace s') = rec_v2 (trace s) ++ [Scan2 lo hi]) s.
Proof.
  intros (t & h & Hinv). pose proof Hinv as [Hlegal Hrt Hrest Hm Hb Hn Ho Htr].
  eapply wp_mono; [by eapply (scan_tree_spec (params s) h t lo hi m); try apply Hrt|].
  intros r s' [-> ->]. split_and!; [done| |done]. exists t, h.
  apply tree_inv_trace; [done|]. auto with recorder.
Qed.

(** ** Draining *)
Lemma at_rest_settling prm h t : at_rest prm h t → settling prm h t.
Proof.
  destruct h as [|h], t as [id e|id ps ks b]; try done. intros (Hb & _ & _ & Hks).
  split_and!; [done|by right|]. intros ->. inversion Hks.
Qed.

Lemma drain_spec s m n :
  Inv s m n →
  wp drain (λ _ s', ∃ t h, tree_inv s' t h m n ∧ msgs t = 0 ∧
    ops_of (rec_v2 (trace s')) = ops_of (rec_v2 (trace s))) s.
Proof using All.
  intros (t & h & [Hlegal Hrt Hrest Hm Hb Hn Ho Htr]).
  unfold drain.
  eapply wp_mono; [apply (restore_root_with_spec (params s) 0 false Hlegal (Nat.le_0_l _) h t s Hrt)|].
  - by apply at_rest_settling.
  - by eapply at_rest_height.
  - intros [] s' (h' & t' & Hrt' & Hrest' & Hv & Hkp & Hm0). exists t', h'.
    pose proof (kp_params _ _ Hkp) as Hp. split_and!; [|auto|by apply Hkp].
    constructor; rewrite ?Hp; try done.
    + intros k. destruct (Hv k) as [-> _]. apply Hm.
    + intros k. apply Hv, Hb.
    + by rewrite (kp_next_seq _ _ Hkp).
    + by rewrite (kp_ops _ _ Hkp).
    + by apply (kp_trace _ _ Hkp).
Qed.

(** The probe sees the buffered messages of the live tree. *)
Lemma root_has_messages s t h m n :
  tree_inv s t h m n →
  wp (subtree_has_messages (root s)) (λ b s', s' = s ∧ b = bool_decide (0 < msgs t)) s.
Proof.
  intros Hinv. pose proof (ti_rooted _ _ _ _ _ Hinv) as Hrt. rewrite (rt_root _ _ _ Hrt).
  apply subtree_has_messages_spec; [apply Hrt|]. apply ids_fuel; apply Hrt.
Qed.

(** ** The height of the tree *)
Lemma height_spec s t h m n :
  tree_inv s t h m n → wp height (λ r s', s' = s ∧ r = h + 1) s.
Proof.
  intros [_ Hrt Hrest _ _ _ _ _]. apply wp_bind, wp_get.
  apply (wp_loopM _ _ (λ k '(d, id) s', s' = s ∧ d + k = h + 1 ∧
    ∃ c, id = label c ∧ repr (arena s) c ∧ readable (params s) k c) _ h).
  - intros k [d id] s' (-> & Hd & c & -> & Hc & Hr). apply wp_bind.
    eapply wp_node; [by apply repr_label|].
    apply readable_inv in Hr. destruct k as [|k], c as [id e|id ps ks b]; try done; cbn [node_of].
    + apply wp_ret. split; [done|lia].
    + destruct Hr as (lo & hi & Hks).
      assert (∃ c0 l u, ks !! 0 = Some c0 ∧ good (params s) k l u c0) as (c0 & l & u & Hk0 & Hc0)
        by (inversion Hks; subst; naive_solver).
      apply wp_bind. eapply wp_lift; [by rewrite list_lookup_fmap Hk0|]. apply wp_ret.
      exists k. split; [lia|]. split_and!; [done|lia|]. exists c0.
      apply repr_TInt in Hc as [_ Hc].
      split_and!; [done|by eapply forest_repr_lookup|right; eauto].
  - split_and!; [done|lia|]. exists t. split_and!; [by apply Hrt|apply Hrt|by left].
  - eapply height_fuel; [done|by eapply at_rest_height].
Qed.

(** The arena never shrinks below the live tree. *)
Lemma node_count_ge s t h m n : tree_inv s t h m n → length (ids t) ≤ node_count s.
Proof.
  intros [_ Hrt _ _ _ _ _ _]. unfold node_count. rewrite -(length_seq (length (nodes s)) 0).
  apply submseteq_length, NoDup_submseteq; [apply Hrt|]. intros i Hi.
  apply elem_of_seq. split; [lia|]. eapply repr_ids_lt; [apply Hrt|done].
Qed.

(** ** The checker accepts *)
Lemma check_spec s m n : Inv s m n → check_invariants s = Ok (ROk tt).
Proof.
  intros (t & h & [Hlegal Hrt Hrest Hm Hb Hn Ho Htr]).
  assert (repr (src_arena s) t) as Hr.
  { eapply repr_frame; [|apply Hrt]. intros i _. unfold src_arena, arena. simpl.
    by destruct (nodes s !! i). }
  destruct (check_invariants_walk s t) as (r & Hc & Hok); [apply Hrt|done|apply Hrt| |].
  { change (src_fuel s) with (fuel s). pose proof (length_ids_le_cost t).
    pose proof (tree_cost_le s t (rt_repr _ _ _ Hrt) (rt_NoDup _ _ _ Hrt)).
    enough (S (2 * length (ids t)) ≤ 2 ^ fuel s) by lia. apply fuel_linear. lia. }
  rewrite Hc. f_equal. apply Hok. exists h. split; [done|]. intros k. apply Hrt.
Qed.

(** ** Construction *)
Lemma new_tree_inv prm (policy : P) :
  legal_params prm = true →
  tree_inv (mkBeTree prm [Leaf ∅] [true] 0 0 0 policy Recorder_default) (TLeaf 0 ∅) 0 ∅ 0.
Proof.
  intros Hlegal. constructor; simpl; try done; try lia.
  - constructor; simpl; try done.
    + by apply repr_TLeaf.
    + apply NoDup_singleton.
    + intros k. rewrite /vfresh lookup_empty. constructor.
  - rewrite map_size_empty. lia.
  - intros k. rewrite lookup_empty. constructor.
Qed.

Lemma with_policy_spec prm (policy : P) :
  legal_params prm = true → ∃ s, with_policy prm policy = Ok s ∧ Inv s ∅ 0 ∧ rec_v2 (trace s) = [].
Proof.
  intros Hlegal. unfold with_policy. rewrite Hlegal. eexists. split; [reflexivity|]. split; [|done].
  exists (TLeaf 0 ∅), 0. by apply new_tree_inv.
Qed.
End engine.

(** ** The laws *)
#[export] Program Instance laws_with {P} `{LawfulPolicy P} (policy : P) :
    KvEngineLaws (BeTree P) (H := engine_with policy) := {| kv_rep := Inv |}.
Next Obligation. intros. by apply with_policy_spec. Qed.
Next Obligation. intros P ? ? policy op s m n HI Hn. unfold wp. rewrite run_op_eq. by apply mutate_spec. Qed.
Next Obligation. intros P ? ? policy key s m n HI. by apply get_spec. Qed.
Next Obligation. intros P ? ? policy lo hi s m n HI. by apply scan_spec. Qed.
Next Obligation. intros P ? ? policy s m n HI. by eapply check_spec. Qed.

#[export] Instance laws : KvEngineLaws (BeTree GreedyFullest) := laws_with mkGreedyFullest.
