(* ===== verification/Sim.v ===== *)
(** * Simulation support of the in-memory engine ([src/betree.rs])

    [simulate_commit], the analytic cost model of a commit, and
    [fork_for_sim], the compacting deep copy of the live tree. *)

From S2P Require Export BeTreeEngine Format.
From stdpp Require Import options.
From Stdlib Require Import ZArith.

(** [for x in l { acc = f(acc, x) }] in a [&mut self] method. *)
Fixpoint mfold {S A B} (f : B → A → M S B) (b : B) (l : list A) : M S B :=
  match l with
  | [] => mret b
  | a :: l => b ← f b a; mfold f b l
  end.

Section simulate.
Context `{Codec} {P : Type}.

(** [children.iter().copied().filter(|&c| self.dirty[c as usize])] *)
Fixpoint dirty_children (dirty : list bool) (children : list NodeId) : outcome (list NodeId) :=
  match children with
  | [] => mret []
  | c :: children =>
      d ← expect (dirty !! c);
      cs ← dirty_children dirty children;
      mret (if (d : bool) then c :: cs else cs)
  end.

(** The walk over dirty-only edges: [pre], and the stack [visit]. *)
Definition visit_step : list NodeId * list NodeId →
    M (BeTree P) (ctl (list NodeId * list NodeId) (list NodeId)) := λ '(pre, visit),
  match visit with
  | [] => mret (Break pre)
  | id :: visit =>
      let pre := pre ++ [id] in
      n ← node id;
      match n with
      | Internal _ children _ =>
          self ← get_;
          cs ← lift (dirty_children (dirty self) children);
          mret (Continue (pre, rev cs ++ visit))
      | Leaf _ => mret (Continue (pre, visit))
      end
  end.

(** The [DiskNode] form of a node, arena ids standing in for offsets. *)
Definition disk_form (n : Node) : DiskNode :=
  match n with
  | Leaf entries => DiskLeaf entries
  | Internal pivots children buffer => DiskInternal pivots (map Z.of_nat children) buffer
  end.

(** [BeTree::record_payload_len] *)
Definition record_payload_len (id : NodeId) : M (BeTree P) Z :=
  n ← node id;
  match encode_node (disk_form n) with
  | ROk bs => mret (Z.of_nat (length bs))
  | RErr _ => lift Panic
  end.

(** The body of the loop over [pre]. *)
Definition charge (bytes : Z) (id : NodeId) : M (BeTree P) Z :=
  len ← record_payload_len id;
  record ← lift (u64_add RECORD_HEADER_SIZE len);
  bytes ← lift (u64_add bytes record);
  self ← get_;
  ds ← lift (vec_update id (λ _, false) (dirty self));
  _ ← modify (set_dirty ds);
  mret bytes.

(** [BeTree::simulate_commit] *)
Definition simulate_commit : M (BeTree P) Z :=
  self ← get_;
  d ← lift (expect (dirty self !! root self));
  pre ← if (d : bool) then loopM fuel visit_step ([], [root self]) else mret [];
  bytes ← mfold charge 0%Z pre;
  _ ← modify (set_ops_since_commit 0);
  lift (u64_add bytes SUPERBLOCK_SLOT_SIZE).
End simulate.

Section fork.
Context {P P' : Type}.

(** The walk of [fork_for_sim]: the [order] of the live nodes, the [map]
    from their ids to their positions, and the stack. *)
Definition fork_step : list NodeId * gmap NodeId NodeId * list NodeId →
    M (BeTree P) (ctl (list NodeId * gmap NodeId NodeId * list NodeId)
                      (list NodeId * gmap NodeId NodeId)) := λ '(order, map, stack),
  match stack with
  | [] => mret (Break (order, map))
  | id :: stack =>
      let map := <[id := length order]> map in
      let order := order ++ [id] in
      n ← node id;
      match n with
      | Internal _ children _ => mret (Continue (order, map, rev children ++ stack))
      | Leaf _ => mret (Continue (order, map, stack))
      end
  end.

(** The copy of one node, its children renamed. *)
Definition fork_node (map : gmap NodeId NodeId) (n : Node) : outcome Node :=
  match n with
  | Leaf entries => mret (Leaf entries)
  | Internal pivots children buffer =>
      children ← mapM (λ c, expect (map !! c)) children;
      mret (Internal pivots children buffer)
  end.

(** [BeTree::fork_for_sim] *)
Definition fork_for_sim (self : BeTree P) (policy : P') : outcome (BeTree P') :=
  '(walk, _) ← loopM fuel fork_step ([], ∅, [root self]) self;
  let '(order, map) := walk in
  nodes ← mapM (λ id, n ← expect (nodes self !! id); fork_node map n) order;
  dirty ← mapM (λ id, expect (dirty self !! id)) order;
  root ← expect (map !! root self);
  mret (mkBeTree (params self) nodes dirty root (next_seq self) (ops_since_commit self)
    policy Recorder_default).
End fork.

(** ** The cost of a commit *)

(** The dirty nodes that dirty-only edges reach from the root, in the order
    of the walk. *)
Fixpoint dirty_region (ds : list bool) (t : tree) : list (NodeId * Node) :=
  match ds !! label t with
  | Some true =>
      (label t, node_of t) ::
      match t with
      | TLeaf _ _ => []
      | TInt _ _ ks _ => concat (rev (map (dirty_region ds) ks))
      end
  | _ => []
  end.

Lemma concat_rev_filter {A B} (f : A → list B) (p : A → bool) l :
  (∀ a, a ∈ l → p a = false → f a = []) →
  concat (map f (rev (List.filter p l))) = concat (rev (map f l)).
Proof.
  rewrite map_rev. induction l as [|a l IH]; intros Hp; [done|]. cbn [List.filter map rev].
  specialize (IH (λ x Hx, Hp x (list_elem_of_further _ _ _ Hx))).
  destruct (p a) eqn:E; cbn [map rev]; rewrite !concat_app /= app_nil_r IH; [done|].
  by rewrite (Hp a (list_elem_of_here _ _) E) app_nil_r.
Qed.

Lemma length_concat_rev {A} (l : list (list A)) : length (concat (rev l)) = length (concat l).
Proof.
  induction l as [|a l IH]; [done|]. cbn [rev]. rewrite concat_app /= app_nil_r.
  rewrite !length_app IH. lia.
Qed.

Lemma dirty_region_sub ds t : dirty_region ds t ⊆+ nodes_of t.
Proof.
  induction t as [id e|id ps ks b IH] using tree_nested_ind; simpl;
    (destruct (ds !! id) as [[]|]; [|apply submseteq_nil_l..]); [done|].
  apply submseteq_skip. induction IH as [|c ks Hc _ IHks]; [done|]. cbn [map rev flat_map].
  rewrite concat_app /= app_nil_r Permutation_app_comm. by apply submseteq_app.
Qed.

Lemma dirty_region_ids ds t i : i ∈ (dirty_region ds t).*1 → i ∈ ids t.
Proof.
  intros (x & -> & Hx)%list_elem_of_fmap. apply list_elem_of_fmap_2.
  eapply elem_of_submseteq; [exact Hx|apply dirty_region_sub].
Qed.

Lemma dirty_region_NoDup ds t : NoDup (ids t) → NoDup (dirty_region ds t).*1.
Proof.
  destruct (submseteq_Permutation _ _ (dirty_region_sub ds t)) as [k Hk].
  unfold ids. rewrite Hk fmap_app. by intros (? & _)%NoDup_app.
Qed.

Definition dirtyb (ds : list bool) (t : tree) : bool := bool_decide (ds !! label t = Some true).

Lemma dirty_region_clean ds t : dirtyb ds t = false → dirty_region ds t = [].
Proof.
  unfold dirtyb. intros Hd%bool_decide_eq_false. destruct t; simpl in *;
    by destruct (ds !! id) as [[]|].
Qed.

Lemma dirty_children_Ok ds ks :
  Forall (λ c, is_Some (ds !! label c)) ks →
  dirty_children ds (map label ks) = Ok (map label (List.filter (dirtyb ds) ks)).
Proof.
  induction 1 as [|c ks [d Hd] _ IH]; [done|]. simpl. rewrite Hd IH /=.
  assert (dirtyb ds c = d) as -> by (unfold dirtyb; rewrite Hd; by destruct d).
  by destruct d.
Qed.

Lemma forest_repr_filter f (p : tree → bool) ks : forest_repr f ks → forest_repr f (List.filter p ks).
Proof.
  induction ks as [|c ks IH]; [done|]. rewrite forest_repr_cons. intros [Hc Hks]. simpl.
  destruct (p c); [apply forest_repr_cons|]; auto.
Qed.

Section commit.
Context `{Codec} {P : Type}.
Implicit Types (s : BeTree P) (t c : tree).

(** What a record of node [n] takes on disk. *)
Definition record_size (n : Node) : Z :=
  RECORD_HEADER_SIZE + match bincode_node (disk_form n) with
    | Some bs => Z.of_nat (length bs)
    | None => 0
    end.

Definition total_size (l : list (NodeId * Node)) : Z := foldr (λ x, Z.add (record_size x.2)) 0%Z l.

Definition cleaned (l : list (NodeId * Node)) (ds : list bool) : list bool :=
  foldl (λ ds x, alter (λ _, false) x.1 ds) ds l.

Lemma record_size_pos n : (0 < record_size n)%Z.
Proof. unfold record_size, RECORD_HEADER_SIZE. destruct (bincode_node _); lia. Qed.

Lemma total_size_nonneg l : (0 ≤ total_size l)%Z.
Proof. induction l as [|x l IH]; simpl; [lia|]. pose proof (record_size_pos x.2). lia. Qed.

Lemma length_cleaned l ds : length (cleaned l ds) = length ds.
Proof. revert ds. induction l as [|x l IH]; intros ds; [done|]. simpl. by rewrite IH length_alter. Qed.

Lemma lookup_cleaned_out l ds i : i ∉ l.*1 → cleaned l ds !! i = ds !! i.
Proof.
  revert ds. induction l as [|x l IH]; intros ds Hi; [done|]. simpl in *.
  rewrite IH; [set_solver|]. apply list_lookup_alter_ne. set_solver.
Qed.

Lemma lookup_cleaned_in l ds i : i ∈ l.*1 → i < length ds → cleaned l ds !! i = Some false.
Proof.
  revert ds. induction l as [|x l IH]; intros ds Hi Hl; [set_solver|].
  destruct (decide (i ∈ l.*1)) as [Hin|Hout].
  - simpl. apply IH; [done|]. by rewrite length_alter.
  - simpl in Hi. apply elem_of_cons in Hi as [->|]; [|done]. simpl.
    rewrite lookup_cleaned_out // list_lookup_alter_eq.
    destruct (lookup_lt_is_Some_2 ds x.1 Hl) as [d ->]. done.
Qed.

(** Every node of the arena has an encoding. *)
Definition encodable s : Prop := Forall (λ n, is_Some (bincode_node (disk_form n))) (nodes s).

Lemma charge_spec l s : ∀ b,
  wf_dirty s → Forall (λ x, is_Some (bincode_node (disk_form x.2))) l →
  Forall (λ '(i, n), arena s i = Some n) l → (0 ≤ b)%Z → (b + total_size l ≤ u64_max)%Z →
  wp (mfold charge b l.*1) (λ b' s', b' = (b + total_size l)%Z ∧
    s' = set_dirty (cleaned l (dirty s)) s) s.
Proof.
  revert s. induction l as [|[i n] l IH]; intros s b Hd Henc Hl Hb Hmax; cbn [fmap list_fmap mfold fst].
  { apply wp_ret. simpl. rewrite Z.add_0_r. by destruct s. }
  inversion Hl as [|?? Hi Hl']; subst. cbn [total_size foldr snd] in Hmax.
  pose proof (total_size_nonneg l) as Hpos. pose proof (record_size_pos n) as Hrec.
  assert (i < length (nodes s)) as Hlt by (apply arena_lt; eauto).
  fold (total_size l) in Hmax. assert (∃ bs, bincode_node (disk_form n) = Some bs ∧
    record_size n = (RECORD_HEADER_SIZE + Z.of_nat (length bs))%Z) as (bs & Ebs & Hsz).
  { apply Forall_cons in Henc as [[bs E] _]. cbn [snd] in E. exists bs. unfold record_size. by rewrite E. }
  apply wp_bind, wp_bind, wp_bind. eapply wp_node; [exact Hi|].
  unfold encode_node. rewrite Ebs. apply wp_ret, wp_bind.
  eapply wp_lift; [apply u64_add_Ok; lia|]. apply wp_bind.
  eapply wp_lift; [apply u64_add_Ok; lia|]. apply wp_bind, wp_get, wp_bind.
  eapply wp_lift; [apply vec_update_Ok; by rewrite Hd|]. apply wp_bind, wp_modify, wp_ret.
  rewrite -Hsz. eapply wp_mono; [apply IH|].
  - rewrite /wf_dirty /= length_alter. done.
  - by apply Forall_cons in Henc as [_ ?].
  - done.
  - lia.
  - lia.
  - intros b' s' [-> ->]. split; [simpl; fold (total_size l); lia|]. done.
Qed.

Lemma visit_spec t s :
  wf_dirty s → repr (arena s) t → NoDup (ids t) → dirty s !! label t = Some true →
  wp (loopM fuel visit_step ([], [label t])) (λ pre s', s' = s ∧ pre = (dirty_region (dirty s) t).*1) s.
Proof.
  intros Hwf Hr Hnd Hdt. set (rg := λ ts, concat (map (dirty_region (dirty s)) ts)).
  apply (wp_loopM _ _ (λ n '(pre, visit) s', s' = s ∧ ∃ ts, visit = map label ts ∧
    forest_repr (arena s) ts ∧ Forall (λ c, dirtyb (dirty s) c = true) ts ∧ n = length (rg ts) ∧
    pre ++ (rg ts).*1 = (dirty_region (dirty s) t).*1) _ (length (rg [t]))).
  - intros n [pre visit] s' (-> & ts & -> & Hts & Hdts & -> & Hpre). destruct ts as [|c ts]; cbn [map visit_step].
    { apply wp_ret. split; [done|]. by rewrite -Hpre app_nil_r. }
    apply forest_repr_cons in Hts as [Hc Hts]. apply Forall_cons in Hdts as [Hdc Hdts].
    unfold dirtyb in Hdc. apply bool_decide_eq_true in Hdc.
    apply wp_bind. eapply wp_node; [by apply repr_label|].
    destruct c as [id e|id ps ks b]; cbn [node_of label] in *.
    + apply wp_ret. exists (length (rg ts)). unfold rg in *. simpl in *. rewrite Hdc in Hpre |- *.
      split; [simpl; lia|]. split; [done|]. exists ts. split_and!; try done.
      rewrite -Hpre. simpl. by rewrite -app_assoc.
    + apply repr_TInt in Hc as [_ Hks]. apply wp_bind, wp_get. apply wp_bind.
      eapply wp_lift; [apply dirty_children_Ok|].
      { apply Forall_forall. intros c Hc. apply lookup_lt_is_Some. rewrite Hwf.
        eapply forest_ids_lt; [exact Hks|]. apply elem_of_forest_ids. exists c. split; [done|apply label_in_ids]. }
      apply wp_ret. set (sub := rev (List.filter (dirtyb (dirty s)) ks)).
      assert (rg (sub ++ ts) = concat (rev (map (dirty_region (dirty s)) ks)) ++ rg ts) as Erg.
      { unfold rg. rewrite map_app concat_app. f_equal. apply concat_rev_filter.
        intros c _. apply dirty_region_clean. }
      exists (length (rg (sub ++ ts))). rewrite Erg. unfold rg in Hpre |- *. simpl in *.
      rewrite Hdc in Hpre |- *. split; [simpl; rewrite length_app; lia|]. split; [done|].
      exists (sub ++ ts). split_and!.
      * by rewrite map_app /sub map_rev.
      * apply forest_repr_app. split; [|done]. apply forest_repr_rev, forest_repr_filter, Hks.
      * apply Forall_app. split; [|done]. apply Forall_rev, Forall_forall. intros c Hc.
        apply list_elem_of_In, filter_In in Hc as [_ Hc]. done.
      * by rewrite -Erg.
      * fold (rg (sub ++ ts)). rewrite Erg -Hpre -(assoc_L (++)). done.
  - split; [done|]. exists [t]. split_and!; try done.
    + apply forest_repr_cons. split; [done|apply forest_repr_nil].
    + constructor; [|done]. unfold dirtyb. by rewrite bool_decide_true.
    + unfold rg. simpl. by rewrite app_nil_r.
  - unfold rg. cbn [map concat]. rewrite app_nil_r.
    pose proof (submseteq_length _ _ (dirty_region_sub (dirty s) t)) as Hle.
    pose proof (ids_fuel t s Hr Hnd) as Hfuel. unfold ids in Hfuel. rewrite length_fmap in Hfuel. lia.
Qed.

(** The simulated commit charges the dirty region, cleans it, and changes
    nothing else but the commit counter. *)
Lemma simulate_commit_region s t h m n :
  tree_inv s t h m n →
  let region := dirty_region (dirty s) t in
  Forall (λ x, is_Some (bincode_node (disk_form x.2))) region →
  (total_size region + SUPERBLOCK_SLOT_SIZE ≤ u64_max)%Z →
  wp simulate_commit (λ bytes s', bytes = (total_size region + SUPERBLOCK_SLOT_SIZE)%Z ∧
    s' = set_ops_since_commit 0 (set_dirty (cleaned region (dirty s)) s)) s.
Proof.
  intros Hinv region Henc Hmax. pose proof (ti_rooted _ _ _ _ _ Hinv) as [Hp Hd Hroot Hr Hnd Hf].
  assert (label t < length (nodes s)) as Hlt by (eapply repr_ids_lt; [exact Hr|apply label_in_ids]).
  apply wp_bind, wp_get. rewrite Hroot.
  destruct (lookup_lt_is_Some_2 (dirty s) (label t)) as [d Hdt]; [by rewrite Hd|].
  apply wp_bind. eapply wp_lift; [by rewrite Hdt|]. apply wp_bind.
  eapply (wp_mono _ (λ pre s', s' = s ∧ pre = region.*1)).
  { destruct d; [by apply visit_spec|]. apply wp_ret. split; [done|].
    unfold region. rewrite dirty_region_clean //. unfold dirtyb. by rewrite Hdt. }
  intros pre s' [-> ->]. apply wp_bind. eapply wp_mono.
  { apply charge_spec; try done.
    - unfold repr in Hr. rewrite Forall_forall in Hr. apply Forall_forall. intros x Hx.
      eapply Hr, elem_of_submseteq; [exact Hx|apply dirty_region_sub].
    - pose proof (total_size_nonneg region). unfold SUPERBLOCK_SLOT_SIZE in Hmax. simpl. fold region. lia. }
  intros b s' [-> ->]. apply wp_bind, wp_modify.
  eapply wp_lift; [apply u64_add_Ok; lia|]. by split.
Qed.

Lemma region_arena s t : repr (arena s) t → Forall (λ '(i, n), arena s i = Some n) (dirty_region (dirty s) t).
Proof.
  intros Hr. unfold repr in Hr. rewrite Forall_forall in Hr. apply Forall_forall. intros x Hx.
  eapply Hr, elem_of_submseteq; [exact Hx|apply dirty_region_sub].
Qed.

Lemma simulate_commit_spec s t h m n :
  tree_inv s t h m n → encodable s →
  let region := dirty_region (dirty s) t in
  (total_size region + SUPERBLOCK_SLOT_SIZE ≤ u64_max)%Z →
  wp simulate_commit (λ bytes s', bytes = (total_size region + SUPERBLOCK_SLOT_SIZE)%Z ∧
    s' = set_ops_since_commit 0 (set_dirty (cleaned region (dirty s)) s)) s.
Proof.
  intros Hinv Henc region. apply (simulate_commit_region s t h m n Hinv).
  pose proof (region_arena s t (rt_repr _ _ _ (ti_rooted _ _ _ _ _ Hinv))) as Hr.
  eapply Forall_impl; [exact Hr|]. intros [i x] Hi. unfold encodable in Henc. rewrite Forall_forall in Henc.
  by eapply Henc, list_elem_of_lookup_2.
Qed.

Lemma tree_inv_cleaned s t h m n l :
  tree_inv s t h m n → tree_inv (set_ops_since_commit 0 (set_dirty (cleaned l (dirty s)) s)) t h m n.
Proof.
  intros [Hlegal [] Hrest Hm Hb Hn Ho Htr]. constructor; try done; [|simpl; lia].
  constructor; try done. by rewrite /wf_dirty /= length_cleaned.
Qed.

(** After a commit no dirty-only path leaves the root. *)
Lemma cleaned_region_empty s t h m n :
  tree_inv s t h m n → dirty_region (cleaned (dirty_region (dirty s) t) (dirty s)) t = [].
Proof.
  intros Hinv. pose proof (ti_rooted _ _ _ _ _ Hinv) as [Hp Hd Hroot Hr Hnd Hf].
  assert (label t < length (nodes s)) as Hlt by (eapply repr_ids_lt; [exact Hr|apply label_in_ids]).
  apply dirty_region_clean. unfold dirtyb. apply bool_decide_eq_false. intros E.
  destruct (decide (dirty s !! label t = Some true)) as [Ht|Ht].
  - rewrite lookup_cleaned_in // ?Hd // in E.
    destruct t; simpl in *; rewrite Ht; by left.
  - rewrite (dirty_region_clean (dirty s) t) in E; [|done].
    unfold dirtyb. by apply bool_decide_eq_false.
Qed.
End commit.

(** ** Forks *)

(** The tree with its ids renamed. *)
Fixpoint rename (f : NodeId → NodeId) (t : tree) : tree :=
  match t with
  | TLeaf id e => TLeaf (f id) e
  | TInt id ps ks b => TInt (f id) ps (map (rename f) ks) b
  end.

Definition rename_node (f : NodeId → NodeId) (n : Node) : Node :=
  match n with
  | Leaf e => Leaf e
  | Internal ps chs b => Internal ps (map f chs) b
  end.

(** The nodes of a tree in the order of the walk: a node, then its
    children's subtrees, the last child first. *)
Fixpoint walk_nodes (t : tree) : list (NodeId * Node) :=
  (label t, node_of t) ::
  match t with TLeaf _ _ => [] | TInt _ _ ks _ => concat (rev (map walk_nodes ks)) end.

Lemma label_rename f t : label (rename f t) = f (label t).
Proof. by destruct t. Qed.

Lemma node_of_rename f t : node_of (rename f t) = rename_node f (node_of t).
Proof.
  destruct t as [id e|id ps ks b]; [done|]. simpl. rewrite !map_map. f_equal.
  apply map_ext. intros c. apply label_rename.
Qed.

Lemma nodes_of_rename f t :
  nodes_of (rename f t) = map (λ '(i, n), (f i, rename_node f n)) (nodes_of t).
Proof.
  induction t as [id e|id ps ks b IH] using tree_nested_ind; [done|].
  assert (flat_map nodes_of (map (rename f) ks) =
    map (λ '(i, n), (f i, rename_node f n)) (flat_map nodes_of ks)) as Eks.
  { induction IH as [|c ks Hc _ IHks]; [done|]. simpl. by rewrite Hc IHks map_app. }
  pose proof (node_of_rename f (TInt id ps ks b)) as En. simpl in *. by rewrite En Eks.
Qed.

Lemma ids_rename f t : ids (rename f t) = f <$> ids t.
Proof.
  unfold ids. rewrite nodes_of_rename -!list_fmap_compose. apply list_fmap_ext. by intros ? [].
Qed.

Lemma view_rename f t k : view (rename f t) k = view t k.
Proof.
  induction t as [id e|id ps ks b IH] using tree_nested_ind; [done|]. simpl. do 2 f_equal.
  generalize (route ps k) as i. induction IH as [|c ks Hc _ IHks]; intros [|i]; simpl; [done..| |].
  - by rewrite Hc.
  - apply IHks.
Qed.

Lemma kids_ok_map {A B} (R : option Key → option Key → A → Prop)
    (R' : option Key → option Key → B → Prop) (g : A → B) lo hi ps ks :
  (∀ l u c, R l u c → R' l u (g c)) → kids_ok R lo hi ps ks → kids_ok R' lo hi ps (map g ks).
Proof. intros HR. induction 1; simpl; constructor; auto. Qed.

Lemma good_rename prm f h : ∀ lo hi t, good prm h lo hi t → good prm h lo hi (rename f t).
Proof.
  induction h as [|h IH]; intros lo hi [id e|id ps ks b]; try done. simpl.
  intros (Hb & Hsz & Hf & Hks). rewrite length_map. split_and!; [done..|].
  eapply kids_ok_map; [|exact Hks]. auto.
Qed.

Lemma at_rest_rename prm f h t : at_rest prm h t → at_rest prm h (rename f t).
Proof.
  destruct h as [|h], t as [id e|id ps ks b]; try done. intros H.
  exact (good_rename prm f (S h) None None _ H).
Qed.

Lemma walk_nodes_perm t : walk_nodes t ≡ₚ nodes_of t.
Proof.
  induction t as [id e|id ps ks b IH] using tree_nested_ind; [done|]. simpl. constructor.
  induction IH as [|c ks Hc _ IHks]; [done|]. simpl.
  rewrite concat_app /= app_nil_r IHks Hc. apply Permutation_app_comm.
Qed.

Section fork_spec.
Context {P P' : Type}.
Implicit Types (s : BeTree P) (t c : tree).

(** The map holds the positions of the ids in [order]. *)
Definition indexes (map : gmap NodeId NodeId) (order : list NodeId) : Prop :=
  ∀ i j, order !! i = Some j → map !! j = Some i.

Lemma indexes_snoc map order j :
  indexes map order → j ∉ order → indexes (<[j := length order]> map) (order ++ [j]).
Proof.
  intros Hm Hj i k Hi. apply lookup_app_Some in Hi as [Hi|[Hge Hi]].
  - rewrite lookup_insert_ne; [|by apply Hm].
    intros ->. apply Hj. by eapply list_elem_of_lookup_2.
  - apply list_lookup_singleton_Some in Hi as [Hi ->].
    rewrite lookup_insert_eq. f_equal. lia.
Qed.

Lemma fork_walk t s :
  repr (arena s) t → NoDup (ids t) →
  wp (loopM fuel fork_step ([], ∅, [label t])) (λ '(order, map) s', s' = s ∧
    order = (walk_nodes t).*1 ∧ indexes map order) s.
Proof.
  intros Hr Hnd. set (rg := λ ts, concat (map walk_nodes ts)).
  assert (NoDup (walk_nodes t).*1) as Hndw by (by rewrite walk_nodes_perm).
  apply (wp_loopM _ _ (λ n '(order, m, stack) s', s' = s ∧ ∃ ts, stack = map label ts ∧
    forest_repr (arena s) ts ∧ n = length (rg ts) ∧ order ++ (rg ts).*1 = (walk_nodes t).*1 ∧
    indexes m order) _ (length (rg [t]))).
  - intros n [[order m] stack] s' (-> & ts & -> & Hts & -> & Hord & Hm). destruct ts as [|c ts]; cbn [map fork_step].
    { apply wp_ret. split_and!; [done| |done]. by rewrite -Hord app_nil_r. }
    apply forest_repr_cons in Hts as [Hc Hts].
    assert (label c ∉ order) as Hfresh.
    { rewrite -Hord in Hndw. apply NoDup_app in Hndw as (_ & Hx & _). intros Hin.
      apply (Hx _ Hin). unfold rg. cbn [map concat]. destruct c; left. }
    pose proof (indexes_snoc _ _ _ Hm Hfresh) as Hm'.
    apply wp_bind. eapply wp_node; [by apply repr_label|].
    destruct c as [id e|id ps ks b]; cbn [node_of label] in *.
    + apply wp_ret. exists (length (rg ts)). split; [unfold rg; simpl; lia|]. split; [done|].
      exists ts. split_and!; try done. rewrite -Hord -(assoc_L (++)). done.
    + apply repr_TInt in Hc as [_ Hks]. apply wp_ret.
      assert (rg (rev ks ++ ts) = concat (rev (map walk_nodes ks)) ++ rg ts) as Erg.
      { unfold rg. by rewrite map_app concat_app map_rev. }
      exists (length (rg (rev ks ++ ts))). split; [rewrite Erg; unfold rg; simpl; rewrite length_app; lia|].
      split; [done|]. exists (rev ks ++ ts). split_and!; try done.
      * by rewrite map_app map_rev.
      * apply forest_repr_app. split; [by apply forest_repr_rev|done].
      * rewrite Erg -Hord -(assoc_L (++)). done.
  - split; [done|]. exists [t]. split_and!; try done.
    + apply forest_repr_cons. split; [done|apply forest_repr_nil].
    + unfold rg. cbn [map concat]. by rewrite app_nil_r.
  - unfold rg. cbn [map concat]. rewrite app_nil_r.
    pose proof (ids_fuel t s Hr Hnd) as Hfuel. unfold ids in Hfuel. rewrite length_fmap in Hfuel.
    by rewrite (Permutation_length (walk_nodes_perm t)).
Qed.

Lemma mapM_Ok {A B} (f : A → outcome B) (g : A → B) l :
  Forall (λ a, f a = Ok (g a)) l → mapM f l = Ok (map g l).
Proof. induction 1 as [|a l Ha _ IH]; [done|]. simpl. by rewrite Ha IH. Qed.

(** Children of a node of the tree are nodes of the tree. *)
Lemma nodes_of_children t i ps chs b :
  (i, Internal ps chs b) ∈ nodes_of t → Forall (λ x, x ∈ ids t) chs.
Proof.
  induction t as [id e|id ps' ks b' IH] using tree_nested_ind; cbn [nodes_of].
  - intros [?|?]%elem_of_cons; [done|set_solver].
  - rewrite ids_TInt. intros [E|Hin]%elem_of_cons.
    + injection E as -> -> -> ->. apply Forall_forall. intros c Hc. right. by apply label_in_forest_ids.
    + apply list_elem_of_In, in_flat_map in Hin as (c & Hc & Hin).
      rewrite Forall_forall in IH. apply list_elem_of_In in Hc, Hin.
      eapply Forall_impl; [by eapply IH|]. intros x Hx. right. apply elem_of_forest_ids. eauto.
Qed.

Lemma fork_spec s t h m n (policy : P') :
  tree_inv s t h m n → ∃ (s' : BeTree P') (f : NodeId → NodeId), fork_for_sim s policy = Ok s' ∧
    tree_inv s' (rename f t) h m n ∧ node_count s' = length (ids t) ∧ trace s' = Recorder_default ∧
    ops_since_commit s' = ops_since_commit s ∧ BeTree.policy s' = policy ∧
    ∀ i, i ∈ ids t → dirty s' !! f i = dirty s !! i.
Proof.
  intros Hinv. pose proof Hinv as [Hlegal [Hp Hd Hroot Hr Hnd Hf] Hrest Hm Hb Hn Ho Htr].
  destruct (fork_walk t s Hr Hnd) as ([order mp] & s0 & Ewalk & -> & Eord & Hidx).
  set (f := λ i, default 0 (mp !! i)).
  assert (∀ i, i ∈ ids t → ∃ k, mp !! i = Some k ∧ order !! k = Some i) as Hmp.
  { intros i Hi. rewrite /ids -walk_nodes_perm -Eord in Hi.
    apply list_elem_of_lookup in Hi as [k Hk]. exists k. split; [by apply Hidx|done]. }
  assert (∀ i, i ∈ ids t → mp !! i = Some (f i) ∧ order !! f i = Some i) as Hfi.
  { intros i Hi. destruct (Hmp i Hi) as (k & Hk & Hok). unfold f. by rewrite Hk. }
  assert (∀ i, i ∈ order → i ∈ ids t) as Hin by (intros i; by rewrite Eord walk_nodes_perm).
  set (nd := λ i, rename_node f (default (Leaf ∅) (arena s i))).
  set (dt := λ i, default true (dirty s !! i)).
  assert (mapM (λ id, n ← expect (nodes s !! id); fork_node mp n) order = Ok (map nd order)) as Enodes.
  { apply mapM_Ok, Forall_forall. intros i Hi%Hin. unfold nd.
    apply list_elem_of_fmap in Hi as ([j x] & -> & Hi). unfold repr in Hr. rewrite Forall_forall in Hr.
    pose proof (Hr _ Hi) as Hx. cbn [fst]. rewrite Hx. unfold arena in Hx. rewrite Hx /=.
    destruct x as [ps chs b|e]; [|done]. simpl.
    rewrite (mapM_Ok _ f) //. eapply Forall_impl; [by eapply nodes_of_children|].
    intros c Hc. simpl. by destruct (Hfi c Hc) as [-> _]. }
  assert (mapM (λ id, expect (dirty s !! id)) order = Ok (map dt order)) as Edirty.
  { apply mapM_Ok, Forall_forall. intros i Hi%Hin. unfold dt.
    pose proof (repr_ids_lt _ _ _ Hr Hi) as Hlt. rewrite -Hd in Hlt.
    by destruct (lookup_lt_is_Some_2 _ _ Hlt) as [d ->]. }
  assert (label t ∈ ids t) as Hlab by apply label_in_ids.
  eexists _, f. split.
  { unfold fork_for_sim. rewrite Hroot Ewalk. cbn [mbind outcome_bind].
    rewrite Enodes Edirty (proj1 (Hfi _ Hlab)). done. }
  split_and!; try done.
  - constructor; try done.
    + constructor; try done.
      * by rewrite /wf_dirty /= !length_map.
      * simpl. by rewrite label_rename.
      * unfold repr. rewrite nodes_of_rename. apply Forall_forall.
        intros [j x] Hj. apply list_elem_of_fmap in Hj as ([i y] & [= -> ->] & Hi).
        assert (i ∈ ids t) as Hit by (by apply (list_elem_of_fmap_2 fst) in Hi).
        unfold arena. simpl. rewrite list_lookup_fmap (proj2 (Hfi i Hit)) /=. unfold nd.
        unfold repr in Hr. rewrite Forall_forall in Hr. pose proof (Hr _ Hi) as Hx. simpl in Hx.
        by rewrite Hx.
      * rewrite ids_rename.
        apply NoDup_fmap_2_strong; [|done]. intros i j Hi Hj Eij.
        destruct (Hfi i Hi) as [_ Hi']. destruct (Hfi j Hj) as [_ Hj']. congruence.
      * intros k. rewrite view_rename. apply Hf.
    + by apply at_rest_rename.
    + intros k. by rewrite view_rename.
    + intros k. rewrite view_rename. apply Hb.
  - unfold node_count. simpl. rewrite length_map Eord. unfold ids. by rewrite walk_nodes_perm.
  - intros i Hi. simpl. rewrite list_lookup_fmap (proj2 (Hfi i Hi)) /=. unfold dt.
    pose proof (repr_ids_lt _ _ _ Hr Hi) as Hlt. rewrite -Hd in Hlt.
    by destruct (lookup_lt_is_Some_2 _ _ Hlt) as [d ->].
Qed.
End fork_spec.
