(* ===== verification/Lockstep.v ===== *)
(** * Running two programs in lockstep

    A relational logic for programs in the state monad: [sim m1 m2 Φ s d]
    says that if [m1] returns from [s], then [m2], run from [d], returns
    with [Φ] between both results and both states, or ends in the overflow
    of a counter.  The programs may differ in their state, in the error
    results of [m2], and in the fuel of their loops. *)

From S2P Require Export DiskReads.
From stdpp Require Import options.
From Stdlib Require Import ZArith.

Definition sim {S D A B} (m1 : M S A) (m2 : M D B) (Φ : A → S → B → D → Prop) (s : S) (d : D) : Prop :=
  ∀ a s', m1 s = Ok (a, s') → wpo true m2 (λ b d', Φ a s' b d') d.

Section sim.
Context {S D : Type}.
Implicit Types (s : S) (d : D).

Lemma sim_mono {A B} (m1 : M S A) (m2 : M D B) (Φ Ψ : A → S → B → D → Prop) s d :
  sim m1 m2 Φ s d → (∀ a s' b d', Φ a s' b d' → Ψ a s' b d') → sim m1 m2 Ψ s d.
Proof. intros H HΦ a s' E. eapply wpo_mono; [by apply H|auto]. Qed.

Lemma sim_ret {A B} (a : A) (b : B) (Φ : A → S → B → D → Prop) s d :
  Φ a s b d → sim (mret a) (mret b) Φ s d.
Proof. by intros HΦ a' s' [= <- <-]. Qed.

Lemma sim_bind {A B A' B'} (m1 : M S A) (m2 : M D B) (k1 : A → M S A') (k2 : B → M D B') Φ s d :
  sim m1 m2 (λ a s' b d', sim (k1 a) (k2 b) Φ s' d') s d → sim (m1 ≫= k1) (m2 ≫= k2) Φ s d.
Proof.
  intros H a s' (a1 & s1 & E1 & E2)%bind_Ok. apply wpo_bind.
  eapply wpo_mono; [by apply H|]. intros b d' H'. by apply H'.
Qed.

(** One side moves. *)
Lemma sim_l {A A' B} (m1 : M S A) (k1 : A → M S A') (m2 : M D B) Φ s d :
  (∀ a s', m1 s = Ok (a, s') → sim (k1 a) m2 Φ s' d) → sim (m1 ≫= k1) m2 Φ s d.
Proof. intros H a s' (a1 & s1 & E1 & E2)%bind_Ok. by eapply H. Qed.
Lemma sim_r {A B B'} (m1 : M S A) (m2 : M D B) (k2 : B → M D B') Φ s d :
  wpo true m2 (λ b d', sim m1 (k2 b) Φ s d') d → sim m1 (m2 ≫= k2) Φ s d.
Proof. intros H a s' E. apply wpo_bind. eapply wpo_mono; [exact H|]. intros b d' H'. by apply H'. Qed.

Lemma sim_get_l {A B} (k1 : S → M S A) (m2 : M D B) Φ s d :
  sim (k1 s) m2 Φ s d → sim (get_ ≫= k1) m2 Φ s d.
Proof. intros H. apply sim_l. by intros ? ? [= <- <-]. Qed.
Lemma sim_get_r {A B} (m1 : M S A) (k2 : D → M D B) Φ s d :
  sim m1 (k2 d) Φ s d → sim m1 (get_ ≫= k2) Φ s d.
Proof. intros H. by apply sim_r. Qed.
Lemma sim_modify_l {A B} f (k1 : unit → M S A) (m2 : M D B) Φ s d :
  sim (k1 tt) m2 Φ (f s) d → sim (modify f ≫= k1) m2 Φ s d.
Proof. intros H. apply sim_l. by intros ? ? [= <- <-]. Qed.
Lemma sim_modify_r {A B} f (m1 : M S A) (k2 : unit → M D B) Φ s d :
  sim m1 (k2 tt) Φ s (f d) → sim m1 (modify f ≫= k2) Φ s d.
Proof. intros H. by apply sim_r. Qed.
Lemma sim_lift_l {X A B} (o : outcome X) (k1 : X → M S A) (m2 : M D B) Φ s d :
  (∀ x, o = Ok x → sim (k1 x) m2 Φ s d) → sim (lift o ≫= k1) m2 Φ s d.
Proof. intros H. apply sim_l. intros a s' (x & -> & [= -> ->])%lift_Ok. by apply H. Qed.
Lemma sim_lift_r {X A B} (o : outcome X) x (m1 : M S A) (k2 : X → M D B) Φ s d :
  o = Ok x → sim m1 (k2 x) Φ s d → sim m1 (lift o ≫= k2) Φ s d.
Proof. intros -> H. by apply sim_r. Qed.

(** The same computation on both sides. *)
Lemma sim_lift {X A B} (o : outcome X) (k1 : X → M S A) (k2 : X → M D B) Φ s d :
  (∀ x, o = Ok x → sim (k1 x) (k2 x) Φ s d) → sim (lift o ≫= k1) (lift o ≫= k2) Φ s d.
Proof. intros H. apply sim_lift_l. intros x E. eapply sim_lift_r; [exact E|by apply H]. Qed.

(** The right program ends early. *)
Lemma sim_stop {A B} (m1 : M S A) (b : B) (Φ : A → S → B → D → Prop) s d :
  (∀ a s', Φ a s' b d) → sim m1 (mret b) Φ s d.
Proof. intros HΦ a s' _. apply HΦ. Qed.

(** The left program panics. *)
Lemma sim_panic {A B} (m2 : M D B) (Φ : A → S → B → D → Prop) s d : sim (lift Panic) m2 Φ s d.
Proof. by intros a s'. Qed.

Lemma sim_bind_l {A A' A'' B} (m1 : M S A) (k1 : A → M S A') (k1' : A' → M S A'') (m2 : M D B) Φ s d :
  sim (x ← m1; k1 x ≫= k1') m2 Φ s d → sim ((m1 ≫= k1) ≫= k1') m2 Φ s d.
Proof.
  intros H a s' (a1 & s1 & (a0 & s0 & E0 & E1)%bind_Ok & E2)%bind_Ok. apply H.
  unfold mbind, M_bind in *. by rewrite E0 E1.
Qed.
Lemma sim_bind_r {A B B' B''} (m1 : M S A) (m2 : M D B) (k2 : B → M D B') (k2' : B' → M D B'') Φ s d :
  sim m1 (x ← m2; k2 x ≫= k2') Φ s d → sim m1 ((m2 ≫= k2) ≫= k2') Φ s d.
Proof.
  intros H a s' E. specialize (H a s' E). unfold wpo, mbind, M_bind in *. by destruct (m2 d) as [[]| | |].
Qed.

(** An error of the right program ends it. *)
Lemma sim_try {A A' B B' E} (m1 : M S A) (m2 : M D (Result B E)) (k1 : A → M S A')
    (k2 : B → M D (Result B' E)) Φ s d :
  sim m1 m2 (λ a s' r d', match r with
    | ROk b => sim (k1 a) (k2 b) Φ s' d'
    | RErr e => ∀ a' s'', Φ a' s'' (RErr e) d'
    end) s d →
  sim (m1 ≫= k1) (x ←? m2; k2 x) Φ s d.
Proof.
  intros H. apply sim_bind. eapply sim_mono; [exact H|]. intros a s' [b|e] d' H'; [done|].
  intros a' s'' _. apply H'.
Qed.
Lemma sim_try_r {A B B' E} (m1 : M S A) (m2 : M D (Result B E)) (k2 : B → M D (Result B' E)) Φ s d :
  wpo true m2 (λ r d', match r with
    | ROk b => sim m1 (k2 b) Φ s d'
    | RErr e => ∀ a s', Φ a s' (RErr e) d'
    end) d →
  sim m1 (x ←? m2; k2 x) Φ s d.
Proof.
  intros H. apply sim_r. eapply wpo_mono; [exact H|]. intros [b|e] d' H'; [done|].
  intros a s' _. apply H'.
Qed.

(** Loops: each iteration of the left loop is matched by one of the right
    loop, which has at least as much fuel; the right loop may also be left
    early, by an error. *)
Lemma sim_loopM {L1 L2 A B} (f1 : S → nat) (f2 : D → nat) (body1 : L1 → M S (ctl L1 A))
    (body2 : L2 → M D (ctl L2 B)) (I : L1 → S → L2 → D → Prop) (Φ : A → S → B → D → Prop) l1 s l2 d :
  (∀ l1 s l2 d, I l1 s l2 d → sim (body1 l1) (body2 l2) (λ c1 s' c2 d', match c2 with
     | Continue l2' => ∃ l1', c1 = Continue l1' ∧ I l1' s' l2' d'
     | Break b => (∃ a, c1 = Break a ∧ Φ a s' b d') ∨ ∀ a s', Φ a s' b d'
     end) s d) →
  I l1 s l2 d → f1 s ≤ f2 d → sim (loopM f1 body1 l1) (loopM f2 body2 l2) Φ s d.
Proof.
  intros Hbody HI Hf a s' (n & l1' & s1 & Hr & Hb & Hn)%loopM_inv.
  apply (wpo_loopM body2 true f2 (λ k l d, ∃ l1 s0, I l1 s0 l d ∧ reaches body1 k (l1, s0) (l1', s1)) _ n).
  - clear -Hbody Hb. intros k l d (l1 & s0 & HI & Hr).
    inversion Hr as [|n' ? ? l1'' s0' ? Hstep Hrest]; subst.
    + eapply wpo_mono; [by eapply (Hbody _ _ _ _ HI)|]. intros [l2'|b] d'; [naive_solver|].
      intros [(a' & [= <-] & HΦ)|HΦ]; [done|apply HΦ].
    + eapply wpo_mono; [by eapply (Hbody _ _ _ _ HI)|]. intros [l2'|b] d'.
      * intros (l0 & [= <-] & HI'). exists n'. split; [lia|]. by exists l1'', s0'.
      * intros [(a' & [=] & _)|HΦ]. apply HΦ.
  - by exists l1, s.
  - eapply Nat.lt_le_trans; [exact Hn|]. by apply Nat.pow_le_mono_r.
Qed.
End sim.
