(* ===== verification/Mirror.v ===== *)
(** * A disk engine that mirrors an in-memory engine

    The relation between the two engines that the disk engine's operations
    maintain: every node of the arena is a dirty slot, a record in the file,
    or a slot that was freed.  Loads, evictions and the counters of the
    cache keep it. *)

From stdpp Require Export functions.
From S2P Require Export Lockstep BeTreeEngine.
From stdpp Require Import options.
From Stdlib Require Import ZArith.

(** Where the disk engine keeps a node of the arena. *)
Inductive Place : Type :=
  | At (id : NodeId)
  | Rec (off : Z)
  | Gone (id : NodeId).

Definition live (g : NodeId → Place) (a : NodeId) : Prop :=
  match g a with Gone _ => False | _ => True end.

(** The children of a node. *)
Definition kids (n : Node) : list NodeId :=
  match n with Internal _ children _ => children | Leaf _ => [] end.

(** The node [n] and its twin [n'], up to the names of the children. *)
Definition twins (R : NodeId → NodeId → Prop) (n n' : Node) : Prop :=
  match n, n' with
  | Leaf e, Leaf e' => e' = e
  | Internal ps chs b, Internal ps' chs' b' => ps' = ps ∧ b' = b ∧ Forall2 R chs' chs
  | _, _ => False
  end.

(** The node [n] in a record at [o], below which its children lie. *)
Definition recorded (g : NodeId → Place) (o : Z) (n : Node) (rec : DiskNode) : Prop :=
  match n, rec with
  | Leaf e, DiskLeaf e' => e' = e
  | Internal ps chs b, DiskInternal ps' offs b' => ps' = ps ∧ b' = b ∧
      length offs = S (length ps) ∧ Forall (λ o', DATA_START ≤ o' < o)%Z offs ∧
      Forall2 (λ o' c, g c = Rec o') offs chs
  | _, _ => False
  end.

Lemma twins_impl (R R' : NodeId → NodeId → Prop) n n' :
  (∀ i c, c ∈ kids n → R i c → R' i c) → twins R n n' → twins R' n n'.
Proof.
  destruct n as [ps chs b|e], n' as [ps' chs' b'|e']; try done. simpl. intros HR (-> & -> & Hchs).
  split_and!; [done..|]. apply Forall2_same_length_lookup in Hchs as [Hl Hchs].
  apply Forall2_same_length_lookup. split; [done|]. intros i x y Hx Hy.
  eapply HR; [by eapply list_elem_of_lookup_2|by eapply Hchs].
Qed.

Lemma twins_cost R n n' : twins R n n' → node_cost n' = node_cost n.
Proof.
  destruct n as [ps chs b|e], n' as [ps' chs' b'|e']; try done; simpl; [|by intros ->].
  intros (_ & -> & Hl%Forall2_length). lia.
Qed.

Lemma choose_list {A B} (R : A → B → Prop) (l : list B) : Forall (λ y, ∃ x, R x y) l → ∃ ks, Forall2 R ks l.
Proof. induction 1 as [|y l [x Hx] _ [ks Hks]]; [by exists []|exists (x :: ks); by constructor]. Qed.

Section mirror.
Context {V P : Type} `{DeviceLaws V} `{CodecLaws} (v0 : V).
Notation E := (DiskEngine V P).
Implicit Types (d : E) (s : BeTree P) (g : NodeId → Place) (u : NodeId → option NodeId).

(** The slot [id] is for the arena node [a]. *)
Definition denotes d g (id a : NodeId) : Prop :=
  match g a with
  | At i => id = i
  | Rec o => d_offsets d !! o = Some id
  | Gone _ => False
  end.

(** The record a slot stands for, or did before it became dirty. *)
Definition slot_offset (sl : NodeSlot) : option Z :=
  match sl with Loaded _ _ off _ _ => off | OnDisk o => Some o | Freed => None end.

Lemma clean_at_offset sl o : clean_at sl o → slot_offset sl = Some o.
Proof. destruct sl as [n [] [x|] b t|x|]; simpl; congruence || done. Qed.

Definition in_memory d (id : NodeId) : Prop :=
  ∃ n dirty off bytes tick, d_slots d !! id = Some (Loaded n dirty off bytes tick).

(** The place [p] of the arena node [a], which is [n]. *)
Definition placed g s d (a : NodeId) (n : Node) (p : Place) : Prop :=
  match p with
  | At id => dirty s !! a = Some true ∧ ∃ n' off bytes tick,
      d_slots d !! id = Some (Loaded n' true off bytes tick) ∧ twins (denotes d g) n n'
  | Rec o => dirty s !! a = Some false ∧ clean_offset d o ∧ ∃ rec len,
      holds_record (file d) (d_watermark d) o rec len ∧ recorded g o n rec
  | Gone id => d_slots d !! id = Some Freed ∧ node_cost n ≤ 2
  end.

(** [d] mirrors [s]: [g] places the nodes of the arena, and [u] names the
    parent of every node that is not gone. *)
Record mirrors g u s d : Prop := mkMirrors {
  mr_inv : disk_inv d;
  mr_vfs : dev_same v0 (d_vfs d);
  mr_params : d_params d = params s;
  mr_policy : d_policy d = policy s;
  mr_seq : d_next_seq d = next_seq s;
  mr_ops : d_ops_since_commit d = ops_since_commit s;
  mr_poisoned : d_poisoned d = false;
  mr_trace : ops_of (rec_v2 (d_trace d)) = ops_of (rec_v2 (trace s));
  mr_dirty : length (dirty s) = length (nodes s);
  mr_place a n : nodes s !! a = Some n → placed g s d a n (g a);
  mr_inj a a' : a < length (nodes s) → a' < length (nodes s) → g a = g a' → a = a';
  mr_kids a n c : nodes s !! a = Some n → live g a → c ∈ kids n →
    c < length (nodes s) ∧ live g c ∧ u c = Some a;
  mr_NoDup a n : nodes s !! a = Some n → live g a → NoDup (kids n);
  mr_cover o id sl : d_offsets d !! o = Some id → d_slots d !! id = Some sl → clean_at sl o →
    ∃ a, a < length (nodes s) ∧ g a = Rec o;
  mr_backs o id : d_offsets d !! o = Some id → ∃ sl, d_slots d !! id = Some sl ∧ slot_offset sl = Some o;
  mr_root : denotes d g (d_root d) (root s);
  mr_root_lt : root s < length (nodes s);
}.

Lemma denotes_live d g id a : denotes d g id a → live g a.
Proof. unfold denotes, live. by destruct (g a). Qed.

Lemma denotes_fun d g id id' a : denotes d g id a → denotes d g id' a → id = id'.
Proof. unfold denotes. destruct (g a); [congruence..|done]. Qed.

Lemma clean_at_fun sl o o' : clean_at sl o → clean_at sl o' → o = o'.
Proof. destruct sl as [n [] [x|] b t|x|]; simpl; congruence || done. Qed.

(** What a slot that denotes a node is. *)
Lemma denotes_slot g u s d id a :
  mirrors g u s d → a < length (nodes s) → denotes d g id a → ∃ sl, d_slots d !! id = Some sl ∧
    match g a with
    | At _ => ∃ n off b t, sl = Loaded n true off b t
    | Rec o => clean_at sl o
    | Gone _ => False
    end.
Proof.
  intros Hm Ha Hd. destruct (lookup_lt_is_Some_2 _ _ Ha) as [n Hn].
  pose proof (mr_place _ _ _ _ Hm _ _ Hn) as Hp. unfold denotes, placed in *.
  destruct (g a) as [i|o|i]; [| |done].
  - subst i. destruct Hp as (_ & n' & off & b & t & Hs & _). eauto 10.
  - destruct (di_offsets _ (mr_inv _ _ _ _ Hm) _ _ Hd) as (sl & Hs & Hne). exists sl. split; [done|].
    destruct Hp as (_ & Hc & _). by destruct (Hc _ _ Hd Hs).
Qed.

Lemma denotes_inj g u s d id a a' :
  mirrors g u s d → a < length (nodes s) → a' < length (nodes s) →
  denotes d g id a → denotes d g id a' → a = a'.
Proof.
  intros Hm Ha Ha' Hd Hd'. apply (mr_inj _ _ _ _ Hm); [done..|].
  destruct (denotes_slot _ _ _ _ _ _ Hm Ha Hd) as (sl & Hs & Hsl).
  destruct (denotes_slot _ _ _ _ _ _ Hm Ha' Hd') as (sl' & Hs' & Hsl').
  assert (sl' = sl) as -> by congruence. unfold denotes in *.
  destruct (g a) as [i|o|i], (g a') as [i'|o'|i']; try done; try congruence.
  - destruct Hsl as (? & ? & ? & ? & ->). done.
  - destruct Hsl' as (? & ? & ? & ? & ->). done.
  - f_equal. by eapply clean_at_fun.
Qed.

(** A resident slot holds the twin of the node it denotes. *)
Lemma resident_twins g u s d id a n' dirty off b t :
  mirrors g u s d → a < length (nodes s) → denotes d g id a →
  d_slots d !! id = Some (Loaded n' dirty off b t) →
  ∃ n, nodes s !! a = Some n ∧ twins (denotes d g) n n'.
Proof.
  intros Hm Ha Hd Hs. destruct (lookup_lt_is_Some_2 _ _ Ha) as [n Hn]. exists n. split; [done|].
  destruct (denotes_slot _ _ _ _ _ _ Hm Ha Hd) as (sl & Hs' & Hsl). rewrite Hs in Hs'. injection Hs' as <-.
  pose proof (mr_place _ _ _ _ Hm _ _ Hn) as Hp. unfold denotes, placed in *.
  destruct (g a) as [i|o|i] eqn:Eg; [| |done].
  - subst i. destruct Hp as (_ & n1 & off1 & b1 & t1 & Hs1 & Htw). by assert (n' = n1) as -> by congruence.
  - destruct Hp as (_ & Hc & rec & len & Hh & Hrec). simpl in Hsl. destruct dirty; [done|].
    destruct off as [o'|]; [|done]. subst o'.
    destruct (di_clean _ (mr_inv _ _ _ _ Hm) _ _ _ _ _ Hs) as (o' & [= <-] & (rec' & len' & Hh' & Hmt) & _).
    destruct (holds_record_fun _ _ _ _ _ _ _ _ Hh Hh') as [-> _].
    destruct n as [ps chs bf|e], rec as [ps1 offs bf1|e1], n' as [ps2 chs2 bf2|e2]; try done; simpl in *; [|congruence].
    destruct Hrec as (-> & -> & _ & _ & Hch), Hmt as (-> & -> & _ & _ & Hoffs). split_and!; [done..|].
    apply Forall2_same_length_lookup. apply Forall2_same_length_lookup in Hch as [Hl1 Hch].
    apply Forall2_same_length_lookup in Hoffs as [Hl2 Hoffs]. split; [congruence|]. intros i x y Hx Hy.
    destruct (lookup_lt_is_Some_2 offs i) as [o' Ho']; [apply lookup_lt_Some in Hx; lia|].
    unfold denotes. rewrite (Hch _ _ _ Ho' Hy). by eapply Hoffs.
Qed.

(** ** Loads keep the mirror *)
Lemma denotes_refreshes X d d' g id a : refreshes X d d' → denotes d g id a → denotes d' g id a.
Proof. intros Hr. unfold denotes. destruct (g a); [done|apply Hr|done]. Qed.

Lemma mirrors_refreshes X g u s d d' :
  mirrors g u s d → disk_inv d' → refreshes X d d' → mirrors g u s d'.
Proof.
  intros [Hi Hv Hp Hpol Hsq Ho Hpo Htr Hdl Hpl Hinj Hk Hnd Hcov Hback Hroot Hrlt] Hi' Hr.
  assert (∀ a n, nodes s !! a = Some n → placed g s d' a n (g a)) as Hpl'.
  { intros a n Hn. specialize (Hpl a n Hn). unfold placed in *. destruct (g a) as [id|o|id].
    - destruct Hpl as (Hd & n' & off & b & t & Hs & Htw). split; [done|].
      destruct (rf_slots _ _ _ Hr _ _ Hs) as (s' & Hs' & [t' ->]). exists n', off, b, t'. split; [done|].
      eapply twins_impl; [|exact Htw]. intros i c _. by eapply denotes_refreshes.
    - destruct Hpl as (Hd & Hc & rec & len & Hh & Hrec). split; [done|].
      split; [exact (clean_offset_refreshes _ _ _ _ Hi Hr Hc)|]. exists rec, len.
      by rewrite (file_refreshes _ _ _ Hr) (rf_watermark _ _ _ Hr).
    - destruct Hpl as [Hs Hc]. destruct (rf_slots _ _ _ Hr _ _ Hs) as (s' & Hs' & ->). done. }
  split; try done.
  - eapply dev_same_trans; [exact Hv|apply Hr].
  - by rewrite (rf_params _ _ _ Hr).
  - by rewrite (rf_policy _ _ _ Hr).
  - by rewrite (rf_seq _ _ _ Hr).
  - by rewrite (rf_ops _ _ _ Hr).
  - by rewrite (rf_poisoned _ _ _ Hr).
  - by rewrite (rf_trace _ _ _ Hr).
  - (* new offsets are children of covered ones *)
    assert (∀ k o id sl, (d_watermark d - o ≤ Z.of_nat k)%Z → d_offsets d' !! o = Some id →
      d_slots d' !! id = Some sl → clean_at sl o → ∃ a, a < length (nodes s) ∧ g a = Rec o) as Hall;
      [|intros o id sl; apply (Hall (Z.to_nat (d_watermark d - o))); lia].
    induction k as [|k IH]; intros o id sl Hk1 Ho1 Hs1 Hc1.
    { pose proof (di_below _ Hi' _ _ Ho1) as Hb. rewrite (rf_watermark _ _ _ Hr) in Hb. lia. }
    destruct (rf_new _ _ _ Hr _ _ Ho1) as [Ho2|(_ & _ & Hch)].
    + destruct (di_offsets _ Hi _ _ Ho2) as (s2 & Hs2 & Hne).
      destruct (rf_slots _ _ _ Hr _ _ Hs2) as (s2' & Hs2' & Hst). rewrite Hs1 in Hs2'. injection Hs2' as <-.
      eapply (Hcov _ _ _ Ho2 Hs2). destruct s2 as [n2 [] off2 b2 t2|o2|]; [| | |done].
      * by destruct Hst as [? ->].
      * destruct (di_clean _ Hi _ _ _ _ _ Hs2) as (o2 & -> & _).
        assert (clean_at (Loaded n2 false (Some o2) b2 t2) o2) as Hc2 by done.
        pose proof (slot_step_clean _ _ _ _ Hst Hc2) as Hc3. by rewrite (clean_at_fun _ _ _ Hc1 Hc3).
      * assert (clean_at (OnDisk o2) o2) as Hc2 by done.
        pose proof (slot_step_clean _ _ _ _ Hst Hc2) as Hc3. by rewrite (clean_at_fun _ _ _ Hc1 Hc3).
    + destruct Hch as (off & i & s2 & ps & offs & b & len & Hoff & Hs2 & Hc2 & Hh & Hin & Hlt).
      destruct (IH off i s2) as (a & Ha & Hga); [lia|done..|].
      destruct (lookup_lt_is_Some_2 _ _ Ha) as [n Hn]. pose proof (Hpl' _ _ Hn) as Hp'. rewrite Hga in Hp'.
      destruct Hp' as (_ & _ & rec & len' & Hh' & Hrec).
      destruct (holds_record_fun _ _ _ _ _ _ _ _ Hh Hh') as [-> _]. destruct n as [ps' chs b'|e]; [|done].
      destruct Hrec as (_ & _ & _ & _ & Hch). apply list_elem_of_lookup in Hin as [j Hj].
      destruct (Forall2_lookup_l _ _ _ _ _ Hch Hj) as (c & Hc & Hgc). exists c. split; [|done].
      eapply (Hk a _ c Hn); [unfold live; by rewrite Hga|]. by eapply list_elem_of_lookup_2.
  - intros o id Ho1. destruct (rf_new _ _ _ Hr _ _ Ho1) as [Ho2|(_ & (sl & Hs & Hc) & _)].
    + destruct (Hback _ _ Ho2) as (sl & Hs & Hsl). destruct (rf_slots _ _ _ Hr _ _ Hs) as (sl' & Hs' & Hst).
      exists sl'. split; [done|]. destruct sl as [n [] off b t|o2|]; simpl in *; [..|done].
      * by destruct Hst as [? ->].
      * destruct Hst as [[? ->]|(_ & o' & -> & Hc)]; [done|]. simplify_eq. by apply clean_at_offset.
      * simplify_eq. by apply clean_at_offset.
    + exists sl. split; [done|by apply clean_at_offset].
  - rewrite (rf_root _ _ _ Hr). by eapply denotes_refreshes.
Qed.

(** A record that mirrors a node stores a tree. *)
Lemma mirrors_settled g u s d a o :
  mirrors g u s d → a < length (nodes s) → g a = Rec o → ∃ t, settled d t o.
Proof.
  intros Hm. remember (Z.to_nat o) as k eqn:Ek. revert a o Ek.
  induction (lt_wf k) as [k _ IH]. intros a o -> Ha Hg.
  destruct (lookup_lt_is_Some_2 _ _ Ha) as [n Hn]. pose proof (mr_place _ _ _ _ Hm _ _ Hn) as Hp.
  rewrite Hg in Hp. destruct Hp as (_ & Hc & rec & len & Hh & Hrec).
  destruct n as [ps chs b|e], rec as [ps' offs b'|e']; try done; simpl in Hrec.
  - destruct Hrec as (-> & -> & Hl & Hoffs & Hch).
    destruct (choose_list (settled d) offs) as [ks Hks].
    { apply Forall_lookup. intros i o' Ho'. destruct (Forall2_lookup_l _ _ _ _ _ Hch Ho') as (c & Hc' & Hgc).
      pose proof (Forall_lookup_1 _ _ _ _ Hoffs Ho') as Hlt. simpl in Hlt.
      destruct Hh as [Hds _]. assert (0 ≤ DATA_START)%Z by done.
      eapply (IH (Z.to_nat o')); [lia|done| |exact Hgc].
      eapply (mr_kids _ _ _ _ Hm a _ c Hn); [unfold live; by rewrite Hg|by eapply list_elem_of_lookup_2]. }
    exists (TInt 0 ps ks b). by econstructor.
  - exists (TLeaf 0 e). subst e'. by econstructor.
Qed.

(** A failure of the storage. *)
Definition storage_failed (e : DiskError) : Prop := ∃ e', e = Io e' ∧ ¬ dev_reliable v0.

Lemma in_memory_refreshes (X : NodeId → Prop) d d' i : refreshes X d d' → X i → in_memory d i → in_memory d' i.
Proof using All.
  intros Hr Hi (n & dirty & off & b & t & Hsi). destruct (rf_slots _ _ _ Hr _ _ Hsi) as (s' & Hs' & Hst).
  destruct dirty; [destruct Hst as [t' ->]|destruct Hst as [[t' ->]|[[] _]]]; try done; by eexists _, _, _, _, _.
Qed.

(** Loading a node of the mirrored arena. *)
Lemma ensure_mirrored_kept g u s d id a pins :
  mirrors g u s d → a < length (nodes s) → denotes d g id a →
  wpo true (ensure_loaded id pins) (λ r d', mirrors g u s d' ∧
    refreshes (λ i, i ∈ pins ∨ c_budget (d_cache d) = None) d d' ∧
    match r with ROk _ => in_memory d' id | RErr e => storage_failed e end) d.
Proof using All.
  intros Hm Ha Hd. destruct (denotes_slot _ _ _ _ _ _ Hm Ha Hd) as (sl & Hs & Hsl).
  eapply wpo_mono; [apply (ensure_loaded_kept true id pins d sl); [apply Hm|done|done|]|].
  { intros ->. destruct (g a); [|done..]. naive_solver. }
  intros r d' (Hi' & Hr & _ & Hres). split; [by eapply mirrors_refreshes|]. split; [done|].
  destruct r as [_|e]; [done|]. destruct Hres as (off & -> & [(e' & -> & Hrel)|[-> Hnone]]).
  - exists e'. split; [done|]. intros Hv0. apply Hrel. by apply (same_reliable _ _ (mr_vfs _ _ _ _ Hm)).
  - exfalso. destruct (g a) as [i|o|i] eqn:Eg; [|simpl in Hsl; subst o|done].
    + destruct Hsl as (? & ? & ? & ? & ?). done.
    + destruct (mirrors_settled _ _ _ _ _ _ Hm Ha Eg) as [t Ht]. by eapply Hnone.
Qed.

Lemma ensure_mirrored g u s d id a pins :
  mirrors g u s d → a < length (nodes s) → denotes d g id a →
  wpo true (ensure_loaded id pins) (λ r d', mirrors g u s d' ∧ (∀ i x, denotes d g i x → denotes d' g i x) ∧
    (∀ i, i ∈ pins → in_memory d i → in_memory d' i) ∧
    match r with ROk _ => in_memory d' id | RErr e => storage_failed e end) d.
Proof using All.
  intros Hm Ha Hd. eapply wpo_mono; [by eapply ensure_mirrored_kept|]. intros r d' (Hm' & Hr & Hres).
  split; [done|]. split; [intros i x; by eapply denotes_refreshes|]. split; [|done].
  intros i Hi. eapply in_memory_refreshes; [done|by left].
Qed.

(** ** Fuel

    The loops of the disk engine may run for as long as those of the
    in-memory engine. *)
Lemma sum_places g s d (l : list NodeId) :
  (∀ a n, nodes s !! a = Some n → match g a with
    | At id | Gone id => ∃ sl, d_slots d !! id = Some sl ∧ node_cost n ≤ slot_cost sl
    | Rec o => (0 ≤ o < d_watermark d)%Z ∧ node_cost n ≤ Z.to_nat (d_watermark d)
    end) →
  (∀ a a', a ∈ l → a' ∈ l → g a = g a' → a = a') →
  (∀ a id, a ∈ l → g a ≠ At id ∨ ∀ a', a' ∈ l → g a' ≠ Gone id) → NoDup l →
  sum_list_with (λ a, match nodes s !! a with Some n => node_cost n | None => 0 end) l ≤
  sum_list_with slot_cost (d_slots d) + Z.to_nat (d_watermark d) * Z.to_nat (d_watermark d).
Proof.
  intros Hpl Hinj Hdisj Hnd. set (w := Z.to_nat (d_watermark d)).
  set (fs a := match g a with At id | Gone id => Some id | Rec _ => None end).
  set (fo a := match g a with Rec o => Some (Z.to_nat o) | _ => None end).
  set (cost a := match nodes s !! a with Some n => node_cost n | None => 0 end).
  set (f i := match d_slots d !! i with Some sl => slot_cost sl | None => 0 end).
  assert (∀ a n, nodes s !! a = Some n → ∀ o, g a = Rec o → Z.to_nat o < w) as Hoff.
  { intros a n Hn o Hg. specialize (Hpl a n Hn). rewrite Hg in Hpl. unfold w. lia. }
  assert (∀ l, sum_list_with cost l ≤ sum_list_with f (omap fs (filter (λ a, is_Some (nodes s !! a)) l)) +
    w * length (omap fo (filter (λ a, is_Some (nodes s !! a)) l))) as Hsum.
  { clear Hinj Hdisj Hnd. intros l'. induction l' as [|a l' IH]; [simpl; lia|]. rewrite filter_cons.
    change (sum_list_with cost (a :: l')) with (cost a + sum_list_with cost l'). case_decide as Hs.
    - destruct Hs as [n Hn]. specialize (Hpl a n Hn). cbn [omap list_omap].
      assert (cost a = node_cost n) as Hca by (unfold cost; by rewrite Hn).
      unfold fs at 1, fo at 1. destruct (g a) as [i|o|i]; cbn [sum_list_with length].
      + destruct Hpl as (sl & Hsl & Hle). assert (f i = slot_cost sl) by (unfold f; by rewrite Hsl). lia.
      + destruct Hpl as [_ Hle]. fold w in Hle. nia.
      + destruct Hpl as (sl & Hsl & Hle). assert (f i = slot_cost sl) by (unfold f; by rewrite Hsl). lia.
    - assert (cost a = 0) as -> by (unfold cost; destruct (nodes s !! a); [by destruct Hs|done]). lia. }
  etrans; [apply Hsum|]. set (l' := filter _ l).
  assert (∀ a, a ∈ l' → a ∈ l ∧ is_Some (nodes s !! a)) as Hl' by (intros a [? ?]%list_elem_of_filter; done).
  assert (NoDup l') as Hnd' by by apply NoDup_filter.
  assert (∀ (h : NodeId → option nat), (∀ a a' y, a ∈ l' → a' ∈ l' → h a = Some y → h a' = Some y → a = a') →
    NoDup (omap h l')) as Hom.
  { clear -Hnd'. intros h Hh. induction Hnd' as [|a l2 Ha Hnd2 IH]; simpl; [constructor|].
    assert (NoDup (omap h l2)) as Hnd3 by (apply IH; intros; eapply Hh; [by right|by right|done..]).
    destruct (h a) as [y|] eqn:E; [|done]. constructor; [|done].
    intros (a' & Ha' & E')%list_elem_of_omap. apply Ha.
    assert (a = a') as ->; [|done]. eapply Hh; [left|by right|done..]. }
  assert (NoDup (omap fs l')) as Hnd1.
  { apply Hom. intros a a' y [Ha _]%Hl' [Ha' _]%Hl' Hfa Hfa'. apply Hinj; [done..|]. unfold fs in *.
    destruct (g a) eqn:Eg, (g a') eqn:Eg'; simplify_eq; try done.
    - destruct (Hdisj a y Ha) as [?|Hx]; [done|]. by destruct (Hx a' Ha').
    - destruct (Hdisj a' y Ha') as [?|Hx]; [done|]. by destruct (Hx a Ha). }
  assert (NoDup (omap fo l')) as Hnd2.
  { apply Hom. intros a a' y [Ha [n Hn]]%Hl' [Ha' [n' Hn']]%Hl' Hfa Hfa'. apply Hinj; [done..|].
    pose proof (Hpl _ _ Hn) as Hp1. pose proof (Hpl _ _ Hn') as Hp2. unfold fo in *.
    destruct (g a) eqn:Eg, (g a') eqn:Eg'; simplify_eq; try done. f_equal. lia. }
  apply Nat.add_le_mono.
  - rewrite -(sum_list_with_seq f slot_cost); [intros i x Hi; unfold f; by rewrite Hi|].
    apply sum_list_with_submseteq, NoDup_submseteq; [done|].
    intros i (a & Ha & Hf)%list_elem_of_omap. destruct (Hl' _ Ha) as [_ [n Hn]]. specialize (Hpl _ _ Hn).
    apply elem_of_seq. split; [lia|]. unfold fs in Hf.
    destruct (g a); simplify_eq; destruct Hpl as (sl & Hsl & _); apply lookup_lt_Some in Hsl; lia.
  - apply Nat.mul_le_mono_l. rewrite -(length_seq w 0) . apply submseteq_length, NoDup_submseteq; [done|].
    intros y (a & Ha & Hf)%list_elem_of_omap. destruct (Hl' _ Ha) as [_ [n Hn]].
    apply elem_of_seq. split; [lia|]. unfold fo in Hf. destruct (g a) eqn:Eg; simplify_eq.
    specialize (Hoff _ _ Hn _ Eg). lia.
Qed.

Lemma mirrors_fuel g u s d : mirrors g u s d → fuel s ≤ d_fuel d.
Proof using All.
  intros Hm. unfold fuel, d_fuel. apply Nat.add_le_mono_l, Nat.mul_le_mono_l, size_nat_mono.
  enough (arena_cost (nodes s) ≤ sum_list_with slot_cost (d_slots d) +
    Z.to_nat (d_watermark d) * Z.to_nat (d_watermark d)) as Hle.
  { rewrite -Z_nat_N -Nat2N.inj_mul -Nat2N.inj_add. lia. }
  assert (arena_cost (nodes s) = sum_list_with (λ a, match nodes s !! a with Some n => node_cost n | None => 0 end)
    (seq 0 (length (nodes s)))) as ->.
  { symmetry. apply sum_list_with_seq. intros i x Hi. by rewrite Hi. }
  apply (sum_places g).
  - intros a n Hn. pose proof (mr_place _ _ _ _ Hm _ _ Hn) as Hp. destruct (g a) as [i|o|i].
    + destruct Hp as (_ & n' & off & b & t & Hs & Htw). eexists. split; [exact Hs|]. simpl.
      by rewrite (twins_cost _ _ _ Htw).
    + destruct Hp as (_ & _ & rec & len & (Hds & p & _ & Hdec & -> & _ & Hle) & Hrec).
      apply decode_node_cost in Hdec. assert (0 ≤ DATA_START)%Z by done. unfold RECORD_HEADER_SIZE in Hle.
      split; [lia|]. assert (node_cost n = disk_cost rec) as ->; [|lia].
      destruct n as [ps chs b|e], rec as [ps' offs b'|e']; try done; simpl in Hrec |- *; [|by subst].
      destruct Hrec as (_ & -> & _ & _ & Hch%Forall2_length). lia.
    + destruct Hp as [Hs Hc]. eexists. split; [exact Hs|done].
  - intros a a' Ha%elem_of_seq Ha'%elem_of_seq. apply (mr_inj _ _ _ _ Hm); lia.
  - intros a id Ha%elem_of_seq. destruct (g a) as [i|o|i] eqn:Eg; [|by left..].
    destruct (decide (i = id)) as [->|]; [right|left; congruence]. intros a' Ha'%elem_of_seq Hg'.
    destruct (lookup_lt_is_Some_2 (nodes s) a) as [n Hn]; [lia|].
    destruct (lookup_lt_is_Some_2 (nodes s) a') as [n' Hn']; [lia|].
    pose proof (mr_place _ _ _ _ Hm _ _ Hn) as Hp. pose proof (mr_place _ _ _ _ Hm _ _ Hn') as Hp'.
    rewrite Eg in Hp. rewrite Hg' in Hp'. destruct Hp as (_ & ? & ? & ? & ? & Hs & _), Hp' as [Hs' _]. congruence.
  - apply NoDup_seq.
Qed.
End mirror.
