(* ===== verification/MirrorSteps.v ===== *)
(** * Steps of the two engines that keep the mirror

    Marking a node dirty, assigning it, allocating and releasing one: each
    primitive of the disk engine against the primitive of the in-memory
    engine it stands for. *)

From S2P Require Export Mirror.
From stdpp Require Import options.
From Stdlib Require Import ZArith.

Lemma est_bytes_nonneg n : (0 ≤ est_bytes n)%Z.
Proof.
  assert (∀ {A} (f : A → Z) l, (∀ x, 0 ≤ f x)%Z → (0 ≤ foldr (λ x acc, f x + acc) 0 l)%Z) as Hsum.
  { intros A f l Hf. induction l as [|x l IH]; simpl; [lia|]. specialize (Hf x). lia. }
  destruct n as [ps chs b|e]; cbn [est_bytes].
  - pose proof (Hsum _ (λ p : Key, 8 + Z.of_nat (length p))%Z ps) as H1.
    pose proof (Hsum _ (λ x : Key * Message, 12 + Z.of_nat (length x.1) + match x.2 with
      | Put _ value => 20 + Z.of_nat (length value) | Delete _ => 12 | Upsert _ _ => 24 end)%Z (bt_iter b)) as H2.
    rewrite (foldr_ext _ (λ (x : Key * Message) acc, 12 + Z.of_nat (length x.1) + match x.2 with
      | Put _ value => 20 + Z.of_nat (length value) | Delete _ => 12 | Upsert _ _ => 24 end + acc)%Z 0%Z 0%Z
      (bt_iter b) (bt_iter b)); [by intros [k m] acc|done|done|].
    cbv beta in *. specialize (H1 ltac:(intros; lia)). specialize (H2 ltac:(intros [? []]; simpl; lia)). lia.
  - pose proof (Hsum _ (λ x : Key * LeafEntry, 24 + Z.of_nat (length x.1) + Z.of_nat (length (le_value x.2)))%Z (bt_iter e)) as H2.
    rewrite (foldr_ext _ (λ (x : Key * LeafEntry) acc,
      24 + Z.of_nat (length x.1) + Z.of_nat (length (le_value x.2)) + acc)%Z 0%Z 0%Z
      (bt_iter e) (bt_iter e)); [by intros [k m] acc|done|done|].
    cbv beta in *. specialize (H2 ltac:(intros; lia)). lia.
Qed.

(** The parents after the children of [a] changed from [old] to [new]. *)
Definition reparent (a : NodeId) (old new : list NodeId) (u : NodeId → option NodeId) : NodeId → option NodeId :=
  λ c, if decide (c ∈ new) then Some a else if decide (c ∈ old) then None else u c.

Section steps.
Context {V P : Type} `{DeviceLaws V} `{CodecLaws} (v0 : V).
Notation E := (DiskEngine V P).
Notation mirrors := (mirrors v0).
Implicit Types (d : E) (s : BeTree P) (g : NodeId → Place) (u : NodeId → option NodeId).

(** A resident slot becomes dirty, or gets a new node. *)
Definition with_dirty (id : NodeId) (n : Node) (off : option Z) (bytes tick : Z) (c : Cache) d : E :=
  set_d_cache c (set_d_slots (<[id:=Loaded n true off bytes tick]> (d_slots d)) d).

Lemma with_dirty_inv d id n0 dirty off b0 t0 n b t c :
  disk_inv d → d_slots d !! id = Some (Loaded n0 dirty off b0 t0) → (0 ≤ b)%Z →
  c_bytes c = (c_bytes (d_cache d) - b0 + b)%Z → c_resident c = c_resident (d_cache d) →
  c_lru c = c_lru (d_cache d) → disk_inv (with_dirty id n off b t c d).
Proof.
  intros Hi Hs Hb Hcb Hcr Hcl. pose proof (lookup_lt_Some _ _ _ Hs) as Hlt.
  assert (∀ i sl, <[id:=Loaded n true off b t]> (d_slots d) !! i = Some sl →
    (i = id ∧ sl = Loaded n true off b t) ∨ (i ≠ id ∧ d_slots d !! i = Some sl)) as Hinv.
  { intros i sl Hi'. destruct (decide (i = id)) as [->|Hne].
    - rewrite list_lookup_insert_eq in Hi'; [done|]. injection Hi' as <-. auto.
    - rewrite list_lookup_insert_ne in Hi'; [done|]. auto. }
  split; try apply Hi; simpl.
  - intros i n' off' b' t' [[-> [=]]|[Hne Hi']]%Hinv. exact (di_clean _ Hi _ _ _ _ _ Hi').
  - intros i o [[-> [=]]|[Hne Hi']]%Hinv. by eapply di_on_disk.
  - intros i n' o b' t' [[-> [= -> <- -> ->]]|[Hne Hi']]%Hinv; [|by eapply di_dirty].
    destruct dirty; [by eapply di_dirty|].
    by destruct (di_clean _ Hi _ _ _ _ _ Hs) as (o' & [= <-] & _ & ?).
  - intros o i Hoi. destruct (decide (i = id)) as [->|Hne].
    + eexists. by rewrite list_lookup_insert_eq.
    + rewrite list_lookup_insert_ne; [done|]. by eapply di_offsets.
  - rewrite (total_bytes_insert _ _ _ _ Hs) Hcb (di_bytes _ Hi). simpl. lia.
  - pose proof (resident_insert _ _ _ (Loaded n true off b t) Hs). rewrite Hcr (di_resident _ Hi). simpl in *. lia.
  - apply Forall_insert; [apply Hi|done].
  - rewrite length_insert Hcl. apply Hi.
Qed.

(** [a] moves to the slot [id]. *)
Definition moved g a id g' : Prop := g' a = At id ∧ ∀ x, x ≠ a → g' x = g x.

Lemma moved_insert g a id : moved g a id (<[a:=At id]> g).
Proof. split; [by rewrite fn_lookup_insert|]. intros x Hx. by rewrite fn_lookup_insert_ne. Qed.

Lemma denotes_with_dirty g g' d id a i c n off b t ca :
  moved g a id g' → denotes d g id a → denotes d g i c → denotes (with_dirty id n off b t ca d) g' i c.
Proof using All.
  intros [Hga Hgx] Hd Hc. unfold denotes in *. destruct (decide (c = a)) as [->|Hne].
  - rewrite Hga. by eapply denotes_fun.
  - by rewrite (Hgx _ Hne).
Qed.

Lemma update_mirror g g' u s d id a n0 n0' dirty off b0 t0 n n' b t c :
  moved g a id g' → mirrors g u s d → nodes s !! a = Some n0 → denotes d g id a →
  d_slots d !! id = Some (Loaded n0' dirty off b0 t0) →
  (∀ p o, u a = Some p → g p ≠ Rec o) →
  twins (denotes d g) n n' →
  (∀ c, c ∈ kids n → c < length (nodes s) ∧ (u c = Some a ∨ u c = None)) → NoDup (kids n) →
  disk_inv (with_dirty id n' off b t c d) →
  mirrors g' (reparent a (kids n0) (kids n) u)
    (set_nodes (<[a:=n]> (nodes s)) (set_dirty (<[a:=true]> (BeTree.dirty s)) s)) (with_dirty id n' off b t c d).
Proof using All.
  intros Hmv Hm Hn0 Hd Hs Hpar Htw Hkids Hnd Hi. pose proof Hmv as [Hga Hgx]. pose proof (lookup_lt_Some _ _ _ Hn0) as Ha.
  pose proof (lookup_lt_Some _ _ _ Hs) as Hid. set (d' := with_dirty _ _ _ _ _ _ _) in *.
  assert (∀ i x, denotes d g i x → denotes d' g' i x) as Hden
    by (intros i x Hx; by eapply denotes_with_dirty).
  assert (∀ a' i, a' < length (nodes s) → a' ≠ a → denotes d g i a' → i ≠ id) as Hother.
  { intros a' i Ha' Hne Hd' ->. apply Hne. by eapply denotes_inj. }
  pose proof (denotes_live _ _ _ _ Hd) as Hlive.
  assert (∀ x, x ∈ kids n0 → u x = Some a) as Hold by (intros x Hx; by eapply mr_kids).
  assert (∀ x, live g x → live g' x) as Hlv.
  { intros x Hx. destruct (decide (x = a)) as [->|Hne]; [by rewrite /live Hga|].
    by rewrite /live (Hgx _ Hne). }
  split; simpl; rewrite ?length_insert.
  - done.
  - apply Hm.
  - apply Hm.
  - apply Hm.
  - apply Hm.
  - apply Hm.
  - apply Hm.
  - apply Hm.
  - apply Hm.
  - intros a' n1 Hn1. destruct (decide (a' = a)) as [->|Hne].
    + rewrite list_lookup_insert_eq in Hn1; [done|]. injection Hn1 as <-. rewrite Hga. split.
      * simpl. apply list_lookup_insert_eq. by rewrite (mr_dirty _ _ _ _ _ Hm).
      * exists n', off, b, t. split; [by apply list_lookup_insert_eq|]. eapply twins_impl; [|exact Htw]. auto.
    + rewrite list_lookup_insert_ne in Hn1; [done|]. rewrite (Hgx _ Hne).
      pose proof (mr_place _ _ _ _ _ Hm _ _ Hn1) as Hp. pose proof (lookup_lt_Some _ _ _ Hn1) as Ha'.
      unfold placed in *. cbn [BeTree.dirty set_nodes set_dirty]. destruct (g a') as [i|o|i] eqn:Eg.
      * destruct Hp as (Hdt & n1' & off1 & b1 & t1 & Hs1 & Htw1). split; [by rewrite list_lookup_insert_ne|].
        exists n1', off1, b1, t1. split; [|eapply twins_impl; [|exact Htw1]; auto].
        simpl. rewrite list_lookup_insert_ne; [|done].
        assert (i ≠ id); [|done]. eapply (Hother a'); [done..|]. by rewrite /denotes Eg.
      * destruct Hp as (Hdt & Hc & rec & len & Hh & Hrec). split; [by rewrite list_lookup_insert_ne|]. split.
        -- intros i sl Ho Hsl. simpl in Ho, Hsl.
           assert (i ≠ id) as Hi2 by (eapply (Hother a'); [done..|]; by rewrite /denotes Eg).
           rewrite list_lookup_insert_ne in Hsl; [done|]. exact (Hc _ _ Ho Hsl).
        -- exists rec, len. split; [done|].
           destruct n1 as [ps chs bf|e], rec as [ps1 offs bf1|e1]; try done. simpl in Hrec |- *.
           destruct Hrec as (-> & -> & Hl & Hof & Hch). split_and!; try done.
           apply Forall2_same_length_lookup. apply Forall2_same_length_lookup in Hch as [Hl2 Hch]. split; [done|].
           intros j o' x Ho' Hx. rewrite Hgx; [|by eapply Hch]. intros ->.
           eapply (Hpar a'); [|exact Eg]. eapply (mr_kids _ _ _ _ _ Hm a' _ _ Hn1);
             [by rewrite /live Eg|by eapply list_elem_of_lookup_2].
      * destruct Hp as [Hs1 Hc1]. split; [|done]. simpl. rewrite list_lookup_insert_ne; [congruence|done].
  - intros x y Hx Hy. destruct (decide (x = a)) as [->|Hnx], (decide (y = a)) as [->|Hny]; [done| | |];
      rewrite ?Hga ?(Hgx _ Hnx) ?(Hgx _ Hny).
    + intros Hg. exfalso. eapply (Hother y id); [done|done|by rewrite /denotes -Hg|done].
    + intros Hg. exfalso. eapply (Hother x id); [done|done|by rewrite /denotes Hg|done].
    + by apply (mr_inj _ _ _ _ _ Hm).
  - intros a' n1 x Hn1 Hl Hx. unfold reparent. destruct (decide (a' = a)) as [->|Hne].
    + rewrite list_lookup_insert_eq in Hn1; [done|]. injection Hn1 as <-.
      rewrite (decide_True _ _ Hx). split; [by apply Hkids|]. split; [|done]. apply Hlv.
      destruct n as [ps chs bf|e], n' as [ps1 chs1 bf1|e1]; try done; simpl in *; [|set_solver].
      destruct Htw as (_ & _ & Hch). apply list_elem_of_lookup in Hx as [j Hj].
      destruct (Forall2_lookup_r _ _ _ _ _ Hch Hj) as (i & _ & Hi'). by eapply denotes_live.
    + rewrite list_lookup_insert_ne in Hn1; [done|].
      assert (live g a') as Hl' by (by rewrite /live (Hgx _ Hne) in Hl).
      destruct (mr_kids _ _ _ _ _ Hm a' n1 x Hn1 Hl' Hx) as (Hxl & Hxlive & Hux).
      split; [done|]. split; [by apply Hlv|].
      destruct (decide (x ∈ kids n)) as [Hin|_]; [destruct (Hkids x Hin) as (_ & [?|?]); congruence|].
      destruct (decide (x ∈ kids n0)) as [Hin%Hold|_]; [congruence|done].
  - intros a' n1 Hn1 Hl. destruct (decide (a' = a)) as [->|Hne].
    + rewrite list_lookup_insert_eq in Hn1; [done|]. by injection Hn1 as <-.
    + rewrite list_lookup_insert_ne in Hn1; [done|]. eapply (mr_NoDup _ _ _ _ _ Hm); [exact Hn1|].
      by rewrite /live (Hgx _ Hne) in Hl.
  - intros o i sl Ho Hsl Hcl. destruct (decide (i = id)) as [->|Hne].
    + rewrite list_lookup_insert_eq in Hsl; [done|]. by injection Hsl as <-.
    + rewrite list_lookup_insert_ne in Hsl; [done|].
      destruct (mr_cover _ _ _ _ _ Hm _ _ _ Ho Hsl Hcl) as (a' & Ha' & Hg). exists a'. split; [done|].
      rewrite Hgx; [|done]. intros ->. apply Hne. unfold denotes in Hd. rewrite Hg in Hd. congruence.
  - intros o i Ho. destruct (mr_backs _ _ _ _ _ Hm _ _ Ho) as (sl & Hsl & Hof).
    destruct (decide (i = id)) as [->|Hne].
    + eexists. rewrite list_lookup_insert_eq; [done|]. split; [done|]. rewrite Hs in Hsl. by simplify_eq.
    + exists sl. by rewrite list_lookup_insert_ne.
  - apply Hden. apply Hm.
  - apply Hm.
Qed.

Lemma mirrors_ext g u u' s d : (∀ c, u' c = u c) → mirrors g u s d → mirrors g u' s d.
Proof. intros Hu []. split; try done. intros a n c Hn Hl Hc. rewrite Hu. eauto. Qed.

Lemma reparent_same a k u c : (∀ c, c ∈ k → u c = Some a) → reparent a k k u c = u c.
Proof. intros Hk. unfold reparent. repeat case_decide; [by rewrite Hk|done]. Qed.

(** [loaded_mut] on one side, [mark_dirty] on the other: the parent of the
    node must not be clean. *)
Lemma loaded_mut_mirror g g' u s d id a n :
  moved g a id g' → mirrors g u s d → nodes s !! a = Some n → denotes d g id a → in_memory d id →
  (∀ p o, u a = Some p → g p ≠ Rec o) →
  wpo true (loaded_mut id) (λ n' d', mirrors g' u (set_dirty (<[a:=true]> (dirty s)) s) d' ∧
    twins (denotes d' g') n n' ∧
    (∀ i x, denotes d g i x → denotes d' g' i x) ∧ ∀ i, in_memory d i → in_memory d' i) d.
Proof using All.
  intros Hmv Hm Hn Hd (n' & dr & off & b & t & Hs) Hpar. pose proof (lookup_lt_Some _ _ _ Hn) as Ha.
  destruct (resident_twins _ _ _ _ _ _ _ _ _ _ _ _ Hm Ha Hd Hs) as (n1 & Hn1 & Htw).
  assert (n1 = n) as -> by congruence. pose proof (mr_inv _ _ _ _ _ Hm) as Hi.
  unfold loaded_mut. apply wpo_bind. eapply wpo_slot; [exact Hs|]. cbv zeta. apply wpo_bind, wpo_get, wpo_bind.
  pose proof (total_bytes_ge _ _ _ (di_pos _ Hi) Hs) as Hge. cbn [slot_bytes] in Hge.
  eapply wpo_lift; [apply u64_sub_Ok; rewrite (di_bytes _ Hi); exact Hge|]. apply wpo_bind.
  apply wpo_u64_add; [done|intros _]. apply wpo_bind, wpo_modify, wpo_bind, wpo_modify, wpo_ret.
  set (c := set_c_resident (c_bytes (d_cache d) - b + est_bytes n')%Z (c_resident (d_cache d)) (d_cache d)).
  change (on_cache _ _) with (with_dirty id n' off (est_bytes n') t c d).
  assert (∀ x, x ∈ kids n → u x = Some a) as Hk.
  { intros x Hx. eapply (mr_kids _ _ _ _ _ Hm); [exact Hn|by eapply denotes_live|done]. }
  pose proof (update_mirror g _ u s d id a n n' dr off b t n n' (est_bytes n') t c Hmv Hm Hn Hd Hs Hpar Htw) as Hup.
  split_and!.
  - rewrite (list_insert_id (nodes s) a n Hn) in Hup. destruct s.
    eapply mirrors_ext; [intros x; symmetry; by apply (reparent_same a (kids n))|]. apply Hup.
    + intros x Hx. split; [|left; by apply Hk]. eapply (mr_kids _ _ _ _ _ Hm); [exact Hn|by eapply denotes_live|done].
    + eapply (mr_NoDup _ _ _ _ _ Hm); [exact Hn|by eapply denotes_live].
    + eapply with_dirty_inv; [done|exact Hs|apply est_bytes_nonneg|done..].
  - eapply twins_impl; [|exact Htw]. intros i x _. by eapply denotes_with_dirty.
  - intros i x. by eapply denotes_with_dirty.
  - intros i (n1 & dr1 & off1 & b1 & t1 & Hs1). destruct (decide (i = id)) as [->|Hne].
    + eexists _, _, _, _, _. simpl. apply list_lookup_insert_eq. by eapply lookup_lt_Some.
    + eexists _, _, _, _, _. simpl. rewrite list_lookup_insert_ne; [done|exact Hs1].
Qed.

Lemma put_loaded_run id x d n0 dr off b t :
  d_slots d !! id = Some (Loaded n0 dr off b t) →
  put_loaded id x d = Ok (tt, set_d_slots (<[id:=Loaded x dr off b t]> (d_slots d)) d).
Proof using All. intros Hs. unfold put_loaded, slot, get_, lift, mbind, M_bind. by rewrite Hs. Qed.

(** The split helpers take the contents out of the node before they put
    the first piece back. *)
Lemma hollow_mirror g u s d id a n0 n0' off b t x n n' :
  mirrors g u s d → nodes s !! a = Some n0 → g a = At id → d_slots d !! id = Some (Loaded n0' true off b t) →
  (∀ p o, u a = Some p → g p ≠ Rec o) → twins (denotes d g) n n' →
  (∀ c, c ∈ kids n → c < length (nodes s) ∧ (u c = Some a ∨ u c = None)) → NoDup (kids n) →
  wpo true (_ ← loaded_mut id; put_loaded id n') (λ _ d', mirrors g (reparent a (kids n0) (kids n) u)
    (set_nodes (<[a:=n]> (nodes s)) s) d' ∧ ∀ i x, denotes d g i x → denotes d' g i x)
    (set_d_slots (<[id:=Loaded x true off b t]> (d_slots d)) d).
Proof using All.
  intros Hm Hn0 Hg Hs Hpar Htw Hk Hnd. assert (denotes d g id a) as Hd by by rewrite /denotes Hg.
  pose proof (mr_inv _ _ _ _ _ Hm) as Hi. pose proof (lookup_lt_Some _ _ _ Hs) as Hlt.
  set (d1 := set_d_slots _ d). assert (d_slots d1 !! id = Some (Loaded x true off b t)) as Hs1
    by by apply list_lookup_insert_eq.
  pose proof (total_bytes_ge _ _ _ (di_pos _ Hi) Hs) as Hge. cbn [slot_bytes] in Hge.
  unfold loaded_mut. apply wpo_bind, wpo_bind. eapply wpo_slot; [exact Hs1|]. cbv zeta.
  apply wpo_bind, wpo_get, wpo_bind.
  eapply wpo_lift; [apply u64_sub_Ok; simpl; rewrite (di_bytes _ Hi); exact Hge|]. apply wpo_bind.
  apply wpo_u64_add; [done|intros _]. apply wpo_bind, wpo_modify, wpo_bind, wpo_modify, wpo_ret.
  set (c := set_c_resident (c_bytes (d_cache d) - b + est_bytes x)%Z (c_resident (d_cache d)) (d_cache d)).
  set (d2 := on_cache _ _). assert (d_slots d2 !! id = Some (Loaded x true off (est_bytes x) t)) as Hs2.
  { simpl. apply list_lookup_insert_eq. by rewrite length_insert. }
  unfold wpo. rewrite (put_loaded_run _ _ _ _ _ _ _ _ Hs2).
  assert (set_d_slots (<[id:=Loaded n' true off (est_bytes x) t]> (d_slots d2)) d2 =
    with_dirty id n' off (est_bytes x) t c d) as ->.
  { unfold with_dirty, d2, d1. destruct d. simpl. by rewrite !list_insert_insert_eq. }
  pose proof (mr_place _ _ _ _ _ Hm _ _ Hn0) as Hp. rewrite Hg in Hp. destruct Hp as [Hdt _].
  split.
  - assert (moved g a id g) as Hmv by done.
    pose proof (update_mirror g g u s d id a n0 n0' true off b t n n' (est_bytes x) t c Hmv Hm Hn0 Hd Hs Hpar Htw Hk Hnd) as Hup.
    rewrite (list_insert_id (dirty s) a true Hdt) in Hup. destruct s. apply Hup.
    eapply with_dirty_inv; [done|exact Hs|apply est_bytes_nonneg|done..].
  - intros i y. unfold denotes. by destruct (g y).
Qed.

(** Assigning a dirty node: its children are the old ones or orphans. *)
Lemma put_loaded_mirror g u s d id a n0 n n' :
  mirrors g u s d → nodes s !! a = Some n0 → g a = At id →
  (∀ p o, u a = Some p → g p ≠ Rec o) → twins (denotes d g) n n' →
  (∀ c, c ∈ kids n → c < length (nodes s) ∧ (u c = Some a ∨ u c = None)) → NoDup (kids n) →
  wp (put_loaded id n') (λ _ d', mirrors g (reparent a (kids n0) (kids n) u)
    (set_nodes (<[a:=n]> (nodes s)) s) d' ∧ ∀ i x, denotes d g i x → denotes d' g i x) d.
Proof using All.
  intros Hm Hn0 Hg Hpar Htw Hk Hnd. assert (denotes d g id a) as Hd by by rewrite /denotes Hg.
  pose proof (mr_place _ _ _ _ _ Hm _ _ Hn0) as Hp. rewrite Hg in Hp.
  destruct Hp as (Hdt & n0' & off & b & t & Hs & _).
  unfold put_loaded. apply wp_bind. eapply wp_slot; [exact Hs|]. apply wp_put_slot.
  pose proof (mr_inv _ _ _ _ _ Hm) as Hi.
  assert (set_d_slots (<[id:=Loaded n' true off b t]> (d_slots d)) d = with_dirty id n' off b t (d_cache d) d) as ->
    by by destruct d.
  split.
  - assert (moved g a id g) as Hmv by done.
    pose proof (update_mirror g g u s d id a n0 n0' true off b t n n' b t (d_cache d) Hmv Hm Hn0 Hd Hs Hpar Htw Hk Hnd) as Hup.
    rewrite (list_insert_id (dirty s) a true Hdt) in Hup. destruct s. apply Hup.
    pose proof (di_pos _ Hi) as Hp. rewrite Forall_lookup in Hp. specialize (Hp _ _ Hs). simpl in Hp.
    eapply with_dirty_inv; [done|exact Hs|done|lia|done..].
  - intros i x. unfold denotes. by destruct (g x).
Qed.

(** ** Allocation *)

(** The parents after [a] was allocated over the orphans [new]. *)
Definition adopted (a : NodeId) (new : list NodeId) u : NodeId → option NodeId :=
  λ c, if decide (c ∈ new) then Some a else if decide (c = a) then None else u c.

Definition alloc_node (n : Node) s : BeTree P :=
  set_dirty (dirty s ++ [true]) (set_nodes (nodes s ++ [n]) s).

(** A new dirty slot. *)
Lemma grow_inv d n c :
  disk_inv d → c_bytes c = (c_bytes (d_cache d) + est_bytes n)%Z → c_resident c = S (c_resident (d_cache d)) →
  c_lru c = c_lru (d_cache d) →
  disk_inv (set_d_cache c (set_d_slots (d_slots d ++ [Loaded n true None (est_bytes n) 0]) d)).
Proof using All.
  intros Hi Hcb Hcr Hcl.
  assert (∀ i sl, (d_slots d ++ [Loaded n true None (est_bytes n) 0]) !! i = Some sl →
    (d_slots d !! i = Some sl) ∨ (i = length (d_slots d) ∧ sl = Loaded n true None (est_bytes n) 0)) as Hsl.
  { intros i sl [?|[Hge Hs]]%lookup_app_Some; [by left|right].
    apply list_lookup_singleton_Some in Hs as [? <-]. split; [lia|done]. }
  split; try apply Hi; simpl.
  - intros i n1 off b t [Hs|[_ [=]]]%Hsl. exact (di_clean _ Hi _ _ _ _ _ Hs).
  - intros i o [Hs|[_ [=]]]%Hsl. by eapply di_on_disk.
  - intros i n1 o b t [Hs|[_ [=]]]%Hsl. by eapply di_dirty.
  - intros o i Ho. destruct (di_offsets _ Hi _ _ Ho) as (sl & Hs & ?).
    exists sl. split; [by apply lookup_app_l_Some|done].
  - rewrite total_bytes_app Hcb (di_bytes _ Hi). simpl. lia.
  - rewrite Hcr (di_resident _ Hi). unfold resident. rewrite sum_list_with_app. simpl. lia.
  - apply Forall_app. split; [apply Hi|]. constructor; [|done]. apply est_bytes_nonneg.
  - rewrite Hcl. eapply Forall_impl; [apply Hi|]. intros x. rewrite length_app. simpl. lia.
Qed.

Lemma grow_mirror g u s d n n' c :
  mirrors g u s d → twins (denotes d g) n n' →
  (∀ c, c ∈ kids n → c < length (nodes s) ∧ u c = None) → NoDup (kids n) →
  let d' := set_d_cache c (set_d_slots (d_slots d ++ [Loaded n' true None (est_bytes n') 0]) d) in
  disk_inv d' →
  mirrors (<[length (nodes s):=At (length (d_slots d))]> g) (adopted (length (nodes s)) (kids n) u)
    (alloc_node n s) d' ∧
  ∀ i x, x < length (nodes s) → denotes d g i x →
    denotes d' (<[length (nodes s):=At (length (d_slots d))]> g) i x.
Proof using All.
  intros Hm Htw Hkids Hnd d' Hi. set (a := length (nodes s)) in *. set (id := length (d_slots d)) in *.
  set (g' := <[a:=At id]> g).
  assert (g' a = At id ∧ ∀ x, x ≠ a → g' x = g x) as [Hga Hgx] by apply moved_insert.
  assert (∀ i x, x < a → denotes d g i x → denotes d' g' i x) as Hden.
  { intros i x Hx. unfold denotes. rewrite Hgx; [lia|]. done. }
  split; [|exact Hden].
  assert (∀ i sl, d_slots d !! i = Some sl → d_slots d' !! i = Some sl) as Hsl
    by (intros i sl Hs; by apply lookup_app_l_Some).
  assert (∀ a1 n1, (nodes s ++ [n]) !! a1 = Some n1 →
    (a1 < a ∧ nodes s !! a1 = Some n1) ∨ (a1 = a ∧ n1 = n)) as Hinv.
  { intros a1 n1 [Hn1|[Hge Hn1]]%lookup_app_Some; [left; split; [by eapply lookup_lt_Some|done]|right].
    apply list_lookup_singleton_Some in Hn1 as [? <-]. split; [lia|done]. }
  assert (∀ a1 n1 x, nodes s !! a1 = Some n1 → live g a1 → x ∈ kids n1 → x < a) as Hkl
    by (intros a1 n1 x Hn1 Hl Hx; by eapply (mr_kids _ _ _ _ _ Hm)).
  split; simpl; rewrite ?length_app /=; try solve [apply Hm].
  - done.
  - by rewrite (mr_dirty _ _ _ _ _ Hm).
  - intros a1 n1 [[Hlt Hn1]|[-> ->]]%Hinv.
    + pose proof (mr_place _ _ _ _ _ Hm _ _ Hn1) as Hp. rewrite Hgx; [lia|]. unfold placed in *.
      cbn [BeTree.dirty set_nodes set_dirty alloc_node].
      assert (∀ b, BeTree.dirty s !! a1 = Some b → (BeTree.dirty s ++ [true]) !! a1 = Some b) as Hdt
        by (intros b Hb; by apply lookup_app_l_Some).
      destruct (g a1) as [i|o|i] eqn:Eg.
      * destruct Hp as (Hb & n1' & off & b & t & Hs & Htw1). split; [by apply Hdt|]. exists n1', off, b, t.
        split; [by apply Hsl|]. eapply twins_impl; [|exact Htw1]. intros j x Hx. apply Hden.
        eapply (Hkl a1); [done| |done]. by rewrite /live Eg.
      * destruct Hp as (Hb & Hc & rec & len & Hh & Hrec). split; [by apply Hdt|]. split.
        -- intros i sl Ho Hs. destruct (di_offsets _ (mr_inv _ _ _ _ _ Hm) _ _ Ho) as (sl' & Hs' & _).
           pose proof (Hsl _ _ Hs') as Hs2. rewrite Hs in Hs2. injection Hs2 as ->. exact (Hc _ _ Ho Hs').
        -- exists rec, len. split; [done|].
           destruct n1 as [ps chs bf|e], rec as [ps1 offs bf1|e1]; try done. simpl in Hrec |- *.
           destruct Hrec as (-> & -> & Hl & Hof & Hch). split_and!; try done.
           apply Forall2_same_length_lookup. apply Forall2_same_length_lookup in Hch as [Hl2 Hch]. split; [done|].
           intros j o' x Ho' Hx. rewrite Hgx; [|by eapply Hch]. intros ->.
           assert (a < a); [|lia]. eapply (Hkl a1 _ a Hn1); [by rewrite /live Eg|by eapply list_elem_of_lookup_2].
      * destruct Hp as [Hs Hc]. split; [by apply Hsl|done].
    + rewrite Hga. split.
      * apply lookup_app_Some. right. rewrite (mr_dirty _ _ _ _ _ Hm). fold a. by rewrite Nat.sub_diag.
      * exists n', None, (est_bytes n'), 0%Z. split; [simpl; by rewrite lookup_app_r ?Nat.sub_diag|].
        eapply twins_impl; [|exact Htw]. intros j x Hx. apply Hden. by apply Hkids.
  - intros x y Hx Hy. assert (∀ z, z < a → g z ≠ At id) as Hnew.
    { intros z Hz Hg. destruct (lookup_lt_is_Some_2 _ _ Hz) as [nz Hnz].
      pose proof (mr_place _ _ _ _ _ Hm _ _ Hnz) as Hp. rewrite Hg in Hp.
      destruct Hp as (_ & ? & ? & ? & ? & Hs & _). apply lookup_lt_Some in Hs. unfold id in Hs. lia. }
    destruct (decide (x = a)) as [->|Hnx], (decide (y = a)) as [->|Hny]; [done| | |];
      rewrite ?Hga ?(Hgx _ Hnx) ?(Hgx _ Hny).
    + intros Hg. exfalso. apply (Hnew y); [lia|done].
    + intros Hg. exfalso. apply (Hnew x); [lia|done].
    + apply (mr_inj _ _ _ _ _ Hm); lia.
  - intros a1 n1 x [[Hlt Hn1]|[-> ->]]%Hinv Hl Hx; unfold adopted.
    + assert (live g a1) as Hl1 by (rewrite /live Hgx in Hl; [lia|done]).
      destruct (mr_kids _ _ _ _ _ Hm a1 n1 x Hn1 Hl1 Hx) as (Hxl & Hxlive & Hux).
      split; [lia|]. split; [rewrite /live Hgx; [lia|done]|].
      destruct (decide (x ∈ kids n)) as [Hin%Hkids|_]; [destruct Hin; congruence|].
      rewrite decide_False; [lia|done].
    + destruct (Hkids x Hx) as [Hxl _]. split; [lia|]. rewrite (decide_True _ _ Hx). split; [|done].
      rewrite /live Hgx; [lia|]. destruct n as [ps chs bf|e], n' as [ps1 chs1 bf1|e1]; try done; simpl in *; [|set_solver].
      destruct Htw as (_ & _ & Hch). apply list_elem_of_lookup in Hx as [j Hj].
      destruct (Forall2_lookup_r _ _ _ _ _ Hch Hj) as (i & _ & Hi'). by eapply denotes_live.
  - intros a1 n1 [[Hlt Hn1]|[-> ->]]%Hinv Hl; [|done]. eapply (mr_NoDup _ _ _ _ _ Hm); [exact Hn1|].
    rewrite /live Hgx in Hl; [lia|done].
  - intros o i sl Ho Hs Hcl. destruct (di_offsets _ (mr_inv _ _ _ _ _ Hm) _ _ Ho) as (sl' & Hs' & _).
    pose proof (Hsl _ _ Hs') as Hs2. simpl in Hs2. rewrite Hs in Hs2. injection Hs2 as ->.
    destruct (mr_cover _ _ _ _ _ Hm _ _ _ Ho Hs' Hcl) as (a1 & Ha1 & Hg1). exists a1. split; [lia|].
    rewrite Hgx; [unfold a; lia|done].
  - intros o i Ho. destruct (mr_backs _ _ _ _ _ Hm _ _ Ho) as (sl & Hs & Hof). exists sl. split; [by apply Hsl|done].
  - apply Hden; apply Hm.
  - pose proof (mr_root_lt _ _ _ _ _ Hm). lia.
Qed.

Lemma alloc_mirror g u s d n n' :
  mirrors g u s d → twins (denotes d g) n n' →
  (∀ c, c ∈ kids n → c < length (nodes s) ∧ u c = None) → NoDup (kids n) →
  wpo true (alloc_dirty n') (λ id d', mirrors (<[length (nodes s):=At id]> g)
    (adopted (length (nodes s)) (kids n) u) (alloc_node n s) d' ∧
    ∀ i x, x < length (nodes s) → denotes d g i x → denotes d' (<[length (nodes s):=At id]> g) i x) d.
Proof using All.
  intros Hm Htw Hkids Hnd. unfold alloc_dirty. apply wpo_bind, wpo_get. cbv zeta. apply wpo_bind, wpo_modify.
  apply wpo_bind. unfold account. apply wpo_bind, wpo_get, wpo_bind. apply wpo_u64_add; [done|intros _].
  apply wpo_modify. apply wpo_bind. cbn [d_cache set_d_slots].
  set (c := set_c_resident (c_bytes (d_cache d) + est_bytes n')%Z (c_resident (d_cache d) + 1) (d_cache d)).
  change (on_cache _ _) with (set_d_cache c (set_d_slots (d_slots d ++ [Loaded n' true None (est_bytes n') 0]) d)).
  set (d1 := set_d_cache c _). pose proof (mr_inv _ _ _ _ _ Hm) as Hi.
  assert (disk_inv d1) as Hi1 by (apply grow_inv; [done|done|simpl; lia|done]).
  destruct (grow_mirror g u s d n n' c Hm Htw Hkids Hnd Hi1) as [Hm1 Hden].
  eapply wpo_mono; [apply (touch_ov true (λ _, False) (length (d_slots d)) d1); [done| |done]|].
  { simpl. rewrite length_app /=. lia. }
  intros _ d2 (Hi2 & Hr & _). apply wpo_ret. split; [by eapply mirrors_refreshes|].
  intros i x Hx Hd. eapply denotes_refreshes; [exact Hr|]. by apply Hden.
Qed.

(** ** Release *)

(** The children of a released node are orphans. *)
Definition orphaned (old : list NodeId) u : NodeId → option NodeId :=
  λ c, if decide (c ∈ old) then None else u c.

Definition without (id : NodeId) (os : gmap Z NodeId) (c : Cache) d : E :=
  set_d_slots (<[id:=Freed]> (d_slots d)) (set_d_offsets os (set_d_cache c d)).

(** No clean resident node has a released orphan for a child. *)
Lemma orphan_unlisted g u s d id a i n off b t o :
  mirrors g u s d → a < length (nodes s) → denotes d g id a → u a = None →
  d_slots d !! i = Some (Loaded n false off b t) → off = Some o →
  ∀ ps offs bf len o', holds_record (file d) (d_watermark d) o (DiskInternal ps offs bf) len →
  o' ∈ offs → d_offsets d !! o' ≠ Some id.
Proof using All.
  intros Hm Ha Hd Hu Hs -> ps offs bf len o' Hh Hin Ho'.
  destruct (di_clean _ (mr_inv _ _ _ _ _ Hm) _ _ _ _ _ Hs) as (o1 & [= <-] & _ & Hoi).
  destruct (mr_cover _ _ _ _ _ Hm _ _ _ Hoi Hs) as (a1 & Ha1 & Hg1); [done|].
  destruct (lookup_lt_is_Some_2 _ _ Ha1) as [n1 Hn1].
  pose proof (mr_place _ _ _ _ _ Hm _ _ Hn1) as Hp. rewrite Hg1 in Hp.
  destruct Hp as (_ & _ & rec & len' & Hh' & Hrec).
  destruct (holds_record_fun _ _ _ _ _ _ _ _ Hh Hh') as [-> _].
  destruct n1 as [ps1 chs bf1|e]; [|done]. destruct Hrec as (_ & _ & _ & _ & Hch).
  apply list_elem_of_lookup in Hin as [j Hj].
  destruct (Forall2_lookup_l _ _ _ _ _ Hch Hj) as (c & Hc & Hgc).
  destruct (mr_kids _ _ _ _ _ Hm a1 _ c Hn1) as (Hcl & _ & Huc);
    [by rewrite /live Hg1|by eapply list_elem_of_lookup_2|].
  assert (c = a) as ->; [|congruence].
  eapply denotes_inj; [exact Hm|done|done| |exact Hd]. by rewrite /denotes Hgc.
Qed.

Lemma without_mirror g u s d id a n sl os c :
  mirrors g u s d → nodes s !! a = Some n → denotes d g id a → u a = None → a ≠ root s → node_cost n ≤ 2 →
  d_slots d !! id = Some sl →
  (∀ o i, os !! o = Some i ↔ d_offsets d !! o = Some i ∧ i ≠ id) →
  c_bytes c = (c_bytes (d_cache d) - slot_bytes sl)%Z → c_resident c = c_resident (d_cache d) - slot_resident sl →
  c_lru c = c_lru (d_cache d) →
  mirrors (<[a:=Gone id]> g) (orphaned (kids n) u) s (without id os c d).
Proof using All.
  intros Hm Hn Hd Hu Hroot Hcost Hs Hos Hcb Hcr Hcl.
  pose proof (lookup_lt_Some _ _ _ Hn) as Ha. pose proof (lookup_lt_Some _ _ _ Hs) as Hid.
  pose proof (mr_inv _ _ _ _ _ Hm) as Hi. set (d' := without id os c d). set (g' := <[a:=Gone id]> g).
  assert (g' a = Gone id) as Hga by apply fn_lookup_insert.
  assert (∀ x, x ≠ a → g' x = g x) as Hgx by (intros x Hx; by apply fn_lookup_insert_ne).
  assert (∀ i sl', <[id:=Freed]> (d_slots d) !! i = Some sl' →
    (i = id ∧ sl' = Freed) ∨ (i ≠ id ∧ d_slots d !! i = Some sl')) as Hinv.
  { intros i sl' Hi'. destruct (decide (i = id)) as [->|Hne].
    - rewrite list_lookup_insert_eq in Hi'; [done|]. injection Hi' as <-. auto.
    - rewrite list_lookup_insert_ne in Hi'; [done|]. auto. }
  assert (∀ i sl', d_slots d !! i = Some sl' → i ≠ id → <[id:=Freed]> (d_slots d) !! i = Some sl') as Hkeep.
  { intros i sl' Hs' Hne. by rewrite list_lookup_insert_ne. }
  assert (∀ a' i, a' < length (nodes s) → a' ≠ a → denotes d g i a' → i ≠ id) as Hother.
  { intros a' i Ha' Hne Hd' ->. apply Hne. by eapply denotes_inj. }
  assert (∀ i x, x < length (nodes s) → x ≠ a → denotes d g i x → denotes d' g' i x) as Hden.
  { intros i x Hx Hne Hdx. pose proof (Hother _ _ Hx Hne Hdx) as Hi'. unfold denotes in *. rewrite Hgx //.
    destruct (g x); [done| |done]. simpl. by apply Hos. }
  assert (∀ a1 n1 x, nodes s !! a1 = Some n1 → live g a1 → x ∈ kids n1 → x < length (nodes s) ∧ x ≠ a) as Hkl.
  { intros a1 n1 x Hn1 Hl Hx. destruct (mr_kids _ _ _ _ _ Hm _ _ _ Hn1 Hl Hx) as (? & _ & Hux).
    split; [done|]. intros ->. congruence. }
  split; simpl; try solve [apply Hm].
  - (* the slots *)
    split; try apply Hi; simpl.
    + intros i n1 off b t [[-> [=]]|[Hne Hs1]]%Hinv.
      destruct (di_clean _ Hi _ _ _ _ _ Hs1) as (o & -> & (rec & len & Hh & Hmt) & Ho). exists o.
      split; [done|]. split; [|by apply Hos]. exists rec, len. split; [done|].
      destruct n1 as [ps chs bf|e], rec as [ps1 offs bf1|e1]; try done.
      destruct Hmt as (-> & -> & Hl & Hof & Hch). split_and!; try done.
      apply Forall2_same_length_lookup. apply Forall2_same_length_lookup in Hch as [Hl2 Hch]. split; [done|].
      intros j x o' Hx Ho'. apply Hos. split; [by eapply Hch|]. intros ->.
      eapply (orphan_unlisted g u s d id a i); [done|done|done|done|exact Hs1|done|exact Hh| |by eapply Hch].
      by eapply list_elem_of_lookup_2.
    + intros i o [[-> [=]]|[Hne Hs1]]%Hinv. apply Hos. split; [by eapply di_on_disk|done].
    + intros i n1 o b t [[-> [=]]|[Hne Hs1]]%Hinv. apply Hos. split; [by eapply di_dirty|done].
    + intros o i [Ho _]%Hos. by eapply di_below.
    + intros o i [Ho Hne]%Hos. destruct (di_offsets _ Hi _ _ Ho) as (sl' & Hs' & ?). exists sl'.
      split; [by apply Hkeep|done].
    + rewrite (total_bytes_insert _ _ _ _ Hs) Hcb (di_bytes _ Hi). simpl. lia.
    + pose proof (resident_insert _ _ _ Freed Hs). rewrite Hcr (di_resident _ Hi). simpl in *. lia.
    + apply Forall_insert; [apply Hi|done].
    + rewrite length_insert Hcl. apply Hi.
  - intros a1 n1 Hn1. pose proof (lookup_lt_Some _ _ _ Hn1) as Ha1.
    destruct (decide (a1 = a)) as [->|Hne].
    + rewrite Hga. split; [simpl; by apply list_lookup_insert_eq|]. congruence.
    + rewrite (Hgx _ Hne). pose proof (mr_place _ _ _ _ _ Hm _ _ Hn1) as Hp. unfold placed in *.
      destruct (g a1) as [i|o|i] eqn:Eg.
      * destruct Hp as (Hb & n1' & off & b & t & Hs1 & Htw1). split; [done|]. exists n1', off, b, t. split.
        { apply Hkeep; [done|]. eapply (Hother a1); [done..|]. by rewrite /denotes Eg. }
        eapply twins_impl; [|exact Htw1]. intros j x Hx. apply Hden;
          (eapply (Hkl a1); [exact Hn1|by rewrite /live Eg|exact Hx]).
      * destruct Hp as (Hb & Hc & rec & len & Hh & Hrec). split; [done|]. split.
        -- intros i sl' [Ho Hne']%Hos [[-> ->]|[_ Hs']]%Hinv; [done|]. exact (Hc _ _ Ho Hs').
        -- exists rec, len. split; [done|].
           destruct n1 as [ps chs bf|e], rec as [ps1 offs bf1|e1]; try done. simpl in Hrec |- *.
           destruct Hrec as (-> & -> & Hl & Hof & Hch). split_and!; try done.
           apply Forall2_same_length_lookup. apply Forall2_same_length_lookup in Hch as [Hl2 Hch]. split; [done|].
           intros j o' x Ho' Hx. rewrite Hgx; [|by eapply Hch].
           eapply (Hkl a1 _ x Hn1); [by rewrite /live Eg|by eapply list_elem_of_lookup_2].
      * destruct Hp as [Hs1 Hc1]. split; [|done]. simpl. destruct (decide (i = id)) as [->|Hne'].
        -- by apply list_lookup_insert_eq.
        -- by apply Hkeep.
  - assert (∀ x, x < length (nodes s) → x ≠ a → g x ≠ Gone id) as Hng.
    { intros x Hx Hne Hg. destruct (lookup_lt_is_Some_2 _ _ Hx) as [nx Hnx].
      pose proof (mr_place _ _ _ _ _ Hm _ _ Hnx) as Hp. rewrite Hg in Hp. destruct Hp as [Hf _].
      destruct (denotes_slot _ _ _ _ _ _ _ Hm Ha Hd) as (sl1 & Hs1 & Hsl1).
      assert (sl1 = Freed) as -> by congruence. destruct (g a); naive_solver. }
    intros x y Hx Hy. destruct (decide (x = a)) as [->|Hnx], (decide (y = a)) as [->|Hny]; [done| | |];
      rewrite ?Hga ?(Hgx _ Hnx) ?(Hgx _ Hny).
    + intros Hg. exfalso. by apply (Hng y).
    + intros Hg. exfalso. by apply (Hng x).
    + by apply (mr_inj _ _ _ _ _ Hm).
  - intros a1 n1 x Hn1 Hl Hx. assert (a1 ≠ a) as Hne by (intros ->; by rewrite /live Hga in Hl).
    assert (live g a1) as Hl1 by by rewrite /live (Hgx _ Hne) in Hl.
    destruct (mr_kids _ _ _ _ _ Hm a1 n1 x Hn1 Hl1 Hx) as (Hxl & Hxlive & Hux).
    destruct (Hkl a1 n1 x Hn1 Hl1 Hx) as [_ Hxa]. split; [done|]. split; [by rewrite /live (Hgx _ Hxa)|].
    unfold orphaned. destruct (decide (x ∈ kids n)) as [Hin|_]; [|done]. exfalso. apply Hne.
    destruct (mr_kids _ _ _ _ _ Hm a n x Hn) as (_ & _ & Hux'); [by eapply denotes_live|done|]. congruence.
  - intros a1 n1 Hn1 Hl. assert (a1 ≠ a) as Hne by (intros ->; by rewrite /live Hga in Hl).
    eapply (mr_NoDup _ _ _ _ _ Hm); [exact Hn1|]. by rewrite /live (Hgx _ Hne) in Hl.
  - intros o i sl' [Ho Hne]%Hos [[-> ->]|[_ Hs']]%Hinv Hcl'; [done|].
    destruct (mr_cover _ _ _ _ _ Hm _ _ _ Ho Hs' Hcl') as (a1 & Ha1 & Hg1). exists a1. split; [done|].
    rewrite Hgx; [|done]. intros ->. apply Hne. unfold denotes in Hd. rewrite Hg1 in Hd. congruence.
  - intros o i [Ho Hne]%Hos. destruct (mr_backs _ _ _ _ _ Hm _ _ Ho) as (sl' & Hs' & Hof). exists sl'.
    split; [by apply Hkeep|done].
  - apply Hden; [apply Hm|done|apply Hm].
Qed.

Lemma release_mirror g u s d id a n :
  mirrors g u s d → nodes s !! a = Some n → denotes d g id a → u a = None → a ≠ root s → node_cost n ≤ 2 →
  wp (release_slot id) (λ _ d', mirrors (<[a:=Gone id]> g) (orphaned (kids n) u) s d' ∧
    ∀ i x, x < length (nodes s) → x ≠ a → denotes d g i x → denotes d' (<[a:=Gone id]> g) i x) d.
Proof using All.
  intros Hm Hn Hd Hu Hroot Hcost. pose proof (lookup_lt_Some _ _ _ Hn) as Ha.
  pose proof (mr_inv _ _ _ _ _ Hm) as Hi.
  destruct (denotes_slot _ _ _ _ _ _ _ Hm Ha Hd) as (sl & Hs & Hsl).
  set (os := match slot_offset sl with Some o => base.delete o (d_offsets d) | None => d_offsets d end).
  assert (∀ o i, os !! o = Some i ↔ d_offsets d !! o = Some i ∧ i ≠ id) as Hos.
  { intros o i. unfold os. destruct (slot_offset sl) as [o1|] eqn:Eo.
    - assert (d_offsets d !! o1 = Some id) as Ho1.
      { destruct sl as [n1 [] off b t|o2|]; simpl in Eo; [| | |done]; subst.
        - by eapply di_dirty.
        - by destruct (di_clean _ Hi _ _ _ _ _ Hs) as (? & [= <-] & _ & ?).
        - injection Eo as ->. by eapply di_on_disk. }
      destruct (decide (o = o1)) as [->|Hne].
      + rewrite lookup_delete_eq. split; [done|]. intros [? ?]. congruence.
      + rewrite lookup_delete_ne; [done|]. split; [|by intros []]. intros Ho. split; [done|]. intros ->.
        destruct (mr_backs _ _ _ _ _ Hm _ _ Ho) as (sl' & Hs' & Hof). congruence.
    - split; [|by intros []]. intros Ho. split; [done|]. intros ->.
      destruct (mr_backs _ _ _ _ _ Hm _ _ Ho) as (sl' & Hs' & Hof). congruence. }
  assert (∀ c, c_bytes c = (c_bytes (d_cache d) - slot_bytes sl)%Z →
    c_resident c = c_resident (d_cache d) - slot_resident sl → c_lru c = c_lru (d_cache d) →
    mirrors (<[a:=Gone id]> g) (orphaned (kids n) u) s (without id os c d) ∧
    ∀ i x, x < length (nodes s) → x ≠ a → denotes d g i x → denotes (without id os c d) (<[a:=Gone id]> g) i x) as Hall.
  { intros c Hcb Hcr Hcl. split; [by eapply without_mirror|]. intros i x Hx Hne Hdx.
    unfold denotes in *. rewrite fn_lookup_insert_ne; [done|]. destruct (g x) eqn:Eg; [done| |done].
    apply Hos. split; [done|]. intros ->. apply Hne. eapply denotes_inj; [exact Hm|done|done| |exact Hd].
    by rewrite /denotes Eg. }
  unfold release_slot. apply wp_bind. eapply wp_slot; [exact Hs|]. destruct sl as [n1 dr off b t|o|]; [| |].
  - pose proof (total_bytes_ge _ _ _ (di_pos _ Hi) Hs) as Hge. cbn [slot_bytes] in Hge.
    pose proof (resident_ge _ _ _ Hs) as Hrge. simpl in Hrge.
    apply wp_bind, wp_get, wp_bind. eapply wp_lift; [apply u64_sub_Ok; rewrite (di_bytes _ Hi); exact Hge|].
    apply wp_bind. eapply wp_lift; [apply usize_sub_Ok; rewrite (di_resident _ Hi); exact Hrge|].
    apply wp_bind, wp_modify, wp_bind.
    set (c := set_c_resident (c_bytes (d_cache d) - b)%Z (c_resident (d_cache d) - 1) (d_cache d)).
    specialize (Hall c). destruct off as [o|]; [apply wp_modify|apply wp_ret]; apply wp_put_slot;
      destruct d; by apply Hall.
  - apply wp_bind, wp_modify, wp_put_slot. specialize (Hall (d_cache d)).
    destruct d. apply Hall; simpl; [lia..|done].
  - destruct (g a); [naive_solver|done..].
Qed.

(** ** Fields that the nodes do not depend on *)
Lemma mirrors_fields g u s d s' d' :
  mirrors g u s d → same_store d d' → nodes s' = nodes s → dirty s' = dirty s →
  d_params d' = params s' → d_policy d' = policy s' → d_next_seq d' = next_seq s' →
  d_ops_since_commit d' = ops_since_commit s' → d_poisoned d' = false →
  ops_of (rec_v2 (d_trace d')) = ops_of (rec_v2 (trace s')) →
  denotes d' g (d_root d') (root s') → root s' < length (nodes s) → mirrors g u s' d'.
Proof using All.
  intros Hm Hss Hn Hdt Hp Hpol Hsq Hops Hpo Htr Hr Hrl.
  assert (disk_inv d') as Hi by (eapply disk_inv_same; [exact Hss|apply Hm]).
  destruct d, d', s, s'. unfold same_store in Hss. simpl in *.
  destruct Hss as (-> & -> & -> & -> & ->). subst. destruct Hm. by split.
Qed.
End steps.
