(* ===== verification/MirrorOps.v ===== *)
(** * The helpers of the flush, in lockstep

    Splits, their integration, reclamation, extraction and delivery: each
    helper of the disk engine against its counterpart on the arena. *)

From S2P Require Export MirrorSteps.
From stdpp Require Import options.
From Stdlib Require Import ZArith.

(** ** Vectors of related elements *)
Section vectors.
Context {A B : Type} (R : A → B → Prop).

Lemma vec_insert_rel n x y l k k' :
  R x y → Forall2 R l k → vec_insert n y k = Ok k' → ∃ l', vec_insert n x l = Ok l' ∧ Forall2 R l' k'.
Proof.
  intros Hxy Hl E. unfold vec_insert in *. rewrite (Forall2_length _ _ _ Hl).
  destruct (n <=? length k); [|done]. injection E as <-. eexists. split; [done|].
  apply Forall2_app; [by apply Forall2_take|]. constructor; [done|by apply Forall2_drop].
Qed.

Lemma vec_remove_rel n l k k' :
  Forall2 R l k → vec_remove n k = Ok k' → ∃ l', vec_remove n l = Ok l' ∧ Forall2 R l' k'.
Proof.
  intros Hl E. unfold vec_remove in *. rewrite (Forall2_length _ _ _ Hl).
  destruct (n <? length k); [|done]. injection E as <-. eexists. split; [done|]. by apply Forall2_delete.
Qed.

Lemma vec_slice_rel a b l k k' :
  Forall2 R l k → vec_slice a b k = Ok k' → ∃ l', vec_slice a b l = Ok l' ∧ Forall2 R l' k'.
Proof.
  intros Hl E. unfold vec_slice in *. rewrite (Forall2_length _ _ _ Hl).
  destruct (_ && _); [|done]. injection E as <-. eexists. split; [done|].
  by apply Forall2_take, Forall2_drop.
Qed.
End vectors.

Lemma vec_insert_perm {A} n (x : A) l l' : vec_insert n x l = Ok l' → l' ≡ₚ x :: l.
Proof.
  unfold vec_insert. destruct (n <=? length l); [|done]. intros [= <-].
  by rewrite -Permutation_middle take_drop.
Qed.

(** ** Promoted pieces *)
Definition promoted_rel (R : NodeId → NodeId → Prop) (l' l : list (Key * NodeId)) : Prop :=
  Forall2 (λ x' x, x'.1 = x.1 ∧ R x'.2 x.2) l' l.

Lemma promoted_rel_keys R l' l : promoted_rel R l' l → l'.*1 = l.*1.
Proof. induction 1 as [|x' x l' l [Hk _] _ IH]; [done|]. cbn [fmap list_fmap]. by f_equal. Qed.
Lemma promoted_rel_ids R l' l : promoted_rel R l' l → Forall2 R l'.*2 l.*2.
Proof. induction 1 as [|x' x l' l [_ Hr] _ IH]; simpl; by constructor. Qed.

Lemma insert_promoted_rel R l' l ps chs' chs ps1 chs1 :
  promoted_rel R l' l → Forall2 R chs' chs → insert_promoted l (ps, chs) = Ok (ps1, chs1) →
  ∃ chs1', insert_promoted l' (ps, chs') = Ok (ps1, chs1') ∧ Forall2 R chs1' chs1.
Proof.
  unfold insert_promoted. intros Hl. revert ps chs' chs.
  induction Hl as [|[k' i'] [k i] l' l [Hk Hr] Hl IH]; intros ps chs' chs Hch; cbn [ofold].
  - intros [= <- <-]. by exists chs'.
  - simpl in Hk, Hr. subst k'. destruct (vec_insert _ k ps) as [ps2| | |]; [|done..]. cbn [mbind outcome_bind].
    destruct (vec_insert _ i chs) as [chs2| | |] eqn:E; [|done..]. cbn [mbind outcome_bind mret outcome_ret].
    destruct (vec_insert_rel R _ _ _ _ _ _ Hr Hch E) as (chs2' & E' & Hch2).
    rewrite E'. cbn [mbind outcome_bind mret outcome_ret]. by apply IH.
Qed.

Lemma insert_promoted_perm l ps chs ps1 chs1 :
  insert_promoted l (ps, chs) = Ok (ps1, chs1) → chs1 ≡ₚ l.*2 ++ chs.
Proof.
  unfold insert_promoted. revert ps chs. induction l as [|[k i] l IH]; intros ps chs; cbn [ofold].
  - by intros [= <- <-].
  - destruct (vec_insert _ k ps) as [ps2| | |]; [|done..]. cbn [mbind outcome_bind].
    destruct (vec_insert _ i chs) as [chs2| | |] eqn:E; [|done..]. cbn [mbind outcome_bind mret outcome_ret].
    intros Hr%IH. apply vec_insert_perm in E. rewrite Hr E. simpl. by rewrite -Permutation_middle.
Qed.

(** [position] finds the same index on both sides. *)
Lemma position_rel (R : NodeId → NodeId → Prop) chs' chs c' c :
  Forall2 R chs' chs → (∀ x' x, x ∈ chs → R x' x → x' = c' ↔ x = c) → position c' chs' = position c chs.
Proof.
  intros Hl. unfold position. induction Hl as [|x' x chs' chs Hx Hl IH]; intros Hiff; [done|].
  cbn [list_find]. pose proof (Hiff x' x ltac:(left) Hx) as Hc.
  assert (fst <$> list_find (λ y, y = c') chs' = fst <$> list_find (λ y, y = c) chs) as IH'
    by (apply IH; intros ?? Hin; apply Hiff; by right).
  destruct (decide (x' = c')) as [->|Hne'], (decide (x = c)) as [->|Hne]; [done|naive_solver..|].
  destruct (list_find _ chs') as [[]|], (list_find _ chs) as [[]|]; simpl in *; congruence.
Qed.

Lemma position_Some c chs i : position c chs = Some i → chs !! i = Some c.
Proof.
  unfold position. destruct (list_find _ chs) as [[j x]|] eqn:E; [|done]. intros [= ->].
  by apply list_find_Some in E as (? & -> & _).
Qed.

(** The pieces of a split internal node. *)
Definition piece_rel (R : NodeId → NodeId → Prop) (x' x : InternalPiece) : Prop :=
  x'.1.1.1 = x.1.1.1 ∧ x'.1.1.2 = x.1.1.2 ∧ x'.2 = x.2 ∧ Forall2 R x'.1.2 x.1.2.

Lemma peel_pieces_rel (R : NodeId → NodeId → Prop) ps chs' chs b sizes b1 pieces :
  Forall2 R chs' chs → peel_pieces ps chs b sizes = Ok (b1, pieces) →
  ∃ pieces', peel_pieces ps chs' b sizes = Ok (b1, pieces') ∧ Forall2 (piece_rel R) pieces' pieces.
Proof.
  intros Hch. unfold peel_pieces.
  match goal with |- ofold ?f _ _ = _ → _ => set (F := f) end.
  match goal with |- context [ofold ?f _ _ = Ok (_, _) ∧ _] => set (F' := f) end.
  assert (∀ js acc acc' b, Forall2 (piece_rel R) acc' acc → ofold F (b, acc) js = Ok (b1, pieces) →
    ∃ pieces', ofold F' (b, acc') js = Ok (b1, pieces') ∧ Forall2 (piece_rel R) pieces' pieces) as Hall;
    [|apply Hall; constructor].
  clear b. induction js as [|j js IH]; intros acc acc' b Hacc; cbn [ofold].
  - intros [= <- <-]. by exists acc'.
  - intros ([b2 acc2] & E1 & E2)%obind_Ok_inv.
    assert (∃ acc2', F' (b, acc') j = Ok (b2, acc2') ∧ Forall2 (piece_rel R) acc2' acc2) as (acc2' & E1' & Hacc2);
      [|rewrite E1'; by apply IH with acc2].
    clear IH E2. unfold F, F' in *. clear F F'. revert E1.
    destruct (expect (piece_starts sizes !! j)) as [start| | |]; [|done..]. cbn [mbind outcome_bind].
    destruct (expect (sizes !! j)) as [size| | |]; [|done..]. cbn [mbind outcome_bind].
    destruct (usize_sub (start + size) 1) as [last| | |]; [|done..]. cbn [mbind outcome_bind].
    destruct (vec_slice start last ps) as [pps| | |]; [|done..]. cbn [mbind outcome_bind].
    destruct (vec_slice start (start + size) chs) as [pcs| | |] eqn:E; [|done..]. cbn [mbind outcome_bind].
    destruct (vec_slice_rel R _ _ _ _ _ Hch E) as (pcs' & -> & Hpcs). cbn [mbind outcome_bind].
    destruct (usize_sub start 1) as [at_| | |]; [|done..]. cbn [mbind outcome_bind].
    destruct (expect (ps !! at_)) as [q| | |]; [|done..]. cbn [mbind outcome_bind].
    destruct (bt_split_off b q) as [b3 pb]. cbn [mret outcome_ret]. intros [= -> <-].
    eexists. split; [done|]. apply Forall2_app; [done|]. by repeat constructor.
Qed.

(** The pieces share out the children. *)
Lemma peel_loop_kids ps chs sizes suf : ∀ pre b acc b1 pieces,
  sizes = pre ++ suf →
  ofold (peel_body ps chs sizes) (b, acc) (rev (seq (length pre) (length suf))) = Ok (b1, pieces) →
  ∃ new, pieces = acc ++ new ∧
    concat (map (λ x, x.1.2) (rev new)) = take (sum_list suf) (drop (sum_list pre) chs).
Proof.
  induction suf as [|s suf IH]; intros pre b acc b1 pieces Es.
  { intros [= <- <-]. exists []. by rewrite app_nil_r. }
  cbn [length seq rev]. rewrite ofold_app. intros ([b2 acc2] & E1 & E2)%obind_Ok_inv.
  destruct (IH (pre ++ [s]) b acc b2 acc2) as (new & -> & Hnew); [by rewrite -app_assoc| |].
  { by rewrite length_app Nat.add_1_r. }
  cbn [ofold] in E2. apply obind_Ok_inv in E2 as ([b3 acc3] & E2 & [= <- <-]).
  unfold peel_body in E2. rewrite Es lookup_piece_starts list_lookup_middle // in E2.
  cbn [expect mbind outcome_bind] in E2.
  apply obind_Ok_inv in E2 as (last & _ & E2). apply obind_Ok_inv in E2 as (pps & _ & E2).
  apply obind_Ok_inv in E2 as (pcs & Epcs & E2). apply obind_Ok_inv in E2 as (at_ & _ & E2).
  apply obind_Ok_inv in E2 as (q & _ & E2). destruct (bt_split_off b2 q) as [b4 pb]. injection E2 as <- <-.
  exists (new ++ [(q, pps, pcs, pb)]). split; [by rewrite app_assoc|].
  rewrite rev_app_distr /= Hnew sum_list_with_app sum_list_cons. cbn [sum_list_with].
  unfold vec_slice in Epcs. destruct (_ && _) eqn:E; [|done]. injection Epcs as <-. cbn [fst snd].
  replace (sum_list pre + s - sum_list pre) with s by lia.
  replace (sum_list pre + (s + 0)) with (sum_list pre + s) by lia.
  by rewrite -(drop_drop chs s (sum_list pre)) take_take_drop.
Qed.

Lemma peel_pieces_kids ps chs b sizes b1 pieces s0 first :
  peel_pieces ps chs b sizes = Ok (b1, pieces) → sizes !! 0 = Some s0 → vec_slice 0 s0 chs = Ok first →
  first ++ concat (map (λ x, x.1.2) (rev pieces)) `prefix_of` chs.
Proof.
  unfold peel_pieces. intros E Hs Hf. destruct sizes as [|s suf]; [done|]. injection Hs as ->.
  cbn [length] in E. rewrite Nat.sub_succ Nat.sub_0_r in E.
  change (ofold _ ?b ?l) with (ofold (peel_body ps chs (s0 :: suf)) b l) in E.
  destruct (peel_loop_kids ps chs (s0 :: suf) suf [s0] b [] b1 pieces eq_refl E) as (new & -> & Hnew).
  simpl app. rewrite Hnew /=. unfold id. rewrite Nat.add_0_r.
  unfold vec_slice in Hf. destruct (_ && _); [|done]. injection Hf as <-. rewrite Nat.sub_0_r drop_0 take_take_drop.
  exists (drop (s0 + sum_list suf) chs). by rewrite take_drop.
Qed.

(** The children of the pieces. *)
Definition piece_kids_of (ns : list (Node * Node)) : list NodeId := concat (map (λ x, kids x.1) ns).

Lemma elem_of_piece_kids c ns : c ∈ piece_kids_of ns ↔ ∃ x, x ∈ ns ∧ c ∈ kids x.1.
Proof.
  unfold piece_kids_of. induction ns as [|x ns IH]; simpl; [set_solver|]. rewrite elem_of_app IH. set_solver.
Qed.

Section ops.
Context {V P : Type} `{DeviceLaws V} `{CodecLaws} (v0 : V).
Notation E := (DiskEngine V P).
Notation mirrors := (mirrors v0).
Implicit Types (d : E) (s : BeTree P) (g : NodeId → Place) (u : NodeId → option NodeId).

(** What an operation leaves alone: the places of the nodes, and the
    parents of those not in [K]. *)
Record extends (K : list NodeId) g u s d g' u' s' d' : Prop := mkExtends {
  ex_len : length (nodes s) ≤ length (nodes s');
  ex_root : root s' = root s;
  ex_g x : x < length (nodes s) → g' x = g x;
  ex_u x : x < length (nodes s) → x ∉ K → u' x = u x;
  ex_den i x : x < length (nodes s) → denotes d g i x → denotes d' g' i x;
}.

Lemma mirror_extends_trans K g u s d g1 u1 s1 d1 g2 u2 s2 d2 :
  extends K g u s d g1 u1 s1 d1 → extends K g1 u1 s1 d1 g2 u2 s2 d2 → extends K g u s d g2 u2 s2 d2.
Proof.
  intros [] []. split; [lia|congruence|..].
  - intros x Hx. rewrite ex_g1; [lia|]. by apply ex_g0.
  - intros x Hx HK. rewrite ex_u1 //; [lia|]. by apply ex_u0.
  - intros i x Hx Hd. apply ex_den1; [lia|]. by apply ex_den0.
Qed.

Lemma extends_weaken K K' g u s d g' u' s' d' :
  K ⊆ K' → extends K g u s d g' u' s' d' → extends K' g u s d g' u' s' d'.
Proof. intros HK []. split; auto. Qed.

(** New nodes, not yet linked to a parent. *)
Definition fresh_pieces g' u' s s' (l' l : list (Key * NodeId)) : Prop :=
  promoted_rel (λ id a, g' a = At id) l' l ∧ NoDup l.*2 ∧
  Forall (λ a, length (nodes s) ≤ a < length (nodes s') ∧ u' a = None) l.*2.

(** ** Primitives *)
Lemma sim_node {A B} g u s d id a (k1 : Node → M (BeTree P) A) (k2 : Node → M E B) Φ :
  mirrors g u s d → a < length (nodes s) → denotes d g id a → in_memory d id →
  (∀ n n', nodes s !! a = Some n → twins (denotes d g) n n' → sim (k1 n) (k2 n') Φ s d) →
  sim (BeTree.node a ≫= k1) (loaded id ≫= k2) Φ s d.
Proof using All.
  intros Hm Ha Hd (n' & dr & off & b & t & Hs) Hk.
  destruct (resident_twins _ _ _ _ _ _ _ _ _ _ _ _ Hm Ha Hd Hs) as (n & Hn & Htw).
  apply sim_l. intros n1 s1 (? & ? & [= <- <-] & (? & Hn1%expect_Ok & [= <- <-])%lift_Ok)%bind_Ok.
  apply sim_r. unfold loaded. apply wpo_bind. eapply wpo_slot; [exact Hs|]. apply wpo_ret.
  assert (n1 = n) as -> by congruence. by apply Hk.
Qed.

Lemma at_in_memory g u s d a id : mirrors g u s d → a < length (nodes s) → g a = At id → in_memory d id.
Proof using All.
  intros Hm [n Hn]%lookup_lt_is_Some_2 Hg. pose proof (mr_place _ _ _ _ _ Hm _ _ Hn) as Hp.
  rewrite Hg in Hp. destruct Hp as (_ & n' & off & b & t & Hs & _). by eexists _, _, _, _, _.
Qed.

Lemma sim_mark {A B} g g' u s d id a (k1 : unit → M (BeTree P) A) (k2 : Node → M E B) Φ :
  moved g a id g' → mirrors g u s d → a < length (nodes s) → denotes d g id a → in_memory d id →
  (∀ p o, u a = Some p → g p ≠ Rec o) →
  (∀ n n' d', nodes s !! a = Some n → mirrors g' u (set_dirty (<[a:=true]> (dirty s)) s) d' →
    twins (denotes d' g') n n' → (∀ i x, denotes d g i x → denotes d' g' i x) →
    (∀ i, in_memory d i → in_memory d' i) →
    sim (k1 tt) (k2 n') Φ (set_dirty (<[a:=true]> (dirty s)) s) d') →
  sim (mark_dirty a ≫= k1) (loaded_mut id ≫= k2) Φ s d.
Proof using All.
  intros Hmv Hm Ha Hd Hs Hpar Hk. destruct (lookup_lt_is_Some_2 _ _ Ha) as [n Hn].
  apply sim_l. intros [] s1 Emark.
  assert (s1 = set_dirty (<[a:=true]> (dirty s)) s) as ->.
  { apply bind_Ok in Emark as (? & ? & [= <- <-] & (ds & ? & (? & Ev & [= -> ->])%lift_Ok & [= <-])%bind_Ok).
    unfold vec_update in Ev. destruct (_ <? _); [|done]. injection Ev as <-. by rewrite list_insert_alter. }
  apply sim_r. eapply wpo_mono; [by eapply loaded_mut_mirror|]. intros n' d' (Hm' & Htw & Hden & Hmem). by apply (Hk n).
Qed.

Lemma sim_dirty {A B} g g' u s d id a (k1 : Node → M (BeTree P) A) (k2 : Node → M E B) Φ :
  moved g a id g' → mirrors g u s d → a < length (nodes s) → denotes d g id a → in_memory d id →
  (∀ p o, u a = Some p → g p ≠ Rec o) →
  (∀ n n' d', nodes s !! a = Some n → mirrors g' u (set_dirty (<[a:=true]> (dirty s)) s) d' →
    twins (denotes d' g') n n' → (∀ i x, denotes d g i x → denotes d' g' i x) →
    (∀ i, in_memory d i → in_memory d' i) →
    sim (k1 n) (k2 n') Φ (set_dirty (<[a:=true]> (dirty s)) s) d') →
  sim (_ ← mark_dirty a; n ← BeTree.node a; k1 n) (loaded_mut id ≫= k2) Φ s d.
Proof using All.
  intros Hmv Hm Ha Hd Hs Hpar Hk. eapply sim_mark; [done..|]. intros n n' d' Hn Hm' Htw Hden Hmem.
  apply sim_l. intros n1 s2 (? & ? & Eg & (n2 & Hn1%expect_Ok & Er)%lift_Ok)%bind_Ok.
  injection Eg as <- <-. injection Er as -> ->. simpl in Hn1. assert (n2 = n) as -> by congruence. by apply Hk.
Qed.

Lemma sim_put g u s d id a n0 n n' (Φ : unit → BeTree P → unit → E → Prop) :
  mirrors g u s d → nodes s !! a = Some n0 → g a = At id →
  (∀ p o, u a = Some p → g p ≠ Rec o) → twins (denotes d g) n n' →
  (∀ c, c ∈ kids n → c < length (nodes s) ∧ (u c = Some a ∨ u c = None)) → NoDup (kids n) →
  (∀ d', mirrors g (reparent a (kids n0) (kids n) u) (set_nodes (<[a:=n]> (nodes s)) s) d' →
    (∀ i x, denotes d g i x → denotes d' g i x) → Φ tt (set_nodes (<[a:=n]> (nodes s)) s) tt d') →
  sim (put_node a n) (put_loaded id n') Φ s d.
Proof using All.
  intros Hm Hn0 Hg Hpar Htw Hk Hnd HΦ [] s1 [= <-]. apply wp_wpo.
  eapply wp_mono; [by eapply put_loaded_mirror|]. intros [] d' [? ?]. by apply HΦ.
Qed.

Lemma sim_alloc g u s d n n' (Φ : NodeId → BeTree P → NodeId → E → Prop) :
  mirrors g u s d → twins (denotes d g) n n' →
  (∀ c, c ∈ kids n → c < length (nodes s) ∧ u c = None) → NoDup (kids n) →
  (∀ id d', mirrors (<[length (nodes s):=At id]> g) (adopted (length (nodes s)) (kids n) u) (alloc_node n s) d' →
    (∀ i x, x < length (nodes s) → denotes d g i x → denotes d' (<[length (nodes s):=At id]> g) i x) →
    Φ (length (nodes s)) (alloc_node n s) id d') →
  sim (alloc n) (alloc_dirty n') Φ s d.
Proof using All.
  intros Hm Htw Hk Hnd HΦ a s1 [= <- <-].
  eapply wpo_mono; [by eapply alloc_mirror|]. intros id d' [? ?]. by apply HΦ.
Qed.

(** ** Splits *)

(** A program pair that allocates the nodes [n] and [n'] under one key. *)
Definition allocates (n n' : Node) (m : M (BeTree P) (Key * NodeId)) (m' : M E (Key * NodeId)) : Prop :=
  ∀ s d Φ, (∀ q, sim (new_id ← alloc n; mret (q, new_id)) (new_id ← alloc_dirty n'; mret (q, new_id)) Φ s d) →
    sim m m' Φ s d.

Lemma sim_pieces {A A'} (f : A → M (BeTree P) (Key * NodeId)) (f' : A' → M E (Key * NodeId))
    (xs : list A) (xs' : list A') (ns : list (Node * Node)) g u s d :
  Forall3 (λ x x' n, allocates n.1 n.2 (f x) (f' x')) xs xs' ns →
  mirrors g u s d → Forall (λ n, twins (denotes d g) n.1 n.2) ns →
  NoDup (piece_kids_of ns) → (∀ c, c ∈ piece_kids_of ns → c < length (nodes s) ∧ u c = None) →
  sim (mapM f xs) (mapM f' xs') (λ ps s' ps' d', ∃ g' u', mirrors g' u' s' d' ∧
    extends (piece_kids_of ns) g u s d g' u' s' d' ∧ fresh_pieces g' u' s s' ps' ps) s d.
Proof using All.
  intros Hf. revert g u s d. induction Hf as [|x x' n xs xs' ns Hx Hf IH]; intros g u s d Hm Htw Hnd Hk; cbn [mapM].
  { apply sim_ret. exists g, u. split; [done|]. split; [by split|]. split; [constructor|]. by split; constructor. }
  apply Forall_cons in Htw as [Htw Htws]. unfold piece_kids_of in Hnd, Hk. cbn [map concat] in Hnd, Hk.
  apply NoDup_app in Hnd as (Hnd1 & Hdisj & Hnd2). set (a := length (nodes s)) in *.
  apply sim_bind. apply Hx. intros q. apply sim_bind.
  eapply sim_alloc; [exact Hm|exact Htw| |exact Hnd1|].
  { intros c Hc. apply Hk, elem_of_app. by left. }
  intros id d1 Hm1 Hden1. fold a in Hm1, Hden1. apply sim_ret.
  set (g1 := <[a:=At id]> g) in *. set (u1 := adopted a (kids n.1) u) in *. set (s1 := alloc_node n.1 s) in *.
  assert (length (nodes s1) = S a) as Hl1 by (simpl; rewrite length_app /=; unfold a; lia).
  assert (∀ x, x < a → g1 x = g x) as Hg1 by (intros y Hy; apply fn_lookup_insert_ne; lia).
  assert (∀ c, c ∈ piece_kids_of ns → c < a ∧ u1 c = None) as Hk1.
  { intros c Hc. destruct (Hk c) as [Hcl Hcu]; [apply elem_of_app; by right|]. split; [done|].
    unfold u1, adopted. rewrite decide_False; [intros Hc1; by apply (Hdisj c)|].
    rewrite decide_False; [lia|done]. }
  assert (extends (kids n.1) g u s d g1 u1 s1 d1) as Hex1.
  { split; [lia|done|exact Hg1| |exact Hden1]. intros y Hy Hny. unfold u1, adopted.
    rewrite decide_False; [done|]. rewrite decide_False; [fold a in Hy; lia|done]. }
  apply sim_bind. eapply sim_mono; [apply (IH g1 u1 s1 d1 Hm1)|].
  { rewrite Forall_forall in Htws. apply Forall_forall. intros y Hy. eapply twins_impl; [|by apply Htws].
    intros i c Hc. apply Hden1, Hk1, elem_of_piece_kids. by exists y. }
  { done. }
  { intros c Hc. destruct (Hk1 c Hc). split; [lia|done]. }
  intros ps s2 ps' d2 (g2 & u2 & Hm2 & Hex2 & Hrel & Hnd & Hfr). apply sim_ret. exists g2, u2. split; [done|].
  assert (g2 a = At id) as Hga.
  { rewrite (ex_g _ _ _ _ _ _ _ _ _ Hex2); [lia|]. apply fn_lookup_insert. }
  assert (u2 a = None) as Hua.
  { rewrite (ex_u _ _ _ _ _ _ _ _ _ Hex2); [lia|intros [? _]%Hk1; lia|].
    unfold u1, adopted. rewrite decide_False; [|by rewrite decide_True].
    intros Hin. destruct (Hk a) as [Hlt _]; [apply elem_of_app; by left|]. lia. }
  pose proof (ex_len _ _ _ _ _ _ _ _ _ Hex2) as Hl2. split.
  - eapply mirror_extends_trans; (eapply extends_weaken; [|eassumption]); unfold piece_kids_of; simpl; set_solver.
  - split_and!.
    + constructor; [done|exact Hrel].
    + simpl. constructor; [|done]. intros Hin. rewrite Forall_forall in Hfr. specialize (Hfr _ Hin). lia.
    + simpl. constructor; [split; [unfold a in *; lia|done]|]. eapply Forall_impl; [exact Hfr|]. intros y [Hy ?]. split; [unfold a in *; lia|done].
Qed.

Lemma sim_hollow {A B} g u s d id a n0 n0' off b t x n n' (k1 : M (BeTree P) A) (k2 : M E B) Φ :
  mirrors g u s d → nodes s !! a = Some n0 → g a = At id → d_slots d !! id = Some (Loaded n0' true off b t) →
  (∀ p o, u a = Some p → g p ≠ Rec o) → twins (denotes d g) n n' →
  (∀ c, c ∈ kids n → c < length (nodes s) ∧ (u c = Some a ∨ u c = None)) → NoDup (kids n) →
  (∀ d', mirrors g (reparent a (kids n0) (kids n) u) (set_nodes (<[a:=n]> (nodes s)) s) d' →
    (∀ i x, denotes d g i x → denotes d' g i x) → sim k1 k2 Φ (set_nodes (<[a:=n]> (nodes s)) s) d') →
  sim (put_node a n ≫= λ _, k1) (loaded_mut id ≫= λ _, put_loaded id n' ≫= λ _, k2) Φ s
    (set_d_slots (<[id:=Loaded x true off b t]> (d_slots d)) d).
Proof using All.
  intros Hm Hn0 Hg Hs Hpar Htw Hk Hnd HΦ. apply sim_l. intros [] s1 [= <-].
  pose proof (hollow_mirror v0 g u s d id a n0 n0' off b t x n n' Hm Hn0 Hg Hs Hpar Htw Hk Hnd) as Hrun.
  intros y s2 E. specialize (λ d' Hm' Hd', HΦ d' Hm' Hd' y s2 E).
  unfold wpo, mbind, M_bind in *. destruct (loaded_mut id _) as [[n1 d1]| | |]; [|done..].
  destruct (put_loaded id n' d1) as [[[] d2]| | |]; [|done..]. destruct Hrun. by apply HΦ.
Qed.

(** A dirty node under a parent that is not clean. *)
Definition held g u s a id : Prop :=
  a < length (nodes s) ∧ g a = At id ∧ ∀ p o, u a = Some p → g p ≠ Rec o.

Definition split_done g u s d a l s' l' d' : Prop := ∃ n0 g' u', nodes s !! a = Some n0 ∧
  mirrors g' u' s' d' ∧ extends (kids n0) g u s d g' u' s' d' ∧ fresh_pieces g' u' s s' l' l.

Lemma mark_extends g u s d d' a :
  (∀ i x, denotes d g i x → denotes d' g i x) →
  extends [] g u s d g u (set_dirty (<[a:=true]> (dirty s)) s) d'.
Proof using All. intros Hd. split; simpl; auto. Qed.

Lemma put_extends g u s d d' a n0 n :
  (∀ i x, denotes d g i x → denotes d' g i x) → (∀ c, c ∈ kids n → c ∈ kids n0) →
  extends (kids n0) g u s d g (reparent a (kids n0) (kids n) u) (set_nodes (<[a:=n]> (nodes s)) s) d'.
Proof using All.
  intros Hd Hk. split; simpl; rewrite ?length_insert; auto.
  intros x _ Hx. unfold reparent. rewrite decide_False; [by auto|]. by rewrite decide_False.
Qed.

Lemma fresh_pieces_from g' u' s1 s s' l' l :
  length (nodes s1) = length (nodes s) → fresh_pieces g' u' s1 s' l' l → fresh_pieces g' u' s s' l' l.
Proof using All. intros Hl (? & ? & Hf). split_and!; [done..|]. by rewrite -Hl. Qed.

Lemma sim_split_leaf g u s d a id :
  mirrors g u s d → held g u s a id →
  sim (BeTree.split_leaf a) (Disk.split_leaf id) (split_done g u s d a) s d.
Proof using All.
  intros Hm (Ha & Hg & Hpar). unfold BeTree.split_leaf, Disk.split_leaf.
  assert (moved g a id g) as Hmv by done.
  eapply sim_dirty; [exact Hmv|exact Hm|exact Ha|by rewrite /denotes Hg|by eapply at_in_memory|exact Hpar|].
  intros n n' d1 Hn Hm1 Htw Hden _. set (s1 := set_dirty _ s) in *.
  destruct n as [ps chs b|e], n' as [ps' chs' b'|e']; try done. simpl in Htw. subst e'.
  pose proof (mr_place _ _ _ _ _ Hm1 a _ Hn) as Hp. rewrite Hg in Hp. destruct Hp as (_ & n1 & off & by_ & t & Hs & _).
  apply sim_r. unfold wpo. rewrite (put_loaded_run v0 _ _ _ _ _ _ _ _ Hs). apply sim_get_l, sim_get_r. cbv zeta.
  assert (d_params (set_d_slots (<[id:=Loaded (Leaf ∅) true off by_ t]> (d_slots d1)) d1) = params s1) as ->
    by exact (mr_params _ _ _ _ _ Hm1).
  apply sim_lift. intros sizes _. apply sim_lift. intros first _.
  eapply sim_hollow; [exact Hm1|exact Hn|done|exact Hs|done|done|by intros c ?%not_elem_of_nil|constructor|].
  intros d2 Hm2 Hden2. set (pieces := tail _). set (s2 := set_nodes _ s1) in *.
  eapply sim_mono.
  - eapply (sim_pieces _ _ pieces pieces (map (λ p, (Leaf p, Leaf p)) pieces) g _ s2 d2); [|exact Hm2| | |].
    + generalize pieces. intros l. induction l as [|p l IH]; simpl; constructor; [|done].
      intros s3 d3 Φ Hall. apply sim_lift. intros kv _. apply Hall.
    + apply Forall_fmap, Forall_true. done.
    + unfold piece_kids_of. rewrite map_map. simpl. generalize pieces. intros l. induction l; [constructor|done].
    + intros c (x & (p & -> & _)%list_elem_of_fmap & Hc)%elem_of_piece_kids. by apply not_elem_of_nil in Hc.
  - intros l s3 l' d3 (g' & u' & Hm3 & Hex & Hfr). exists (Leaf e), g', u'. split; [done|]. split; [done|]. split.
    + eapply mirror_extends_trans; [by apply mark_extends|].
      eapply mirror_extends_trans; [by apply (put_extends g u s1 d1 d2 a (Leaf e) (Leaf first))|].
      eapply extends_weaken; [|exact Hex]. intros c (x & (p & -> & _)%list_elem_of_fmap & Hc)%elem_of_piece_kids. done.
    + eapply fresh_pieces_from; [|exact Hfr]. simpl. by rewrite length_insert.
Qed.

Lemma sim_split_internal g u s d a id :
  mirrors g u s d → held g u s a id →
  sim (BeTree.split_internal a) (Disk.split_internal id) (split_done g u s d a) s d.
Proof using All.
  intros Hm (Ha & Hg & Hpar). unfold BeTree.split_internal, Disk.split_internal.
  assert (moved g a id g) as Hmv by done.
  eapply sim_dirty; [exact Hmv|exact Hm|exact Ha|by rewrite /denotes Hg|by eapply at_in_memory|exact Hpar|].
  intros n n' d1 Hn Hm1 Htw Hden _. set (s1 := set_dirty _ s) in *.
  destruct n as [ps chs b|e], n' as [ps' chs' b'|e']; try done.
  destruct Htw as (-> & -> & Hch).
  assert (live g a) as Hlive by by rewrite /live Hg.
  pose proof (λ c, mr_kids _ _ _ _ _ Hm1 a _ c Hn Hlive) as Hkids. pose proof (mr_NoDup _ _ _ _ _ Hm1 a _ Hn Hlive) as Hnd.
  cbn [kids] in Hkids, Hnd.
  pose proof (mr_place _ _ _ _ _ Hm1 a _ Hn) as Hp. rewrite Hg in Hp. destruct Hp as (_ & n1 & off & by_ & t & Hs & _).
  apply sim_get_l. apply sim_r. unfold wpo. rewrite (put_loaded_run v0 _ _ _ _ _ _ _ _ Hs). apply sim_get_r.
  assert (d_params (set_d_slots (<[id:=Loaded (Internal [] [] ∅) true off by_ t]> (d_slots d1)) d1) = params s1) as ->
    by exact (mr_params _ _ _ _ _ Hm1).
  rewrite (Forall2_length _ _ _ Hch).
  apply sim_lift. intros sizes _. apply sim_lift_l. intros [b1 pieces] Epeel.
  destruct (peel_pieces_rel (denotes d1 g) ps chs' chs b sizes b1 pieces Hch Epeel) as (pieces' & Epeel' & Hpcs).
  eapply sim_lift_r; [exact Epeel'|]. apply sim_lift. intros size0 Hs0%expect_Ok. apply sim_lift. intros last0 _.
  apply sim_lift. intros fps _. apply sim_lift_l. intros fcs Efcs.
  destruct (vec_slice_rel (denotes d1 g) _ _ _ _ _ Hch Efcs) as (fcs' & Efcs' & Hfcs).
  eapply sim_lift_r; [exact Efcs'|].
  pose proof (peel_pieces_kids _ _ _ _ _ _ _ _ Epeel Hs0 Efcs) as Hpre.
  set (pk := concat (map (λ x : InternalPiece, x.1.2) (rev pieces))) in *.
  assert (NoDup (fcs ++ pk)) as Hnd1 by (destruct Hpre as [k ->]; by apply NoDup_app in Hnd as (? & _ & _)).
  assert (∀ c, c ∈ fcs ++ pk → c ∈ chs) as Hsub by (destruct Hpre as [k ->]; set_solver).
  apply NoDup_app in Hnd1 as (Hnd1 & Hdisj & Hnd2).
  eapply sim_hollow; [exact Hm1|exact Hn|done|exact Hs|done|by split_and!| |exact Hnd1|].
  { intros c Hc. destruct (Hkids c) as (? & _ & ?); [set_solver|]. by split; [|left]. }
  intros d2 Hm2 Hden2. set (s2 := set_nodes _ s1) in *. cbn [kids] in Hm2.
  set (ns := zip_with (λ x x' : InternalPiece, (Internal x.1.1.2 x.1.2 x.2, Internal x'.1.1.2 x'.1.2 x'.2))
    (rev pieces) (rev pieces')).
  assert (Forall2 (piece_rel (denotes d1 g)) (rev pieces') (rev pieces)) as Hpcs'.
  { by apply Forall2_reverse in Hpcs; rewrite !rev_alt in Hpcs |- *. }
  assert (piece_kids_of ns = pk) as Epk.
  { unfold ns, pk, piece_kids_of. clear -Hpcs'. induction Hpcs' as [|x' x l' l _ _ IH]; [done|]. simpl. by rewrite IH. }
  eapply sim_mono.
  - eapply (sim_pieces _ _ (rev pieces) (rev pieces') ns g _ s2 d2); [|exact Hm2| |by rewrite Epk|].
    + unfold ns. clear -Hpcs'. induction Hpcs' as [|x' x l' l Hx _ IH]; simpl; constructor; [|done].
      destruct x as [[[q1 ps1] cs1] b1], x' as [[[q2 ps2] cs2] b2]. destruct Hx as (Hq & _). simpl in Hq. subst q2.
      intros s3 d3 Φ Hall. apply Hall.
    + unfold ns. clear -Hpcs' Hden2. induction Hpcs' as [|x' x l' l Hx _ IH]; simpl; constructor; [|done].
      destruct Hx as (_ & Hps & Hb & Hcs). simpl. rewrite Hps Hb. split_and!; [done..|].
      eapply Forall2_impl; [exact Hcs|]. intros. by apply Hden2.
    + rewrite Epk. intros c Hc. destruct (Hkids c) as (Hcl & _ & _); [set_solver|].
      split; [simpl; rewrite length_insert; exact Hcl|]. unfold reparent.
      rewrite decide_False; [intros ?; by apply (Hdisj c)|]. rewrite decide_True; [set_solver|done].
  - intros l s3 l' d3 (g' & u' & Hm3 & Hex & Hfr). exists (Internal ps chs b), g', u'.
    split; [done|]. split; [done|]. split.
    + eapply mirror_extends_trans; [eapply extends_weaken; [|by apply mark_extends]; set_solver|].
      eapply mirror_extends_trans;
        [by apply (put_extends g u s1 d1 d2 a (Internal ps chs b) (Internal fps fcs b1)); [|simpl; set_solver]|].
      eapply extends_weaken; [|exact Hex]. rewrite Epk. simpl. set_solver.
    + eapply fresh_pieces_from; [|exact Hfr]. simpl. by rewrite length_insert.
Qed.
End ops.
