(* ===== verification/MirrorFlush.v ===== *)
(** * Settling, integration and delivery, in lockstep

    The remaining steps of the flush cascade: settling a node, linking
    promoted pieces, reclaiming an empty child, choosing and extracting a
    batch, and delivering it. *)

From S2P Require Export MirrorOps.
From stdpp Require Import options.
From Stdlib Require Import ZArith.

(** A vector without its [n]-th element. *)
Lemma vec_remove_kids n (chs k : list NodeId) c :
  chs !! n = Some c → NoDup chs → vec_remove n chs = Ok k →
  NoDup k ∧ ∀ x, x ∈ k ↔ x ∈ chs ∧ x ≠ c.
Proof.
  unfold vec_remove. intros Hc Hnd E. destruct (n <? length chs); [|done]. injection E as <-.
  pose proof (delete_Permutation _ _ _ Hc) as Hperm. set (k := base.delete n chs) in *. clearbody k. rewrite Hperm in Hnd.
  apply NoDup_cons in Hnd as [Hnin Hnd]. split; [done|]. intros x. rewrite Hperm elem_of_cons.
  split; [|naive_solver]. intros Hx. split; [by right|]. by intros ->.
Qed.

Section flush.
Context {V P : Type} `{DeviceLaws V} `{CodecLaws} `{BlindPolicy P} (v0 : V).
Notation E := (DiskEngine V P).
Notation mirrors := (mirrors v0).
Notation held := (held).
Notation split_done := (split_done v0).
Implicit Types (d : E) (s : BeTree P) (g : NodeId → Place) (u : NodeId → option NodeId).

Lemma mirror_extends_refl K g u s d : extends K g u s d g u s d.
Proof. by split. Qed.

Lemma held_denotes g u s d a id : held g u s a id → denotes d g id a.
Proof using All. intros (_ & Hg & _). by rewrite /denotes Hg. Qed.

Lemma held_in_memory g u s d a id : mirrors g u s d → held g u s a id → in_memory d id.
Proof using All. intros Hm (Ha & Hg & _). by eapply at_in_memory. Qed.

Lemma no_split g u s d a n : mirrors g u s d → nodes s !! a = Some n → split_done g u s d a [] s [] d.
Proof using All.
  intros Hm Hn. exists n, g, u. split_and!; [done..|apply mirror_extends_refl|]. repeat split; constructor.
Qed.

Lemma sim_split_if_needed g u s d a id :
  mirrors g u s d → held g u s a id →
  sim (BeTree.split_if_needed a) (Disk.split_if_needed id) (split_done g u s d a) s d.
Proof using All.
  intros Hm Hh. unfold BeTree.split_if_needed, Disk.split_if_needed.
  eapply sim_node; [exact Hm|apply Hh|by eapply held_denotes|by eapply held_in_memory|].
  intros n n' Hn Htw. apply sim_get_l, sim_get_r. rewrite (mr_params _ _ _ _ _ Hm).
  destruct n as [ps chs b|e], n' as [ps' chs' b'|e']; try done; simpl in Htw.
  - destruct Htw as (-> & -> & Hch%Forall2_length). rewrite Hch.
    case_match; [by apply sim_split_internal|]. apply sim_ret. by eapply no_split.
  - subst e'. case_match; [by apply sim_split_leaf|]. apply sim_ret. by eapply no_split.
Qed.

(** The outcome of settling the node [a]. *)
Definition empty_node s (a : NodeId) : Prop :=
  ∃ n, nodes s !! a = Some n ∧ kids n = [] ∧ node_cost n ≤ 2.

Definition settled_as g u s d a (o : Outcome) s' (o' : Outcome) d' : Prop :=
  match o, o' with
  | Splits l, Splits l' => split_done g u s d a l s' l' d'
  | Removed, Removed => s' = s ∧ mirrors g u s d' ∧ empty_node s a ∧ ∀ i x, denotes d g i x → denotes d' g i x
  | _, _ => False
  end.

Lemma sim_settle g u s d a id :
  mirrors g u s d → held g u s a id →
  sim (BeTree.settle a) (Disk.settle id) (settled_as g u s d a) s d.
Proof using All.
  intros Hm Hh. unfold BeTree.settle, Disk.settle.
  eapply sim_node; [exact Hm|apply Hh|by eapply held_denotes|by eapply held_in_memory|].
  intros n n' Hn Htw.
  assert (sim (promoted ← BeTree.split_if_needed a; mret (Splits promoted))
    (promoted ← Disk.split_if_needed id; mret (Splits promoted)) (settled_as g u s d a) s d) as Hsplits.
  { apply sim_bind. eapply sim_mono; [by apply sim_split_if_needed|]. intros l s' l' d' Hd. by apply sim_ret. }
  destruct n as [ps chs b|e], n' as [ps' chs' b'|e']; try done; simpl in Htw.
  destruct Htw as (-> & -> & Hch). destruct Hch as [|c' c chs' chs _ _]; [|done].
  apply sim_lift. intros [] Hb. destruct (bt_is_empty b) eqn:Eb; [clear Hb|done].
  apply bt_is_empty_true in Eb as ->. apply sim_ret. split_and!; [done..| |by auto].
  eexists. split; [exact Hn|]. split; [done|]. simpl. rewrite map_size_empty. lia.
Qed.

(** ** Linking promoted pieces *)
Definition linked g u s d (l : list NodeId) s' d' : Prop := ∃ u', mirrors g u' s' d' ∧
  length (nodes s') = length (nodes s) ∧ extends l g u s d g u' s' d'.

Lemma sim_integrate g u s d a id l l' :
  mirrors g u s d → held g u s a id → promoted_rel (λ i x, g x = At i) l' l → NoDup l.*2 →
  Forall (λ x, x < length (nodes s) ∧ u x = None) l.*2 →
  sim (BeTree.integrate_splits a l) (Disk.integrate_splits id l') (λ _ s' _ d', linked g u s d l.*2 s' d') s d.
Proof using All.
  intros Hm Hh Hl Hnd Hfr. unfold BeTree.integrate_splits, Disk.integrate_splits.
  destruct Hl as [|y' y l1' l1 Hy Hl1].
  { apply sim_ret. exists u. split_and!; [done..|apply mirror_extends_refl]. }
  assert (promoted_rel (λ i x, g x = At i) (y' :: l1') (y :: l1)) as Hl by by constructor.
  set (l := y :: l1) in *. set (l' := y' :: l1') in *. clearbody l l'. clear y y' l1 l1' Hy Hl1.
  pose proof Hh as (Ha & Hg & Hpar). assert (moved g a id g) as Hmv by done.
  eapply sim_dirty; [exact Hmv|exact Hm|exact Ha|by eapply held_denotes|by eapply held_in_memory|exact Hpar|].
  intros n n' d1 Hn Hm1 Htw Hden _. set (s1 := set_dirty _ s) in *.
  destruct n as [ps chs b|e], n' as [ps' chs' b'|e']; try done.
  destruct Htw as (-> & -> & Hch). assert (live g a) as Hlive by by rewrite /live Hg.
  pose proof (λ c, mr_kids _ _ _ _ _ Hm1 a _ c Hn Hlive) as Hkids.
  pose proof (mr_NoDup _ _ _ _ _ Hm1 a _ Hn Hlive) as Hndc. cbn [kids] in Hkids, Hndc.
  apply sim_lift_l. intros [ps1 chs1] Eins.
  assert (promoted_rel (denotes d1 g) l' l) as Hl2.
  { eapply Forall2_impl; [exact Hl|]. intros [k' i] [k x] [? Hx]. split; [done|]. by rewrite /denotes Hx. }
  destruct (insert_promoted_rel (denotes d1 g) _ _ _ _ _ _ _ Hl2 Hch Eins) as (chs1' & Eins' & Hch1).
  eapply sim_lift_r; [exact Eins'|]. pose proof (insert_promoted_perm _ _ _ _ _ Eins) as Hperm.
  rewrite Forall_forall in Hfr.
  eapply sim_put; [exact Hm1|exact Hn|exact Hg|exact Hpar|by split_and!| | |].
  - cbn [kids]. intros c Hc. rewrite Hperm in Hc. apply elem_of_app in Hc as [Hc%Hfr|Hc%Hkids]; [naive_solver|].
    destruct Hc as (? & _ & ?). by split; [|left].
  - cbn [kids]. rewrite Hperm. apply NoDup_app. split_and!; [done| |done].
    intros c Hc%Hfr Hc'%Hkids. destruct Hc as [_ ?], Hc' as (_ & _ & ?). congruence.
  - intros d2 Hm2 Hden2. eexists. split; [exact Hm2|]. cbn [kids] in *. split; [simpl; by rewrite length_insert|].
    split; simpl; rewrite ?length_insert; auto. intros x _ Hx. unfold reparent.
    assert (x ∈ chs1 ↔ x ∈ chs) as Hiff by (rewrite Hperm elem_of_app; naive_solver).
    destruct (decide (x ∈ chs1)) as [Hin|Hnin].
    + apply Hiff, Hkids in Hin. naive_solver.
    + rewrite decide_False; [by rewrite -Hiff|done].
Qed.

(** ** Reclaiming an empty child *)
Definition reclaimed g u s d (c : NodeId) (cid : NodeId) s' d' : Prop := ∃ u',
  mirrors (<[c:=Gone cid]> g) u' s' d' ∧ length (nodes s') = length (nodes s) ∧ root s' = root s ∧
  (∀ x, x ≠ c → u' x = u x) ∧
  ∀ i x, x < length (nodes s) → x ≠ c → denotes d g i x → denotes d' (<[c:=Gone cid]> g) i x.

Lemma sim_remove g u s d a id c cid :
  mirrors g u s d → held g u s a id → c < length (nodes s) → denotes d g cid c → c ≠ root s → empty_node s c →
  a ≠ c →
  sim (BeTree.remove_child a c) (Disk.remove_child id cid) (λ _ s' _ d', reclaimed g u s d c cid s' d') s d.
Proof using All.
  intros Hm Hh Hc Hcd Hcr (nc & Hnc & Hkc & Hcost) Hac. unfold BeTree.remove_child, Disk.remove_child.
  pose proof Hh as (Ha & Hg & Hpar). assert (moved g a id g) as Hmv by done.
  eapply sim_dirty; [exact Hmv|exact Hm|exact Ha|by eapply held_denotes|by eapply held_in_memory|exact Hpar|].
  intros n n' d1 Hn Hm1 Htw Hden _. set (s1 := set_dirty _ s) in *.
  destruct n as [ps chs b|e], n' as [ps' chs' b'|e']; try done.
  destruct Htw as (-> & -> & Hch). assert (live g a) as Hlive by by rewrite /live Hg.
  pose proof (λ x, mr_kids _ _ _ _ _ Hm1 a _ x Hn Hlive) as Hkids.
  pose proof (mr_NoDup _ _ _ _ _ Hm1 a _ Hn Hlive) as Hndc. cbn [kids] in Hkids, Hndc.
  rewrite (position_rel (denotes d1 g) chs' chs cid c Hch).
  { intros x' x [Hx _]%Hkids Hx'. specialize (Hden _ _ Hcd). split.
    - intros ->. by eapply denotes_inj.
    - intros ->. by eapply denotes_fun. }
  apply sim_lift. intros n0 Hpos%expect_Ok. apply position_Some in Hpos.
  apply sim_lift_l. intros k Ek. destruct (vec_remove_rel (denotes d1 g) _ _ _ _ Hch Ek) as (k' & Ek' & Hk).
  eapply sim_lift_r; [exact Ek'|]. apply sim_lift. intros ps1 _.
  destruct (vec_remove_kids _ _ _ _ Hpos Hndc Ek) as [Hndk Hkin].
  assert (u c = Some a) as Huc by (apply Hkids; by eapply list_elem_of_lookup_2).
  intros [] s2 [= <-].
  apply wpo_bind. eapply wpo_mono; [apply wp_wpo; eapply (put_loaded_mirror v0 g u s1 d1 id a _ (Internal ps1 k b) (Internal ps1 k' b));
    [exact Hm1|exact Hn|exact Hg|exact Hpar|by split_and!| |done]|].
  { intros x [Hx _]%Hkin. destruct (Hkids _ Hx) as (? & _ & ?). by split; [|left]. }
  cbn [kids]. intros [] d2 [Hm2 Hden2]. set (s2 := set_nodes _ s1) in *.
  assert (reparent a chs k u c = None) as Huc2.
  { unfold reparent. rewrite decide_False; [by intros []%Hkin|]. rewrite decide_True; [|done].
    by eapply list_elem_of_lookup_2. }
  assert (nodes s2 !! c = Some nc) as Hnc2 by (simpl; by rewrite list_lookup_insert_ne).
  eapply wpo_mono; [apply wp_wpo; eapply (release_mirror v0 g _ s2 d2 cid c nc Hm2 Hnc2); [by auto|done..]|].
  intros [] d3 [Hm3 Hden3]. eexists. split; [exact Hm3|]. simpl. split; [by rewrite length_insert|]. split; [done|].
  split.
  - intros x Hx. unfold orphaned. rewrite Hkc. destruct (decide (x ∈ [])) as [Hx0|_]; [by apply not_elem_of_nil in Hx0|].
    unfold reparent.
    destruct (decide (x ∈ k)) as [Hin|Hnin]; [apply Hkin in Hin as [Hin%Hkids _]; naive_solver|].
    rewrite decide_False; [|done]. intros Hin. apply Hnin, Hkin. done.
  - intros i x Hxl Hx Hd. apply Hden3; [simpl; by rewrite length_insert|done|]. by auto.
Qed.

(** ** Choosing and extracting a batch *)
Lemma child_flags g u s d chs' chs flags :
  mirrors g u s d → Forall2 (denotes d g) chs' chs → (∀ c, c ∈ chs → c < length (nodes s)) →
  mapM (λ c, expect (dirty s !! c)) chs = Ok flags → mapM is_dirty chs' d = Ok (flags, d).
Proof using All.
  intros Hm Hch. revert flags. induction Hch as [|c' c chs' chs Hc Hch IH]; intros flags Hlt; cbn [mapM].
  { by intros [= <-]. }
  intros (b & Hb%expect_Ok & E)%obind_Ok_inv. apply obind_Ok_inv in E as (bs & E & [= <-]).
  destruct (lookup_lt_is_Some_2 (nodes s) c) as [n Hn]; [apply Hlt; by left|].
  pose proof (mr_place _ _ _ _ _ Hm _ _ Hn) as Hp.
  assert (is_dirty c' d = Ok (b, d)) as Ed.
  { unfold is_dirty, slot, get_, lift, mbind, M_bind. unfold denotes, placed in *. destruct (g c) as [i|o|i]; [| |done].
    - subst c'. destruct Hp as (Hdt & n' & off & bb & t & Hs & _). rewrite Hs. simpl.
      assert (b = true) as -> by congruence. done.
    - destruct Hp as (Hdt & Hcl & _). destruct (di_offsets _ (mr_inv _ _ _ _ _ Hm) _ _ Hc) as (sl & Hs & Hne).
      rewrite Hs. simpl. destruct (Hcl _ _ Hc Hs) as [?|Hc1]; [done|].
      assert (b = false) as -> by congruence. by destruct sl as [n1 [] off bb t|o'|]. }
  unfold mbind, M_bind. rewrite Ed. rewrite (IH bs); [|done|done]. intros x Hx. apply Hlt. by right.
Qed.

(** A choice of both engines. *)
Lemma sim_choose {A B} g u s d id a chs' chs depth occ pb total (k1 : nat → M (BeTree P) A) (k2 : nat → M E B) mode Φ :
  mirrors g u s d → Forall2 (denotes d g) chs' chs → (∀ c, c ∈ chs → c < length (nodes s)) →
  (∀ c p, mirrors g u (set_policy p s) (set_d_policy p d) →
    sim (k1 c) (k2 c) Φ (set_policy p s) (set_d_policy p d)) →
  sim (chosen ← if (mode : bool) then
      child_dirty ← lift (mapM (λ c, expect (dirty s !! c)) chs);
      let ctx := {| ctx_node := a; ctx_depth := depth; child_pending := occ; child_pending_bytes := pb;
        child_dirty := child_dirty; buffer_total := total; ctx_ops_since_commit := ops_since_commit s |} in
      '(chosen, policy) ← lift (Policy.choose (policy s) ctx);
      _ ← modify (set_policy policy);
      mret chosen
    else lift (pick occ); k1 chosen)
    (chosen ← if mode then
      child_dirty ← mapM is_dirty chs';
      let ctx := {| ctx_node := id; ctx_depth := depth; child_pending := occ; child_pending_bytes := pb;
        child_dirty := child_dirty; buffer_total := total; ctx_ops_since_commit := d_ops_since_commit d |} in
      '(chosen, policy) ← lift (Policy.choose (d_policy d) ctx);
      _ ← modify (set_d_policy policy);
      mret chosen
    else lift (pick occ); k2 chosen) Φ s d.
Proof using All.
  intros Hm Hch Hlt Hk. assert (∀ p, mirrors g u (set_policy p s) (set_d_policy p d)) as Hmp.
  { intros p. eapply mirrors_fields; [exact Hm|done|done|done|..]; try apply Hm. done. }
  destruct mode.
  - apply sim_bind_l, sim_lift_l. intros flags Ef. apply sim_bind_r, sim_r. unfold wpo.
    rewrite (child_flags _ _ _ _ _ _ _ Hm Hch Hlt Ef). cbv zeta.
    apply sim_bind_l, sim_bind_r, sim_lift_l. intros [c p] Ec.
    apply (sim_lift_r _ (c, p)); [|cbv beta iota; apply sim_bind_l, sim_bind_r, sim_modify_l, sim_modify_r; by apply Hk].
    rewrite (mr_policy _ _ _ _ _ Hm) (mr_ops _ _ _ _ _ Hm) -Ec.
    exact (choose_blind (policy s) (mkFlushCtx a _ _ _ _ _ _) id).
  - apply sim_lift. intros c _. specialize (Hk c (policy s)).
    replace (set_d_policy (policy s) d) with d in Hk; [destruct s; by apply Hk|].
    destruct d. rewrite /set_d_policy /=. by rewrite -(mr_policy _ _ _ _ _ Hm).
Qed.

(** What choosing a batch leaves: the chosen child of the node [a]. *)
Definition picked g u s d (a : NodeId) (r : nat * NodeId * list nat * BTreeMap Message) s'
    (r' : nat * NodeId * list nat * BTreeMap Message) d' : Prop :=
  let '(chosen, c, occ, batch) := r in
  let '(chosen', cid, occ', batch') := r' in
  chosen' = chosen ∧ occ' = occ ∧ batch' = batch ∧ mirrors g u s' d' ∧
  length (nodes s') = length (nodes s) ∧ extends [] g u s d g u s' d' ∧
  c < length (nodes s) ∧ u c = Some a ∧ denotes d' g cid c.

Lemma sim_pick g u s d a id depth mode :
  mirrors g u s d → held g u s a id →
  sim (BeTree.pick_and_extract a depth mode) (Disk.pick_and_extract id depth mode) (picked g u s d a) s d.
Proof using All.
  intros Hm Hh. unfold BeTree.pick_and_extract, Disk.pick_and_extract.
  pose proof Hh as (Ha & Hg & Hpar). assert (moved g a id g) as Hmv by done.
  eapply sim_node; [exact Hm|apply Hh|by eapply held_denotes|by eapply held_in_memory|].
  intros n n' Hn Htw. destruct n as [ps chs b|e], n' as [ps' chs' b'|e']; try done; simpl in Htw.
  destruct Htw as (-> & -> & Hch). assert (live g a) as Hlive by by rewrite /live Hg.
  pose proof (λ x, mr_kids _ _ _ _ _ Hm a _ x Hn Hlive) as Hkids. cbn [kids] in Hkids.
  apply sim_get_l, sim_get_r. rewrite /occupancies_of (Forall2_length _ _ _ Hch).
  apply sim_lift. intros [occ pb] _.
  eapply (sim_choose g u s d id a chs' chs); [exact Hm|exact Hch|intros c Hc; by apply Hkids|].
  intros chosen p Hm1. apply sim_lift. intros [] _. set (s1 := set_policy p s) in *. set (d1 := set_d_policy p d) in *.
  assert (∀ i x, denotes d g i x → denotes d1 g i x) as Hden1 by done.
  eapply sim_mark; [exact Hmv|exact Hm1|exact Ha|by apply Hden1; eapply held_denotes|eapply held_in_memory; by [exact Hm1|]|exact Hpar|].
  intros n n' d2 Hn2 Hm2 Htw2 Hden2 _. set (s2 := set_dirty _ s1) in *.
  assert (n = Internal ps chs b) as -> by (simpl in Hn2; congruence).
  destruct n' as [ps2 chs2 b2|]; [|done]. destruct Htw2 as (-> & -> & Hch2).
  apply sim_lift. intros [b1 batch] _. cbv beta iota. apply sim_bind.
  assert (Forall2 (denotes d2 g) chs' chs) as Hch3 by (eapply Forall2_impl; [exact Hch|]; intros; by apply Hden2, Hden1).
  apply (sim_put v0 g u s2 d2 id a (Internal ps chs b) (Internal ps chs b1) (Internal ps chs' b1));
    [exact Hm2|exact Hn2|exact Hg|exact Hpar|by split_and!| | |].
  - cbn [kids]. intros c Hc%Hkids. split; [apply Hc|left; apply Hc].
  - exact (mr_NoDup _ _ _ _ _ Hm _ _ Hn Hlive).
  - intros d3 Hm3 Hden3. cbn [kids] in Hm3. apply sim_lift_l. intros c Hc%expect_Ok.
    destruct (Forall2_lookup_r _ _ _ _ _ Hch3 Hc) as (c' & Hc' & Hcc).
    eapply sim_lift_r; [by rewrite Hc'|]. apply sim_ret. pose proof (list_elem_of_lookup_2 _ _ _ Hc) as Hin.
    split_and!; [done..| |simpl; by rewrite length_insert| |by apply Hkids|by apply Hkids|by apply Hden3].
    + eapply mirrors_ext; [|exact Hm3]. intros x. symmetry. apply reparent_same. intros y Hy. by apply Hkids.
    + split; simpl; rewrite ?length_insert; auto.
Qed.

(** ** Delivering a batch *)
Definition handed g u s d (c cid : NodeId) (r : Delivery) s' (r' : Result Delivery DiskError) d' : Prop :=
  match r' with
  | RErr e => storage_failed v0 e
  | ROk r1 => r1 = r ∧ mirrors (<[c:=At cid]> g) u s' d' ∧
      length (nodes s') = length (nodes s) ∧ root s' = root s ∧
      (∀ i x, denotes d g i x → denotes d' (<[c:=At cid]> g) i x) ∧ (r = DLeaf true → empty_node s' c)
  end.

Lemma sim_apply_batch g u s d c cid batch pins threshold :
  mirrors g u s d → c < length (nodes s) → denotes d g cid c → (∀ p o, u c = Some p → g p ≠ Rec o) →
  (∀ p, u c = Some p → p ≠ c) →
  sim (BeTree.apply_batch c batch threshold) (Disk.apply_batch cid batch pins threshold) (handed g u s d c cid) s d.
Proof using All.
  intros Hm Hc Hd Hpar Hpc. unfold BeTree.apply_batch, Disk.apply_batch. apply sim_try_r.
  eapply wpo_mono; [by apply (ensure_mirrored v0 g u s d cid c pins Hm Hc Hd)|].
  intros [_|e] d1 (Hm1 & Hden1 & _ & Hres); [|by intros ? ?].
  pose proof (moved_insert g c cid) as Hmv. pose proof Hmv as [Hgc Hgx]. set (g' := <[c:=At cid]> g) in *.
  eapply sim_dirty; [exact Hmv|exact Hm1|exact Hc|by apply Hden1|exact Hres|exact Hpar|].
  intros n n' d2 Hn Hm2 Htw Hden2 _. set (s2 := set_dirty _ s) in *.
  assert (∀ p o, u c = Some p → g' p ≠ Rec o) as Hpar'.
  { intros p o Hu. rewrite Hgx; [by apply Hpc|by apply Hpar]. }
  assert (live g' c) as Hlive by by rewrite /live Hgc.
  pose proof (λ x, mr_kids _ _ _ _ _ Hm2 c _ x Hn Hlive) as Hkids.
  assert (∀ n1 n1' (k1 k1' : Delivery), twins (denotes d2 g') n1 n1' → kids n1 = kids n → k1' = k1 →
    (k1 = DLeaf true → node_cost n1 ≤ 2 ∧ kids n1 = []) →
    sim (_ ← put_node c n1; mret k1) (_ ← put_loaded cid n1'; mret (ROk k1')) (handed g u s d c cid) s2 d2) as Hput.
  { intros n1 n1' k1 k1' Htw1 Hk1 -> Hem. apply sim_bind.
    eapply (sim_put v0 g' u s2 d2 cid c n n1 n1'); [exact Hm2|exact Hn|exact Hgc|exact Hpar'|done| | |]; rewrite ?Hk1.
    - intros x Hx%Hkids. split; [apply Hx|left; apply Hx].
    - exact (mr_NoDup _ _ _ _ _ Hm2 _ _ Hn Hlive).
    - intros d3 Hm3 Hden3. apply sim_ret. split; [done|]. split.
      + eapply mirrors_ext; [|exact Hm3]. intros x. symmetry. apply reparent_same. intros y Hy. by apply Hkids.
      + split; [simpl; by rewrite length_insert|]. split; [done|]. split.
        * intros i x Hx. apply Hden3, Hden2. by apply Hden1.
        * intros [? ?]%Hem. exists n1. split; [|done]. simpl. by apply list_lookup_insert_eq. }
  destruct n as [ps chs b|e], n' as [ps' chs' b'|e']; try done; simpl in Htw.
  - destruct Htw as (-> & -> & Hch). apply sim_lift. intros b1 _.
    apply (Hput (Internal ps chs b1) (Internal ps chs' b1)); by [split_and!|].
  - subst e'. apply sim_lift. intros e1 _. apply (Hput (Leaf e1) (Leaf e1)); [done..|].
    intros [= ->%bt_is_empty_true]. split; [simpl; rewrite map_size_empty; lia|done].
Qed.
End flush.
