(* ===== verification/MirrorTree.v ===== *)
(** * The flush cascade, in lockstep

    The flush of a subtree of dirty nodes: the stacks of both engines name
    the same path to the root, and every step of one is a step of the
    other. *)

From S2P Require Export MirrorFlush.
From stdpp Require Import options.
From Stdlib Require Import ZArith.

(** ** Paths to the root *)
Section paths.
Context (u : NodeId → option NodeId).

(** Each node is a child of the next; the last one has no parent. *)
Fixpoint upath (l : list NodeId) : Prop :=
  match l with [] => True | x :: l => u x = head l ∧ upath l end.

Lemma upath_fun x l l' : upath (x :: l) → upath (x :: l') → l = l'.
Proof.
  revert x l'. induction l as [|y l IH]; intros x l' [Hx Hl] [Hx' Hl']; rewrite Hx in Hx'.
  - by destruct l'.
  - destruct l' as [|y' l']; [done|]. injection Hx' as <-. f_equal. by apply (IH y).
Qed.

Lemma upath_app l1 l2 : upath (l1 ++ l2) → upath l2.
Proof. induction l1 as [|x l1 IH]; [done|]. intros [_ Hl]. by apply IH. Qed.

Lemma upath_NoDup l : upath l → NoDup l.
Proof.
  induction l as [|x l IH]; intros Hl; constructor; [|by apply IH, Hl].
  intros (l1 & l2 & ->)%list_elem_of_split. pose proof Hl as [_ Hl2%upath_app].
  apply (upath_fun x (l1 ++ x :: l2)) in Hl2; [|done].
  apply (f_equal length) in Hl2. rewrite length_app /= in Hl2. lia.
Qed.
End paths.

Lemma upath_ext u u' l : (∀ x, x ∈ l → u' x = u x) → upath u l → upath u' l.
Proof.
  induction l as [|x l IH]; [done|]. intros Hu [Hx Hl]. split.
  - rewrite Hu; [by left|done].
  - apply IH; [|done]. intros y Hy. apply Hu. by right.
Qed.

Section cascade.
Context {V P : Type} `{DeviceLaws V} `{CodecLaws} `{BlindPolicy P} (v0 : V).
Notation E := (DiskEngine V P).
Notation mirrors := (mirrors v0).
Implicit Types (d : E) (s : BeTree P) (g : NodeId → Place) (u : NodeId → option NodeId).

Lemma sim_try_step {A A' B B' L} (m1 : M (BeTree P) A) (m2 : M E (Result B DiskError)) (k1 : A → M (BeTree P) A')
    (k2 : B → M E (ctl L (Result B' DiskError))) Φ s d :
  sim m1 m2 (λ a s' r d', match r with
    | ROk b => sim (k1 a) (k2 b) Φ s' d'
    | RErr e => ∀ c s'', Φ c s'' (Break (RErr e)) d'
    end) s d →
  sim (m1 ≫= k1) (Disk.try_step m2 k2) Φ s d.
Proof using.
  intros Hm. apply sim_bind. eapply sim_mono; [exact Hm|]. intros a s' [b|e] d' Hb; [done|].
  intros a' s'' _. apply Hb.
Qed.

(** The stacks of a flush. *)
Record flushing g u s (st' st : list NodeId) : Prop := mkFlushing {
  fl_at : Forall2 (λ id a, g a = At id) st' st;
  fl_lt a : a ∈ st → a < length (nodes s);
  fl_path : upath u st;
  fl_last : last st = Some (root s);
}.

Lemma flushing_held g u s id st' a st : flushing g u s (id :: st') (a :: st) → held g u s a id.
Proof using.
  intros [Hat Hlt [Hu _] _]. apply Forall2_cons in Hat as [Hg Hat]. split; [apply Hlt; by left|]. split; [done|].
  intros p o. rewrite Hu. inversion Hat as [|i p' ? ? Hp]; [done|]. simpl. congruence.
Qed.

Lemma flushing_tail g u s id st' a b st : flushing g u s (id :: st') (a :: b :: st) → flushing g u s st' (b :: st).
Proof using.
  intros [Hat Hlt [_ Hp] Hl]. apply Forall2_cons in Hat as [_ Hat]. split; [done| |done|done].
  intros x Hx. apply Hlt. by right.
Qed.

Lemma flushing_extends K g u s d g' u' s' d' st' st :
  flushing g u s st' st → extends K g u s d g' u' s' d' → (∀ x, x ∈ st → x ∉ K) → flushing g' u' s' st' st.
Proof using.
  intros [Hat Hlt Hp Hl] Hex HK. split.
  - apply Forall2_same_length_lookup. apply Forall2_same_length_lookup in Hat as [Hlen Hat]. split; [done|].
    intros i x y Hx Hy. rewrite (ex_g _ _ _ _ _ _ _ _ _ Hex); [apply Hlt; by eapply list_elem_of_lookup_2|by eapply Hat].
  - intros a Ha%Hlt. pose proof (ex_len _ _ _ _ _ _ _ _ _ Hex). lia.
  - eapply upath_ext; [|exact Hp]. intros x Hx. apply (ex_u _ _ _ _ _ _ _ _ _ Hex); [by apply Hlt|by apply HK].
  - by rewrite (ex_root _ _ _ _ _ _ _ _ _ Hex).
Qed.

(** A child of the top is not on the stack. *)
Lemma flushing_child g u s st' a st c : flushing g u s st' (a :: st) → u c = Some a → c ∉ a :: st.
Proof using.
  intros Hf Hu. assert (upath u (c :: a :: st)) as Hp by (split; [done|apply Hf]).
  apply upath_NoDup in Hp. by apply NoDup_cons in Hp as [? _].
Qed.

Lemma flushing_kids g u s d st' a st n x :
  mirrors g u s d → flushing g u s st' (a :: st) → nodes s !! a = Some n → x ∈ a :: st → x ∉ kids n.
Proof using.
  intros Hm Hf Hn Hx Hk. apply (flushing_child _ _ _ _ _ _ x Hf); [|done].
  eapply mr_kids; [exact Hm|exact Hn| |done]. destruct st' as [|id st']; [by destruct Hf as [Hat%Forall2_length]|].
  pose proof (flushing_held _ _ _ _ _ _ _ Hf) as (_ & Hg & _). by rewrite /live Hg.
Qed.

(** A child whose place changes leaves the stack alone. *)
Lemma flushing_place g u s s' st' st c p u' :
  flushing g u s st' st → c ∉ st → (∀ x, x ≠ c → u' x = u x) → length (nodes s') = length (nodes s) →
  root s' = root s → flushing (<[c:=p]> g) u' s' st' st.
Proof using.
  intros [Hat Hlt Hp Hl] Hc Hu Hlen Hr.
  assert (∀ x, x ∈ st → x ≠ c) as Hne by (intros x Hx ->; done). split.
  - apply Forall2_same_length_lookup. apply Forall2_same_length_lookup in Hat as [Hl' Hat]. split; [done|].
    intros i x y Hx Hy. rewrite fn_lookup_insert_ne; [|by eapply Hat]. intros ->. eapply (Hne y); [|done].
    by eapply list_elem_of_lookup_2.
  - intros a Ha. rewrite Hlen. by apply Hlt.
  - eapply upath_ext; [|exact Hp]. intros x Hx. by apply Hu, Hne.
  - by rewrite Hr.
Qed.

(** The end of a flush. *)
Definition flushed s' (o : Outcome) d' (o' : Outcome) : Prop := ∃ g u id, mirrors g u s' d' ∧
  g (root s') = At id ∧ u (root s') = None ∧
  match o, o' with
  | Splits l, Splits l' => promoted_rel (λ i a, g a = At i) l' l ∧ NoDup l.*2 ∧
      Forall (λ a, a < length (nodes s') ∧ u a = None ∧ a ≠ root s') l.*2
  | Removed, Removed => empty_node s' (root s')
  | _, _ => False
  end.

Definition flush_post (o : Outcome) s' (r : Result Outcome DiskError) d' : Prop :=
  match r with ROk o' => flushed s' o d' o' | RErr e => storage_failed v0 e end.

Definition flush_inv (st : list NodeId) s (st' : list NodeId) d : Prop :=
  ∃ g u, mirrors g u s d ∧ flushing g u s st' st.

(** A step of two loops. *)
Definition step_post {L1 L2 A B} (I : L1 → BeTree P → L2 → E → Prop) (Φ : A → BeTree P → B → E → Prop)
    (c1 : ctl L1 A) s' (c2 : ctl L2 B) d' : Prop :=
  match c2 with
  | Continue l2' => ∃ l1', c1 = Continue l1' ∧ I l1' s' l2' d'
  | Break b => (∃ a, c1 = Break a ∧ Φ a s' b d') ∨ ∀ a s', Φ a s' b d'
  end.

(** Pieces of a node of the stack, linked to another one. *)
Lemma sim_link {A B} g u s d st' st a id s0 l l' (k1 : M (BeTree P) A) (k2 : M E B) Φ :
  mirrors g u s d → flushing g u s (id :: st') (a :: st) →
  fresh_pieces g u s0 s l' l → (∀ x, x ∈ a :: st → x < length (nodes s0)) →
  (∀ s' d', flush_inv (a :: st) s' (id :: st') d' → sim k1 k2 Φ s' d') →
  sim (_ ← BeTree.integrate_splits a l; k1) (_ ← Disk.integrate_splits id l'; k2) Φ s d.
Proof using All.
  intros Hm Hf (Hl & Hnd & Hfr) Hold Hk. apply sim_bind. rewrite Forall_forall in Hfr.
  eapply sim_mono; [eapply (sim_integrate v0 g u s d a id l l' Hm); [by eapply flushing_held|done|done|]|].
  { apply Forall_forall. intros x Hx%Hfr. destruct Hx. split; [lia|done]. }
  intros _ s' _ d' (u' & Hm' & Hlen & Hex). apply Hk. exists g, u'. split; [done|].
  eapply flushing_extends; [exact Hf|exact Hex|]. intros x Hx%Hold Hx'%Hfr. lia.
Qed.

Lemma sim_flush_settled (st st' : list NodeId) top id s d :
  flush_inv (top :: st) s (id :: st') d →
  sim (outcome ← BeTree.settle top;
       match st with
       | parent :: _ =>
           _ ← match outcome with
               | Splits promoted => BeTree.integrate_splits parent promoted
               | Removed => BeTree.remove_child parent top
               end;
           mret (Continue st)
       | [] => mret (Break outcome)
       end)
      (outcome ← Disk.settle id;
       match st' with
       | parent :: _ =>
           _ ← match outcome with
               | Splits promoted => Disk.integrate_splits parent promoted
               | Removed => Disk.remove_child parent id
               end;
           mret (Continue st')
       | [] => mret (Break (ROk outcome))
       end) (step_post flush_inv flush_post) s d.
Proof using All.
  intros (g & u & Hm & Hf). apply sim_bind. pose proof (flushing_held _ _ _ _ _ _ _ Hf) as Hh.
  eapply sim_mono; [by apply (sim_settle v0 g u s d top id Hm)|].
  intros o s1 o' d1 Hset. pose proof (fl_at _ _ _ _ _ Hf) as Hat. apply Forall2_cons in Hat as [Hg Hat].
  inversion Hat as [|pid p st2' st2 Hgp Hat2]; subst.
  - (* the root *)
    apply sim_ret. left. eexists. split; [done|]. simpl. pose proof (fl_last _ _ _ _ _ Hf) as Hl. injection Hl as Hl.
    pose proof (fl_path _ _ _ _ _ Hf) as [Hu _]. simpl in Hu. destruct o as [l|], o' as [l'|]; try done; simpl in Hset.
    + destruct Hset as (n0 & g1 & u1 & Hn0 & Hm1 & Hex & Hpr & Hnd & Hfr). exists g1, u1, id. split; [done|].
      rewrite (ex_root _ _ _ _ _ _ _ _ _ Hex) -Hl. pose proof (proj1 Hh) as Hlt.
      split; [by rewrite (ex_g _ _ _ _ _ _ _ _ _ Hex)|]. split.
      { rewrite (ex_u _ _ _ _ _ _ _ _ _ Hex); [done| |done]. eapply flushing_kids; [exact Hm|exact Hf|done|by left]. }
      split_and!; [done..|]. eapply Forall_impl; [exact Hfr|]. intros x [? ?]. split_and!; [lia|done|lia].
    + destruct Hset as (-> & Hm1 & Hem & _). exists g, u, id. rewrite -Hl. done.
  - pose proof (flushing_tail _ _ _ _ _ _ _ _ Hf) as Hf2. destruct o as [l|], o' as [l'|]; try done; simpl in Hset.
    + destruct Hset as (n0 & g1 & u1 & Hn0 & Hm1 & Hex & Hfresh).
      eapply (sim_link g1 u1 s1 d1 st2' st2 p pid s); [exact Hm1| |exact Hfresh| |].
      * eapply flushing_extends; [exact Hf2|exact Hex|]. intros x Hx. eapply flushing_kids; [exact Hm|exact Hf|done|by right].
      * apply Hf2.
      * intros s2 d2 Hinv. apply sim_ret. by eexists.
    + destruct Hset as (-> & Hm1 & Hem & Hden). apply sim_bind.
      pose proof (fl_path _ _ _ _ _ Hf) as [Hu Hp2]. simpl in Hu.
      pose proof (upath_NoDup _ _ (fl_path _ _ _ _ _ Hf)) as [Hnin _]%NoDup_cons.
      assert (top ≠ root s) as Hroot.
      { intros ->. apply Hnin. eapply last_Some_elem_of. apply Hf2. }
      eapply sim_mono; [eapply (sim_remove v0 g u s d1 p pid top id Hm1); [by eapply flushing_held|apply Hh| |done..|]|].
      * by eapply held_denotes.
      * intros ->. apply Hnin. by left.
      * intros _ s2 _ d2 (u' & Hm2 & Hlen & Hr & Hux & _). apply sim_ret. eexists. split; [done|].
        exists (<[top:=Gone id]> g), u'. split; [done|]. by eapply flushing_place.
Qed.

(** The child [c] of the top, dirty after its delivery. *)
Lemma flushing_push g u s s' st' a st c cid :
  flushing g u s st' (a :: st) → u c = Some a → c < length (nodes s) → length (nodes s') = length (nodes s) →
  root s' = root s → flushing (<[c:=At cid]> g) u s' (cid :: st') (c :: a :: st).
Proof using.
  intros Hf Hu Hc Hlen Hr. pose proof (flushing_child _ _ _ _ _ _ _ Hf Hu) as Hnin.
  destruct (flushing_place g u s s' st' (a :: st) c (At cid) u Hf Hnin) as [Hat Hlt Hp Hl]; [done..|]. split.
  - constructor; [apply fn_lookup_insert|done].
  - intros x [->|Hx]%elem_of_cons; [lia|by apply Hlt].
  - by split.
  - by rewrite -Hl.
Qed.

Lemma sim_delivered g u s d st' st a id c cid (dl : Delivery) :
  mirrors g u s d → flushing g u s (cid :: id :: st') (c :: a :: st) → (dl = DLeaf true → empty_node s c) →
  sim (match dl with
       | DInternal true => mret (Continue (c :: a :: st))
       | DInternal false | DLeaf false =>
           promoted ← BeTree.split_if_needed c;
           _ ← BeTree.integrate_splits a promoted;
           mret (Continue (a :: st))
       | DLeaf true =>
           _ ← BeTree.remove_child a c;
           mret (Continue (a :: st))
       end)
      (match dl with
       | DInternal true => mret (Continue (cid :: id :: st'))
       | DInternal false | DLeaf false =>
           promoted ← Disk.split_if_needed cid;
           _ ← Disk.integrate_splits id promoted;
           mret (Continue (id :: st'))
       | DLeaf true =>
           _ ← Disk.remove_child id cid;
           mret (Continue (id :: st'))
       end) (step_post flush_inv flush_post) s d.
Proof using All.
  intros Hm Hf Hem. pose proof (flushing_tail _ _ _ _ _ _ _ _ Hf) as Hf2.
  pose proof (flushing_held _ _ _ _ _ _ _ Hf) as Hh.
  assert (sim (promoted ← BeTree.split_if_needed c; _ ← BeTree.integrate_splits a promoted; mret (Continue (a :: st)))
    (promoted ← Disk.split_if_needed cid; _ ← Disk.integrate_splits id promoted; mret (Continue (id :: st')))
    (step_post flush_inv flush_post) s d) as Hsplit.
  { apply sim_bind. eapply sim_mono; [by apply (sim_split_if_needed v0 g u s d c cid Hm)|].
    intros l s1 l' d1 (n0 & g1 & u1 & Hn0 & Hm1 & Hex & Hfresh).
    eapply (sim_link g1 u1 s1 d1 st' st a id s); [exact Hm1| |exact Hfresh|apply Hf2|].
    - eapply flushing_extends; [exact Hf2|exact Hex|]. intros x Hx. eapply flushing_kids; [exact Hm|exact Hf|done|by right].
    - intros s2 d2 Hinv. apply sim_ret. by eexists. }
  destruct dl as [[]|[]]; try done.
  - apply sim_bind. specialize (Hem eq_refl).
    pose proof (upath_NoDup _ _ (fl_path _ _ _ _ _ Hf)) as [Hnin _]%NoDup_cons.
    assert (c ≠ root s) as Hroot.
    { intros ->. apply Hnin. apply last_Some_elem_of. apply Hf2. }
    eapply sim_mono; [eapply (sim_remove v0 g u s d a id c cid Hm); [by eapply flushing_held|apply Hh| |done..|]|].
    + by eapply held_denotes.
    + intros ->. apply Hnin. by left.
    + intros _ s2 _ d2 (u' & Hm2 & Hlen & Hr & Hux & _). apply sim_ret. eexists. split; [done|].
      exists (<[c:=Gone cid]> g), u'. split; [done|]. by eapply flushing_place.
  - apply sim_ret. eexists. split; [done|]. by exists g, u.
Qed.

(** The trace of a flush decision. *)
Lemma mirrors_flush_decision g u s d a id occ chosen :
  mirrors g u s d →
  mirrors g u (set_trace (Recorder_flush_decision (trace s) a occ chosen) s)
    (set_d_trace (Recorder_flush_decision (d_trace d) id occ chosen) d).
Proof using All.
  intros Hm. eapply mirrors_fields; [exact Hm|done|done|done|..]; try apply Hm. simpl.
  rewrite !ops_of_Recorder_flush_decision. apply Hm.
Qed.

Lemma sim_flush_step threshold trace_flushes st s st' d :
  threshold ≠ 0 → flush_inv st s st' d →
  sim (BeTree.flush_step threshold trace_flushes st) (Disk.flush_step threshold trace_flushes st')
    (step_post flush_inv flush_post) s d.
Proof using All.
  intros Hth (g & u & Hm & Hf). pose proof (Forall2_length _ _ _ (fl_at _ _ _ _ _ Hf)) as Hlen.
  destruct st as [|a st], st' as [|id st']; try done.
  pose proof (flushing_held _ _ _ _ _ _ _ Hf) as Hh. unfold BeTree.flush_step, Disk.flush_step.
  apply Nat.eqb_neq in Hth. rewrite Hth. apply sim_bind.
  assert (sim (BeTree.buffer_len a) (Disk.buffer_len id) (λ len s' len' d', len' = len ∧ s' = s ∧ d' = d) s d) as Hlen'.
  { eapply sim_node; [exact Hm|apply Hh|by eapply held_denotes|by eapply held_in_memory|].
    intros n n' Hn Htw. destruct n as [ps chs b|e], n' as [ps' chs' b'|e']; try done; simpl in Htw.
    destruct Htw as (-> & -> & _). by apply sim_ret. }
  eapply sim_mono; [exact Hlen'|]. clear Hlen'. intros len s0 len' d0 (-> & -> & ->). destruct (len <=? threshold).
  - apply sim_l. intros ? ? [= <- <-]. unfold Disk.try_step. apply sim_r, wpo_ret.
    eapply sim_flush_settled. by exists g, u.
  - rewrite (Forall2_length _ _ _ (fl_at _ _ _ _ _ Hf)). apply sim_bind.
    eapply sim_mono; [by apply (sim_pick v0 g u s d a id _ trace_flushes Hm)|].
    intros [[[chosen c] occ] batch] s1 [[[chosen' cid] occ'] batch'] d1.
    intros (-> & -> & -> & Hm1 & Hlen1 & Hex1 & Hc & Hu & Hden).
    assert (flushing g u s1 (id :: st') (a :: st)) as Hf1
      by (eapply flushing_extends; [exact Hf|exact Hex1|]; intros ? _; apply not_elem_of_nil).
    rewrite -Hlen1 in Hc. clear s d Hm Hf Hh Hlen1 Hex1. rename s1 into s, d1 into d, Hm1 into Hm, Hf1 into Hf.
    assert (∀ s1 d1, mirrors g u s1 d1 → flushing g u s1 (id :: st') (a :: st) → c < length (nodes s1) → denotes d1 g cid c →
      sim (delivery ← BeTree.apply_batch c batch threshold;
        match delivery with
        | DInternal true => mret (Continue (c :: a :: st))
        | DInternal false | DLeaf false =>
            promoted ← BeTree.split_if_needed c;
            _ ← BeTree.integrate_splits a promoted;
            mret (Continue (a :: st))
        | DLeaf true => _ ← BeTree.remove_child a c; mret (Continue (a :: st))
        end)
        (Disk.try_step (Disk.apply_batch cid batch (id :: st') threshold) (λ delivery,
        match delivery with
        | DInternal true => mret (Continue (cid :: id :: st'))
        | DInternal false | DLeaf false =>
            promoted ← Disk.split_if_needed cid;
            _ ← Disk.integrate_splits id promoted;
            mret (Continue (id :: st'))
        | DLeaf true => _ ← Disk.remove_child id cid; mret (Continue (id :: st'))
        end)) (step_post flush_inv flush_post) s1 d1) as Hdeliver.
    { clear s d Hm Hf Hc Hden. intros s d Hm Hf Hc Hden. apply sim_try_step.
      pose proof (flushing_held _ _ _ _ _ _ _ Hf) as Hh.
      pose proof (flushing_child _ _ _ _ _ _ _ Hf Hu) as Hnin.
      eapply sim_mono; [apply (sim_apply_batch v0 g u s d c cid batch (id :: st') threshold Hm Hc Hden)|].
      - intros p o. rewrite Hu. intros [= <-]. destruct Hh as (_ & -> & _). done.
      - intros p. rewrite Hu. intros [= <-] ->. apply Hnin. by left.
      - intros dl s1 [dl'|e] d1; simpl; [|by auto]. intros (-> & Hm1 & Hlen1 & Hr & _ & Hem).
        eapply sim_delivered; [exact Hm1| |exact Hem]. by eapply flushing_push. }
    destruct trace_flushes.
    + apply sim_modify_l, sim_modify_r. apply Hdeliver; [by apply mirrors_flush_decision|by destruct Hf|done|done].
    + apply sim_l. intros ? ? [= <- <-]. apply sim_r, wpo_ret. by apply Hdeliver.
Qed.

Lemma sim_flush_with threshold trace_flushes s d id g u :
  threshold ≠ 0 → mirrors g u s d → g (root s) = At id → u (root s) = None →
  sim (BeTree.flush_with (root s) threshold trace_flushes) (Disk.flush_with id threshold trace_flushes) flush_post s d.
Proof using All.
  intros Hth Hm Hg Hu. unfold BeTree.flush_with, Disk.flush_with.
  eapply (sim_loopM _ _ _ _ flush_inv); [|exists g, u; split; [done|]|by eapply mirrors_fuel].
  - intros st s1 st' d1 Hinv. by apply sim_flush_step.
  - split; [by repeat constructor| |done|done]. intros a [->|Hn]%elem_of_cons; [by eapply mr_root_lt|].
    by apply not_elem_of_nil in Hn.
Qed.
End cascade.
