(* ===== verification/MirrorRoot.v ===== *)
(** * The operations of the two engines, in lockstep

    Restoring the root and the mutating operations: from mirroring states,
    whatever [BeTree] does, [DiskEngine] does, short of a failure of its
    storage or the overflow of a counter. *)

From S2P Require Export MirrorTree.
From stdpp Require Import options.
From Stdlib Require Import ZArith.

Section root.
Context {V P : Type} `{DeviceLaws V} `{CodecLaws} `{BlindPolicy P} (v0 : V).
Notation E := (DiskEngine V P).
Notation mirrors := (mirrors v0).
Implicit Types (d : E) (s : BeTree P) (g : NodeId → Place) (u : NodeId → option NodeId).

(** Between public calls. *)
Definition mirrored s d : Prop := ∃ g u, mirrors g u s d ∧ u (root s) = None.

(** While the root is being restored. *)
Definition root_dirty s d : Prop := ∃ g u id, mirrors g u s d ∧ g (root s) = At id ∧ u (root s) = None.
Definition root_loaded s d : Prop := mirrored s d ∧ in_memory d (d_root d).

Lemma root_dirty_loaded s d : root_dirty s d → root_loaded s d.
Proof using All.
  intros (g & u & id & Hm & Hg & Hu). split; [by exists g, u|]. pose proof (mr_root _ _ _ _ _ Hm) as Hr.
  unfold denotes in Hr. rewrite Hg in Hr. rewrite Hr. eapply at_in_memory; [exact Hm|by eapply mr_root_lt|done].
Qed.

Definition unless_failed {A B} (Φ : A → BeTree P → B → E → Prop) (a : A) s (r : Result B DiskError) d : Prop :=
  match r with ROk b => Φ a s b d | RErr e => storage_failed v0 e end.

(** A new root. *)
Lemma sim_new_root {A B} g u s d n n' (k1 : M (BeTree P) A) (k2 : M E B) Φ :
  mirrors g u s d → twins (denotes d g) n n' →
  (∀ c, c ∈ kids n → c < length (nodes s) ∧ u c = None) → NoDup (kids n) →
  (∀ id d', mirrors (<[length (nodes s):=At id]> g) (adopted (length (nodes s)) (kids n) u)
      (set_root (length (nodes s)) (alloc_node n s)) d' →
    (∀ i x, x < length (nodes s) → denotes d g i x → denotes d' (<[length (nodes s):=At id]> g) i x) →
    sim k1 k2 Φ (set_root (length (nodes s)) (alloc_node n s)) d') →
  sim (id ← alloc n; _ ← modify (set_root id); k1) (id ← alloc_dirty n'; _ ← modify (set_d_root id); k2) Φ s d.
Proof using All.
  intros Hm Htw Hk Hnd Hk2. apply sim_bind. eapply sim_alloc; [exact Hm|exact Htw|exact Hk|exact Hnd|].
  intros id d1 Hm1 Hden. apply sim_modify_l, sim_modify_r. apply (Hk2 id); [|done].
  eapply mirrors_fields; [exact Hm1|done|done|done|..]; try apply Hm1.
  - simpl. by rewrite /denotes fn_lookup_insert.
  - simpl. rewrite length_app /=. lia.
Qed.

Lemma sim_restore_step threshold trace_flushes s d :
  threshold ≠ 0 → root_dirty s d →
  sim (BeTree.restore_step threshold trace_flushes tt) (Disk.restore_step threshold trace_flushes tt)
    (step_post (λ _ s _ d, root_dirty s d) (unless_failed (λ _ s _ d, root_dirty s d))) s d.
Proof using All.
  intros Hth (g & u & id & Hm & Hg & Hu). unfold BeTree.restore_step, Disk.restore_step.
  pose proof (mr_root _ _ _ _ _ Hm) as Hr. unfold denotes in Hr. rewrite Hg in Hr.
  pose proof (mr_root_lt _ _ _ _ _ Hm) as Hlt.
  apply sim_get_l, sim_get_r. rewrite Hr.
  eapply sim_node; [exact Hm|exact Hlt|by rewrite /denotes Hg|by eapply at_in_memory|]. intros n n' Hn Htw.
  apply sim_try_step. eapply (sim_mono _ _ (flush_post v0)).
  - destruct n as [ps chs b|e], n' as [ps' chs' b'|e']; try done; [by eapply sim_flush_with|].
    apply sim_bind. eapply sim_mono; [apply (sim_split_if_needed v0 g u s d (root s) id Hm)|].
    { split_and!; [done..|]. by rewrite Hu. }
    intros l s1 l' d1 (n0 & g1 & u1 & Hn0 & Hm1 & Hex & Hpr & Hnd & Hfr). apply sim_ret. exists g1, u1, id.
    assert (n0 = Leaf e) as -> by congruence.
    rewrite (ex_root _ _ _ _ _ _ _ _ _ Hex) (ex_g _ _ _ _ _ _ _ _ _ Hex) //.
    rewrite (ex_u _ _ _ _ _ _ _ _ _ Hex) //; [apply not_elem_of_nil|]. split_and!; [done..|].
    eapply Forall_impl; [exact Hfr|]. intros x [? ?]. split_and!; [lia|done|lia].
  - clear g u id Hm Hg Hu Hr Hlt n n' Hn Htw. intros o s1 [o'|e] d1; simpl; [|by auto].
    intros (g & u & id & Hm & Hg & Hu & Ho). clear s d. rename s1 into s, d1 into d.
    pose proof (mr_root _ _ _ _ _ Hm) as Hr. unfold denotes in Hr. rewrite Hg in Hr.
    pose proof (mr_root_lt _ _ _ _ _ Hm) as Hlt.
    destruct o as [[|x l]|], o' as [[|x' l']|]; try done; try (by destruct Ho as [?%Forall2_length _]).
    + apply sim_ret. left. eexists. split; [done|]. by exists g, u, id.
    + destruct Ho as (Hl & Hnd & Hfr). apply sim_get_l, sim_get_r. cbv zeta. rewrite Hr.
      rewrite (promoted_rel_keys _ _ _ Hl). pose proof (promoted_rel_ids _ _ _ Hl) as Hids.
      set (ids := (x :: l).*2) in *. set (ids' := (x' :: l').*2) in *. rewrite Forall_forall in Hfr.
      eapply (sim_new_root g u s d (Internal (x :: l).*1 (root s :: ids) ∅) (Internal (x :: l).*1 (id :: ids') ∅)); [exact Hm|..].
      * split_and!; [done..|]. constructor; [by rewrite /denotes Hg|]. eapply Forall2_impl; [exact Hids|].
        intros i y Hy. cbv beta in Hy. by rewrite /denotes Hy.
      * intros c [->|Hc]%elem_of_cons; [done|]. apply Hfr in Hc. naive_solver.
      * constructor; [|done]. intros Hc%Hfr. naive_solver.
      * intros id1 d1 Hm1 Hden. apply sim_ret. exists tt. split; [done|]. eexists _, _, id1. split; [exact Hm1|].
        simpl. split; [apply fn_lookup_insert|]. unfold adopted. cbn [kids].
        rewrite decide_False; [|by rewrite decide_True]. intros [?|Hc%Hfr]%elem_of_cons; [lia|]. destruct Hc. lia.
    + destruct Ho as (n0 & Hn0 & Hk0 & Hc0). apply sim_get_r. cbv zeta. rewrite Hr.
      apply (sim_new_root g u s d (Leaf ∅) (Leaf ∅)); [done|done|by intros ? ?%not_elem_of_nil|constructor|].
      intros id1 d1 Hm1 Hden. set (a := length (nodes s)) in *. apply sim_r.
      assert (nodes (set_root a (alloc_node (Leaf ∅) s)) !! root s = Some n0) as Hn1 by by apply lookup_app_l_Some.
      eapply wpo_mono; [apply wp_wpo; eapply (release_mirror v0 _ _ _ d1 id (root s) n0 Hm1 Hn1)|].
      * apply Hden; [done|by rewrite /denotes Hg].
      * unfold adopted. cbn [kids]. destruct (decide (root s ∈ [])) as [Hx|_]; [by apply not_elem_of_nil in Hx|].
        rewrite decide_False; [lia|done].
      * simpl. lia.
      * done.
      * intros [] d2 [Hm2 _]. apply sim_ret. left. eexists. split; [done|]. eexists _, _, id1. split; [exact Hm2|].
        simpl. rewrite fn_lookup_insert_ne; [lia|]. split; [apply fn_lookup_insert|]. rewrite /orphaned Hk0.
        destruct (decide (a ∈ [])) as [Hx|_]; [by apply not_elem_of_nil in Hx|]. unfold adopted. cbn [kids].
        destruct (decide (a ∈ [])) as [Hx|_]; [by apply not_elem_of_nil in Hx|]. by rewrite decide_True.
Qed.

Lemma sim_collapse_step s d :
  root_loaded s d →
  sim (BeTree.collapse_step tt) (Disk.collapse_step tt)
    (step_post (λ _ s _ d, root_loaded s d) (unless_failed (λ _ s _ d, root_loaded s d))) s d.
Proof using All.
  intros [(g & u & Hm & Hu) Hmem]. unfold BeTree.collapse_step, Disk.collapse_step.
  pose proof (mr_root _ _ _ _ _ Hm) as Hr. pose proof (mr_root_lt _ _ _ _ _ Hm) as Hlt.
  apply sim_get_l, sim_get_r. eapply sim_node; [exact Hm|exact Hlt|exact Hr|exact Hmem|]. intros n n' Hn Htw.
  assert (sim (mret (Break tt)) (mret (Break (ROk tt)))
    (step_post (λ (_ : unit) s (_ : unit) d, root_loaded s d) (unless_failed (λ (_ : unit) s (_ : unit) d, root_loaded s d))) s d) as Hstop.
  { apply sim_ret. left. eexists. split; [done|]. split; [by exists g, u|done]. }
  destruct n as [ps chs b|e], n' as [ps' chs' b'|e']; try done; simpl in Htw.
  destruct Htw as (-> & -> & Hch). destruct Hch as [|c' c chs' chs Hc Hch]; [done|].
  destruct Hch as [|c1' c1 chs' chs _ _]; [|done].
  destruct (bt_is_empty b) eqn:Eb; [|done]. apply bt_is_empty_true in Eb as ->. cbv zeta. apply sim_modify_l, sim_modify_r.
  pose proof (denotes_live _ _ _ _ Hr) as Hlive.
  destruct (mr_kids _ _ _ _ _ Hm _ _ c Hn Hlive) as (Hcl & Hclive & Huc); [by left|].
  assert (mirrors g u (set_root c s) (set_d_root c' d)) as Hm1.
  { eapply mirrors_fields; [exact Hm|done|done|done|..]; try apply Hm; done. }
  apply sim_r. eapply wpo_mono; [apply wp_wpo; eapply (release_mirror v0 g u (set_root c s) (set_d_root c' d)
    (d_root d) (root s) (Internal ps [c] ∅) Hm1 Hn)|]; [exact Hr|exact Hu| | |].
  { simpl. congruence. }
  { simpl. rewrite map_size_empty. lia. }
  intros [] d2 [Hm2 Hden]. unfold Disk.try_step.
  assert (c ≠ root s) as Hcr by congruence.
  apply sim_r. eapply wpo_mono; [eapply (ensure_mirrored v0 _ _ _ d2 c' c [] Hm2); [done|by apply Hden]|].
  intros [_|e] d3 (Hm3 & Hden3 & _ & Hres); [|apply sim_ret; by right]. apply sim_ret. exists tt. split; [done|].
  split.
  - eexists _, _. split; [exact Hm3|]. simpl. rewrite /orphaned decide_True; [cbn [kids]; by left|done].
  - assert (d_root d3 = c') as ->; [|done]. pose proof (mr_root _ _ _ _ _ Hm3) as Hr3. simpl in Hr3.
    eapply denotes_fun; [exact Hr3|]. apply Hden3. by apply Hden.
Qed.

Lemma sim_restore_root_with threshold trace_flushes s d :
  threshold ≠ 0 → root_dirty s d →
  sim (BeTree.restore_root_with threshold trace_flushes) (Disk.restore_root_with threshold trace_flushes)
    (unless_failed (λ _ s _ d, mirrored s d)) s d.
Proof using All.
  intros Hth Hrd. unfold BeTree.restore_root_with, Disk.restore_root_with. apply sim_try.
  assert (∀ s d, mirrored s d → fuel s ≤ d_fuel d) as Hfuel.
  { intros s1 d1 (g & u & Hm & _). by eapply mirrors_fuel. }
  eapply sim_mono.
  - eapply (sim_loopM _ _ _ _ (λ _ s _ d, root_dirty s d)
      (unless_failed (λ _ s _ d, root_dirty s d)) tt _ tt); [|exact Hrd|apply Hfuel; by apply root_dirty_loaded].
    intros [] s1 [] d1 Hinv. by apply sim_restore_step.
  - intros [] s1 [[]|e] d1; simpl; [|by intros ? ?]. intros Hrd1%root_dirty_loaded.
    eapply sim_mono.
    + eapply (sim_loopM _ _ _ _ (λ _ s _ d, root_loaded s d)
        (unless_failed (λ _ s _ d, root_loaded s d)) tt _ tt); [|exact Hrd1|apply Hfuel; by apply Hrd1].
      intros [] s2 [] d2 Hinv. by apply sim_collapse_step.
    + intros [] s2 [[]|e] d2; [|done]. by intros [? ?].
Qed.
End root.
