(* ===== verification/MirrorEngine.v ===== *)
(** * The public operations, in lockstep

    Mutations and reads of the two engines; with the theorems of the
    in-memory engine, the disk engine implements the finite map. *)

From S2P Require Export MirrorRoot.
From stdpp Require Import options.
From Stdlib Require Import ZArith.

Section ops.
Context {V P : Type} `{DeviceLaws V} `{CodecLaws} `{BlindPolicy P} (v0 : V).
Notation E := (DiskEngine V P).
Notation mirrors := (mirrors v0).
Notation mirrored := (mirrored v0).
Implicit Types (d : E) (s : BeTree P) (g : NodeId → Place) (u : NodeId → option NodeId).

Lemma sim_poisoning {A B} (m1 : M (BeTree P) A) (m2 : M E (Result B DiskError)) Φ s d :
  sim m1 m2 (unless_failed v0 Φ) s d → sim m1 (poisoning m2) (unless_failed v0 Φ) s d.
Proof using All.
  intros Hm a s' E. unfold poisoning. apply wpo_bind. eapply wpo_mono; [by apply Hm|].
  intros [b|e] d' HΦ; [by apply wpo_bind, wpo_ret, wpo_ret|]. by apply wpo_bind, wpo_modify, wpo_ret.
Qed.

Lemma sim_apply_root key message s d :
  legal_params (params s) = true → root_loaded v0 s d →
  sim (BeTree.apply_root key message) (Disk.apply_root key message) (unless_failed v0 (λ _ s _ d, mirrored s d)) s d.
Proof using All.
  intros Hlegal [(g & u & Hm & Hu) Hmem]. unfold BeTree.apply_root, Disk.apply_root.
  pose proof (mr_root _ _ _ _ _ Hm) as Hr. pose proof (mr_root_lt _ _ _ _ _ Hm) as Hlt.
  apply sim_get_l, sim_get_r. pose proof (moved_insert g (root s) (d_root d)) as Hmv. pose proof Hmv as [Hg _].
  eapply sim_dirty; [exact Hmv|exact Hm|exact Hlt|exact Hr|exact Hmem|by rewrite Hu|].
  intros n n' d1 Hn Hm1 Htw _ _. set (g' := <[root s:=At (d_root d)]> g) in *. set (s1 := set_dirty _ s) in *.
  assert (live g' (root s)) as Hlive by by rewrite /live Hg.
  pose proof (λ x, mr_kids _ _ _ _ _ Hm1 _ _ x Hn Hlive) as Hkids.
  assert (∀ n1 n1', twins (denotes d1 g') n1 n1' → kids n1 = kids n →
    sim (_ ← put_node (root s) n1; BeTree.restore_root) (_ ← put_loaded (d_root d) n1'; poisoning Disk.restore_root)
      (unless_failed v0 (λ _ s _ d, mirrored s d)) s1 d1) as Hput.
  { intros n1 n1' Htw1 Hk1. apply sim_bind.
    apply (sim_put v0 g' u s1 d1 (d_root d) (root s) n n1 n1'); [exact Hm1|exact Hn|exact Hg|by rewrite Hu|done|..]; rewrite ?Hk1.
    - intros x Hx%Hkids. split; [apply Hx|left; apply Hx].
    - exact (mr_NoDup _ _ _ _ _ Hm1 _ _ Hn Hlive).
    - intros d2 Hm2 Hden2. apply sim_poisoning. unfold BeTree.restore_root, Disk.restore_root.
      apply sim_get_l, sim_get_r. rewrite (mr_params _ _ _ _ _ Hm2). apply sim_restore_root_with.
      + unfold legal_params in Hlegal. apply andb_prop in Hlegal as [[_ Hb]%andb_prop _].
        apply Nat.leb_le in Hb. simpl. lia.
      + exists g', u, (d_root d). split; [|done]. eapply mirrors_ext; [|exact Hm2].
        intros x. symmetry. apply reparent_same. intros y Hy. by apply Hkids. }
  destruct n as [ps chs b|e], n' as [ps' chs' b'|e']; try done; simpl in Htw.
  - destruct Htw as (-> & -> & Hch). apply sim_bind_l, sim_bind_r, sim_lift. intros b1 _.
    by apply (Hput (Internal ps chs b1) (Internal ps chs' b1)).
  - subst e'. apply sim_bind_l, sim_bind_r, sim_lift. intros e1 _. by apply (Hput (Leaf e1) (Leaf e1)).
Qed.

(** The head of a mutation: the counters and the trace. *)
Lemma sim_next_op op s d :
  mirrored s d →
  sim (BeTree.next_op op) (Disk.next_op op) (unless_failed v0 (λ seq s' seq' d', seq' = seq ∧
    root_loaded v0 s' d' ∧ params s' = params s)) s d.
Proof using All.
  intros (g & u & Hm & Hu). unfold BeTree.next_op, Disk.next_op.
  pose proof (mr_root _ _ _ _ _ Hm) as Hr. pose proof (mr_root_lt _ _ _ _ _ Hm) as Hlt.
  apply sim_get_r, sim_try_r.
  eapply wpo_mono; [by apply (ensure_mirrored v0 g u s d (d_root d) (root s) [] Hm Hlt Hr)|].
  intros [_|e] d1 (Hm1 & Hden & _ & Hres); [|by intros ? ?].
  assert (d_root d1 = d_root d) as Hrt.
  { eapply denotes_fun; [exact (mr_root _ _ _ _ _ Hm1)|by apply Hden]. }
  apply sim_get_l, sim_get_r. rewrite (mr_seq _ _ _ _ _ Hm1). apply sim_lift. intros seq _.
  apply sim_modify_l, sim_modify_r. simpl. rewrite (mr_ops _ _ _ _ _ Hm1). apply sim_lift. intros ops _.
  apply sim_modify_l, sim_modify_r, sim_modify_l, sim_modify_r. apply sim_ret. split; [done|]. split; [|done].
  split; [|by rewrite /= Hrt]. exists g, u. split; [|done].
  eapply mirrors_fields; [exact Hm1|done|done|done|..]; try apply Hm1; try done.
  simpl. rewrite !ops_of_Recorder_op. f_equal. apply Hm1.
Qed.

(** [try_insert], [try_delete] and [try_upsert]. *)
Definition mutate (op : OpKind2) : M E (Result unit DiskError) :=
  match op with
  | Insert2 key value => Disk.try_insert key value
  | Delete2 key => Disk.try_delete key
  | Upsert2 key op => Disk.try_upsert key op
  end.

Lemma mutate_eq op : mutate op = (seq ←? Disk.next_op op; Disk.apply_root (op_key op) (op_message seq op)).
Proof using. by destruct op. Qed.

Lemma sim_mutate op s d :
  legal_params (params s) = true → mirrored s d →
  sim (seq ← BeTree.next_op op; BeTree.apply_root (op_key op) (op_message seq op)) (mutate op)
    (unless_failed v0 (λ _ s _ d, mirrored s d)) s d.
Proof using All.
  intros Hlegal Hm. rewrite mutate_eq. apply sim_try. eapply sim_mono; [by apply sim_next_op|].
  intros seq s1 [seq'|e] d1; [|by intros ? ?]. intros (-> & Hrl & Hp). apply sim_apply_root; [by rewrite Hp|done].
Qed.

(** ** Reads *)
Lemma mirrored_trace s d tr tr' :
  mirrored s d → ops_of (rec_v2 tr) = ops_of (rec_v2 (trace s)) → ops_of (rec_v2 tr') = ops_of (rec_v2 tr) →
  mirrored (set_trace tr s) (set_d_trace tr' d).
Proof using All.
  intros (g & u & Hm & Hu) Htr Htr'. exists g, u. split; [|done].
  eapply mirrors_fields; [exact Hm|done|done|done|..]; try apply Hm. done.
Qed.

(** The reply of a read. *)
Definition same_reply {A} (v : A) s (v' : A) d : Prop := v' = v ∧ mirrored s d.

Definition get_inv (l : option Z * NodeId) s (l' : option Z * NodeId) d : Prop :=
  l'.1 = l.1 ∧ ∃ g u, mirrors g u s d ∧ u (root s) = None ∧ l.2 < length (nodes s) ∧ denotes d g l'.2 l.2.

Lemma sim_get key s d :
  mirrored s d →
  sim (BeTree.get key) (Disk.try_get key) (unless_failed v0 same_reply) s d.
Proof using All.
  intros Hm0. unfold BeTree.get, Disk.try_get. apply sim_modify_l, sim_modify_r, sim_get_l, sim_get_r.
  assert (mirrored (set_trace (Recorder_get (trace s) key) s) (set_d_trace (Recorder_get (d_trace d) key) d)) as Hm1.
  { destruct Hm0 as (g & u & Hm & Hu). apply mirrored_trace; [by exists g, u|..]; simpl; rewrite !ops_of_app ?app_nil_r; [done|].
    apply Hm. }
  revert Hm1. generalize (set_trace (Recorder_get (trace s) key) s) (set_d_trace (Recorder_get (d_trace d) key) d).
  clear s d Hm0. intros s d (g & u & Hm & Hu).
  eapply (sim_loopM _ _ _ _ get_inv); [| |by eapply mirrors_fuel].
  - clear s d g u Hm Hu. intros [chain a] s [chain' id] d (Hc & g & u & Hm & Hu & Ha & Hd). simpl in Hc, Ha, Hd. subst chain'.
    unfold BeTree.get_step, Disk.get_step, Disk.try_step. apply sim_r.
    eapply wpo_mono; [by apply (ensure_mirrored v0 g u s d id a [] Hm Ha Hd)|].
    intros [_|e] d1 (Hm1 & Hden & _ & Hres); [|apply sim_stop; by right].
    eapply sim_node; [exact Hm1|exact Ha|by apply Hden|exact Hres|]. intros n n' Hn Htw.
    assert (∀ v : option Value, sim (mret (Break v)) (mret (Break (ROk v : Result _ DiskError)))
      (step_post get_inv (unless_failed v0 same_reply)) s d1) as Hbreak.
    { intros v. apply sim_ret. left. eexists. split; [done|]. split; [done|]. by exists g, u. }
    destruct n as [ps chs b|e], n' as [ps' chs' b'|e']; try done; simpl in Htw; [|by subst e'].
    destruct Htw as (-> & -> & Hch).
    assert (∀ chain : option Z, sim
      (id ← lift (expect (chs !! route ps key)); mret (Continue (chain, id) : ctl _ (option Value)))
      (id ← lift (expect (chs' !! route ps key)); mret (Continue (chain, id) : ctl _ (Result (option Value) DiskError)))
      (step_post get_inv (unless_failed v0 same_reply)) s d1) as Hdown.
    { intros ch. apply sim_lift_l. intros c Hc%expect_Ok.
      destruct (Forall2_lookup_r _ _ _ _ _ Hch Hc) as (c' & Hc' & Hcc). eapply sim_lift_r; [by rewrite Hc'|].
      apply sim_ret. eexists. split; [done|]. split; [done|]. exists g, u. split_and!; [done..| |done].
      eapply (mr_kids _ _ _ _ _ Hm1); [exact Hn|by eapply denotes_live|by eapply list_elem_of_lookup_2]. }
    cbv zeta. destruct (b !! key) as [[seq v|seq|seq [delta]]|]; auto.
  - split; [done|]. exists g, u. split_and!; [done..|by eapply mr_root_lt|by eapply mr_root].
Qed.

(** The frames of a scan; the slots of the frames are pinned. *)
Record frame_twin g d (f' f : BeTree.Frame) : Prop := mkFrameTwin {
  ft_id : denotes d g (fr_id f') (fr_id f);
  ft_lo : fr_lo f' = fr_lo f;
  ft_hi : fr_hi f' = fr_hi f;
  ft_next : fr_next_child f' = fr_next_child f;
  ft_acc : fr_acc f' = fr_acc f;
  ft_mem : in_memory d (fr_id f');
}.

Definition scan_inv (st : list BeTree.Frame) s (st' : list BeTree.Frame) d : Prop :=
  ∃ g u, mirrors g u s d ∧ u (root s) = None ∧ Forall2 (frame_twin g d) st' st ∧
    Forall (λ f, fr_id f < length (nodes s)) st.

Definition scan_post : ctl (list BeTree.Frame) (list (Key * Value)) → BeTree P →
    ctl (list BeTree.Frame) (Result (list (Key * Value)) DiskError) → E → Prop :=
  step_post scan_inv (unless_failed v0 same_reply).

Lemma scan_continue g u s d f' f st' st i lo hi acc :
  mirrors g u s d → u (root s) = None → Forall2 (frame_twin g d) st' st →
  Forall (λ f, fr_id f < length (nodes s)) (f :: st) → frame_twin g d f' f →
  sim (mret (Continue (mkFrame (fr_id f) lo hi i acc :: st)))
    (mret (Continue (mkFrame (fr_id f') lo hi i acc :: st'))) scan_post s d.
Proof using All.
  intros Hm Hu Hst Hlt [Hid _ _ _ _ Hmem]. apply sim_ret. eexists. split; [done|]. exists g, u.
  apply Forall_cons in Hlt as [? ?]. split_and!; [done..| |by constructor]. by constructor.
Qed.

Lemma sim_scan_step st s st' d : scan_inv st s st' d → sim (BeTree.scan_step st) (Disk.scan_step st') scan_post s d.
Proof using All.
  intros (g & u & Hm & Hu & Hst & Hlt). destruct Hst as [|f' f st' st Hf Hst]; [apply sim_panic|].
  unfold BeTree.scan_step, Disk.scan_step. cbv zeta. pose proof Hf as [Hid Hlo Hhi Hnx Hacc Hmem].
  pose proof Hlt as [Ha Hlt']%Forall_cons.
  eapply sim_node; [exact Hm|exact Ha|exact Hid|exact Hmem|]. intros n n' Hn Htw.
  destruct n as [ps chs b|e], n' as [ps' chs' b'|e']; try done.
  destruct Htw as (-> & -> & Hch). rewrite Hnx Hlo Hhi Hacc (Forall2_length _ _ _ Hch). destruct (_ <? _).
  - apply sim_lift. intros c_lo _. apply sim_lift. intros c_hi _. destruct (range_is_empty c_lo c_hi); [by eapply scan_continue|].
    apply sim_lift_l. intros c Hc%expect_Ok. destruct (Forall2_lookup_r _ _ _ _ _ Hch Hc) as (c' & Hc' & Hcc).
    eapply sim_lift_r; [by rewrite Hc'|].
    destruct (mr_kids _ _ _ _ _ Hm _ _ c Hn) as (Hcl & _ & _); [by eapply denotes_live|by eapply list_elem_of_lookup_2|].
    unfold Disk.try_step. apply sim_r. set (pins := map fr_id (f' :: st')).
    eapply wpo_mono; [by apply (ensure_mirrored v0 g u s d c' c pins Hm Hcl)|].
    intros [_|e] d1 (Hm1 & Hden & Hpins & Hres); [|apply sim_stop; by right].
    assert (∀ f1' f1, f1' ∈ f' :: st' → frame_twin g d f1' f1 → frame_twin g d1 f1' f1) as Hkeep.
    { intros f1' f1 Hin []. split; auto. apply Hpins; [|done]. by apply list_elem_of_fmap_2. }
    assert (Forall2 (frame_twin g d1) (f' :: st') (f :: st)) as Hst1.
    { assert (Forall2 (frame_twin g d) (f' :: st') (f :: st)) as H0' by by constructor.
      apply Forall2_same_length_lookup. apply Forall2_same_length_lookup in H0' as [? H0']. split; [done|].
      intros i x y Hx Hy. eapply Hkeep; [by eapply list_elem_of_lookup_2|by eapply H0']. }
    apply Forall2_cons in Hst1 as [Hf1 Hst1].
    eapply sim_node; [exact Hm1|exact Hcl|by apply Hden|exact Hres|]. intros nc nc' Hnc Htwc.
    destruct nc as [psc chsc bc|ec], nc' as [psc' chsc' bc'|ec']; try done; simpl in Htwc.
    + apply sim_ret. eexists. split; [done|]. exists g, u. split_and!; [done..| |].
      * constructor; [by constructor; [apply Hden|..]|]. by constructor; [destruct Hf1|].
      * by constructor; [|constructor].
    + subst ec'. apply sim_lift. intros l _. by eapply (scan_continue g u s d1 f' f).
  - apply sim_lift. intros l _. destruct Hst as [|p' p st' st Hp Hst].
    + apply sim_ret. left. eexists. split; [done|]. split; [done|]. by exists g, u.
    + pose proof Hp as [_ -> -> -> -> _]. by eapply scan_continue.
Qed.

Lemma sim_scan lo hi s d :
  mirrored s d →
  sim (BeTree.scan lo hi) (Disk.try_scan lo hi) (λ r s' r' d', unless_failed v0 (λ _ s l d, r = ROk l ∧ mirrored s d) tt s' r' d') s d.
Proof using All.
  intros Hm0. unfold BeTree.scan, Disk.try_scan. apply sim_modify_l, sim_modify_r.
  assert (mirrored (set_trace (Recorder_scan (trace s) lo hi) s) (set_d_trace (Recorder_scan (d_trace d) lo hi) d)) as Hm1.
  { destruct Hm0 as (g & u & Hm & Hu). apply mirrored_trace; [by exists g, u|..]; simpl; rewrite !ops_of_app ?app_nil_r; [done|].
    apply Hm. }
  revert Hm1. generalize (set_trace (Recorder_scan (trace s) lo hi) s) (set_d_trace (Recorder_scan (d_trace d) lo hi) d).
  clear s d Hm0. intros s d (g & u & Hm & Hu). destruct (range_is_empty lo hi).
  { apply sim_ret. split; [done|]. by exists g, u. }
  pose proof (mr_root _ _ _ _ _ Hm) as Hr. pose proof (mr_root_lt _ _ _ _ _ Hm) as Hlt.
  apply sim_get_l, sim_get_r, sim_try_r.
  eapply wpo_mono; [by apply (ensure_mirrored v0 g u s d (d_root d) (root s) [] Hm Hlt Hr)|].
  intros [_|e] d1 (Hm1 & Hden & _ & Hres); [|by intros ? ?].
  eapply sim_node; [exact Hm1|exact Hlt|by apply Hden|exact Hres|]. intros n n' Hn Htw.
  destruct n as [ps chs b|e], n' as [ps' chs' b'|e']; try done; simpl in Htw.
  - assert (sim (loopM fuel BeTree.scan_step [mkFrame (root s) lo hi 0 ∅]) (loopM d_fuel Disk.scan_step [mkFrame (d_root d) lo hi 0 ∅])
      (unless_failed v0 same_reply) s d1) as Hloop.
    { eapply (sim_loopM _ _ _ _ scan_inv); [apply sim_scan_step| |by eapply mirrors_fuel].
      exists g, u. split_and!; [done..| |by repeat constructor]. repeat constructor; simpl; [by apply Hden|done]. }
    intros r s' (l & s1 & El & [= <- <-])%bind_Ok. eapply wpo_mono; [by apply Hloop|].
    intros [l'|e] d2; [|done]. intros [-> Hmr]. by split.
  - subst e'. apply sim_lift. intros l _. apply sim_ret. split; [done|]. by exists g, u.
Qed.
End ops.
