(* ===== verification/MirrorCommit.v ===== *)
(** * Commits, in lockstep

    The mirror gives [commit] what it relies on: the slots represent the
    tree of the arena, its dirty nodes hang together, each is found once.
    After a commit that succeeds the disk engine mirrors the arena after
    [simulate_commit]. *)

From S2P Require Export MirrorEngine Sim Commit.
From stdpp Require Import options.
From Stdlib Require Import ZArith.

(** The dirty region of the arena and of the slots, under two names. *)
Definition same_region g (l : list NodeId) (region : list NodeId) : Prop :=
  (∀ x, x ∈ l ↔ ∃ a, a ∈ region ∧ g a = At x) ∧ ∀ a, a ∈ region → ∃ x, g a = At x.

Lemma same_region_nil g : same_region g [] [].
Proof. split; [|by intros a ?%not_elem_of_nil]. intros x. split; [by intros ?%not_elem_of_nil|]. by intros (a & ?%not_elem_of_nil & _). Qed.

Lemma same_region_app g l l' r r' : same_region g l r → same_region g l' r' → same_region g (l ++ l') (r' ++ r).
Proof.
  intros [H1 H2] [H1' H2']. split.
  - intros x. rewrite elem_of_app H1 H1'. split; [|intros (a & [?|?]%elem_of_app & ?); eauto].
    intros [(a & ? & ?)|(a & ? & ?)]; exists a; rewrite elem_of_app; auto.
  - intros a [?|?]%elem_of_app; auto.
Qed.

Lemma same_region_cons g l r a x : g a = At x → same_region g l r → same_region g (l ++ [x]) (a :: r).
Proof.
  intros Hg [H1 H2]. split.
  - intros y. rewrite elem_of_app list_elem_of_singleton H1. split.
    + intros [(c & ? & ?)| ->]; [exists c|exists a]; rewrite elem_of_cons; auto.
    + intros (c & [->|?]%elem_of_cons & ?); [right; congruence|eauto].
  - intros c [->|?]%elem_of_cons; eauto.
Qed.

Lemma concat_rev_fst {A B C} (f : A → list (B * C)) ks x :
  x ∈ (concat (rev (map f ks))).*1 → ∃ k, k ∈ ks ∧ x ∈ (f k).*1.
Proof.
  intros ([y z] & -> & Hy)%list_elem_of_fmap. apply list_elem_of_In, in_concat in Hy as (l & Hl & Hy).
  apply in_rev, in_map_iff in Hl as (k & <- & Hk). exists k. split; [by apply list_elem_of_In|].
  apply list_elem_of_fmap. exists (y, z). split; [done|by apply list_elem_of_In].
Qed.

Section commit.
Context {V P : Type} `{DeviceLaws V} `{CodecLaws} (v0 : V).
Notation E := (DiskEngine V P).
Notation mirrors := (mirrors v0).
Implicit Types (d : E) (s : BeTree P) (g : NodeId → Place) (u : NodeId → option NodeId) (t c : tree).

(** ** What the slots represent *)
Lemma mirror_settled g u s d c o :
  mirrors g u s d → repr (arena s) c → g (label c) = Rec o → settled d c o.
Proof using All.
  intros Hm. revert o. induction c as [i e|i ps ks b IH] using tree_nested_ind; intros o Hr Hg;
    pose proof (repr_label _ _ Hr) as Hn; pose proof (mr_place _ _ _ _ _ Hm _ _ Hn) as Hp; rewrite Hg in Hp;
    destruct Hp as (_ & Hc & rec & len & Hh & Hrec); cbn [node_of recorded] in Hrec.
  - destruct rec as [|e']; [done|]. subst e'. by econstructor.
  - destruct rec as [ps' offs b'|]; [|done]. destruct Hrec as (-> & -> & Hl & Hoffs & Hks).
    econstructor; [done|exact Hh|done|done|]. apply repr_TInt in Hr as [_ Hr].
    clear -IH Hr Hks. induction ks as [|k ks IHks] in offs, IH, Hr, Hks |- *; inversion Hks; subst; constructor.
    + apply Forall_cons in IH as [IH _]. apply forest_repr_cons in Hr as [Hr _]. by apply IH.
    + apply Forall_cons in IH as [_ IH]. apply forest_repr_cons in Hr as [_ Hr]. by apply IHks.
Qed.

Lemma mirror_cached g u s d c id :
  mirrors g u s d → repr (arena s) c → denotes d g id (label c) → cached d c id.
Proof using All.
  intros Hm. revert id. induction c as [i e|i ps ks b IH] using tree_nested_ind; intros id Hr Hd;
    pose proof (repr_label _ _ Hr) as Hn; pose proof (mr_place _ _ _ _ _ Hm _ _ Hn) as Hp;
    (destruct (denotes_slot _ _ _ _ _ _ _ Hm (lookup_lt_Some _ _ _ Hn) Hd) as (sl & Hs & Hsl));
    (destruct (g _) as [j|o|j] eqn:Eg in Hp, Hsl; [| |done];
      [|eapply cached_clean; [exact Hs|exact Hsl|by eapply mirror_settled]]);
    destruct Hp as (_ & n' & off & bb & tk & Hs' & Htw);
    (assert (j = id) as -> by (unfold denotes in Hd; rewrite Eg in Hd; done));
    destruct n' as [ps' chs' b'|e']; try done; cbn [node_of twins] in Htw.
  - subst e'. by eapply cached_leaf.
  - destruct Htw as (-> & -> & Hch). eapply cached_int; [exact Hs'|]. apply repr_TInt in Hr as [_ Hr].
    clear -IH Hr Hch. induction ks as [|k ks IHks] in chs', IH, Hr, Hch |- *; inversion Hch; subst; constructor.
    + apply Forall_cons in IH as [IH _]. apply forest_repr_cons in Hr as [Hr _]. by apply IH.
    + apply Forall_cons in IH as [_ IH]. apply forest_repr_cons in Hr as [_ Hr]. by apply IHks.
Qed.

Lemma mirror_connected g u s d : mirrors g u s d → connected d.
Proof using All.
  intros Hm id n off b t c Hs Hc. pose proof (mr_inv _ _ _ _ _ Hm) as Hi.
  destruct (di_clean _ Hi _ _ _ _ _ Hs) as (o & -> & (rec & len & Hh & Hmt) & Ho).
  destruct (mr_cover _ _ _ _ _ Hm _ _ _ Ho Hs) as (a & Ha & Hg); [done|].
  destruct (lookup_lt_is_Some_2 _ _ Ha) as [na Hna]. pose proof (mr_place _ _ _ _ _ Hm _ _ Hna) as Hp.
  rewrite Hg in Hp. destruct Hp as (_ & _ & rec' & len' & Hh' & Hrec).
  destruct (holds_record_fun _ _ _ _ _ _ _ _ Hh Hh') as [-> _].
  destruct n as [ps chs bf|e], rec as [ps1 offs bf1|e1]; try done; [|by apply not_elem_of_nil in Hc].
  destruct na as [ps2 chs2 bf2|]; [|done]. destruct Hmt as (_ & _ & _ & _ & Hch), Hrec as (_ & _ & _ & _ & Hch2).
  apply list_elem_of_lookup in Hc as [j Hj]. destruct (Forall2_lookup_l _ _ _ _ _ Hch Hj) as (o' & Ho' & Hco).
  destruct (Forall2_lookup_l _ _ _ _ _ Hch2 Ho') as (x & Hx & Hgx).
  destruct (mr_kids _ _ _ _ _ Hm a _ x Hna) as (Hxl & _ & _); [by rewrite /live Hg|by eapply list_elem_of_lookup_2|].
  destruct (denotes_slot _ _ _ _ _ c x Hm Hxl) as (sl & Hsl & Hcl); [by rewrite /denotes Hgx|].
  rewrite Hgx in Hcl. unfold CommitWalk.dirtyb. rewrite Hsl. by destruct sl as [? [] ? ? ?| |].
Qed.

(** ** The dirty nodes *)

(** What is known of a subtree. *)
Definition region_ok g s d c id : Prop :=
  NoDup (dirty_post (d_slots d) c id) ∧ same_region g (dirty_post (d_slots d) c id) (dirty_region (dirty s) c).*1.

Lemma region_kids g u s d ks chs :
  mirrors g u s d → forest_repr (arena s) ks → NoDup (forest_ids ks) →
  Forall2 (λ k id, region_ok g s d k id) ks chs →
  NoDup (concat (zip_with (dirty_post (d_slots d)) ks chs)) ∧
  same_region g (concat (zip_with (dirty_post (d_slots d)) ks chs)) (concat (rev (map (dirty_region (dirty s)) ks))).*1.
Proof using All.
  intros Hm Hr Hnd Hks. induction Hks as [|k id ks chs [Hk1 Hk2] _ IH]; cbn [zip_with map rev concat].
  { split; [constructor|apply same_region_nil]. }
  apply forest_repr_cons in Hr as [Hr Hrs]. unfold forest_ids in Hnd. cbn [forest_nodes flat_map] in Hnd.
  rewrite fmap_app in Hnd. apply NoDup_app in Hnd as (_ & Hdisj & Hnd). specialize (IH Hrs Hnd) as [IH1 IH2].
  rewrite concat_app /= app_nil_r fmap_app. split; [|by apply same_region_app].
  apply NoDup_app. split; [done|]. split; [|done]. intros x (a & Ha & Hga)%Hk2 (a' & Ha' & Hga')%IH2.
  apply dirty_region_ids in Ha. apply concat_rev_fst in Ha' as (k' & Hk' & Ha'%dirty_region_ids).
  assert (a' ∈ forest_ids ks) as Hin by (apply elem_of_forest_ids; by exists k').
  apply (Hdisj a); [done|]. assert (a = a') as ->; [|done]. eapply (mr_inj _ _ _ _ _ Hm); [| |congruence].
  - by eapply repr_ids_lt.
  - by eapply forest_ids_lt.
Qed.

Lemma mirror_region g u s d c id :
  mirrors g u s d → repr (arena s) c → denotes d g id (label c) → NoDup (ids c) → region_ok g s d c id.
Proof using All.
  intros Hm. revert id. induction c as [i e|i ps ks b IH] using tree_nested_ind; intros id Hr Hd Hnd;
    pose proof (repr_label _ _ Hr) as Hn; pose proof (mr_place _ _ _ _ _ Hm _ _ Hn) as Hp;
    (destruct (denotes_slot _ _ _ _ _ _ _ Hm (lookup_lt_Some _ _ _ Hn) Hd) as (sl & Hs & Hsl));
    (destruct (g _) as [j|o|j] eqn:Eg in Hp, Hsl; [| |done];
      [|unfold region_ok; rewrite dirty_post_clean;
        [unfold CommitWalk.dirtyb; rewrite Hs; by destruct sl as [? [] ? ? ?| |]|];
        rewrite dirty_region_clean; [unfold dirtyb; apply bool_decide_eq_false; destruct Hp; congruence|];
        split; [constructor|apply same_region_nil]]);
    destruct Hp as (Hdt & n' & off & bb & tk & Hs' & Htw);
    (assert (j = id) as -> by (unfold denotes in Hd; rewrite Eg in Hd; done));
    destruct n' as [ps' chs' b'|e']; try done; cbn [node_of twins] in Htw; unfold region_ok; simpl;
    simpl in Hdt; rewrite Hs' Hdt.
  - split; [apply NoDup_singleton|]. apply (same_region_cons g [] [] i id); [done|apply same_region_nil].
  - destruct Htw as (_ & _ & Hch). apply repr_TInt in Hr as [_ Hr]. rewrite ids_TInt in Hnd.
    apply NoDup_cons in Hnd as [Hni Hnd].
    assert (Forall2 (λ k x, region_ok g s d k x) ks chs') as Hks.
    { clear -IH Hr Hch Hnd. induction ks as [|k ks IHks] in chs', IH, Hr, Hch, Hnd |- *; inversion Hch; subst; constructor.
      + apply Forall_cons in IH as [IH _]. apply forest_repr_cons in Hr as [Hr _].
        rewrite forest_ids_cons in Hnd. apply NoDup_app in Hnd as (Hnd & _). by apply IH.
      + apply Forall_cons in IH as [_ IH]. apply forest_repr_cons in Hr as [_ Hr].
        rewrite forest_ids_cons in Hnd. apply NoDup_app in Hnd as (_ & _ & Hnd). by apply IHks. }
    destruct (region_kids g u s d ks chs' Hm Hr Hnd Hks) as [H1' H2']. cbn [fmap list_fmap fst].
    split; [|by apply same_region_cons]. apply NoDup_app. split; [done|]. split; [|apply NoDup_singleton].
    intros x (a & Ha & Hga)%H2' ->%list_elem_of_singleton. apply concat_rev_fst in Ha as (k' & Hk' & Ha%dirty_region_ids).
    apply Hni. assert (a = i) as <-; [|apply elem_of_forest_ids; by exists k'].
    eapply (mr_inj _ _ _ _ _ Hm); [|by eapply lookup_lt_Some|simpl in Eg; congruence].
    eapply forest_ids_lt; [exact Hr|apply elem_of_forest_ids; by exists k'].
Qed.

(** ** The clean nodes *)

(** Distinct offsets, each the place of a node of [l]. *)
Definition offsets_of g (l : list NodeId) (os : list Z) : Prop :=
  NoDup os ∧ ∀ o, o ∈ os → ∃ a, a ∈ l ∧ g a = Rec o.

Lemma gather_offsets {A} (R : tree → A → list Z → Prop) g u s d ks ys :
  mirrors g u s d → forest_repr (arena s) ks → NoDup (forest_ids ks) →
  Forall2 (λ k y, ∃ l, R k y l ∧ offsets_of g (ids k) l) ks ys →
  ∃ ls, Forall3 R ks ys ls ∧ offsets_of g (forest_ids ks) (concat ls).
Proof using All.
  intros Hm Hr Hnd Hks. induction Hks as [|k y ks ys (l & Hl & Hnl & Hin) _ IH].
  { exists []. split; [constructor|]. split; [constructor|by intros ? ?%not_elem_of_nil]. }
  apply forest_repr_cons in Hr as [Hrk Hr]. rewrite forest_ids_cons in Hnd |- *.
  apply NoDup_app in Hnd as (_ & Hdisj & Hnd). destruct (IH Hr Hnd) as (ls & Hls & Hnls & Hins).
  exists (l :: ls). split; [by constructor|]. cbn [concat]. split.
  - apply NoDup_app. split; [done|]. split; [|done]. intros o (a & Ha & Hga)%Hin (a' & Ha' & Hga')%Hins.
    apply (Hdisj a); [done|]. assert (a = a') as ->; [|done].
    eapply (mr_inj _ _ _ _ _ Hm); [by eapply repr_ids_lt|by eapply forest_ids_lt|congruence].
  - intros o [(a & ? & ?)%Hin|(a & ? & ?)%Hins]%elem_of_app; exists a; rewrite elem_of_app; auto.
Qed.

Lemma mirror_spread g u s d c o :
  mirrors g u s d → repr (arena s) c → NoDup (ids c) → g (label c) = Rec o →
  ∃ l, spread (file d) (d_watermark d) c o l ∧ offsets_of g (ids c) l.
Proof using All.
  intros Hm. revert o. induction c as [i e|i ps ks b IH] using tree_nested_ind; intros o Hr Hnd Hg;
    pose proof (repr_label _ _ Hr) as Hn; pose proof (mr_place _ _ _ _ _ Hm _ _ Hn) as Hp; rewrite Hg in Hp;
    destruct Hp as (_ & Hc & rec & len & Hh & Hrec); cbn [node_of recorded] in Hrec.
  - destruct rec as [|e']; [done|]. subst e'. exists [o]. split; [by econstructor|]. split; [apply NoDup_singleton|].
    intros x ->%list_elem_of_singleton. exists i. split; [by left|done].
  - destruct rec as [ps' offs b'|]; [|done]. destruct Hrec as (-> & -> & Hl & Hoffs & Hks).
    apply repr_TInt in Hr as [_ Hr]. rewrite ids_TInt in Hnd |- *. apply NoDup_cons in Hnd as [Hni Hnd].
    destruct (gather_offsets (spread (file d) (d_watermark d)) g u s d ks offs Hm Hr Hnd) as (ls & Hls & Hnl & Hin).
    { clear -IH Hr Hks Hnd. induction ks as [|k ks IHks] in offs, IH, Hr, Hks, Hnd |- *; inversion Hks; subst; constructor;
        apply forest_repr_cons in Hr as [Hrk Hr]; apply Forall_cons in IH as [IHk IH]; rewrite forest_ids_cons in Hnd;
        apply NoDup_app in Hnd as (Hndk & _ & Hnd); [by apply IHk|by apply IHks]. }
    exists (o :: concat ls). split; [by econstructor|]. split.
    + constructor; [|done]. intros (a & Ha & Hga)%Hin. apply Hni. assert (i = a) as ->; [|done].
      eapply (mr_inj _ _ _ _ _ Hm); [by eapply lookup_lt_Some|by eapply forest_ids_lt|simpl in Hg; congruence].
    + intros x [->|(a & ? & ?)%Hin]%elem_of_cons; [exists i|exists a]; rewrite elem_of_cons; auto.
Qed.

Lemma mirror_scattered g u s d c id :
  mirrors g u s d → repr (arena s) c → NoDup (ids c) → denotes d g id (label c) →
  ∃ l, scattered d c id l ∧ offsets_of g (ids c) l.
Proof using All.
  intros Hm. revert id. induction c as [i e|i ps ks b IH] using tree_nested_ind; intros id Hr Hnd Hd;
    pose proof (repr_label _ _ Hr) as Hn; pose proof (mr_place _ _ _ _ _ Hm _ _ Hn) as Hp;
    (destruct (denotes_slot _ _ _ _ _ _ _ Hm (lookup_lt_Some _ _ _ Hn) Hd) as (sl & Hs & Hsl));
    (destruct (g _) as [j|o|j] eqn:Eg in Hp, Hsl; [| |done];
      [|destruct (mirror_spread g u s d _ o Hm Hr Hnd Eg) as (l & Hl & Hof); exists l;
        split; [by eapply scattered_clean|done]]);
    destruct Hp as (_ & n' & off & bb & tk & Hs' & Htw);
    (assert (j = id) as -> by (unfold denotes in Hd; rewrite Eg in Hd; done));
    destruct n' as [ps' chs' b'|e']; try done; cbn [node_of twins] in Htw.
  - subst e'. exists []. split; [by eapply scattered_leaf|]. split; [constructor|by intros ? ?%not_elem_of_nil].
  - destruct Htw as (-> & -> & Hch). apply repr_TInt in Hr as [_ Hr]. rewrite ids_TInt in Hnd |- *.
    apply NoDup_cons in Hnd as [Hni Hnd].
    destruct (gather_offsets (scattered d) g u s d ks chs' Hm Hr Hnd) as (ls & Hls & Hnl & Hin).
    { clear -IH Hr Hch Hnd. induction ks as [|k ks IHks] in chs', IH, Hr, Hch, Hnd |- *; inversion Hch; subst; constructor;
        apply forest_repr_cons in Hr as [Hrk Hr]; apply Forall_cons in IH as [IHk IH]; rewrite forest_ids_cons in Hnd;
        apply NoDup_app in Hnd as (Hndk & _ & Hnd); [by apply IHk|by apply IHks]. }
    exists (concat ls). split; [by eapply scattered_int|]. split; [done|].
    intros x (a & ? & ?)%Hin. exists a. rewrite elem_of_cons. auto.
Qed.

(** ** After the commit *)
Definition committed_place (m : gmap NodeId Z) g (a : NodeId) : Place :=
  match g a with
  | At id => match m !! id with Some off => Rec off | None => At id end
  | p => p
  end.

Lemma committed_place_Rec m g a o : g a = Rec o → committed_place m g a = Rec o.
Proof using. unfold committed_place. by intros ->. Qed.

Lemma committed_place_live m g a : live (committed_place m g) a ↔ live g a.
Proof using. unfold live, committed_place. destruct (g a) as [id|o|id]; [by destruct (m !! id)|done..]. Qed.

(** The record of a clean node lies below the watermark. *)
Lemma landed_old d o node len : holds_record (file d) (d_watermark d) o node len → (o < d_watermark d)%Z.
Proof using All.
  intros (_ & p & _ & _ & -> & _ & Hle). unfold RECORD_HEADER_SIZE in Hle. lia.
Qed.

Section landed.
Context g u s d t (w : Written) (v : V) (gen : Z) (d2 : E).
Let d1 := set_d_published gen (image_end d w) (set_d_vfs v d).
Let l := dirty_post (d_slots d) t (d_root d).
Let region := dirty_region (dirty s) t.
Let m := w_assigned w.
Let g' := committed_place m g.
Let s' := set_dirty (cleaned region (dirty s)) s.
Hypothesis Hm : mirrors g u s d.
Hypothesis Hr : repr (arena s) t.
Hypothesis Hnd : NoDup (ids t).
Hypothesis Hroot : root s = label t.
Hypothesis Hw : written d l w.
Hypothesis Hpub : published d w d1.
Hypothesis Had : Adopt.adopted d w d1 m d2.
Hypothesis Hi2 : disk_inv d2.

Lemma landed_region : same_region g l region.*1.
Proof using All.
  eapply (mirror_region g u s d t (d_root d)); [done..| |done]. rewrite -Hroot. apply Hm.
Qed.

Lemma landed_id id off : m !! id = Some off → ∃ a, a ∈ region.*1 ∧ g a = At id ∧ a < length (nodes s).
Proof using All.
  intros Ha. destruct landed_region as [Hreg _]. assert (id ∈ l) as (a & Hin & Hg)%Hreg by (apply Hw; by exists off).
  exists a. split_and!; [done..|]. eapply repr_ids_lt; [exact Hr|]. by eapply dirty_region_ids.
Qed.

(** The assigned nodes are those of the region. *)
Lemma landed_assigned a id : a < length (nodes s) → g a = At id → is_Some (m !! id) ↔ a ∈ region.*1.
Proof using All.
  intros Ha Hg. destruct landed_region as [Hreg Hat]. split.
  - intros [off (a' & Hin & Hg' & Hlt)%landed_id]. assert (a = a') as ->; [|done].
    eapply (mr_inj _ _ _ _ _ Hm); [done..|congruence].
  - intros Hin. apply Hw, Hreg. by exists a.
Qed.

Lemma landed_dirty a b : dirty s !! a = Some b → dirty s' !! a = Some (if decide (a ∈ region.*1) then false else b).
Proof using.
  intros Hb. simpl. case_decide; [|by rewrite lookup_cleaned_out].
  apply lookup_cleaned_in; [done|by eapply lookup_lt_Some].
Qed.

Lemma landed_denotes i (c : NodeId) : c < length (nodes s) → denotes d g i c → denotes d2 g' i c.
Proof using All.
  intros Hc Hd. destruct (denotes_slot _ _ _ _ _ _ _ Hm Hc Hd) as (sl & Hs & Hsl).
  unfold denotes, g', committed_place in *. destruct (g c) as [id|o|id] eqn:Eg; [|..|done].
  - subst i. destruct (m !! id) as [off|] eqn:Ea; [|done]. apply (ad_offsets _ _ _ _ _ Had). by left.
  - apply (ad_offsets _ _ _ _ _ Had). right. split; [done|]. intros [Hai _].
    destruct Hai as [off (a & _ & Hga & Hlt)%landed_id].
    assert (a = c) as -> by (eapply denotes_inj; [exact Hm|done|done|by rewrite /denotes Hga|by rewrite /denotes Eg]).
    congruence.
Qed.

(** A record of a written node. *)
Lemma landed_wrote a id off n : nodes s !! a = Some n → g a = At id → m !! id = Some off →
  ∃ rec len, holds_record (file d2) (d_watermark d2) off rec len ∧ recorded g' off n rec.
Proof using All.
  intros Hn Hg Ha. destruct (wi_wrote _ _ _ Hw _ _ Ha) as (n' & old & b & tk & rec & len & Hs & Hlo & Hh & _ & Hmt).
  exists rec, len. split; [by eapply ad_record|].
  pose proof (mr_place _ _ _ _ _ Hm _ _ Hn) as Hp. rewrite Hg in Hp.
  destruct Hp as (_ & n1 & off1 & b1 & t1 & Hs1 & Htw). assert (n1 = n') as -> by congruence.
  destruct n as [ps chs bf|e], n' as [ps1 chs1 bf1|e1], rec as [ps2 offs bf2|e2]; try done; cbn [twins recorded] in *;
    [|congruence].
  destruct Htw as (-> & -> & Hch), Hmt as (-> & -> & Hl & Hof & Hres). split_and!; [done..|].
  apply Forall2_same_length_lookup. apply Forall2_same_length_lookup in Hch as [Hl1 Hch].
  apply Forall2_same_length_lookup in Hres as [Hl2 Hres]. split; [congruence|]. intros j o c Ho Hc.
  destruct (lookup_lt_is_Some_2 chs1 j) as [i Hi]; [apply lookup_lt_Some in Ho; lia|].
  pose proof (Hch _ _ _ Hi Hc) as Hd. pose proof (Hres _ _ _ Hi Ho) as Hro.
  destruct (mr_kids _ _ _ _ _ Hm a _ c Hn) as (Hcl & _ & _); [by rewrite /live Hg|by eapply list_elem_of_lookup_2|].
  destruct (denotes_slot _ _ _ _ _ _ _ Hm Hcl Hd) as (sl & Hsl & Hcc).
  unfold g', committed_place. unfold denotes in Hd. destruct (g c) as [x|x|x]; [| |done].
  - subst i. destruct Hcc as (n2 & off2 & b2 & t2 & ->). apply (resolves_dirty _ _ _ _ _ _ _ _ Hsl) in Hro. by rewrite /m Hro.
  - pose proof (resolves_clean d w _ _ _ Hsl Hcc) as Hro'. unfold resolves in Hro, Hro'. congruence.
Qed.

Lemma landed_placed a n : nodes s !! a = Some n → Mirror.placed g' (set_ops_since_commit 0 s') d2 a n (g' a).
Proof using All.
  intros Hn. pose proof (lookup_lt_Some _ _ _ Hn) as Ha. pose proof (mr_inv _ _ _ _ _ Hm) as Hi.
  pose proof (mr_place _ _ _ _ _ Hm _ _ Hn) as Hp.
  unfold g' at 2, committed_place. destruct (g a) as [id|o|id] eqn:Eg.
  - pose proof (landed_assigned a id Ha Eg) as Hreg. destruct Hp as (Hdt & n' & off & b & tk & Hs & Htw).
    pose proof (landed_dirty _ _ Hdt) as Hdt'. destruct (m !! id) as [o|] eqn:Em.
    + rewrite decide_True in Hdt'; [by apply Hreg|]. split; [done|]. split.
      * eapply (ad_clean_offset d l w d1 d2 Hi Hw Had). right. by exists id.
      * by eapply landed_wrote.
    + rewrite decide_False in Hdt'; [intros []%Hreg; congruence|]. split; [done|]. exists n', off, b, tk. split.
      * rewrite (ad_slots _ _ _ _ _ Had _ _ Hs). unfold adopted_slot. by rewrite Em.
      * eapply twins_impl; [|exact Htw]. intros i c Hc. apply landed_denotes.
        eapply (mr_kids _ _ _ _ _ Hm); [exact Hn|by rewrite /live Eg|done].
  - destruct Hp as (Hdt & Hc & rec & len & Hh & Hrec). pose proof (landed_old _ _ _ _ Hh) as Hlo. split.
    { rewrite (landed_dirty _ _ Hdt). by case_decide. }
    split; [eapply (ad_clean_offset d l w d1 d2 Hi Hw Had); by left|]. exists rec, len.
    split; [eapply ad_record; [done..|]; by apply old_record|].
    destruct n as [ps chs bf|e], rec as [ps1 offs bf1|e1]; try done. cbn [recorded] in *.
    destruct Hrec as (-> & -> & Hl & Hof & Hch). split_and!; try done.
    eapply Forall2_impl; [exact Hch|]. intros x c. by apply committed_place_Rec.
  - destruct Hp as [Hs Hc]. split; [|done]. rewrite (ad_slots _ _ _ _ _ Had _ _ Hs). unfold adopted_slot.
    by destruct (m !! id).
Qed.

Lemma landed_inj a a' : a < length (nodes s) → a' < length (nodes s) → g' a = g' a' → a = a'.
Proof using All.
  intros Ha Ha' Hgg. pose proof (mr_inv _ _ _ _ _ Hm) as Hi.
  assert (∀ x y id off, y < length (nodes s) → m !! id = Some off → g y = Rec off → x = y) as Hfresh.
  { intros x y id off Hy Hid Hg. destruct (lookup_lt_is_Some_2 _ _ Hy) as [n Hn].
    pose proof (mr_place _ _ _ _ _ Hm _ _ Hn) as Hp. rewrite Hg in Hp. destruct Hp as (_ & _ & rec & len & Hh & _).
    apply landed_old in Hh. destruct (assigned_slot _ _ _ _ _ Hi Hw Hid) as (? & ? & ? & ? & ? & _ & ? & _). lia. }
  unfold g', committed_place in Hgg. destruct (g a) as [id|o|id] eqn:Eg, (g a') as [id'|o'|id'] eqn:Eg'; try done.
  - apply (mr_inj _ _ _ _ _ Hm); [done..|].
    destruct (m !! id) as [o|] eqn:E1, (m !! id') as [o'|] eqn:E2; try done; [|congruence].
    injection Hgg as <-. rewrite (wi_inj _ _ _ Hw _ _ _ E1 E2) in Eg'. congruence.
  - destruct (m !! id) as [o|] eqn:E1; [|done]. injection Hgg as ->. by eapply (Hfresh a a').
  - by destruct (m !! id).
  - destruct (m !! id') as [o'|] eqn:E1; [|done]. injection Hgg as ->. symmetry. by eapply (Hfresh a' a).
  - apply (mr_inj _ _ _ _ _ Hm); congruence.
  - by destruct (m !! id').
  - apply (mr_inj _ _ _ _ _ Hm); congruence.
Qed.

(** A slot that the commit left alone. *)
Lemma landed_mirror : Mirror.mirrors (d_vfs d2) g' u (set_ops_since_commit 0 s') (set_d_ops 0 d2).
Proof using All.
  pose proof (mr_inv _ _ _ _ _ Hm) as Hi.
  assert (d_params d2 = d_params d ∧ d_policy d2 = d_policy d ∧ d_next_seq d2 = d_next_seq d ∧
    d_poisoned d2 = d_poisoned d ∧ d_trace d2 = d_trace d ∧ d_root d2 = d_root d) as (E1 & E2 & E3 & E4 & E5 & E6).
  { by destruct (ad_rest _ _ _ _ _ Had) as (ss & os & bs & ->). }
  assert (∀ id sl, d_slots d2 !! id = Some sl → m !! id = None → d_slots d !! id = Some sl) as Hback.
  { intros id sl Hs Hn. destruct (ad_cases d l w d1 d2 Hi Hw Had _ _ Hs) as [(? & ? & ? & ? & ? & ? & _ & Ha & _)|[_ ?]]; [|done].
    fold m in Ha. congruence. }
  assert (∀ id o, m !! id = Some o → ∃ n b tk, d_slots d2 !! id = Some (Loaded n false (Some o) b tk)) as Hnew.
  { intros id o Ha. destruct (assigned_slot _ _ _ _ _ Hi Hw Ha) as (n & old & b & tk & len & Hs & _ & Hl & _).
    rewrite (ad_slots _ _ _ _ _ Had _ _ Hs). unfold adopted_slot. fold m. rewrite Ha. eauto. }
  split; simpl; rewrite ?E1 ?E2 ?E3 ?E4 ?E5 ?E6 ?length_cleaned; try solve [apply Hm].
  - eapply disk_inv_same; [|exact Hi2]. by split_and!.
  - apply dev_same_refl, Hi2.
  - done.
  - intros a n. apply landed_placed.
  - apply landed_inj.
  - intros a n c Hn Hl Hc. apply committed_place_live in Hl. destruct (mr_kids _ _ _ _ _ Hm _ _ _ Hn Hl Hc) as (? & ? & ?).
    split_and!; [done|by apply committed_place_live|done].
  - intros a n Hn Hl%committed_place_live. by eapply (mr_NoDup _ _ _ _ _ Hm).
  - intros o id sl Ho Hs Hcl. destruct (m !! id) as [off|] eqn:Em.
    + destruct (Hnew _ _ Em) as (n & b & tk & Hs'). rewrite Hs in Hs'. injection Hs' as ->. simpl in Hcl. subst o.
      destruct (landed_id _ _ Em) as (a & _ & Hga & Ha). exists a. split; [done|].
      unfold g', committed_place. by rewrite Hga Em.
    + apply (ad_offsets _ _ _ _ _ Had) in Ho as [?|[Ho _]]; [congruence|].
      destruct (mr_cover _ _ _ _ _ Hm _ _ _ Ho (Hback _ _ Hs Em) Hcl) as (a & Ha & Hga). exists a.
      split; [done|by apply committed_place_Rec].
  - intros o id Ho. apply (ad_offsets _ _ _ _ _ Had) in Ho as [Ha|[Ho Hn]].
    + destruct (Hnew _ _ Ha) as (n & b & tk & Hs'). eexists. split; [exact Hs'|done].
    + destruct (mr_backs _ _ _ _ _ Hm _ _ Ho) as (sl & Hs & Hof). exists sl. split; [|done].
      rewrite (ad_slots _ _ _ _ _ Had _ _ Hs). unfold adopted_slot. fold m.
      destruct (m !! id) as [off|] eqn:Em; [|done]. destruct sl as [n1 dr off1 b1 t1|o1|]; [|done..].
      exfalso. apply Hn. split; [by eexists|]. unfold offset_of. by rewrite Hs.
  - apply landed_denotes; apply Hm.
Qed.
End landed.

(** ** [commit] *)
Lemma refreshes_ops (X : NodeId → Prop) d d' : refreshes X d d' → refreshes X (set_d_ops 0 d) (set_d_ops 0 d').
Proof using All. by intros []. Qed.

Definition simulated s t : BeTree P :=
  set_ops_since_commit 0 (set_dirty (cleaned (dirty_region (dirty s) t) (dirty s)) s).

Lemma good_shaped prm h lo hi c : good prm h lo hi c → shaped c.
Proof using.
  revert h lo hi. induction c as [i e|i ps ks b IH] using tree_nested_ind; intros [|h] lo hi Hg; try done.
  - by repeat constructor.
  - apply shaped_TInt. destruct Hg as (_ & _ & _ & Hks). split; [by eapply kids_ok_length|].
    clear -IH Hks. induction Hks as [lo hi c Hc|lo hi p ps c cs _ _ Hc _ IHks]; apply Forall_cons in IH as [IHc IH];
      (constructor; [by eapply IHc|]); [done|by apply IHks].
Qed.

Lemma at_rest_shaped prm h t : at_rest prm h t → shaped t.
Proof using.
  destruct h as [|h], t as [i e|i ps ks b]; try done; [by repeat constructor|]. by apply (good_shaped prm (S h) None None).
Qed.

(** What the mirror gives a commit. *)
Record commit_ready d t : Prop := {
  rdy_cached : cached d t (d_root d);
  rdy_shaped : shaped t;
  rdy_connected : connected d;
  rdy_unshared : unshared d t (d_root d);
  rdy_dirty_once : NoDup (dirty_post (d_slots d) t (d_root d));
}.

Lemma mirror_ready g u s d t h m n : mirrors g u s d → tree_inv s t h m n → commit_ready d t.
Proof using All.
  intros Hm Ht. destruct (ti_rooted _ _ _ _ _ Ht) as [_ _ Hroot Hr Hnd _].
  assert (denotes d g (d_root d) (label t)) as Hd by (rewrite -Hroot; apply Hm). split.
  - by eapply mirror_cached.
  - eapply at_rest_shaped, Ht.
  - by eapply mirror_connected.
  - destruct (mirror_scattered g u s d t (d_root d) Hm Hr Hnd Hd) as (l & Hl & Hof & _). by exists l.
  - eapply (mirror_region g u s d t (d_root d)); done.
Qed.

Lemma landed_mirrored g u s d t h m n d' :
  mirrors g u s d → u (root s) = None → tree_inv s t h m n → landed d t d' → mirrored (d_vfs d') (simulated s t) d'.
Proof using All.
  intros Hm Hu Ht (w & v & gen & d2 & d3 & Hw & Hpub & Had & Hi2 & Hr3 & Hi3 & ->).
  destruct (ti_rooted _ _ _ _ _ Ht) as [_ _ Hroot Hr Hnd _].
  pose proof (landed_mirror g u s d t w v gen d2 Hm Hr Hnd Hroot Hw Hpub Had Hi2) as Hm2.
  assert (Mirror.mirrors (d_vfs d2) (committed_place (w_assigned w) g) u (simulated s t) (set_d_ops 0 d3)) as Hm3.
  { eapply mirrors_refreshes; [exact Hm2| |by apply refreshes_ops]. eapply disk_inv_same; [|exact Hi3]. by split_and!. }
  exists (committed_place (w_assigned w) g), u. split; [|done]. destruct Hm3. split; try done.
  apply dev_same_refl, Hi3.
Qed.

Lemma commit_mirrored g u s d t h m n sb t0 :
  mirrors g u s d → u (root s) = None → tree_inv s t h m n → durable d sb t0 → commit_room d →
  wp DiskCommit.commit (λ r d', commit_post d sb t0 t r d' ∧
    d_poisoned d' = match r with ROk _ => false | RErr _ => true end ∧
    match r with ROk _ => mirrored (d_vfs d') (simulated s t) d' | RErr _ => True end) d.
Proof using All.
  intros Hm Hu Ht Hd Hroom. destruct (mirror_ready _ _ _ _ _ _ _ _ Hm Ht).
  eapply wp_mono; [apply (commit_spec d sb t0 t); try done; apply Hm|].
  intros [stats|e] d' [Hpost Hp]; split_and!; try done.
  destruct Hpost as (_ & sb' & _ & _ & _ & _ & _ & _ & _ & Hland & _). by eapply landed_mirrored.
Qed.
End commit.
