(* ===== verification/MirrorCost.v ===== *)
(** * The cost of a commit, in lockstep

    [simulate_commit] of the arena charges what [commit] of the disk engine
    that mirrors it writes: the dirty regions are the same up to names, and
    a record's size does not depend on the offsets it stores. *)

From S2P Require Export MirrorCommit.
From stdpp Require Import options.
From Stdlib Require Import ZArith.

Section cost.
Context {V P : Type} `{DeviceLaws V} `{CodecLaws} (v0 : V).
Notation E := (DiskEngine V P).
Notation mirrors := (mirrors v0).
Implicit Types (d : E) (s : BeTree P) (g : NodeId → Place) (u : NodeId → option NodeId) (t : tree) (w : Written).

(** Every arena id is a [NodeId]. *)
Definition arena_fits s : Prop := (Z.of_nat (length (nodes s)) ≤ u64_max)%Z.

(** The slot of a placed node. *)
Definition slot_at_place g (a : NodeId) : NodeId := match g a with At id => id | _ => 0 end.

Lemma disk_form_image n n' node p R :
  twins R n n' → disk_image n' node → bincode_node node = Some p → Forall (λ c, u64_ok (Z.of_nat c)) (kids n) →
  ∃ p', bincode_node (disk_form n) = Some p' ∧ length p' = length p.
Proof using All.
  destruct n as [ps chs b|e], n' as [ps' chs' b'|e'], node as [ps1 offs b1|e1]; try done; cbn [twins disk_image kids disk_form].
  - intros (-> & -> & Hch) (-> & -> & Hl & _) Hp Hk. apply (node_width _ _ _ _ _ Hp).
    + rewrite length_map Hl. symmetry. by eapply Forall2_length.
    + by apply Forall_map.
  - intros -> -> Hp _. by exists p.
Qed.

(** The record of a dirty node takes what the model charges for it. *)
Lemma region_record g u s d w l a n :
  mirrors g u s d → arena_fits s → written d l w → nodes s !! a = Some n → slot_at_place g a ∈ l →
  (∃ id, g a = At id) →
  is_Some (bincode_node (disk_form n)) ∧ w_record_lens w !! slot_at_place g a = Some (record_size n).
Proof using All.
  intros Hm Hfit Hw Hn Hin [id Hg]. unfold slot_at_place in *. rewrite Hg in Hin |- *.
  destruct (proj2 (wi_lens _ _ _ Hw id) Hin) as [len Hlen].
  destruct (wi_record _ _ _ Hw _ _ Hlen) as (n' & old & b & tk & node & p & Hs & Hdi & Hp & ->).
  pose proof (mr_place _ _ _ _ _ Hm _ _ Hn) as Hpl. rewrite Hg in Hpl.
  destruct Hpl as (_ & n1 & off & b1 & t1 & Hs1 & Htw). assert (n1 = n') as -> by congruence.
  destruct (disk_form_image _ _ _ _ _ Htw Hdi Hp) as (p' & Hp' & Hl).
  { apply Forall_forall. intros c Hc.
    destruct (mr_kids _ _ _ _ _ Hm a _ c Hn) as (Hlt & _ & _); [by rewrite /live Hg|done|].
    unfold u64_ok, arena_fits in *. lia. }
  split; [by exists p'|]. rewrite Hlen /record_size Hp' Hl. done.
Qed.

Lemma total_lens_fmap (m : gmap NodeId Z) (f : NodeId → NodeId) (r : list (NodeId * Node)) :
  Forall (λ x, m !! f x.1 = Some (record_size x.2)) r → total_lens m (f <$> r.*1) = total_size r.
Proof using Type.
  induction 1 as [|x r Hx _ IH]; [done|]. cbn [fmap list_fmap total_lens total_size foldr] in *.
  rewrite Hx /=. by f_equal.
Qed.

(** The records of the dirty region, as the two engines count them. *)
Lemma region_bytes g u s d t h m n w :
  mirrors g u s d → arena_fits s → tree_inv s t h m n → written d (dirty_post (d_slots d) t (d_root d)) w →
  let region := dirty_region (dirty s) t in
  Forall (λ x, is_Some (bincode_node (disk_form x.2))) region ∧
  Z.of_nat (length (w_buf w)) = total_size region.
Proof using All.
  intros Hm Hfit Ht Hw region. destruct (ti_rooted _ _ _ _ _ Ht) as [_ _ Hroot Hr Hnd _].
  destruct (mirror_region v0 g u s d t (d_root d) Hm Hr) as [Hnd1 [Hin Hat]]; [by rewrite -Hroot; apply Hm|done|].
  set (l := dirty_post (d_slots d) t (d_root d)) in *. fold region in Hin, Hat.
  assert (l ≡ₚ slot_at_place g <$> region.*1) as Hperm.
  { apply NoDup_Permutation; [done| |].
    - apply NoDup_fmap_2_strong; [|by apply dirty_region_NoDup]. intros a b Ha Hb.
      destruct (Hat a Ha) as [x Hx], (Hat b Hb) as [y Hy]. unfold slot_at_place. rewrite Hx Hy. intros ->.
      eapply (mr_inj _ _ _ _ _ Hm); [by eapply repr_ids_lt, dirty_region_ids|by eapply repr_ids_lt, dirty_region_ids|congruence].
    - intros x. rewrite Hin list_elem_of_fmap. split.
      + intros (a & Ha & Hg). exists a. by rewrite /slot_at_place Hg.
      + intros (a & -> & Ha). exists a. destruct (Hat a Ha) as [y Hy]. by rewrite /slot_at_place Hy. }
  assert (Forall (λ x, is_Some (bincode_node (disk_form x.2)) ∧
    w_record_lens w !! slot_at_place g x.1 = Some (record_size x.2)) region) as Hrec.
  { pose proof (region_arena s t Hr) as Har. fold region in Har. rewrite Forall_forall in Har.
    apply Forall_forall. intros [a x] Hx. specialize (Har _ Hx).
    assert (a ∈ region.*1) as Ha by exact (list_elem_of_fmap_2 fst _ _ Hx).
    eapply region_record; [done|done|exact Hw|done| |by apply Hat]. rewrite Hperm. by apply list_elem_of_fmap_2. }
  apply Forall_and in Hrec as [Henc Hrec]. split; [done|].
  by rewrite (wi_bytes _ _ _ Hw) (total_lens_perm _ _ _ Hperm) total_lens_fmap.
Qed.

(** A commit that lands has written what the model charges. *)
Lemma landed_bytes g u s d t h m n d' sb sb' t0 t1 :
  mirrors g u s d → arena_fits s → tree_inv s t h m n → landed d t d' → durable d sb t0 → durable d' sb' t1 →
  let region := dirty_region (dirty s) t in
  Forall (λ x, is_Some (bincode_node (disk_form x.2))) region ∧
  (watermark sb' - watermark sb = total_size region)%Z ∧ (watermark sb' ≤ u64_max)%Z.
Proof using All.
  intros Hm Hfit Ht (w & v & gen & d2 & d3 & Hw & Hpub & Had & _ & Hr3 & _ & ->) Hd Hd' region.
  destruct (region_bytes g u s d t h m n w Hm Hfit Ht Hw) as [Henc Hb]. split; [done|].
  rewrite -(du_watermark _ _ _ Hd) -(du_watermark _ _ _ Hd') /= (rf_watermark _ _ _ Hr3).
  destruct (ad_rest _ _ _ _ _ Had) as (ss & os & bs & ->). simpl. fold region in Hb.
  pose proof (pb_u64 _ _ _ Hpub). unfold image_end in *. lia.
Qed.

(** The cost model is exact. *)
Lemma commit_cost g u s d t h m n sb t0 :
  mirrors g u s d → u (root s) = None → arena_fits s → tree_inv s t h m n → durable d sb t0 → commit_room d →
  wp DiskCommit.commit (λ r d', commit_post d sb t0 t r d' ∧
    d_poisoned d' = match r with ROk _ => false | RErr _ => true end ∧
    match r with
    | ROk stats => mirrored (d_vfs d') (simulated s t) d' ∧ simulate_commit s = Ok (bytes_written stats, simulated s t)
    | RErr _ => True
    end) d.
Proof using All.
  intros Hm Hu Hfit Ht Hd Hroom. eapply wp_mono; [by eapply (commit_mirrored v0)|].
  intros [stats|e] d' (Hpost & Hpo & Hmir); split_and!; try done.
  pose proof Hpost as (_ & sb' & _ & _ & _ & Hd' & _ & _ & _ & Hland & _ & Hbytes & _).
  destruct (landed_bytes g u s d t h m n d' sb sb' t0 t Hm Hfit Ht Hland Hd Hd') as (Henc & Hb & Hmax).
  pose proof (committed_watermark _ _ _ (du_view _ _ _ Hd)). assert (SUPERBLOCK_SLOT_SIZE ≤ DATA_START)%Z by done.
  destruct (simulate_commit_region s t h m n Ht Henc) as (b & s' & Hrun & -> & ->); [lia|].
  by rewrite Hrun Hbytes Hb.
Qed.
End cost.
