(* ===== verification/MirrorCheck.v ===== *)
(** * The checker of the disk engine

    [check_invariants_full] loads the whole tree, without a budget, and runs
    the structural checker on the resident slots; on an engine that mirrors
    an in-memory one it accepts, and changes nothing but the cache.  The
    probes walk the same way: [live_walk] counts the nodes of the tree, and
    [height] descends in step with the in-memory engine. *)

From S2P Require Export MirrorCommit.
From stdpp Require Import options.
From Stdlib Require Import ZArith.

Section check.
Context {V P : Type} `{DeviceLaws V} `{CodecLaws} (v0 : V).
Notation E := (DiskEngine V P).
Notation mirrors := (mirrors v0).
Implicit Types (d : E) (s : BeTree P) (g : NodeId → Place) (u : NodeId → option NodeId) (t c : tree).
#[local] Existing Instance Disk.DiskEngine_source.

(** The id of the slot that denotes an arena node. *)
Definition disk_id d g (a : NodeId) : NodeId :=
  match g a with At id => id | Rec o => default 0 (d_offsets d !! o) | Gone id => id end.

Lemma denotes_id d g id a : denotes d g id a → disk_id d g a = id.
Proof using Type. unfold denotes, disk_id. by destruct (g a); [|intros ->|]. Qed.

Lemma twins_rename d g n n' : twins (denotes d g) n n' → n' = rename_node (disk_id d g) n.
Proof using Type.
  destruct n as [ps chs b|e], n' as [ps' chs' b'|e']; try done; simpl; [|by intros ->].
  intros (-> & -> & Hch). f_equal. clear -Hch. induction Hch as [|i a chs' chs Hd _ IH]; [done|].
  simpl. by rewrite IH (denotes_id _ _ _ _ Hd).
Qed.

(** Every node of the tree is in memory. *)
Definition resident_tree d g t : Prop := ∀ a, a ∈ ids t → ∃ id, denotes d g id a ∧ in_memory d id.

Lemma resident_repr g u s d t :
  mirrors g u s d → repr (arena s) t → NoDup (ids t) → resident_tree d g t →
  repr (src_arena d) (rename (disk_id d g) t) ∧ NoDup (ids (rename (disk_id d g) t)).
Proof using All.
  intros Hm Hr Hnd Hres. split.
  - unfold repr in *. rewrite nodes_of_rename. rewrite list.Forall_forall in Hr. apply list.Forall_forall.
    intros [i x] Hi. apply list_elem_of_fmap in Hi as ([a n] & [= -> ->] & Ha). specialize (Hr _ Ha). simpl in Hr.
    destruct (Hres a) as (id & Hd & (n' & dirty & off & b & tk & Hs)); [by apply (list_elem_of_fmap_2 fst _ _ Ha)|].
    destruct (resident_twins _ _ _ _ _ _ _ _ _ _ _ _ Hm (lookup_lt_Some _ _ _ Hr) Hd Hs) as (n1 & Hn1 & Htw).
    unfold arena in Hr. rewrite Hr in Hn1. injection Hn1 as <-. rewrite (denotes_id _ _ _ _ Hd).
    unfold src_arena. simpl. rewrite Hs /=. f_equal. by apply twins_rename.
  - rewrite ids_rename. apply NoDup_fmap_2_strong; [|done]. intros a a' Ha Ha' He.
    destruct (Hres a Ha) as (id & Hd & _), (Hres a' Ha') as (id' & Hd' & _).
    rewrite (denotes_id _ _ _ _ Hd) (denotes_id _ _ _ _ Hd') in He. subst id'.
    eapply denotes_inj; [exact Hm|by eapply repr_ids_lt|by eapply repr_ids_lt|done|done].
Qed.

(** A walk of the tree ends within the fuel. *)
Lemma walk_fuel g u s d t :
  mirrors g u s d → repr (arena s) t → NoDup (ids t) → S (2 * length (ids t)) ≤ 2 ^ d_fuel d.
Proof using All.
  intros Hm Hr Hnd. pose proof (mirrors_fuel _ _ _ _ _ Hm) as Hle. pose proof (length_ids_le_cost t).
  pose proof (tree_cost_le s t Hr Hnd).
  assert (S (2 * length (ids t)) ≤ 2 ^ fuel s) by (apply fuel_linear; lia).
  assert (2 ^ fuel s ≤ 2 ^ d_fuel d) by by apply Nat.pow_le_mono_r. lia.
Qed.

(** The checker accepts the resident tree. *)
Lemma resident_check g u s d t h m n :
  mirrors g u s d → tree_inv s t h m n → resident_tree d g t → check_invariants d = Ok (ROk tt).
Proof using All.
  intros Hm Ht Hres. pose proof Ht as [Hlegal Hrt Hrest _ _ _ _ _]. pose proof Hrt as [_ _ Hroot Hr Hnd Hf].
  destruct (resident_repr g u s d t Hm Hr Hnd Hres) as [Hr' Hnd'].
  destruct (check_invariants_walk d (rename (disk_id d g) t)) as (r & -> & Hok); [|done|done| |].
  - rewrite label_rename. simpl. symmetry. apply denotes_id. rewrite -Hroot. apply Hm.
  - rewrite ids_rename length_fmap. change (src_fuel d) with (d_fuel d).
    pose proof (walk_fuel _ _ _ _ _ Hm Hr Hnd). lia.
  - f_equal. apply Hok. exists h. split.
    + change (src_params d) with (d_params d). rewrite (mr_params _ _ _ _ _ Hm). by apply at_rest_rename.
    + intros k. rewrite view_rename. apply Hf.
Qed.

(** ** Loading everything *)

Lemma Forall2_rev {A B} (R : A → B → Prop) l k : Forall2 R l k → Forall2 R (rev l) (rev k).
Proof using Type. induction 1; simpl; [done|]. by apply Forall2_app; [|constructor]. Qed.

Lemma length_forest_rev (ks : list tree) : length (forest_ids (rev ks)) = length (forest_ids ks).
Proof using Type. apply Permutation_length. unfold forest_ids, forest_nodes. by rewrite -(Permutation_rev ks). Qed.

(** A walk over the nodes: the trees [ts], whose roots the stack denotes,
    are still to do. *)
Record walking g u s d (stack : list NodeId) (ts : list tree) : Prop := {
  wk_mirrors : mirrors g u s d;
  wk_stack : Forall2 (denotes d g) stack (map label ts);
  wk_repr : forest_repr (arena s) ts;
}.

Definition children_first (n : Node) (stack : list NodeId) : list NodeId :=
  match n with Internal _ children _ => rev children ++ stack | Leaf _ => stack end.

Lemma walking_next g u s id c stack ts d d' n dirty off b tick :
  walking g u s d (id :: stack) (c :: ts) → mirrors g u s d' → refreshes (λ _, False) d d' →
  d_slots d' !! id = Some (Loaded n dirty off b tick) → ∃ ts', walking g u s d' (children_first n stack) ts' ∧
    length (forest_ids (c :: ts)) = S (length (forest_ids ts')) ∧
    ∀ a, a ∈ forest_ids (c :: ts) → a = label c ∨ a ∈ forest_ids ts'.
Proof using All.
  intros [_ Hst0 Hts] Hm Hr Hs. inversion Hst0 as [|? ? ? ? Hd Hst]; subst. apply forest_repr_cons in Hts as [Hc Hts].
  assert (label c < length (nodes s)) as Hlt by by eapply repr_ids_lt, label_in_ids.
  apply (denotes_refreshes _ _ _ _ _ _ Hr) in Hd.
  assert (Forall2 (denotes d' g) stack (map label ts)) as Hst'.
  { eapply Forall2_impl; [exact Hst|]. intros i a. by eapply denotes_refreshes. }
  destruct (resident_twins _ _ _ _ _ _ _ _ _ _ _ _ Hm Hlt Hd Hs) as (n1 & Hn1 & Htw).
  destruct c as [i e|i ps ks bf]; simpl in Hn1.
  - apply repr_TLeaf in Hc. unfold arena in Hc. rewrite Hc in Hn1. injection Hn1 as <-.
    destruct n; [done|]. exists ts. rewrite forest_ids_cons ids_TLeaf. split_and!; [done..|].
    intros a [->|?]%elem_of_cons; auto.
  - apply repr_TInt in Hc as [Hc Hks]. unfold arena in Hc. rewrite Hc in Hn1. injection Hn1 as <-.
    destruct n as [ps' chs bf'|]; [|done]. destruct Htw as (_ & _ & Hch). exists (rev ks ++ ts). split_and!.
    + split; [done| |].
      * rewrite map_app map_rev. apply Forall2_app; [|done]. by apply Forall2_rev.
      * apply forest_repr_app. split; [by apply forest_repr_rev|done].
    + rewrite forest_ids_cons forest_ids_app !length_app ids_TInt length_forest_rev. simpl. lia.
    + intros a. rewrite forest_ids_cons forest_ids_app ids_TInt -app_comm_cons elem_of_cons !elem_of_app.
      intros [->|[Hin|?]]; auto. right; left. apply elem_of_forest_ids in Hin as (c & Hc' & ?). apply elem_of_forest_ids.
      exists c. split; [|done]. by rewrite -Permutation_rev.
Qed.

(** One iteration of a walk: its head loads a node. *)
Lemma walk_visit g u s d id stack c ts :
  walking g u s d (id :: stack) (c :: ts) →
  wpo true (ensure_loaded id []) (λ r d', mirrors g u s d' ∧ refreshes (λ _, c_budget (d_cache d) = None) d d' ∧
    match r with
    | ROk _ => ∃ n dirty off b tick, d_slots d' !! id = Some (Loaded n dirty off b tick) ∧ ∃ ts',
        walking g u s d' (children_first n stack) ts' ∧ length (forest_ids (c :: ts)) = S (length (forest_ids ts')) ∧
        ∀ a, a ∈ forest_ids (c :: ts) → a = label c ∨ a ∈ forest_ids ts'
    | RErr e => storage_failed v0 e
    end) d.
Proof using All.
  intros Hw. pose proof Hw as [Hm Hst Hts]. inversion Hst as [|? ? ? ? Hd _]; subst.
  apply forest_repr_cons in Hts as [Hc _]. assert (label c < length (nodes s)) as Hlt
    by by eapply repr_ids_lt, label_in_ids.
  eapply wpo_mono; [by eapply ensure_mirrored_kept|]. intros r d1 (Hm1 & Hr1 & Hres). split; [done|].
  split; [eapply refreshes_weaken; [|exact Hr1]; by right|]. destruct r as [_|e]; [|done].
  destruct Hres as (n & dirty & off & b & tk & Hs). exists n, dirty, off, b, tk. split; [done|].
  apply (refreshes_weaken _ (λ _, False)) in Hr1; [|done]. by eapply walking_next.
Qed.

Lemma walking_root g u s d t h m n :
  mirrors g u s d → tree_inv s t h m n → walking g u s d [d_root d] [t] ∧ length (forest_ids [t]) < 2 ^ d_fuel d.
Proof using All.
  intros Hm Ht. pose proof (ti_rooted _ _ _ _ _ Ht) as [_ _ Hroot Hr Hnd _]. split.
  - split; [done| |].
    + constructor; [|done]. rewrite -Hroot. apply Hm.
    + apply forest_repr_cons. split; [done|]. apply forest_repr_nil.
  - rewrite forest_ids_cons app_nil_r. pose proof (walk_fuel _ _ _ _ _ Hm Hr Hnd). lia.
Qed.

(** The state of the loop of [load_all]: what was seen is in memory. *)
Definition loading g u s t (k : nat) (stack : list NodeId) d : Prop :=
  c_budget (d_cache d) = None ∧ ∃ ts, walking g u s d stack ts ∧ k = length (forest_ids ts) ∧
    ∀ a, a ∈ ids t → a ∈ forest_ids ts ∨ ∃ id, denotes d g id a ∧ in_memory d id.

Lemma load_all_mirrored g u s d t h m n :
  mirrors g u s d → tree_inv s t h m n → c_budget (d_cache d) = None →
  wpo true Disk.load_all (λ r d', mirrors g u s d' ∧ match r with
    | ROk _ => resident_tree d' g t
    | RErr e => storage_failed v0 e
    end) d.
Proof using All.
  intros Hm Ht Hb. destruct (walking_root g u s d t h m n Hm Ht) as [Hw Hfuel]. unfold Disk.load_all. apply wpo_bind, wpo_get.
  apply (wpo_loopM _ true d_fuel (loading g u s t) _ (length (forest_ids [t]))); [| |done].
  - intros k stack d1 (Hb1 & ts & Hw1 & -> & Hall). pose proof Hw1 as [Hm1 Hst _].
    destruct ts as [|c ts]; inversion Hst as [|id a stack' al Hd Hst']; subst.
    { apply wpo_ret. split; [done|]. intros a Ha. by destruct (Hall a Ha) as [?%not_elem_of_nil|]. }
    apply wpo_bind. eapply wpo_mono; [by eapply walk_visit|]. intros [[]|e] d2 (Hm2 & Hr2 & Hres); [|by apply wpo_ret].
    destruct Hres as (n' & dirty & off & b & tk & Hs & ts' & Hw2 & Hlen & Hin).
    assert (loading g u s t (length (forest_ids ts')) (children_first n' stack') d2) as Hl.
    { split; [by rewrite (rf_budget _ _ _ Hr2)|]. exists ts'. split_and!; [done..|]. intros a Ha.
      destruct (Hall a Ha) as [Hia|(i & Hi & Him)].
      - destruct (Hin a Hia) as [->|?]; [|by left]. right. exists id.
        split; [by eapply denotes_refreshes|by eexists _, _, _, _, _].
      - right. exists i. split; [by eapply denotes_refreshes|by eapply in_memory_refreshes]. }
    apply wpo_bind, wpo_bind. eapply wpo_slot; [exact Hs|]. apply wpo_ret.
    destruct n'; apply wpo_ret; exists (length (forest_ids ts')); (split; [lia|done]).
  - split; [done|]. exists [t]. split_and!; [done..|]. intros a Ha. left. by rewrite forest_ids_cons app_nil_r.
Qed.

(** [live_walk] counts the nodes of the tree. *)
Lemma live_walk_mirrored g u s d t h m n :
  mirrors g u s d → tree_inv s t h m n →
  wpo true Disk.live_walk (λ r d', mirrors g u s d' ∧ match r with
    | ROk (nodes, _) => nodes = Z.of_nat (length (ids t))
    | RErr e => storage_failed v0 e
    end) d.
Proof using All.
  intros Hm Ht. destruct (walking_root g u s d t h m n Hm Ht) as [Hw Hfuel]. unfold Disk.live_walk. apply wpo_bind, wpo_get.
  apply (wpo_loopM _ true d_fuel (λ k '(nodes, _, stack) d, ∃ ts, walking g u s d stack ts ∧ k = length (forest_ids ts) ∧
    (nodes + Z.of_nat k = Z.of_nat (length (ids t)))%Z) _ (length (forest_ids [t]))); [| |done].
  - intros k [[nodes bytes] stack] d1 (ts & Hw1 & -> & Hn). pose proof Hw1 as [Hm1 Hst _].
    destruct ts as [|c ts]; inversion Hst as [|id a stack' al Hd Hst']; subst.
    { apply wpo_ret. split; [done|]. unfold forest_ids in Hn. simpl in Hn. lia. }
    apply wpo_bind. eapply wpo_mono; [by eapply walk_visit|]. intros [[]|e] d2 (Hm2 & Hr2 & Hres); [|by apply wpo_ret].
    destruct Hres as (n' & dirty & off & b & tk & Hs & ts' & Hw2 & Hlen & _).
    apply wpo_bind, wpo_u64_add; [done|intros _]. apply wpo_bind. eapply wpo_slot; [exact Hs|].
    apply wpo_bind, wpo_u64_add; [done|intros _]. apply wpo_bind, wpo_bind. eapply wpo_slot; [exact Hs|]. apply wpo_ret.
    destruct n'; apply wpo_ret; exists (length (forest_ids ts')); (split; [lia|]); exists ts'; (split_and!; [done..|lia]).
  - exists [t]. split_and!; [done..|]. by rewrite forest_ids_cons app_nil_r.
Qed.

(** [height] descends as the in-memory engine does. *)
Definition height_inv g u s (l : nat * NodeId) s' (l' : nat * NodeId) d : Prop :=
  s' = s ∧ l'.1 = l.1 ∧ mirrors g u s d ∧ l.2 < length (nodes s) ∧ denotes d g l'.2 l.2 ∧ in_memory d l'.2.

Lemma sim_height g u s d :
  mirrors g u s d → sim BeTree.height Disk.height (unless_failed v0 (λ r s' r' d', r' = r ∧ mirrors g u s' d')) s d.
Proof using All.
  intros Hm. unfold BeTree.height, Disk.height. apply sim_get_l, sim_get_r.
  pose proof (mr_root _ _ _ _ _ Hm) as Hr. pose proof (mr_root_lt _ _ _ _ _ Hm) as Hlt. apply sim_try_r.
  eapply wpo_mono; [by apply (ensure_mirrored v0 g u s d (d_root d) (root s) [] Hm Hlt Hr)|].
  intros [_|e] d1 (Hm1 & Hden & _ & Hres); [|by intros ? ?].
  eapply (sim_loopM _ _ _ _ (height_inv g u s)); [|split_and!; by [|apply Hden]|by eapply mirrors_fuel].
  clear d d1 Hm Hm1 Hr Hlt Hden Hres. intros [k a] s1 [k' id] d1 (-> & Hk & Hm1 & Ha & Hd & Hmem). simpl in Hk, Ha, Hd, Hmem. subst k'.
  eapply sim_node; [exact Hm1|exact Ha|exact Hd|exact Hmem|]. intros n n' Hn Htw.
  destruct n as [ps chs b|e], n' as [ps' chs' b'|e']; try done; simpl in Htw.
  - destruct Htw as (_ & _ & Hch). apply sim_lift_l. intros c Hc%expect_Ok.
    destruct (Forall2_lookup_r _ _ _ _ _ Hch Hc) as (c' & Hc' & Hcc). eapply sim_lift_r; [by rewrite Hc'|].
    assert (c < length (nodes s)) as Hcl.
    { eapply (mr_kids _ _ _ _ _ Hm1); [exact Hn|by eapply denotes_live|by eapply list_elem_of_lookup_2]. }
    unfold Disk.try_step. apply sim_r. eapply wpo_mono; [by apply (ensure_mirrored v0 g u s d1 c' c [] Hm1)|].
    intros [_|e] d2 (Hm2 & Hden & _ & Hres); [|apply sim_stop; by right]. apply sim_ret.
    eexists. split; [done|]. by split_and!; [| | | |apply Hden|].
  - apply sim_ret. left. eexists. split; [done|]. by split.
Qed.

(** ** The checker

    The budget is no part of what is mirrored. *)
Lemma disk_inv_budget d b : disk_inv d → disk_inv (on_cache (set_c_budget b) d).
Proof using Type. by intros []. Qed.

Lemma mirrors_budget g u s d b : mirrors g u s d → mirrors g u s (on_cache (set_c_budget b) d).
Proof using Type. intros [Hi]. by split; [apply disk_inv_budget|..]. Qed.

Lemma restamp_mirrored g u s d l :
  mirrors g u s d → Forall (λ i, i < length (d_slots d)) l → wpo true (Disk.restamp l) (λ _ d',
    mirrors g u s d' ∧ c_budget (d_cache d') = c_budget (d_cache d)) d.
Proof using All.
  intros Hm Hl. revert d Hm Hl. induction l as [|i l IH]; intros d Hm Hl; [by apply wpo_ret|].
  apply list.Forall_cons in Hl as [Hi Hl]. destruct (lookup_lt_is_Some_2 _ _ Hi) as [sl Hs].
  apply wpo_bind. eapply wpo_slot; [exact Hs|]. apply wpo_bind.
  eapply (wpo_mono _ _ (λ _ d1, mirrors g u s d1 ∧ length (d_slots d) ≤ length (d_slots d1) ∧
    c_budget (d_cache d1) = c_budget (d_cache d))).
  - destruct sl; [|by apply wpo_ret..]. eapply wpo_mono; [by apply (touch_ov true (λ _, True)); [apply Hm|..]|].
    intros _ d1 (Hi1 & Hr1 & _). split; [by eapply mirrors_refreshes|].
    split; [by eapply refreshes_length|apply Hr1].
  - intros _ d1 (Hm1 & Hlen & <-). apply IH; [done|]. eapply Forall_impl; [exact Hl|]. simpl. lia.
Qed.

(** [check_invariants_full] accepts. *)
Lemma check_full_mirrored g u s d t h m n :
  mirrors g u s d → tree_inv s t h m n → dev_reliable v0 →
  wpo true Disk.check_invariants_full (λ r d', r = ROk tt ∧ mirrors g u s d' ∧
    c_budget (d_cache d') = c_budget (d_cache d)) d.
Proof using All.
  intros Hm Ht Hrel. unfold Disk.check_invariants_full. apply wpo_bind, wpo_get, wpo_bind, wpo_modify, wpo_bind.
  eapply wpo_mono; [by apply (load_all_mirrored g u s _ t h m n); [apply mirrors_budget|..]|].
  intros [[]|e] d1 [Hm1 Hres]; [|by destruct Hres as (? & _ & [])].
  apply wpo_bind, wpo_ret, wpo_bind, wpo_get, wpo_bind. eapply wpo_lift; [by eapply resident_check|].
  apply wpo_bind, wpo_modify. apply (mirrors_budget _ _ _ _ (c_budget (d_cache d))) in Hm1. apply wpo_bind.
  set (d2 := on_cache _ d1) in *. eapply (wpo_mono _ _ (λ _ d3, mirrors g u s d3 ∧ c_budget (d_cache d3) = c_budget (d_cache d))).
  - change (c_budget (d_cache d)) with (c_budget (d_cache d2)). clearbody d2. destruct (c_budget _) eqn:Eb; [|by apply wpo_ret]. rewrite -Eb. apply wpo_bind, wpo_get, restamp_mirrored; [done|].
    apply list.Forall_forall. intros i Hi%elem_of_seq. lia.
  - intros _ d3 [Hm3 <-]. apply wpo_bind. eapply wpo_mono; [by apply enforce_budget_ov; [apply Hm3|..]|].
    intros _ d4 (Hi4 & Hr4 & _). apply wpo_ret. split; [done|].
    split; [by eapply mirrors_refreshes|apply Hr4].
Qed.
End check.
