(* ===== verification/DiskMap.v ===== *)
(** * The disk engine implements the finite map

    What a disk engine holds is what the in-memory engine it mirrors holds:
    mutations and reads reply as the abstract map, or end in a failure of
    the storage or the overflow of a counter. *)

From S2P Require Export MirrorEngine.
From stdpp Require Import options.
From Stdlib Require Import ZArith.

Section map.
Context {V P : Type} `{DeviceLaws V} `{CodecLaws} `{LawfulPolicy P} `{!BlindPolicy P}.
Notation E := (DiskEngine V P).
Implicit Types (d : E) (s : BeTree P).

(** The engine [d] holds the map [m] after [n] mutations. *)
Definition holds d (m : BTreeMap Value) (n : Z) : Prop := ∃ s, mirrored (d_vfs d) s d ∧ Inv s m n.

Lemma mirrored_rebase v0 s d : mirrored v0 s d → mirrored (d_vfs d) s d.
Proof using All.
  intros (g & u & Hm & Hu). exists g, u. split; [|done]. destruct Hm. split; try done. by apply dev_same_refl, mr_inv.
Qed.

Lemma mirrored_ops v0 s d : mirrored v0 s d → ops_of (rec_v2 (d_trace d)) = ops_of (rec_v2 (trace s)).
Proof using All. intros (g & u & Hm & _). apply Hm. Qed.

(** What a call that succeeds leaves: the engine [s'] that [d'] mirrors, its
    contents, and the trace. *)
Record call_done d d' s' (m : BTreeMap Value) (n : Z) (ops : list (Z * OpKind2)) : Prop := {
  cd_mirrored : mirrored (d_vfs d') s' d';
  cd_inv : Inv s' m n;
  cd_same : dev_same (d_vfs d) (d_vfs d');
  cd_trace : ops_of (rec_v2 (d_trace d')) = ops_of (rec_v2 (d_trace d)) ++ ops;
}.

Lemma mirrored_done d d' s s' m n ops :
  mirrored (d_vfs d) s d → mirrored (d_vfs d) s' d' → Inv s' m n →
  ops_of (rec_v2 (trace s')) = ops_of (rec_v2 (trace s)) ++ ops → call_done d d' s' m n ops.
Proof using All.
  intros Hm Hm' HI Ht. split; [by eapply mirrored_rebase|done|by destruct Hm' as (g & u & [] & _)|].
  by rewrite (mirrored_ops _ _ _ Hm') Ht (mirrored_ops _ _ _ Hm).
Qed.

(** A mutation refuses to reuse a seqno. *)
Lemma mutate_exhausted d s op m n :
  mirrored (d_vfs d) s d → Inv s m n → (u64_max ≤ n)%Z → wpo true (mutate op) (λ r _, match r with
    | ROk _ => False | RErr e => storage_failed (d_vfs d) e end) d.
Proof using All.
  intros (g & u & Hm & Hu) (t & h & Ht) Hn. rewrite mutate_eq. apply wpo_try. unfold Disk.next_op.
  pose proof (mr_root _ _ _ _ _ Hm) as Hr. pose proof (mr_root_lt _ _ _ _ _ Hm) as Hlt.
  apply wpo_bind, wpo_get, wpo_try.
  eapply wpo_mono; [by apply (ensure_mirrored _ g u s d (d_root d) (root s) [] Hm Hlt Hr)|].
  intros [_|e] d1 (Hm1 & _ & _ & Hres); [|done]. apply wpo_bind, wpo_get, wpo_bind.
  assert (u64_add (d_next_seq d1) 1 = Overflow) as Eo.
  { rewrite (mr_seq _ _ _ _ _ Hm1) (ti_next_seq _ _ _ _ _ Ht). unfold u64_add. by rewrite (proj2 (Z.leb_gt _ _)); [lia|]. }
  unfold wpo, lift. by rewrite Eo.
Qed.

(** Each call, with the call of the mirrored engine. *)
Lemma mutate_done (p : P) d s op m n :
  mirrored (d_vfs d) s d → Inv s m n → wpo true (mutate op) (λ r d', match r with
    | ROk _ => ∃ s', run_op (H := engine_with p) op s = Ok (tt, s') ∧
        call_done d d' s' (spec_op op m) (n + 1) [((n + 1)%Z, op)]
    | RErr e => storage_failed (d_vfs d) e
    end) d.
Proof using All.
  intros Hm HI. destruct (Z.lt_ge_cases n u64_max) as [Hn|Hn].
  - destruct (mutate_spec op s m n HI Hn) as ([] & s' & Hrun & HI' & Htr).
    eapply wpo_mono; [apply (sim_mutate (d_vfs d) op s d); [by destruct HI as (? & ? & [])|exact Hm|exact Hrun]|].
    intros [[]|e] d'; [|done]. intros Hm'. exists s'. split; [by rewrite run_op_eq|exact (mirrored_done _ _ _ _ _ _ _ Hm Hm' HI' Htr)].
  - eapply wpo_mono; [by eapply mutate_exhausted|]. by intros [[]|e].
Qed.

Lemma get_done d s key m n :
  mirrored (d_vfs d) s d → Inv s m n → wpo true (Disk.try_get key) (λ r d', match r with
    | ROk v => v = m !! key ∧ ∃ s', BeTree.get key s = Ok (v, s') ∧ call_done d d' s' m n []
    | RErr e => storage_failed (d_vfs d) e
    end) d.
Proof using All.
  intros Hm HI. destruct (get_spec key s m n HI) as (v & s' & Hrun & -> & HI' & Htr).
  eapply wpo_mono; [apply (sim_get (d_vfs d) key s d Hm _ _ Hrun)|].
  intros [v|e] d'; [|done]. intros [-> Hm']. split; [done|]. exists s'. split; [done|].
  eapply mirrored_done; [done..|]. by rewrite Htr ops_of_app.
Qed.

Lemma scan_done d s lo hi m n :
  mirrored (d_vfs d) s d → Inv s m n → wpo true (Disk.try_scan lo hi) (λ r d', match r with
    | ROk l => l = spec_scan lo hi m ∧ ∃ s', BeTree.scan lo hi s = Ok (ROk l, s') ∧ call_done d d' s' m n []
    | RErr e => storage_failed (d_vfs d) e
    end) d.
Proof using All.
  intros Hm HI. destruct (scan_spec lo hi s m n HI) as (r & s' & Hrun & -> & HI' & Htr).
  eapply wpo_mono; [apply (sim_scan (d_vfs d) lo hi s d Hm _ _ Hrun)|].
  intros [l|e] d'; [|done]. intros [[= <-] Hm']. split; [done|]. exists s'. split; [done|].
  eapply mirrored_done; [done..|]. by rewrite Htr ops_of_app.
Qed.
End map.
