(* ===== verification/MirrorOpen.v ===== *)
(** * Opening a file as a mirror

    The engine that [open] returns on a committed image mirrors an arena
    built from the committed tree: its nodes in preorder, each in the record
    at its offset. *)

From S2P Require Export DiskMap MirrorCommit Reopen.
From stdpp Require Import options.
From Stdlib Require Import ZArith.

(** ** The records of a tree, node by node *)
Section layout.
Context `{CodecLaws}.

Lemma spread_length buf w t off l : spread buf w t off l → length l = length (ids t).
Proof using Type.
  revert off l. induction t as [i e|i ps ks b IH] using tree_nested_ind; intros off l Hs; inversion Hs; subst; [done|].
  rewrite ids_TInt. cbn [length]. f_equal. match goal with Hk : Forall3 _ ks _ _ |- _ => rename Hk into Hks end.
  clear -IH Hks. induction Hks as [|k o l ks offs ls Hk _ IHk]; [done|]. apply Forall_cons in IH as [IHk' IH].
  cbn [concat]. by rewrite forest_ids_cons !length_app (IHk' _ _ Hk) (IHk IH).
Qed.

Lemma spread_label buf w t off l : spread buf w t off l → (label t, off) ∈ zip (ids t) l.
Proof using Type. inversion 1; subst; rewrite ?ids_TInt; left. Qed.

(** The node [n] in the record [rec], its children placed by [ps]. *)
Definition node_record (places : list (NodeId * Z)) (o : Z) (n : Node) (rec : DiskNode) : Prop :=
  match n, rec with
  | Leaf e, DiskLeaf e' => e' = e
  | Internal ps chs b, DiskInternal ps' offs b' => ps' = ps ∧ b' = b ∧
      length offs = S (length ps) ∧ Forall (λ o', DATA_START ≤ o' < o)%Z offs ∧
      Forall2 (λ o' c, (c, o') ∈ places) offs chs
  | _, _ => False
  end.

Lemma node_record_mono places places' o n rec :
  places ⊆ places' → node_record places o n rec → node_record places' o n rec.
Proof using Type.
  intros Hsub. destruct n, rec; try done. intros (-> & -> & ? & ? & Hch). split_and!; try done.
  eapply Forall2_impl; [exact Hch|]. intros o' c. apply Hsub.
Qed.

Definition recorded_at buf w (places : list (NodeId * Z)) (x : NodeId * Node) : Prop :=
  ∃ o rec len, (x.1, o) ∈ places ∧ holds_record buf w o rec len ∧ node_record places o x.2 rec.

Lemma recorded_at_mono buf w places places' x :
  places ⊆ places' → recorded_at buf w places x → recorded_at buf w places' x.
Proof using Type.
  intros Hsub (o & rec & len & Ho & Hh & Hr). exists o, rec, len. split; [by apply Hsub|].
  split; [done|]. by eapply node_record_mono.
Qed.

Lemma zip_app_eq {A B} (l1 l2 : list A) (k1 k2 : list B) :
  length k1 = length l1 → zip (l1 ++ l2) (k1 ++ k2) = zip l1 k1 ++ zip l2 k2.
Proof using Type. intros Hl. by apply zip_with_app. Qed.

Lemma spread_recorded Q buf w t off l :
  stored Q buf w t off → spread buf w t off l → Forall (recorded_at buf w (zip (ids t) l)) (nodes_of t).
Proof using Type.
  revert off l. induction t as [i e|i ps ks b IH] using tree_nested_ind; intros off l Hst Hsp;
    destruct (stored_record _ _ _ _ _ Hst) as (_ & rec & len & Hh & Hm);
    inversion Hsp as [? ? ? len' Hh'|? ? ? ? offs ? len' ls Hh' Hks]; subst;
    destruct (holds_record_fun _ _ _ _ _ _ _ _ Hh Hh') as [<- ->].
  - constructor; [|done]. exists off, (DiskLeaf e), len. split; [by left|]. by split.
  - destruct Hm as (_ & _ & Hl & Hoffs & Hkst). rewrite ids_TInt.
    set (places := zip (forest_ids ks) (concat ls)).
    assert (Forall (recorded_at buf w places) (forest_nodes ks) ∧
      Forall2 (λ o' c, (c, o') ∈ places) offs (map label ks)) as [Hall Hch].
    { unfold places. clear Hh Hh' Hst Hsp Hl Hoffs places.
      induction Hks as [|k o l ks offs ls Hk Hks IHks]; [by split|].
      apply Forall_cons in IH as [IHk IH]. apply Forall2_cons in Hkst as [Hko Hkst]. destruct (IHks IH Hkst) as [Hall Hch].
      cbn [concat map]. rewrite forest_ids_cons zip_app_eq; [by eapply spread_length|].
      assert (zip (ids k) l ⊆ zip (ids k) l ++ zip (forest_ids ks) (concat ls)) as Hs1 by (intros x; rewrite elem_of_app; auto).
      assert (zip (forest_ids ks) (concat ls) ⊆ zip (ids k) l ++ zip (forest_ids ks) (concat ls)) as Hs2
        by (intros x; rewrite elem_of_app; auto).
      split.
      - unfold forest_nodes. cbn [flat_map]. apply Forall_app. split.
        + eapply Forall_impl; [by apply (IHk o)|]. intros x. by apply recorded_at_mono.
        + eapply Forall_impl; [exact Hall|]. intros x. by apply recorded_at_mono.
      - constructor; [apply Hs1; by eapply spread_label|]. eapply Forall2_impl; [exact Hch|]. intros o' c. apply Hs2. }
    assert (places ⊆ (i, off) :: places) as Hsub by (intros x; rewrite elem_of_cons; auto).
    cbn [nodes_of]. constructor.
    + exists off, (DiskInternal ps offs b), len. split; [by left|]. split; [done|]. split_and!; try done.
      eapply Forall2_impl; [exact Hch|]. intros o' c. apply Hsub.
    + eapply Forall_impl; [exact Hall|]. intros x. by apply recorded_at_mono.
Qed.
End layout.

(** ** Parents *)
Fixpoint parents (t : tree) : list (NodeId * NodeId) :=
  match t with
  | TLeaf _ _ => []
  | TInt id _ ks _ => flat_map (λ k, (label k, id) :: parents k) ks
  end.

Lemma parents_fst t : (label t :: (parents t).*1) ≡ₚ ids t.
Proof.
  induction t as [i e|i ps ks b IH] using tree_nested_ind; [done|]. rewrite ids_TInt. cbn [label parents]. constructor.
  induction IH as [|k ks Hk _ IHk]; [done|]. cbn [flat_map]. rewrite forest_ids_cons fmap_app. cbn [fmap list_fmap fst].
  by rewrite -IHk -Hk.
Qed.

Lemma elem_of_parents t a n c : (a, n) ∈ nodes_of t → c ∈ kids n → (c, a) ∈ parents t.
Proof.
  induction t as [i e|i ps ks b IH] using tree_nested_ind; cbn [nodes_of parents].
  - intros [[= -> ->]|Hx]%elem_of_cons; [by intros ?%not_elem_of_nil|by apply not_elem_of_nil in Hx].
  - intros [[= -> ->]|Hx]%elem_of_cons Hc.
    + cbn [kids] in Hc. apply list_elem_of_fmap in Hc as (k & -> & Hk). apply list_elem_of_In, in_flat_map.
      exists k. split; [by apply list_elem_of_In|]. by left.
    + apply list_elem_of_In, in_flat_map in Hx as (k & Hk & Hx). apply list_elem_of_In, in_flat_map. exists k.
      split; [done|]. right. apply list_elem_of_In. rewrite Forall_forall in IH.
      apply list_elem_of_In in Hk, Hx. by apply (IH k).
Qed.

Lemma nodes_of_NoDup_kids t a n : NoDup (ids t) → (a, n) ∈ nodes_of t → NoDup (kids n).
Proof.
  induction t as [i e|i ps ks b IH] using tree_nested_ind; cbn [nodes_of]; intros Hnd.
  - intros [[= -> ->]|Hx]%elem_of_cons; [constructor|by apply not_elem_of_nil in Hx].
  - rewrite ids_TInt in Hnd. apply NoDup_cons in Hnd as [_ Hnd]. intros [[= -> ->]|Hx]%elem_of_cons.
    + by apply labels_NoDup.
    + apply list_elem_of_In, in_flat_map in Hx as (k & Hk & Hx). rewrite Forall_forall in IH.
      apply list_elem_of_In in Hk, Hx. apply (IH k); [done| |done].
      apply list_elem_of_split in Hk as (l1 & l2 & ->). unfold forest_ids, forest_nodes in Hnd.
      rewrite flat_map_app fmap_app in Hnd. apply NoDup_app in Hnd as (_ & _ & Hnd). cbn [flat_map] in Hnd.
      rewrite fmap_app in Hnd. by apply NoDup_app in Hnd as (? & _).
Qed.

(** ** The arena of a tree *)

(** The position of [i] in [l]. *)
Definition position (l : list NodeId) (i : NodeId) : nat :=
  match list_find (i =.) l with Some (k, _) => k | None => 0 end.

Lemma position_lookup l k i : NoDup l → l !! k = Some i → position l i = k.
Proof.
  intros Hnd Hk. unfold position. destruct (list_find (i =.) l) as [[j x]|] eqn:E.
  - apply list_find_Some in E as (Hj & <- & _). by eapply NoDup_lookup.
  - apply list_find_None in E. rewrite Forall_forall in E. exfalso. apply (E i); [|done]. by eapply list_elem_of_lookup_2.
Qed.

Lemma position_elem l i : NoDup l → i ∈ l → l !! position l i = Some i.
Proof. intros Hnd [k Hk]%list_elem_of_lookup. by rewrite (position_lookup _ _ _ Hnd Hk). Qed.

Section arena.
Context {P : Type} (t : tree) (Hnd : NoDup (ids t)).
Let f := position (ids t).
Let parent : gmap NodeId NodeId := list_to_map (parents t).

(** The in-memory engine whose arena is the tree, in preorder, all clean. *)
Definition arena_of (prm : Params) (n : Z) (policy : P) : BeTree P :=
  mkBeTree prm (map (rename_node f) (nodes_of t).*2) (replicate (length (nodes_of t)) false) 0 n 0 policy
    Recorder_default.

(** The parent of the node at a position. *)
Definition parent_of (a : NodeId) : option NodeId := i ← ids t !! a; p ← parent !! i; Some (f p).

Lemma arena_of_nodes prm n policy a :
  nodes (arena_of prm n policy) !! a = (λ x, rename_node f x.2) <$> nodes_of t !! a.
Proof using Type. simpl. rewrite list_lookup_fmap list_lookup_fmap. by destruct (nodes_of t !! a). Qed.

Lemma ids_lookup a i x : nodes_of t !! a = Some (i, x) → ids t !! a = Some i ∧ f i = a.
Proof using Hnd.
  intros Ha. assert (ids t !! a = Some i) as Hi by (unfold ids; by rewrite list_lookup_fmap Ha).
  split; [done|]. by apply position_lookup.
Qed.

Lemma position_inj i j : i ∈ ids t → j ∈ ids t → f i = f j → i = j.
Proof using Hnd. intros Hi%position_elem Hj%position_elem Hf; [|done..]. unfold f in Hf. congruence. Qed.

Lemma parents_NoDup : NoDup (parents t).*1.
Proof using Hnd. pose proof Hnd as Hn. rewrite -(parents_fst t) in Hn. by apply NoDup_cons in Hn as [_ ?]. Qed.

Lemma parent_of_kid a i x c : nodes_of t !! a = Some (i, x) → c ∈ kids x → parent_of (f c) = Some a.
Proof using Hnd.
  intros Ha Hc. pose proof (elem_of_parents t i x c (list_elem_of_lookup_2 _ _ _ Ha) Hc) as Hp.
  assert (c ∈ ids t) as Hin by (rewrite -parents_fst; right; by apply (list_elem_of_fmap_2 fst) in Hp).
  unfold parent_of. rewrite (position_elem _ _ Hnd Hin) /=.
  assert (parent !! c = Some i) as -> by (apply elem_of_list_to_map; [exact parents_NoDup|done]).
  simpl. f_equal. by eapply ids_lookup.
Qed.

Lemma parent_of_root : parent_of 0 = None.
Proof using Hnd.
  unfold parent_of. assert (ids t !! 0 = Some (label t)) as -> by by destruct t. simpl.
  assert (parent !! label t = None) as ->; [|done]. apply not_elem_of_list_to_map.
  pose proof Hnd as Hn. rewrite -(parents_fst t) in Hn. by apply NoDup_cons in Hn as [? _].
Qed.
End arena.

(** The tree [t] represents the map [m] after [n] mutations. *)
Definition represents (prm : Params) (t : tree) (m : BTreeMap Value) (n : Z) : Prop :=
  legal_params prm = true ∧ NoDup (ids t) ∧ (0 ≤ n)%Z ∧ (∃ h, at_rest prm h t) ∧
  ∀ k, vval (view t k) = m !! k ∧ vbelow (n + 1) (view t k) ∧ vfresh (view t k).

Lemma tree_inv_represents {P} (s : BeTree P) t h m n : tree_inv s t h m n → represents (params s) t m n.
Proof.
  intros [Hl [] Hrest Hm Hb Hn Ho Htr]. split_and!; [done..|lia|by exists h|]. intros k. by split_and!.
Qed.

Lemma arena_inv {P} prm t m n (policy : P) :
  represents prm t m n → Inv (arena_of t prm n policy) m n.
Proof.
  intros (Hl & Hnd & Hn & [h Hrest] & Hk). exists (rename (position (ids t)) t), h. constructor; try done.
  - constructor; try done.
    + by rewrite /wf_dirty /= length_replicate !length_map.
    + simpl. rewrite label_rename. symmetry. apply position_lookup; [done|]. by destruct t.
    + unfold repr. rewrite nodes_of_rename. apply Forall_forall. intros [j x] Hj.
      apply list_elem_of_fmap in Hj as ([i y] & [= -> ->] & [a Ha]%list_elem_of_lookup).
      destruct (ids_lookup t Hnd a i y Ha) as [_ ->]. unfold arena. by rewrite arena_of_nodes Ha.
    + rewrite ids_rename.
      apply NoDup_fmap_2_strong; [|done]. intros i j Hi Hj. by apply position_inj.
    + intros k. rewrite view_rename. apply Hk.
  - by apply at_rest_rename.
  - intros k. rewrite view_rename. apply Hk.
  - intros k. rewrite view_rename. apply Hk.
Qed.

(** ** The mirror *)
Section open.
Context {V P : Type} `{DeviceLaws V} `{CodecLaws} (v0 : V).
Notation E := (DiskEngine V P).
Implicit Types (d : E).
Context (sb : Superblock) (budget : option Z) (policy : P) (t : tree) (l : list Z) d.
Hypothesis Hop : opened sb budget policy d.
Hypothesis Hi : disk_inv d.
Hypothesis Hv : dev_same v0 (d_vfs d).
Hypothesis Hclean : ∀ o, clean_offset d o.
Hypothesis Hst : stored (λ _, True) (file d) (d_watermark d) t (root_offset sb).
Hypothesis Hsp : spread (file d) (d_watermark d) t (root_offset sb) l.
Hypothesis Hl : NoDup l.
Hypothesis Hnd : NoDup (ids t).

Let f := position (ids t).
Let s := arena_of t (sb_params sb) (last_seq sb) policy.
Let g (a : NodeId) : Place := Rec (default 0%Z (l !! a)).

Lemma open_place i o : (i, o) ∈ zip (ids t) l → g (f i) = Rec o.
Proof using Hsp Hnd.
  intros [a Ha]%list_elem_of_lookup. apply lookup_zip_with_Some in Ha as (i' & o' & [= -> ->] & Hai & Hao).
  unfold f. rewrite (position_lookup _ _ _ Hnd Hai). unfold g. by rewrite Hao.
Qed.

Lemma open_length : length (nodes s) = length l.
Proof using Hsp. rewrite (spread_length _ _ _ _ _ Hsp). simpl. unfold ids. by rewrite !length_map. Qed.

Lemma open_node a n : nodes s !! a = Some n → ∃ i x, nodes_of t !! a = Some (i, x) ∧ n = rename_node f x ∧ f i = a.
Proof using Hnd.
  unfold s. rewrite arena_of_nodes. intros ([i x] & Ha & ->)%fmap_Some. exists i, x. split; [done|].
  split; [done|]. by destruct (ids_lookup t Hnd _ _ _ Ha).
Qed.

Lemma open_recorded a i x : nodes_of t !! a = Some (i, x) → ∃ o rec len, g a = Rec o ∧
  holds_record (file d) (d_watermark d) o rec len ∧ recorded g o (rename_node f x) rec.
Proof using Hst Hsp Hnd.
  intros Ha. pose proof (spread_recorded _ _ _ _ _ _ Hst Hsp) as Hall. rewrite Forall_lookup in Hall.
  destruct (Hall _ _ Ha) as (o & rec & len & Ho%open_place & Hh & Hrec). exists o, rec, len.
  destruct (ids_lookup t Hnd _ _ _ Ha) as [_ Hf]. split; [by rewrite -Hf|]. split; [done|].
  destruct x as [ps chs b|e], rec as [ps' offs b'|e']; try done. destruct Hrec as (-> & -> & ? & ? & Hch).
  split_and!; try done. apply Forall2_fmap_r. eapply Forall2_impl; [exact Hch|]. intros o' c. apply open_place.
Qed.

Lemma kids_rename x : kids (rename_node f x) = f <$> kids x.
Proof using Type. by destruct x. Qed.

Lemma open_kid a i x c : nodes_of t !! a = Some (i, x) → c ∈ kids x → c ∈ ids t.
Proof using Type.
  intros Ha%list_elem_of_lookup_2 Hc. destruct x as [ps chs b|]; [|by apply not_elem_of_nil in Hc].
  pose proof (nodes_of_children _ _ _ _ _ Ha) as Hch. rewrite Forall_forall in Hch. by apply Hch.
Qed.

Lemma open_mirrors : mirrors v0 g (parent_of t) s d.
Proof using All.
  assert (g 0 = Rec (root_offset sb)) as Hg0.
  { rewrite -(open_place _ _ (spread_label _ _ _ _ _ Hsp)). f_equal. symmetry. apply position_lookup; [done|]. by destruct t. }
  assert (0 < length l) as Hpos.
  { rewrite (spread_length _ _ _ _ _ Hsp). destruct t; simpl; lia. }
  destruct Hop as [Hpar Hslots Hroot Hseq Hgn Hwm Hpo Hcache Hoffs Hops Hpol Htr].
  split; try done.
  - by rewrite Htr.
  - simpl. by rewrite length_replicate !length_map.
  - intros a n (i & x & Ha & -> & Hf)%open_node. destruct (open_recorded a i x Ha) as (o & rec & len & -> & Hh & Hrec).
    split; [|split; [done|by exists rec, len]]. apply lookup_replicate_2. by eapply lookup_lt_Some.
  - rewrite open_length. intros a a' [o Ho]%lookup_lt_is_Some [o' Ho']%lookup_lt_is_Some. unfold g. rewrite Ho Ho'.
    cbn [default]. intros [= <-]. by apply (NoDup_lookup l a a' o).
  - intros a n c (i & x & Ha & -> & Hf)%open_node _. rewrite kids_rename. intros (c' & -> & Hc)%list_elem_of_fmap.
    split_and!; [|done|by eapply parent_of_kid]. rewrite open_length (spread_length _ _ _ _ _ Hsp).
    pose proof (open_kid _ _ _ _ Ha Hc) as Hin. eapply lookup_lt_Some, position_elem; done.
  - intros a n (i & x & Ha & -> & Hf)%open_node _. rewrite kids_rename. apply NoDup_fmap_2_strong.
    + intros c c' Hc Hc'. apply position_inj; [done|by eapply open_kid..].
    + eapply nodes_of_NoDup_kids; [done|]. by eapply list_elem_of_lookup_2.
  - rewrite Hoffs. intros o id sl [<- <-]%lookup_singleton_Some _ _. exists 0. rewrite open_length. by split.
  - rewrite Hoffs Hslots. intros o id [<- <-]%lookup_singleton_Some. by eexists.
  - unfold denotes. rewrite Hg0 Hoffs Hroot. by rewrite lookup_singleton_eq.
  - by rewrite open_length.
Qed.
End open.
