(* ===== verification/Store.v ===== *)
(** * The disk engine as a store

    What a disk engine promises to its user: it holds a map, of which the
    last commit saved a version; calls act on the map it holds, a commit
    saves it, and opening what a crash leaves brings the saved version
    back. *)

From S2P Require Export MirrorOpen MirrorCheck ReadOnly.
From stdpp Require Import options.
From Stdlib Require Import ZArith.

(** A map and the number of mutations that made it. *)
Notation version := (BTreeMap Value * Z)%type.

Section store.
Context {V P : Type} `{DeviceLaws V} `{CodecLaws} `{LawfulPolicy P} `{!BlindPolicy P}.
Notation E := (DiskEngine V P).
Implicit Types (d : E) (c : version) (v : V).

(** The superblock [sb], not the last of all, and the tree [t] save the
    version [c]. *)
Definition saves (sb : Superblock) (t : tree) c : Prop :=
  represents (sb_params sb) t c.1 c.2 ∧ last_seq sb = c.2 ∧ (Format.generation sb < u64_max)%Z.

(** An image from which [open] brings back the version [c]. *)
Definition image_of c (img : list byte) : Prop :=
  ∃ sb t, committed img sb t ∧ saves sb t c.

(** The last commit of [d] saved the version [c0]. *)
Definition saved d c0 : Prop := ∃ sb t, durable d sb t ∧ saves sb t c0.

(** The engine [d] holds the version [c]; the last commit saved [c0]. *)
Definition store d c0 c : Prop := holds d c.1 c.2 ∧ saved d c0.

(** The same, and [s] is an in-memory engine that [d] mirrors. *)
Record twin d (s : BeTree P) c0 c : Prop := {
  tw_mirrored : mirrored (d_vfs d) s d;
  tw_inv : Inv s c.1 c.2;
  tw_saved : saved d c0;
}.

Lemma store_twin d c0 c : store d c0 c ↔ ∃ s, twin d s c0 c.
Proof using All.
  split; [intros [(s & Hm & HI) Hs]; by exists s|]. intros (s & [Hm HI Hs]). split; [by exists s|done].
Qed.

Lemma store_wf d c0 c : store d c0 c → dev_wf (d_vfs d).
Proof using All. intros ((s & (g & u & Hm & _) & _) & _). apply di_dev, Hm. Qed.

(** ** Calls that do not commit *)
Lemma durable_reading d d' sb t :
  durable d sb t → reading d d' → dev_same (d_vfs d) (d_vfs d') → durable d' sb t.
Proof using All.
  intros [Hh Hp Hi Hv Hg Hw] [_ Hrw Hrg _ _] Hs. split; rewrite ?Hrw ?Hrg //.
  - by apply (same_healthy _ _ Hs).
  - by rewrite (same_pending _ _ Hs).
  - intros img Himg. by apply Hi, (same_images _ _ Hs).
  - unfold file. by rewrite (same_view _ _ Hs).
Qed.

(** A call that only reads the device keeps what is saved. *)
Lemma saved_reads {A} (m : M E A) d a d' c0 :
  reads_only m → saved d c0 → m d = Ok (a, d') → dev_same (d_vfs d) (d_vfs d') → saved d' c0.
Proof using All.
  intros Hm (sb & t & Hd & Hs) Hr Hsame. exists sb, t. split; [|done].
  eapply durable_reading; [done| |done]. by eapply (ro_run m Hm).
Qed.

Lemma ro_mutate op : reads_only (V := V) (P := P) (mutate op).
Proof using Type. destruct op; [apply ro_try_insert|apply ro_try_delete|apply ro_try_upsert]. Qed.

(** ** [commit] *)

(** The slot that the commit of [d] writes is found with bytes that are
    neither the old nor the new ones, and carry their own checksum. *)
Definition torn_collision d (img : list byte) : Prop := ∃ sb new,
  Format.generation sb = d_next_generation d ∧ status_of (decode_slot new) = Valid sb ∧
  let off := slot_of (d_next_generation d) in
  collision (slot_bytes_at (file d) off) new (slot_bytes_at img off).

(** The images that a crash during the commit of [d] can leave. *)
Definition commit_image d c0 c (img : list byte) : Prop :=
  image_of c0 img ∨ image_of c img ∨ torn_collision d img.

Lemma saves_tree sb t c (s : BeTree P) h :
  tree_inv s t h c.1 c.2 → sb_params sb = params s → last_seq sb = next_seq s → (Format.generation sb < u64_max)%Z →
  saves sb t c.
Proof using Type.
  intros Ht Hp Hs Hg. split_and!; [|by rewrite Hs; apply Ht|done]. rewrite Hp. by eapply tree_inv_represents.
Qed.

Lemma safe_commit_image d sb t0 t c0 c (s : BeTree P) h img :
  durable d sb t0 → commit_room d → saves sb t0 c0 → tree_inv s t h c.1 c.2 → d_params d = params s → d_next_seq d = next_seq s →
  safe d sb t0 t img → commit_image d c0 c img.
Proof using Type.
  intros Hd Hroom Hs0 Ht Hp Hn. pose proof (cr_generation _ Hroom) as Hg. rewrite (du_generation _ _ _ Hd) in Hg.
  intros [Hc|(sb' & new & Hg' & Hs' & Hp' & Hnew & [Hc|Hcol])].
  - left. by exists sb, t0.
  - right; left. exists sb', t. split; [done|]. eapply saves_tree; [done|congruence|congruence|lia].
  - right; right. exists sb', new. rewrite (du_generation _ _ _ Hd) -Hg'. by split_and!.
Qed.

(** A commit saves what the engine holds.  Whatever it returns, a crash
    until then leaves the version saved before or the one being saved. *)
Lemma store_commit d c0 c :
  store d c0 c → commit_room d → wp DiskCommit.commit (λ r d',
    crashes (d_vfs d) (d_vfs d') (commit_image d c0 c) ∧
    d_poisoned d' = match r with ROk _ => false | RErr _ => true end ∧
    match r with
    | ROk stats => store d' c c ∧ dev_bytes (d_vfs d') = (dev_bytes (d_vfs d) + bytes_written stats)%Z ∧
        (dev_reliable (d_vfs d) → dev_reliable (d_vfs d'))
    | RErr e => write_error e ∨ io_error d e
    end) d.
Proof using All.
  intros ((s & (g & u & Hm & Hu) & t & h & Ht) & sb & t0 & Hd & Hs0) Hroom.
  eapply wp_mono; [by eapply commit_mirrored|]. intros r d' ((Hcr & Hpost) & Hpo & Hmir).
  assert (d_params d = params s) as Hp by apply Hm. assert (d_next_seq d = next_seq s) as Hn by apply Hm.
  split_and!; [|done|].
  - eapply crashes_weaken; [exact Hcr|]. intros img. by eapply safe_commit_image.
  - destruct r as [stats|e]; [|done]. destruct Hpost as (sb' & Hg' & Hs' & Hp' & Hd' & _ & _ & _ & _ & _ & _ & Hby).
    split; [|exact Hby]. split.
    + exists (simulated s t). split; [by eapply mirrored_rebase|]. exists t, h. by apply tree_inv_cleaned.
    + exists sb', t. split; [done|]. pose proof (cr_generation _ Hroom). pose proof (du_generation _ _ _ Hd).
      eapply saves_tree; [done|congruence|congruence|lia].
Qed.

(** ** [open] *)
Lemma open_store v c budget (policy : P) :
  dev_wf v → dev_healthy v → dev_pending v = [] →
  (∀ img, dev_images v img → img = dev_view v) → image_of c (dev_view v) →
  ∃ r, open_on_with v budget policy = Ok r ∧ match r with
    | ROk d => store d c c ∧ d_policy d = policy ∧ ops_of (rec_v2 (d_trace d)) = []
    | RErr e => storage_failed v e
    end.
Proof using All.
  intros Hwf Hh Hp Himg (sb & t & Hc & Hsv). pose proof Hsv as (Hrep & Hseq & Hg). pose proof (committed_recovers _ _ _ Hc) as Hrec.
  destruct (open_spec v budget policy Hwf) as (r & Hopen & Hr); [rewrite Hrec; by intros ? [= <-]|].
  exists r. split; [done|]. destruct r as [d|e]; [|destruct e; by (congruence || eexists)].
  destruct Hr as (sb' & Hrec' & Hset & Hop). rewrite Hrec in Hrec'. injection Hrec' as <-.
  destruct (opened_inv v sb budget policy d Hwf Hrec Hset Hop) as (Hi & Hcl & _).
  assert (durable d sb t) as Hd.
  { eapply settles_durable; [done..| |done|by apply Hop|by apply Hop]. by intros img ->%Himg. }
  destruct (cm_tree _ _ _ (du_view _ _ _ Hd)) as (Hst & l & Hsp & Hl).
  rewrite -(op_watermark _ _ _ _ Hop) in Hst, Hsp. pose proof Hrep as (_ & Hnd & _).
  split_and!; [|by apply Hop|by rewrite (op_trace _ _ _ _ Hop)]. split; [|exists sb, t; by split].
  eexists. split; [|by apply (arena_inv (sb_params sb) t c.1 c.2 policy)].
  rewrite -Hseq. eexists _, _. split; [|by apply parent_of_root].
  by apply (open_mirrors (d_vfs d) sb budget policy t l d Hop Hi (dev_same_refl _ (di_dev _ Hi))).
Qed.

(** ** One call *)

(** A call of the fallible interface. *)
Definition try_call (k : Call) : M E (Result Reply DiskError) :=
  match k with
  | COp op => _ ←? mutate op; mret (ROk RUnit)
  | CGet key => v ←? Disk.try_get key; mret (ROk (RValue v))
  | CScan lo hi => l ←? Disk.try_scan lo hi; mret (ROk (REntries (ROk l)))
  end.

(** The version that a call leads to. *)
Definition called (k : Call) c : version :=
  ((spec_call k c.1).2, (c.2 + Z.of_nat (length (calls_ops [k])))%Z).
Definition called_all (ks : list Call) c : version :=
  ((spec_calls ks c.1).2, (c.2 + Z.of_nat (length (calls_ops ks)))%Z).

(** What a call that does not fail replies and leaves. *)
Record call_post d c0 c (k : Call) (r : Reply) d' : Prop := {
  cp_reply : r = (spec_call k c.1).1;
  cp_store : store d' c0 (called k c);
  cp_same : dev_same (d_vfs d) (d_vfs d');
  cp_trace : ops_of (rec_v2 (d_trace d')) = ops_of (rec_v2 (d_trace d)) ++ number_ops c.2 (calls_ops [k]);
}.

(** What a method run from [d] gives, with the fact that it ran. *)
Lemma wpo_eqn {A} (m : M E A) (Q : A → E → Prop) d :
  wpo true m Q d → wpo true m (λ a d', m d = Ok (a, d') ∧ Q a d') d.
Proof using Type. unfold wpo. by destruct (m d) as [[a d']| | |]. Qed.

(** The in-memory engine under the policy [p] replies the same. *)
Definition mem_call (p : P) (k : Call) : M (BeTree P) Reply := run_call (H := engine_with p) k.

Lemma call_done_twin {A} (m : M E A) a d s' c0 c k r d' :
  reads_only m → saved d c0 → m d = Ok (a, d') → r = (spec_call k c.1).1 →
  call_done d d' s' (called k c).1 (called k c).2 (number_ops c.2 (calls_ops [k])) →
  call_post d c0 c k r d' ∧ twin d' s' c0 (called k c).
Proof using All.
  intros Hm Hs Hr Hk [Hmir HI Hsame Ht]. assert (saved d' c0) as Hs' by by eapply saved_reads.
  split; [|by split]. split; [done| |done|done]. split; [by exists s'|done].
Qed.

Lemma try_call_twin (p : P) d s c0 c (k : Call) :
  twin d s c0 c → wpo true (try_call k) (λ r d', match r with
    | ROk r => call_post d c0 c k r d' ∧ ∃ s', mem_call p k s = Ok (r, s') ∧ twin d' s' c0 (called k c)
    | RErr e => storage_failed (d_vfs d) e
    end) d.
Proof using All.
  intros [Hm HI Hs]. destruct c as [m n], k as [op|key|lo hi]; cbn [try_call]; apply wpo_try.
  - eapply wpo_mono; [by apply wpo_eqn, (mutate_done p d s op m n)|]. intros [u|e] d' [Hrun Hr]; [|done]. apply wpo_ret.
    destruct Hr as (s' & Hs' & Hdone).
    destruct (call_done_twin _ _ d s' c0 (m, n) (COp op) RUnit d' (ro_mutate op) Hs Hrun) as [Hp Ht]; [done..|].
    split; [done|]. exists s'. split; [|done]. unfold mem_call, run_call, mbind, M_bind. by rewrite Hs'.
  - eapply wpo_mono; [by apply wpo_eqn, (get_done d s key m n)|]. intros [x|e] d' [Hrun Hr]; [|done]. apply wpo_ret.
    destruct Hr as (-> & s' & Hs' & Hdone). rewrite -(Z.add_0_r n) in Hdone.
    destruct (call_done_twin _ _ d s' c0 (m, n) (CGet key) (RValue (m !! key)) d' (ro_try_get key) Hs Hrun) as [Hp Ht]; [done..|].
    split; [done|]. exists s'. split; [|done]. unfold mem_call, run_call, mbind, M_bind. cbn [kv_get engine_with]. by rewrite Hs'.
  - eapply wpo_mono; [by apply wpo_eqn, (scan_done d s lo hi m n)|]. intros [x|e] d' [Hrun Hr]; [|done]. apply wpo_ret.
    destruct Hr as (-> & s' & Hs' & Hdone). rewrite -(Z.add_0_r n) in Hdone.
    destruct (call_done_twin _ _ d s' c0 (m, n) (CScan lo hi) (REntries (ROk (spec_scan lo hi m))) d'
      (ro_try_scan lo hi) Hs Hrun) as [Hp Ht]; [done..|].
    split; [done|]. exists s'. split; [|done]. unfold mem_call, run_call, mbind, M_bind. cbn [kv_scan engine_with]. by rewrite Hs'.
Qed.

Lemma try_call_store d c0 c (k : Call) :
  store d c0 c → wpo true (try_call k) (λ r d', match r with
    | ROk r => call_post d c0 c k r d'
    | RErr e => storage_failed (d_vfs d) e
    end) d.
Proof using All.
  intros (s & Ht)%store_twin. eapply wpo_mono; [by apply (try_call_twin (d_policy d) d s)|].
  intros [r|e] d'; [|done]. by intros [].
Qed.

(** ** The checker and the probes *)
Lemma twin_reads {A} (m : M E A) a d s d' c0 c :
  reads_only m → twin d s c0 c → m d = Ok (a, d') → mirrored (d_vfs d) s d' → twin d' s c0 c.
Proof using All.
  intros Hm [_ HI Hs] Hr Hmir. split; [by eapply mirrored_rebase|done|]. eapply saved_reads; [exact Hm|done..|].
  destruct Hmir as (g & u & Hmir & _). apply Hmir.
Qed.

Lemma store_check d c0 c :
  store d c0 c → dev_reliable (d_vfs d) → wpo true Disk.check_invariants_full (λ r d',
    r = ROk tt ∧ store d' c0 c ∧ c_budget (d_cache d') = c_budget (d_cache d)) d.
Proof using All.
  intros (s & Ht)%store_twin Hrel. pose proof Ht as [(g & u & Hm & Hu) (t & h & HI) _].
  eapply wpo_mono; [by eapply wpo_eqn, check_full_mirrored|]. intros r d' (Hrun & -> & Hm' & Hb).
  split_and!; [done| |done]. apply store_twin. exists s.
  eapply twin_reads; [apply ro_check_invariants_full|done..|by exists g, u].
Qed.

Lemma height_twin d s c0 c :
  twin d s c0 c → wpo true Disk.height (λ r d', match r with
    | ROk k => BeTree.height s = Ok (k, s) ∧ twin d' s c0 c
    | RErr e => storage_failed (d_vfs d) e
    end) d.
Proof using All.
  intros Ht. pose proof Ht as [(g & u & Hm & Hu) (t & h & HI) _].
  destruct (height_spec s t h _ _ HI) as (k & s' & Hk & -> & _).
  eapply wpo_mono; [by apply wpo_eqn, (sim_height (d_vfs d) g u s d Hm _ _ Hk)|]. intros [k'|e] d' [Hrun Hr]; [|done].
  destruct Hr as [-> Hm']. split; [done|]. eapply twin_reads; [apply ro_height|done..|by exists g, u].
Qed.

Lemma live_node_count_twin (p : P) d s c0 c :
  twin d s c0 c → wpo true Disk.live_node_count (λ r d', match r with
    | ROk k => twin d' s c0 c ∧ ∃ fork : BeTree P, fork_for_sim s p = Ok fork ∧ k = Z.of_nat (node_count fork)
    | RErr e => storage_failed (d_vfs d) e
    end) d.
Proof using All.
  intros Ht. pose proof Ht as [(g & u & Hm & Hu) (t & h & HI) _]. unfold Disk.live_node_count. apply wpo_try.
  eapply wpo_mono; [by apply wpo_eqn, (live_walk_mirrored (d_vfs d) g u s d t h _ _ Hm HI)|].
  intros [[k b]|e] d' (Hrun & Hm' & Hr); [|done]. apply wpo_ret.
  split; [eapply twin_reads; [apply ro_live_walk|done..|by exists g, u]|].
  destruct (fork_spec s t h _ _ p HI) as (fork & f & Hf & _ & Hc & _). exists fork. split; [done|]. by rewrite Hc.
Qed.

(** ** Histories through the interface

    On a device whose calls cannot fail the engine replies what the map
    replies, or ends in the overflow of a counter. *)
#[local] Existing Instance Disk.engine.

(** The infallible call is the fallible one that must not fail. *)
Lemma run_call_try (k : Call) (Q : Reply → E → Prop) d :
  wpo true (try_call k) (λ r d', ∃ a, r = ROk a ∧ Q a d') d → wpo true (run_call (E := E) k) Q d.
Proof using Type.
  unfold wpo, mbind, M_bind. destruct k as [[]| |]; cbn; unfold Disk.unwrap, try_, mbind, M_bind;
    match goal with |- context [match ?m ?x with _ => _ end] => destruct (m x) as [[[a|e] d']| | |]; cbn end;
    naive_solver.
Qed.

Lemma store_call d c0 c (k : Call) :
  store d c0 c → dev_reliable (d_vfs d) → wpo true (run_call (E := E) k) (call_post d c0 c k) d.
Proof using All.
  intros Hst Hrel. apply run_call_try. eapply wpo_mono; [by apply try_call_store|].
  intros [r|e] d' Hr; [by exists r|]. by destruct Hr as (e' & _ & Hn).
Qed.

Lemma called_all_cons k ks c : called_all (k :: ks) c = called_all ks (called k c).
Proof using Type.
  unfold called_all, called. cbn [spec_calls fst snd]. destruct (spec_call k c.1) as [r m]. cbn [fst snd].
  destruct (spec_calls ks m) as [rs m']. cbn [snd]. f_equal.
  change (k :: ks) with ([k] ++ ks). unfold calls_ops. rewrite omap_app length_app. lia.
Qed.

Lemma store_calls d c0 c ks :
  store d c0 c → dev_reliable (d_vfs d) → wpo true (run_calls ks) (λ rs d',
    rs = (spec_calls ks c.1).1 ∧ store d' c0 (called_all ks c) ∧
    ops_of (rec_v2 (d_trace d')) = ops_of (rec_v2 (d_trace d)) ++ number_ops c.2 (calls_ops ks)) d.
Proof using All.
  revert d c. induction ks as [|k ks IH]; intros d c Hst Hrel; cbn [run_calls].
  { apply wpo_ret. split_and!; [done| |by rewrite app_nil_r]. unfold called_all. rewrite /= Z.add_0_r. by destruct c. }
  apply wpo_bind. eapply wpo_mono; [by apply store_call|]. intros r d1 [-> Hst1 Hs1 Ht1].
  apply wpo_bind. eapply wpo_mono; [apply IH; [done|by apply (same_reliable _ _ Hs1)]|]. intros rs d2 (-> & Hst2 & Ht2). apply wpo_ret.
  rewrite called_all_cons. split_and!; [|done|].
  - cbn [spec_calls]. unfold called. cbn [fst]. destruct (spec_call k c.1) as [r m]. cbn [fst snd].
    by destruct (spec_calls ks m).
  - rewrite Ht2 Ht1 -app_assoc. f_equal. change (k :: ks) with ([k] ++ ks). unfold calls_ops at 3.
    by rewrite omap_app number_ops_app.
Qed.
End store.
