(* ===== verification/Create.v ===== *)
(** * Creating a file

    [create_on_with] on an empty device commits the empty map: its first
    commit has no earlier one to fall back on, and is followed here step by
    step. *)

From S2P Require Export Store MirrorCost.
From stdpp Require Import options.
From Stdlib Require Import ZArith.

Local Open Scope Z_scope.

(** A slot that was never written carries no superblock. *)
Class BlankSlot `{Codec} : Prop := {
  blank_slot : status_of (decode_slot (replicate (Z.to_nat SUPERBLOCK_SLOT_SIZE) x00)) = Invalid;
}.

(** The parameters fit the superblock. *)
Definition storable (prm : Params) : Prop :=
  u64_ok (Z.of_nat (fanout prm)) ∧ u64_ok (Z.of_nat (buffer_capacity prm)) ∧ u64_ok (Z.of_nat (leaf_capacity prm)).

Notation root_leaf := (TLeaf 0 ∅).

Section create.
Context {V P : Type} `{DeviceLaws V} `{CodecLaws} `{LawfulPolicy P} `{!BlindPolicy P}.
Notation E := (DiskEngine V P).
Implicit Types (d : E) (v : V).

(** The engine that [create] commits: everything but its device. *)
Record fresh (prm : Params) (policy : P) d : Prop := {
  fr_params : d_params d = prm;
  fr_slots : ∃ tick, d_slots d = [Loaded (Leaf ∅) true None (est_bytes (Leaf ∅)) tick];
  fr_root : d_root d = 0%nat;
  fr_seq : d_next_seq d = 0;
  fr_generation : d_next_generation d = 0;
  fr_watermark : d_watermark d = DATA_START;
  fr_poisoned : d_poisoned d = false;
  fr_offsets : d_offsets d = ∅;
  fr_ops : d_ops_since_commit d = 0;
  fr_policy : d_policy d = policy;
  fr_trace : d_trace d = Recorder_default;
  fr_bytes : c_bytes (d_cache d) = est_bytes (Leaf ∅);
  fr_resident : c_resident (d_cache d) = 1%nat;
  fr_tick : 0 ≤ c_tick (d_cache d) ≤ 1;
  fr_lru : Forall (λ x, x.1 = 0%nat) (c_lru (d_cache d)) ∧ (length (c_lru (d_cache d)) ≤ 1)%nat;
  fr_evictions : c_evictions (d_cache d) = 0;
  fr_overcommit : c_overcommit_events (d_cache d) = 0;
}.

Lemma fresh_vfs prm policy d v : fresh prm policy d → fresh prm policy (set_d_vfs v d).
Proof using Type. by intros []. Qed.

Lemma touch_fresh v prm budget (policy : P) :
  wp (touch 0) (λ _ d, fresh prm policy d ∧ d_vfs d = v)
    (mkDisk prm v [Loaded (Leaf ∅) true None (est_bytes (Leaf ∅)) 0] 0 0 0 DATA_START false
      (mkCache budget (est_bytes (Leaf ∅)) 1 0 [] 0 0 0 0) ∅ 0 policy Recorder_default).
Proof using Type.
  unfold touch. apply wp_bind, wp_get. destruct budget as [b|]; simpl.
  - eexists tt, _. split; [reflexivity|]. split; [|done]. split; simpl; try done; first [by eexists|by repeat constructor|lia].
  - apply wp_ret. split; [|done]. split; simpl; try done; first [by eexists|by repeat constructor|lia].
Qed.

(** ** What the engine represents *)
Section fresh.
Context (prm : Params) (policy : P) d.
Hypothesis Hf : fresh prm policy d.

Lemma fresh_slot id s : d_slots d !! id = Some s →
  id = 0%nat ∧ ∃ tick, s = Loaded (Leaf ∅) true None (est_bytes (Leaf ∅)) tick.
Proof using Hf. destruct (fr_slots _ _ _ Hf) as [tick ->]. intros [-> <-]%list_lookup_singleton_Some. eauto. Qed.

Lemma fresh_cached : cached d root_leaf (d_root d).
Proof using Hf. destruct (fr_slots _ _ _ Hf) as [tick E]. rewrite (fr_root _ _ _ Hf). eapply cached_leaf. by rewrite E. Qed.

Lemma fresh_dirty : dirty_post (d_slots d) root_leaf (d_root d) = [0%nat].
Proof using Hf. destruct (fr_slots _ _ _ Hf) as [tick E]. by rewrite (fr_root _ _ _ Hf) E. Qed.

Lemma fresh_unshared : unshared d root_leaf (d_root d).
Proof using Hf.
  destruct (fr_slots _ _ _ Hf) as [tick E]. rewrite (fr_root _ _ _ Hf). exists []. split; [|constructor].
  eapply scattered_leaf. by rewrite E.
Qed.

Lemma fresh_connected : connected d.
Proof using Hf. by intros id n off b t c (_ & tick & [=])%fresh_slot. Qed.

Lemma fresh_room : legal_params prm = true → storable prm → commit_room d.
Proof using Hf.
  intros Hl (H1' & H2' & H3'). destruct (fr_slots _ _ _ Hf) as [tick E]. destruct Hf. destruct fr_lru0 as [_ Hlru].
  assert (u64_max = 2 ^ 64 - 1 ∧ record_max = 8 + (2 ^ 32 - 1) ∧ DATA_START = 8192 ∧ est_bytes (Leaf ∅) ≤ 2 ^ 10)
    as (Hmax & Hrec & Hds & Hest) by done.
  split; rewrite ?E ?fr_params0 ?fr_seq0 ?fr_generation0 ?fr_watermark0 ?fr_bytes0 ?fr_evictions0 ?fr_overcommit0 //;
    cbn [length]; lia.
Qed.

Lemma fresh_inv : dev_wf (d_vfs d) → DATA_START ≤ Z.of_nat (length (file d)) → disk_inv d.
Proof using Hf.
  intros Hwf Hlen. destruct (fr_slots _ _ _ Hf) as [tick E]. destruct Hf. destruct fr_lru0 as [Hlru _].
  split; rewrite ?E ?fr_offsets0 ?fr_bytes0 ?fr_resident0 ?fr_watermark0 //.
  - by intros id n off b t [_ [=]]%list_lookup_singleton_Some.
  - by intros id o [_ [=]]%list_lookup_singleton_Some.
  - by intros id n o b t [_ [=]]%list_lookup_singleton_Some.
  - by repeat constructor.
  - eapply Forall_impl; [exact Hlru|]. intros x ->. simpl. lia.
Qed.

(** The in-memory engine that [BeTree::new] makes. *)
Definition new_tree : BeTree P := mkBeTree prm [Leaf ∅] [true] 0 0 0 policy Recorder_default.

Lemma fresh_mirrors : disk_inv d → mirrors (d_vfs d) (λ _, At 0) (λ _, None) new_tree d.
Proof using Hf.
  intros Hi. destruct (fr_slots _ _ _ Hf) as [tick E]. pose proof (dev_same_refl _ (di_dev _ Hi)) as Hs. destruct Hf.
  assert (∀ a n, nodes new_tree !! a = Some n → a = 0%nat ∧ n = Leaf ∅) as Hn by (by intros a n [-> <-]%list_lookup_singleton_Some).
  split; try done.
  - by rewrite fr_trace0.
  - intros a n [-> ->]%Hn. split; [done|]. exists (Leaf ∅), None, (est_bytes (Leaf ∅)), tick. by rewrite E.
  - simpl. lia.
  - intros a n c [-> ->]%Hn _ Hc. by apply not_elem_of_nil in Hc.
  - intros a n [-> ->]%Hn _. constructor.
  - intros o id sl. by rewrite fr_offsets0 lookup_empty.
  - intros o id. by rewrite fr_offsets0 lookup_empty.
  - simpl. lia.
Qed.
End fresh.

(** ** The bytes *)
Lemma splice_nil n data : splice [] n data = replicate n x00 ++ data.
Proof using Type.
  apply list_eq. intros i. destruct (decide (i < n + length data)%nat) as [Hi|Hi].
  2: { rewrite !lookup_ge_None_2 ?length_splice ?length_app ?length_replicate; simpl; [lia..|done]. }
  unfold splice. cbn [length]. destruct (Nat.ltb_spec 0 (n + length data)); [|lia]. cbv zeta.
  destruct (decide (i < n)%nat).
  - rewrite !lookup_app_l ?length_take ?length_resize ?length_replicate; [lia..|]. rewrite lookup_take_lt; [lia|].
    rewrite resize_nil. rewrite !lookup_replicate_2 //.
  - assert (length (take n (resize (n + length data) x00 [])) = n) as Hn by (rewrite length_take length_resize; lia).
    rewrite lookup_app_r Hn; [lia|]. rewrite lookup_app_l; [lia|]. rewrite lookup_app_r length_replicate; [lia|done].
Qed.

(** The file once the root record and the first superblock are written. *)
Definition first_view (n : nat) (buf slot : list byte) : list byte :=
  splice (replicate n x00 ++ buf) (Z.to_nat (slot_of 0)) slot.

Lemma first_view_slots n buf slot :
  Z.of_nat n = DATA_START → Z.of_nat (length slot) = SUPERBLOCK_SLOT_SIZE →
  slot_bytes_at (first_view n buf slot) (slot_of 0) = slot ∧
  slot_bytes_at (first_view n buf slot) (slot_of 1) = replicate (Z.to_nat SUPERBLOCK_SLOT_SIZE) x00.
Proof using Type.
  intros Hn Hl. split; [by apply slot_bytes_splice|]. unfold slot_bytes_at, first_view.
  change (slot_of 0) with 0. change (slot_of 1) with SUPERBLOCK_SLOT_SIZE.
  change DATA_START with (2 * SUPERBLOCK_SLOT_SIZE) in Hn. pose proof slot_size_pos as Hpos.
  revert Hn Hl Hpos. generalize SUPERBLOCK_SLOT_SIZE as z. intros z Hn Hl Hpos. apply list_eq. intros i.
  assert (length (replicate n x00 ++ buf) = n + length buf)%nat as Hlen by by rewrite length_app length_replicate.
  destruct (decide (Z.of_nat i < z)).
  - rewrite lookup_take_lt; [lia|]. rewrite lookup_drop lookup_splice_old; [lia..|].
    rewrite lookup_app_l ?length_replicate; [lia|]. rewrite !lookup_replicate_2; [lia..|done].
  - rewrite !lookup_ge_None_2 ?length_take ?length_replicate; [lia..|done].
Qed.

(** ** The record of the root *)
Definition root_written (p : list byte) : Written :=
  mkWritten (record_bytes p) (<[0%nat := DATA_START]> ∅) (<[0%nat := RECORD_HEADER_SIZE + Z.of_nat (length p)]> ∅).

Definition root_result : Result Written DiskError :=
  match bincode_node (DiskLeaf ∅) with
  | Some p => if u32_max <? Z.of_nat (length p) then RErr (NodeTooLarge (length p)) else ROk (root_written p)
  | None => RErr (Io OtherError)
  end.

Lemma root_serialize prm policy d :
  fresh prm policy d →
  wp (tfold (write_record (d_watermark d)) (mkWritten [] ∅ ∅) [0%nat]) (λ r d', d' = d ∧ r = root_result) d.
Proof using Type.
  intros Hf. destruct (fr_slots _ _ _ Hf) as [tick E]. rewrite (fr_watermark _ _ _ Hf). cbn [tfold].
  apply wp_try, wp_bind. eapply wp_lift; [by apply u64_add_Ok|]. apply wp_try.
  unfold node_payload, root_result, encode_node. apply wp_bind. unfold loaded, slot.
  apply wp_bind, wp_bind, wp_get. eapply wp_lift; [by rewrite E|]. apply wp_ret, wp_bind, wp_ret, wp_ret.
  destruct (bincode_node (DiskLeaf ∅)) as [p|] eqn:Ep; cbn [map_err]; [|done].
  destruct (Z.ltb_spec u32_max (Z.of_nat (length p))) as [|Hp]; [by apply wp_ret|].
  assert (RECORD_HEADER_SIZE + Z.of_nat (length p) ≤ u64_max) by (assert (RECORD_HEADER_SIZE + u32_max ≤ u64_max) by done; lia).
  apply wp_bind. eapply wp_lift; [by apply u64_add_Ok|]. apply wp_ret. by apply wp_ret.
Qed.

Section commit.
Context (prm : Params) (policy : P) (p : list byte).
Hypothesis Hlegal : legal_params prm = true.
Hypothesis Hprm : storable prm.
Hypothesis Hp : bincode_node (DiskLeaf ∅) = Some p.
Hypothesis Hlen : Z.of_nat (length p) ≤ u32_max.
Let w := root_written p.

Lemma root_serialized d : fresh prm policy d → disk_inv d → ∃ root, serialized d root_leaf [0%nat] w root.
Proof using All.
  intros Hf Hi.
  destruct (serialize_spec d root_leaf Hi (fresh_cached _ _ _ Hf)) with (pre := [0%nat]) as (r & d1 & Hr & -> & Hpost).
  - by repeat constructor.
  - by eapply fresh_unshared.
  - rewrite (fresh_dirty _ _ _ Hf). apply NoDup_singleton.
  - by eapply fresh_room.
  - by rewrite (fresh_dirty _ _ _ Hf).
  - destruct (root_serialize _ _ _ Hf) as (r' & d' & Hr' & -> & ->). cbn [rev app] in Hr. rewrite Hr' in Hr.
    injection Hr as <-. unfold root_result in Hpost. rewrite Hp (proj2 (Z.ltb_ge _ _) Hlen) in Hpost. exact Hpost.
Qed.

(** The engine [d'] on its first file, with [b] bytes written so far. *)
Definition root_created d' (b : Z) : Prop :=
  twin d' (simulated (new_tree prm policy) root_leaf) (∅, 0) (∅, 0) ∧ dev_bytes (d_vfs d') = b.

(** The end of the commit, once the superblock is durable. *)
Lemma root_finish d v root :
  fresh prm policy d → disk_inv d → serialized d root_leaf [0%nat] w root → dev_wf v →
  agree_below (image_end d w) (image d w) (dev_view v) → dev_pending v = [] → dev_healthy v →
  (∀ img, dev_images v img → img = dev_view v) →
  committed (dev_view v) (next_superblock d w root) root_leaf →
  wp (finish (image_end d w) w) (λ r d', ∃ stats, r = ROk stats ∧ root_created d' (dev_bytes v) ∧
    (dev_reliable v → dev_reliable (d_vfs d'))) (set_d_vfs v d).
Proof using All.
  intros Hf Hi Hs Hwf Hag Hpend Hh Himg Hcom. pose proof (fresh_room _ _ _ Hf Hlegal Hprm) as Hroom.
  pose proof (serialized_end _ _ _ _ _ Hroom Hs) as Hend. pose proof (cr_file _ Hroom) as Hfile.
  unfold finish. apply wp_bind, wp_get, wp_bind.
  eapply wp_lift; [apply u64_add_Ok; exact (cr_generation _ Hroom)|]. apply wp_bind, wp_modify.
  apply wp_bind_assoc. eapply wp_mono.
  { apply (adoption_spec d root_leaf [0%nat] w root v); try done; [by eapply fresh_cached|by eapply fresh_connected]. }
  intros [] d2 (Hi2 & Hc2 & Hsame & Hroot & Hg2 & Hw2 & Hpo & Hseq2 & Hland).
  apply wp_bind, wp_modify, wp_bind.
  assert (SUPERBLOCK_SLOT_SIZE ≤ DATA_START) by done. pose proof (fr_watermark _ _ _ Hf) as Hwm.
  eapply wp_lift; [apply u64_add_Ok; unfold image_end in *; lia|]. apply wp_ret. eexists. split; [done|].
  pose proof (new_tree_inv prm policy Hlegal) as Ht.
  split; [|apply (same_reliable _ _ Hsame)]. split; [split|by apply same_bytes].
  - apply (mirrored_rebase (d_vfs (set_d_ops 0 d2))).
    eapply (landed_mirrored (d_vfs d) _ _ (new_tree prm policy) d root_leaf 0 ∅ 0);
      [by eapply fresh_mirrors|done|done|done].
  - exists root_leaf, 0%nat. by eapply tree_inv_cleaned.
  - exists (next_superblock d w root), root_leaf. split.
    + split; simpl; unfold file; simpl; rewrite ?(same_view _ _ Hsame) //.
      * by apply Hsame.
      * by rewrite (same_pending _ _ Hsame).
      * intros img Hi'%(same_images _ _ Hsame). by rewrite (Himg img Hi').
    + eapply (saves_tree _ _ (∅, 0) (new_tree prm policy)); [exact Ht|apply Hf|apply Hf|].
      simpl. by rewrite (fr_generation _ _ _ Hf).
Qed.

(** The commit of the new engine. *)
Definition created d (b : Z) (r : Result CommitStats DiskError) d' : Prop :=
  match r with
  | ROk _ => root_created d' b ∧ (dev_reliable (d_vfs d) → dev_reliable (d_vfs d'))
  | RErr e => write_error e ∨ io_error d e
  end.

(** The first superblock. *)
Lemma root_superblock d root :
  fresh prm policy d → DATA_START ≤ root → root + RECORD_HEADER_SIZE ≤ image_end d w → image_end d w ≤ u64_max →
  ∃ slot, encode_slot (next_superblock d w root) = Ok (ROk slot) ∧ Z.of_nat (length slot) = SUPERBLOCK_SLOT_SIZE ∧
    status_of (decode_slot slot) = Valid (next_superblock d w root).
Proof using All.
  intros Hf Hr Hend Hmax. destruct Hprm as (Hp1 & Hp2 & Hp3). assert (0 ≤ DATA_START ∧ 0 ≤ RECORD_HEADER_SIZE) as [Hds Hrh] by done.
  assert (u64_ok 0) as Hz by done. apply encode_slot_valid; [|done|done|].
  - unfold superblock_wf, next_superblock.
    cbn [magic format_version sb_params last_seq Format.generation root_offset watermark].
    rewrite (fr_params _ _ _ Hf) (fr_seq _ _ _ Hf) (fr_generation _ _ _ Hf).
    split; [done|]. split; [done|]. split_and!; try assumption; unfold u64_ok; lia.
  - split; [done|]. unfold next_superblock. cbn [sb_params root_offset watermark].
    split; [lia|]. by rewrite (fr_params _ _ _ Hf).
Qed.

(** The publication of the first superblock, and what follows. *)
Lemma root_publish d n :
  BlankSlot → Z.of_nat n = DATA_START → fresh prm policy d → dev_wf (d_vfs d) → dev_pending (d_vfs d) = [] → dev_healthy (d_vfs d) →
  (∀ img, dev_images (d_vfs d) img → img = file d) →
  file d = replicate n x00 ++ w_buf w →
  wp (publish (d_watermark d) w) (created d (dev_bytes (d_vfs d) + SUPERBLOCK_SLOT_SIZE)) d.
Proof using All.
  intros Hblank Hnds Hf Hwf Hpend Hh Himg Hfile. pose proof (fresh_room _ _ _ Hf Hlegal Hprm) as Hroom.
  assert (0 ≤ DATA_START ∧ SUPERBLOCK_SLOT_SIZE ≤ DATA_START) as [Hds Hss] by done.
  assert (Z.of_nat (length (file d)) = image_end d w) as Hend0.
  { rewrite Hfile length_app length_replicate /image_end (fr_watermark _ _ _ Hf). lia. }
  assert (disk_inv d) as Hi.
  { eapply fresh_inv; [done|done|]. rewrite Hend0 /image_end (fr_watermark _ _ _ Hf). lia. }
  destruct (root_serialized d Hf Hi) as [root Hs]. pose proof (serialized_end _ _ _ _ _ Hroom Hs) as Hend.
  pose proof (cr_file _ Hroom) as Hmax.
  destruct (stored_record _ _ _ _ _ (sz_stored _ _ _ _ _ Hs)) as (_ & node & len & (Hlo & q & _ & _ & -> & _ & Hhi) & _).
  set (sb := next_superblock d w root).
  destruct (root_superblock d root Hf) as (slot & Henc & Hsl & Hdec); [lia|unfold RECORD_HEADER_SIZE in *; lia|lia|]. fold sb in Henc, Hdec.
  assert (image d w = file d) as Himage.
  { unfold image. rewrite Hfile (fr_watermark _ _ _ Hf) -Hnds Nat2Z.id. by rewrite take_app_length' ?length_replicate. }
  unfold publish. apply wp_bind. eapply wp_lift; [apply u64_add_Ok; unfold image_end in *; lia|].
  apply wp_bind, wp_get, wp_bind. eapply (wp_run _ _ _ root d); [exact (sz_root _ _ _ _ _ Hs)|].
  apply wp_bind. eapply wp_lift; [by rewrite (fr_generation _ _ _ Hf)|]. apply wp_bind. eapply wp_lift; [exact Henc|].
  apply wp_try, wp_ret. cbn [map_err]. apply wp_try, wp_on_vfs.
  eapply wp_mono; [apply dev_write; [done|]|].
  { split; [done|]. split; [by rewrite Hsl|]. rewrite Hpend. constructor. }
  intros r v1 (Hwf1 & _ & _ & Hrel1 & Hr1). destruct r as [[]|e]; cbn [map_err]; [|right; by exists e].
  destruct Hr1 as (Hview1 & _ & Hh1 & Hb1). apply wp_try, wp_on_vfs. eapply wp_mono; [by apply dev_sync|].
  intros r v2 (Hwf2 & _ & Hview2 & Hb2 & Hpend2 & _ & Hrel2 & Hr2). destruct r as [[]|e]; cbn [map_err].
  2: { right. exists e. split; [done|]. intros ?. by apply Hr2, Hrel1. }
  destruct (Hr2 (Hh1 Hh)) as [Hh2 Himg2]. rewrite -Hview2 in Himg2.
  assert (dev_view v2 = first_view n (w_buf w) slot) as Hv2.
  { rewrite Hview2 Hview1. change (dev_view (d_vfs d)) with (file d). by rewrite Hfile. }
  assert (agree_below (image_end d w) (image d w) (dev_view v2)) as Hag.
  { split; [rewrite Hv2 /first_view length_splice -Hfile; lia|]. intros i Hlt. rewrite Hv2 /first_view -Hfile Himage.
    change (slot_of 0) with 0. apply lookup_splice_old; lia. }
  eapply wp_mono; [apply (root_finish d v2 root Hf Hi Hs Hwf2 Hag Hpend2 Hh2 Himg2)|].
  - split.
    + unfold slot_at. change (Format.generation (next_superblock d w root)) with (d_next_generation d).
      rewrite (fr_generation _ _ _ Hf) Hv2 (proj1 (first_view_slots n _ _ Hnds Hsl)). exact Hdec.
    + unfold slot_at. change (Format.generation (next_superblock d w root)) with (d_next_generation d).
      rewrite (fr_generation _ _ _ Hf) Hv2 (proj2 (first_view_slots n _ _ Hnds Hsl)) blank_slot. exact I.
    + apply Hag.
    + by eapply laid_agree; [exact Hag|done|apply Hs].
  - intros r d' (stats & -> & Hst & Hrel). rewrite Hb2 Hb1 Hsl in Hst. split; [exact Hst|auto].
Qed.

(** The commit of the engine on its empty device. *)
Lemma root_commit d :
  BlankSlot → fresh prm policy d → dev_wf (d_vfs d) → dev_pending (d_vfs d) = [] → dev_healthy (d_vfs d) →
  dev_view (d_vfs d) = [] →
  wp DiskCommit.commit (created d (dev_bytes (d_vfs d) + record_size (Leaf ∅) + SUPERBLOCK_SLOT_SIZE)) d.
Proof using All.
  intros Hblank Hf Hwf Hpend Hh Hview. unfold DiskCommit.commit. apply wp_bind, wp_get.
  rewrite (fr_poisoned _ _ _ Hf). apply wp_bind. set (b0 := dev_bytes (d_vfs d) + _ + _). eapply (wp_mono _ (created d b0)); last first.
  { intros [stats|e] d' Hpost; apply wp_bind; [by apply wp_ret, wp_ret|]. apply wp_modify, wp_ret. exact Hpost. }
  unfold commit_inner. apply wp_bind. eapply wp_mono; [apply (dirty_nodes_spec d root_leaf (fresh_cached _ _ _ Hf))|].
  { rewrite (fresh_dirty _ _ _ Hf). apply NoDup_singleton. }
  intros pre d' [-> Hpre]. rewrite (fresh_dirty _ _ _ Hf) in Hpre. apply wp_bind, wp_get, wp_try. rewrite Hpre.
  eapply wp_mono; [by eapply root_serialize|]. intros r d' [-> ->]. unfold root_result. rewrite Hp (proj2 (Z.ltb_ge _ _) Hlen).
  fold w. apply wp_try. pose proof (fr_watermark _ _ _ Hf) as Hwm.
  assert (∃ b bs, w_buf w = b :: bs) as (b & bs & Eb).
  { pose proof (length_record_bytes p) as Hl. unfold w, root_written. cbn [w_buf]. destruct (record_bytes p); [done|eauto]. }
  rewrite Eb. assert (Z.of_nat (length (b :: bs)) = RECORD_HEADER_SIZE + Z.of_nat (length p)) as Hb.
  { rewrite -Eb /w /root_written. cbn [w_buf]. rewrite length_record_bytes. unfold RECORD_HEADER_SIZE. lia. }
  apply wp_on_vfs. eapply wp_mono; [apply dev_write; [done|]|].
  { assert (0 ≤ DATA_START ∧ DATA_START + (RECORD_HEADER_SIZE + u32_max) ≤ u64_max) as [??] by done.
    rewrite Hwm. split; [done|]. split; [lia|]. rewrite Hpend. constructor. }
  intros r v1 (Hwf1 & _ & _ & Hrel1 & Hr1). destruct r as [[]|e]; cbn [map_err]; [|right; by exists e].
  destruct Hr1 as (Hview1 & _ & Hh1 & Hb1). apply wp_try, wp_on_vfs. eapply wp_mono; [by apply dev_sync|].
  intros r v2 (Hwf2 & _ & Hview2 & Hb2 & Hpend2 & _ & Hrel2 & Hr2). destruct r as [[]|e]; cbn [map_err].
  2: { right. exists e. split; [done|]. intros Hrel. by apply Hr2, Hrel1. }
  destruct (Hr2 (Hh1 Hh)) as [Hh2 Himg2]. rewrite -Hview2 in Himg2. pose proof (fresh_vfs _ _ _ v2 Hf) as Hf2.
  assert (b0 = dev_bytes v2 + SUPERBLOCK_SLOT_SIZE) as ->.
  { subst b0. unfold record_size. cbn [disk_form]. rewrite Hp Hb2 Hb1 Hb. lia. }
  eapply (wp_mono _ (created (set_d_vfs v2 d) _)).
  - apply (root_publish (set_d_vfs v2 d) (Z.to_nat DATA_START)); try assumption.
    + by rewrite Z2Nat.id.
    + change (dev_view v2 = replicate (Z.to_nat DATA_START) x00 ++ w_buf w).
      rewrite Hview2. change (dev_view v1 = replicate (Z.to_nat DATA_START) x00 ++ w_buf w). rewrite Hview1 Hview Hwm Eb. apply splice_nil.
  - intros [stats|e] d' Hpost; [by destruct Hpost; split; [|auto]|]. destruct Hpost as [?|He]; [by left|right].
    eapply io_error_vfs; [|exact He]. intros Hrel. by apply Hrel2, Hrel1.
Qed.
End commit.

(** The root record cannot be written. *)
Lemma root_refused prm policy d e :
  fresh prm policy d → root_result = RErr e → wp DiskCommit.commit (λ r _, r = RErr e) d.
Proof using All.
  intros Hf He. unfold DiskCommit.commit. apply wp_bind, wp_get. rewrite (fr_poisoned _ _ _ Hf).
  apply wp_bind. eapply (wp_mono _ (λ r _, r = RErr e)); last first.
  { intros r d' ->. apply wp_bind, wp_modify. by apply wp_ret. }
  unfold commit_inner. apply wp_bind. eapply wp_mono; [apply (dirty_nodes_spec d root_leaf (fresh_cached _ _ _ Hf))|].
  { rewrite (fresh_dirty _ _ _ Hf). apply NoDup_singleton. }
  intros pre d' [-> Hpre]. rewrite (fresh_dirty _ _ _ Hf) in Hpre. apply wp_bind, wp_get, wp_try. rewrite Hpre.
  eapply wp_mono; [by eapply root_serialize|]. intros r d' [-> ->]. by rewrite He.
Qed.

Lemma root_result_cases : match root_result with
  | ROk w => ∃ p, bincode_node (DiskLeaf ∅) = Some p ∧ Z.of_nat (length p) ≤ u32_max ∧ w = root_written p
  | RErr e => write_error e
  end.
Proof using Type.
  unfold root_result. destruct (bincode_node (DiskLeaf ∅)) as [p|]; [|by left].
  destruct (Z.ltb_spec u32_max (Z.of_nat (length p))); [right; by eexists|by exists p].
Qed.

(** The first commit of the model. *)
Lemma root_cost prm (policy : P) p :
  legal_params prm = true → bincode_node (DiskLeaf ∅) = Some p → Z.of_nat (length p) ≤ u32_max →
  simulate_commit (new_tree prm policy) =
  Ok (record_size (Leaf ∅) + SUPERBLOCK_SLOT_SIZE, simulated (new_tree prm policy) root_leaf).
Proof using All.
  intros Hl Hp Hlen.
  destruct (simulate_commit_region (new_tree prm policy) root_leaf 0 ∅ 0 (new_tree_inv prm policy Hl))
    as (b & s & -> & -> & ->).
  - repeat constructor. by exists p.
  - unfold total_size, record_size. cbn. rewrite Hp.
    assert (RECORD_HEADER_SIZE + u32_max + SUPERBLOCK_SLOT_SIZE ≤ u64_max) by done. lia.
  - f_equal. f_equal. unfold total_size. cbn. lia.
Qed.

(** [create_on_with] on an empty device. *)
Lemma create_store `{!BlankSlot} v prm budget (policy : P) :
  legal_params prm = true → storable prm → dev_wf v → dev_healthy v → dev_pending v = [] → dev_view v = [] →
  ∃ r, create_on_with v prm budget policy = Ok r ∧ match r with
    | ROk d => ∃ s b, simulate_commit (new_tree prm policy) = Ok (b, s) ∧
        twin d s (∅, 0) (∅, 0) ∧ dev_bytes (d_vfs d) = dev_bytes v + b ∧
        (dev_reliable v → dev_reliable (d_vfs d))
    | RErr e => write_error e ∨ storage_failed v e
    end.
Proof using All.
  intros Hl Hprm Hwf Hh Hpend Hview. unfold create_on_with. rewrite Hl. cbn [oassert mbind outcome_bind].
  pose proof (dev_len v Hwf) as Hlen. destruct (vfs_len v) as [len|e].
  2: { eexists. split; [done|]. right. by exists e. }
  rewrite Hlen Hview. cbn [length Z.of_nat Z.ltb Z.compare].
  destruct (touch_fresh v prm budget policy) as ([] & d & Ht & Hf & <-). unfold mbind at 2, M_bind. rewrite Ht.
  pose proof root_result_cases as Hc. destruct root_result as [w|e] eqn:Er.
  - destruct Hc as (p & Hp & Hpl & ->).
    destruct (root_commit prm policy p Hl Hprm Hp Hpl d _ Hf Hwf Hpend Hh Hview) as (r & d' & -> & Hr).
    cbn [mbind outcome_bind]. eexists. split; [done|].
    destruct r as [stats|e]; [|done]. destruct Hr as [[Htw Hb] Hrel]. eexists _, _.
    split; [by eapply root_cost|]. split; [done|]. split; [rewrite Hb; lia|done].
  - destruct (root_refused prm policy d e Hf Er) as (r & d' & -> & ->). cbn [mbind outcome_bind].
    eexists. split; [done|]. by left.
Qed.

(** [create_on_with] refuses a file that is not empty, and panics on
    parameters that are not legal. *)
Lemma create_refuses v prm budget (policy : P) :
  legal_params prm = true → dev_wf v → dev_reliable v → dev_view v ≠ [] →
  create_on_with v prm budget policy = Ok (RErr (NotEmpty (Z.of_nat (length (dev_view v))))).
Proof using All.
  intros Hl Hwf Hrel Hview. unfold create_on_with. rewrite Hl. cbn [oassert mbind outcome_bind].
  pose proof (dev_len v Hwf) as Hlen. destruct (vfs_len v) as [len|e]; [|done].
  rewrite Hlen (proj2 (Z.ltb_lt _ _)) //. destruct (dev_view v); [done|]. simpl. lia.
Qed.

Lemma create_illegal v prm budget (policy : P) :
  legal_params prm = false → create_on_with v prm budget policy = Panic.
Proof using Type. intros Hl. unfold create_on_with. by rewrite Hl. Qed.
End create.
