(* ===== verification/Session.v ===== *)
(** * Sessions with crashes

    A user's session with a disk engine on a fault-injecting device: calls,
    commits, crashes between calls and crashes during a commit, each crash
    followed by a reopening.  A session shows what a session with a map and
    its saved version shows. *)

From S2P Require Export Store.
From stdpp Require Import options.
From Stdlib Require Import ZArith.

(** What the user sees. *)
Inductive Event : Type :=
  | EvCall (k : Call) (r : Reply)
  | EvCommit
  | EvCrash
  | EvCommitCrash.

(** ** The specification: the version saved, and the version held *)
Inductive spec_step : version * version → Event → version * version → Prop :=
  | spec_call_step c0 c k : spec_step (c0, c) (EvCall k (spec_call k c.1).1) (c0, called k c)
  | spec_commit_step c0 c : spec_step (c0, c) EvCommit (c, c)
  | spec_crash_step c0 c : spec_step (c0, c) EvCrash (c0, c0)
  | spec_undone_step c0 c : spec_step (c0, c) EvCommitCrash (c0, c0)
  | spec_done_step c0 c : spec_step (c0, c) EvCommitCrash (c, c).

(** A run of a step relation, and its events. *)
Inductive run {A} (step : A → Event → A → Prop) : A → list Event → A → Prop :=
  | run_nil a : run step a [] a
  | run_cons a e b es c : step a e b → run step b es c → run step a (e :: es) c.

Section session.
Context `{CodecLaws} {P : Type} `{LawfulPolicy P} `{!BlindPolicy P}.
Notation E := (DiskEngine FaultyVfs P).
Implicit Types (d : E) (c : version).

(** The machine restarts with the contents [img]; the device may be armed to
    fail a later sync. *)
Definition restarted (img : list byte) (fail : option (Z * list Fate)) : FaultyVfs :=
  set_fail_sync fail (FaultyVfs.from_image img).

Definition reopens (img : list byte) d' : Prop :=
  (Z.of_nat (length img) ≤ u64_max)%Z ∧
  ∃ fail budget policy, open_on_with (restarted img fail) budget policy = Ok (ROk d').

(** A crash can leave the image [img] at the moment [pos] of the op log. *)
Definition leaves (v : FaultyVfs) (pos : nat) (img : list byte) : Prop :=
  (pos ≤ FaultyVfs.log_len v)%nat ∧ ∃ fates, FaultyVfs.crash_image_at pos fates v = Ok img.

(** ** The sessions of the engine *)
Inductive session_step d : Event → E → Prop :=
  | session_call k r d' :
      try_call k d = Ok (ROk r, d') → session_step d (EvCall k r) d'
  | session_commit stats d' :
      commit_room d → DiskCommit.commit d = Ok (ROk stats, d') → session_step d EvCommit d'
  | session_crash img d' :
      leaves (d_vfs d) (FaultyVfs.log_len (d_vfs d)) img → reopens img d' → session_step d EvCrash d'
  | session_commit_crash r d1 pos img d' :
      commit_room d → DiskCommit.commit d = Ok (r, d1) → (FaultyVfs.log_len (d_vfs d) ≤ pos)%nat →
      leaves (d_vfs d1) pos img → ¬ torn_collision d img → reopens img d' → session_step d EvCommitCrash d'.

Lemma restarted_open img fail budget (policy : P) d c :
  (Z.of_nat (length img) ≤ u64_max)%Z → image_of c img → open_on_with (restarted img fail) budget policy = Ok (ROk d) →
  store d c c.
Proof using All.
  intros Hl Himg Hopen. destruct (from_image_wf img Hl) as (Hwf & _ & _ & _ & _ & Hi).
  destruct (open_store (restarted img fail) c budget policy) as (r & Hr & Hpost); [by apply set_fail_sync_wf|done..|].
  rewrite Hopen in Hr. injection Hr as <-. apply Hpost.
Qed.

Lemma store_now d c0 c img : store d c0 c → dev_images (d_vfs d) img → image_of c0 img.
Proof using All. intros (_ & sb & t & Hd & Hs) Hi. exists sb, t. split; [by apply Hd|done]. Qed.

Lemma leaves_now (v : FaultyVfs) img : dev_wf v → leaves v (FaultyVfs.log_len v) img → dev_images v img.
Proof using Type. intros Hwf Hl. by apply dev_now. Qed.

(** Every step of the engine is one of the specification. *)
Lemma session_step_refines d c0 c e d' :
  store d c0 c → session_step d e d' → ∃ c0' c', spec_step (c0, c) e (c0', c') ∧ store d' c0' c'.
Proof using All.
  intros Hst He. pose proof (store_wf _ _ _ Hst) as Hwf. destruct He as [k r d' Hr|stats d' Hroom Hr|img d' Hl Ho|r d1 pos img d' Hroom Hr Hge Hl Hno Ho].
  - pose proof (try_call_store d c0 c k Hst) as Hpost. unfold wpo in Hpost. rewrite Hr in Hpost.
    destruct Hpost as [-> Hst' _ _]. exists c0, (called k c). split; [constructor|done].
  - destruct (store_commit d c0 c Hst Hroom) as (r & d1 & Hr1 & _ & _ & Hpost). rewrite Hr in Hr1. injection Hr1 as <- <-.
    exists c, c. split; [constructor|by destruct Hpost].
  - destruct Ho as (Hlen & fail & budget & policy & Hopen). exists c0, c0. split; [constructor|].
    eapply restarted_open; [done| |done]. eapply store_now; [done|]. by apply leaves_now.
  - destruct Ho as (Hlen & fail & budget & policy & Hopen).
    destruct (store_commit d c0 c Hst Hroom) as (r1 & d2 & Hr1 & Hcr & _). rewrite Hr in Hr1. injection Hr1 as <- <-.
    assert (commit_image d c0 c img) as Himg.
    { apply (crashes_since _ _ _ pos img Hcr Hwf); [|done|done]. intros img' Hi. left. by eapply store_now. }
    destruct Himg as [Hi|[Hi|Hi]]; [exists c0, c0|exists c, c|done];
      (split; [constructor|by eapply restarted_open]).
Qed.

(** Every session of the engine is one of the specification. *)
Lemma session_refines d c0 c es d' :
  store d c0 c → run session_step d es d' →
  ∃ c0' c', run spec_step (c0, c) es (c0', c') ∧ store d' c0' c'.
Proof using All.
  intros Hst Hrun. revert c0 c Hst. induction Hrun as [d|d e d1 es d2 He _ IH]; intros c0 c Hst.
  { exists c0, c. split; [constructor|done]. }
  destruct (session_step_refines _ _ _ _ _ Hst He) as (c1 & c2 & Hs & Hst1).
  destruct (IH _ _ Hst1) as (c3 & c4 & Hs' & Hst2). exists c3, c4. split; [by econstructor|done].
Qed.
End session.
