(* ===== verification/Calibrate.v ===== *)
(** * The cost model, calibrated

    The same history of calls and commits on the in-memory engine, whose
    commits are simulated, and on a disk engine, whose writes are measured at
    the device: the replies agree, and so does every byte.  This is the claim
    that the calibration test of the repository samples. *)

From S2P Require Export Create.
From stdpp Require Import options.
From Stdlib Require Import ZArith.

Local Open Scope Z_scope.

Inductive Task : Type :=
  | TCall (k : Call)
  | TCommit.

(** What a task replies, and the bytes that it costs. *)
Notation outcome_of_task := (option Reply * Z)%type.

Section calibrate.
Context {V P : Type} `{DeviceLaws V} `{CodecLaws} `{LawfulPolicy P} `{!BlindPolicy P} (p : P).
Notation E := (DiskEngine V P).
Implicit Types (d : E) (s : BeTree P) (c : version).

(** Calls are free in the model, commits cost what [simulate_commit] says. *)
Definition mem_task (t : Task) : M (BeTree P) outcome_of_task :=
  match t with
  | TCall k => r ← mem_call p k; mret (Some r, 0)
  | TCommit => bytes ← simulate_commit; mret (None, bytes)
  end.

(** The engine's tasks, and the bytes that reached the device meanwhile. *)
Definition disk_task (t : Task) : M E (Result outcome_of_task DiskError) :=
  before ← get_;
  r ←? match t with
       | TCall k => r ←? try_call k; mret (ROk (Some r))
       | TCommit => _ ←? DiskCommit.commit; mret (ROk None)
       end;
  after ← get_;
  mret (ROk (r, dev_bytes (d_vfs after) - dev_bytes (d_vfs before))).

Fixpoint mem_tasks (ts : list Task) : M (BeTree P) (list outcome_of_task) :=
  match ts with
  | [] => mret []
  | t :: ts => o ← mem_task t; os ← mem_tasks ts; mret (o :: os)
  end.

Fixpoint disk_tasks (ts : list Task) : M E (Result (list outcome_of_task) DiskError) :=
  match ts with
  | [] => mret (ROk [])
  | t :: ts => o ←? disk_task t; os ←? disk_tasks ts; mret (ROk (o :: os))
  end.

(** The integers have room for every commit of the history. *)
Fixpoint roomy (ts : list Task) d s : Prop :=
  match ts with
  | [] => True
  | t :: ts => (t = TCommit → commit_room d ∧ arena_fits s) ∧
      ∀ o d' s', disk_task t d = Ok (ROk o, d') → mem_task t s = Ok (o, s') → roomy ts d' s'
  end.

(** The version saved and the version held, after a history. *)
Definition task_versions (cc : version * version) (t : Task) : version * version :=
  match t with TCall k => (cc.1, called k cc.2) | TCommit => (cc.2, cc.2) end.
Definition tasks_versions (ts : list Task) (cc : version * version) : version * version :=
  foldl task_versions cc ts.

(** A commit costs what the model says. *)
Lemma commit_twin d s c0 c :
  twin d s c0 c → commit_room d → arena_fits s → wp DiskCommit.commit (λ r d', match r with
    | ROk stats => ∃ s', simulate_commit s = Ok (bytes_written stats, s') ∧ twin d' s' c c ∧
        dev_bytes (d_vfs d') = dev_bytes (d_vfs d) + bytes_written stats
    | RErr e => write_error e ∨ io_error d e
    end) d.
Proof using All.
  intros [(g & u & Hm & Hu) (t & h & Ht) Hsv] Hroom Hfit. pose proof Hsv as (sb & t0 & Hd & Hs0).
  destruct (store_commit d c0 c) as (r & d' & Hrun & _ & _ & Hst); [apply store_twin|done|].
  { exists s. split; [by exists g, u|by exists t, h|done]. }
  destruct (commit_cost _ g u s d t h c.1 c.2 sb t0 Hm Hu Hfit Ht Hd Hroom) as (r1 & d1 & Hrun1 & [_ Hpost] & _ & Hres).
  rewrite Hrun in Hrun1. injection Hrun1 as <- <-. exists r, d'. split; [done|]. destruct r as [stats|e]; [|done].
  destruct Hpost as (_ & _ & _ & _ & _ & _ & _ & _ & _ & _ & _ & Hb & _), Hres as [Hmir Hsim].
  exists (simulated s t). split; [done|]. split; [|done]. split; [done| |apply Hst]. exists t, h. by apply tree_inv_cleaned.
Qed.

Definition task_error (e : DiskError) : Prop := write_error e ∨ ∃ e', e = Io e'.

Lemma disk_task_twin t d s c0 c :
  twin d s c0 c → (t = TCommit → commit_room d ∧ arena_fits s) → wpo true (disk_task t) (λ r d', match r with
    | ROk o => ∃ s', mem_task t s = Ok (o, s') ∧
        twin d' s' (task_versions (c0, c) t).1 (task_versions (c0, c) t).2
    | RErr e => task_error e
    end) d.
Proof using All.
  intros Ht Hroom. unfold disk_task. apply wpo_bind, wpo_get, wpo_try. destruct t as [k|].
  - apply wpo_try. eapply wpo_mono; [by apply (try_call_twin p d s)|]. intros [r|e] d1; last first.
    { intros (e' & -> & _). right. by eexists. }
    intros [[_ _ Hsame _] (s' & Hs' & Ht')]. apply wpo_ret, wpo_bind, wpo_get, wpo_ret.
    exists s'. split; [|done]. unfold mem_task, mbind, M_bind. by rewrite Hs' (same_bytes _ _ Hsame) Z.sub_diag.
  - destruct (Hroom eq_refl) as [Hr1 Hr2]. apply wpo_try.
    eapply wpo_mono; [apply wp_wpo; by eapply commit_twin|]. intros [stats|e] d1; last first.
    { intros [?|(e' & -> & _)]; [by left|right; by eexists]. }
    intros (s' & Hs' & Ht' & Hb). apply wpo_ret, wpo_bind, wpo_get, wpo_ret.
    exists s'. split; [|done]. unfold mem_task, mbind, M_bind. rewrite Hs' Hb Z.add_simpl_l. done.
Qed.

Lemma disk_tasks_twin ts d s c0 c :
  twin d s c0 c → roomy ts d s → wpo true (disk_tasks ts) (λ r d', match r with
    | ROk os => ∃ s', mem_tasks ts s = Ok (os, s') ∧
        twin d' s' (tasks_versions ts (c0, c)).1 (tasks_versions ts (c0, c)).2
    | RErr e => task_error e
    end) d.
Proof using All.
  revert d s c0 c. induction ts as [|t ts IH]; intros d s c0 c Ht Hroom; cbn [disk_tasks].
  { apply wpo_ret. by exists s. }
  destruct Hroom as [Hr1 Hr2]. apply wpo_try. eapply wpo_mono; [by apply wpo_eqn, (disk_task_twin t d s c0 c)|].
  intros [o|e] d1 [Hrun Hpost]; [|done]. destruct Hpost as (s1 & Hs1 & Ht1). apply wpo_try.
  eapply wpo_mono; [apply (IH d1 s1 _ _ Ht1); by eapply Hr2|].
  intros [os|e] d2; [|done]. intros (s2 & Hs2 & Ht2). apply wpo_ret. exists s2. split.
  - cbn [mem_tasks]. unfold mbind, M_bind. by rewrite Hs1 Hs2.
  - unfold tasks_versions in *. cbn [foldl]. by destruct (task_versions (c0, c) t).
Qed.
End calibrate.
