(* ===== verification/Counter.v ===== *)
(** * The counter example ([examples/counter.rs])

    A client of the disk engine: the same random increments as blind upserts
    and as read-modify-writes, with a commit every so often, and a final
    scan that is compared with sums kept on the side. *)

From S2P Require Export Calibrate.
From stdpp Require Import options.
From Stdlib Require Import ZArith.

Local Open Scope Z_scope.

Module Counter.
Definition COUNTERS : Z := 1000.

(** [XorShift::next_u64]: [u64] shifts, the bits shifted out are lost. *)
Definition next_u64 (rng : Z) : Z * Z :=
  let x := Z.lxor rng (Z.shiftl rng 13 mod 2 ^ 64) in
  let x := Z.lxor x (Z.shiftr x 7) in
  let x := Z.lxor x (Z.shiftl x 17 mod 2 ^ 64) in
  (x, x).

(** [XorShift::op]: a counter, and a delta from 1 to 10. *)
Definition op (rng : Z) : (Z * Z) * Z :=
  let '(x, rng) := next_u64 rng in
  let c := x mod COUNTERS in
  let '(x, rng) := next_u64 rng in
  let d := x mod 10 + 1 in
  ((c, d), rng).

(** [(c as u16).to_be_bytes()] *)
Definition key (c : Z) : Key := rev (le_encode 2 (c mod 2 ^ 16)).

(** [+=] on [i64] *)
Definition i64_add (a b : Z) : outcome Z :=
  if (- 2 ^ 63 <=? a + b) && (a + b <? 2 ^ 63) then Ok (a + b) else Overflow.

(** The loop of [oracle]. *)
Fixpoint oracle_loop (ops : nat) (rng : Z) (sums : BTreeMap Z) : outcome (BTreeMap Z) :=
  match ops with
  | O => mret sums
  | S ops =>
      let '((c, d), rng) := op rng in
      sum ← i64_add (default 0 (sums !! key c)) d;
      oracle_loop ops rng (<[key c := sum]> sums)
  end.

(** What an arm can stop with: a failed [expect], or the assertion. *)
Inductive ArmError : Type :=
  | ExpectCreate (e : DiskError)
  | ExpectCommit (e : DiskError)
  | ExpectScan (e : EngineError)
  | Diverged
  | ExpectFileLen (e : DiskError).

(** [ArmStats], but for the wall clock. *)
Record ArmStats : Type := mkArmStats {
  arm_nodes_written : nat;
  arm_bytes_written : Z;
  arm_file_size : Z;
}.

(** The program; [OPS], [COMMIT_EVERY] and [SEED] are its constants. *)
Section counter.
Context {V : Type} `{Vfs V} `{Codec} (OPS : nat) (COMMIT_EVERY SEED : Z).
Notation E := (DiskEngine V GreedyFullest).
#[local] Existing Instance Disk.engine.

(** [oracle] *)
Definition oracle : outcome (BTreeMap Z) := oracle_loop OPS SEED ∅.

(** The closure of the arm of blind upserts. *)
Definition upsert_arm (k : Key) (d : Z) : M E unit := kv_upsert k (Add d).

(** The closure of the arm of read-modify-writes. *)
Definition rmw_arm (k : Key) (d : Z) : M E unit :=
  v ← kv_get k;
  let base := match v with
    | Some v => if (length v =? 8)%nat then i64_from_le_bytes v else 0
    | None => 0
    end in
  kv_insert k (i64_to_le_bytes (i64_wrapping_add base d)).

(** The loop of [run_arm], from the [i]-th op. *)
Fixpoint arm_loop (apply : Key → Z → M E unit) (ops : nat) (i rng : Z)
    (nodes_written : nat) (bytes_written : Z) : M E (Result (nat * Z) ArmError) :=
  match ops with
  | O => mret (ROk (nodes_written, bytes_written))
  | S ops =>
      let '((c, d), rng) := op rng in
      _ ← apply (key c) d;
      if i mod COMMIT_EVERY =? COMMIT_EVERY - 1 then
        stats ←? (r ← DiskCommit.commit; mret (map_err ExpectCommit r));
        bytes ← lift (u64_add bytes_written (Disk.bytes_written stats));
        arm_loop apply ops (i + 1) rng (nodes_written + Disk.nodes_written stats) bytes
      else arm_loop apply ops (i + 1) rng nodes_written bytes_written
  end.

(** [run_arm] *)
Definition run_arm (vfs : V) (apply : Key → Z → M E unit) : outcome (Result ArmStats ArmError) :=
  r ← create_on_with vfs Params_default None mkGreedyFullest;
  match r with
  | RErr e => Ok (RErr (ExpectCreate e))
  | ROk engine =>
      '(r, engine) ← arm_loop apply OPS 0 SEED 0%nat 0 engine;
      match r with
      | RErr e => Ok (RErr e)
      | ROk (nodes_written, bytes_written) =>
          '(scanned, engine) ← kv_scan Unbounded Unbounded engine;
          match scanned with
          | RErr e => Ok (RErr (ExpectScan e))
          | ROk scanned =>
              sums ← oracle;
              let expected := map (λ '(k, sum), (k, i64_to_le_bytes sum)) (bt_iter sums) in
              if decide (scanned = expected) then
                match file_len engine with
                | ROk len => Ok (ROk (mkArmStats nodes_written bytes_written len))
                | RErr e => Ok (RErr (ExpectFileLen e))
                end
              else Ok (RErr Diverged)
          end
      end
  end.

(** Whether the integers have room for every commit of the loop. *)
Fixpoint arm_roomy (apply : Key → Z → M E unit) (ops : nat) (i rng : Z) (engine : E) : bool :=
  match ops with
  | O => true
  | S ops =>
      let '((c, d), rng) := op rng in
      match apply (key c) d engine with
      | Ok (_, engine) =>
          if i mod COMMIT_EVERY =? COMMIT_EVERY - 1 then
            bool_decide (commit_room engine) &&
            match DiskCommit.commit engine with
            | Ok (ROk _, engine) => arm_roomy apply ops (i + 1) rng engine
            | _ => true
            end
          else arm_roomy apply ops (i + 1) rng engine
      | _ => true
      end
  end.
End counter.

(** ** The sums *)

Lemma op_delta rng : 0 ≤ (op rng).1.2 ≤ 10.
Proof. unfold op. destruct (next_u64 rng) as [x r]. destruct (next_u64 r) as [y r']. simpl. pose proof (Z.mod_pos_bound y 10). lia. Qed.

Definition bounded (b : Z) (sums : BTreeMap Z) : Prop := ∀ k s, sums !! k = Some s → 0 ≤ s ≤ b.

Lemma i64_add_Ok a b : - 2 ^ 63 ≤ a + b < 2 ^ 63 → i64_add a b = Ok (a + b).
Proof. intros [??]. unfold i64_add. by rewrite (proj2 (Z.leb_le _ _)) ?(proj2 (Z.ltb_lt _ _)). Qed.

(** One step of [oracle] cannot overflow. *)
Lemma oracle_step b sums k d :
  bounded b sums → 0 ≤ b → 0 ≤ d ≤ 10 → b + 10 < 2 ^ 63 →
  ∃ s, i64_add (default 0 (sums !! k)) d = Ok s ∧ bounded (b + 10) (<[k := s]> sums) ∧
    UpsertOp_apply (Add d) (i64_to_le_bytes <$> sums !! k) = i64_to_le_bytes s.
Proof.
  intros Hb Hb0 Hd Hmax. assert (0 ≤ default 0 (sums !! k) ≤ b) as Hr.
  { destruct (sums !! k) as [s|] eqn:E; simpl; [by eapply Hb|lia]. }
  exists (default 0 (sums !! k) + d). split_and!.
  - apply i64_add_Ok. lia.
  - intros k' s'. destruct (decide (k = k')) as [->|Hne].
    + rewrite lookup_insert_eq. intros [= <-]. lia.
    + rewrite lookup_insert_ne //. intros Hs%Hb. lia.
  - unfold UpsertOp_apply, i64_wrapping_add. destruct (sums !! k) as [s|]; cbn [fmap option_fmap option_map from_option id] in *.
    + assert (length (i64_to_le_bytes s) =? 8 = true)%nat as -> by by rewrite /i64_to_le_bytes length_le_encode.
      rewrite i64_from_to_le_bytes (i64_wrap_id s); [unfold i64_ok; lia|]. by rewrite i64_wrap_id; [unfold i64_ok; lia|].
    + by rewrite i64_wrap_id; [unfold i64_ok; lia|].
Qed.

Lemma oracle_total ops : ∀ rng sums b, bounded b sums → 0 ≤ b → b + 10 * Z.of_nat ops < 2 ^ 63 →
  ∃ sums', oracle_loop ops rng sums = Ok sums'.
Proof.
  induction ops as [|ops IH]; intros rng sums b Hb Hb0 Hmax; [by exists sums|]. cbn [oracle_loop].
  pose proof (op_delta rng) as Hd. destruct (op rng) as [[c x] rng']. cbn [fst snd] in Hd.
  destruct (oracle_step b sums (key c) x Hb Hb0 Hd) as (s & -> & Hb' & _); [lia|]. cbn [mbind outcome_bind].
  eapply IH; [exact Hb'|lia|lia].
Qed.

(** What the scan is compared with. *)
Lemma bt_iter_fmap (sums : BTreeMap Z) :
  bt_iter (i64_to_le_bytes <$> sums) = map (λ '(k, sum), (k, i64_to_le_bytes sum)) (bt_iter sums).
Proof.
  apply sorted_ext; [apply bt_iter_sorted| |].
  - pose proof (bt_iter_sorted sums) as Hs. induction Hs as [|[k s] l _ IH Hl]; cbn [map]; constructor; [done|].
    apply Forall_map. eapply Forall_impl; [exact Hl|]. by intros [k' s'].
  - intros [k v]. rewrite elem_of_bt_iter lookup_fmap fmap_Some list_elem_of_fmap. split.
    + intros (s & Hs & ->). exists (k, s). by rewrite elem_of_bt_iter.
    + intros ([k' s] & [= -> ->] & Hs%elem_of_bt_iter). by exists s.
Qed.

(** ** The arms *)
Section arms.
Context {V : Type} `{DeviceLaws V} `{CodecLaws}.
Notation E := (DiskEngine V GreedyFullest).
Implicit Types (d : E) (c : version).

Lemma wpo_ret_inv {A B} (m : M E A) (f : A → B) (Q : B → E → Prop) d :
  wpo true (a ← m; mret (f a)) Q d → wpo true m (λ a, Q (f a)) d.
Proof using Type. unfold wpo, mbind, M_bind. by destruct (m d) as [[a d']| | |]. Qed.

(** A closure that adds [x] to the counter at [k]. *)
Definition increments (apply : Key → Z → M E unit) : Prop := ∀ d c0 c k x,
  store d c0 c → dev_reliable (d_vfs d) → wpo true (apply k x) (λ _ d', dev_same (d_vfs d) (d_vfs d') ∧
    ∃ n, store d' c0 (<[k := UpsertOp_apply (Add x) (c.1 !! k)]> c.1, n)) d.

Lemma upsert_increments : increments upsert_arm.
Proof using All.
  intros d c0 c k x Hst Hrel. pose proof (store_call d c0 c (COp (Upsert2 k (Add x))) Hst Hrel) as Hr.
  apply wpo_ret_inv in Hr. eapply wpo_mono; [exact Hr|]. intros [] d' [_ Hst' Hs _]. split; [done|]. by eexists.
Qed.

Lemma rmw_increments : increments rmw_arm.
Proof using All.
  intros d c0 c k x Hst Hrel. pose proof (store_call d c0 c (CGet k) Hst Hrel) as Hr. apply wpo_ret_inv in Hr.
  unfold rmw_arm. apply wpo_bind. eapply wpo_mono; [exact Hr|]. intros v d1 [[= ->] Hst1 Hs1 _].
  set (value := i64_to_le_bytes _).
  pose proof (store_call d1 c0 _ (COp (Insert2 k value)) Hst1 (same_reliable _ _ Hs1 Hrel)) as Hr1.
  apply wpo_ret_inv in Hr1. eapply wpo_mono; [exact Hr1|]. intros [] d2 [_ Hst2 Hs2 _].
  split; [by eapply dev_same_trans|]. by eexists.
Qed.

(** What is true of the loop between two ops. *)
Record counting d (sums : BTreeMap Z) : Prop := {
  ct_store : ∃ c0 n, store d c0 (i64_to_le_bytes <$> sums, n);
  ct_reliable : dev_reliable (d_vfs d);
}.

Lemma counting_next d d1 sums k x s :
  counting d sums → dev_same (d_vfs d) (d_vfs d1) →
  UpsertOp_apply (Add x) (i64_to_le_bytes <$> sums !! k) = i64_to_le_bytes s →
  (∃ c0 n, store d1 c0 (<[k := UpsertOp_apply (Add x) ((i64_to_le_bytes <$> sums) !! k)]> (i64_to_le_bytes <$> sums), n)) →
  counting d1 (<[k := s]> sums).
Proof using All.
  intros [_ Hrel] Hs Hval (c0 & n & Hst). split; [|by apply (same_reliable _ _ Hs)].
  exists c0, n. by rewrite fmap_insert -Hval -lookup_fmap.
Qed.

(** The bytes that the loop counts are those that reach the device. *)
Lemma arm_loop_spec COMMIT_EVERY apply ops : increments apply → ∀ i rng nodes bytes d sums b sums',
  counting d sums → bounded b sums → 0 ≤ b → b + 10 * Z.of_nat ops < 2 ^ 63 →
  arm_roomy COMMIT_EVERY apply ops i rng d = true → oracle_loop ops rng sums = Ok sums' →
  wpo true (arm_loop COMMIT_EVERY apply ops i rng nodes bytes) (λ r d', match r with
    | ROk (_, bytes') => counting d' sums' ∧ bytes' = bytes + (dev_bytes (d_vfs d') - dev_bytes (d_vfs d))
    | RErr e => ∃ e', e = ExpectCommit e' ∧ write_error e'
    end) d.
Proof using All.
  intros Happly. induction ops as [|ops IH]; intros i rng nodes bytes d sums b sums' Hc Hb Hb0 Hmax Hroom Ho.
  { injection Ho as <-. apply wpo_ret. split; [done|lia]. }
  cbn [oracle_loop arm_loop arm_roomy] in *. pose proof (op_delta rng) as Hd.
  destruct (op rng) as [[c x] rng'] eqn:Eop. cbn [fst snd] in Hd.
  destruct (oracle_step b sums (key c) x Hb Hb0 Hd) as (s & Es & Hb' & Hval); [lia|].
  rewrite Es in Ho. cbn [mbind outcome_bind] in Ho. pose proof Hc as [(c0 & n & Hst) Hrel].
  apply wpo_bind. eapply wpo_mono; [by apply wpo_eqn, (Happly d c0 _ (key c) x Hst Hrel)|].
  intros [] d1 [Erun [Hs1 (n1 & Hst1)]]. rewrite Erun in Hroom.
  assert (counting d1 (<[key c := s]> sums)) as Hc1 by (eapply counting_next; [done..|by exists c0, n1]).
  destruct (_ =? _); last first.
  { eapply wpo_mono; [by eapply IH; [done|exact Hb'|lia|lia|..]|]. intros [[nd bt]|e] d2; [|done].
    intros [? ->]. by rewrite (same_bytes _ _ Hs1). }
  apply andb_prop in Hroom as [Hroom%bool_decide_eq_true Hrest]. apply wpo_try, wpo_bind.
  pose proof Hc1 as [(c2 & n2 & Hst2) Hrel1].
  eapply wpo_mono; [by apply wpo_eqn, wp_wpo, (store_commit d1 c2 _ Hst2 Hroom)|]. intros r d2 [Erun2 (_ & _ & Hpost)].
  apply wpo_ret. rewrite Erun2 in Hrest. destruct r as [stats|e]; cbn [map_err].
  - destruct Hpost as (Hst3 & Hb2 & Hrel2). apply wpo_bind, wpo_u64_add; [done|]. intros _.
    eapply wpo_mono; [eapply IH; [|exact Hb'|lia|lia|exact Hrest|exact Ho]|].
    { split; [by eexists _, _|auto]. }
    intros [[nd bt]|e] d3; [|done]. intros [? ->]. split; [done|]. rewrite Hb2 (same_bytes _ _ Hs1). lia.
  - destruct Hpost as [He|(e' & _ & Hn)]; [by exists e|done].
Qed.

(** The engine that [create] returns counts from nothing. *)
Lemma created_counting `{!BlankSlot} (v : V) :
  dev_wf v → dev_healthy v → dev_pending v = [] → dev_view v = [] → dev_reliable v →
  ∃ r, create_on_with v Params_default None mkGreedyFullest = Ok r ∧ match r with
    | ROk d => counting d ∅
    | RErr e => write_error e
    end.
Proof using All.
  intros Hwf Hh Hp Hv Hrel.
  destruct (create_store v Params_default None mkGreedyFullest) as (r & Hr & Hpost); [done|by repeat split|done..|].
  exists r. split; [done|]. destruct r as [d|e].
  - destruct Hpost as (s & b & _ & Ht & _ & Hd). split; [|auto]. exists (∅, 0), 0. rewrite fmap_empty.
    apply store_twin. by exists s.
  - by destruct Hpost as [?|(e' & _ & Hn)].
Qed.

(** The assertion of an arm holds, and none of its [expect]s fails but on a
    node that cannot be written. *)
Lemma run_arm_spec `{!BlankSlot} OPS COMMIT_EVERY SEED apply (v : V) : increments apply →
  dev_wf v → dev_healthy v → dev_pending v = [] → dev_view v = [] → dev_reliable v → 10 * Z.of_nat OPS < 2 ^ 63 →
  (∀ d, create_on_with v Params_default None mkGreedyFullest = Ok (ROk d) →
    arm_roomy COMMIT_EVERY apply OPS 0 SEED d = true) →
  match run_arm OPS COMMIT_EVERY SEED v apply with
  | Ok (ROk _) => True
  | Ok (RErr e) => ∃ e', write_error e' ∧ (e = ExpectCreate e' ∨ e = ExpectCommit e')
  | Overflow => True
  | Panic | OutOfFuel => False
  end.
Proof using All.
  intros Happly Hwf Hh Hp Hv Hrel Hmax Hroom. unfold run_arm.
  destruct (created_counting v Hwf Hh Hp Hv Hrel) as (r & Hr & Hpost). rewrite Hr. cbn [mbind outcome_bind].
  destruct r as [d|e]; [|eauto]. destruct (oracle_total OPS SEED ∅ 0) as (sums & Ho); [by intros ? ? ?%lookup_empty_Some|done|lia|].
  assert (bounded 0 ∅) as Hb by by intros ? ? ?%lookup_empty_Some.
  pose proof (arm_loop_spec COMMIT_EVERY apply OPS Happly 0 SEED 0%nat 0 d ∅ 0 sums Hpost Hb) as Hloop.
  unfold wpo in Hloop. specialize (Hloop ltac:(lia) ltac:(lia) (Hroom d Hr) Ho).
  destruct (arm_loop _ _ _ _ _ _ _ d) as [[[[nd bt]|e] d1]| | |]; cbn [mbind outcome_bind]; [|naive_solver|done..].
  destruct Hloop as [[(c0 & n & Hst) Hrel1] _].
  pose proof (store_call d1 c0 _ (CScan Unbounded Unbounded) Hst Hrel1) as Hscan. apply wpo_ret_inv in Hscan.
  unfold wpo in Hscan. destruct (kv_scan _ _ d1) as [[r1 d2]| | |]; cbn [mbind outcome_bind]; [|done..].
  destruct Hscan as [[= ->] Hst2 Hs2 _]. unfold oracle. rewrite Ho. cbn [mbind outcome_bind fst].
  assert (∀ m : BTreeMap Value, spec_scan Unbounded Unbounded m = bt_iter m) as Hall.
  { intros m. symmetry. by apply spec_scan_unique. }
  rewrite Hall bt_iter_fmap decide_True //. unfold file_len.
  pose proof (store_wf d2 c0 _ Hst2) as Hwf2.
  pose proof (dev_len (d_vfs d2) Hwf2) as Hlen. destruct (vfs_len (d_vfs d2)); [done|].
  exfalso. by apply Hlen, (same_reliable _ _ Hs2).
Qed.
End arms.
End Counter.
