(* ===== verification/Machine.v ===== *)
(** * The in-memory engine as a state machine

    A step is one call of a public [&mut self] method of [BeTree] that
    returns.  Reachability is by rule induction over the calls made so far;
    the abstract state of a reachable engine is a function of those calls. *)

From S2P Require Export Sim.
From stdpp Require Import options.
From Stdlib Require Import ZArith.

(** The public methods that change the engine. *)
Inductive Event : Type :=
  | EOp (op : OpKind2)
  | EGet (key : Key)
  | EScan (lo hi : Bound)
  | EDrain
  | ECommit.

(** The abstract state after a sequence of calls: the contents and the
    number of mutating ops. *)
Definition event_op (ev : Event) : option OpKind2 :=
  match ev with EOp op => Some op | _ => None end.
Definition contents (evs : list Event) : BTreeMap Value :=
  foldl (λ m op, spec_op op m) ∅ (omap event_op evs).
Definition op_count (evs : list Event) : Z := Z.of_nat (length (omap event_op evs)).

Lemma omap_snoc {A B} (f : A → option B) l a : omap f (l ++ [a]) = omap f l ++ option_list (f a).
Proof. rewrite omap_app. simpl. by destruct (f a). Qed.

Lemma contents_snoc evs ev :
  contents (evs ++ [ev]) =
  match event_op ev with Some op => spec_op op (contents evs) | None => contents evs end.
Proof.
  unfold contents. rewrite omap_snoc foldl_app. by destruct (event_op ev).
Qed.

Lemma op_count_snoc evs ev :
  op_count (evs ++ [ev]) = match event_op ev with Some _ => op_count evs + 1 | None => op_count evs end%Z.
Proof.
  unfold op_count. rewrite omap_snoc length_app. destruct (event_op ev); simpl; lia.
Qed.

Section machine.
Context `{Codec} {P : Type} `{FlushPolicy P}.
Implicit Types s : BeTree P.

Inductive bt_step : BeTree P → Event → BeTree P → Prop :=
  | step_insert s key value s' :
      BeTree.insert key value s = Ok (tt, s') → bt_step s (EOp (Insert2 key value)) s'
  | step_delete s key s' :
      BeTree.delete key s = Ok (tt, s') → bt_step s (EOp (Delete2 key)) s'
  | step_upsert s key op s' :
      BeTree.upsert key op s = Ok (tt, s') → bt_step s (EOp (Upsert2 key op)) s'
  | step_get s key value s' :
      BeTree.get key s = Ok (value, s') → bt_step s (EGet key) s'
  | step_scan s lo hi result s' :
      BeTree.scan lo hi s = Ok (result, s') → bt_step s (EScan lo hi) s'
  | step_drain s s' :
      BeTree.drain s = Ok (tt, s') → bt_step s EDrain s'
  | step_commit s bytes s' :
      simulate_commit s = Ok (bytes, s') → bt_step s ECommit s'.

(** The engines that calls [evs] can lead to. *)
Inductive bt_reach (prm : Params) (policy : P) : list Event → BeTree P → Prop :=
  | reach_new s : with_policy prm policy = Ok s → bt_reach prm policy [] s
  | reach_step evs s ev s' :
      bt_reach prm policy evs s → bt_step s ev s' → bt_reach prm policy (evs ++ [ev]) s'.
End machine.

Section safety.
Context `{Codec} {P : Type} `{LawfulPolicy P}.
Implicit Types s : BeTree P.

(** A mutating op that returns had a seqno to take. *)
Lemma next_op_Ok op s r : next_op op s = Ok r → (next_seq s < u64_max)%Z.
Proof.
  intros (? & ? & E & Hk)%bind_Ok. injection E as <- <-.
  apply bind_Ok in Hk as (seq & s1 & Hs & _). apply lift_Ok in Hs as (? & Hs & _).
  unfold u64_add in Hs. destruct (_ <=? _)%Z eqn:E; [|done]. lia.
Qed.

(** A commit that returns leaves the arena alone. *)
Lemma charge_Ok b i s b' s' :
  charge b i s = Ok (b', s') → s' = set_dirty (alter (λ _, false) i (dirty s)) s.
Proof.
  intros (len & s1 & Hlen & Hk)%bind_Ok.
  assert (s1 = s) as ->.
  { apply bind_Ok in Hlen as (n & s2 & Hn & Hlen). apply bind_Ok in Hn as (? & ? & E & Hn).
    injection E as <- <-. apply lift_Ok in Hn as (? & _ & [= -> ->]).
    destruct (encode_node _); [by injection Hlen as _ <-|done]. }
  apply bind_Ok in Hk as (? & ? & (? & _ & [= -> ->])%lift_Ok & Hk).
  apply bind_Ok in Hk as (? & ? & (? & _ & [= -> ->])%lift_Ok & Hk).
  apply bind_Ok in Hk as (? & ? & E & Hk). injection E as <- <-.
  apply bind_Ok in Hk as (ds & ? & (? & Hds & [= -> ->])%lift_Ok & Hk).
  unfold vec_update in Hds. destruct (_ <? _); [|done]. injection Hds as <-.
  by injection Hk as _ <-.
Qed.

Lemma mfold_charge_Ok l : ∀ b s b' s', mfold charge b l.*1 s = Ok (b', s') →
  s' = set_dirty (cleaned l (dirty s)) s.
Proof.
  induction l as [|[i n] l IH]; intros b s b' s'; cbn [fmap list_fmap mfold fst].
  { intros [= _ <-]. by destruct s. }
  intros (b1 & s1 & ->%charge_Ok & Hk)%bind_Ok. by apply IH in Hk as ->.
Qed.

Lemma simulate_commit_Inv s bytes s' m n :
  Inv s m n → simulate_commit s = Ok (bytes, s') → Inv s' m n.
Proof.
  intros (t & h & Hinv) Hrun. pose proof (ti_rooted _ _ _ _ _ Hinv) as [Hp Hd Hroot Hr Hnd Hf].
  apply bind_Ok in Hrun as (? & ? & E & Hrun). injection E as <- <-.
  apply bind_Ok in Hrun as (? & ? & (d & Hdt & [= -> ->])%lift_Ok & Hrun).
  apply expect_Ok in Hdt. rewrite Hroot in Hdt, Hrun.
  apply bind_Ok in Hrun as (pre & s1 & Hpre & Hrun).
  assert (s1 = s ∧ pre = (dirty_region (dirty s) t).*1) as [-> ->].
  { destruct d.
    - by apply (wp_Ok _ _ _ _ _ (visit_spec t s Hd Hr Hnd Hdt)).
    - injection Hpre as <- <-. split; [done|]. rewrite dirty_region_clean //.
      unfold dirtyb. by rewrite Hdt. }
  apply bind_Ok in Hrun as (b & s1 & ->%mfold_charge_Ok & Hrun).
  apply bind_Ok in Hrun as (? & ? & E & (? & _ & [= -> ->])%lift_Ok). injection E as <- <-.
  exists t, h. by apply tree_inv_cleaned.
Qed.

(** Every step keeps the invariant and moves the abstract state. *)
Lemma bt_step_Inv s ev s' m n :
  Inv s m n → bt_step s ev s' →
  Inv s' (match event_op ev with Some op => spec_op op m | None => m end)
         (match event_op ev with Some _ => n + 1 | None => n end)%Z.
Proof using All.
  intros HI. assert (next_seq s = n) as Hn by (destruct HI as (? & ? & []); done).
  assert (∀ op, (seq ← next_op op; apply_root (op_key op) (op_message seq op)) s = Ok (tt, s') →
    Inv s' (spec_op op m) (n + 1)%Z) as Hop.
  { intros op Hrun. pose proof Hrun as (? & ? & Hnext & _)%bind_Ok.
    apply next_op_Ok in Hnext. rewrite Hn in Hnext.
    by eapply (wp_Ok _ _ _ _ _ (mutate_spec op s m n HI Hnext)) in Hrun as [? _]. }
  inversion 1; subst; cbn [event_op].
  - by apply (Hop (Insert2 _ _)).
  - by apply (Hop (Delete2 _)).
  - by apply (Hop (Upsert2 _ _)).
  - by eapply (wp_Ok _ _ _ _ _ (get_spec _ _ _ _ HI)).
  - by eapply (wp_Ok _ _ _ _ _ (scan_spec _ _ _ _ _ HI)).
  - match goal with Hrun : drain _ = _ |- _ =>
      apply (wp_Ok _ _ _ _ _ (drain_spec _ _ _ HI)) in Hrun as (t & h & ? & _) end.
    by exists t, h.
  - by eapply simulate_commit_Inv.
Qed.

Lemma bt_reach_Inv prm (policy : P) evs s :
  legal_params prm = true → bt_reach prm policy evs s → Inv s (contents evs) (op_count evs).
Proof using All.
  intros Hlegal. induction 1 as [s Hs|evs s ev s' _ IH Hstep].
  - destruct (with_policy_spec prm policy Hlegal) as (s0 & Hs0 & HI & _).
    rewrite Hs in Hs0. injection Hs0 as ->. exact HI.
  - rewrite contents_snoc op_count_snoc. by eapply bt_step_Inv.
Qed.

(** The calls that may fail: a mutating op when the seqnos have run out, a
    commit whose nodes do not encode, or whose size does not fit a [u64]. *)
Definition enabled (ev : Event) s : Prop :=
  match ev with
  | EOp _ => (next_seq s < u64_max)%Z
  | ECommit => encodable s ∧
      (foldr (λ nd, Z.add (record_size nd)) 0 (nodes s) + SUPERBLOCK_SLOT_SIZE ≤ u64_max)%Z
  | _ => True
  end.

Lemma foldr_add_sum {A} (f : A → Z) l :
  (∀ a, 0 ≤ f a)%Z → foldr (λ a, Z.add (f a)) 0%Z l = Z.of_nat (sum_list_with (Z.to_nat ∘ f) l).
Proof.
  intros Hf. induction l as [|a l IH]; [done|]. cbn [foldr sum_list_with]. rewrite IH.
  specialize (Hf a). unfold compose. lia.
Qed.

Lemma total_size_arena s t :
  repr (arena s) t → NoDup (ids t) →
  (total_size (dirty_region (dirty s) t) ≤ foldr (λ nd, Z.add (record_size nd)) 0 (nodes s))%Z.
Proof.
  intros Hr Hnd. unfold total_size.
  assert (∀ nd, 0 ≤ record_size nd)%Z as Hpos by (intros nd; pose proof (record_size_pos nd); lia).
  rewrite (foldr_add_sum (λ x : NodeId * Node, record_size x.2)) // foldr_add_sum //.
  apply inj_le. etrans; [|by apply (nodes_sum (Z.to_nat ∘ record_size) s (nodes_of t))].
  apply sum_list_with_submseteq, dirty_region_sub.
Qed.

(** An enabled call returns. *)
Lemma bt_step_progress s ev m n : Inv s m n → enabled ev s → ∃ s', bt_step s ev s'.
Proof using All.
  intros HI Hen. assert (next_seq s = n) as Hn by (destruct HI as (? & ? & []); done).
  destruct ev as [op| key|lo hi| |]; cbn [enabled] in Hen.
  - rewrite Hn in Hen. destruct (mutate_spec op s m n HI Hen) as ([] & s' & Hrun & _).
    exists s'. destruct op; by constructor.
  - destruct (get_spec key s m n HI) as (v & s' & Hrun & _). exists s'. by econstructor.
  - destruct (scan_spec lo hi s m n HI) as (v & s' & Hrun & _). exists s'. by econstructor.
  - destruct (drain_spec s m n HI) as ([] & s' & Hrun & _). exists s'. by constructor.
  - destruct HI as (t & h & Hinv). destruct Hen as [Henc Hmax].
    pose proof (ti_rooted _ _ _ _ _ Hinv) as Hrt.
    pose proof (total_size_arena s t (rt_repr _ _ _ Hrt) (rt_NoDup _ _ _ Hrt)).
    destruct (simulate_commit_spec s t h m n Hinv Henc) as (b & s' & Hrun & _); [lia|].
    exists s'. by econstructor.
Qed.
End safety.
