(* ===== verification/Demo.v ===== *)
(** * A concrete engine

    A small tree in the middle of its life, with its arena: the inputs on
    which the properties are instantiated. *)

From S2P Require Export Machine Bincode.
From stdpp Require Import options.
From Stdlib Require Import ZArith.

Definition ka : Key := [x61].
Definition kb : Key := [x62].
Definition kc : Key := [x63].
Definition v1 : Value := [x01].
Definition v2 : Value := [x02].

(** The tightest legal parameters. *)
Definition demo_params : Params := mkParams 2 1 1.

(** Two leaves under a root whose buffer holds one message more than its
    capacity. *)
Definition demo_leaf_a : tree := TLeaf 0 {[ka := mkLeafEntry 1 v1]}.
Definition demo_leaf_b : tree := TLeaf 1 {[kb := mkLeafEntry 2 v1]}.
Definition demo_buffer : BTreeMap Message := <[ka := Put 3 v2]> {[kb := Delete 4]}.
Definition demo_tree : tree := TInt 2 [kb] [demo_leaf_a; demo_leaf_b] demo_buffer.

Definition demo : BeTree GreedyFullest :=
  mkBeTree demo_params [node_of demo_leaf_a; node_of demo_leaf_b; node_of demo_tree]
    [false; false; true] 2 4 4 mkGreedyFullest Recorder_default.

(** A history of calls on a new engine. *)
Definition demo_calls : list Call :=
  [COp (Insert2 ka v1); COp (Upsert2 kb (Add 5)); COp (Insert2 kc v2); COp (Delete2 ka);
   COp (Upsert2 kb (Add 7)); CGet kb; CScan (Included ka) (Excluded kc)].

Lemma keys_in_singleton {V} lo hi k (v : V) :
  in_range k lo hi = true → keys_in lo hi ({[k := v]} : BTreeMap V).
Proof. intros Hk j w [-> _]%lookup_singleton_Some. done. Qed.

Lemma keys_in_all {V} (m : BTreeMap V) : keys_in None None m.
Proof. by intros k v _. Qed.

Lemma demo_kids : kids_ok (good demo_params 0) None None [kb] [demo_leaf_a; demo_leaf_b].
Proof.
  constructor; [done..| |constructor]; (split; [by apply keys_in_singleton|]);
    rewrite map_size_singleton; done || (simpl; lia).
Qed.

Lemma demo_fresh k : vfresh (view demo_tree k).
Proof.
  destruct (decide (k = ka)) as [->|Ha]; [repeat constructor|].
  destruct (decide (k = kb)) as [->|Hb]; [repeat constructor|].
  unfold demo_tree, demo_buffer. rewrite view_TInt lookup_insert_ne // lookup_singleton_ne //.
  rewrite vpush_None /kview. destruct (route [kb] k) as [|[|i]]; simpl;
    rewrite ?lookup_singleton_ne //; constructor.
Qed.

Lemma demo_repr : repr (arena demo) demo_tree.
Proof. repeat constructor. Qed.

Lemma demo_NoDup : NoDup (ids demo_tree).
Proof. apply (bool_decide_unpack _). reflexivity. Qed.

Lemma demo_flushable : flushable demo_params 0 None None demo_tree demo.
Proof.
  constructor; [done|done| |apply demo_repr|apply demo_NoDup|intros; apply demo_fresh].
  split_and!; [apply keys_in_all|right; apply demo_kids|done].
Qed.

Lemma demo_rooted : rooted demo_params demo_tree demo.
Proof. constructor; [done..|apply demo_repr|apply demo_NoDup|apply demo_fresh]. Qed.

(** The engine after [demo_calls], with its invariant. *)
Lemma demo_reached :
  ∃ s : BeTree GreedyFullest, run_history demo_params demo_calls = Ok ((spec_calls demo_calls ∅).1, s) ∧
    Inv s (spec_calls demo_calls ∅).2 5.
Proof.
  destruct (run_history_spec (E := BeTree GreedyFullest) demo_params demo_calls) as (s & Hs & HI & _);
    [reflexivity|vm_compute; discriminate|].
  exists s. split; [exact Hs|exact HI].
Qed.

(** Calls, and the engine they lead to. *)
Definition demo_events : list Event := [EOp (Insert2 ka v1); EOp (Upsert2 kb (Add 5)); EDrain].

Definition demo_run : outcome (unit * BeTree GreedyFullest) :=
  s ← with_policy demo_params mkGreedyFullest;
  (_ ← BeTree.insert ka v1; _ ← BeTree.upsert kb (Add 5); drain) s.

Definition after (o : outcome (unit * BeTree GreedyFullest)) : BeTree GreedyFullest :=
  match o with Ok (_, s) => s | _ => demo end.

Lemma demo_events_reach : bt_reach (H := bincode) demo_params mkGreedyFullest demo_events (after demo_run).
Proof.
  unfold demo_events.
  apply (reach_step (H := bincode) _ _ [EOp (Insert2 ka v1); EOp (Upsert2 kb (Add 5))]
    (after (s ← with_policy demo_params mkGreedyFullest; (_ ← BeTree.insert ka v1; BeTree.upsert kb (Add 5)) s))).
  - apply (reach_step (H := bincode) _ _ [EOp (Insert2 ka v1)]
      (after (s ← with_policy demo_params mkGreedyFullest; BeTree.insert ka v1 s))).
    + apply (reach_step (H := bincode) _ _ [] (after (s ← with_policy demo_params mkGreedyFullest; Ok (tt, s)))).
      * constructor. vm_compute. reflexivity.
      * constructor. vm_compute. reflexivity.
    + constructor. vm_compute. reflexivity.
  - constructor. vm_compute. reflexivity.
Qed.
