(* ===== verification/DiskDemo.v ===== *)
(** * A concrete disk engine

    An engine created on an empty [FaultyVfs] with one uncommitted insert,
    and the same file reopened: the inputs on which the properties of the
    disk engine are instantiated. *)

From S2P Require Export Reopen Bincode Demo.
From stdpp Require Import options.
From Stdlib Require Import ZArith.

Local Open Scope Z_scope.

#[export] Existing Instance bincode.
#[export] Existing Instance bincode_laws.

Notation DemoEngine := (DiskEngine FaultyVfs GreedyFullest).

(** [create_on(FaultyVfs::new(), ..)] with a cache budget, then
    [try_insert]. *)
Definition demo_created : outcome (Result DemoEngine DiskError) :=
  create_on_bounded FaultyVfs.new demo_params 100.

Definition empty_engine : DemoEngine :=
  mkDisk demo_params FaultyVfs.new [] 0 0 0 0 false (mkCache None 0 0 0 [] 0 0 0 0) ∅ 0
    mkGreedyFullest Recorder_default.

Definition engine_of (o : outcome (Result DemoEngine DiskError)) : DemoEngine :=
  match o with Ok (ROk d) => d | _ => empty_engine end.
Definition after {A} (m : M DemoEngine (Result A DiskError)) (d : DemoEngine) : DemoEngine :=
  match m d with Ok (_, d') => d' | _ => empty_engine end.

Definition demo_disk : DemoEngine := after (Disk.try_insert ka v1) (engine_of demo_created).

(** What it committed, and what it holds. *)
Definition demo_sb : Superblock := mkSuperblock MAGIC FORMAT_VERSION demo_params 0 0 8192 8212.
Definition demo_entries : BTreeMap LeafEntry := {[ka := mkLeafEntry 1 v1]}.
Definition demo_old : tree := TLeaf 0 ∅.
Definition demo_new : tree := TLeaf 0 demo_entries.

Lemma demo_slots : d_slots demo_disk = [Loaded (Leaf demo_entries) true (Some 8192) 16 2].
Proof. by vm_compute. Qed.
Lemma demo_offsets : d_offsets demo_disk = {[8192 := 0%nat]}.
Proof. by vm_compute. Qed.
Lemma demo_cache : d_cache demo_disk = mkCache (Some 100) 16 1 2 [(0%nat, 1); (0%nat, 2)] 1 0 0 0.
Proof. by vm_compute. Qed.
Lemma demo_fields :
  d_root demo_disk = 0%nat ∧ d_watermark demo_disk = 8212 ∧ d_next_generation demo_disk = 1 ∧
  d_params demo_disk = demo_params ∧ d_next_seq demo_disk = 1 ∧ d_poisoned demo_disk = false.
Proof. by vm_compute. Qed.

Lemma demo_vfs : faulty_wf (d_vfs demo_disk).
Proof.
  split.
  - apply Nat.leb_le. vm_compute. reflexivity.
  - assert (window (d_vfs demo_disk) = []) as -> by (vm_compute; reflexivity). constructor.
  - vm_compute. reflexivity.
  - apply Z.leb_le. vm_compute. reflexivity.
Qed.

(** The record of the empty leaf, in the file. *)
Definition demo_payload : list byte := le_encode 4 1 ++ le_encode 8 0.

Lemma demo_record : holds_record (file demo_disk) 8212 8192 (DiskLeaf ∅) 12.
Proof.
  split; [done|]. exists demo_payload. split_and!; [|by vm_compute|done|done|done].
  exists (take (Z.to_nat 8192) (file demo_disk)), [].
  split; vm_compute; reflexivity.
Qed.

Lemma demo_committed : committed (file demo_disk) demo_sb demo_old.
Proof.
  split; [by vm_compute|by vm_compute|by vm_compute|]. split.
  - eapply stored_leaf; [done|exact demo_record].
  - exists [8192]. split; [eapply spread_leaf; exact demo_record|apply NoDup_singleton].
Qed.

Lemma demo_durable : durable demo_disk demo_sb demo_old.
Proof.
  split; [by vm_compute|by vm_compute| |exact demo_committed|by vm_compute|by vm_compute].
  intros img [fates Hf]. assert (img = file demo_disk) as ->; [|exact demo_committed].
  rewrite -Hf. assert (window (d_vfs demo_disk) = []) as -> by by vm_compute.
  by vm_compute.
Qed.

Lemma demo_reliable : dev_reliable (d_vfs demo_disk).
Proof. by vm_compute. Qed.

Lemma demo_length : Z.of_nat (length (file demo_disk)) = 8212.
Proof. vm_compute. reflexivity. Qed.

Lemma demo_watermark_in : DATA_START ≤ 8212 ≤ Z.of_nat (length (file demo_disk)).
Proof. rewrite demo_length. split; apply Z.leb_le; reflexivity. Qed.

(** The same file with its only record overwritten, and a file whose newest
    superblock carries the last generation. *)
Definition demo_corrupt : list byte := take (Z.to_nat 8192) (file demo_disk) ++ replicate 20 x00.
Definition demo_last_sb : Superblock := mkSuperblock MAGIC FORMAT_VERSION demo_params 0 u64_max 8192 8212.
Definition demo_last : list byte :=
  match encode_slot demo_last_sb with Ok (ROk slot) => slot ++ replicate (Z.to_nat 4116) x00 | _ => [] end.

Lemma demo_corrupt_recovery : recovery demo_corrupt = ROk demo_sb.
Proof. by vm_compute. Qed.
Lemma demo_corrupt_length : Z.of_nat (length demo_corrupt) < 2 ^ 31.
Proof. apply Z.ltb_lt. vm_compute. reflexivity. Qed.
Lemma demo_last_recovery : recovery demo_last = ROk demo_last_sb.
Proof. by vm_compute. Qed.
Lemma demo_last_length : Z.of_nat (length demo_last) ≤ u64_max.
Proof. apply Z.leb_le. vm_compute. reflexivity. Qed.

(** From here on the engine is known by these facts alone. *)
#[local] Opaque demo_disk.

Lemma demo_cached : cached demo_disk demo_new (d_root demo_disk).
Proof.
  destruct demo_fields as (-> & _). eapply cached_leaf. by rewrite demo_slots.
Qed.

Lemma demo_inv : disk_inv demo_disk.
Proof.
  destruct demo_fields as (_ & Hw & _).
  split; rewrite ?demo_slots ?demo_offsets ?demo_cache ?Hw.
  - exact demo_vfs.
  - exact demo_watermark_in.
  - done.
  - by intros id n off b t [_ [=]]%list_lookup_singleton_Some.
  - by intros id o [_ [=]]%list_lookup_singleton_Some.
  - intros id n o b t [-> [= _ <- _ _]]%list_lookup_singleton_Some. by rewrite lookup_singleton_eq.
  - by intros o id [<- _]%lookup_singleton_Some.
  - intros o id [_ <-]%lookup_singleton_Some. eexists. split; [reflexivity|discriminate].
  - done.
  - done.
  - by repeat constructor.
  - by repeat constructor.
Qed.

Lemma demo_unshared : unshared demo_disk demo_new (d_root demo_disk).
Proof.
  destruct demo_fields as (-> & _). exists []. split; [|constructor]. eapply scattered_leaf. by rewrite demo_slots.
Qed.

Lemma demo_connected : connected demo_disk.
Proof. intros id n off b t c. rewrite demo_slots. by intros [_ [=]]%list_lookup_singleton_Some. Qed.

Lemma demo_dirty : dirty_post (d_slots demo_disk) demo_new (d_root demo_disk) = [0%nat].
Proof. destruct demo_fields as (-> & _). by rewrite demo_slots. Qed.

Lemma demo_room : commit_room demo_disk.
Proof.
  destruct demo_fields as (_ & Hw & Hg & Hp & Hs & _).
  split; rewrite ?demo_slots ?demo_cache ?Hw ?Hg ?Hp ?Hs;
    first [reflexivity | apply Z.leb_le; vm_compute; reflexivity
          | split; apply Z.leb_le; vm_compute; reflexivity].
Qed.

Lemma demo_dirty_once : NoDup (dirty_post (d_slots demo_disk) demo_new (d_root demo_disk)).
Proof. rewrite demo_dirty. apply NoDup_singleton. Qed.

Lemma demo_unpoisoned : d_poisoned demo_disk = false.
Proof. by destruct demo_fields as (_ & _ & _ & _ & _ & ->). Qed.

Lemma demo_shaped : shaped demo_new.
Proof. by repeat constructor. Qed.
Lemma demo_old_shaped : shaped demo_old.
Proof. by repeat constructor. Qed.
