(* ===== verification/EngineProps.v ===== *)
(** * Correctness of the in-memory engine

    The properties of [BeTree] and of the code it is made of, each stated
    once, with a concrete instance of the ones that have hypotheses. *)

From S2P Require Export Demo Naive.
From stdpp Require Import options.
From Stdlib Require Import ZArith.

(** C1: for every flush policy that keeps its contract, every history of
    calls on a new [BeTree] (inserts, deletes, upserts, gets and scans in
    any order) runs to completion, without a panic and without running out
    of iterations, and every reply is the reply of the abstract finite
    map; the final engine satisfies the tree invariant with the map's final
    contents. *)
Theorem betree_refines_map {P} `{LawfulPolicy P} (policy : P) params cs :
  legal_params params = true → (Z.of_nat (length (calls_ops cs)) ≤ u64_max)%Z →
  ∃ s, run_history (H := engine_with policy) params cs = Ok ((spec_calls cs ∅).1, s) ∧
    Inv s (spec_calls cs ∅).2 (Z.of_nat (length (calls_ops cs))).
Proof.
  intros Hlegal Hn.
  destruct (run_history_spec (H0 := laws_with policy) params cs Hlegal Hn) as (s & Hs & HI & _).
  by exists s.
Qed.

Lemma betree_refines_map_witness :
  ∃ s, run_history (H := engine_with mkGreedyFullest) demo_params demo_calls =
    Ok ((spec_calls demo_calls ∅).1, s) ∧ Inv s (spec_calls demo_calls ∅).2 5.
Proof.
  apply (betree_refines_map mkGreedyFullest demo_params demo_calls); [reflexivity|].
  vm_compute; discriminate.
Defined.

(** C12: the Bε-tree and the naive reference engine are observationally
    equivalent: the same history gives the same replies on both, and both
    record the same mutating ops with the same seqnos. *)
Theorem betree_equals_naive {P} `{LawfulPolicy P} (policy : P) params cs :
  legal_params params = true → (Z.of_nat (length (calls_ops cs)) ≤ u64_max)%Z →
  ∃ replies s e,
    run_history (H := engine_with policy) params cs = Ok (replies, s) ∧
    run_history (H := Naive.engine) params cs = Ok (replies, e) ∧
    ops_of (rec_v2 (trace s)) = ops_of (rec_v2 (nv_trace e)).
Proof.
  intros Hlegal Hn.
  destruct (run_history_spec (H0 := laws_with policy) params cs Hlegal Hn) as (s & Hs & _ & Hts).
  destruct (run_history_spec (H0 := Naive.laws) params cs Hlegal Hn) as (e & He & _ & Hte).
  eexists _, s, e. split_and!; [exact Hs|exact He|]. etrans; [exact Hts|by symmetry].
Qed.

Lemma betree_equals_naive_witness :
  ∃ replies s e,
    run_history (H := engine_with mkGreedyFullest) demo_params demo_calls = Ok (replies, s) ∧
    run_history (H := Naive.engine) demo_params demo_calls = Ok (replies, e) ∧
    ops_of (rec_v2 (trace s)) = ops_of (rec_v2 (nv_trace e)).
Proof.
  apply (betree_equals_naive mkGreedyFullest demo_params demo_calls); [reflexivity|].
  vm_compute; discriminate.
Defined.

(** C13: whatever public calls were made, in any order (mutations, reads,
    [drain] and [simulate_commit] included), the engine holds a tree that
    satisfies the structural invariants I1-I7 and whose every key has the
    value the calls prescribe, and [check_invariants] accepts it. *)
Theorem reachable_invariant `{Codec} {P} `{LawfulPolicy P} params (policy : P) evs s :
  legal_params params = true → bt_reach params policy evs s →
  (∃ t h, rooted (BeTree.params s) t s ∧ at_rest (BeTree.params s) h t ∧
     ∀ k, vval (view t k) = contents evs !! k) ∧
  check_invariants s = Ok (ROk tt).
Proof.
  intros Hlegal Hreach. pose proof (bt_reach_Inv _ _ _ _ Hlegal Hreach) as HI.
  split; [|by eapply check_spec]. destruct HI as (t & h & []). eauto.
Qed.

Lemma reachable_invariant_witness :
  (∃ t h, rooted (BeTree.params (after demo_run)) t (after demo_run) ∧
     at_rest (BeTree.params (after demo_run)) h t ∧
     ∀ k, vval (view t k) = contents demo_events !! k) ∧
  check_invariants (after demo_run) = Ok (ROk tt).
Proof.
  apply (reachable_invariant (H := bincode) demo_params mkGreedyFullest demo_events);
    [reflexivity|apply demo_events_reach].
Defined.

(** C14: no reachable engine gets stuck: every call that is not refused for
    lack of seqnos (or, for the simulated commit, because a node does not
    encode or the byte count overflows) returns. *)
Theorem reachable_progress `{Codec} {P} `{LawfulPolicy P} params (policy : P) evs s ev :
  legal_params params = true → bt_reach params policy evs s → enabled ev s →
  ∃ s', bt_step s ev s'.
Proof.
  intros Hlegal Hreach. eapply bt_step_progress. by eapply bt_reach_Inv.
Qed.

Lemma reachable_progress_witness :
  ∃ s', bt_step (H := bincode) (after demo_run) (EOp (Insert2 kc v2)) s'.
Proof.
  apply (reachable_progress (H := bincode) demo_params mkGreedyFullest demo_events);
    [reflexivity|apply demo_events_reach|].
  vm_compute. reflexivity.
Defined.

(** the reads of a reachable engine: [get] returns the value the calls
    prescribe, and [scan] the entries in range, by ascending key. *)
Theorem reachable_reads `{Codec} {P} `{LawfulPolicy P} params (policy : P) evs s :
  legal_params params = true → bt_reach params policy evs s →
  (∀ key, wp (BeTree.get key) (λ v _, v = contents evs !! key) s) ∧
  (∀ lo hi, wp (BeTree.scan lo hi) (λ r _, ∃ l, r = ROk l ∧ StronglySorted kv_lt l ∧
     ∀ k v, (k, v) ∈ l ↔ in_bounds lo hi k = true ∧ contents evs !! k = Some v) s).
Proof.
  intros Hlegal Hreach. pose proof (bt_reach_Inv _ _ _ _ Hlegal Hreach) as HI. split.
  - intros key. eapply wp_mono; [by apply get_spec|]. by intros v s' [-> _].
  - intros lo hi. eapply wp_mono; [by apply scan_spec|]. intros r s' (-> & _).
    eexists. split; [done|]. split; [apply StronglySorted_filter, bt_iter_sorted|].
    intros k v. unfold spec_scan. by rewrite list_elem_of_filter elem_of_bt_iter.
Qed.

Lemma reachable_reads_witness :
  (∀ key, wp (BeTree.get key) (λ v _, v = contents demo_events !! key) (after demo_run)) ∧
  (∀ lo hi, wp (BeTree.scan lo hi) (λ r _, ∃ l, r = ROk l ∧ StronglySorted kv_lt l ∧
     ∀ k v, (k, v) ∈ l ↔ in_bounds lo hi k = true ∧ contents demo_events !! k = Some v) (after demo_run)).
Proof.
  apply (reachable_reads (H := bincode) demo_params mkGreedyFullest demo_events);
    [reflexivity|apply demo_events_reach].
Defined.

(** C22: [check_invariants], on any source of nodes whose live part is a
    tree: it returns without panicking, and it accepts exactly when the
    tree satisfies the structural invariants for some uniform height and
    every path has strictly decreasing seqnos per key. *)
Theorem checker_decides {S} `{NodeSource S} (src : S) t :
  repr (src_arena src) t → NoDup (ids t) → label t = src_root src →
  2 * length (ids t) < 2 ^ src_fuel src →
  ∃ r, check_invariants src = Ok r ∧
    (r = ROk tt ↔ ∃ h, at_rest (src_params src) h t ∧ ∀ k, vfresh (view t k)).
Proof.
  intros Hr Hnd Hroot Hf. by apply check_invariants_walk.
Qed.

Lemma checker_decides_witness :
  ∃ r, check_invariants demo = Ok r ∧
    (r = ROk tt ↔ ∃ h, at_rest (src_params demo) h demo_tree ∧ ∀ k, vfresh (view demo_tree k)).
Proof.
  apply (checker_decides demo demo_tree); [repeat constructor|apply demo_NoDup|reflexivity|].
  apply (Nat.lt_le_trans _ (2 ^ 3)); [apply Nat.ltb_lt; reflexivity|].
  apply Nat.pow_le_mono_r; [discriminate|]. apply Nat.leb_le. vm_compute. reflexivity.
Defined.

(** C23: [drain] preserves the contents, the invariants and the recorded
    ops, and leaves no buffered message anywhere in the live tree. *)
Theorem drain_settles_everything {P} `{LawfulPolicy P} (s : BeTree P) m n :
  Inv s m n →
  wp (_ ← drain; self ← get_; b ← subtree_has_messages (root self); mret b) (λ b s',
    b = false ∧ Inv s' m n ∧ ops_of (rec_v2 (trace s')) = ops_of (rec_v2 (trace s))) s.
Proof.
  intros HI. apply wp_bind. eapply wp_mono; [by apply drain_spec|].
  intros _ s1 (t & h & Hinv & Hm & Ht). apply wp_bind, wp_get, wp_bind.
  eapply wp_mono; [by eapply root_has_messages|]. intros b s2 [-> ->]. apply wp_ret.
  split_and!; [by rewrite Hm|by exists t, h|done].
Qed.

Lemma drain_settles_everything_witness : ∃ s : BeTree GreedyFullest,
  wp (_ ← drain; self ← get_; b ← subtree_has_messages (root self); mret b) (λ b s',
    b = false ∧ Inv s' (spec_calls demo_calls ∅).2 5 ∧
    ops_of (rec_v2 (trace s')) = ops_of (rec_v2 (trace s))) s.
Proof.
  destruct demo_reached as (s & _ & HI). exists s.
  apply (drain_settles_everything s (spec_calls demo_calls ∅).2 5). exact HI.
Defined.

(** C24: [flush_with] is total, whatever the policy chooses.  From any
    subtree in the middle of its flush (buffer and fanout may overflow) it
    returns; the subtree is gone, or became sibling pieces whose ids and
    pivots are the ones handed to the parent; the pieces satisfy the
    invariants, every key reads the same and stays seqno-ordered, nothing
    outside the subtree changed, and a drain leaves no message. *)
Theorem flush_with_total {P} `{LawfulPolicy P} prm thr tr h lo hi t (s : BeTree P) :
  legal_params prm = true → thr ≤ buffer_capacity prm →
  flushable prm h lo hi t s → S h ≤ tree_cost t →
  wp (flush_with (label t) thr tr) (λ out s', ∃ qs cs, outcome_is (label t) qs cs out ∧
    becomes prm (S h) lo hi t s qs cs s' ∧
    (cs ≠ [] → kids_ok (good prm (S h)) lo hi qs cs) ∧
    (thr = 0 → sum_list_with msgs cs = 0)) s.
Proof. intros Hlegal Hthr Hfl Hh. exact (flush_with_spec prm thr tr Hlegal Hthr h lo hi t s Hfl Hh). Qed.

Lemma flush_with_total_witness :
  wp (flush_with 2 0 false) (λ out s', ∃ qs cs, outcome_is 2 qs cs out ∧
    becomes demo_params 1 None None demo_tree demo qs cs s' ∧
    (cs ≠ [] → kids_ok (good demo_params 1) None None qs cs) ∧
    (0 = 0 → sum_list_with msgs cs = 0)) demo.
Proof.
  apply (flush_with_total demo_params 0 false 0 None None demo_tree demo);
    [reflexivity|apply Nat.le_0_l|apply demo_flushable|].
  apply Nat.leb_le. vm_compute. reflexivity.
Defined.

(** C25: settling the root ([restore_root_with]: the cascade, new roots
    above split pieces, reclamation of an emptied tree, collapse of a
    single-child root) ends with a tree at rest in which every key reads
    the same. *)
Theorem restore_root_total {P} `{LawfulPolicy P} prm thr tr h t (s : BeTree P) :
  legal_params prm = true → thr ≤ buffer_capacity prm →
  rooted prm t s → settling prm h t → h ≤ tree_cost t →
  wp (restore_root_with thr tr) (λ _ s', ∃ h' t', rooted prm t' s' ∧ at_rest prm h' t' ∧
    (∀ k, vrefines (view t' k) (view t k)) ∧ keeps s s' ∧ (thr = 0 → msgs t' = 0)) s.
Proof.
  intros Hlegal Hthr Hrt Hset Hh.
  eapply wp_mono; [apply (restore_root_with_spec prm thr tr Hlegal Hthr h t s Hrt Hset Hh)|].
  intros [] s' Hr. exact Hr.
Qed.

Lemma restore_root_total_witness :
  wp (restore_root_with 1 true) (λ _ s', ∃ h' t', rooted demo_params t' s' ∧
    at_rest demo_params h' t' ∧ (∀ k, vrefines (view t' k) (view demo_tree k)) ∧ keeps demo s' ∧
    (1 = 0 → msgs t' = 0)) demo.
Proof.
  apply (restore_root_total demo_params 1 true 1 demo_tree demo);
    [reflexivity|apply le_n|apply demo_rooted| |].
  - split_and!; [apply keys_in_all|right; apply demo_kids|intros E; discriminate].
  - apply Nat.leb_le. vm_compute. reflexivity.
Defined.

(** C26: [pick_and_extract] with any lawful policy (or the greedy rule): a
    child with pending messages is chosen, the batch is exactly the
    messages routed to that child, the rest stays buffered, and no other
    node changes. *)
Theorem pick_and_extract_splits {P} `{LawfulPolicy P} id depth mode ps chs b (s : BeTree P) :
  wf_dirty s → arena s id = Some (Internal ps chs b) → length chs = S (length ps) →
  StronglySorted key_lt ps → b ≠ ∅ → Forall (λ ch, ch < length (nodes s)) chs →
  wp (pick_and_extract id depth mode) (λ '(chosen, child_id, occ, batch) s', ∃ kept,
    chs !! chosen = Some child_id ∧
    (∀ k, kept !! k = if decide (route ps k = chosen) then None else b !! k) ∧
    (∀ k, batch !! k = if decide (route ps k = chosen) then b !! k else None) ∧
    size kept + size batch = size b ∧ 1 ≤ size batch ∧
    evolves [id] s s' ∧ arena s' id = Some (Internal ps chs kept)) s.
Proof. apply pick_and_extract_spec. Qed.

Lemma pick_and_extract_splits_witness :
  wp (pick_and_extract 2 0 true) (λ '(chosen, child_id, occ, batch) s', ∃ kept,
    [0; 1] !! chosen = Some child_id ∧
    (∀ k, kept !! k = if decide (route [kb] k = chosen) then None else demo_buffer !! k) ∧
    (∀ k, batch !! k = if decide (route [kb] k = chosen) then demo_buffer !! k else None) ∧
    size kept + size batch = size demo_buffer ∧ 1 ≤ size batch ∧
    evolves [2] demo s' ∧ arena s' 2 = Some (Internal [kb] [0; 1] kept)) demo.
Proof.
  apply (pick_and_extract_splits 2 0 true [kb] [0; 1] demo_buffer demo); try reflexivity.
  - repeat constructor.
  - discriminate.
  - repeat constructor.
Defined.

(** C27: [apply_batch] on a child whose path is older than the batch: every
    message of the batch reaches the child (applied to a leaf's entry, or
    coalesced into a buffer, older then newer), no other key of the child
    and no other node changes, and the delivery reports an emptied leaf or
    an overflowed buffer. *)
Theorem apply_batch_delivers {P} c batch thr (s : BeTree P) :
  wf_dirty s → repr (arena s) c → NoDup (ids c) →
  (∀ k m, batch !! k = Some m → vbelow (Message_seq m) (view c k)) →
  wp (apply_batch (label c) batch thr) (λ d s', ∃ c1, delivered c batch c1 ∧
    repr (arena s') c1 ∧ evolves [label c] s s' ∧
    d = match c1 with
        | TLeaf _ e => DLeaf (bt_is_empty e)
        | TInt _ _ _ b => DInternal (thr <? size b)
        end) s.
Proof. apply apply_batch_spec. Qed.

Lemma apply_batch_delivers_witness :
  wp (apply_batch 1 {[kb := Delete 4]} 1) (λ d s', ∃ c1, delivered demo_leaf_b {[kb := Delete 4]} c1 ∧
    repr (arena s') c1 ∧ evolves [1] demo s' ∧
    d = match c1 with
        | TLeaf _ e => DLeaf (bt_is_empty e)
        | TInt _ _ _ b => DInternal (1 <? size b)
        end) demo.
Proof.
  apply (apply_batch_delivers demo_leaf_b {[kb := Delete 4]} 1 demo); [reflexivity|repeat constructor| |].
  - apply NoDup_singleton.
  - intros k m [<- <-]%lookup_singleton_Some. repeat constructor.
Defined.

(** C28: [split_if_needed] (hence [split_leaf] and [split_internal]): a
    node within its limits is left alone; an overfull one becomes pieces
    that respect the limits and the invariants, the first under its own id
    and the others under new ids, with exactly the promoted pivots and ids
    that the parent must integrate, every key reading the same. *)
Theorem split_if_needed_total {P} prm h lo hi t (s : BeTree P) :
  legal_params prm = true → params s = prm → wf_dirty s → splittable prm h lo hi t →
  repr (arena s) t → NoDup (ids t) →
  wp (split_if_needed (label t)) (λ out s', ∃ ps t0 cs, split_into prm h lo hi t s out ps t0 cs s') s.
Proof. apply split_if_needed_spec. Qed.

Definition wide_leaf : tree := TLeaf 0 (<[kb := mkLeafEntry 2 v2]> {[ka := mkLeafEntry 1 v1]}).
Definition wide : BeTree GreedyFullest :=
  mkBeTree demo_params [node_of wide_leaf] [true] 0 2 2 mkGreedyFullest Recorder_default.

Lemma split_if_needed_total_witness :
  wp (split_if_needed 0) (λ out s', ∃ ps t0 cs,
    split_into demo_params 0 None None wide_leaf wide out ps t0 cs s') wide.
Proof.
  apply (split_if_needed_total demo_params 0 None None wide_leaf wide); try reflexivity.
  - split; [apply keys_in_all|]. apply Nat.leb_le. reflexivity.
  - repeat constructor.
  - apply NoDup_singleton.
Defined.

(** [integrate_splits] puts the promoted pivots and ids next to the
    split child, in order, wherever the child stands. *)
Theorem integrate_splits_total {P} id prm h lo hi ps ks b i c qs c0 cs (s : BeTree P) :
  wf_dirty s → arena s id = Some (Internal ps (map label ks) b) →
  kids_ok (good prm h) lo hi ps ks → ks !! i = Some c → label c0 = label c →
  kids_ok (good prm h) (child_lower lo ps i) (child_upper hi ps i) qs (c0 :: cs) →
  wp (integrate_splits id (promoted_of qs (c0 :: cs))) (λ _ s', evolves [id] s s' ∧
    arena s' id = Some (Internal (take i ps ++ qs ++ drop i ps)
      (map label (take i ks ++ (c0 :: cs) ++ drop (S i) ks)) b)) s.
Proof. apply integrate_splits_spec. Qed.

Lemma integrate_splits_total_witness :
  wp (integrate_splits 2 [(kc, 7)]) (λ _ s', evolves [2] demo s' ∧
    arena s' 2 = Some (Internal [kb; kc] [0; 1; 7] demo_buffer)) demo.
Proof.
  apply (integrate_splits_total 2 demo_params 0 None None [kb] [demo_leaf_a; demo_leaf_b] demo_buffer 1
    demo_leaf_b [kc] demo_leaf_b [TLeaf 7 {[kc := mkLeafEntry 1 v1]}] demo); try reflexivity.
  - apply demo_kids.
  - constructor; [done..| |constructor]; (split; [by apply keys_in_singleton|]);
      split; apply Nat.leb_le; reflexivity.
Defined.

(** [remove_child] unlinks the child and the pivot that bounded it. *)
Theorem remove_child_total {P} id prm h lo hi ps ks b i c (s : BeTree P) :
  wf_dirty s → arena s id = Some (Internal ps (map label ks) b) →
  kids_ok (good prm h) lo hi ps ks → ks !! i = Some c → NoDup (map label ks) →
  wp (remove_child id (label c)) (λ _ s', evolves [id] s s' ∧
    arena s' id = Some (Internal (remove_pivot i ps) (map label (delete i ks)) b)) s.
Proof.
  intros. eapply wp_mono; [by apply (remove_child_spec id prm h lo hi ps ks b i c s)|].
  intros [] s' [Hev Hn]. split; [done|]. by rewrite replace_kids_nil in Hn.
Qed.

Lemma remove_child_total_witness :
  wp (remove_child 2 1) (λ _ s', evolves [2] demo s' ∧
    arena s' 2 = Some (Internal [] [0] demo_buffer)) demo.
Proof.
  apply (remove_child_total 2 demo_params 0 None None [kb] [demo_leaf_a; demo_leaf_b] demo_buffer 1
    demo_leaf_b demo); try reflexivity.
  - apply demo_kids.
  - apply (bool_decide_unpack _). reflexivity.
Defined.

(** C29: [simulate_commit] charges one superblock slot and, for each node
    that dirty-only edges reach from the root, once, its record header and
    the exact length of its encoding; it cleans those nodes, leaves every
    other flag, the tree and the contents alone, and resets the commit
    counter; a second commit in a row costs the superblock slot only. *)
Theorem simulate_commit_cost `{Codec} {P} (s : BeTree P) t h m n :
  tree_inv s t h m n → encodable s →
  (total_size (dirty_region (dirty s) t) + SUPERBLOCK_SLOT_SIZE ≤ u64_max)%Z →
  wp (cost ← simulate_commit; again ← simulate_commit; mret (cost, again)) (λ '(cost, again) s',
    cost = (total_size (dirty_region (dirty s) t) + SUPERBLOCK_SLOT_SIZE)%Z ∧
    again = SUPERBLOCK_SLOT_SIZE ∧ NoDup (dirty_region (dirty s) t).*1 ∧
    (∀ i, i ∈ (dirty_region (dirty s) t).*1 → dirty s' !! i = Some false) ∧
    (∀ i, i ∉ (dirty_region (dirty s) t).*1 → dirty s' !! i = dirty s !! i) ∧
    ops_since_commit s' = 0%Z ∧ tree_inv s' t h m n) s.
Proof.
  intros Hinv Henc Hmax. pose proof (ti_rooted _ _ _ _ _ Hinv) as [_ Hd _ Hr Hnd _].
  apply wp_bind. eapply wp_mono; [by eapply simulate_commit_spec|]. intros cost s1 [-> ->].
  pose proof (tree_inv_cleaned _ _ _ _ _ (dirty_region (dirty s) t) Hinv) as Hinv1.
  pose proof (cleaned_region_empty _ _ _ _ _ Hinv) as Hclean.
  apply wp_bind. eapply wp_mono.
  { eapply simulate_commit_spec; [exact Hinv1|done|]. cbn [dirty set_ops_since_commit set_dirty].
    rewrite Hclean. pose proof (total_size_nonneg (dirty_region (dirty s) t)). simpl. lia. }
  intros again s2 [-> ->]. cbn [dirty set_ops_since_commit set_dirty]. rewrite Hclean. apply wp_ret.
  split_and!; [done|done| | |intros i Hi; exact (lookup_cleaned_out _ _ _ Hi)|done|].
  - by apply dirty_region_NoDup.
  - intros i Hi. apply (lookup_cleaned_in _ _ _ Hi). rewrite Hd. eapply repr_ids_lt; [exact Hr|].
    by eapply dirty_region_ids.
  - exact (tree_inv_cleaned _ _ _ _ _ [] Hinv1).
Qed.

Lemma simulate_commit_cost_witness : ∃ (s : BeTree GreedyFullest) t h,
  wp (cost ← simulate_commit (H := bincode); again ← simulate_commit (H := bincode);
      mret (cost, again)) (λ '(cost, again) s',
    cost = (total_size (H := bincode) (dirty_region (dirty s) t) + SUPERBLOCK_SLOT_SIZE)%Z ∧
    again = SUPERBLOCK_SLOT_SIZE ∧ NoDup (dirty_region (dirty s) t).*1 ∧
    (∀ i, i ∈ (dirty_region (dirty s) t).*1 → dirty s' !! i = Some false) ∧
    (∀ i, i ∉ (dirty_region (dirty s) t).*1 → dirty s' !! i = dirty s !! i) ∧
    ops_since_commit s' = 0%Z ∧ tree_inv s' t h ∅ 0) s.
Proof.
  eexists _, (TLeaf 0 ∅), 0.
  apply (simulate_commit_cost (H := bincode) _ (TLeaf 0 ∅) 0 ∅ 0).
  - apply (new_tree_inv demo_params mkGreedyFullest). reflexivity.
  - repeat constructor. eexists. reflexivity.
  - vm_compute. discriminate.
Defined.

(** C30: a fork for simulation is an engine of its own that answers every
    later history like the original, under whatever lawful policy it was
    given; its arena holds exactly the live nodes, its trace is empty, and
    the dirty flags and the commit counter are carried over. *)
Theorem fork_equivalent {P P'} `{LawfulPolicy P} `{LawfulPolicy P'} (s : BeTree P) t h m n (p : P) (policy : P') cs :
  tree_inv s t h m n → (n + Z.of_nat (length (calls_ops cs)) ≤ u64_max)%Z →
  ∃ (fork : BeTree P') f, fork_for_sim s policy = Ok fork ∧
    node_count fork = length (ids t) ∧ trace fork = Recorder_default ∧
    ops_since_commit fork = ops_since_commit s ∧
    (∀ i, i ∈ ids t → dirty fork !! (f i : NodeId) = dirty s !! i) ∧
    ∃ replies s' fork', run_calls (H := engine_with p) cs s = Ok (replies, s') ∧
      run_calls (H := engine_with policy) cs fork = Ok (replies, fork').
Proof.
  intros Hinv Hn. destruct (fork_spec s t h m n policy Hinv) as (fork & f & Hf & Hinv' & Hc & Ht & Ho & _ & Hd).
  exists fork, f. split_and!; [done..|].
  destruct (run_calls_spec (H0 := laws_with p) cs s m n) as (rs & s' & Hs & -> & _); [by exists t, h|done|].
  destruct (run_calls_spec (H0 := laws_with policy) cs fork m n) as (rs & fork' & Hfk & -> & _); [|done|].
  - by exists (rename f t), h.
  - by eexists _, s', fork'.
Qed.

Lemma fork_equivalent_witness : ∃ (s : BeTree GreedyFullest) (fork : BeTree GreedyFullest) f,
  fork_for_sim s mkGreedyFullest = Ok fork ∧
    node_count fork = length (ids (TLeaf 0 ∅)) ∧ trace fork = Recorder_default ∧
    ops_since_commit fork = ops_since_commit s ∧
    (∀ i, i ∈ ids (TLeaf 0 ∅) → dirty fork !! (f i : NodeId) = dirty s !! i) ∧
    ∃ replies s' fork', run_calls (H := engine_with mkGreedyFullest) demo_calls s = Ok (replies, s') ∧
      run_calls (H := engine_with mkGreedyFullest) demo_calls fork = Ok (replies, fork').
Proof.
  eexists. apply (fork_equivalent _ (TLeaf 0 ∅) 0 ∅ 0 mkGreedyFullest mkGreedyFullest demo_calls).
  - apply (new_tree_inv demo_params mkGreedyFullest). reflexivity.
  - vm_compute. discriminate.
Defined.

(** C31: replaying a recorded v2 trace with [replay2], on any engine that
    keeps the contract, reproduces the engine that recorded it: the replay
    records the same mutating ops with the same seqnos, and both engines
    answer every further history alike. *)
Theorem replay2_reproduces {E1 E2} `{KvEngineLaws E1} `{KvEngineLaws E2} params cs cs' :
  legal_params params = true →
  (Z.of_nat (length (calls_ops cs)) + Z.of_nat (length (calls_ops cs')) ≤ u64_max)%Z →
  ∃ replies (e1 : E1) (e2 : E2), run_history params cs = Ok (replies, e1) ∧
    replay2 params (kv_trace2 e1) = Ok e2 ∧
    ops_of (kv_trace2 e2) = ops_of (kv_trace2 e1) ∧
    ∃ replies' e1' e2', run_calls cs' e1 = Ok (replies', e1') ∧ run_calls cs' e2 = Ok (replies', e2').
Proof.
  intros Hlegal Hn.
  destruct (run_history_spec (E := E1) params cs Hlegal ltac:(lia)) as (e1 & He1 & Hrep1 & Ht1).
  destruct (replay2_spec (E := E2) params (kv_trace2 e1) Hlegal) as (e2 & He2 & Hrep2 & Ht2).
  { rewrite Ht1 -(length_fmap snd) number_ops_snd. lia. }
  rewrite Ht1 number_ops_snd -spec_calls_ops -(length_fmap snd) number_ops_snd in Hrep2.
  eexists _, e1, e2. split_and!; [exact He1|exact He2|by rewrite Ht2 Ht1 number_ops_snd|].
  destruct (run_calls_spec cs' e1 _ _ Hrep1) as (rs1 & e1' & Hr1 & -> & _); [lia|].
  destruct (run_calls_spec cs' e2 _ _ Hrep2) as (rs2 & e2' & Hr2 & -> & _); [lia|]. eauto.
Qed.

Lemma replay2_reproduces_witness :
  ∃ replies (e1 : BeTree GreedyFullest) (e2 : NaiveEngine),
    run_history demo_params demo_calls = Ok (replies, e1) ∧
    replay2 (H := Naive.engine) demo_params (kv_trace2 e1) = Ok e2 ∧
    ops_of (kv_trace2 (KvEngine := Naive.engine) e2) = ops_of (kv_trace2 e1) ∧
    ∃ replies' e1' e2', run_calls demo_calls e1 = Ok (replies', e1') ∧
      run_calls (H := Naive.engine) demo_calls e2 = Ok (replies', e2').
Proof.
  apply (replay2_reproduces (H0 := laws) (H2 := Naive.laws) demo_params demo_calls demo_calls);
    [reflexivity|vm_compute; discriminate].
Defined.

(** C32: what an engine records: the ops of its v2 trace are exactly the
    mutating calls, numbered 1, 2, 3, ... in call order (flush decisions,
    gets and scans take no seqno), and its v1 trace is the v2 trace without
    scans, deletes and upserts. *)
Theorem trace_records_calls {P} `{LawfulPolicy P} (policy : P) params cs :
  legal_params params = true → (Z.of_nat (length (calls_ops cs)) ≤ u64_max)%Z →
  ∃ replies s, run_history (H := engine_with policy) params cs = Ok (replies, s) ∧
    ops_of (rec_v2 (trace s)) = number_ops 0 (calls_ops cs) ∧
    rec_v1 (trace s) = omap project_v1 (rec_v2 (trace s)).
Proof.
  intros Hlegal Hn.
  destruct (run_history_spec (H0 := laws_with policy) params cs Hlegal Hn) as (s & Hs & HI & Ht).
  eexists _, s. split_and!; [exact Hs|exact Ht|]. destruct HI as (t & h & []). done.
Qed.

Lemma trace_records_calls_witness :
  ∃ replies s, run_history (H := engine_with mkGreedyFullest) demo_params demo_calls = Ok (replies, s) ∧
    ops_of (rec_v2 (trace s)) = number_ops 0 (calls_ops demo_calls) ∧
    rec_v1 (trace s) = omap project_v1 (rec_v2 (trace s)).
Proof.
  apply (trace_records_calls mkGreedyFullest demo_params demo_calls); [reflexivity|].
  vm_compute; discriminate.
Defined.

(** C40: the refusals: an engine is built exactly for the documented
    parameters (F >= 2, B >= 1, L >= 1; anything else panics), and a
    mutating op panics on the overflow, rather than reuse a seqno, exactly when the [u64]
    seqnos have run out. *)
Theorem refusals {P} `{LawfulPolicy P} params (policy : P) :
  (with_policy params policy = Panic ↔
     ¬ (2 ≤ fanout params ∧ 1 ≤ buffer_capacity params ∧ 1 ≤ leaf_capacity params)) ∧
  ∀ s m n op, Inv s m n → (run_op (H := engine_with policy) op s = Overflow ↔ (u64_max ≤ n)%Z).
Proof.
  split.
  - rewrite -legal_params_spec. unfold with_policy. destruct (legal_params params); simpl; naive_solver.
  - intros s m n op HI. split.
    + intros Hpanic. destruct (decide (n < u64_max)%Z) as [Hlt|]; [|lia].
      destruct (mutate_spec op s m n HI Hlt) as (u & s' & Hrun & _).
      rewrite run_op_eq Hrun in Hpanic. done.
    + intros Hge. rewrite run_op_eq. destruct HI as (t & h & [_ _ _ _ _ Hn _ _]).
      unfold next_op, mbind, M_bind, get_, lift, u64_add. rewrite Hn.
      by rewrite (proj2 (Z.leb_gt _ _)); [lia|].
Qed.

Lemma refusals_witness :
  (with_policy (mkParams 1 1 1) mkGreedyFullest = Panic ↔
     ¬ (2 ≤ fanout (mkParams 1 1 1) ∧ 1 ≤ buffer_capacity (mkParams 1 1 1) ∧
        1 ≤ leaf_capacity (mkParams 1 1 1))) ∧
  ∀ s m n op, Inv s m n → (run_op (H := engine_with mkGreedyFullest) op s = Overflow ↔ (u64_max ≤ n)%Z).
Proof. apply (refusals (mkParams 1 1 1) mkGreedyFullest). Defined.

(** the observers: [height] is the number of levels of the tree, and
    [node_count] is at least the number of live nodes. *)
Theorem observers_correct {P} (s : BeTree P) t h m n :
  tree_inv s t h m n →
  wp height (λ r s', r = h + 1 ∧ s' = s) s ∧ length (ids t) ≤ node_count s.
Proof.
  intros Hinv. split; [|by eapply node_count_ge].
  eapply wp_mono; [by eapply height_spec|]. by intros r s' [-> ->].
Qed.

Lemma observers_correct_witness : ∃ s : BeTree GreedyFullest,
  wp height (λ r s', r = 0 + 1 ∧ s' = s) s ∧ length (ids (TLeaf 0 ∅)) ≤ node_count s.
Proof.
  eexists. apply (observers_correct _ (TLeaf 0 ∅) 0 ∅ 0).
  apply (new_tree_inv demo_params mkGreedyFullest). reflexivity.
Defined.

Definition demo_end : outcome (list Reply * BeTree GreedyFullest) := run_history demo_params demo_calls.

(** The nodes of an arena, without keys and values. *)
Inductive shape : Type := NLeaf | NInternal (children : list NodeId).
Definition shape_of (n : Node) : shape :=
  match n with Leaf _ => NLeaf | Internal _ children _ => NInternal children end.
Definition node_shapes {P} (s : BeTree P) : list shape := map shape_of (nodes s).

Lemma three_live_nodes {P} (s : BeTree P) t h m n :
  tree_inv s t h m n → root s = 2 → node_shapes s = [NLeaf; NLeaf; NInternal [1; 3]; NLeaf] →
  length (ids t) = 3.
Proof.
  intros Hinv Hroot Hshape. pose proof (ti_rooted _ _ _ _ _ Hinv) as Hrt.
  assert (∀ i x, node_shapes s !! i = Some x → ∃ nd, nodes s !! i = Some nd ∧ shape_of nd = x) as Hnd.
  { intros i x Hi. unfold node_shapes in Hi. rewrite list_lookup_fmap in Hi.
    destruct (nodes s !! i) as [nd|]; [|done]. exists nd. split; [done|]. by injection Hi. }
  rewrite Hshape in Hnd. destruct (Hnd 1 NLeaf eq_refl) as ([|e1] & H1 & Hsh); [discriminate Hsh|]. clear Hsh.
  destruct (Hnd 3 NLeaf eq_refl) as ([|e3] & H3 & Hsh); [discriminate Hsh|]. clear Hsh.
  destruct (Hnd 2 (NInternal [1; 3]) eq_refl) as ([ps0 chs0 b0|] & H2 & Hsh); [|discriminate Hsh].
  injection Hsh as ->. pose proof (rt_repr _ _ _ Hrt) as Hr. pose proof (repr_label _ _ Hr) as Hl.
  rewrite -(rt_root _ _ _ Hrt) Hroot in Hl. unfold arena in Hl. rewrite H2 in Hl.
  injection Hl as Hl. destruct t as [id e|id ps ks b]; [done|]. injection Hl as _ Hks _.
  destruct ks as [|c1 [|c3 [|]]]; try done. injection Hks as Hc1 Hc3.
  apply repr_TInt in Hr as [_ Hr]. apply forest_repr_cons in Hr as [Hr1 [Hr3 _]%forest_repr_cons].
  apply repr_label in Hr1, Hr3. unfold arena in Hr1, Hr3. rewrite -Hc1 H1 in Hr1. rewrite -Hc3 H3 in Hr3.
  by destruct c1, c3.
Qed.

(** [node_count] can exceed the live nodes: at the end of the
    demonstration history the arena holds four nodes, of which three are
    live (the leaf that the delete emptied leaks). *)
Theorem node_count_leaks :
  ∃ replies s t, demo_end = Ok (replies, s) ∧ rooted demo_params t s ∧
    length (ids t) = 3 ∧ node_count s = 4.
Proof.
  assert (match demo_end with
    | Ok (_, s) => (node_count s, root s, BeTree.params s) = (4, 2, demo_params) ∧
        node_shapes s = [NLeaf; NLeaf; NInternal [1; 3]; NLeaf]
    | _ => False
    end) as Hend by (vm_compute; split; reflexivity).
  destruct demo_reached as (s & Hs & t & h & Hinv). change (run_history _ _) with demo_end in Hs.
  rewrite Hs in Hend. destruct Hend as [Hk Hshape]. injection Hk as Hc Hroot Hprm.
  exists (spec_calls demo_calls ∅).1, s, t. split; [exact Hs|clear Hs].
  split; [rewrite -Hprm; exact (ti_rooted _ _ _ _ _ Hinv)|].
  split; [exact (three_live_nodes s t h _ _ Hinv Hroot Hshape)|exact Hc].
Qed.
