(* ===== verification/DataProps.v ===== *)
(** * Correctness of the data types and node helpers

    The message algebra, the helpers of tree nodes, the greedy policy and
    the superblock format. *)

From S2P Require Export Demo Jsonl.
From stdpp Require Import options.
From Stdlib Require Import ZArith.

(** C36: [Message::coalesce] means "older, then newer": it panics exactly
    when the seqnos are not in order, and its result carries the newer
    seqno and acts on every value as the older message followed by the
    newer one. *)
Theorem coalesce_composes self older :
  match coalesce self older with
  | Ok m => (Message_seq older < Message_seq self)%Z ∧ Message_seq m = Message_seq self ∧
      ∀ v, msg_apply m v = msg_apply self (msg_apply older v)
  | Panic => (Message_seq self ≤ Message_seq older)%Z
  | Overflow | OutOfFuel => False
  end.
Proof.
  unfold coalesce. destruct (_ <? _)%Z eqn:E; simpl.
  - apply Z.ltb_lt in E. split_and!; [done|apply coalesce_result_seq|]. apply coalesce_result_apply.
  - by apply Z.ltb_ge in E.
Qed.

(** coalescing is associative: the order in which a chain of pending
    messages is collapsed does not matter. *)
Theorem coalesce_assoc a b c :
  (Message_seq c < Message_seq b)%Z → (Message_seq b < Message_seq a)%Z →
  (m ← coalesce b c; coalesce a m) = (m ← coalesce a b; coalesce m c).
Proof.
  intros Hcb Hba. rewrite (coalesce_Ok b c) // (coalesce_Ok a b) //=.
  rewrite !coalesce_Ok ?coalesce_result_seq //; [lia|]. f_equal.
  destruct a as [| |sa [da]]; [done..|]. destruct b as [sb v|sb|sb [db]]; [done..|].
  destruct c as [sc v|sc|sc [dc]]; cbn [coalesce_result].
  - by rewrite UpsertOp_apply_apply.
  - by rewrite UpsertOp_apply_apply.
  - by rewrite i64_add_assoc.
Qed.

Lemma coalesce_assoc_witness :
  (m ← coalesce (Upsert 2 (Add 5)) (Put 1 v1); coalesce (Upsert 3 (Add 7)) m) =
  (m ← coalesce (Upsert 3 (Add 7)) (Upsert 2 (Add 5)); coalesce m (Put 1 v1)).
Proof. apply (coalesce_assoc (Upsert 3 (Add 7)) (Upsert 2 (Add 5)) (Put 1 v1)); reflexivity. Defined.

(** The value that a list of [Add]s accumulates. *)
Definition add_all (ds : list Z) (v : option Value) : option Value :=
  foldl (λ v d, Some (UpsertOp_apply (Add d) v)) v ds.

(** [UpsertOp::apply] is total and counts: on an absent or malformed
    (not 8-byte) value the base is 0, the result is always 8 bytes, and a
    sequence of [Add]s leaves the wrapping [i64] sum of all the deltas. *)
Theorem upserts_accumulate d ds v :
  ∃ bytes, add_all (d :: ds) v = Some bytes ∧ length bytes = 8 ∧
    i64_from_le_bytes bytes = i64_wrap
      (match v with Some b => if (length b =? 8)%nat then i64_from_le_bytes b else 0 | None => 0 end
       + foldr Z.add 0 (d :: ds))%Z.
Proof.
  assert (∀ ds d v, add_all ds (Some (UpsertOp_apply (Add d) v)) =
    Some (UpsertOp_apply (Add (i64_wrap (d + foldr Z.add 0 ds)%Z)) v)) as H.
  { clear. unfold add_all. induction ds as [|d' ds IH]; intros d v; cbn [foldl foldr].
    - by rewrite Z.add_0_r UpsertOp_apply_wrap.
    - rewrite UpsertOp_apply_apply IH. do 3 f_equal. unfold i64_wrapping_add.
      apply i64_wrap_eq. rewrite -Zplus_mod_idemp_l i64_wrap_mod Zplus_mod_idemp_l. f_equal. lia. }
  unfold add_all in *. cbn [foldl]. rewrite H. eexists. split; [done|].
  split; [apply length_UpsertOp_apply|]. rewrite UpsertOp_apply_wrap.
  unfold UpsertOp_apply. rewrite i64_from_to_le_bytes (i64_wrap_id (i64_wrapping_add _ _)); [apply i64_wrap_range|].
  done.
Qed.

Lemma stale_or_newer {A} (seq : A → Z) (o : option A) n :
  (∃ a, o = Some a ∧ (n ≤ seq a)%Z) ∨ ∀ a, o = Some a → (seq a < n)%Z.
Proof.
  destruct o as [a|]; [|by right]. destruct (decide (n ≤ seq a)%Z); [left; eauto|].
  right. intros ? [= <-]. lia.
Qed.

(** [apply_to_leaf]: it panics exactly when the leaf's entry is not
    older than the message; otherwise only that key changes, to the value
    the message means over the old one, under the message's seqno. *)
Theorem apply_to_leaf_correct entries key m :
  match apply_to_leaf entries key m with
  | Ok entries' =>
      (∀ e, entries !! key = Some e → (le_seq e < Message_seq m)%Z) ∧
      le_value <$> entries' !! key = msg_apply m (le_value <$> entries !! key) ∧
      (∀ e, entries' !! key = Some e → le_seq e = Message_seq m) ∧
      ∀ j, j ≠ key → entries' !! j = entries !! j
  | Panic => ∃ e, entries !! key = Some e ∧ (Message_seq m ≤ le_seq e)%Z
  | Overflow | OutOfFuel => False
  end.
Proof.
  destruct (stale_or_newer le_seq (entries !! key) (Message_seq m)) as [(e & He & Hle)|Hlt].
  - assert ((le_seq e <? Message_seq m)%Z = false) as E by lia.
    assert (apply_to_leaf entries key m = Panic) as ->
      by (unfold apply_to_leaf; destruct m; simpl in *; by rewrite He E).
    eauto.
  - destruct (apply_to_leaf_Ok entries key m Hlt) as (e' & -> & Hk & Hne). split_and!; [done| | |done].
    + by rewrite Hk leaf_result_value.
    + intros e. rewrite Hk. apply leaf_result_seq.
Qed.

(** [coalesce_into]: it panics exactly when the buffered message is
    not older; otherwise only that key changes, and the buffer then means
    the old message followed by the new one, under the new seqno. *)
Theorem coalesce_into_correct buffer key m :
  match coalesce_into buffer key m with
  | Ok buffer' =>
      (∀ o, buffer !! key = Some o → (Message_seq o < Message_seq m)%Z) ∧
      (∃ m', buffer' !! key = Some m' ∧ Message_seq m' = Message_seq m ∧
         ∀ v, msg_apply m' v =
           msg_apply m (match buffer !! key with Some o => msg_apply o v | None => v end)) ∧
      ∀ j, j ≠ key → buffer' !! j = buffer !! j
  | Panic => ∃ o, buffer !! key = Some o ∧ (Message_seq m ≤ Message_seq o)%Z
  | Overflow | OutOfFuel => False
  end.
Proof.
  destruct (stale_or_newer Message_seq (buffer !! key) (Message_seq m)) as [(o & Ho & Hle)|Hlt].
  - assert ((Message_seq o <? Message_seq m)%Z = false) as E by lia.
    unfold coalesce_into. rewrite Ho E. simpl. by exists o.
  - destruct (coalesce_into_Ok buffer key m Hlt) as (b' & -> & Hk & Hne). split_and!; [done| |done].
    eexists. split; [exact Hk|]. destruct (buffer !! key) as [o|]; simpl; [|done].
    split; [apply coalesce_result_seq|]. apply coalesce_result_apply.
Qed.

(** [route] on sorted pivots is a position, and it is the child whose
    half-open key interval [p_(i-1), p_i) holds the key. *)
Theorem route_correct pivots key :
  StronglySorted key_lt pivots →
  route pivots key ≤ length pivots ∧
  ∀ i, i ≤ length pivots → (route pivots key = i ↔
    (∀ p, i ≠ 0 → pivots !! (i - 1) = Some p → key_le p key) ∧
    (∀ p, pivots !! i = Some p → key_lt key p)).
Proof.
  intros Hs. pose proof (route_le pivots key) as Hle. split; [done|].
  assert (∀ j p, pivots !! j = Some p → j < route pivots key ↔ key_le p key) as Hr
    by (intros j p Hj; by apply route_lt_pivot).
  intros i Hi. split.
  - intros <-. split.
    + intros p Hne Hp. apply (Hr _ _ Hp). lia.
    + intros p Hp. apply key_not_le. intros ?%(Hr _ _ Hp). lia.
  - intros [Hlo Hhi]. destruct (decide (route pivots key < i)) as [Hlt|].
    { destruct (lookup_lt_is_Some_2 pivots (i - 1)) as [p Hp]; [lia|].
      specialize (Hlo p ltac:(lia) Hp). apply (Hr _ _ Hp) in Hlo. lia. }
    destruct (decide (i < route pivots key)) as [Hlt|]; [|lia].
    destruct (lookup_lt_is_Some_2 pivots i) as [p Hp]; [lia|].
    specialize (Hhi p Hp). apply (Hr _ _ Hp) in Hlt. exfalso. key_order.
Qed.

Lemma route_correct_witness :
  route [kb] ka ≤ 1 ∧
  ∀ i, i ≤ 1 → (route [kb] ka = i ↔
    (∀ p, i ≠ 0 → [kb] !! (i - 1) = Some p → key_le p ka) ∧ (∀ p, [kb] !! i = Some p → key_lt ka p)).
Proof. apply (route_correct [kb] ka). repeat constructor. Defined.

(** clipping a range to a child's interval ([clip_lower] with the
    pivot on its left, [clip_upper] with the pivot on its right) keeps
    exactly the keys of the range that belong to the child. *)
Theorem clip_exact lo hi pl pr k :
  in_bounds (clip_lower lo pl) (clip_upper hi pr) k =
  in_bounds lo hi k && in_range k (Some pl) (Some pr).
Proof.
  unfold in_bounds. rewrite above_clip_lower below_clip_upper. simpl.
  unfold in_range, key_leb. destruct (above_lower lo k), (below_upper hi k), (key_ltb k pl), (key_ltb k pr); done.
Qed.

(** [range_is_empty] is the right guard for [BTreeMap::range]: a range
    it lets through never panics, whatever the map, and yields exactly the
    entries in bounds; on a range it stops no key is in bounds. *)
Theorem range_is_empty_guards {V} (m : BTreeMap V) lo hi :
  if range_is_empty lo hi then ∀ k, in_bounds lo hi k = false
  else ∃ l, bt_range m lo hi = Ok l ∧ StronglySorted kv_lt l ∧
    ∀ k v, (k, v) ∈ l ↔ in_bounds lo hi k = true ∧ m !! k = Some v.
Proof.
  destruct (range_is_empty lo hi) eqn:E.
  - intros k. by apply range_is_empty_true.
  - eexists. rewrite bt_range_Ok; [by apply range_is_empty_false|]. split; [done|].
    split; [apply StronglySorted_filter, bt_iter_sorted|].
    intros k v. by rewrite list_elem_of_filter elem_of_bt_iter.
Qed.

(** [partition_sizes] terminates and partitions: positive sizes within
    the capacity that sum up to [n]; at least two of them when [n] is over
    the capacity, and fewer than [n] when the capacity is at least two
    (so that splitting a node always makes progress upwards). *)
Theorem partition_sizes_correct n cap :
  1 ≤ cap → 1 ≤ n →
  ∃ sizes, partition_sizes n cap = Ok sizes ∧ sum_list sizes = n ∧
    Forall (λ s, 1 ≤ s ≤ cap) sizes ∧ (n ≤ cap → sizes = [n]) ∧
    (cap < n → 2 ≤ length sizes) ∧ (2 ≤ cap → cap < n → length sizes < n).
Proof.
  intros Hcap Hn. destruct (partition_sizes_Ok n cap Hcap) as (sizes & Hs & Hsum & Hc & Hp & H1 & H2 & H3).
  exists sizes. split_and!; try done. specialize (Hp Hn). rewrite Forall_forall in Hc.
  rewrite Forall_forall in Hp. apply Forall_forall. intros s Hin. split; auto.
Qed.

Lemma partition_sizes_correct_witness :
  ∃ sizes, partition_sizes 11 3 = Ok sizes ∧ sum_list sizes = 11 ∧
    Forall (λ s, 1 ≤ s ≤ 3) sizes ∧ (11 ≤ 3 → sizes = [11]) ∧
    (3 < 11 → 2 ≤ length sizes) ∧ (2 ≤ 3 → 3 < 11 → length sizes < 11).
Proof. apply (partition_sizes_correct 11 3); lia. Defined.

(** [GreedyFullest] picks the first of the fullest children, and keeps
    the [FlushPolicy] contract: with a pending message anywhere, the child
    it picks has one. *)
Theorem greedy_picks_fullest (self : GreedyFullest) (ctx : FlushCtx) :
  child_pending ctx ≠ [] →
  ∃ i n, Policy.choose self ctx = Ok (i, mkGreedyFullest) ∧ child_pending ctx !! i = Some n ∧
    (∀ j m, child_pending ctx !! j = Some m → m ≤ n) ∧
    (∀ j m, child_pending ctx !! j = Some m → m = n → i ≤ j) ∧
    (Exists (λ m, 0 < m) (child_pending ctx) → 0 < n).
Proof.
  intros Hne. destruct (pick_fullest _ Hne) as (c & Hc & n & Hn & Hmax).
  exists c, n. unfold Policy.choose, GreedyFullest_policy. rewrite Hc. destruct self. split_and!; try done.
  - intros j m Hj. by destruct (Hmax j m Hj).
  - intros j m Hj ->. destruct (Hmax j n Hj) as [_ Hlt]. destruct (decide (j < c)); [specialize (Hlt l)|]; lia.
  - intros (m & Hm & Hpos)%Exists_exists. apply list_elem_of_lookup in Hm as [j Hj].
    destruct (Hmax j m Hj). lia.
Qed.

Definition demo_ctx : FlushCtx := mkFlushCtx 2 0 [1; 3; 3] [30; 90; 90]%Z [false; true; false] 7 4.

Lemma greedy_picks_fullest_witness :
  ∃ i n, Policy.choose mkGreedyFullest demo_ctx = Ok (i, mkGreedyFullest) ∧
    child_pending demo_ctx !! i = Some n ∧
    (∀ j m, child_pending demo_ctx !! j = Some m → m ≤ n) ∧
    (∀ j m, child_pending demo_ctx !! j = Some m → m = n → i ≤ j) ∧
    (Exists (λ m, 0 < m) (child_pending demo_ctx) → 0 < n).
Proof. apply (greedy_picks_fullest mkGreedyFullest demo_ctx). discriminate. Defined.

(** the occupancies given to the policy count, child by child, the
    buffered messages that route to it, and add up to the buffer. *)
Theorem occupancies_count pivots children buffer :
  length children = S (length pivots) →
  ∃ occ bytes, occupancies_of pivots children buffer = Ok (occ, bytes) ∧
    length occ = length children ∧ length bytes = length children ∧ sum_list occ = size buffer ∧
    ∀ i, i < length children →
      occ !! i = Some (length (filter (λ kv, route pivots kv.1 = i) (bt_iter buffer))) ∧
      bytes !! i = Some (foldr (λ kv, Z.add (entry_bytes kv.1 kv.2)) 0%Z
        (filter (λ kv, route pivots kv.1 = i) (bt_iter buffer))).
Proof.
  intros Hl. destruct (occupancies_of_Ok _ _ buffer Hl) as (occ & bytes & E & Hlo & Hlb & Hsum & Ho).
  by exists occ, bytes.
Qed.

Lemma occupancies_count_witness :
  ∃ occ bytes, occupancies_of [kb] [0; 1] demo_buffer = Ok (occ, bytes) ∧
    length occ = 2 ∧ length bytes = 2 ∧ sum_list occ = size demo_buffer ∧
    ∀ i, i < 2 →
      occ !! i = Some (length (filter (λ kv, route [kb] kv.1 = i) (bt_iter demo_buffer))) ∧
      bytes !! i = Some (foldr (λ kv, Z.add (entry_bytes kv.1 kv.2)) 0%Z
        (filter (λ kv, route [kb] kv.1 = i) (bt_iter demo_buffer))).
Proof. apply (occupancies_count [kb] [0; 1] demo_buffer). reflexivity. Defined.

(** C38: a superblock that the engine writes is read back: with [bincode]
    and [crc32fast] behaving as documented, [encode_slot] yields a full
    4096-byte slot, and [decode_slot] of it is the superblock itself when
    its geometry and params are sane, and a refusal of the version when
    only the version differs. *)
Theorem superblock_slot_roundtrip `{CodecLaws} sb :
  superblock_wf sb → magic sb = MAGIC →
  ∃ slot, encode_slot sb = Ok (ROk slot) ∧ Z.of_nat (length slot) = SUPERBLOCK_SLOT_SIZE ∧
    (format_version sb = FORMAT_VERSION → geometry_legal sb → decode_slot slot = Ok (Valid sb)) ∧
    (format_version sb ≠ FORMAT_VERSION → decode_slot slot = Ok (WrongVersion (format_version sb))).
Proof.
  intros Hwf Hmagic. destruct (superblock_encodes sb Hwf) as (bs & Ebs & Hl).
  destruct (encode_decode_slot sb bs Ebs Hl) as (slot & Es & Hlen & Hd).
  exists slot. split_and!; [done|done| |]; rewrite Hd; unfold slot_status; rewrite (decide_True _ _ Hmagic).
  - intros Hv Hg. by rewrite !decide_True.
  - intros Hv. by rewrite decide_False.
Qed.

Definition demo_superblock : Superblock := mkSuperblock MAGIC FORMAT_VERSION demo_params 4 1 8192 8300.

Lemma superblock_slot_roundtrip_witness :
  ∃ slot, encode_slot (H := bincode) demo_superblock = Ok (ROk slot) ∧
    Z.of_nat (length slot) = SUPERBLOCK_SLOT_SIZE ∧
    (format_version demo_superblock = FORMAT_VERSION → geometry_legal demo_superblock →
     decode_slot (H := bincode) slot = Ok (Valid demo_superblock)) ∧
    (format_version demo_superblock ≠ FORMAT_VERSION →
     decode_slot (H := bincode) slot = Ok (WrongVersion (format_version demo_superblock))).
Proof.
  apply (superblock_slot_roundtrip (H0 := bincode_laws) demo_superblock); [|reflexivity].
  repeat split; discriminate.
Defined.

(** C39: [decode_slot] is total and refuses what it cannot trust: on any
    bytes it returns (no index panic, no overflow), and a superblock it
    accepts comes from a full slot whose checksum matches, has the magic
    and the current version, legal params, and a root record that lies in
    the data region with room for its header below the watermark. *)
Theorem decode_slot_safe `{Codec} slot :
  ∃ status, decode_slot slot = Ok status ∧
    match status with
    | Valid sb =>
        Z.of_nat (length slot) = SUPERBLOCK_SLOT_SIZE ∧
        crc32_hash (take 4092 slot) = le_decode (drop 4092 slot) ∧
        magic sb = MAGIC ∧ format_version sb = FORMAT_VERSION ∧
        legal_params (sb_params sb) = true ∧
        (DATA_START ≤ root_offset sb ∧ root_offset sb + RECORD_HEADER_SIZE ≤ watermark sb)%Z
    | WrongVersion found =>
        crc32_hash (take 4092 slot) = le_decode (drop 4092 slot) ∧ found ≠ FORMAT_VERSION
    | Invalid => True
    end.
Proof.
  destruct (decode_slot_total slot) as (status & Hd). exists status. split; [done|].
  destruct (decide (status = Invalid)) as [->|Hne]; [done|].
  destruct (decode_slot_inv slot status Hd Hne) as (body & tail & sb & n & -> & Hb & Ht & Hcrc & _ & ->).
  rewrite take_app_length' // drop_app_length' //. unfold slot_status in *.
  destruct (decide (magic sb = MAGIC)) as [Hm|]; [|done].
  destruct (decide (format_version sb = FORMAT_VERSION)) as [Hv|]; [|done].
  destruct (decide (geometry_legal sb)) as [(Hr & Hw & Hp)|]; [|done].
  split_and!; try done. rewrite length_app Hb Ht. reflexivity.
Qed.

(** C37: traces survive the JSON-lines format.  For any serializer of events
    whose text is compact JSON, [to_jsonl] writes one line per event (or
    fails on an event that the serializer refuses), and [from_jsonl] reads
    the events back, in order, from what [to_jsonl] wrote as from every text
    that differs from it by blank lines anywhere and by the convention for
    the end of a line. *)
Theorem jsonl_roundtrip `{SerdeJsonLaws TraceEvent} events :
  match to_jsonl events with
  | ROk text => from_jsonl text = ROk events ∧ length (lines text) = length events
  | RErr e => ∃ event, event ∈ events ∧ to_string event = RErr e
  end ∧ ∀ text, jsonl_text events text → from_jsonl text = ROk events.
Proof.
  split; [|intros text; apply from_jsonl_text]. destruct (to_jsonl events) as [text|e] eqn:E.
  - destruct (to_jsonl_text _ _ E) as [Ht Hl]. split; [by apply from_jsonl_text|done].
  - pose proof (to_jsonl_from_spec [] events) as Hs. unfold to_jsonl in E. by rewrite E in Hs.
Qed.

(** A serializer: an event as the binary digits of its number. *)
Definition event_sum (event : TraceEvent) : (Z * (Key * Value)) + (Key + (nat * list nat * nat)) :=
  match event with
  | Op seq (Insert key value) => inl (seq, (key, value))
  | Get key => inr (inl key)
  | FlushDecision node occ chosen => inr (inr (node, occ, chosen))
  end.
Definition sum_event (x : (Z * (Key * Value)) + (Key + (nat * list nat * nat))) : TraceEvent :=
  match x with
  | inl (seq, (key, value)) => Op seq (Insert key value)
  | inr (inl key) => Get key
  | inr (inr (node, occ, chosen)) => FlushDecision node occ chosen
  end.
#[local] Instance OpKind_eq_dec : EqDecision OpKind.
Proof. solve_decision. Defined.
#[local] Instance TraceEvent_eq_dec : EqDecision TraceEvent.
Proof. solve_decision. Defined.
#[local] Instance TraceEvent_countable : Countable TraceEvent.
Proof. apply (inj_countable' event_sum sum_event). by intros [? []| |]. Defined.

Fixpoint digits (p : positive) : str :=
  match p with xH => [49%Z] | xO p => 48%Z :: digits p | xI p => 49%Z :: digits p end.
Fixpoint undigits (s : str) : positive :=
  match s with
  | [] | [_] => 1%positive
  | c :: s => if (c =? 48)%Z then xO (undigits s) else xI (undigits s)
  end.

Lemma undigits_digits p : undigits (digits p) = p.
Proof. induction p as [p IH|p IH|]; [| |done]; cbn [digits undigits]; destruct (digits p) eqn:E; by [destruct p|rewrite IH]. Qed.

Lemma digits_printable p : Forall (λ c, 32 ≤ c)%Z (digits p) ∧ Exists (λ c, is_whitespace c = false) (digits p).
Proof. split; [induction p; by constructor|]. destruct p; by apply Exists_cons_hd. Qed.

#[local] Instance digits_json : SerdeJson TraceEvent := {|
  json_error := unit;
  to_string event := ROk (digits (encode event));
  from_str s := match decode (undigits s) with Some event => ROk event | None => RErr () end;
|}.
#[local] Instance digits_json_laws : SerdeJsonLaws TraceEvent.
Proof.
  split; intros event s [= <-]; [apply digits_printable|]. simpl. by rewrite undigits_digits decode_encode.
Qed.

Definition demo_events_v1 : list TraceEvent := [Op 1 (Insert ka v1); Get kb; FlushDecision 0 [2; 1] 0].

Lemma jsonl_roundtrip_witness :
  match to_jsonl demo_events_v1 with
  | ROk text => from_jsonl text = ROk demo_events_v1 ∧ length (lines text) = 3
  | RErr e => False
  end ∧ ∀ text, jsonl_text demo_events_v1 text → from_jsonl text = ROk demo_events_v1.
Proof. exact (jsonl_roundtrip demo_events_v1). Defined.
