(* ===== verification/Workload.v ===== *)
(** * The workload generator ([src/workload.rs])

    The SplitMix64 generator, the key distributions and the seeded op
    streams of the benchmarks.  The rank that the Zipfian generator computes
    from one draw goes through [f64::powf], whose precision the platform
    decides: it is a parameter. *)

From S2P Require Export Bytes Prelude.
From stdpp Require Import options strings.
From Stdlib Require Import ZArith Zpow_facts.

Local Open Scope Z_scope.

(** [u64] arithmetic that wraps, and the shifts and xors of the mixers. *)
Definition u64_wrap (z : Z) : Z := z mod 2 ^ 64.
Definition wrapping_add (a b : Z) : Z := u64_wrap (a + b).
Definition wrapping_mul (a b : Z) : Z := u64_wrap (a * b).
Definition xorshift (k z : Z) : Z := Z.lxor z (Z.shiftr z k).
Definition u64_rem (a b : Z) : outcome Z := if b =? 0 then Panic else Ok (a mod b).

Definition GAMMA : Z := 0x9E3779B97F4A7C15.
Definition MUL1 : Z := 0xBF58476D1CE4E5B9.
Definition MUL2 : Z := 0x94D049BB133111EB.

(** [SplitMix64] *)
Record SplitMix64 : Type := mkSplitMix64 { sm_state : Z }.

Module SplitMix64.

(** [SplitMix64::next_u64] *)
Definition next_u64 : M SplitMix64 Z :=
  _ ← modify (λ self, mkSplitMix64 (wrapping_add (sm_state self) GAMMA));
  self ← get_;
  let z := sm_state self in
  let z := wrapping_mul (xorshift 30 z) MUL1 in
  let z := wrapping_mul (xorshift 27 z) MUL2 in
  mret (xorshift 31 z).

(** [SplitMix64::below] *)
Definition below (n : Z) : M SplitMix64 Z := z ← next_u64; lift (u64_rem z n).

(** [SplitMix64::unit_f64]: the numerator over 2^53, which is exact in an
    [f64]. *)
Definition unit_f64 : M SplitMix64 Z := z ← next_u64; mret (Z.shiftr z 11).

End SplitMix64.

(** [mix64] *)
Definition mix64 (z : Z) : Z :=
  let z := wrapping_add z GAMMA in
  let z := wrapping_mul (xorshift 30 z) MUL1 in
  let z := wrapping_mul (xorshift 27 z) MUL2 in
  xorshift 31 z.

(** [KeyDist] *)
Inductive KeyDist : Type := Uniform | Sequential | Zipfian.

(** [Mix] *)
Inductive Mix : Type := Load | PointRead | YcsbA | YcsbB | YcsbC | UpsertHeavy | ScanMix.

#[export] Instance KeyDist_eq_dec : EqDecision KeyDist.
Proof. solve_decision. Defined.
#[export] Instance Mix_eq_dec : EqDecision Mix.
Proof. solve_decision. Defined.

Module Mix.

(** [Mix::name] *)
Definition name (self : Mix) : string :=
  match self with
  | Load => "load"
  | PointRead => "point-read"
  | YcsbA => "ycsb-a"
  | YcsbB => "ycsb-b"
  | YcsbC => "ycsb-c"
  | UpsertHeavy => "upsert-heavy"
  | ScanMix => "scan-mix"
  end.

(** [Mix::all] *)
Definition all : list Mix := [Load; PointRead; YcsbA; YcsbB; YcsbC; UpsertHeavy; ScanMix].

(** [Mix::parse] *)
Definition parse (s : string) : option Mix := find (λ m, String.eqb (name m) s) all.

End Mix.

(** [WorkOp] *)
Inductive WorkOp : Type :=
  | WInsert (key : Z)
  | WRead (key : Z)
  | WUpsertAdd (key delta : Z)
  | WScan (start count : Z).

#[export] Instance WorkOp_eq_dec : EqDecision WorkOp.
Proof. solve_decision. Defined.

(** The floating-point part of [ScrambledZipfian]: the rank in a key space,
    before the clamp, that a draw [u] (its numerator over 2^53) gives. *)
Class ZipfRank : Type := zipf_rank : Z → Z → Z.

(** [ScrambledZipfian]; its [f64] fields are functions of the key space. *)
Record ScrambledZipfian : Type := mkZipfian { zf_keyspace : Z; zf_rng : SplitMix64 }.

(** Methods of a field. *)
Definition zoom {S T A} (get : S → T) (set : T → S → S) (m : M T A) : M S A := λ s,
  '(a, t) ← m (get s); mret (a, set t s).

Module ScrambledZipfian.

(** [ScrambledZipfian::new] *)
Definition new (keyspace seed : Z) : outcome ScrambledZipfian :=
  _ ← oassert (2 <=? keyspace);
  mret (mkZipfian keyspace (mkSplitMix64 seed)).

(** [ScrambledZipfian::next_key] *)
Definition next_key `{ZipfRank} : M ScrambledZipfian Z :=
  u ← zoom zf_rng (λ rng self, mkZipfian (zf_keyspace self) rng) SplitMix64.unit_f64;
  self ← get_;
  let rank := zipf_rank (zf_keyspace self) u `min` (zf_keyspace self - 1) in
  lift (u64_rem (mix64 rank) (zf_keyspace self)).

End ScrambledZipfian.

(** [OpStream] *)
Record OpStream : Type := mkOpStream {
  os_mix : Mix;
  os_dist : KeyDist;
  os_keyspace : Z;
  os_remaining : Z;
  os_sequential_next : Z;
  os_rng : SplitMix64;
  os_zipf : option ScrambledZipfian;
}.

Module OpStream.
Definition set_remaining n self := mkOpStream (os_mix self) (os_dist self) (os_keyspace self) n
  (os_sequential_next self) (os_rng self) (os_zipf self).
Definition set_sequential_next n self := mkOpStream (os_mix self) (os_dist self) (os_keyspace self)
  (os_remaining self) n (os_rng self) (os_zipf self).
Definition set_rng r self := mkOpStream (os_mix self) (os_dist self) (os_keyspace self)
  (os_remaining self) (os_sequential_next self) r (os_zipf self).
Definition set_zipf z self := mkOpStream (os_mix self) (os_dist self) (os_keyspace self)
  (os_remaining self) (os_sequential_next self) (os_rng self) (Some z).

(** [OpStream::new] *)
Definition new (mix : Mix) (dist : KeyDist) (keyspace n seed : Z) : outcome OpStream :=
  zipf ← match dist with
    | Zipfian => z ← ScrambledZipfian.new keyspace (Z.lxor seed 0x5EED); mret (Some z)
    | _ => mret None
    end;
  mret (mkOpStream mix dist keyspace n 0 (mkSplitMix64 seed) zipf).

Definition below (n : Z) : M OpStream Z := zoom os_rng set_rng (SplitMix64.below n).

(** [OpStream::key] *)
Definition key `{ZipfRank} : M OpStream Z :=
  self ← get_;
  match os_dist self with
  | Uniform => below (os_keyspace self)
  | Sequential =>
      let k := os_sequential_next self in
      n ← lift (u64_add k 1);
      n ← lift (u64_rem n (os_keyspace self));
      _ ← modify (set_sequential_next n);
      mret k
  | Zipfian =>
      z ← lift (expect (os_zipf self));
      '(k, z) ← lift (ScrambledZipfian.next_key z);
      _ ← modify (set_zipf z);
      mret k
  end.

(** [<OpStream as Iterator>::next] *)
Definition next `{ZipfRank} : M OpStream (option WorkOp) :=
  self ← get_;
  if os_remaining self =? 0 then mret None
  else
    n ← lift (u64_sub (os_remaining self) 1);
    _ ← modify (set_remaining n);
    roll ← below 100;
    key ← key;
    op ← match os_mix self with
      | Load => mret (WInsert key)
      | PointRead | YcsbC => mret (WRead key)
      | YcsbA => mret (if roll <? 50 then WRead key else WInsert key)
      | YcsbB => mret (if roll <? 95 then WRead key else WInsert key)
      | UpsertHeavy =>
          if roll <? 90 then
            d ← below 100;
            d ← lift (u64_add d 1);
            mret (WUpsertAdd key d)
          else mret (WRead key)
      | ScanMix =>
          if roll <? 95 then mret (WRead key)
          else
            c ← below 91;
            c ← lift (u64_add 10 c);
            mret (WScan key c)
      end;
    mret (Some op).

(** [stream.collect()], for at most [n] items. *)
Fixpoint collect `{ZipfRank} (n : nat) : M OpStream (list WorkOp) :=
  o ← next;
  match o with
  | None => mret []
  | Some op =>
      match n with
      | 0%nat => lift OutOfFuel
      | S n => ops ← collect n; mret (op :: ops)
      end
  end.

(** [OpStream::new(..).collect()] *)
Definition ops `{ZipfRank} (mix : Mix) (dist : KeyDist) (keyspace n seed : Z) : outcome (list WorkOp) :=
  s ← new mix dist keyspace n seed;
  '(ops, _) ← collect (Z.to_nat n) s;
  mret ops.

End OpStream.

(** ** The mixers *)

Definition u64 (z : Z) : Prop := 0 ≤ z < 2 ^ 64.

Lemma u64_wrap_range z : u64 (u64_wrap z).
Proof. unfold u64, u64_wrap. by apply Z.mod_pos_bound. Qed.

Lemma xorshift_range k z : 0 ≤ k → u64 z → u64 (xorshift k z).
Proof.
  intros Hk [H0 H1]. unfold xorshift. assert (0 ≤ Z.shiftr z k) as Hs by by apply Z.shiftr_nonneg.
  assert (Z.shiftr z k ≤ z) as Hle.
  { rewrite Z.shiftr_div_pow2 //. apply Z.div_le_upper_bound; [by apply Z.pow_pos_nonneg|].
    assert (1 ≤ 2 ^ k) by (change 1 with (2 ^ 0); by apply Z.pow_le_mono_r). nia. }
  split; [by apply Z.lxor_nonneg|].
  destruct (Z.eq_dec (Z.lxor z (Z.shiftr z k)) 0) as [->|Hne]; [done|].
  assert (0 < Z.lxor z (Z.shiftr z k)) by (pose proof (proj2 (Z.lxor_nonneg z (Z.shiftr z k))); lia).
  apply Z.log2_lt_pow2; [done|]. eapply Z.le_lt_trans; [by apply Z.log2_lxor|].
  assert (∀ x, 0 ≤ x < 2 ^ 64 → Z.log2 x < 64) as Hlog.
  { intros x Hx. destruct (Z.eq_dec x 0) as [->|]; [done|]. apply Z.log2_lt_pow2; lia. }
  apply Z.max_lub_lt; apply Hlog; lia.
Qed.

(** [z ^ (z >> k)] can be undone. *)
Lemma xorshift_inj k x y : 0 < k → 0 ≤ x → 0 ≤ y → xorshift k x = xorshift k y → x = y.
Proof.
  unfold xorshift. intros Hk Hx Hy He. apply Z.lxor_eq.
  set (d := Z.lxor x y). assert (0 ≤ d) as Hd by (apply Z.lxor_nonneg; lia).
  assert (d = Z.shiftr d k) as E.
  { apply Z.lxor_eq. unfold d. rewrite Z.shiftr_lxor.
    transitivity (Z.lxor (Z.lxor x (Z.shiftr x k)) (Z.lxor y (Z.shiftr y k))); [|by rewrite He Z.lxor_nilpotent].
    rewrite !Z.lxor_assoc. f_equal. rewrite -!Z.lxor_assoc. f_equal. apply Z.lxor_comm. }
  rewrite Z.shiftr_div_pow2 in E; [lia|]. assert (2 ≤ 2 ^ k) by (change 2 with (2 ^ 1) at 1; apply Z.pow_le_mono_r; lia).
  destruct (Z.eq_dec d 0); [done|]. pose proof (Z.div_lt d (2 ^ k)). lia.
Qed.

(** Multiplication by a unit of [Z / 2^64] can be undone. *)
Lemma wrapping_mul_inj c inv x y :
  wrapping_mul c inv = 1 → u64 x → u64 y → wrapping_mul x c = wrapping_mul y c → x = y.
Proof.
  unfold wrapping_mul, u64_wrap. intros Hinv Hx Hy He.
  assert (∀ z, u64 z → (z * c) mod 2 ^ 64 * inv mod 2 ^ 64 = z) as Hback.
  { intros z Hz. rewrite Zmult_mod_idemp_l -Z.mul_assoc -Zmult_mod_idemp_r Hinv Z.mul_1_r. by apply Z.mod_small. }
  by rewrite -(Hback x Hx) -(Hback y Hy) He.
Qed.

Lemma wrapping_add_inj c x y : u64 x → u64 y → wrapping_add x c = wrapping_add y c → x = y.
Proof.
  unfold wrapping_add, u64_wrap. intros Hx Hy He.
  rewrite -(Z.mod_small x (2 ^ 64)) // -(Z.mod_small y (2 ^ 64)) //.
  replace x with (x + c - c) by lia. replace y with (y + c - c) by lia.
  by rewrite -(Zminus_mod_idemp_l (x + c)) -(Zminus_mod_idemp_l (y + c)) He.
Qed.

(** The output function of the generator, shared by both mixers. *)
Definition finalize (z : Z) : Z :=
  xorshift 31 (wrapping_mul (xorshift 27 (wrapping_mul (xorshift 30 z) MUL1)) MUL2).

Lemma finalize_range z : u64 (finalize z).
Proof. apply xorshift_range; [done|]. apply u64_wrap_range. Qed.

Lemma finalize_inj x y : u64 x → u64 y → finalize x = finalize y → x = y.
Proof.
  unfold finalize. intros Hx Hy He.
  apply xorshift_inj in He; [|done|apply u64_wrap_range..].
  apply (wrapping_mul_inj MUL2 0x319642B2D24D8EC3) in He;
    [|by vm_compute|apply xorshift_range; [done|apply u64_wrap_range]..].
  apply xorshift_inj in He; [|done|apply u64_wrap_range..].
  apply (wrapping_mul_inj MUL1 0x96DE1B173F119089) in He; [|by vm_compute|by apply xorshift_range..].
  apply xorshift_inj in He; [done|done|apply Hx|apply Hy].
Qed.

Lemma mix64_finalize z : mix64 z = finalize (wrapping_add z GAMMA).
Proof. done. Qed.

Lemma mix64_range z : u64 (mix64 z).
Proof. apply finalize_range. Qed.

Lemma mix64_inj x y : u64 x → u64 y → mix64 x = mix64 y → x = y.
Proof.
  rewrite !mix64_finalize. intros Hx Hy He%finalize_inj; [|apply u64_wrap_range..].
  by eapply wrapping_add_inj.
Qed.

Lemma next_u64_eq s :
  SplitMix64.next_u64 (mkSplitMix64 s) =
  Ok (finalize (wrapping_add s GAMMA), mkSplitMix64 (wrapping_add s GAMMA)).
Proof. done. Qed.

(** ** The sequence of draws *)

(** [n] consecutive draws. *)
Fixpoint draws (n : nat) : M SplitMix64 (list Z) :=
  match n with
  | 0%nat => mret []
  | S n => z ← SplitMix64.next_u64; zs ← draws n; mret (z :: zs)
  end.

Definition nth_state (s : Z) (i : nat) : Z := u64_wrap (s + Z.of_nat i * GAMMA).

Lemma wrapping_add_nth s i : wrapping_add (nth_state s i) GAMMA = nth_state s (S i).
Proof. unfold wrapping_add, nth_state, u64_wrap. rewrite Zplus_mod_idemp_l Nat2Z.inj_succ. f_equal. ring. Qed.

Lemma draws_eq n s i :
  draws n (mkSplitMix64 (nth_state s i)) =
  Ok (map (λ j, finalize (nth_state s j)) (seq (S i) n), mkSplitMix64 (nth_state s (i + n))).
Proof.
  revert i. induction n as [|n IH]; intros i; cbn [draws].
  - by rewrite Nat.add_0_r.
  - unfold mbind, M_bind. rewrite next_u64_eq wrapping_add_nth IH.
    cbn [seq map]. by replace (i + S n)%nat with (S i + n)%nat by lia.
Qed.

(** [GAMMA] is odd: the states of a full period are distinct. *)
Lemma nth_state_inj s i j :
  Z.of_nat i < 2 ^ 64 + Z.of_nat j → (j ≤ i)%nat → nth_state s i = nth_state s j → i = j.
Proof.
  unfold nth_state, u64_wrap. intros Hi Hj He.
  assert ((Z.of_nat (i - j) * GAMMA) mod 2 ^ 64 = 0) as Hd.
  { replace (Z.of_nat (i - j) * GAMMA) with ((s + Z.of_nat i * GAMMA) - (s + Z.of_nat j * GAMMA))
      by (rewrite Nat2Z.inj_sub //; ring).
    by rewrite Zminus_mod He Z.sub_diag. }
  assert (Z.of_nat (i - j) = 0); [|lia].
  apply (wrapping_mul_inj GAMMA 0xF1DE83E19937733D); [by vm_compute|unfold u64; lia|done|].
  unfold wrapping_mul, u64_wrap. by rewrite Hd.
Qed.

Lemma NoDup_map_seq {A} (f : nat → A) i n :
  (∀ j k, (i ≤ j < k)%nat → (k < i + n)%nat → f j ≠ f k) → NoDup (map f (seq i n)).
Proof.
  revert i. induction n as [|n IH]; intros i Hf; [constructor|]. cbn [seq map]. constructor.
  - intros (k & Hk & Hin)%list_elem_of_fmap. apply elem_of_seq in Hin. apply (Hf i k); [lia|lia|exact Hk].
  - apply IH. intros j k Hj Hk. apply Hf; lia.
Qed.

Lemma draws_spec n s :
  u64 s → Z.of_nat n ≤ 2 ^ 64 → ∃ zs, draws n (mkSplitMix64 s) = Ok (zs, mkSplitMix64 (nth_state s n)) ∧
    length zs = n ∧ NoDup zs ∧ Forall u64 zs.
Proof.
  intros Hs Hn. assert (s = nth_state s 0) as E0.
  { unfold nth_state, u64_wrap. rewrite Z.mul_0_l Z.add_0_r. by rewrite Z.mod_small. }
  rewrite {1}E0 draws_eq. eexists. split; [done|]. split; [by rewrite length_map length_seq|]. split.
  - apply NoDup_map_seq. intros j k Hj Hk He%finalize_inj; [|apply u64_wrap_range..].
    symmetry in He. apply nth_state_inj in He; lia.
  - apply Forall_fmap, Forall_forall. intros j _. apply finalize_range.
Qed.

Lemma full_period s : u64 s → nth_state s (Z.to_nat (2 ^ 64)) = s.
Proof.
  intros Hs. unfold nth_state, u64_wrap. rewrite Z2Nat.id; [done|].
  by rewrite Z.mul_comm Z.mod_add // Z.mod_small.
Qed.

(** ** Streams *)

Definition op_key (op : WorkOp) : Z :=
  match op with WInsert k | WRead k | WUpsertAdd k _ | WScan k _ => k end.

(** The ops that a mix may issue. *)
Definition op_of_mix (mix : Mix) (op : WorkOp) : Prop :=
  match mix, op with
  | Load, WInsert _ => True
  | (PointRead | YcsbC), WRead _ => True
  | (YcsbA | YcsbB), (WRead _ | WInsert _) => True
  | UpsertHeavy, WUpsertAdd _ d => 1 ≤ d ≤ 100
  | UpsertHeavy, WRead _ => True
  | ScanMix, WScan _ c => 10 ≤ c ≤ 100
  | ScanMix, WRead _ => True
  | _, _ => False
  end.

Definition op_ok (mix : Mix) (keyspace : Z) (op : WorkOp) : Prop :=
  op_of_mix mix op ∧ 0 ≤ op_key op < keyspace.

Lemma wp_zoom {S T A} (get : S → T) (set : T → S → S) (m : M T A) (Q : A → S → Prop) s :
  wp m (λ a t, Q a (set t s)) (get s) → wp (zoom get set m) Q s.
Proof. intros (a & t & Hr & HQ). exists a, (set t s). unfold zoom. by rewrite Hr. Qed.

Lemma wp_below n (Q : Z → SplitMix64 → Prop) r :
  0 < n → (∀ k r', 0 ≤ k < n → Q k r') → wp (SplitMix64.below n) Q r.
Proof.
  intros Hn HQ. apply wp_bind. destruct r as [s]. eapply wp_run; [apply next_u64_eq|].
  eapply wp_lift; [|apply HQ, Z.mod_pos_bound, Hn].
  unfold u64_rem. by rewrite (proj2 (Z.eqb_neq _ _)); [lia|].
Qed.

Section stream.
Context `{ZipfRank}.
Implicit Types s : OpStream.

(** What an iteration keeps. *)
Record stream_ok s : Prop := {
  so_keyspace : 0 < os_keyspace s ≤ u64_max;
  so_next : 0 ≤ os_sequential_next s < os_keyspace s;
  so_zipf : os_dist s = Zipfian → ∃ z, os_zipf s = Some z ∧ zf_keyspace z = os_keyspace s;
}.

Definition same_stream s s' : Prop :=
  os_mix s' = os_mix s ∧ os_dist s' = os_dist s ∧ os_keyspace s' = os_keyspace s.

Lemma wp_stream_below n (Q : Z → OpStream → Prop) s :
  0 < n → (∀ k r, 0 ≤ k < n → Q k (OpStream.set_rng r s)) → wp (OpStream.below n) Q s.
Proof. intros Hn HQ. apply wp_zoom, wp_below; [done|]. intros k r Hk. by apply HQ. Qed.

Lemma next_key_spec z :
  0 < zf_keyspace z → wp ScrambledZipfian.next_key (λ k z', 0 ≤ k < zf_keyspace z ∧
    zf_keyspace z' = zf_keyspace z) z.
Proof using All.
  intros Hz. unfold ScrambledZipfian.next_key. apply wp_bind, wp_zoom. unfold SplitMix64.unit_f64. apply wp_bind.
  destruct z as [n [s]]. eapply wp_run; [apply next_u64_eq|]. apply wp_ret. cbn [zf_keyspace] in *.
  apply wp_bind, wp_get. eapply wp_lift.
  - unfold u64_rem. rewrite (proj2 (Z.eqb_neq _ _)); [cbn; lia|done].
  - split; [|done]. by apply Z.mod_pos_bound.
Qed.

Lemma key_spec s :
  stream_ok s → wp OpStream.key (λ k s', 0 ≤ k < os_keyspace s ∧ stream_ok s' ∧ same_stream s s' ∧
    os_remaining s' = os_remaining s ∧
    (os_dist s = Sequential → k = os_sequential_next s ∧
       os_sequential_next s' = (os_sequential_next s + 1) mod os_keyspace s)) s.
Proof using All.
  intros [Hk Hn Hz]. unfold OpStream.key. apply wp_bind, wp_get. destruct (os_dist s) eqn:Ed.
  - apply wp_stream_below; [lia|]. intros k r Hkr. split; [done|].
    split; [|by split_and!]. split; [done|done|]. simpl. by rewrite Ed.
  - apply wp_bind. eapply wp_lift; [apply u64_add_Ok; lia|]. apply wp_bind. eapply wp_lift.
    { unfold u64_rem. rewrite (proj2 (Z.eqb_neq _ _)); [lia|done]. }
    apply wp_bind, wp_modify, wp_ret. split; [done|]. split; [|by split_and!].
    split; [done| |]; simpl; [by apply Z.mod_pos_bound; lia|]. by rewrite Ed.
  - destruct (Hz eq_refl) as (z & Hsz & Hzk). apply wp_bind. eapply wp_lift; [by rewrite Hsz|].
    apply wp_bind. destruct (next_key_spec z) as (k & z' & Hrun & Hkr & Hz'); [lia|].
    eapply wp_lift; [exact Hrun|]. apply wp_bind, wp_modify, wp_ret. rewrite Hzk in Hkr, Hz'.
    split; [done|]. split; [|by split_and!]. split; [done|done|]. intros _. by exists z'.
Qed.

Lemma wp_stream_below' n (Q : Z → OpStream → Prop) s :
  0 < n → stream_ok s →
  (∀ k s', 0 ≤ k < n → stream_ok s' → same_stream s s' → os_remaining s' = os_remaining s →
     os_sequential_next s' = os_sequential_next s → Q k s') → wp (OpStream.below n) Q s.
Proof using All.
  intros Hn [] HQ. apply wp_stream_below; [done|]. intros k r Hk. by apply HQ; [done|split|split_and!|..].
Qed.

Lemma next_spec s :
  stream_ok s → 0 < os_remaining s → wp OpStream.next (λ o s', ∃ op, o = Some op ∧
    op_ok (os_mix s) (os_keyspace s) op ∧ stream_ok s' ∧ same_stream s s' ∧
    os_remaining s' = os_remaining s - 1 ∧
    (os_dist s = Sequential → op_key op = os_sequential_next s ∧
       os_sequential_next s' = (os_sequential_next s + 1) mod os_keyspace s)) s.
Proof using All.
  intros Hs Hr. unfold OpStream.next. apply wp_bind, wp_get.
  rewrite (proj2 (Z.eqb_neq _ _)); [lia|]. apply wp_bind. eapply wp_lift; [apply u64_sub_Ok; lia|].
  apply wp_bind, wp_modify. set (s1 := OpStream.set_remaining (os_remaining s - 1) s).
  assert (stream_ok s1) as Hs1 by (destruct Hs; by split).
  apply wp_bind, wp_stream_below'; [done|done|]. intros roll s2 Hroll Hs2 (Em & Ed & Ek) Er En.
  unfold s1 in Em, Ed, Ek, Er, En. cbn in Em, Ed, Ek, Er, En.
  apply wp_bind. eapply wp_mono; [by apply key_spec|].
  intros k s3 (Hk & Hs3 & (Em3 & Ed3 & Ek3) & Er3 & Hseq).
  rewrite Ek in Hk. rewrite Ed Ek En in Hseq.
  assert (∀ op s', stream_ok s' → same_stream s3 s' → os_remaining s' = os_remaining s3 →
    os_sequential_next s' = os_sequential_next s3 → op_key op = k → op_of_mix (os_mix s) op →
    ∃ op', Some op = Some op' ∧ op_ok (os_mix s) (os_keyspace s) op' ∧ stream_ok s' ∧ same_stream s s' ∧
      os_remaining s' = os_remaining s - 1 ∧
      (os_dist s = Sequential → op_key op' = os_sequential_next s ∧
         os_sequential_next s' = (os_sequential_next s + 1) mod os_keyspace s)) as Hdone.
  { intros op s' Hs' (E1 & E2 & E3) E4 E5 Hop Hmix. exists op. split; [done|]. split; [split; [done|by rewrite Hop]|].
    split; [done|]. split; [split_and!; congruence|]. split; [by rewrite E4 Er3 Er|]. rewrite E5 Hop. exact Hseq. }
  assert (same_stream s3 s3) as Hrefl by done.
  apply wp_bind. destruct (os_mix s) eqn:Emix.
  1,2,5: by apply wp_ret, wp_ret, Hdone.
  - apply wp_ret, wp_ret. destruct (roll <? 50); by apply Hdone.
  - apply wp_ret, wp_ret. destruct (roll <? 95); by apply Hdone.
  - destruct (roll <? 90); [|by apply wp_ret, wp_ret, Hdone].
    apply wp_bind, wp_stream_below'; [done|done|]. intros d s4 Hd Hs4 Hsame Er4 En4.
    apply wp_bind. eapply wp_lift; [apply u64_add_Ok; assert (u64_max = 2 ^ 64 - 1) by done; lia|].
    apply wp_ret, wp_ret, Hdone; [done..|simpl; lia].
  - destruct (roll <? 95); [by apply wp_ret, wp_ret, Hdone|].
    apply wp_bind, wp_stream_below'; [done|done|]. intros c s4 Hc Hs4 Hsame Er4 En4.
    apply wp_bind. eapply wp_lift; [apply u64_add_Ok; assert (u64_max = 2 ^ 64 - 1) by done; lia|].
    apply wp_ret, wp_ret, Hdone; [done..|simpl; lia].
Qed.

(** Sequential keys count up from the first, wrapping at the key space. *)
Definition sequential_from (k keyspace : Z) (ops : list WorkOp) : Prop :=
  ∀ i op, ops !! i = Some op → op_key op = (k + Z.of_nat i) mod keyspace.

Lemma collect_spec n s :
  stream_ok s → os_remaining s = Z.of_nat n → wp (OpStream.collect n) (λ ops _, length ops = n ∧
    Forall (op_ok (os_mix s) (os_keyspace s)) ops ∧
    (os_dist s = Sequential → sequential_from (os_sequential_next s) (os_keyspace s) ops)) s.
Proof using All.
  revert s. induction n as [|n IH]; intros s Hs Hn; cbn [OpStream.collect]; apply wp_bind.
  - unfold OpStream.next. apply wp_bind, wp_get. rewrite Hn. apply wp_ret, wp_ret. by split_and!.
  - eapply wp_mono; [apply next_spec; [done|lia]|].
    intros ? s1 (op & -> & Hop & Hs1 & (Em & Ed & Ek) & Hr & Hseq).
    apply wp_bind. eapply wp_mono; [apply (IH s1); [done|lia]|].
    intros ops s2 (Hl & Hall & Hseq2). apply wp_ret. rewrite Em Ek in Hall. split; [by rewrite /= Hl|].
    split; [by constructor|]. intros Es. destruct (Hseq Es) as [E1 E2]. rewrite Ed Ek E2 in Hseq2.
    intros [|i] op' Hi; simpl in Hi.
    + injection Hi as <-. rewrite E1 Z.add_0_r. symmetry. apply Z.mod_small, (so_next _ Hs).
    + rewrite (Hseq2 Es i op' Hi) Zplus_mod_idemp_l. f_equal. lia.
Qed.

Lemma ops_spec mix dist keyspace n seed :
  0 < keyspace ≤ u64_max → (dist = Zipfian → 2 ≤ keyspace) → 0 ≤ n →
  ∃ ops, OpStream.ops mix dist keyspace n seed = Ok ops ∧ length ops = Z.to_nat n ∧
    Forall (op_ok mix keyspace) ops ∧ (dist = Sequential → sequential_from 0 keyspace ops).
Proof using All.
  intros Hk Hz Hn. unfold OpStream.ops.
  assert (∃ s, OpStream.new mix dist keyspace n seed = Ok s ∧ stream_ok s ∧ os_remaining s = n ∧
    os_mix s = mix ∧ os_dist s = dist ∧ os_keyspace s = keyspace ∧ os_sequential_next s = 0) as (s & -> & Hs & Hr & Hm & Hd & Hks & Hse).
  { unfold OpStream.new, ScrambledZipfian.new. destruct dist; simpl.
    1,2: eexists; split; [done|]; split; [|by split_and!]; by split; [|split; [|simpl; lia]|].
    rewrite (proj2 (Z.leb_le _ _)); [by apply Hz|]. eexists. split; [done|]. split; [|by split_and!].
    split; [done|split; [done|simpl; lia]|]. intros _. by eexists. }
  cbn [mbind outcome_bind]. destruct (collect_spec (Z.to_nat n) s Hs) as (ops & s' & -> & Hl & Hall & Hseq); [lia|].
  exists ops. rewrite -Hm -Hks. split; [done|]. split; [done|]. split; [done|]. intros E. rewrite -Hse. apply Hseq. congruence.
Qed.
End stream.
