(* ===== verification/Oracle.v ===== *)
(** * The rollout oracle ([src/bin/oracle.rs])

    The core of the hindsight oracle: the scripted policy, the cost of a
    run under the analytic model, rollouts, and the pass that improves
    sampled flush decisions.  The [Rc] that the driver and the policy of a
    [SimTree] share is the policy held by its tree. *)

From S2P Require Export Workload Sim.
From stdpp Require Import options strings.
From Stdlib Require Import ZArith.

(** [k.to_be_bytes().to_vec()] of a [u64] *)
Definition u64_to_be_bytes (z : Z) : list byte := rev (le_encode 8 z).
Definition u64_to_le_bytes (z : Z) : list byte := le_encode 8 z.

(** [AltCost], [LogRecord] *)
Record AltCost : Type := mkAltCost { alt_child : nat; window_cost : Z }.
Record LogRecord : Type := mkLogRecord {
  op_index : Z;
  decision_index : Z;
  log_ctx : FlushCtx;
  alternatives : list AltCost;
  log_chosen : nat;
  greedy_choice : nat;
}.

(** [parse_workload] *)
Definition parse_workload (name : string) : option (Mix * KeyDist) :=
  if String.eqb name "uniform-load"%string then Some (Load, Uniform)
  else if String.eqb name "zipfian-load"%string then Some (Load, Zipfian)
  else if String.eqb name "ycsb-a"%string then Some (YcsbA, Uniform)
  else if String.eqb name "ycsb-a-zipfian"%string then Some (YcsbA, Zipfian)
  else if String.eqb name "upsert-heavy"%string then Some (UpsertHeavy, Uniform)
  else if String.eqb name "ascending"%string then Some (Load, Sequential)
  else None.

(** [sampled] *)
Definition sampled (seed g s : Z) : bool :=
  if (s <=? 1)%Z then true
  else
    let z := Z.lxor seed (wrapping_mul g 0x9E3779B97F4A7C15) in
    let z := wrapping_mul (xorshift 30 z) MUL1 in
    let z := wrapping_mul (xorshift 27 z) MUL2 in
    let z := xorshift 31 z in
    (z mod s =? 0)%Z.

(** [ScriptState], held by the policy [Scripted]. *)
Record ScriptState : Type := mkScript {
  forced : list nat;
  cursor : nat;
  recorded : list (FlushCtx * nat);
  record : bool;
}.

Definition ScriptState_default : ScriptState := mkScript [] 0 [] false.

(** [<Scripted as FlushPolicy>::choose] *)
#[export] Instance Scripted_policy : FlushPolicy ScriptState := λ state ctx,
  choice ← if cursor state <? length (forced state) then expect (forced state !! cursor state)
           else pick (child_pending ctx);
  mret (choice, mkScript (forced state) (cursor state + 1)
    (if record state then recorded state ++ [(ctx, choice)] else recorded state) (record state)).

Section oracle.
Context `{Codec}.

(** [apply] *)
Definition apply `{FlushPolicy P} (op : WorkOp) (op_index : Z) : M (BeTree P) unit :=
  match op with
  | WInsert k => BeTree.insert (u64_to_be_bytes k) (u64_to_le_bytes op_index)
  | WRead k => _ ← BeTree.get (u64_to_be_bytes k); mret tt
  | WUpsertAdd k d => BeTree.upsert (u64_to_be_bytes k) (Types.Add d)
  | WScan start count =>
      stop ← lift (u64_add start count);
      _ ← BeTree.scan (Included (u64_to_be_bytes start)) (Excluded (u64_to_be_bytes stop));
      mret tt
  end.

(** The boundary test [(i as u64 + 1) % commit_interval == 0]. *)
Definition at_boundary (i : nat) (commit_interval : Z) : outcome bool :=
  n ← u64_add (Z.of_nat i) 1;
  r ← u64_rem n commit_interval;
  mret (r =? 0)%Z.

(** One op of a run: apply it, commit at a boundary, add the cost. *)
Definition run_op_cost `{FlushPolicy P} (commit_interval : Z) (cost : Z) : nat * WorkOp → M (BeTree P) Z :=
  λ '(i, op),
    _ ← apply op (Z.of_nat i);
    b ← lift (at_boundary i commit_interval);
    if (b : bool) then c ← simulate_commit; lift (u64_add cost c) else mret cost.

(** [run_cost] *)
Definition run_cost `{FlushPolicy P} (ops : list WorkOp) (commit_interval : Z) : M (BeTree P) Z :=
  cost ← mfold (run_op_cost commit_interval) 0%Z (imap pair ops);
  r ← lift (u64_rem (Z.of_nat (length ops)) commit_interval);
  if (r =? 0)%Z then mret cost else c ← simulate_commit; lift (u64_add cost c).

(** The choices of the flush decisions that a tree has traced. *)
Definition decisions {P} (tree : BeTree P) : list nat :=
  omap (λ e, match e with FlushDecision2 _ _ chosen => Some chosen | _ => None end) (rec_v2 (trace tree)).

(** [greedy_cost] *)
Definition greedy_cost {P} (start : BeTree P) (ops : list WorkOp) (commit_interval : Z)
    : outcome (Z * Z) :=
  tree ← fork_for_sim start mkGreedyFullest;
  '(cost, tree) ← run_cost ops commit_interval tree;
  mret (cost, Z.of_nat (length (decisions tree))).

(** [SimTree::fork_from] *)
Definition fork_from {P} (source : BeTree P) : outcome (BeTree ScriptState) :=
  fork_for_sim source ScriptState_default.

(** Assignments through the handle to the script. *)
Definition set_script (f : ScriptState → ScriptState) : M (BeTree ScriptState) unit :=
  modify (λ self, set_policy (f (policy self)) self).

(** [SimTree::run_op] *)
Definition run_op (op : WorkOp) (counter : Z) (forced : list nat)
    : M (BeTree ScriptState) (list (FlushCtx * nat)) :=
  _ ← set_script (λ state, mkScript forced 0 [] true);
  _ ← apply op counter;
  self ← get_;
  _ ← set_script (λ state, mkScript (Oracle.forced state) (cursor state) [] false);
  mret (recorded (policy self)).

(** [scripted_cost] *)
Definition scripted_cost {P} (start : BeTree P) (ops : list WorkOp) (commit_interval : Z)
    (script : list nat) : outcome Z :=
  tree ← fork_from start;
  let tree := set_policy (mkScript script (cursor (policy tree)) (recorded (policy tree))
                            (record (policy tree))) tree in
  '(cost, tree) ← run_cost ops commit_interval tree;
  _ ← oassert (cursor (policy tree) =? length script);
  mret cost.

(** [OracleCfg], [Outcome] *)
Record OracleCfg : Type := mkCfg {
  commit_interval : Z;
  sample_rate : Z;
  cfg_window : nat;
  cfg_seed : Z;
}.
Record Improved : Type := mkImproved { script : list nat; records : list LogRecord }.

(** [ops.iter().enumerate().take(b).skip(a)] *)
Definition span {A} (a b : nat) (l : list A) : list (nat * A) := drop a (take b (imap pair l)).

(** [rollout_cost] *)
Definition rollout_cost {P} (pre : BeTree P) (ops : list WorkOp) (i : nat) (forced : list nat)
    (cfg : OracleCfg) : outcome Z :=
  tree ← fork_from pre;
  let tree := set_policy (mkScript forced (cursor (policy tree)) (recorded (policy tree))
                            (record (policy tree))) tree in
  let end_ := (i + 1 + cfg_window cfg) `min` length ops in
  '(cost, tree) ← mfold (run_op_cost (commit_interval cfg)) 0%Z (span i end_ ops) tree;
  '(c, _) ← simulate_commit tree;
  u64_add cost c.

(** [pick_argmin] *)
Fixpoint min_cost (l : list AltCost) : option Z :=
  match l with
  | [] => None
  | a :: l =>
      match min_cost l with
      | None => Some (window_cost a)
      | Some m => Some (window_cost a `min` m)%Z
      end
  end.
Definition pick_argmin (alternatives : list AltCost) (greedy_choice : nat) : outcome nat :=
  min ← expect (min_cost alternatives);
  if existsb (λ a, (alt_child a =? greedy_choice) && (window_cost a =? min)%Z) alternatives
  then mret greedy_choice
  else
    a ← expect (find (λ a, (window_cost a =? min)%Z) alternatives);
    mret (alt_child a).

(** ** The improvement pass *)

(** The first sampled decision [j] with [from <= j < n], if any. *)
Definition find_sampled (cfg : OracleCfg) (counter : Z) (from n : nat) : outcome (option nat) :=
  ofold (λ acc j,
    match acc with
    | Some j => mret (Some j)
    | None =>
        g ← u64_add counter (Z.of_nat j);
        mret (if sampled (cfg_seed cfg) g (sample_rate cfg) then Some j else None)
    end) None (seq from (n - from)).

(** The alternatives of one decision, each scored by a rollout. *)
Definition score_alternatives {P} (pre : BeTree P) (ops : list WorkOp) (cfg : OracleCfg) (i : nat)
    (fixed : list nat) (ctx : FlushCtx) : outcome (list AltCost) :=
  mapM (λ '(child, _),
    c ← rollout_cost pre ops i (fixed ++ [child]) cfg;
    mret (mkAltCost child c))
    (filter (λ '(_, pending), 0 < pending) (imap pair (child_pending ctx))).

(** One attempt of the loop that resolves an op decision by decision: the
    state is the log, the loop variable is [fixed]. *)
Definition resolve_step {P} (pre : BeTree P) (ops : list WorkOp) (cfg : OracleCfg) (counter : Z)
    (i : nat) (op : WorkOp) (fixed : list nat)
    : M (list LogRecord) (ctl (list nat) (BeTree ScriptState * list (FlushCtx * nat))) :=
  attempt ← lift (fork_from pre);
  '(ds, attempt) ← lift (run_op op (Z.of_nat i) fixed attempt);
  next_sampled ← lift (find_sampled cfg counter (length fixed) (length ds));
  match next_sampled with
  | None => mret (Break (attempt, ds))
  | Some j =>
      let fixed := fixed ++ map snd (drop (length fixed) (take j ds)) in
      d ← lift (expect (ds !! j));
      let ctx := fst d in
      greedy_choice ← lift (pick (child_pending ctx));
      alts ← lift (score_alternatives pre ops cfg i fixed ctx);
      chosen ← lift (pick_argmin alts greedy_choice);
      g ← lift (u64_add counter (Z.of_nat j));
      _ ← modify (λ log, log ++ [mkLogRecord (Z.of_nat i) g ctx alts chosen greedy_choice]);
      mret (Continue (fixed ++ [chosen]))
  end.

(** The variables of [improved_run]. *)
Record Improving : Type := mkImproving {
  im_t : BeTree ScriptState;
  im_checkpoint : BeTree GreedyFullest;
  im_checkpoint_at : nat;
  im_counter : Z;
  im_script : list nat;
  im_records : list LogRecord;
}.

(** A commit at the boundary after op [i]. *)
Definition commit_at {P} (i : nat) (interval : Z) : M (BeTree P) unit :=
  b ← lift (at_boundary i interval);
  if (b : bool) then _ ← simulate_commit; mret tt else mret tt.

(** One op of [improved_run]. *)
Definition improve_op (ops : list WorkOp) (cfg : OracleCfg) (st : Improving) (i : nat)
    : outcome Improving :=
  op ← expect (ops !! i);
  '(ds, t) ← run_op op (Z.of_nat i) [] (im_t st);
  first_sampled ← find_sampled cfg (im_counter st) 0 (length ds);
  match first_sampled with
  | Some j0 =>
      pre ← fork_for_sim (im_checkpoint st) mkGreedyFullest;
      '(_, pre) ← mfold (λ _ '(m, op), _ ← apply op (Z.of_nat m); commit_at m (commit_interval cfg)) tt
        (span (im_checkpoint_at st) i ops) pre;
      '(accepted, ds, records) ← loopM (λ _, fuel pre)
        (resolve_step pre ops cfg (im_counter st) i op) (map snd (take j0 ds)) (im_records st);
      counter ← u64_add (im_counter st) (Z.of_nat (length ds));
      '(_, t) ← commit_at i (commit_interval cfg) accepted;
      checkpoint ← fork_for_sim t mkGreedyFullest;
      mret (mkImproving t checkpoint (i + 1) counter (im_script st ++ map snd ds) records)
  | None =>
      counter ← u64_add (im_counter st) (Z.of_nat (length ds));
      '(_, t) ← commit_at i (commit_interval cfg) t;
      mret (mkImproving t (im_checkpoint st) (im_checkpoint_at st) counter
        (im_script st ++ map snd ds) (im_records st))
  end.

(** [improved_run] *)
Definition improved_run {P} (start : BeTree P) (ops : list WorkOp) (cfg : OracleCfg)
    : outcome Improved :=
  t ← fork_from start;
  checkpoint ← fork_for_sim start mkGreedyFullest;
  st ← ofold (improve_op ops cfg) (mkImproving t checkpoint 0 0 [] []) (seq 0 (length ops));
  mret (mkImproved (im_script st) (im_records st)).
End oracle.
