(* ===== verification/Scripted.v ===== *)
(** * Runs under a script

    A run under any policy is reproduced by the script of its own flush
    decisions: operation by operation, the tree under [Scripted] shadows the
    tree under the other policy.  Proved through the hint database [shadow]. *)

From S2P Require Export Oracle.
From stdpp Require Import options.
From Stdlib Require Import ZArith.

(** The same tree, under another policy. *)
Definition under {P P'} (pol : P') (s : BeTree P) : BeTree P' :=
  mkBeTree (params s) (nodes s) (dirty s) (root s) (next_seq s) (ops_since_commit s) pol (trace s).

Create HintDb shadow.

Section shadow.
Context {P : Type} `{FlushPolicy P} (script : list nat).
Notation T := (BeTree P).
Notation U := (BeTree ScriptState).
Implicit Types (s : T) (u : U).

(** [u] is [s] under the script, [off] decisions ahead of its trace. *)
Definition shadows (off : nat) s u : Prop :=
  ∃ pol, u = under pol s ∧ forced pol = script ∧ cursor pol = length (decisions s) + off.

(** [m] shadows [m']: the trace only grows, and as long as its decisions
    follow the script, so does the run under the script. *)
Record follows {A} (off : nat) (m : M T A) (m' : M U A) : Prop := {
  fo_grows s a s1 : m s = Ok (a, s1) → decisions s `prefix_of` decisions s1;
  fo_run s u a s1 : shadows off s u → m s = Ok (a, s1) → decisions s1 `prefix_of` script →
    ∃ u1, m' u = Ok (a, u1) ∧ shadows off s1 u1;
}.

Lemma fo_ret {A} off (a : A) : follows off (mret a) (mret a).
Proof. split; [by intros s ? ? [= <- <-]|]. intros s u ? ? Hs [= <- <-] _. by exists u. Qed.

Lemma fo_bind {A B} off (m : M T A) (m' : M U A) (k : A → M T B) (k' : A → M U B) :
  follows off m m' → (∀ a, follows off (k a) (k' a)) → follows off (m ≫= k) (m' ≫= k').
Proof.
  intros [Hg Hr] Hk. split.
  - intros s b s2 Hrun. unfold mbind, M_bind in Hrun. destruct (m s) as [[a s1]| | |] eqn:E1; [|done..].
    etrans; [by eapply Hg|by eapply (fo_grows _ _ _ (Hk a))].
  - intros s u b s2 Hs Hrun Hp. unfold mbind, M_bind in *. destruct (m s) as [[a s1]| | |] eqn:E1; [|done..].
    destruct (Hr s u a s1 Hs E1) as (u1 & -> & Hs1).
    { etrans; [|exact Hp]. by eapply (fo_grows _ _ _ (Hk a)). }
    by eapply (fo_run _ _ _ (Hk a)).
Qed.

(** Reading the state: both sides see the same fields. *)
Lemma fo_get {B} off (k : T → M T B) (k' : U → M U B) :
  (∀ s pol, follows off (k s) (k' (under pol s))) → follows off (get_ ≫= k) (get_ ≫= k').
Proof.
  intros Hk. split.
  - intros s b s1 Hrun. eapply (fo_grows _ _ _ (Hk s (mkScript [] 0 [] true))), Hrun.
  - intros s u b s1 Hs Hrun Hp. pose proof Hs as (pol & -> & _). by eapply (fo_run _ _ _ (Hk s pol)).
Qed.

Lemma fo_lift {A} off (o : outcome A) : follows off (lift o) (lift o).
Proof.
  split.
  - intros s a s1 Hr. unfold lift in Hr. destruct o; by simplify_eq.
  - intros s u a s1 Hs Hr _. unfold lift in *. destruct o; simplify_eq. by exists u.
Qed.

Lemma fo_modify off (f : T → T) (f' : U → U) :
  (∀ s pol, f' (under pol s) = under pol (f s)) → (∀ s, decisions (f s) = decisions s) →
  follows off (modify f) (modify f').
Proof.
  intros Hf Hd. split.
  - intros s a s1 [= <- <-]. by rewrite Hd.
  - intros s u a s1 (pol & -> & Hs & Hc) [= <- <-] _. exists (under pol (f s)). split; [|by exists pol; rewrite Hd].
    unfold modify. by rewrite Hf.
Qed.

Lemma fo_mapM {A B} off (f : A → M T B) (f' : A → M U B) l :
  (∀ a, follows off (f a) (f' a)) → follows off (mapM f l) (mapM f' l).
Proof.
  intros Hf. induction l as [|a l IH]; [apply fo_ret|]. apply fo_bind; [apply Hf|].
  intros b. apply fo_bind; [apply IH|]. intros bs. apply fo_ret.
Qed.

Lemma fo_mfold {A B} off (f : B → A → M T B) (f' : B → A → M U B) b l :
  (∀ b a, follows off (f b a) (f' b a)) → follows off (mfold f b l) (mfold f' b l).
Proof.
  intros Hf. revert b. induction l as [|a l IH]; intros b; [apply fo_ret|]. apply fo_bind; [apply Hf|done].
Qed.

Lemma fo_loopM {L A} off (body : L → M T (ctl L A)) (body' : L → M U (ctl L A)) l :
  (∀ l, follows off (body l) (body' l)) → follows off (loopM fuel body l) (loopM fuel body' l).
Proof.
  intros Hb.
  assert (∀ n l, follows off (loop2 n body l) (loop2 n body' l)) as Hl.
  { induction n as [|n IH]; intros l0; [apply Hb|]. apply fo_bind; [apply IH|].
    intros [l1|a]; [apply IH|apply fo_ret]. }
  split.
  - intros s a s1 Hr. unfold loopM in Hr.
    destruct (loop2 (fuel s) body l s) as [[[l'|a'] s2]| | |] eqn:E1; [done| |done..]. injection Hr as <- <-.
    by eapply (fo_grows _ _ _ (Hl _ _)).
  - intros s u a s1 Hs Hr Hp. unfold loopM in *.
    destruct (loop2 (fuel s) body l s) as [[[l'|a'] s2]| | |] eqn:E1; [done| |done..]. injection Hr as <- <-.
    assert (fuel u = fuel s) as -> by by destruct Hs as (pol & -> & _).
    destruct (fo_run _ _ _ (Hl _ _) _ _ _ _ Hs E1 Hp) as (u1 & -> & Hs1). by exists u1.
Qed.
End shadow.

Lemma decisions_app {P} (s : BeTree P) r e :
  (∀ n l c, e ≠ FlushDecision2 n l c) → rec_v2 r = rec_v2 (trace s) ++ [e] →
  decisions (set_trace r s) = decisions s.
Proof. intros Hne Hr. unfold decisions. cbn. rewrite Hr omap_app. destruct e; simpl; rewrite ?app_nil_r; naive_solver. Qed.

#[export] Hint Resolve fo_ret fo_lift : shadow.

Ltac fo_step :=
  first
    [ solve [auto with shadow nocore]
    | progress cbv beta zeta
    | match goal with
      | |- follows _ _ (get_ ≫= _) _ => apply fo_get; intros ? ?; cbn [params nodes dirty root next_seq ops_since_commit trace under]
      | |- follows _ _ (mbind _ _) _ => apply fo_bind; [|intros ?]
      | |- follows _ _ (modify _) _ => apply fo_modify; intros; [reflexivity|solve [reflexivity | cbv beta; eapply decisions_app; [|reflexivity]; discriminate]]
      | |- follows _ _ (assert_ _) _ => apply fo_lift
      | |- follows _ _ (mapM _ _) _ => apply fo_mapM; intros ?
      | |- follows _ _ (mfold _ _ _) _ => apply fo_mfold; intros ? ?
      | |- follows _ _ (loopM _ _ _) _ => apply fo_loopM; intros ?
      | |- follows _ _ (match ?x with _ => _ end) _ => destruct x
      end ].
Ltac fo := repeat fo_step.

Section operations.
Context {P : Type} `{FlushPolicy P} (script : list nat) (off : nat).
Notation fo m m' := (follows (P := P) script off m m').

Lemma fo_node id : fo (node id) (node id).
Proof. unfold node. fo. Qed.
#[local] Hint Resolve fo_node : shadow.
Lemma fo_put_node id n : fo (put_node id n) (put_node id n).
Proof. unfold put_node. fo. Qed.
#[local] Hint Resolve fo_put_node : shadow.
Lemma fo_alloc n : fo (alloc n) (alloc n).
Proof. unfold alloc. fo. Qed.
#[local] Hint Resolve fo_alloc : shadow.
Lemma fo_mark_dirty id : fo (mark_dirty id) (mark_dirty id).
Proof. unfold mark_dirty. fo. Qed.
#[local] Hint Resolve fo_mark_dirty : shadow.
Lemma fo_subtree_has_messages id : fo (subtree_has_messages id) (subtree_has_messages id).
Proof. unfold subtree_has_messages. fo. Qed.
#[local] Hint Resolve fo_subtree_has_messages : shadow.
Lemma fo_find_buffered_child cs : fo (find_buffered_child cs) (find_buffered_child cs).
Proof. induction cs; cbn [find_buffered_child]; fo. Qed.
#[local] Hint Resolve fo_find_buffered_child : shadow.
Lemma fo_buffer_len id : fo (buffer_len id) (buffer_len id).
Proof. unfold buffer_len. fo. Qed.
#[local] Hint Resolve fo_buffer_len : shadow.
Lemma fo_split_leaf id : fo (split_leaf id) (split_leaf id).
Proof. unfold split_leaf. fo. Qed.
#[local] Hint Resolve fo_split_leaf : shadow.
Lemma fo_split_internal id : fo (split_internal id) (split_internal id).
Proof. unfold split_internal. fo. Qed.
#[local] Hint Resolve fo_split_internal : shadow.
Lemma fo_split_if_needed id : fo (split_if_needed id) (split_if_needed id).
Proof. unfold split_if_needed. fo. Qed.
#[local] Hint Resolve fo_split_if_needed : shadow.
Lemma fo_settle id : fo (settle id) (settle id).
Proof. unfold settle. fo. Qed.
#[local] Hint Resolve fo_settle : shadow.
Lemma fo_remove_child id c : fo (remove_child id c) (remove_child id c).
Proof. unfold remove_child. fo. Qed.
#[local] Hint Resolve fo_remove_child : shadow.
Lemma fo_integrate_splits id ps : fo (integrate_splits id ps) (integrate_splits id ps).
Proof. unfold integrate_splits. fo. Qed.
#[local] Hint Resolve fo_integrate_splits : shadow.
Lemma fo_apply_batch id (b : BTreeMap Message) n : fo (apply_batch id b n) (apply_batch id b n).
Proof. unfold apply_batch. fo. Qed.
#[local] Hint Resolve fo_apply_batch : shadow.
End operations.
#[export] Hint Resolve fo_node fo_put_node fo_alloc fo_mark_dirty fo_subtree_has_messages fo_find_buffered_child fo_buffer_len fo_split_leaf fo_split_internal fo_split_if_needed fo_settle fo_remove_child fo_integrate_splits fo_apply_batch : shadow.

(** ** A decision *)

(** [pick_and_extract] after the choice: the policy has no part in it. *)
Definition extract_chosen {P} `{FlushPolicy P} (id : NodeId) (pivots : list Key) (children : list NodeId)
    (buffer : BTreeMap Message) (occupancies : list nat) (chosen : nat)
    : M (BeTree P) (nat * NodeId * list nat * BTreeMap Message) :=
  _ ← assert_ (match occupancies !! chosen with Some count => 0 <? count | None => false end);
  _ ← mark_dirty id;
  '(buffer, batch) ← lift (extract_batch pivots buffer chosen);
  _ ← put_node id (Internal pivots children buffer);
  child_id ← lift (expect (children !! chosen));
  mret (chosen, child_id, occupancies, batch).

Definition decision_ctx {P} (self : BeTree P) (id : NodeId) (depth : nat) (buffer : BTreeMap Message)
    (occupancies : list nat) (pending_bytes : list Z) (dirties : list bool) : FlushCtx :=
  mkFlushCtx id depth occupancies pending_bytes dirties (bt_len buffer) (ops_since_commit self).

Lemma extract_chosen_trace {P} `{FlushPolicy P} id ps chs b occ chosen (s : BeTree P) p s1 :
  extract_chosen id ps chs b occ chosen s = Ok (p, s1) → trace s1 = trace s ∧ p.1.1.1 = chosen.
Proof.
  unfold extract_chosen, mark_dirty, put_node, assert_, mbind, M_bind, get_, lift, modify, mret, M_ret.
  destruct (oassert _); [|done..]. cbv beta iota. destruct (vec_update _ _ _); [|done..]. cbv beta iota.
  destruct (extract_batch _ _ _) as [[b' batch]| | |]; [|done..]. cbv beta iota.
  destruct (expect _); [|done..]. intros [= <- <-]. done.
Qed.

(** The head of [pick_and_extract] under a policy. *)
Lemma pick_and_extract_eq {P} `{FlushPolicy P} id depth (s : BeTree P) :
  pick_and_extract id depth true s =
  match nodes s !! id with
  | Some (Internal pivots children buffer) =>
      '(occ, bytes) ← occupancies_of pivots children buffer;
      dirties ← mapM (λ c, expect (dirty s !! c)) children;
      '(chosen, p) ← Policy.choose (policy s) (decision_ctx s id depth buffer occ bytes dirties);
      extract_chosen id pivots children buffer occ chosen (set_policy p s)
  | _ => Panic
  end.
Proof.
  unfold pick_and_extract, node, mbind, M_bind, get_, lift, modify, mret, M_ret.
  destruct (nodes s !! id) as [[ps chs b|e]|]; cbn [expect]; [|done..].
  destruct (occupancies_of ps chs b) as [[occ bytes]| | |]; cbn; [|done..].
  destruct (mapM _ chs) as [dirties| | |]; cbn; [|done..].
  unfold decision_ctx. by destruct (Policy.choose (policy s) _) as [[c p]| | |].
Qed.

Section decision.
Context {P : Type} `{FlushPolicy P} (script : list nat).

Lemma fo_extract_chosen off id ps chs b occ chosen :
  follows (P := P) script off (extract_chosen id ps chs b occ chosen) (extract_chosen id ps chs b occ chosen).
Proof. unfold extract_chosen. fo. Qed.

Lemma pick_and_extract_follows id depth s u p s1 :
  shadows (P := P) script 0 s u → pick_and_extract id depth true s = Ok (p, s1) →
  decisions s1 = decisions s ∧
  (decisions s ++ [p.1.1.1] `prefix_of` script →
   ∃ u1, pick_and_extract id depth true u = Ok (p, u1) ∧ shadows script 1 s1 u1).
Proof.
  intros (pol & -> & Hf & Hc). rewrite !pick_and_extract_eq. cbn [nodes dirty policy under].
  destruct (nodes s !! id) as [[ps chs b|e]|]; [|done..].
  destruct (occupancies_of ps chs b) as [[occ bytes]| | |]; cbn [mbind outcome_bind]; [|done..].
  destruct (mapM _ chs) as [dirties| | |]; cbn [mbind outcome_bind]; [|done..].
  change (decision_ctx (under pol s) id depth b occ bytes dirties) with (decision_ctx s id depth b occ bytes dirties).
  destruct (Policy.choose (policy s) _) as [[c p']| | |]; cbn [mbind outcome_bind]; [|done..].
  intros Hr. pose proof (extract_chosen_trace _ _ _ _ _ _ _ _ _ Hr) as [Ht Hp].
  assert (decisions s1 = decisions s) as Hd by (unfold decisions; by rewrite Ht).
  split; [exact Hd|]. rewrite Hp. intros Hpre.
  assert (script !! cursor pol = Some c) as Hlook.
  { eapply prefix_lookup_Some; [|exact Hpre]. rewrite Hc Nat.add_0_r. by rewrite list_lookup_middle. }
  set (ctx := decision_ctx s id depth b occ bytes dirties).
  assert (∃ pol', Policy.choose pol ctx = Ok (c, pol') ∧ forced pol' = script ∧ cursor pol' = cursor pol + 1)
    as (pol' & -> & Hf' & Hc').
  { unfold Policy.choose, Scripted_policy. rewrite Hf (proj2 (Nat.ltb_lt _ _)); [by eapply lookup_lt_Some|].
    rewrite Hlook. by eexists. }
  cbn [mbind outcome_bind].
  eapply (fo_run _ _ _ _ (fo_extract_chosen 1 id ps chs b occ c)); [|exact Hr|].
  - exists pol'. split; [done|]. split; [exact Hf'|]. rewrite Hc' Hc. unfold decisions. simpl. lia.
  - rewrite Hd. etrans; [|exact Hpre]. by apply prefix_app_r.
Qed.

(** A decision and its record. *)
Lemma fo_decide {B} id depth top (k : nat * NodeId * list nat * BTreeMap Message → M (BeTree P) B) k' (tf : bool) :
  (∀ p, follows script 0 (k p) (k' p)) →
  follows script 0
    (pick_and_extract id depth tf ≫= λ '(chosen, child_id, occ, batch),
      (if tf then modify (λ self, set_trace (Recorder_flush_decision (trace self) top occ chosen) self) else mret tt)
      ≫= λ _, k (chosen, child_id, occ, batch))
    (pick_and_extract id depth tf ≫= λ '(chosen, child_id, occ, batch),
      (if tf then modify (λ self, set_trace (Recorder_flush_decision (trace self) top occ chosen) self) else mret tt)
      ≫= λ _, k' (chosen, child_id, occ, batch)).
Proof.
  intros Hk. destruct tf; last first.
  { apply fo_bind.
    - unfold pick_and_extract. fo.
    - intros [[[chosen child_id] occ] batch]. apply fo_bind; [apply fo_ret|]. intros _. apply Hk. }
  assert (∀ (s1 : BeTree P) occ c, decisions (set_trace (Recorder_flush_decision (trace s1) top occ c) s1) =
    decisions s1 ++ [c]) as Hdec by (intros; unfold decisions; simpl; by rewrite omap_app).
  split.
  - intros s b s2 Hr. unfold mbind at 1, M_bind in Hr.
    destruct (pick_and_extract id depth true s) as [[[[[c ch] occ] batch] s1]| | |] eqn:E1; [|done..].
    assert (decisions s1 = decisions s) as Hd.
    { eapply (pick_and_extract_follows id depth s (under (mkScript script (length (decisions s)) [] true) s));
        [|exact E1]. eexists. split; [done|]. by split; [|simpl; lia]. }
    etrans; [|eapply (fo_grows _ _ _ _ (Hk _)), Hr]. rewrite Hdec Hd. by apply prefix_app_r.
  - intros s u b s2 Hs Hr Hp. unfold mbind at 1, M_bind in Hr. unfold mbind at 1, M_bind.
    destruct (pick_and_extract id depth true s) as [[[[[c ch] occ] batch] s1]| | |] eqn:E1; [|done..].
    pose proof (fo_grows _ _ _ _ (Hk _) _ _ _ Hr) as Hgr. rewrite Hdec in Hgr.
    destruct (pick_and_extract_follows id depth s u _ s1 Hs E1) as [Hd Hrun].
    destruct Hrun as (u1 & -> & pol & -> & Hf & Hc). { etrans; [|exact Hp]. by rewrite -Hd. }
    eapply (fo_run _ _ _ _ (Hk _)); [|exact Hr|exact Hp].
    exists pol. split; [done|]. split; [done|]. rewrite Hdec length_app Hc /=. lia.
Qed.
End decision.

(** ** The cascade and the public operations *)
Section public.
Context {P : Type} `{FlushPolicy P} `{Codec} (script : list nat).
Notation fo m m' := (follows (P := P) script 0 m m').

Lemma fo_flush_step n tf st : fo (flush_step n tf st) (flush_step n tf st).
Proof.
  unfold flush_step. destruct st as [|top rest]; [fo|]. apply fo_bind; [fo|]. intros len.
  destruct (len <=? n); [fo|].
  apply (fo_decide script top (length (top :: rest) - 1) top
    (λ '(c, ch, occ, batch), delivery ← apply_batch ch batch n; _) (λ '(c, ch, occ, batch), delivery ← apply_batch ch batch n; _) tf).
  intros [[[c ch] occ] batch]. fo.
Qed.
#[local] Hint Resolve fo_flush_step : shadow.
Lemma fo_flush_with id n tf : fo (flush_with id n tf) (flush_with id n tf).
Proof. unfold flush_with. fo. Qed.
#[local] Hint Resolve fo_flush_with : shadow.
Lemma fo_restore_step n tf u : fo (restore_step n tf u) (restore_step n tf u).
Proof. unfold restore_step. fo. Qed.
#[local] Hint Resolve fo_restore_step : shadow.
Lemma fo_collapse_step u : fo (collapse_step u) (collapse_step u).
Proof. unfold collapse_step. fo. Qed.
#[local] Hint Resolve fo_collapse_step : shadow.
Lemma fo_restore_root_with n tf : fo (restore_root_with n tf) (restore_root_with n tf).
Proof. unfold restore_root_with. fo. Qed.
#[local] Hint Resolve fo_restore_root_with : shadow.
Lemma fo_restore_root : fo restore_root restore_root.
Proof. unfold restore_root. fo. Qed.
#[local] Hint Resolve fo_restore_root : shadow.
Lemma fo_apply_root key m : fo (apply_root key m) (apply_root key m).
Proof. unfold apply_root. fo. Qed.
#[local] Hint Resolve fo_apply_root : shadow.
Lemma fo_next_op op : fo (next_op op) (next_op op).
Proof. unfold next_op. fo. Qed.
#[local] Hint Resolve fo_next_op : shadow.
Lemma fo_insert k v : fo (BeTree.insert k v) (BeTree.insert k v).
Proof. unfold BeTree.insert. fo. Qed.
#[local] Hint Resolve fo_insert : shadow.
Lemma fo_upsert k op : fo (BeTree.upsert k op) (BeTree.upsert k op).
Proof. unfold BeTree.upsert. fo. Qed.
#[local] Hint Resolve fo_upsert : shadow.
Lemma fo_get_step k l : fo (get_step k l) (get_step k l).
Proof. unfold get_step. fo. Qed.
#[local] Hint Resolve fo_get_step : shadow.
Lemma fo_bt_get k : fo (BeTree.get k) (BeTree.get k).
Proof. unfold BeTree.get. fo. Qed.
#[local] Hint Resolve fo_bt_get : shadow.
Lemma fo_scan_step l : fo (scan_step l) (scan_step l).
Proof. unfold scan_step. fo. Qed.
#[local] Hint Resolve fo_scan_step : shadow.
Lemma fo_scan lo hi : fo (BeTree.scan lo hi) (BeTree.scan lo hi).
Proof. unfold BeTree.scan. fo. Qed.
#[local] Hint Resolve fo_scan : shadow.
Lemma fo_record_payload_len id : fo (record_payload_len id) (record_payload_len id).
Proof. unfold record_payload_len. fo. Qed.
#[local] Hint Resolve fo_record_payload_len : shadow.
Lemma fo_charge b id : fo (charge b id) (charge b id).
Proof. unfold charge. fo. Qed.
#[local] Hint Resolve fo_charge : shadow.
Lemma fo_visit_step l : fo (visit_step l) (visit_step l).
Proof. unfold visit_step. fo. Qed.
#[local] Hint Resolve fo_visit_step : shadow.
Lemma fo_simulate_commit : fo simulate_commit simulate_commit.
Proof. unfold simulate_commit. fo. Qed.
#[local] Hint Resolve fo_simulate_commit : shadow.
Lemma fo_apply op i : fo (Oracle.apply op i) (Oracle.apply op i).
Proof. unfold Oracle.apply. fo. Qed.
#[local] Hint Resolve fo_apply : shadow.
Lemma fo_run_op_cost k c p : fo (run_op_cost k c p) (run_op_cost k c p).
Proof. unfold run_op_cost. fo. Qed.
#[local] Hint Resolve fo_run_op_cost : shadow.
Lemma fo_run_cost ops k : fo (run_cost ops k) (run_cost ops k).
Proof. unfold run_cost. fo. Qed.
#[local] Hint Resolve fo_run_cost : shadow.
End public.
