(* ===== verification/DiskProps.v ===== *)
(** * Correctness of the disk engine

    Crash safety of [commit], recovery, reads through the node cache, and
    the devices, each stated once, with a concrete instance. *)

From S2P Require Export DiskDemo ReadOnly Counting Survive.
From stdpp Require Import options.
From Stdlib Require Import ZArith.

Local Open Scope Z_scope.

(** What a crash during [commit] leaves on a [FaultyVfs]: an image that
    opens with the old or with the new tree, or a collision of the checksum
    in the slot that was being written. *)
Definition recovers_to `{Codec} {P} (d : DiskEngine FaultyVfs P) (sb : Superblock) (t0 t : tree)
    (img : list byte) (budget : option Z) (policy : P) : Prop :=
  (∃ e, open_on_with (FaultyVfs.from_image img) budget policy = Ok (ROk e) ∧
     (reopened sb t0 policy e ∨
      ∃ sb', last_seq sb' = d_next_seq d ∧ sb_params sb' = d_params d ∧ reopened sb' t policy e)) ∨
  (∃ sb' new, last_seq sb' = d_next_seq d ∧ status_of (decode_slot new) = Valid sb' ∧
     collision (slot_bytes_at (file d) (slot_of (Format.generation sb'))) new
       (slot_bytes_at img (slot_of (Format.generation sb')))).

Section props.
Context `{CodecLaws}.

Lemma safe_recovers {P} `{FlushPolicy P} (d : DiskEngine FaultyVfs P) sb t0 t img budget policy :
  Format.generation sb + 1 < u64_max → Z.of_nat (length img) ≤ u64_max → safe d sb t0 t img →
  recovers_to d sb t0 t img budget policy.
Proof using All.
  intros Hg Hl Hsafe. destruct (from_image_wf img Hl) as (Hwf & Hrel & Hh & Hp & Hv & Hi).
  assert (∀ sb' t', committed img sb' t' → Format.generation sb' < u64_max →
    ∃ e, open_on_with (FaultyVfs.from_image img) budget policy = Ok (ROk e) ∧ reopened sb' t' policy e) as Hopen.
  { intros sb' t' Hc Hlt. destruct (open_committed (FaultyVfs.from_image img) sb' t' budget policy)
      as (e & He & Hro & _); try done; [|by exists e].
    intros img' ->%Hi. done. }
  unfold recovers_to. destruct Hsafe as [Hc|(sb' & new & Hg' & Hs & Hpar & Hnew & [Hc|Hcol])].
  - destruct (Hopen _ _ Hc) as (e & ? & ?); [lia|]. left. exists e. split; [done|]. by left.
  - destruct (Hopen _ _ Hc) as (e & ? & ?); [lia|]. left. exists e. split; [done|]. right. by exists sb'.
  - right. exists sb', new. split; [exact Hs|]. split; [exact Hnew|exact Hcol].
Qed.

(** C3: [commit] on a fault-injecting device is crash safe.  Whether it
    returns statistics or an error, whatever a crash at any moment from the
    call to its return leaves (any position of the op log, any fate of each
    un-synced write), [open] on it succeeds and holds the previous tree under
    the previous superblock or the new tree under the new one, with all that
    the engine needs to go on; the alternative is that a torn superblock
    slot, neither the old nor the new one, carries its own checksum.  The
    crashes of earlier moments are as they were before the commit.  The
    engine has room in its counters, its dirty nodes form a subtree at the
    root and no two nodes share a record, as in every session of [Session]. *)
Theorem commit_crash_safe {P} `{FlushPolicy P} (d : DiskEngine FaultyVfs P) sb t0 t budget policy :
  disk_inv d → durable d sb t0 → cached d t (d_root d) → shaped t → connected d →
  unshared d t (d_root d) → NoDup (dirty_post (d_slots d) t (d_root d)) → commit_room d → d_poisoned d = false →
  ∃ r d', DiskCommit.commit d = Ok (r, d') ∧
    ∀ pos fates img, (pos ≤ FaultyVfs.log_len (d_vfs d'))%nat →
      FaultyVfs.crash_image_at pos fates (d_vfs d') = Ok img → Z.of_nat (length img) ≤ u64_max →
      ((pos < FaultyVfs.log_len (d_vfs d))%nat ∧ ∃ fates', FaultyVfs.crash_image_at pos fates' (d_vfs d) = Ok img) ∨
      recovers_to d sb t0 t img budget policy.
Proof using All.
  intros Hi Hd Hc Hsh Hcon Hap Hnd Hroom Hpo.
  destruct (commit_spec d sb t0 t Hi Hd Hc Hsh Hcon Hap Hnd Hroom Hpo) as (r & d' & Hr & [Hcr _] & _).
  exists r, d'. split; [done|]. intros pos fates img Hpos Himg Hl.
  assert (Format.generation sb + 1 < u64_max) as Hg.
  { pose proof (cr_generation _ Hroom). pose proof (du_generation _ _ _ Hd). lia. }
  assert (dev_history (d_vfs d') pos img) as Hh by (split; [done|by exists fates]).
  destruct (decide (pos < FaultyVfs.log_len (d_vfs d))%nat) as [Hlt|Hge].
  { destruct Hcr as (_ & Hcr & _). destruct (Hcr _ _ Hh) as [[_ Hf]|Hs]; [by left|right]. by apply safe_recovers. }
  right. apply safe_recovers; [done..|]. apply (crashes_since _ _ _ pos img Hcr); [apply Hi| |simpl; lia|done].
  intros img' Hi'. left. by apply Hd.
Qed.

(** C7: what [commit] promises on any device: it returns; [Ok] means that
    the tree in memory is durable under the next generation (every image a
    crash can leave commits it), that the engine still represents it with
    its invariants, that every dirty node was written exactly once, and that
    the statistics count the file's growth and one superblock slot, which is
    every byte that was written to the device; [Err] is
    an I/O error or a node too large to write, and it poisons the engine.
    The premises on the engine are those of the theorem before. *)
Theorem commit_durable {V P} `{DeviceLaws V} (d : DiskEngine V P) sb t0 t :
  disk_inv d → durable d sb t0 → cached d t (d_root d) → shaped t → connected d →
  unshared d t (d_root d) → NoDup (dirty_post (d_slots d) t (d_root d)) → commit_room d → d_poisoned d = false →
  ∃ r d', DiskCommit.commit d = Ok (r, d') ∧ match r with
    | ROk stats => ∃ sb', Format.generation sb' = Format.generation sb + 1 ∧
        last_seq sb' = d_next_seq d ∧ sb_params sb' = d_params d ∧ durable d' sb' t ∧ disk_inv d' ∧
        cached d' t (d_root d') ∧ d_poisoned d' = false ∧
        nodes_written stats = length (dirty_post (d_slots d) t (d_root d)) ∧
        bytes_written stats = watermark sb' - watermark sb + SUPERBLOCK_SLOT_SIZE ∧
        dev_bytes (d_vfs d') = dev_bytes (d_vfs d) + bytes_written stats
    | RErr e => (write_error e ∨ io_error d e) ∧ d_poisoned d' = true
    end.
Proof using All.
  intros Hi Hd Hc Hsh Hcon Hap Hnd Hroom Hpo.
  destruct (commit_spec d sb t0 t Hi Hd Hc Hsh Hcon Hap Hnd Hroom Hpo) as (r & d' & Hr & [_ Hpost] & Hpo').
  exists r, d'. split; [done|]. destruct r as [stats|e]; [|by split].
  destruct Hpost as (sb' & Hg & Hs & Hp & Hdu & Hi' & Hc' & _ & _ & Hn & Hb & Hby & _). exists sb'. by split_and!.
Qed.

(** reopening and reading.  On a device whose contents and crash images
    all commit the tree [t], [open] succeeds, under any cache budget, and
    [try_get] on the engine it returns answers what [t] says. *)
Theorem reopen_reads {V P} `{DeviceLaws V} `{FlushPolicy P} (v : V) sb t budget (policy : P) key :
  dev_wf v → dev_reliable v → dev_healthy v → dev_pending v = [] →
  (∀ img, dev_images v img → committed img sb t) → committed (dev_view v) sb t → shaped t →
  Format.generation sb < u64_max →
  Z.of_nat (depth t) * (Z.of_nat (depth t) + watermark sb + 2) ≤ u64_max →
  ∃ d d', open_on_with v budget policy = Ok (ROk d) ∧ reopened sb t policy d ∧
    Disk.try_get key d = Ok (ROk (vval (view t key)), d') ∧ cached d' t (d_root d').
Proof using All.
  intros Hwf Hrel Hh Hp Himg Hc Hsh Hg Hroom.
  destruct (open_spec v budget policy Hwf) as (r & Hopen & Hr).
  { rewrite (committed_recovers _ _ _ Hc). by intros ? [= <-]. }
  destruct (open_committed v sb t budget policy Hwf Hrel Hh Hp Himg Hc Hg) as (d & Hd & Hro & _).
  rewrite Hd in Hopen. injection Hopen as <-. destruct Hr as (sb' & Hrec & Hset & Hop).
  rewrite (committed_recovers _ _ _ Hc) in Hrec. injection Hrec as <-.
  destruct (try_get_spec d t key) as (r & d' & Hrun & Hi' & Hc' & Hsame & Hres).
  - apply Hro.
  - apply Hro.
  - done.
  - rewrite (ro_clean _ _ _ _ Hro). constructor.
  - pose proof (committed_watermark _ _ _ Hc). assert (0 ≤ DATA_START) by done.
    destruct Hop. split; rewrite ?op_cache ?op_watermark; simpl; nia.
  - exists d, d'. split; [done|]. split; [done|]. split; [|done]. rewrite Hrun.
    destruct r as [o|e]; [by rewrite Hres|]. destruct Hres as (e' & _ & Hn). exfalso. apply Hn.
    destruct Hset as (_ & _ & _ & _ & _ & _ & Hr). by apply Hr.
Qed.

(** [try_get] on an engine that [open] returned, from an image. *)
Lemma opened_get_safe {P} `{FlushPolicy P} (img : list byte) sb budget (policy : P) d key :
  Z.of_nat (length img) ≤ u64_max → recovery img = ROk sb →
  settles (FaultyVfs.from_image img) (d_vfs d) (watermark sb) → opened sb budget policy d →
  ∀ ov, (ov = false → Z.of_nat (length img) < 2 ^ 31) →
  wpo ov (Disk.try_get key) (λ r d', disk_inv d' ∧
    match r with ROk _ => True | RErr e => ∃ off, e = CorruptNode off end) d.
Proof using All.
  intros Hl Hrec Hset Hop ov Hov. assert (u64_max = 2 ^ 64 - 1) as Hmax by done.
  destruct (from_image_wf img) as (Hwf & Hrel & _ & _ & Hv & _); [lia|].
  destruct (opened_inv (FaultyVfs.from_image img) sb budget policy d) as (Hi & Hcl & _); [done|by rewrite Hv|done..|].
  destruct (recovery_Ok _ _ Hrec) as [Hcand _]. pose proof (proj2 Hcand) as Hw.
  destruct (candidate_wf _ _ Hcand) as [_ (Hr1 & Hr2 & _)]. assert (0 ≤ DATA_START ∧ 0 ≤ RECORD_HEADER_SIZE) by done.
  unfold Disk.try_get. apply wpo_bind, wpo_modify, wpo_bind, wpo_get.
  set (d1 := set_d_trace (Recorder_get (d_trace d) key) d). assert (same_store d d1) as Hss by by split_and!.
  eapply wpo_mono; [apply (get_loop_safe ov d1 (OnDisk (root_offset sb)) (root_offset sb) key)|].
  - by eapply disk_inv_same.
  - exact Hcl.
  - unfold d1. cbn [d_slots d_root set_d_trace]. by rewrite (op_slots _ _ _ _ Hop) (op_root _ _ _ _ Hop).
  - done.
  - unfold d1. cbn [d_watermark set_d_trace]. rewrite (op_watermark _ _ _ _ Hop). lia.
  - intros Eov. specialize (Hov Eov). unfold d1. split; cbn [d_watermark d_cache set_d_trace];
      rewrite ?(op_cache _ _ _ _ Hop) ?(op_watermark _ _ _ _ Hop); simpl; nia.
  - intros r d' (Hi' & _ & Hpost). split; [done|]. destruct r as [o|e]; [done|].
    destruct Hpost as [(e' & _ & Hn)|Hc]; [|exact Hc]. exfalso. apply Hn. by apply Hset.
Qed.

(** C16: [open] on a device with any contents whatsoever: it returns an engine
    for the superblock that recovery prescribes, a storage failure (only if
    the device can fail) or the typed refusal that recovery prescribes; or it
    ends in the overflow of the generation, only on a file whose newest
    authentic superblock carries the generation [u64::MAX].  There is no other
    panic, and no loop that does not end. *)
Theorem open_total {V P} `{DeviceLaws V} (v : V) budget (policy : P) :
  dev_wf v →
  match open_on_with v budget policy with
  | Ok (ROk d) => ∃ sb, recovery (dev_view v) = ROk sb ∧ Format.generation sb < u64_max ∧
      opened sb budget policy d ∧
      dev_view (d_vfs d) = resize (Z.to_nat (watermark sb)) x00 (dev_view v)
  | Ok (RErr (Io _)) => ¬ dev_reliable v
  | Ok (RErr e) => recovery (dev_view v) = RErr e
  | Overflow => ∃ sb, recovery (dev_view v) = ROk sb ∧ Format.generation sb = u64_max
  | Panic | OutOfFuel => False
  end.
Proof using All.
  intros Hwf. pose proof (open_cases v budget policy Hwf) as Hc.
  destruct (open_on_with v budget policy) as [[d|e]| | |]; try done.
  destruct Hc as (sb & Hrec & Hg & Hset & Hop). exists sb. split_and!; [done..|]. apply Hset.
Qed.

(** C19: a file whose newest authentic superblock carries the generation
    [u64::MAX] makes [open] panic: the successor of the generation
    overflows. *)
Theorem open_last_generation_panics {P} (img : list byte) budget (policy : P) sb :
  Z.of_nat (length img) ≤ u64_max → recovery img = ROk sb → Format.generation sb = u64_max →
  open_on_with (FaultyVfs.from_image img) budget policy = Overflow.
Proof using All.
  intros Hl Hrec Hg. destruct (from_image_wf img Hl) as (Hwf & Hrel & _ & _ & Hv & _).
  eapply open_overflow; [done|done| |done]. by rewrite Hv.
Qed.

(** C15: opening and reading a file with any contents whatsoever, on a device
    that does not fail.  [open] refuses the file as recovery prescribes, or
    overflows on a file whose newest authentic superblock carries the
    generation [u64::MAX], or accepts it; then [try_get] returns an answer or
    the typed error that a record is corrupt, or a counter of the cache
    overflows, which takes a file of at least 2 GiB.  No assertion fails, no
    index is out of range, and records that point at each other are not
    chased forever. *)
Theorem any_file_reads_safely {P} `{FlushPolicy P} (img : list byte) budget (policy : P) key :
  Z.of_nat (length img) ≤ u64_max →
  match open_on_with (FaultyVfs.from_image img) budget policy with
  | Ok (ROk d) =>
      match Disk.try_get key d with
      | Ok (r, d') => disk_inv d' ∧ match r with ROk _ => True | RErr e => ∃ off, e = CorruptNode off end
      | Overflow => 2 ^ 31 ≤ Z.of_nat (length img)
      | Panic | OutOfFuel => False
      end
  | Ok (RErr e) => recovery img = RErr e
  | Overflow => ∃ sb, recovery img = ROk sb ∧ Format.generation sb = u64_max
  | Panic | OutOfFuel => False
  end.
Proof using All.
  intros Hl. assert (u64_max = 2 ^ 64 - 1) as Hmax by done.
  destruct (from_image_wf img) as (Hwf & Hrel & _ & _ & Hv & _); [lia|].
  pose proof (open_cases (FaultyVfs.from_image img) budget policy Hwf) as Hr.
  destruct (open_on_with _ budget policy) as [[d|[]]| | |]; try done.
  destruct Hr as (sb & Hrec & _ & Hset & Hop). rewrite Hv in Hrec.
  pose proof (opened_get_safe img sb budget policy d key Hl Hrec Hset Hop (negb (Z.of_nat (length img) <? 2 ^ 31))) as Hg.
  assert (negb (Z.of_nat (length img) <? 2 ^ 31) = false → Z.of_nat (length img) < 2 ^ 31) as Hsmall
    by (intros ?%negb_false_iff; by apply Z.ltb_lt).
  specialize (Hg Hsmall). unfold wpo in Hg. destruct (Disk.try_get key d) as [[r d']| | |]; try done.
  apply negb_true_iff, Z.ltb_ge in Hg. done.
Qed.
End props.

Lemma commit_crash_safe_witness : ∃ r d', DiskCommit.commit demo_disk = Ok (r, d') ∧
  ∀ pos fates img, (pos ≤ FaultyVfs.log_len (d_vfs d'))%nat →
    FaultyVfs.crash_image_at pos fates (d_vfs d') = Ok img → Z.of_nat (length img) ≤ u64_max →
    ((pos < FaultyVfs.log_len (d_vfs demo_disk))%nat ∧
      ∃ fates', FaultyVfs.crash_image_at pos fates' (d_vfs demo_disk) = Ok img) ∨
    recovers_to demo_disk demo_sb demo_old demo_new img (Some 100) mkGreedyFullest.
Proof.
  exact (commit_crash_safe demo_disk demo_sb demo_old demo_new (Some 100) mkGreedyFullest demo_inv
    demo_durable demo_cached demo_shaped demo_connected demo_unshared demo_dirty_once demo_room demo_unpoisoned).
Defined.

Lemma commit_durable_witness : ∃ r d', DiskCommit.commit demo_disk = Ok (r, d') ∧ match r with
  | ROk stats => ∃ sb', Format.generation sb' = Format.generation demo_sb + 1 ∧
      last_seq sb' = d_next_seq demo_disk ∧ sb_params sb' = d_params demo_disk ∧
      durable d' sb' demo_new ∧ disk_inv d' ∧ cached d' demo_new (d_root d') ∧ d_poisoned d' = false ∧
      nodes_written stats = length (dirty_post (d_slots demo_disk) demo_new (d_root demo_disk)) ∧
      bytes_written stats = watermark sb' - watermark demo_sb + SUPERBLOCK_SLOT_SIZE ∧
        dev_bytes (d_vfs d') = dev_bytes (d_vfs demo_disk) + bytes_written stats
  | RErr e => (write_error e ∨ io_error demo_disk e) ∧ d_poisoned d' = true
  end.
Proof.
  exact (commit_durable demo_disk demo_sb demo_old demo_new demo_inv
    demo_durable demo_cached demo_shaped demo_connected demo_unshared demo_dirty_once demo_room demo_unpoisoned).
Defined.

Lemma reopen_reads_witness : ∃ d d', open_on_with (d_vfs demo_disk) None mkGreedyFullest = Ok (ROk d) ∧
  reopened demo_sb demo_old mkGreedyFullest d ∧
  Disk.try_get ka d = Ok (ROk (vval (view demo_old ka)), d') ∧ cached d' demo_old (d_root d').
Proof.
  apply (reopen_reads (d_vfs demo_disk) demo_sb demo_old None mkGreedyFullest ka).
  - exact demo_vfs.
  - exact demo_reliable.
  - exact (du_healthy _ _ _ demo_durable).
  - exact (du_pending _ _ _ demo_durable).
  - exact (du_images _ _ _ demo_durable).
  - exact demo_committed.
  - exact demo_old_shaped.
  - reflexivity.
  - apply Z.leb_le. reflexivity.
Defined.

Lemma open_total_witness : match open_on_with (d_vfs demo_disk) None mkGreedyFullest with
  | Ok (ROk d) => ∃ sb, recovery (dev_view (d_vfs demo_disk)) = ROk sb ∧ Format.generation sb < u64_max ∧
      opened sb None mkGreedyFullest d ∧
      dev_view (d_vfs d) = resize (Z.to_nat (watermark sb)) x00 (dev_view (d_vfs demo_disk))
  | Ok (RErr (Io _)) => ¬ dev_reliable (d_vfs demo_disk)
  | Ok (RErr e) => recovery (dev_view (d_vfs demo_disk)) = RErr e
  | Overflow => ∃ sb, recovery (dev_view (d_vfs demo_disk)) = ROk sb ∧ Format.generation sb = u64_max
  | Panic | OutOfFuel => False
  end.
Proof. apply (open_total (d_vfs demo_disk) None mkGreedyFullest). exact demo_vfs. Defined.

Lemma open_last_generation_panics_witness :
  open_on_with (FaultyVfs.from_image demo_last) None mkGreedyFullest = Overflow.
Proof.
  exact (open_last_generation_panics demo_last None mkGreedyFullest demo_last_sb demo_last_length
    demo_last_recovery eq_refl).
Defined.

Lemma any_file_reads_safely_witness :
  match open_on_with (FaultyVfs.from_image demo_corrupt) None mkGreedyFullest with
  | Ok (ROk d) =>
      match Disk.try_get ka d with
      | Ok (r, d') => disk_inv d' ∧ match r with ROk _ => True | RErr e => ∃ off, e = CorruptNode off end
      | Overflow => 2 ^ 31 ≤ Z.of_nat (length demo_corrupt)
      | Panic | OutOfFuel => False
      end
  | Ok (RErr e) => recovery demo_corrupt = RErr e
  | Overflow => ∃ sb, recovery demo_corrupt = ROk sb ∧ Format.generation sb = u64_max
  | Panic | OutOfFuel => False
  end.
Proof.
  apply (any_file_reads_safely demo_corrupt None mkGreedyFullest ka).
  etrans; [apply Z.lt_le_incl, demo_corrupt_length|]. apply Z.leb_le. reflexivity.
Defined.

(** ** The node cache and the devices *)

(** C18: [enforce_budget] never panics and never loops: whatever its budget,
    it keeps the invariants, evicts only clean nodes that are neither pinned
    nor just loaded, each back to the offset of the record it came from, and
    changes nothing else of the engine; so every tree represented before is
    represented after. *)
Theorem enforce_budget_safe {V P} `{DeviceLaws V} `{CodecLaws} (d : DiskEngine V P) pins just_loaded t :
  disk_inv d → cached d t (d_root d) →
  c_tick (d_cache d) + Z.of_nat (length (c_lru (d_cache d))) ≤ u64_max →
  c_evictions (d_cache d) + Z.of_nat (length (c_lru (d_cache d))) ≤ u64_max →
  c_overcommit_events (d_cache d) + 1 ≤ u64_max →
  ∃ d', enforce_budget pins just_loaded d = Ok (tt, d') ∧ disk_inv d' ∧
    refreshes (pinned pins just_loaded) d d' ∧ cached d' t (d_root d').
Proof.
  intros Hi Hc Ht He Ho.
  destruct (enforce_budget_spec pins just_loaded d Hi Ht He Ho) as ([] & d' & Hr & Hi' & Href & _).
  exists d'. split; [done|]. split; [done|]. split; [done|]. rewrite (rf_root _ _ _ Href).
  exact (cached_refreshes _ _ _ _ _ Hi Href Hc).
Qed.

Lemma enforce_budget_safe_witness : ∃ d', enforce_budget [] None demo_disk = Ok (tt, d') ∧ disk_inv d' ∧
  refreshes (pinned [] None) demo_disk d' ∧ cached d' demo_new (d_root d').
Proof.
  apply (enforce_budget_safe demo_disk [] None demo_new demo_inv demo_cached);
    rewrite demo_cache; apply Z.leb_le; reflexivity.
Defined.



(** C17: no operation but [commit] writes.  However many mutations, reads,
    scans, drains and walks follow a commit, in any order and whatever they
    return, the device is exactly as it was (so a crash, or an eviction of
    the whole engine, leaves the last commit), the generation and the
    watermark have not moved, and an engine that was poisoned still is: its
    [commit] is refused and changes nothing. *)
Theorem only_commit_writes {P} `{FlushPolicy P} `{CodecLaws} (d d' : DiskEngine FaultyVfs P) sb t0 :
  durable d sb t0 → rtc call_step d d' →
  d_vfs d' = d_vfs d ∧ d_watermark d' = d_watermark d ∧ durable d' sb t0 ∧
  (d_poisoned d = true → DiskCommit.commit d' = Ok (RErr Poisoned, d')).
Proof.
  intros Hd [Hr Hw Hg _ Hp]%calls_reading. apply faulty_only_read in Hr.
  split; [done|]. split; [done|]. split.
  - destruct Hd. unfold file in *. split; unfold file; rewrite ?Hr ?Hw ?Hg; assumption.
  - intros Hpo. unfold DiskCommit.commit, mbind, M_bind, get_. by rewrite (Hp Hpo).
Qed.

Lemma only_commit_writes_witness : durable demo_disk demo_sb demo_old ∧
  ∃ d', run_disk_call (CallUpsert ka (Add 1)) demo_disk = Ok (tt, d') ∧ d_vfs d' = d_vfs demo_disk ∧
    d_watermark d' = d_watermark demo_disk ∧ durable d' demo_sb demo_old ∧
    (d_poisoned demo_disk = true → DiskCommit.commit d' = Ok (RErr Poisoned, d')).
Proof.
  split; [exact demo_durable|].
  assert (match run_disk_call (CallUpsert ka (Add 1)) demo_disk with Ok _ => true | _ => false end = true) as Hok
    by (vm_compute; reflexivity).
  destruct (run_disk_call (CallUpsert ka (Add 1)) demo_disk) as [[[] d']| | |] eqn:E; [|discriminate..].
  exists d'. split; [reflexivity|].
  apply (only_commit_writes demo_disk d' demo_sb demo_old demo_durable).
  apply rtc_once. exists (CallUpsert ka (Add 1)). exact E.
Defined.

(** C21: [CountingVfs] is transparent and counts exactly: a sequence of
    calls gets from it the replies of the wrapped [Vfs], which ends in the
    same state (or panics where it panics), and the statistics grow by one
    operation and the requested number of bytes per call, failed calls
    included; [len] is free. *)
Theorem counting_exact {V} `{Vfs V} (cs : list VfsCall) (v : V) s :
  in_range (foldl tally s cs) →
  mapM run_vfs cs (mkCounting v s) =
  ('(rs, v') ← mapM run_vfs cs v; Ok (rs, mkCounting v' (foldl tally s cs))).
Proof.
  revert v s. induction cs as [|c cs IH]; intros v s Hs; [done|]. cbn [foldl] in *.
  cbn [mapM]. unfold mbind, M_bind, mret, M_ret.
  rewrite (run_counting c v s); [by eapply in_range_foldl|].
  destruct (run_vfs c v) as [[r v1]| | |]; [|done..]. cbn [mbind outcome_bind].
  rewrite (IH v1 _ Hs). by destruct (mapM run_vfs cs v1) as [[rs v2]| | |].
Qed.

Lemma counting_exact_witness :
  mapM run_vfs [VWrite 0 [x01; x02]; VSync; VRead 1 4; VLen] (mkCounting FaultyVfs.new (mkIoStats 0 0 0 0 0 0)) =
  ('(rs, v') ← mapM run_vfs [VWrite 0 [x01; x02]; VSync; VRead 1 4; VLen] FaultyVfs.new;
   Ok (rs, mkCounting v' (mkIoStats 1 4 1 2 1 0))).
Proof.
  apply (counting_exact [VWrite 0 [x01; x02]; VSync; VRead 1 4; VLen] FaultyVfs.new (mkIoStats 0 0 0 0 0 0)).
  repeat split; apply Z.leb_le; reflexivity.
Defined.
