(* ===== verification/StoreProps.v ===== *)
(** * Correctness of the disk engine as a store

    The disk engine implements the finite map, through calls, commits,
    crashes and reopenings, from its creation on. *)

From S2P Require Export DiskDemo Session Counter.
From stdpp Require Import options.
From Stdlib Require Import ZArith.

#[local] Existing Instance Disk.engine.

(** ** The demonstration engine is a store *)
#[export] Instance bincode_blank_slot : BlankSlot.
Proof. split. vm_compute. reflexivity. Qed.

Definition demo_version : version := ({[ka := v1]}, 1%Z).

Lemma demo_storable : storable demo_params.
Proof. split; [|split]; (split; apply Z.leb_le; reflexivity). Qed.

Lemma demo_created_Ok : create_on_with FaultyVfs.new demo_params (Some 100%Z) mkGreedyFullest =
  Ok (ROk (engine_of demo_created)).
Proof. vm_compute. reflexivity. Qed.

Lemma demo_created_store : store (engine_of demo_created) (∅, 0%Z) (∅, 0%Z).
Proof.
  destruct (from_image_wf []) as (Hwf & _ & Hh & Hp & Hv & _); [apply Z.leb_le; reflexivity|].
  destruct (create_store FaultyVfs.new demo_params (Some 100%Z) mkGreedyFullest eq_refl demo_storable Hwf Hh Hp Hv)
    as (r & Hr & Hst).
  pose proof demo_created_Ok as E. generalize dependent (engine_of demo_created). intros d E.
  rewrite Hr in E. injection E as ->. destruct Hst as (s & b & _ & Hst & _ & _). apply store_twin. by exists s.
Qed.

Lemma demo_insert : try_call (COp (Insert2 ka v1)) (engine_of demo_created) = Ok (ROk RUnit, demo_disk).
Proof. vm_compute. reflexivity. Qed.

Lemma demo_store : store demo_disk (∅, 0%Z) demo_version.
Proof.
  pose proof (try_call_store _ _ _ (COp (Insert2 ka v1)) demo_created_store) as Hpost.
  unfold wpo in Hpost. rewrite demo_insert in Hpost. apply Hpost.
Qed.

(** ** The theorems *)

(** C4: the disk engine implements the finite map.  On a device whose calls
    cannot fail, every history of inserts, deletes, upserts, gets and scans
    through the trait, on an engine that holds a map (however much of it is
    on disk, under any cache budget and any lawful policy), gets the replies
    of the abstract map; the engine then holds the map that the history
    prescribes, what the last commit saved is still saved, and the trace has
    grown by exactly the mutations.  No assertion fails and no loop runs
    away; the one way to stop early is the overflow of a [u64] counter. *)
Theorem disk_refines_map {V P} `{DeviceLaws V} `{CodecLaws} `{LawfulPolicy P} `{!BlindPolicy P}
    (d : DiskEngine V P) c0 c ks :
  store d c0 c → dev_reliable (d_vfs d) →
  match run_calls ks d with
  | Ok (rs, d') => rs = (spec_calls ks c.1).1 ∧ store d' c0 (called_all ks c) ∧
      ops_of (rec_v2 (d_trace d')) = ops_of (rec_v2 (d_trace d)) ++ number_ops c.2 (calls_ops ks)
  | Overflow => True
  | Panic | OutOfFuel => False
  end.
Proof.
  intros Hst Hrel. pose proof (store_calls d c0 c ks Hst Hrel) as Hr. unfold wpo in Hr.
  by destruct (run_calls ks d) as [[rs d']| | |].
Qed.

Definition demo_history : list Call :=
  [CGet ka; COp (Upsert2 ka (Add 1)); COp (Delete2 ka); COp (Insert2 ka v1); CScan Unbounded Unbounded].

Lemma disk_refines_map_witness : ∃ rs d', run_calls demo_history demo_disk = Ok (rs, d') ∧
  rs = (spec_calls demo_history demo_version.1).1 ∧ store d' (∅, 0%Z) (called_all demo_history demo_version) ∧
  ops_of (rec_v2 (d_trace d')) = ops_of (rec_v2 (d_trace demo_disk)) ++ number_ops 1 (calls_ops demo_history).
Proof.
  pose proof (disk_refines_map demo_disk (∅, 0%Z) demo_version demo_history demo_store demo_reliable) as Hr.
  assert (match run_calls demo_history demo_disk with Ok _ => true | _ => false end = true) as Hok
    by (vm_compute; reflexivity).
  destruct (run_calls demo_history demo_disk) as [[rs d']| | |]; [|discriminate..].
  exists rs, d'. split; [reflexivity|exact Hr].
Defined.

(** C2: sessions with crashes.  Take any session of an engine on a
    fault-injecting device: calls, commits, crashes between calls, crashes
    at any moment of a commit (whether or not it would have succeeded, with
    any fate of each un-synced write, a failing sync included), each crash
    followed by a reopening under any budget and policy.  The session is one
    of the specification, whose state is two versions of a map: calls act on
    the current one and reply from it, a commit saves it, a crash brings
    back the saved one, and a crash during a commit one of the two.  The
    engine at the end is a store again, so the session goes on.  (A crash
    whose torn superblock slot carries its own checksum by accident is left
    out.) *)
Theorem sessions_refine_map {P} `{CodecLaws} `{LawfulPolicy P} `{!BlindPolicy P}
    (d d' : DiskEngine FaultyVfs P) c0 c es :
  store d c0 c → run session_step d es d' →
  ∃ c0' c', run spec_step (c0, c) es (c0', c') ∧ store d' c0' c'.
Proof. apply session_refines. Qed.

Definition demo_saved : DemoEngine := after DiskCommit.commit demo_disk.
Definition demo_left : list byte :=
  match FaultyVfs.crash_image_at (FaultyVfs.log_len (d_vfs demo_saved)) [FDrop; FDrop] (d_vfs demo_saved) with
  | Ok img => img | _ => [] end.
Definition demo_back : DemoEngine := engine_of (open_on_with (restarted demo_left None) (Some 100%Z) mkGreedyFullest).
Definition demo_read : DemoEngine := after (try_call (CGet ka)) demo_back.

Lemma demo_saved_Ok : match DiskCommit.commit demo_disk with
  | Ok (ROk stats, d) => DiskCommit.commit demo_disk = Ok (ROk stats, demo_saved) | _ => False end.
Proof. vm_compute. reflexivity. Qed.
Lemma demo_left_Ok :
  FaultyVfs.crash_image_at (FaultyVfs.log_len (d_vfs demo_saved)) [FDrop; FDrop] (d_vfs demo_saved) = Ok demo_left.
Proof. vm_compute. reflexivity. Qed.
Lemma demo_left_length : (Z.of_nat (length demo_left) ≤ u64_max)%Z.
Proof. apply Z.leb_le. vm_compute. reflexivity. Qed.
Lemma demo_back_Ok : open_on_with (restarted demo_left None) (Some 100%Z) mkGreedyFullest = Ok (ROk demo_back).
Proof. vm_compute. reflexivity. Qed.
Lemma demo_read_Ok : try_call (CGet ka) demo_back = Ok (ROk (RValue (Some v1)), demo_read).
Proof. vm_compute. reflexivity. Qed.

Definition demo_events : list Event := [EvCommit; EvCrash; EvCall (CGet ka) (RValue (Some v1))].

Lemma demo_session : run session_step demo_disk demo_events demo_read.
Proof.
  apply (run_cons _ _ _ demo_saved).
  { pose proof demo_saved_Ok as Hok. destruct (DiskCommit.commit demo_disk) as [[[stats|] d]| | |] eqn:E; try contradiction.
    rewrite Hok in E. eapply session_commit; [exact demo_room|exact E]. }
  apply (run_cons _ _ _ demo_back).
  { eapply session_crash.
    - split; [apply Nat.le_refl|]. exists [FDrop; FDrop]. exact demo_left_Ok.
    - split; [exact demo_left_length|]. exists None, (Some 100%Z), mkGreedyFullest. exact demo_back_Ok. }
  apply (run_cons _ _ _ demo_read); [|apply run_nil]. apply session_call. exact demo_read_Ok.
Qed.

Lemma sessions_refine_map_witness : ∃ c0' c',
  run spec_step ((∅, 0%Z), demo_version) demo_events (c0', c') ∧ store demo_read c0' c'.
Proof. exact (sessions_refine_map demo_disk demo_read (∅, 0%Z) demo_version demo_events demo_store demo_session). Defined.

(** C5: one call of the fallible interface, on any device: it replies what
    the map replies and leaves the engine with what the map becomes, or it
    returns an I/O error of a device that can fail, or a [u64] counter
    overflows; the saved version is untouched by what it did. *)
Theorem disk_call_total {V P} `{DeviceLaws V} `{CodecLaws} `{LawfulPolicy P} `{!BlindPolicy P}
    (d : DiskEngine V P) c0 c k :
  store d c0 c →
  match try_call k d with
  | Ok (ROk r, d') => r = (spec_call k c.1).1 ∧ store d' c0 (called k c) ∧ dev_view (d_vfs d') = dev_view (d_vfs d)
  | Ok (RErr e, _) => ∃ e', e = Io e' ∧ ¬ dev_reliable (d_vfs d)
  | Overflow => True
  | Panic | OutOfFuel => False
  end.
Proof.
  intros Hst. pose proof (try_call_store d c0 c k Hst) as Hr. unfold wpo in Hr.
  destruct (try_call k d) as [[[r|e] d']| | |]; try done. destruct Hr. split_and!; [done|done|by apply same_view].
Qed.

Lemma disk_call_total_witness : ∃ d', try_call (COp (Delete2 ka)) demo_disk = Ok (ROk RUnit, d') ∧
  store d' (∅, 0%Z) (called (COp (Delete2 ka)) demo_version) ∧ dev_view (d_vfs d') = dev_view (d_vfs demo_disk).
Proof.
  pose proof (disk_call_total demo_disk (∅, 0%Z) demo_version (COp (Delete2 ka)) demo_store) as Hr.
  assert (match try_call (COp (Delete2 ka)) demo_disk with Ok (ROk _, _) => true | _ => false end = true) as Hok
    by (vm_compute; reflexivity).
  destruct (try_call (COp (Delete2 ka)) demo_disk) as [[[r|e] d']| | |]; [|discriminate..].
  destruct Hr as (-> & Hr). exists d'. split; [reflexivity|exact Hr].
Defined.

(** C6: [create_on_with] on an empty device returns an engine that holds the
    empty map and has saved it (so that sessions start there), mirrors the
    in-memory engine of the same parameters after its first simulated commit
    and has written the bytes which that commit charges; or the error
    of a device that can fail, or the refusal of a codec that cannot encode
    the root; illegal parameters panic, and a file that is not empty is
    refused. *)
Theorem create_holds_empty {V P} `{DeviceLaws V} `{CodecLaws, !BlankSlot} `{LawfulPolicy P} `{!BlindPolicy P}
    (v : V) prm budget (policy : P) :
  dev_wf v → dev_healthy v → dev_pending v = [] → storable prm →
  if legal_params prm then
    if bool_decide (dev_view v = []) then
      match create_on_with v prm budget policy with
      | Ok (ROk d) => store d (∅, 0%Z) (∅, 0%Z) ∧ ∃ s0 b s, with_policy prm policy = Ok s0 ∧
          simulate_commit s0 = Ok (b, s) ∧ twin d s (∅, 0%Z) (∅, 0%Z) ∧
          dev_bytes (d_vfs d) = (dev_bytes v + b)%Z
      | Ok (RErr e) => write_error e ∨ ∃ e', e = Io e' ∧ ¬ dev_reliable v
      | _ => False
      end
    else dev_reliable v → create_on_with v prm budget policy = Ok (RErr (NotEmpty (Z.of_nat (length (dev_view v)))))
  else create_on_with v prm budget policy = Panic.
Proof.
  intros Hwf Hh Hp Hprm. destruct (legal_params prm) eqn:Hl; [|by apply create_illegal].
  case_bool_decide as Hv; [|intros Hrel; by apply create_refuses].
  destruct (create_store v prm budget policy Hl Hprm Hwf Hh Hp Hv) as (r & -> & Hr). destruct r as [d|e]; [|done].
  destruct Hr as (s & b & Hs & Ht & Hb & _). split; [apply store_twin; by exists s|].
  exists (new_tree prm policy), b, s. split; [|done]. unfold with_policy. by rewrite Hl.
Qed.

Lemma create_holds_empty_witness :
  match create_on_with FaultyVfs.new demo_params None mkGreedyFullest with
  | Ok (ROk d) => store d (∅, 0%Z) (∅, 0%Z) ∧ ∃ s0 b s, with_policy demo_params mkGreedyFullest = Ok s0 ∧
      simulate_commit s0 = Ok (b, s) ∧ twin d s (∅, 0%Z) (∅, 0%Z) ∧
      dev_bytes (d_vfs d) = (dev_bytes FaultyVfs.new + b)%Z
  | Ok (RErr e) => write_error e ∨ ∃ e', e = Io e' ∧ ¬ dev_reliable FaultyVfs.new
  | _ => False
  end.
Proof.
  destruct (from_image_wf []) as (Hwf & _ & Hh & Hp & _ & _); [apply Z.leb_le; reflexivity|].
  pose proof (create_holds_empty FaultyVfs.new demo_params None mkGreedyFullest Hwf Hh Hp demo_storable) as Hr.
  change (legal_params demo_params) with true in Hr.
  change (bool_decide (dev_view FaultyVfs.new = [])) with true in Hr. cbv iota in Hr. exact Hr.
Defined.

(** C8: the cost model is exact.  Take an in-memory engine and a disk engine
    that mirrors it (after [create], after [open], or in the middle of a
    history, whatever the cache holds), and run the same calls and commits on
    both, the in-memory engine simulating its commits.  If the history
    succeeds on disk then it succeeds in memory with the same replies, and
    every call and commit has written to the device exactly the bytes that
    the model charges for it: calls none, a commit what [simulate_commit]
    returns.  The engines mirror each other again, with the version saved and
    the version held that the history prescribes.  Otherwise the device has
    failed, a node was too large to write, or a [u64] counter overflows. *)
Theorem cost_model_exact {V P} `{DeviceLaws V} `{CodecLaws} `{LawfulPolicy P} `{!BlindPolicy P}
    (policy : P) (d : DiskEngine V P) (s : BeTree P) c0 c ts :
  twin d s c0 c → roomy policy ts d s →
  match disk_tasks ts d with
  | Ok (ROk os, d') => ∃ s', mem_tasks policy ts s = Ok (os, s') ∧
      let '(c0', c') := tasks_versions ts (c0, c) in twin d' s' c0' c'
  | Ok (RErr e, _) => write_error e ∨ ∃ e', e = Io e'
  | Overflow => True
  | Panic | OutOfFuel => False
  end.
Proof.
  intros Ht Hroom. pose proof (disk_tasks_twin policy ts d s c0 c Ht Hroom) as Hr. unfold wpo in Hr.
  destruct (disk_tasks ts d) as [[[os|e] d']| | |]; try done. destruct Hr as (s' & Hs & Ht'). exists s'.
  split; [done|]. by destruct (tasks_versions ts (c0, c)).
Qed.

Definition demo_tasks : list Task := [TCommit; TCall (CGet ka); TCall (COp (Upsert2 ka (Add 1)))].

Lemma demo_twin : ∃ s, twin demo_disk s (∅, 0%Z) demo_version ∧ arena_fits s.
Proof.
  destruct (from_image_wf []) as (Hwf & _ & Hh & Hp & Hv & _); [apply Z.leb_le; reflexivity|].
  destruct (create_store FaultyVfs.new demo_params (Some 100%Z) mkGreedyFullest eq_refl demo_storable Hwf Hh Hp Hv)
    as (r & Hr & Hst).
  pose proof demo_created_Ok as E. pose proof demo_insert as Hins. revert E Hins.
  generalize (engine_of demo_created) demo_disk. intros d d1 E Hins. rewrite Hr in E. injection E as ->.
  destruct Hst as (s & b & Hs & Ht & _). pose proof (try_call_twin mkGreedyFullest d s _ _ (COp (Insert2 ka v1)) Ht) as Hpost.
  unfold wpo in Hpost. rewrite Hins in Hpost. destruct Hpost as [_ (s1 & Hs1 & Ht1)]. exists s1. split; [exact Ht1|].
  assert (match '(_, s) ← simulate_commit (new_tree demo_params mkGreedyFullest);
      mem_call mkGreedyFullest (COp (Insert2 ka v1)) s with
    | Ok (_, s) => Z.leb (Z.of_nat (length (nodes s))) u64_max | _ => false end = true) as Hfit
    by (vm_compute; reflexivity).
  rewrite Hs in Hfit. cbn [mbind outcome_bind] in Hfit. rewrite Hs1 in Hfit. apply Z.leb_le, Hfit.
Qed.

Lemma cost_model_exact_witness : ∃ s os s', twin demo_disk s (∅, 0%Z) demo_version ∧
  match disk_tasks demo_tasks demo_disk with Ok (ROk os', _) => os' = os | _ => False end ∧
  mem_tasks mkGreedyFullest demo_tasks s = Ok (os, s').
Proof.
  destruct demo_twin as (s & Ht & Hfit). exists s.
  assert (roomy mkGreedyFullest demo_tasks demo_disk s) as Hroom.
  { split; [intros _; split; [exact demo_room|exact Hfit]|]. intros o1 d1 s1 _ _.
    split; [discriminate|]. intros o2 d2 s2 _ _. split; [discriminate|]. intros o3 d3 s3 _ _. exact I. }
  pose proof (cost_model_exact mkGreedyFullest demo_disk s _ _ demo_tasks Ht Hroom) as Hr.
  assert (match disk_tasks demo_tasks demo_disk with Ok (ROk _, _) => true | _ => false end = true) as Hok
    by (vm_compute; reflexivity).
  destruct (disk_tasks demo_tasks demo_disk) as [[[os|e] d']| | |]; [|discriminate..].
  destruct Hr as (s' & Hs' & _). exists os, s'. split; [exact Ht|]. split; [reflexivity|exact Hs'].
Defined.

(** C10: The checker of the disk engine accepts.  On a device that does not fail,
    [check_invariants_full] on an engine that holds a map (under any budget,
    with any part of the tree on disk, before or after any calls) accepts:
    the whole tree is loaded, no resident node is evicted before the check,
    and the tree satisfies the invariants.  The contents, the saved version
    and the budget are as before; only a [u64] counter can end it early. *)
Theorem disk_checker_accepts {V P} `{DeviceLaws V} `{CodecLaws} `{LawfulPolicy P} `{!BlindPolicy P}
    (d : DiskEngine V P) c0 c :
  store d c0 c → dev_reliable (d_vfs d) →
  match Disk.check_invariants_full d with
  | Ok (r, d') => r = ROk tt ∧ store d' c0 c ∧ c_budget (d_cache d') = c_budget (d_cache d)
  | Overflow => True
  | Panic | OutOfFuel => False
  end.
Proof.
  intros Hst Hrel. pose proof (store_check d c0 c Hst Hrel) as Hr. unfold wpo in Hr.
  by destruct (Disk.check_invariants_full d) as [[r d']| | |].
Qed.

Lemma disk_checker_accepts_witness : ∃ d', Disk.check_invariants_full demo_disk = Ok (ROk tt, d') ∧
  store d' (∅, 0%Z) demo_version ∧ c_budget (d_cache d') = Some 100%Z.
Proof.
  pose proof (disk_checker_accepts demo_disk (∅, 0%Z) demo_version demo_store demo_reliable) as Hr.
  assert (match Disk.check_invariants_full demo_disk with Ok _ => true | _ => false end = true) as Hok
    by (vm_compute; reflexivity).
  assert (c_budget (d_cache demo_disk) = Some 100%Z) as Hb by (vm_compute; reflexivity).
  revert Hr Hok Hb. generalize demo_disk. intros d Hr Hok Hb.
  destruct (Disk.check_invariants_full d) as [[r d']| | |]; [|discriminate..].
  destruct Hr as (-> & Hst & Hb'). exists d'. split; [reflexivity|]. split; [exact Hst|]. rewrite Hb'. exact Hb.
Defined.

(** C11: The probes of the disk engine agree with memory.  On a disk engine that
    mirrors an in-memory one, [height] returns the height of that one, and
    [live_node_count] the number of nodes of its compact copy
    ([fork_for_sim]), whatever is on disk; both leave the engine mirroring
    it, or return a failure of the device. *)
Theorem disk_probes_agree {V P} `{DeviceLaws V} `{CodecLaws} `{LawfulPolicy P} `{!BlindPolicy P}
    (policy : P) (d : DiskEngine V P) (s : BeTree P) c0 c :
  twin d s c0 c →
  match Disk.height d with
  | Ok (ROk h, d') => BeTree.height s = Ok (h, s) ∧ twin d' s c0 c
  | Ok (RErr e, _) => ∃ e', e = Io e' ∧ ¬ dev_reliable (d_vfs d)
  | Overflow => True
  | Panic | OutOfFuel => False
  end ∧
  match Disk.live_node_count d with
  | Ok (ROk k, d') => twin d' s c0 c ∧
      ∃ fork : BeTree P, fork_for_sim s policy = Ok fork ∧ k = Z.of_nat (node_count fork)
  | Ok (RErr e, _) => ∃ e', e = Io e' ∧ ¬ dev_reliable (d_vfs d)
  | Overflow => True
  | Panic | OutOfFuel => False
  end.
Proof.
  intros Ht. split.
  - pose proof (height_twin d s c0 c Ht) as Hr. unfold wpo in Hr.
    by destruct (Disk.height d) as [[[h|e] d']| | |].
  - pose proof (live_node_count_twin policy d s c0 c Ht) as Hr. unfold wpo in Hr.
    by destruct (Disk.live_node_count d) as [[[k|e] d']| | |].
Qed.

Lemma disk_probes_agree_witness : ∃ s, twin demo_disk s (∅, 0%Z) demo_version ∧ BeTree.height s = Ok (1, s) ∧
  ∃ fork, fork_for_sim s mkGreedyFullest = Ok fork ∧ Z.of_nat (node_count fork) = 1%Z.
Proof.
  destruct demo_twin as (s & Ht & _). exists s. split; [exact Ht|].
  destruct (disk_probes_agree mkGreedyFullest demo_disk s _ _ Ht) as [Hh Hn].
  assert (match Disk.height demo_disk with Ok (ROk h, _) => Nat.eqb h 1 | _ => false end = true) as Eh
    by (vm_compute; reflexivity).
  assert (match Disk.live_node_count demo_disk with Ok (ROk k, _) => Z.eqb k 1 | _ => false end = true) as En
    by (vm_compute; reflexivity).
  revert Hh Hn Eh En. clear Ht. generalize demo_disk. intros d Hh Hn Eh En.
  destruct (Disk.height d) as [[[h|e] d']| | |]; [|discriminate..].
  destruct (Disk.live_node_count d) as [[[k|e] d2]| | |]; [|discriminate..].
  apply Nat.eqb_eq in Eh. apply Z.eqb_eq in En. subst h k. destruct Hh as [Hh _]. split; [exact Hh|].
  destruct Hn as (_ & fork & Hf & Hk). exists fork. split; [exact Hf|]. symmetry. exact Hk.
Defined.

(** C9: the counter example holds.  Both arms, blind upserts and
    read-modify-writes of any number of random increments (as long as their
    sum is an [i64]), committed as often as one likes, on a new file of a
    device that does not fail, end with the scan that the sums kept on the
    side prescribe: the assertion of the program cannot fail, nor can any of
    its [expect]s but for a node that is too large to write. *)
Theorem counter_never_diverges {V} `{DeviceLaws V} `{CodecLaws, !BlankSlot} OPS COMMIT_EVERY SEED (v : V) apply :
  apply = Counter.upsert_arm ∨ apply = Counter.rmw_arm →
  dev_wf v → dev_healthy v → dev_pending v = [] → dev_view v = [] → dev_reliable v →
  (10 * Z.of_nat OPS < 2 ^ 63)%Z →
  (∀ d, create_on_with v Params_default None mkGreedyFullest = Ok (ROk d) →
    Counter.arm_roomy COMMIT_EVERY apply OPS 0 SEED d = true) →
  match Counter.run_arm OPS COMMIT_EVERY SEED v apply with
  | Ok (ROk _) | Overflow => True
  | Ok (RErr e) => ∃ e', write_error e' ∧ (e = Counter.ExpectCreate e' ∨ e = Counter.ExpectCommit e')
  | Panic | OutOfFuel => False
  end.
Proof.
  intros Happly Hwf Hh Hp Hv Hrel Hmax Hroom.
  assert (Counter.increments apply) as Hi
    by (destruct Happly as [-> | ->]; [apply Counter.upsert_increments|apply Counter.rmw_increments]).
  exact (Counter.run_arm_spec OPS COMMIT_EVERY SEED apply v Hi Hwf Hh Hp Hv Hrel Hmax Hroom).
Qed.

Lemma counter_never_diverges_witness :
  match Counter.run_arm 5 2 0xC0FFEE FaultyVfs.new Counter.rmw_arm with
  | Ok (ROk _) | Overflow => True
  | Ok (RErr e) => ∃ e', write_error e' ∧ (e = Counter.ExpectCreate e' ∨ e = Counter.ExpectCommit e')
  | Panic | OutOfFuel => False
  end.
Proof.
  destruct (from_image_wf []) as (Hwf & Hr & Hh & Hp & _ & _); [apply Z.leb_le; reflexivity|].
  apply (counter_never_diverges 5 2 0xC0FFEE FaultyVfs.new Counter.rmw_arm);
    [by right|exact Hwf|exact Hh|exact Hp|reflexivity|reflexivity|reflexivity|].
  intros d Hd.
  assert (match create_on_with FaultyVfs.new Params_default None mkGreedyFullest with
    | Ok (ROk d) => Counter.arm_roomy 2 Counter.rmw_arm 5 0 0xC0FFEE d | _ => true end = true) as Hroom
    by (vm_compute; reflexivity).
  rewrite Hd in Hroom. exact Hroom.
Defined.

(** The example computes: five increments, two commits. *)
Example counter_runs : match Counter.run_arm 5 2 0xC0FFEE FaultyVfs.new Counter.upsert_arm with
  | Ok (ROk stats) => Counter.arm_nodes_written stats = 2 | _ => False end.
Proof. vm_compute. reflexivity. Qed.
