(* ===== verification/OracleProps.v ===== *)
(** * Correctness of the workload generator and of the oracle

    The stream of ops, the generator behind it, the choice among scored
    alternatives and the replay of a script; and the scenario on which the
    oracle is known to beat the greedy policy. *)

From S2P Require Export Scripted Bincode Demo.
From stdpp Require Import options.
From Stdlib Require Import ZArith.

Local Open Scope Z_scope.

#[export] Existing Instance bincode.

(** ** A scenario

    Twelve inserts split the root leaf into X (keys 0 to 3) and Y (4 to
    11); everything is drained and committed.  Updates of X's keys flush to
    X, which is then dirty; three more leave one message for X and two for
    Y.  The insert of key 10 makes the buffer overflow. *)
Definition spine_params : Params := mkParams 4 3 8.
Definition spine_steps (l : list (nat * Z)) : M (BeTree GreedyFullest) unit :=
  mfold (λ _ '(i, k), Oracle.apply (WInsert k) (Z.of_nat i)) tt l.
Definition spine_build : M (BeTree GreedyFullest) unit :=
  _ ← spine_steps (map (λ k, (100 + k, Z.of_nat k))%nat (seq 0 12));
  _ ← drain;
  _ ← simulate_commit;
  _ ← spine_steps (map (λ k, (200 + k, Z.of_nat k))%nat (seq 0 4));
  spine_steps [(300%nat, 8); (301%nat, 9); (302%nat, 0)].
Definition empty_tree : BeTree GreedyFullest :=
  mkBeTree spine_params [Leaf ∅] [true] 0 0 0 mkGreedyFullest Recorder_default.
Definition spine : BeTree GreedyFullest :=
  match spine_build empty_tree with Ok (_, s) => s | _ => empty_tree end.
Definition spine_ops : list WorkOp := [WInsert 10].
Definition spine_cfg : OracleCfg := mkCfg 1000000 1 10 99.

(** The greedy policy flushes Y, for 4728 bytes; the oracle measures both
    alternatives and flushes the dirty child X, for 4476. *)
Lemma spine_improved : ∃ o ctx, improved_run spine spine_ops spine_cfg = Ok o ∧ script o = [0%nat] ∧
  records o = [mkLogRecord 0 0 ctx [mkAltCost 0 4476; mkAltCost 1 4728] 0 1].
Proof.
  assert (match improved_run spine spine_ops spine_cfg with
    | Ok (mkImproved [0%nat] [mkLogRecord 0 0 ctx [mkAltCost 0 4476; mkAltCost 1 4728] 0 1]) => true
    | _ => false end = true) as E by (vm_compute; reflexivity).
  destruct (improved_run spine spine_ops spine_cfg) as [[sc rs]| | |]; [|done..].
  repeat case_match; simplify_eq. by eexists _, _.
Qed.
Lemma spine_greedy : greedy_cost spine spine_ops 1000000 = Ok (4728, 1).
Proof. vm_compute. reflexivity. Qed.
Lemma spine_scripted : scripted_cost spine spine_ops 1000000 [0%nat] = Ok 4476.
Proof. vm_compute. reflexivity. Qed.

(** ** The generator *)

(** C35: SplitMix64 has full period: within 2^64 draws from any state no
    output repeats, every output is a [u64], and after 2^64 draws the state
    is the first one again; the stateless [mix64] that scrambles the Zipfian
    ranks is injective on [u64]. *)
Theorem splitmix_full_period n s :
  u64 s → Z.of_nat n ≤ 2 ^ 64 →
  (∃ zs s', draws n (mkSplitMix64 s) = Ok (zs, mkSplitMix64 s') ∧ length zs = n ∧ NoDup zs ∧
     Forall u64 zs ∧ (Z.of_nat n = 2 ^ 64 → s' = s)) ∧
  ∀ x y, u64 x → u64 y → mix64 x = mix64 y → x = y.
Proof.
  intros Hs Hn. split; [|apply mix64_inj].
  destruct (draws_spec n s Hs Hn) as (zs & Hr & Hl & Hnd & Hall). exists zs, (nth_state s n).
  split_and!; [done..|]. intros E. replace n with (Z.to_nat (2 ^ 64)) by lia. by apply full_period.
Qed.

Lemma splitmix_full_period_witness :
  (∃ zs s', draws 3 (mkSplitMix64 42) = Ok (zs, mkSplitMix64 s') ∧ length zs = 3%nat ∧ NoDup zs ∧
     Forall u64 zs ∧ (Z.of_nat 3 = 2 ^ 64 → s' = 42)) ∧
  ∀ x y, u64 x → u64 y → mix64 x = mix64 y → x = y.
Proof. apply (splitmix_full_period 3 42); [split; reflexivity || discriminate|discriminate]. Defined.

(** A rank function, to instantiate the stream: every draw is rank 1. *)
Definition demo_rank : ZipfRank := λ _ _, 1.

(** C34: a stream is what its arguments promise, whatever the Zipfian
    arithmetic computes: collecting it returns exactly [n] ops, each of a
    kind of the mix, with its key in the key space, deltas between 1 and 100
    and scans of 10 to 100 keys; sequential keys count up from 0 and wrap at
    the key space.  No counter overflows and no division is by zero. *)
Theorem op_stream_well_typed `{ZipfRank} mix dist keyspace n seed :
  0 < keyspace ≤ u64_max → (dist = Zipfian → 2 ≤ keyspace) → 0 ≤ n →
  ∃ ops, OpStream.ops mix dist keyspace n seed = Ok ops ∧ length ops = Z.to_nat n ∧
    Forall (op_ok mix keyspace) ops ∧ (dist = Sequential → sequential_from 0 keyspace ops).
Proof. apply ops_spec. Qed.

Lemma op_stream_well_typed_witness :
  ∃ ops, OpStream.ops (H := demo_rank) UpsertHeavy Zipfian 1000 50 7 = Ok ops ∧ length ops = Z.to_nat 50 ∧
    Forall (op_ok UpsertHeavy 1000) ops ∧ (Zipfian = Sequential → sequential_from 0 1000 ops).
Proof.
  apply (op_stream_well_typed (H := demo_rank) UpsertHeavy Zipfian 1000 50 7);
    [split; [reflexivity|discriminate]|discriminate|discriminate].
Defined.

(** ** The oracle *)

Lemma min_cost_None l : min_cost l = None → l = [].
Proof. destruct l as [|a l]; [done|]. simpl. by destruct (min_cost l). Qed.

(** [min_cost] is a member's cost and a lower bound. *)
Lemma min_cost_Some l m : min_cost l = Some m →
  (∃ a, a ∈ l ∧ window_cost a = m) ∧ ∀ b, b ∈ l → m ≤ window_cost b.
Proof.
  revert m. induction l as [|a l IH]; intros m; [done|]. cbn [min_cost].
  destruct (min_cost l) as [m'|] eqn:Em; intros [= <-].
  - destruct (IH _ eq_refl) as [(a' & Ha' & <-) Hle]. split.
    + destruct (Z.min_spec (window_cost a) (window_cost a')) as [[_ ->]|[_ ->]];
        [exists a|exists a']; split; by [left|right|].
    + intros b [->|Hb]%elem_of_cons; [lia|]. specialize (Hle _ Hb). lia.
  - apply min_cost_None in Em as ->. split; [exists a; split; [left|done]|].
    intros b [->|Hb]%elem_of_cons; [done|]. by apply not_elem_of_nil in Hb.
Qed.

Lemma find_first {A} (f : A → bool) l a : find f l = Some a →
  ∃ i, l !! i = Some a ∧ f a = true ∧ ∀ j b, (j < i)%nat → l !! j = Some b → f b = false.
Proof.
  induction l as [|x l IH]; [done|]. cbn [find]. destruct (f x) eqn:Ex.
  - intros [= <-]. exists 0%nat. split_and!; [done|done|lia].
  - intros (i & Hi & Ha & Hfirst)%IH. exists (S i). split_and!; [done|done|].
    intros [|j] b Hj Hb; [simpl in Hb; congruence|]. apply (Hfirst j); [lia|done].
Qed.

(** [pick_argmin] panics exactly when there is no alternative;
    otherwise it names an alternative of least cost: the greedy choice when
    that is one of them, else the first of them. *)
Theorem pick_argmin_correct alternatives greedy_choice :
  match pick_argmin alternatives greedy_choice with
  | Ok c => ∃ i a, alternatives !! i = Some a ∧ alt_child a = c ∧
      (∀ b, b ∈ alternatives → window_cost a ≤ window_cost b) ∧
      (c ≠ greedy_choice → ∀ j b, alternatives !! j = Some b → window_cost b = window_cost a →
         alt_child b ≠ greedy_choice ∧ (i ≤ j)%nat)
  | Panic => alternatives = []
  | Overflow | OutOfFuel => False
  end.
Proof.
  unfold pick_argmin. destruct (min_cost alternatives) as [m|] eqn:Em; cbn [expect mbind outcome_bind]; last first.
  { by apply min_cost_None. }
  apply min_cost_Some in Em as [(b0 & Hb0 & Hm) Hle].
  destruct (existsb _ alternatives) eqn:Eg.
  - apply existsb_exists in Eg as (a & Ha & [E1%Nat.eqb_eq E2%Z.eqb_eq]%andb_true_iff).
    apply list_elem_of_In, list_elem_of_lookup in Ha as [i Hi]. exists i, a. split_and!; [done|done| |done].
    intros b Hb. rewrite E2. by apply Hle.
  - destruct (find _ alternatives) as [a|] eqn:Ef; cbn [expect mbind outcome_bind].
    + apply find_first in Ef as (i & Hi & E2%Z.eqb_eq & Hfirst). exists i, a. split_and!; [done|done| |].
      * intros b Hb. rewrite E2. by apply Hle.
      * intros _ j b Hj Hb. split.
        -- intros Hc. assert (existsb (λ a, (alt_child a =? greedy_choice)%nat && (window_cost a =? m)) alternatives = true); [|congruence].
           apply existsb_exists. exists b. split; [by apply list_elem_of_In, list_elem_of_lookup_2 with j|].
           rewrite Hc Hb E2 Nat.eqb_refl Z.eqb_refl. done.
        -- destruct (decide (i ≤ j)%nat) as [|Hij]; [done|]. exfalso.
           specialize (Hfirst j b ltac:(lia) Hj). rewrite Hb E2 Z.eqb_refl in Hfirst. done.
    + eapply find_none in Ef; [|by apply list_elem_of_In]. rewrite Hm Z.eqb_refl in Ef. done.
Qed.

(** C33: a run is reproduced by the script of its own decisions.  Whatever
    policy made the choices, replaying them with [scripted_cost] from the
    same starting tree gives the same total cost, and its assertion that
    the script is used up exactly holds. *)
Theorem script_reproduces_run `{Codec} {P P'} `{FlushPolicy P'} (start : BeTree P) (chooser : P')
    ops interval tree cost tree' :
  fork_for_sim start chooser = Ok tree → run_cost ops interval tree = Ok (cost, tree') →
  scripted_cost start ops interval (decisions tree') = Ok cost.
Proof.
  intros Hf Hr.
  assert (fork_for_sim start ScriptState_default = Ok (under ScriptState_default tree) ∧ trace tree = Recorder_default)
    as [Hf' Ht].
  { revert Hf. unfold fork_for_sim. destruct (loopM _ _ _ _) as [[[order map] s1]| | |]; [|done..].
    cbn [mbind outcome_bind].
    destruct (mapM (λ id, expect (nodes start !! id) ≫= λ n, fork_node map n) order) as [ns| | |]; [|done..].
    cbn [mbind outcome_bind]. destruct (mapM _ order) as [ds| | |]; [|done..].
    cbn [mbind outcome_bind]. destruct (expect _) as [r| | |]; [|done..]. by intros [= <-]. }
  unfold scripted_cost, fork_from. rewrite Hf'. cbn [mbind outcome_bind].
  set (pol := mkScript (decisions tree') _ _ _). change (set_policy pol _) with (under pol tree).
  destruct (fo_run _ _ _ _ (fo_run_cost (decisions tree') ops interval) tree (under pol tree) cost tree')
    as (u & Hu & pol' & -> & _ & Hc); [|done|done|].
  - exists pol. split; [done|]. split; [done|]. unfold decisions. by rewrite Ht.
  - rewrite Hu. cbn [mbind outcome_bind policy under]. rewrite Hc Nat.add_0_r Nat.eqb_refl. done.
Qed.

Lemma script_reproduces_run_witness : ∃ tree cost tree',
  fork_for_sim spine mkGreedyFullest = Ok tree ∧ run_cost spine_ops 1000000 tree = Ok (cost, tree') ∧
  scripted_cost spine spine_ops 1000000 (decisions tree') = Ok cost.
Proof.
  assert (match fork_for_sim spine mkGreedyFullest with
    | Ok t => match run_cost spine_ops 1000000 t with Ok _ => true | _ => false end
    | _ => false end = true) as E by (vm_compute; reflexivity).
  destruct (fork_for_sim spine mkGreedyFullest) as [tree| | |] eqn:Ef; [|discriminate..].
  destruct (run_cost spine_ops 1000000 tree) as [[cost tree']| | |] eqn:Er; [|discriminate..].
  exists tree, cost, tree'. split; [reflexivity|]. split; [exact Er|].
  exact (script_reproduces_run spine mkGreedyFullest spine_ops 1000000 tree cost tree' Ef Er).
Defined.
